(* ===== verification/_CoqProject ===== *)
-Q . S2P
Prelude.v
Result.v
CacheLayout.v
FixedMessage.v
Concurrency.v
Clients.v
Speculation.v
Mutex.v
BoundedFifo.v
SPSCQueue.v
SPSCConcurrent.v
StreamClients.v
MPMCQueue.v
MPMCConcurrent.v
MPMCSequential.v
MulticastContract.v
SPMCMulticastQueue.v
VersionedSPMCQueue.v
VersionedConcurrent.v
VersionedSequential.v
BlockingQueue.v
BlockingConcurrent.v
SequenceTracker.v
Bytes.v
BenchmarkMessage.v
CommandLine.v
StressTester.v
BenchmarkDriver.v
Doubles.v
DoubleValues.v
BenchmarkReport.v
SPSCBenchmark.v
BenchmarkWork.v
BenchmarkWorkRuns.v
BenchmarkMulticast.v
StressSPSC.v
WorkSharing.v
StressMPMC.v
StressBlocking.v
StressClose.v
StressMulticast.v
Views.v
ReleaseAcquire.v
SPSCWeak.v
MPMCWeak.v
VersionedWeak.v
WeakMemory.v
SPSCCore.v
SPMCMutexCore.v
MPMCCore.v
