(* ===== verification/Prelude.v ===== *)
(** * Line64 / orbitqueue: bounded concurrent queues, verified

    The repository is a header-only C++20 library of five bounded queues
    ([src/include/orbitqueue]) with two programs that exercise them, a stress
    tester ([src/stress/queue_stress.cpp]) and a benchmark ([src/benchmarks]), and
    three C harnesses for a model checker ([src/verification/genmc]) that reduce the
    queues' protocols to their atomic accesses.  This development models the queues
    with their concurrent executions, the stress tester and the benchmark with their
    threads, the benchmark's report, and, under weak memory, the three harnesses and
    the three lock-free queues with the memory orders of their headers.

    ** The program and the files

    - [result.h], the statuses and result structs of every operation: [Result.v].
    - [fixed_message.h], the message slot used by the ring queues: [FixedMessage.v]
      ([assign], [copy_to]).
    - [spsc_queue.h], a ring with two counters for one producer and one consumer:
      [SPSCQueue.v] has the state and the member functions as pure functions,
      [SPSCConcurrent.v] the same code split at every access to a counter or slot,
      [SPSCWeak.v] the split code with the header's memory orders.
    - [mpmc_queue.h], a ring of cells with sequence numbers, claimed by
      compare-exchange: [MPMCQueue.v] (member functions), [MPMCSequential.v] (their
      use by one thread at a time), [MPMCConcurrent.v] (split code, any number of
      threads) and [MPMCWeak.v] (memory orders).
    - [spmc_multicast_queue.h], a ring of retained messages behind a mutex, read
      by consumers with their own cursors: [SPMCMulticastQueue.v].
    - [versioned_spmc_queue.h], the same service without a mutex, by versioned
      cells (a seqlock): [VersionedSPMCQueue.v], [VersionedSequential.v] (use by one
      thread at a time), [VersionedConcurrent.v] and [VersionedWeak.v] (memory orders
      and fences).
    - [blocking_queue.h], a closable queue with a mutex and two condition
      variables: [BlockingQueue.v] (the locked bodies and the step machine) and
      [BlockingConcurrent.v] (its theorems).
    - [detail/cache_layout.h], the padding of counters and cells: [CacheLayout.v].
    - [benchmark_support.h], the sequence tracker and its counting:
      [SequenceTracker.v]; [benchmark_message.h], benchmark payloads:
      [BenchmarkMessage.v], over [Bytes.v] (byte encodings, [std::mt19937_64]).
    - The command lines, payloads, failure recorder and exit statuses of the two
      programs: [StressTester.v] and [BenchmarkDriver.v], over [CommandLine.v]
      (errors and exits, [std::from_chars], decimal printing).
    - The runs of the stress tester, thread by thread: [StressSPSC.v] ([run_spsc]),
      [WorkSharing.v] with [StressMPMC.v] and [StressBlocking.v] ([run_mpmc] and
      [run_blocking], which share their producers and verdict), [StressClose.v]
      ([run_blocking_close_smoke]), [StressMulticast.v] ([run_spmc_multicast], over
      either multicast queue).
    - The runs of the benchmark, thread by thread: [SPSCBenchmark.v]
      ([run_spsc_adapter]), [BenchmarkWork.v] ([run_work_sharing] with the closures of
      [run_exclusive_pop_adapter], over any queue that keeps the promises of the class
      [WorkQueue]), [BenchmarkWorkRuns.v] (the adapters of [external_baselines] for
      [MPMCQueue] and [BlockingQueue], which keep them), [BenchmarkMulticast.v]
      ([run_spmc_multicast], over either multicast queue).
    - The benchmark's report, [json_escape], [append_json_array] and [to_json] of
      [benchmark_support.h] and [make_result] with its throughput figures:
      [BenchmarkReport.v], over [Doubles.v] (conversion, division and printing of
      [double]) and [DoubleValues.v] (their relative errors, and reading numbers back).
    - [verification/genmc]: [SPSCCore.v] ([spsc_core.c]), [MPMCCore.v]
      ([mpmc_core.c]) and [SPMCMutexCore.v] ([spmc_mutex_core.c]), over the
      release/acquire memory of [WeakMemory.v].

    Shared machinery: this file (64-bit integers, spans, ring positions, powers of
    two), [Concurrency.v] (objects as step machines, histories, executions,
    linearizability by simulation, wait freedom), [Speculation.v] (linearization
    of operations whose point is known only later), [Mutex.v] (objects whose
    operations run under one lock), [Clients.v] (programs that use an object, and
    the transfer of what is proved over a contract to its implementations) and
    [StreamClients.v] (one producer and one consumer of numbered messages).
    Contracts that clients rely on and queues implement: [BoundedFifo.v] (SPSC and
    MPMC), [MulticastContract.v] (both multicast queues, and the [Consumer]
    handles) and [blocking_spec] of [BlockingConcurrent.v].

    ** How the code is modelled

    Data have the widths of the code: [std::uint64_t] and [std::size_t] are
    integers modulo [2^64], every sum and difference of these types wraps
    ([+u], [-u]).  Subscripts out of range are undefined behaviour and have no
    result ([None], or an out-of-bounds state of a thread); the theorems show they
    do not happen.  Exceptions are values.  An object is given by the class
    [ConcurrentObject]: how a thread enters a call, the steps it can take on the
    shared state, and when it returns; [pool_step] interleaves any number of
    threads, and [exec] collects the history of calls and returns.  A queue is
    linearizable to a contract when every history of its step machine is a history
    of the contract executed atomically.  Each step machine is related to the
    sequential functions by a lemma of its own ([*_split_faithful]), and the sequential
    functions to the contract ([*_refines_*]).

    Steps of the queues and of the programs are interleaved under sequential
    consistency, one access of a shared variable per step, in the files named
    [*Concurrent.v] and in the runs.  Memory orders are modelled, on top of the views
    of [Views.v], in two places: for [SPSCQueue], [MPMCQueue] and [VersionedSPMCQueue]
    themselves ([ReleaseAcquire.v], with fences and exchanges, where a new message is
    always the newest one), and for the harnesses of [verification/genmc], which have the
    protocols of the queues for a fixed number of threads and calls ([WeakMemory.v]).  There an atomic variable has
    a history of messages, a load may return an old one, release and acquire pass
    views on, and a plain access that does not know every earlier conflicting access
    is a data race.  The contracts of the queues then let a thread decide with an old
    count ([stale_spec], [late_spec]), or without the operations that did not happen
    before ([causal_spec]); a theorem shows that this is needed.

    A run of the stress tester or the benchmark is a client ([Clients.v]): a
    transition system of all its threads whose calls are those of the queue.  Its
    theorems are proved over the queue's contract and hold over the queue by
    linearizability.  The clock is a flag that the environment may set at any time,
    so deadlines and time-outs can come at any point.

    ** What the theorems show

    - Linearizability of all five queues; for [MPMCQueue] to a FIFO whose [full]
      and [empty] answers may also be given while another operation is about to
      return (a theorem shows that this is needed); for [VersionedSPMCQueue] to the
      multicast contract with reported losses.
    - With the memory orders of their headers, [SPSCQueue], [MPMCQueue] and
      [VersionedSPMCQueue] are linearizable to these contracts for any capacity, payload
      size, number of threads and calls: no data race on a slot, no torn read.
    - Safety of the plain memory accesses: no two threads at the same slot or cell,
      no torn read, no subscript outside a ring, mutual exclusion.
    - Progress: wait freedom of SPSC and of the versioned queue with explicit
      bounds, a progress measure for MPMC, no lost wake-up and no deadlock for the
      blocking queue.
    - Sequential runs give exactly the results of the contracts (SPSC, MPMC with
      termination of its claim loops, versioned, multicast sessions); round trips of
      slots, payloads and command lines, the exact capacities each constructor
      accepts, the compile-time assertions on the layout and what they are for.
    - The two programs: payload checks are exact, accepted configurations are
      within the bounds the queues need, the accounting of a benchmark run is zero
      exactly for exactly-once delivery, exit statuses.
    - The runs have no false failures: over the library's queues no run of the
      stress tester records a failure, and one that ends has accounted for every
      message exactly once (or, for multicast, has lost only what was reported).
      In the runs of the benchmark no thread ever counts an error either, and over the
      blocking queue and the multicast queues the report has none.  The SPSC and MPMC
      runs of the benchmark report one exactly if published messages were left in the
      queue; two theorems give executions in which that happens over a correct queue.
    - The report of a benchmark run is one JSON object, and a reader written from the
      grammar of JSON finds in it exactly the reported names, the strings and integers
      unchanged, and every rate within [10 ^ -11] of the exact quotient.
    - The harnesses: with the memory orders of the code no execution has a data race
      or fails an assertion, for every choice of the messages read; with relaxed
      orders, the repository's negative controls, there is an execution that races.

    ** Bounds and fuel

    The concurrent theorems speak of executions of [n] steps with [n] (plus the
    capacity, for MPMC) below [2^64], so that no 64-bit sequence wraps; for SPSC
    the number is unbounded when the capacity divides [2^64] ([index_stable]).
    The blocking queue has no counters and no bound.  The claim loops of [MPMCQueue]
    take a fuel argument in the sequential functions, one more than the spurious
    failures is enough ([mpmc_run_refines_fifo]); the step machine has no fuel,
    and [mpmc_progress] bounds its retries.  The retry loop of the versioned queue
    is bounded by 64 attempts in the code.  The theorems on the runs inherit the
    bounds of their queues; in the work-sharing benchmark each of the at most 64
    producers may hold an identifier that no call has used yet, hence the 70 beside [n]
    there.  [decimal_exponent] of [Doubles.v] searches with fuel from the binary
    logarithm, which its lemmas show to be enough; the readers of [BenchmarkReport.v]
    take the length of the text as fuel, and the round trip shows that they get through.
    The theorems on the harnesses have no bound: they speak of every reachable state.

    ** Not modelled

    Weak memory in the runs of the programs, sequentially consistent accesses (neither
    the queues nor the harnesses have one), a store that another thread's newer store
    overtakes in modification order (no queue can perform one), version constants,
    allocation failure, usage texts and real time ([timestamp_utc] is a string given to
    the report), the random yields of the threads, the adapters of third-party queues,
    whose code is not part of the repository (parameters where the drivers ask whether
    they were built), the TLA+ models, which are specifications for a model checker
    and not code, and the repository's unit tests. *)

From Stdlib Require Export ZArith Lia.
From Stdlib Require Import Init.Byte.
From stdpp Require Export base list numbers option strings relations list_numbers.

#[export] Set Default Goal Selector "!".

Declare Scope orbit_scope.
Delimit Scope orbit_scope with orbit.
Open Scope orbit_scope.
#[global] Open Scope Z_scope.

(** ** Machine integers

    [std::uint64_t] and (on the supported 64-bit targets) [std::size_t] are
    integers modulo [2^64]; every C++ expression of these types is wrapped with
    [u64]. *)

Definition u64_modulus : Z := 2 ^ 64.

Definition u64 (x : Z) : Z := x mod u64_modulus.

Notation "x +u y" := (u64 (x + y)) (at level 50, left associativity) : orbit_scope.
Notation "x -u y" := (u64 (x - y)) (at level 50, left associativity) : orbit_scope.

(** The byte type of the payloads ([std::byte]). *)
Abbreviation byte := Byte.byte.

(** Array subscripts: a [std::size_t] value used as the index of a list. *)
Definition slot_of (i : Z) : nat := Z.to_nat i.

(** [std::copy(src.begin(), src.end(), dst.begin())]: the source overwrites a
    prefix of the destination. *)
Definition std_copy {A} (src dst : list A) : list A :=
  src ++ drop (length src) dst.

(** [std::copy_n(src.begin(), n, dst.begin())]. *)
Definition std_copy_n {A} (src : list A) (n : Z) (dst : list A) : list A :=
  std_copy (take (Z.to_nat n) src) dst.

(** The size of a span or vector, as a [std::size_t]. *)
Definition span_size {A} (l : list A) : Z := Z.of_nat (length l).

(** The standard exceptions the code throws. *)
Inductive exn : Type :=
| invalid_argument (what : string)
| logic_error (what : string).

#[export] Instance exn_eq_dec : EqDecision exn.
Proof. solve_decision. Defined.

Definition throwing (A : Type) : Type := exn + A.

Definition throw {A} (e : exn) : throwing A := inl e.
Definition returns {A} (a : A) : throwing A := inr a.

(** ** Tactics and hints *)

Create HintDb orbit discriminated.
Create Rewrite HintDb orbit.

(** Turn the boolean comparisons of the code into propositions. *)
Ltac reflect_bools :=
  repeat match goal with
  | H : (_ && _) = true |- _ => apply andb_true_iff in H; destruct H
  | H : (_ || _) = false |- _ => apply orb_false_iff in H; destruct H
  | H : Z.ltb _ _ = true |- _ => apply Z.ltb_lt in H
  | H : Z.ltb _ _ = false |- _ => apply Z.ltb_ge in H
  | H : Z.leb _ _ = true |- _ => apply Z.leb_le in H
  | H : Z.leb _ _ = false |- _ => apply Z.leb_gt in H
  | H : Z.eqb _ _ = true |- _ => apply Z.eqb_eq in H
  | H : Z.eqb _ _ = false |- _ => apply Z.eqb_neq in H
  | H : negb _ = true |- _ => apply negb_true_iff in H
  | H : negb _ = false |- _ => apply negb_false_iff in H
  end.

(** Case analysis on the boolean tests of the code, outermost first. *)
Ltac case_test b :=
  match b with
  | Z.ltb ?x ?y => destruct (Z.ltb_spec x y)
  | Z.leb ?x ?y => destruct (Z.leb_spec x y)
  | Z.eqb ?x ?y => destruct (Z.eqb_spec x y)
  end.

Ltac case_tests :=
  repeat match goal with |- context [if ?b then _ else _] => case_test b end.

Ltac case_tests_in H :=
  repeat match type of H with context [if ?b then _ else _] => case_test b end.

(** Equality of wrapped values from equality of the unbounded ones. *)
Ltac u64_eq := apply (f_equal u64); lia.

(** ** Lemmas on machine integers *)

Lemma u64_modulus_pos : 0 < u64_modulus.
Proof. reflexivity. Qed.

Lemma u64_range x : 0 <= u64 x < u64_modulus.
Proof. apply Z.mod_pos_bound, u64_modulus_pos. Qed.

Lemma u64_small x : 0 <= x < u64_modulus -> u64 x = x.
Proof. intros H. by apply Z.mod_small. Qed.

Lemma u64_idemp x : u64 (u64 x) = u64 x.
Proof. apply u64_small, u64_range. Qed.

Lemma u64_add_l x y : u64 (u64 x + y) = u64 (x + y).
Proof. unfold u64. by rewrite Zplus_mod_idemp_l. Qed.

Lemma u64_sub x y : u64 (u64 x - u64 y) = u64 (x - y).
Proof. unfold u64. by rewrite Zminus_mod_idemp_l, Zminus_mod_idemp_r. Qed.

Lemma u64_sub_l x y : u64 (u64 x - y) = u64 (x - y).
Proof. unfold u64. by rewrite Zminus_mod_idemp_l. Qed.

#[export] Hint Resolve u64_modulus_pos u64_range : orbit.
#[export] Hint Rewrite u64_idemp u64_add_l u64_sub : orbit.

(** Two positions that agree modulo [m] and are less than [m] apart are equal:
    the positions live in a ring of [m] cells never share a cell. *)
Lemma mod_window_inj m p q :
  0 < m -> Z.abs (p - q) < m -> p mod m = q mod m -> p = q.
Proof.
  intros Hm Hd He.
  pose proof (Z.div_mod p m) as Hp. pose proof (Z.div_mod q m) as Hq.
  assert (p - q = m * (p / m - q / m)) as Hdiff by lia.
  assert (p / m - q / m = 0) by nia. lia.
Qed.

(** Counters kept modulo [2^64] compare like the unbounded ones while they are
    close. *)
Lemma u64_window_inj p q :
  Z.abs (p - q) < u64_modulus -> u64 p = u64 q -> p = q.
Proof. apply mod_window_inj, u64_modulus_pos. Qed.

Lemma slot_of_lt i n : 0 <= i < Z.of_nat n -> (slot_of i < n)%nat.
Proof. unfold slot_of. lia. Qed.

Lemma slot_of_inj i j : 0 <= i -> 0 <= j -> slot_of i = slot_of j -> i = j.
Proof. unfold slot_of. lia. Qed.

Lemma ring_slot_lt m p n : 0 < m -> n = Z.to_nat m -> (slot_of (p mod m) < n)%nat.
Proof. intros Hm ->. pose proof (Z.mod_pos_bound p m Hm). unfold slot_of. lia. Qed.

Lemma ring_slot_ne m p q :
  0 < m -> Z.abs (p - q) < m -> p <> q -> slot_of (p mod m) <> slot_of (q mod m).
Proof.
  intros Hm Hd Hne He. apply Hne, (mod_window_inj m); try done.
  apply slot_of_inj in He; [done | |]; apply Z.mod_pos_bound; lia.
Qed.

Lemma ring_slot_period m p : 0 < m -> slot_of ((p + m) mod m) = slot_of (p mod m).
Proof.
  intros Hm. f_equal. rewrite <- (Z.mul_1_l m) at 1. by rewrite Z.mod_add by lia.
Qed.

(** The cell of an older position now belongs to a position of the last round. *)
Lemma ring_representative m p bound :
  0 < m -> p < bound ->
  exists p', bound - m <= p' < bound /\ p <= p' /\ (p' = p \/ p + m <= p') /\ p' mod m = p mod m.
Proof.
  intros Hm Hp. pose proof (Z.mod_pos_bound (bound - 1 - p) m Hm) as Hr.
  pose proof (Z.div_mod (bound - 1 - p) m) as Hd.
  assert (0 <= (bound - 1 - p) / m) by (apply Z.div_pos; lia).
  exists (p + (bound - 1 - p) / m * m). rewrite Z.mod_add by lia.
  split; [nia |]. split; [nia |]. split; [| done].
  destruct (Z.eq_dec ((bound - 1 - p) / m) 0) as [-> |]; [left; lia | right; nia].
Qed.

(** ** Lemmas on lists and spans *)

Lemma span_size_nonneg {A} (l : list A) : 0 <= span_size l.
Proof. unfold span_size. lia. Qed.

Lemma std_copy_length {A} (src dst : list A) :
  (length src <= length dst)%nat -> length (std_copy src dst) = length dst.
Proof. intros H. unfold std_copy. rewrite length_app, length_drop. lia. Qed.

Lemma std_copy_prefix {A} (src dst : list A) :
  take (length src) (std_copy src dst) = src.
Proof. unfold std_copy. by rewrite take_app_length. Qed.

Lemma std_copy_n_all {A} (src dst : list A) :
  std_copy_n src (span_size src) dst = std_copy src dst.
Proof. unfold std_copy_n, span_size. by rewrite Nat2Z.id, firstn_all. Qed.

#[export] Hint Resolve span_size_nonneg : orbit.

Lemma lookup_snoc_inv {A} (l : list A) x i y :
  (l ++ [x]) !! i = Some y ->
  l !! i = Some y \/ (i = length l /\ y = x).
Proof.
  intros H. apply lookup_app_Some in H as [H | [Hle H]]; [by left | right].
  destruct (i - length l)%nat eqn:E; [| done]. simplify_eq/=. split; [lia | done].
Qed.

Lemma sum_list_insert (xs : list nat) t x y :
  xs !! t = Some x -> (sum_list (<[t := y]> xs) + x = sum_list xs + y)%nat.
Proof.
  revert t. induction xs as [| z xs IH]; intros [| t] H; simplify_eq/=; [lia |].
  apply IH in H. lia.
Qed.

Lemma sum_list_bound (xs : list nat) b :
  Forall (fun x => (x <= b)%nat) xs -> (sum_list xs <= b * length xs)%nat.
Proof. induction 1; simpl; lia. Qed.

Lemma seqZ_snoc m n : 0 <= n -> seqZ m (n + 1) = seqZ m n ++ [m + n].
Proof. intros Hn. by rewrite seqZ_app by lia. Qed.

(** Sums of integers, for counting over threads and messages. *)
Definition sumZ (xs : list Z) : Z := foldr Z.add 0 xs.

Lemma sumZ_cons x xs : sumZ (x :: xs) = x + sumZ xs.
Proof. done. Qed.

Lemma sumZ_app xs ys : sumZ (xs ++ ys) = sumZ xs + sumZ ys.
Proof. induction xs as [| x xs IH]; simpl; [done |]. fold (sumZ (xs ++ ys)) (sumZ xs). lia. Qed.

Lemma sumZ_insert xs i x y : xs !! i = Some x -> sumZ (<[i := y]> xs) = sumZ xs - x + y.
Proof.
  revert i. induction xs as [| z xs IH]; intros [| i] H; simplify_eq/=; fold (sumZ xs); [lia |].
  apply IH in H. fold (sumZ (<[i := y]> xs)). lia.
Qed.

Lemma sumZ_fmap_insert {A} (f : A -> Z) xs i x y :
  xs !! i = Some x -> sumZ (f <$> <[i := y]> xs) = sumZ (f <$> xs) - f x + f y.
Proof. intros H. rewrite list_fmap_insert. apply sumZ_insert. by rewrite list_lookup_fmap, H. Qed.

Lemma sumZ_range lo hi xs :
  Forall (fun x => lo <= x <= hi) xs -> lo * Z.of_nat (length xs) <= sumZ xs <= hi * Z.of_nat (length xs).
Proof. induction 1 as [| x xs H _ IH]; simpl; [lia |]. fold (sumZ xs). lia. Qed.

Lemma sumZ_nonneg xs : Forall (fun x => 0 <= x) xs -> 0 <= sumZ xs.
Proof. induction 1 as [| x xs H _ IH]; rewrite ?sumZ_cons; [done | lia]. Qed.

Lemma sumZ_member x xs : Forall (fun x => 0 <= x) xs -> x ∈ xs -> x <= sumZ xs.
Proof.
  induction 1 as [| y ys Hy Hys IH]; intros Hin; [by apply not_elem_of_nil in Hin |].
  pose proof (sumZ_nonneg _ Hys).
  apply elem_of_cons in Hin as [-> | Hin]; simpl; fold (sumZ ys); [lia |]. specialize (IH Hin). lia.
Qed.

Lemma sumZ_zeros xs : Forall (fun x => x = 0) xs -> sumZ xs = 0.
Proof. induction 1; simpl; [done |]. lia. Qed.

(** ** Powers of two *)

(** [c & (c - 1) = 0] characterises the powers of two among the positive
    integers. *)
Lemma land_pred_pow2 k : 0 <= k -> Z.land (2 ^ k) (2 ^ k - 1) = 0.
Proof.
  intros Hk.
  replace (2 ^ k - 1) with (Z.ones k) by (rewrite Z.ones_equiv; lia).
  rewrite Z.land_ones by done. by apply Z.mod_same, Z.pow_nonzero.
Qed.

Lemma pow2_of_land_pred c :
  0 < c -> Z.land c (c - 1) = 0 -> c = 2 ^ Z.log2 c.
Proof.
  intros Hc Hl. pose proof (Z.log2_spec c Hc) as [Hlo Hhi].
  destruct (Z.eq_dec c (2 ^ Z.log2 c)) as [| Hne]; [done | exfalso].
  assert (Hl2 : Z.log2 (c - 1) = Z.log2 c).
  { apply Z.log2_unique; [apply Z.log2_nonneg | lia]. }
  assert (Hb : Z.testbit (Z.land c (c - 1)) (Z.log2 c) = true).
  { rewrite Z.land_spec, Z.bit_log2 by done.
    rewrite <- Hl2 at 1. apply Z.bit_log2.
    assert (0 < 2 ^ Z.log2 c) by (apply Z.pow_pos_nonneg; [lia | apply Z.log2_nonneg]).
    lia. }
  by rewrite Hl, Z.testbit_0_l in Hb.
Qed.

Lemma land_mask_mod k p : 0 <= k -> Z.land p (2 ^ k - 1) = p mod 2 ^ k.
Proof.
  intros Hk. replace (2 ^ k - 1) with (Z.ones k) by (rewrite Z.ones_equiv; lia).
  by apply Z.land_ones.
Qed.
