(* ===== verification/Result.v ===== *)
(** * Operation results ([include/orbitqueue/result.h])

    The status enumeration every queue operation reports, the result structs,
    [ok] and [to_string]. *)

From S2P Require Import Prelude.

Inductive QueueStatus : Type :=
| success
| empty
| full
| closed
| message_too_large
| invalid_capacity
| invalid_consumer
| consumer_lagged
| overwritten
| would_block.

#[export] Instance QueueStatus_eq_dec : EqDecision QueueStatus.
Proof. solve_decision. Defined.

Record WriteResult : Type := mkWrite {
  w_status : QueueStatus;
  w_sequence : Z;
}.

Record ReadResult : Type := mkRead {
  r_status : QueueStatus;
  bytes_read : Z;
  r_sequence : Z;
}.

#[export] Instance WriteResult_eq_dec : EqDecision WriteResult.
Proof. solve_decision. Defined.
#[export] Instance ReadResult_eq_dec : EqDecision ReadResult.
Proof. solve_decision. Defined.

Definition ok (status : QueueStatus) : bool :=
  match status with success => true | _ => false end.

(** The final return of the code, [unknown], is for values outside the enumeration. *)
Definition to_string (status : QueueStatus) : string :=
  match status with
  | success => "success"
  | empty => "empty"
  | full => "full"
  | closed => "closed"
  | message_too_large => "message_too_large"
  | invalid_capacity => "invalid_capacity"
  | invalid_consumer => "invalid_consumer"
  | consumer_lagged => "consumer_lagged"
  | overwritten => "overwritten"
  | would_block => "would_block"
  end.

Lemma ok_spec status : ok status = true <-> status = success.
Proof. by destruct status. Qed.

(** Distinct statuses print differently, so a log line identifies its status. *)
#[export] Instance to_string_inj : Inj (=) (=) to_string.
Proof. intros [] [] H; done. Qed.
