(* ===== verification/CacheLayout.v ===== *)
(** * Cache-line layout ([include/orbitqueue/detail/cache_layout.h])

    The layout of the padded counters and of the ring cells: [alignas],
    [alignof] and [sizeof] by the rules for class objects (members in order, each
    at the next multiple of its alignment, the size rounded up to the alignment), the
    compile-time assertions of the headers as boolean functions, and what they are for:
    two counters, or two cells, never lie in the same block of
    [destructive_interference_size] bytes.

    The interference size, the layout of [std::atomic] and of the standard classes that
    are members next to the counters belong to the standard library, and are
    parameters. *)

From S2P Require Import Prelude.

(** [sizeof] and [alignof] of a type. *)
Record layout : Type := mkLayout { size_of : Z; align_of : Z }.

Definition power_of_two (a : Z) : Prop := exists k, 0 <= k /\ a = 2 ^ k.

(** What holds of every object type: the alignment is a power of two and the size is
    a positive multiple of it. *)
Record layout_wf (t : layout) : Prop := {
  align_power : power_of_two (align_of t);
  size_positive : 0 < size_of t;
  size_aligned : (align_of t | size_of t);
}.

(** ** Class layout *)

Definition round_up (n a : Z) : Z := (n + a - 1) / a * a.

(** Offsets of the members placed from [offset] on, and the end of the last one. *)
Fixpoint place (offset : Z) (members : list layout) : list Z * Z :=
  match members with
  | [] => ([], offset)
  | t :: members =>
      let at_ := round_up offset (align_of t) in
      let '(offsets, end_) := place (at_ + size_of t) members in (at_ :: offsets, end_)
  end.

Definition strictest (align : Z) (members : list layout) : Z :=
  foldr (fun t a => Z.max (align_of t) a) align members.

(** [struct alignas(align) { members }] *)
Definition struct_layout (align : Z) (members : list layout) : layout :=
  let a := strictest align members in mkLayout (round_up (place 0 members).2 a) a.

Definition offset_of (members : list layout) (i : nat) : option Z := (place 0 members).1 !! i.

(** [std::array<T, n>]; an array of no elements takes the room of one. *)
Definition array_layout (n : Z) (t : layout) : layout := mkLayout (Z.max 1 n * size_of t) (align_of t).

(** ** Lemmas on alignment *)

Lemma power_of_two_pos a : power_of_two a -> 0 < a.
Proof. intros (k & Hk & ->). by apply Z.pow_pos_nonneg. Qed.

(** Of two powers of two the smaller divides the larger. *)
Lemma power_of_two_divides a b : power_of_two a -> power_of_two b -> a <= b -> (a | b).
Proof.
  intros (j & Hj & ->) (k & Hk & ->) Hle. exists (2 ^ (k - j)).
  assert (j <= k) by (apply (Z.pow_le_mono_r_iff 2); lia). rewrite <- Z.pow_add_r by lia. f_equal. lia.
Qed.

Lemma power_of_two_max a b : power_of_two a -> power_of_two b -> power_of_two (Z.max a b).
Proof. intros Ha Hb. by destruct (Z.max_spec a b) as [[_ ->] | [_ ->]]. Qed.

Lemma round_up_spec n a : 0 < a -> n <= round_up n a < n + a /\ (a | round_up n a).
Proof.
  intros Ha. unfold round_up. split; [| by exists ((n + a - 1) / a)].
  pose proof (Z.div_mod (n + a - 1) a ltac:(lia)). pose proof (Z.mod_pos_bound (n + a - 1) a Ha). lia.
Qed.

Lemma strictest_power align members :
  power_of_two align -> Forall layout_wf members -> power_of_two (strictest align members).
Proof. intros Ha Hm. induction Hm as [| t ts [Ht _ _] _ IH]; simpl; [done | by apply power_of_two_max]. Qed.

Lemma strictest_ge align members : align <= strictest align members.
Proof. induction members as [| t ts IH]; simpl; lia. Qed.

Lemma strictest_member align members t : t ∈ members -> align_of t <= strictest align members.
Proof.
  induction members as [| t' ts IH]; [by intros ?%not_elem_of_nil |].
  intros [-> | Hin]%elem_of_cons; simpl; [lia |]. specialize (IH Hin). lia.
Qed.

Lemma strictest_divides align members :
  power_of_two align -> Forall layout_wf members -> (align | strictest align members).
Proof.
  intros Ha Hm. apply power_of_two_divides; [done | by apply strictest_power | apply strictest_ge].
Qed.

Lemma place_length offset members offsets end_ :
  place offset members = (offsets, end_) -> length offsets = length members.
Proof.
  revert offset offsets end_. induction members as [| t ts IH]; intros offset offsets end_ E; simpl in E.
  - by injection E as <- <-.
  - destruct (place _ ts) as [os e] eqn:E'. injection E as <- <-. simpl. f_equal. by eapply IH.
Qed.

(** Members lie one after the other, each aligned. *)
Lemma place_spec offset members offsets end_ :
  place offset members = (offsets, end_) -> Forall layout_wf members ->
  offset <= end_ /\
  forall i t o, members !! i = Some t -> offsets !! i = Some o ->
    offset <= o /\ (align_of t | o) /\ o + size_of t <= end_ /\
    forall i' o', (i < i')%nat -> offsets !! i' = Some o' -> o + size_of t <= o'.
Proof.
  intros Hp Hm. revert offset offsets end_ Hp. induction Hm as [| t ts Ht _ IH]; intros offset offsets end_ Hp; simpl in Hp.
  { injection Hp as <- <-. split; [done |]. intros i t o Hi. by rewrite lookup_nil in Hi. }
  destruct (place _ ts) as [os e] eqn:E. injection Hp as <- <-. destruct (IH _ _ _ E) as [Hend Hall].
  destruct (round_up_spec offset (align_of t)) as [Hr Hd]; [apply power_of_two_pos, Ht |].
  pose proof (size_positive _ Ht). split; [lia |]. intros [| i] t' o Hi Ho; simplify_eq/=.
  - split; [lia |]. split; [done |]. split; [lia |]. intros [| i'] o' Hlt Ho'; [lia |]. simpl in Ho'.
    pose proof (place_length _ _ _ _ E) as Hlen.
    destruct (lookup_lt_is_Some_2 ts i') as [t'' Ht'']; [rewrite <- Hlen; by eapply lookup_lt_Some |].
    by destruct (Hall i' t'' o' Ht'' Ho').
  - destruct (Hall i t' o Hi Ho) as (H1 & H2 & H3 & H4). split; [lia |]. split; [done |]. split; [done |].
    intros [| i'] o' Hlt Ho'; [lia |]. apply (H4 i'); [lia | done].
Qed.

Lemma struct_layout_wf align members :
  power_of_two align -> Forall layout_wf members -> members <> [] -> layout_wf (struct_layout align members).
Proof.
  intros Ha Hm Hne. pose proof (strictest_power align members Ha Hm) as Hp. pose proof (power_of_two_pos _ Hp) as Hpos.
  destruct (round_up_spec (place 0 members).2 (strictest align members) Hpos) as [Hr Hd]. split; [done | | done]. simpl.
  destruct Hm as [| t ts Ht Hts]; [done |].
  destruct (place 0 (t :: ts)) as [os e] eqn:E. simpl in *. pose proof E as E'. simpl in E'.
  destruct (place _ ts) as [os' e'] eqn:E''. injection E' as <- <-.
  destruct (place_spec _ _ _ _ E'' Hts) as [Hend _].
  destruct (round_up_spec 0 (align_of t)) as [Hr0 _]; [apply power_of_two_pos, Ht |]. pose proof (size_positive _ Ht). lia.
Qed.

Lemma array_layout_wf n t : layout_wf t -> layout_wf (array_layout n t).
Proof. intros [H1 H2 H3]. split; simpl; [done | nia | by apply Z.divide_mul_r]. Qed.

(** ** The header *)

(** [std::hardware_destructive_interference_size] when the library has it, else 64. *)
Definition interference_size (hardware : option Z) : Z := default 64 hardware.

Lemma interference_size_power hardware :
  (forall h, hardware = Some h -> power_of_two h) -> power_of_two (interference_size hardware).
Proof. intros H. destruct hardware as [h |]; [by apply H | by exists 6]. Qed.

Section cache_layout.

(** [destructive_interference_size], [std::atomic<T>] for a type with the layout of
    [T], and the members of other classes. *)
Context (destructive_interference_size : Z) (atomic : layout -> layout).

Definition PaddedAtomic (T : layout) : layout := struct_layout destructive_interference_size [atomic T].

(** [alignof(x) >= destructive_interference_size && sizeof(x) % destructive_interference_size == 0] *)
Definition interference_aligned (t : layout) : bool :=
  (destructive_interference_size <=? align_of t) && (size_of t mod destructive_interference_size =? 0).

Definition padded_atomic_layout_is_valid (T : layout) : bool := interference_aligned (PaddedAtomic T).

(** The integer types of the headers. *)
Definition uint64 : layout := mkLayout 8 8.
Definition byte_layout : layout := mkLayout 1 1.

(** The data members of [FixedMessage<MaxPayloadSize>]. *)
Definition fixed_message_layout (MaxPayloadSize : Z) : layout :=
  struct_layout 1 [array_layout MaxPayloadSize byte_layout; uint64; uint64].

(** [MPMCQueue::Cell] and [VersionedSPMCQueue::Cell]. *)
Definition mpmc_cell_layout (MaxPayloadSize : Z) : layout :=
  struct_layout destructive_interference_size [atomic uint64; fixed_message_layout MaxPayloadSize].

Definition versioned_cell_layout (MaxPayloadSize : Z) : layout :=
  struct_layout destructive_interference_size
    [atomic uint64; atomic uint64; atomic uint64; array_layout MaxPayloadSize (atomic byte_layout)].

(** The data members of the three queue classes; [buffer] is the vector of slots or
    the pointer to the cells. *)
Definition spsc_members (buffer : layout) : list layout :=
  [uint64; buffer; PaddedAtomic uint64; PaddedAtomic uint64].

Definition mpmc_members (buffer : layout) : list layout :=
  [uint64; uint64; buffer; PaddedAtomic uint64; PaddedAtomic uint64].

Definition versioned_members (buffer : layout) : list layout := [uint64; buffer; uint64; PaddedAtomic uint64].

(** The block of memory an address lies in. *)
Definition block (address : Z) : Z := address / destructive_interference_size.

Hypothesis interference_power : power_of_two destructive_interference_size.
Hypothesis atomic_wf : forall t, layout_wf t -> layout_wf (atomic t).

Lemma uint64_wf : layout_wf uint64.
Proof. split; simpl; [by exists 3 | lia | done]. Qed.

Lemma byte_layout_wf : layout_wf byte_layout.
Proof. split; simpl; [by exists 0 | lia | done]. Qed.

Lemma fixed_message_wf MaxPayloadSize : layout_wf (fixed_message_layout MaxPayloadSize).
Proof.
  apply struct_layout_wf; [by exists 0 | | done].
  repeat apply Forall_cons_2; [apply array_layout_wf, byte_layout_wf | apply uint64_wf | apply uint64_wf | apply Forall_nil_2].
Qed.

(** Every aligned class passes its assertion. *)
Lemma struct_interference_aligned members :
  Forall layout_wf members -> members <> [] ->
  interference_aligned (struct_layout destructive_interference_size members) = true.
Proof using interference_power.
  intros Hm Hne. pose proof (power_of_two_pos _ interference_power). unfold interference_aligned.
  apply andb_true_iff. split.
  - apply Z.leb_le. simpl. apply strictest_ge.
  - apply Z.eqb_eq, Z.mod_divide; [lia |]. etrans; [by apply strictest_divides |].
    apply (size_aligned _ (struct_layout_wf _ _ interference_power Hm Hne)).
Qed.

(** Objects that start at a multiple of the interference size and end before the next
    one starts do not share a block. *)
Lemma blocks_apart a b x y n :
  (destructive_interference_size | b) -> a <= x < a + n -> a + n <= b -> b <= y -> block x < block y.
Proof using interference_power.
  intros [k ->] Hx Hab Hy. pose proof (power_of_two_pos _ interference_power). unfold block.
  apply Z.lt_le_trans with k; [apply Z.div_lt_upper_bound; lia | apply Z.div_le_lower_bound; lia].
Qed.

Lemma padded_atomic_wf T : layout_wf T -> layout_wf (PaddedAtomic T).
Proof using interference_power atomic_wf.
  intros HT. apply struct_layout_wf; [done | | done]. by apply Forall_cons_2; [apply atomic_wf | apply Forall_nil_2].
Qed.

Lemma padded_atomic_divides T :
  layout_wf T -> (destructive_interference_size | align_of (PaddedAtomic T)) /\
                 (destructive_interference_size | size_of (PaddedAtomic T)).
Proof using interference_power atomic_wf.
  intros HT. assert (Ha : (destructive_interference_size | align_of (PaddedAtomic T))).
  { apply strictest_divides; [done |]. by apply Forall_cons_2; [apply atomic_wf | apply Forall_nil_2]. }
  split; [done |]. etrans; [exact Ha | apply (size_aligned _ (padded_atomic_wf T HT))].
Qed.

(** The bytes of member [i] of an object at [base]. *)
Definition in_member (members : list layout) (base : Z) (i : nat) (x : Z) : Prop :=
  exists t o, members !! i = Some t /\ offset_of members i = Some o /\ base + o <= x < base + o + size_of t.

(** A padded member shares its blocks with no other member of the object. *)
Lemma padded_member_alone members base i j T x y :
  Forall layout_wf members -> layout_wf T -> (align_of (struct_layout 1 members) | base) ->
  members !! i = Some (PaddedAtomic T) -> i <> j ->
  in_member members base i x -> in_member members base j y -> block x <> block y.
Proof using interference_power atomic_wf.
  intros Hm HT Hbase Hi Hne (t & o & Ht & Ho & Hx) (t' & o' & Ht' & Ho' & Hy). rewrite Hi in Ht. injection Ht as <-.
  destruct (padded_atomic_divides T HT) as [Ha Hs]. unfold offset_of in Ho, Ho'.
  destruct (place 0 members) as [os e] eqn:E. simpl in Ho, Ho'. destruct (place_spec _ _ _ _ E Hm) as [_ Hall].
  destruct (Hall i _ o Hi Ho) as (_ & Hd & _ & Hafter). destruct (Hall j _ o' Ht' Ho') as (_ & _ & _ & Hafter').
  assert (Hb : (destructive_interference_size | base)).
  { etrans; [| exact Hbase]. simpl. etrans; [exact Ha |]. apply power_of_two_divides.
    - apply (align_power _ (padded_atomic_wf T HT)).
    - apply strictest_power; [by exists 0 | done].
    - apply strictest_member. by eapply list_elem_of_lookup_2. }
  assert (Ho1 : (destructive_interference_size | base + o)) by (apply Z.divide_add_r; [done | etrans; [exact Ha | exact Hd]]).
  destruct (decide (i < j)%nat) as [Hlt | Hge].
  - specialize (Hafter j o' Hlt Ho').
    assert (block x < block y); [| lia].
    apply (blocks_apart (base + o) (base + o + size_of (PaddedAtomic T)) x y (size_of (PaddedAtomic T))); [| lia | lia | lia].
    by apply Z.divide_add_r.
  - specialize (Hafter' i o ltac:(lia) Ho).
    assert (block y < block x); [| lia]. apply (blocks_apart (base + o') (base + o) y x (size_of t')); [done | lia | lia | lia].
Qed.

(** Different elements of an array of aligned cells share no block. *)
Lemma cells_apart t base i j x y :
  interference_aligned t = true -> (destructive_interference_size | base) -> 0 <= i -> i < j ->
  base + i * size_of t <= x < base + (i + 1) * size_of t -> base + j * size_of t <= y -> block x < block y.
Proof using interference_power.
  intros Hal Hbase Hi Hij Hx Hy. apply andb_true_iff in Hal as [_ Hs]. apply Z.eqb_eq, Z.mod_divide in Hs;
    [| pose proof (power_of_two_pos _ interference_power); lia].
  apply (blocks_apart (base + i * size_of t) (base + (i + 1) * size_of t) x y (size_of t)); [| nia | nia | nia].
  apply Z.divide_add_r; [done | by apply Z.divide_mul_r].
Qed.

End cache_layout.

(** The parameters of the header on a 64-bit target with lines of 64 bytes and
    atomics laid out as the plain types. *)
Definition plain_atomic (t : layout) : layout := t.

(** C23: The compile-time assertions of the headers hold for every interference size
    that is a power of two, every layout of [std::atomic] and every payload size: padded
    counters and ring cells are aligned to the interference size and their sizes are
    multiples of it. *)
Theorem cache_layout_assertions_hold hardware atomic T MaxPayloadSize :
  let D := interference_size hardware in
  (forall h, hardware = Some h -> power_of_two h) -> (forall t, layout_wf t -> layout_wf (atomic t)) -> layout_wf T ->
  padded_atomic_layout_is_valid D atomic T = true /\
  interference_aligned D (mpmc_cell_layout D atomic MaxPayloadSize) = true /\
  interference_aligned D (versioned_cell_layout D atomic MaxPayloadSize) = true.
Proof.
  intros D HD%interference_size_power Hat HT. pose proof (Hat _ uint64_wf) as H64.
  split; [| split]; apply struct_interference_aligned; try done.
  - by apply Forall_cons_2; [apply Hat | apply Forall_nil_2].
  - by repeat apply Forall_cons_2; [| apply fixed_message_wf | apply Forall_nil_2].
  - repeat apply Forall_cons_2; [done | done | done | | apply Forall_nil_2]. apply array_layout_wf, Hat, byte_layout_wf.
Qed.

Lemma cache_layout_assertions_hold_witness :
  padded_atomic_layout_is_valid 64 plain_atomic uint64 = true /\
  size_of (PaddedAtomic 64 plain_atomic uint64) = 64 /\ size_of (versioned_cell_layout 64 plain_atomic 100) = 128.
Proof.
  split; [| by vm_compute]. apply (cache_layout_assertions_hold None plain_atomic uint64 100); [done | done | apply uint64_wf].
Defined.

(** C24: No two of a queue's counters are in one block of [destructive_interference_size]
    bytes, and neither is a counter with another member of its queue, or two cells of a
    ring: what the padding is for. *)
Theorem counters_and_cells_share_no_block hardware atomic buffer :
  let D := interference_size hardware in
  (forall h, hardware = Some h -> power_of_two h) -> (forall t, layout_wf t -> layout_wf (atomic t)) -> layout_wf buffer ->
  (forall members base i j x y,
     members = spsc_members D atomic buffer \/ members = mpmc_members D atomic buffer \/
       members = versioned_members D atomic buffer ->
     (align_of (struct_layout 1 members) | base) -> members !! i = Some (PaddedAtomic D atomic uint64) -> i <> j ->
     in_member members base i x -> in_member members base j y -> block D x <> block D y) /\
  (forall MaxPayloadSize cell base i j x y,
     cell = mpmc_cell_layout D atomic MaxPayloadSize \/ cell = versioned_cell_layout D atomic MaxPayloadSize ->
     (align_of cell | base) -> 0 <= i < j ->
     base + i * size_of cell <= x < base + (i + 1) * size_of cell -> base + j * size_of cell <= y ->
     block D x <> block D y).
Proof.
  intros D HD%interference_size_power Hat Hbuf. fold D in HD. pose proof uint64_wf as H64. pose proof (padded_atomic_wf D atomic HD Hat uint64 H64) as Hpad. split.
  - intros members base i j x y Hmem Hbase Hi Hne. apply (padded_member_alone D atomic HD Hat members base i j uint64); try done.
    destruct Hmem as [-> | [-> | ->]]; repeat apply Forall_cons_2; try done; apply Forall_nil_2.
  - intros MaxPayloadSize cell base i j x y Hcell Hbase [H0 Hij] Hx Hy.
    assert (Hms : exists members, cell = struct_layout D members /\ Forall layout_wf members /\ members <> []).
    { destruct Hcell as [-> | ->]; eexists; (split; [reflexivity |]); (split; [| done]); repeat apply Forall_cons_2;
        auto using fixed_message_wf, array_layout_wf, byte_layout_wf. }
    destruct Hms as (members & -> & Hm & Hmne).
    assert (block D x < block D y); [| lia].
    eapply cells_apart; [done | by apply struct_interference_aligned | | exact H0 | exact Hij | exact Hx | exact Hy].
    etrans; [by apply strictest_divides | exact Hbase].
Qed.

(** The heads and tails of an [SPSCQueue] at address 128 with a vector of three pointers. *)
Lemma counters_and_cells_share_no_block_witness : block 64 192 <> block 64 256.
Proof.
  destruct (counters_and_cells_share_no_block (Some 64) plain_atomic (mkLayout 24 8)) as [H _]; [| done | |].
  - intros h [= <-]. by exists 6.
  - split; simpl; [by exists 3 | lia | by exists 3].
  - apply (H (spsc_members 64 plain_atomic (mkLayout 24 8)) 128 2%nat 3%nat); [by left | by exists 2 | done | done | |].
    + eexists _, 64. split; [done |]. split; [done |]. by vm_compute.
    + eexists _, 128. split; [done |]. split; [done |]. by vm_compute.
Defined.
