(* ===== verification/FixedMessage.v ===== *)
(** * Fixed-capacity payload slots ([include/orbitqueue/fixed_message.h])

    A [FixedMessage<MaxPayloadSize>] owns an array of [MaxPayloadSize] bytes, the
    number of bytes in use and the logical sequence of the message.  The template
    parameter is the section variable. *)

From S2P Require Import Prelude Result.

Record FixedMessage : Type := mkMessage {
  storage_ : list byte;
  size_ : Z;
  sequence_ : Z;
}.

(** What a slot holds, as the clients see it: sequence and payload bytes. *)
Abbreviation message := (Z * list byte)%type.

Definition payload_of (m : FixedMessage) : list byte :=
  take (Z.to_nat (size_ m)) (storage_ m).

Definition message_of (m : FixedMessage) : message := (sequence_ m, payload_of m).

(** The result of copying the message [msg] out to [destination]: the contract
    of [copy_to] stated on the payload. *)
Definition deliver (msg : message) (destination : list byte) : ReadResult * list byte :=
  if span_size destination <? span_size msg.2
  then (mkRead message_too_large 0 msg.1, destination)
  else (mkRead success (span_size msg.2) msg.1, std_copy msg.2 destination).

Section FixedMessage.

Context (MaxPayloadSize : Z).

(** [FixedMessage()]: zero-initialised members. *)
Definition fresh_message : FixedMessage :=
  mkMessage (replicate (Z.to_nat MaxPayloadSize) Byte.x00) 0 0.

Definition assign (m : FixedMessage) (payload : list byte) (sequence : Z)
    : WriteResult * FixedMessage :=
  if MaxPayloadSize <? span_size payload
  then (mkWrite message_too_large sequence, m)
  else
    let m' := mkMessage (std_copy payload (storage_ m)) (span_size payload) sequence in
    (mkWrite success (sequence_ m'), m').

Definition copy_to (m : FixedMessage) (destination : list byte)
    : ReadResult * list byte :=
  if span_size destination <? size_ m
  then (mkRead message_too_large 0 (sequence_ m), destination)
  else (mkRead success (size_ m) (sequence_ m),
        std_copy_n (storage_ m) (size_ m) destination).

Definition size (m : FixedMessage) : Z := size_ m.
Definition sequence (m : FixedMessage) : Z := sequence_ m.
Definition max_payload_size : Z := MaxPayloadSize.

(** ** Well-formed slots *)

Record message_wf (m : FixedMessage) : Prop := {
  storage_length : length (storage_ m) = Z.to_nat MaxPayloadSize;
  size_bounds : 0 <= size_ m <= MaxPayloadSize;
}.

Lemma fresh_message_wf : 0 <= MaxPayloadSize -> message_wf fresh_message.
Proof. intros H. split; simpl; [by rewrite length_replicate | lia]. Qed.

Lemma payload_of_size m : message_wf m -> span_size (payload_of m) = size_ m.
Proof.
  intros [Hl Hs]. unfold span_size, payload_of. rewrite length_take, Hl. lia.
Qed.

Lemma assign_fits m payload seq :
  span_size payload <= MaxPayloadSize ->
  assign m payload seq =
    (mkWrite success seq, mkMessage (std_copy payload (storage_ m)) (span_size payload) seq).
Proof. intros H. unfold assign. by rewrite (proj2 (Z.ltb_ge _ _)) by lia. Qed.

Lemma assign_too_large m payload seq :
  MaxPayloadSize < span_size payload ->
  assign m payload seq = (mkWrite message_too_large seq, m).
Proof. intros H. unfold assign. by rewrite (proj2 (Z.ltb_lt _ _)). Qed.

(** Every call keeps the slot well formed, on the error path too. *)
Lemma assign_wf m payload seq :
  message_wf m -> message_wf (assign m payload seq).2.
Proof.
  intros [Hl Hs]. unfold assign. case_tests; [done |]. split; simpl.
  - rewrite std_copy_length; [done |]. unfold span_size in *. lia.
  - pose proof (span_size_nonneg payload). lia.
Qed.

(** A successful assignment makes the slot hold exactly the payload and the
    sequence, whatever bytes an earlier message left in the storage. *)
Lemma assign_message_of m payload seq :
  span_size payload <= MaxPayloadSize ->
  message_of (assign m payload seq).2 = (seq, payload).
Proof.
  intros H. rewrite assign_fits by done. unfold message_of, payload_of; simpl.
  unfold span_size. by rewrite Nat2Z.id, std_copy_prefix.
Qed.

(** [copy_to] delivers the payload of the slot and nothing else. *)
Lemma copy_to_deliver m destination :
  message_wf m -> copy_to m destination = deliver (message_of m) destination.
Proof.
  intros Hwf. unfold copy_to, deliver; simpl. rewrite payload_of_size by done.
  case_tests; [done |]. by unfold std_copy_n.
Qed.

End FixedMessage.

#[export] Hint Resolve fresh_message_wf assign_wf : orbit.

(** ** What delivery gives the reader *)

Lemma deliver_length msg destination :
  length (deliver msg destination).2 = length destination.
Proof.
  unfold deliver. case_tests; [done |]. simpl. apply std_copy_length.
  unfold span_size in *. lia.
Qed.

Lemma deliver_success msg destination :
  span_size msg.2 <= span_size destination ->
  deliver msg destination =
    (mkRead success (span_size msg.2) msg.1, std_copy msg.2 destination).
Proof. intros H. unfold deliver. by rewrite (proj2 (Z.ltb_ge _ _)). Qed.

Lemma deliver_short msg destination :
  span_size destination < span_size msg.2 ->
  deliver msg destination = (mkRead message_too_large 0 msg.1, destination).
Proof. intros H. unfold deliver. by rewrite (proj2 (Z.ltb_lt _ _)). Qed.

Lemma deliver_not_empty msg destination r destination' :
  deliver msg destination = (r, destination') -> r_status r <> empty.
Proof. unfold deliver. intros H. case_tests_in H; by simplify_eq/=. Qed.

Lemma deliver_ok_iff msg destination :
  r_status (deliver msg destination).1 = success <-> span_size msg.2 <= span_size destination.
Proof. unfold deliver. case_tests; simpl; split; (done || lia). Qed.

(** C18: Writing a slot and reading it back returns the payload byte for byte, with
    its length and sequence, in front of the untouched rest of the destination;
    when either side is too small nothing is written and the caller is told. *)
Theorem assign_copy_to_roundtrip MaxPayloadSize m payload seq destination :
  message_wf MaxPayloadSize m ->
  let '(w, m') := assign MaxPayloadSize m payload seq in
  let '(r, destination') := copy_to m' destination in
  message_wf MaxPayloadSize m' /\
  (span_size payload <= MaxPayloadSize ->
     w = mkWrite success seq /\
     (span_size payload <= span_size destination ->
        r = mkRead success (span_size payload) seq /\
        destination' = payload ++ drop (length payload) destination) /\
     (span_size destination < span_size payload ->
        r = mkRead message_too_large 0 seq /\ destination' = destination)) /\
  (MaxPayloadSize < span_size payload -> w = mkWrite message_too_large seq /\ m' = m).
Proof.
  intros Hwf. destruct (assign _ m payload seq) as [w m'] eqn:Ea.
  pose proof (assign_wf MaxPayloadSize m payload seq Hwf) as Hwf'.
  rewrite Ea in Hwf'; simpl in Hwf'.
  destruct (copy_to m' destination) as [r d'] eqn:Ec.
  rewrite (copy_to_deliver _ _ _ Hwf') in Ec.
  split; [done | split].
  - intros Hfit. pose proof (assign_message_of MaxPayloadSize m payload seq Hfit) as Hm.
    rewrite Ea in Hm; simpl in Hm. rewrite assign_fits in Ea by done.
    rewrite Hm in Ec. simplify_eq/=. split; [done | split; intros Hd].
    + rewrite deliver_success in Ec by done. by simplify_eq/=.
    + rewrite deliver_short in Ec by done. by simplify_eq/=.
  - intros Hbig. rewrite assign_too_large in Ea by done. by simplify_eq.
Qed.

Lemma assign_copy_to_roundtrip_witness :
  copy_to (assign 4 (fresh_message 4) [Byte.x61; Byte.x62] 7).2 (replicate 3 Byte.xff) =
    (mkRead success 2 7, [Byte.x61; Byte.x62; Byte.xff]).
Proof.
  pose proof (assign_copy_to_roundtrip 4 (fresh_message 4) [Byte.x61; Byte.x62] 7
    (replicate 3 Byte.xff) (fresh_message_wf 4 ltac:(lia))) as H.
  destruct (assign 4 (fresh_message 4) [Byte.x61; Byte.x62] 7) as [w m]. cbn [snd].
  destruct (copy_to m (replicate 3 Byte.xff)) as [r d].
  destruct H as (_ & H & _). destruct H as (_ & H & _); [by vm_compute |].
  destruct H as [-> ->]; [by vm_compute | reflexivity].
Defined.
