(* ===== verification/Concurrency.v ===== *)
(** * Threads, interleavings and atomic specifications

    The queues are shared objects used by several threads.  A [ConcurrentObject]
    gives, for one queue class, the shared state, the program counters of a
    thread inside an operation, and one transition per access to shared memory;
    [pool_step] interleaves the threads of a pool.  An object is specified by
    the [canon_step] automaton, which executes every operation in one atomic
    step between its call and its return: when the calls and returns of every
    interleaving are a history of that automaton, the implementation is
    linearizable.  [simulation_exec] is the forward-simulation principle used to
    prove it. *)

From S2P Require Import Prelude.

(** ** Labelled transition systems *)

Inductive event (Op Res : Type) : Type :=
| Call (t : nat) (o : Op)
| Ret (t : nat) (r : Res).
Arguments Call {_ _} _ _.
Arguments Ret {_ _} _ _.

Definition trace_of {E} (l : option E) : list E :=
  match l with Some e => [e] | None => [] end.

(** [exec step n s tr s']: an execution of [n] steps from [s] to [s'] with the
    visible events [tr]. *)
Inductive exec {St E} (step : St -> option E -> St -> Prop)
    : nat -> St -> list E -> St -> Prop :=
| exec_nil s : exec step 0 s [] s
| exec_snoc n s tr s1 l s2 :
    exec step n s tr s1 -> step s1 l s2 -> exec step (S n) s (tr ++ trace_of l) s2.

Lemma exec_app {St E} (step : St -> option E -> St -> Prop) n1 n2 s1 tr1 s2 tr2 s3 :
  exec step n1 s1 tr1 s2 -> exec step n2 s2 tr2 s3 ->
  exec step (n1 + n2) s1 (tr1 ++ tr2) s3.
Proof.
  intros H1 H2. induction H2 as [| n s tr s' l s'' H2 IH Hs].
  - by rewrite app_nil_r, Nat.add_0_r.
  - rewrite Nat.add_succ_r, app_assoc. by eapply exec_snoc; [apply IH |].
Qed.

Lemma exec_cons {St E} (step : St -> option E -> St -> Prop) n s1 l s2 tr s3 :
  step s1 l s2 -> exec step n s2 tr s3 -> exec step (S n) s1 (trace_of l ++ tr) s3.
Proof.
  intros H1 H2. apply (exec_app step 1 n s1 (trace_of l) s2); [| done].
  rewrite <- (app_nil_l (trace_of l)). by eapply exec_snoc; [apply exec_nil |].
Qed.

(** Invariants indexed by the number of steps taken, for properties that only
    hold while the counters have not been exhausted. *)
Lemma exec_invariant {St E} (step : St -> option E -> St -> Prop)
    (Inv : nat -> St -> Prop) (bounded : nat -> Prop) s :
  (forall n, bounded (S n) -> bounded n) ->
  Inv 0%nat s ->
  (forall n s1 l s2, bounded (S n) -> Inv n s1 -> step s1 l s2 -> Inv (S n) s2) ->
  forall n tr s', bounded n -> exec step n s tr s' -> Inv n s'.
Proof.
  intros Hdown H0 Hstep n tr s' Hb Hex. induction Hex as [| n s tr s1 l s2 Hex IH Hs]; [done |].
  eapply Hstep; eauto.
Qed.

(** ** Forward simulation *)

(** One step of the implementation is matched by no step (when invisible) or by
    one step with the same label. *)
Inductive match_step {St E} (step : St -> option E -> St -> Prop)
    : St -> option E -> St -> Prop :=
| match_stutter s : match_step step s None s
| match_one s l s' : step s l s' -> match_step step s l s'.

Section simulation.
Context {St1 St2 E : Type}.
Context (step1 : St1 -> option E -> St1 -> Prop) (step2 : St2 -> option E -> St2 -> Prop).
Context (R : nat -> St1 -> St2 -> Prop) (bounded : nat -> Prop).

Hypothesis bounded_down : forall n, bounded (S n) -> bounded n.
Hypothesis simulates : forall n s1 l s1' s2,
  bounded (S n) -> R n s1 s2 -> step1 s1 l s1' ->
  exists s2', match_step step2 s2 l s2' /\ R (S n) s1' s2'.

Lemma simulation_exec n s1 tr s1' s2 :
  bounded n -> R 0%nat s1 s2 -> exec step1 n s1 tr s1' ->
  exists m s2', exec step2 m s2 tr s2' /\ R n s1' s2'.
Proof using bounded_down simulates.
  intros Hb H0 Hex. induction Hex as [s | n s tr sa l sb Hex IH Hs].
  - exists 0%nat, s2. split; [constructor | done].
  - destruct IH as (m & s2a & Hex2 & HR); [by apply bounded_down | done |].
    destruct (simulates n sa l sb s2a Hb HR Hs) as (s2b & Hm & HR').
    destruct Hm as [s2a | s2a l s2b Hstep2].
    + exists m, s2a. by rewrite app_nil_r.
    + exists (S m), s2b. split; [by eapply exec_snoc | done].
Qed.

End simulation.

(** ** Concurrent objects *)

(** The code of a class: how a thread enters an operation, what it may do next
    when it is scheduled (several outcomes where the language leaves a choice,
    none while it must wait), and when the operation has returned. *)
Class ConcurrentObject (Op Res Sh Lo : Type) : Type := {
  call : Lo -> Op -> option Lo;
  tstep : Sh -> Lo -> list (Sh * Lo);
  ret : Lo -> option (Res * Lo);
}.

Record pool (Sh Lo : Type) : Type := mkPool {
  shared : Sh;
  threads : list Lo;
}.
Arguments mkPool {_ _} _ _.
Arguments shared {_ _} _.
Arguments threads {_ _} _.

Section pool.
Context {Op Res Sh Lo : Type} `{!ConcurrentObject Op Res Sh Lo}.

Inductive pool_step : pool Sh Lo -> option (event Op Res) -> pool Sh Lo -> Prop :=
| pool_call s ts t l o l' :
    ts !! t = Some l -> call l o = Some l' ->
    pool_step (mkPool s ts) (Some (Call t o)) (mkPool s (<[t := l']> ts))
| pool_tau s ts t l s' l' :
    ts !! t = Some l -> (s', l') ∈ tstep s l ->
    pool_step (mkPool s ts) None (mkPool s' (<[t := l']> ts))
| pool_ret s ts t l r l' :
    ts !! t = Some l -> ret l = Some (r, l') ->
    pool_step (mkPool s ts) (Some (Ret t r)) (mkPool s (<[t := l']> ts)).

Lemma pool_exec_length n p h p' :
  exec pool_step n p h p' -> length (threads p') = length (threads p).
Proof.
  induction 1 as [| n s tr s1 l s2 _ IH Hs]; [done |]. rewrite <- IH.
  destruct Hs; simpl; by rewrite length_insert.
Qed.

(** Executable schedules, for running concrete interleavings. *)
Inductive choice : Type :=
| DoCall (t : nat) (o : Op)
| DoStep (t : nat) (k : nat)
| DoRet (t : nat).

Definition run_choice (p : pool Sh Lo) (c : choice)
    : option (option (event Op Res) * pool Sh Lo) :=
  match c with
  | DoCall t o =>
      l ← threads p !! t; l' ← call l o;
      Some (Some (Call t o), mkPool (shared p) (<[t := l']> (threads p)))
  | DoStep t k =>
      l ← threads p !! t; '(s', l') ← tstep (shared p) l !! k;
      Some (None, mkPool s' (<[t := l']> (threads p)))
  | DoRet t =>
      l ← threads p !! t; '(r, l') ← ret l;
      Some (Some (Ret t r), mkPool (shared p) (<[t := l']> (threads p)))
  end.

Fixpoint run_schedule (p : pool Sh Lo) (cs : list choice)
    : option (list (event Op Res) * pool Sh Lo) :=
  match cs with
  | [] => Some ([], p)
  | c :: cs =>
      '(l, p1) ← run_choice p c;
      '(tr, p2) ← run_schedule p1 cs;
      Some (trace_of l ++ tr, p2)
  end.

Lemma run_choice_step p c l p' : run_choice p c = Some (l, p') -> pool_step p l p'.
Proof.
  destruct p as [s ts], c as [t o | t k | t]; intros H; simpl in H.
  - destruct (ts !! t) as [lo |] eqn:Hl; [| done]. simpl in H.
    destruct (call lo o) as [lo' |] eqn:Hc; [| done]. simplify_eq/=. by econstructor.
  - destruct (ts !! t) as [lo |] eqn:Hl; [| done]. simpl in H.
    destruct (tstep s lo !! k) as [[s' lo'] |] eqn:Hk; [| done]. simplify_eq/=.
    econstructor; [done |]. by eapply list_elem_of_lookup_2.
  - destruct (ts !! t) as [lo |] eqn:Hl; [| done]. simpl in H.
    destruct (ret lo) as [[r lo'] |] eqn:Hr; [| done]. simplify_eq/=. by econstructor.
Qed.

(** A schedule that runs is an execution of the interleaving semantics. *)
Lemma run_schedule_exec p cs tr p' :
  run_schedule p cs = Some (tr, p') -> exec pool_step (length cs) p tr p'.
Proof.
  revert p tr. induction cs as [| c cs IH]; intros p tr H; simpl in H.
  - simplify_eq. constructor.
  - destruct (run_choice p c) as [[l p1] |] eqn:Hc; [| done]. simpl in H.
    destruct (run_schedule p1 cs) as [[tr2 p2] |] eqn:Hr; [| done]. simplify_eq/=.
    eapply exec_cons; [by eapply run_choice_step | by apply IH].
Qed.

(** [local_run k l l']: a thread takes [k] of its own steps from [l] to [l']
    while the other threads change the shared state arbitrarily. *)
Inductive local_run : nat -> Lo -> Lo -> Prop :=
| local_run_nil l : local_run 0 l l
| local_run_step k l s s' l1 l2 :
    (s', l1) ∈ tstep s l -> local_run k l1 l2 -> local_run (S k) l l2.

(** Wait-freedom: whatever the other threads do, an operation makes at most
    [bound] steps of its own, and until it returns it always has a next step. *)
Definition wait_free (bound : nat) (faulty : Lo -> Prop) : Prop :=
  forall l0 o l, call l0 o = Some l -> forall k l', local_run k l l' ->
    (k <= bound)%nat /\
    (ret l' = None -> ~ faulty l' -> forall s, tstep s l' <> []).

Lemma local_run_measure (measure : Lo -> nat) k l l' :
  (forall s l s' l', (s', l') ∈ tstep s l -> (measure l' < measure l)%nat) ->
  local_run k l l' -> (k + measure l' <= measure l)%nat.
Proof.
  intros Hm. induction 1 as [l | k l s s' l1 l2 Hs Hr IH]; [lia |].
  apply Hm in Hs. lia.
Qed.

Lemma local_run_preserves (P : Lo -> Prop) k l l' :
  (forall s l s' l', P l -> (s', l') ∈ tstep s l -> P l') ->
  local_run k l l' -> P l -> P l'.
Proof. intros HP. induction 1; eauto. Qed.

(** The usual way to prove wait-freedom: a measure that every step decreases,
    and a step in every state between call and return. *)
Lemma wait_free_by_measure (measure : Lo -> nat) (inside faulty : Lo -> Prop) bound :
  (forall s l s' l', (s', l') ∈ tstep s l -> (measure l' < measure l)%nat) ->
  (forall l0 o l, call l0 o = Some l -> (measure l <= bound)%nat /\ inside l) ->
  (forall s l s' l', inside l -> (s', l') ∈ tstep s l -> inside l') ->
  (forall s l, inside l -> ret l = None -> ~ faulty l -> tstep s l <> []) ->
  wait_free bound faulty.
Proof.
  intros Hm Hc Hin Hs l0 o l Hcall k l' Hrun. destruct (Hc _ _ _ Hcall) as [Hb Hi]. split.
  - apply (local_run_measure measure) in Hrun; [lia | done].
  - intros Hret Hok s. apply Hs; [| done | done]. by eapply local_run_preserves.
Qed.

(** The thread alone, taking the first outcome of every step. *)
Fixpoint solo (fuel : nat) (s : Sh) (l : Lo) : Sh * Lo :=
  match fuel with
  | O => (s, l)
  | S fuel => match tstep s l with
              | (s', l') :: _ => solo fuel s' l'
              | [] => (s, l)
              end
  end.

End pool.

Arguments choice : clear implicits.
Arguments DoCall {_} _ _.
Arguments DoStep {_} _ _.
Arguments DoRet {_} _.

(** The outcome of a step that has none, or exactly one. *)
Ltac inv_outcome H :=
  first [ by apply not_elem_of_nil in H
        | apply list_elem_of_singleton in H; injection H as -> -> ].

(** The same when several outcomes are possible. *)
Ltac inv_outcomes H :=
  first [ inv_outcome H
        | apply elem_of_cons in H; destruct H as [H | H]; [injection H as -> -> | inv_outcomes H] ].

(** ** Atomic specifications *)

Inductive status (Op Res : Type) : Type :=
| Idle
| Called (o : Op)
| Finished (r : Res).
Arguments Idle {_ _}.
Arguments Called {_ _} _.
Arguments Finished {_ _} _.

(** The atomic object of a specification [spec cs a o r a']: in state [a], with
    the other operations in the states [cs], the operation [o] may take effect
    with the result [r] and leave [a']. *)
Inductive canon_step {A Op Res}
    (spec : list (status Op Res) -> A -> Op -> Res -> A -> Prop)
    : pool A (status Op Res) -> option (event Op Res) -> pool A (status Op Res) -> Prop :=
| canon_call a cs t o :
    cs !! t = Some Idle ->
    canon_step spec (mkPool a cs) (Some (Call t o)) (mkPool a (<[t := Called o]> cs))
| canon_lin a cs t o r a' :
    cs !! t = Some (Called o) -> spec cs a o r a' ->
    canon_step spec (mkPool a cs) None (mkPool a' (<[t := Finished r]> cs))
| canon_ret a cs t r :
    cs !! t = Some (Finished r) ->
    canon_step spec (mkPool a cs) (Some (Ret t r)) (mkPool a (<[t := Idle]> cs)).

(** A specification that does not depend on the concurrent operations. *)
Definition strict {A Op Res} (spec : A -> Op -> Res -> A -> Prop)
    : list (status Op Res) -> A -> Op -> Res -> A -> Prop := fun _ => spec.

(** A history is linearizable when the atomic object has it. *)
Definition linearizable {A Op Res}
    (spec : list (status Op Res) -> A -> Op -> Res -> A -> Prop) (a : A) (nthreads : nat)
    (history : list (event Op Res)) : Prop :=
  exists m p, exec (canon_step spec) m (mkPool a (replicate nthreads Idle)) history p.

(** ** Pointwise relations between thread lists *)

Section threads_related.
Context {A B : Type} (P : nat -> A -> B -> Prop).

Definition threads_related (xs : list A) (ys : list B) : Prop :=
  length xs = length ys /\
  forall t x y, xs !! t = Some x -> ys !! t = Some y -> P t x y.

Lemma threads_related_lookup xs ys t x :
  threads_related xs ys -> xs !! t = Some x -> exists y, ys !! t = Some y /\ P t x y.
Proof.
  intros [Hl HP] Hx. destruct (ys !! t) as [y |] eqn:Hy; [by eauto |].
  apply lookup_lt_Some in Hx. apply lookup_ge_None in Hy. lia.
Qed.

End threads_related.

Lemma threads_related_update {A B} (P Q : nat -> A -> B -> Prop) xs ys t x' y' :
  threads_related P xs ys ->
  (forall t' x y, t' <> t -> xs !! t' = Some x -> ys !! t' = Some y -> P t' x y -> Q t' x y) ->
  Q t x' y' ->
  threads_related Q (<[t := x']> xs) (<[t := y']> ys).
Proof.
  intros [Hl HP] Hother Ht. split; [by rewrite !length_insert |].
  intros t' x y Hx Hy. destruct (decide (t' = t)) as [-> | Hne].
  - assert (t < length xs)%nat by (apply lookup_lt_Some in Hx; by rewrite length_insert in Hx).
    rewrite list_lookup_insert_eq in Hx by done.
    rewrite list_lookup_insert_eq in Hy by lia. by simplify_eq.
  - rewrite list_lookup_insert_ne in Hx by done.
    rewrite list_lookup_insert_ne in Hy by done. eauto.
Qed.

(** The same when only the left-hand thread moves. *)
Lemma threads_related_update_l {A B} (P Q : nat -> A -> B -> Prop) xs ys t x' y :
  threads_related P xs ys -> ys !! t = Some y ->
  (forall t' x y, t' <> t -> xs !! t' = Some x -> ys !! t' = Some y -> P t' x y -> Q t' x y) ->
  Q t x' y ->
  threads_related Q (<[t := x']> xs) ys.
Proof.
  intros HP Hy Hother Ht. rewrite <- (list_insert_id ys t y) by done.
  by eapply threads_related_update.
Qed.

Lemma threads_related_replicate {A B} (P : nat -> A -> B -> Prop) n x y :
  (forall t, (t < n)%nat -> P t x y) -> threads_related P (replicate n x) (replicate n y).
Proof.
  intros H. split; [by rewrite !length_replicate |].
  intros t x' y' Hx Hy. apply lookup_replicate in Hx as [-> ?], Hy as [-> ?]. auto.
Qed.

(** ** Sequential histories

    A history of calls that return before the next call is linearizable only to the
    specification run call by call. *)

Section sequential_histories.
Context {A Op Res : Type} (spec : A -> Op -> Res -> A -> Prop).

Definition one_by_one (calls : list (nat * Op * Res)) : list (event Op Res) :=
  flat_map (fun '(t, o, r) => [Call t o; Ret t r]) calls.

Fixpoint spec_run (a : A) (calls : list (nat * Op * Res)) (a' : A) : Prop :=
  match calls with
  | [] => a' = a
  | (_, o, r) :: calls => exists a1, spec a o r a1 /\ spec_run a1 calls a'
  end.

Lemma spec_run_snoc a calls a1 t o r a2 :
  spec_run a calls a1 -> spec a1 o r a2 -> spec_run a (calls ++ [(t, o, r)]) a2.
Proof.
  revert a. induction calls as [| [[t' o'] r'] calls IH]; intros a H Hs; simpl in *.
  - subst. by eexists.
  - destruct H as (a' & Ha & H). eauto.
Qed.

(** Where the atomic object is after a prefix of such a history: between two calls,
    or inside the last one. *)
Inductive one_at_a_time (a : A) (k : nat) : list (event Op Res) -> pool A (status Op Res) -> Prop :=
| between_calls calls a1 :
    spec_run a calls a1 -> one_at_a_time a k (one_by_one calls) (mkPool a1 (replicate k Idle))
| inside_before calls a1 t o :
    spec_run a calls a1 ->
    one_at_a_time a k (one_by_one calls ++ [Call t o]) (mkPool a1 (<[t := Called o]> (replicate k Idle)))
| inside_after calls a1 t o r a2 :
    spec_run a calls a1 -> spec a1 o r a2 ->
    one_at_a_time a k (one_by_one calls ++ [Call t o]) (mkPool a2 (<[t := Finished r]> (replicate k Idle))).

Lemma idle_insert_inv k t (st : status Op Res) t' x :
  <[t := st]> (replicate k Idle) !! t' = Some x -> x <> Idle -> t' = t /\ x = st.
Proof.
  intros H Hx. apply list_lookup_insert_Some in H as [(-> & <- & _) | [_ H]]; [done |].
  apply lookup_replicate in H as [-> _]. done.
Qed.

Lemma idle_insert_back k t (st : status Op Res) : <[t := Idle]> (<[t := st]> (replicate k Idle)) = replicate k Idle.
Proof.
  rewrite list_insert_insert_eq. destruct (decide (t < k)%nat); [by rewrite insert_replicate |].
  apply list_insert_ge. rewrite length_replicate. lia.
Qed.

Lemma one_by_one_snoc calls t o r : one_by_one (calls ++ [(t, o, r)]) = one_by_one calls ++ [Call t o] ++ [Ret t r].
Proof. unfold one_by_one. by rewrite flat_map_app. Qed.

(** A history whose calls do not overlap. *)
Definition calls_apart (h : list (event Op Res)) : Prop :=
  forall h1 t o e h2, h = h1 ++ Call t o :: e :: h2 -> exists r, e = Ret t r.

Lemma exec_one_at_a_time a k m h c :
  exec (canon_step (strict spec)) m (mkPool a (replicate k Idle)) h c -> calls_apart h -> one_at_a_time a k h c.
Proof.
  remember (mkPool a (replicate k Idle)) as s0 eqn:Es. intros Hex Hseq.
  induction Hex as [s | m s tr s1 l s2 Hex IH Hs]; subst s.
  { by apply (between_calls a k [] a). }
  assert (Hseq' : calls_apart tr).
  { intros h1 t o e h2 ->. apply (Hseq h1 t o e (h2 ++ trace_of l)). by rewrite <- app_assoc. }
  destruct (IH eq_refl Hseq') as [calls a1 Hrun | calls a1 t o Hrun | calls a1 t o r a2 Hrun Hspec]; clear IH Hex;
    inversion Hs as [a0 cs t' o' Ht | a0 cs t' o' r' a' Ht Hsp | a0 cs t' r' Ht]; subst; simpl.
  - by apply inside_before.
  - by apply lookup_replicate in Ht as [? _].
  - by apply lookup_replicate in Ht as [? _].
  - destruct (Hseq (one_by_one calls) t o (Call t' o') []) as [? ?]; [by rewrite <- app_assoc | done].
  - apply idle_insert_inv in Ht as [-> [= <-]]; [| done]. rewrite app_nil_r, list_insert_insert_eq. by eapply inside_after.
  - by apply idle_insert_inv in Ht as [_ ?].
  - destruct (Hseq (one_by_one calls) t o (Call t' o') []) as [? ?]; [by rewrite <- app_assoc | done].
  - by apply idle_insert_inv in Ht as [_ ?].
  - apply idle_insert_inv in Ht as [-> [= <-]]; [| done]. rewrite idle_insert_back, <- app_assoc, <- one_by_one_snoc.
    apply between_calls. by eapply spec_run_snoc.
Qed.

Lemma one_by_one_inj calls calls' : one_by_one calls = one_by_one calls' -> calls = calls'.
Proof.
  revert calls'. induction calls as [| [[t o] r] calls IH]; intros [| [[t' o'] r'] calls'] H; simplify_eq/=; [done |].
  f_equal. by apply IH.
Qed.

Lemma one_by_one_apart calls : calls_apart (one_by_one calls).
Proof.
  induction calls as [| [[t o] r] calls IH]; intros h1 t' o' e h2 H; simpl in H.
  { by destruct h1. }
  destruct h1 as [| e1 [| e2 h1]]; simplify_eq/=; [by eexists | by eapply IH].
Qed.

Lemma one_by_one_closed calls calls' t o : one_by_one calls = one_by_one calls' ++ [Call t o] -> False.
Proof.
  revert calls'. induction calls as [| [[t1 o1] r1] calls IH]; intros calls' H; simpl in H.
  { by destruct (one_by_one calls'). }
  destruct calls' as [| [[t2 o2] r2] calls']; simplify_eq/=. by eapply IH.
Qed.

Lemma linearizable_one_by_one a k calls :
  linearizable (strict spec) a k (one_by_one calls) -> exists a', spec_run a calls a'.
Proof.
  intros (m & c & Hex). apply exec_one_at_a_time in Hex; [| apply one_by_one_apart].
  remember (one_by_one calls) as h eqn:Eh. destruct Hex as [calls' a1 Hrun | |].
  - apply one_by_one_inj in Eh as ->. eauto.
  - symmetry in Eh. by apply one_by_one_closed in Eh.
  - symmetry in Eh. by apply one_by_one_closed in Eh.
Qed.

End sequential_histories.
