(* ===== verification/Clients.v ===== *)
(** * Programs that use a concurrent object

    A client is a transition system whose visible events are the calls it makes
    and the returns it receives; it runs in lock step with an object on these
    events and freely otherwise ([system_step]).  Since the two share nothing but
    the history, a client cannot tell an object from a specification that has all
    its histories ([client_refinement]): what holds of a client over the atomic
    object of a contract holds over every linearizable implementation.  The
    runs of [src/stress] and [src/benchmarks] are verified this way. *)

From S2P Require Import Prelude Concurrency.

Section clients.

Context {E C : Type} (cstep : C -> option E -> C -> Prop).

Inductive system_step {St} (ostep : St -> option E -> St -> Prop)
    : St * C -> option E -> St * C -> Prop :=
| system_object p p' c : ostep p None p' -> system_step ostep (p, c) None (p', c)
| system_client p c c' : cstep c None c' -> system_step ostep (p, c) None (p, c')
| system_sync p p' c c' e :
    ostep p (Some e) p' -> cstep c (Some e) c' -> system_step ostep (p, c) (Some e) (p', c').

(** Both sides of a system have its history. *)
Lemma system_project {St} (ostep : St -> option E -> St -> Prop) n s h s' :
  exec (system_step ostep) n s h s' ->
  exists n1 n2, (n1 <= n)%nat /\ exec ostep n1 s.1 h s'.1 /\ exec cstep n2 s.2 h s'.2.
Proof.
  induction 1 as [s | n s tr s1 l s2 Hex (n1 & n2 & Hn & H1 & H2) Hs].
  { exists 0%nat, 0%nat. split; [lia |]. split; constructor. }
  destruct Hs as [p p' c Ho | p c c' Hc | p p' c c' e Ho Hc]; simpl in *.
  - exists (S n1), n2. split; [lia |]. split; [| by rewrite app_nil_r].
    by eapply (exec_snoc ostep _ _ _ _ None).
  - exists n1, (S n2). split; [lia |]. split; [by rewrite app_nil_r |].
    by eapply (exec_snoc cstep _ _ _ _ None).
  - exists (S n1), (S n2). split; [lia |].
    split; [by eapply (exec_snoc ostep _ _ _ _ (Some e)) | by eapply (exec_snoc cstep _ _ _ _ (Some e))].
Qed.

Lemma exec_last_event {St} (step : St -> option E -> St -> Prop) n s h0 e s' :
  exec step n s (h0 ++ [e]) s' ->
  exists n1 n2 s1 s2, exec step n1 s h0 s1 /\ step s1 (Some e) s2 /\ exec step n2 s2 [] s'.
Proof.
  intros H. remember (h0 ++ [e]) as h eqn:Eh. revert h0 Eh.
  induction H as [s | n s tr s1 l s2 Hex IH Hs]; intros h0 Eh; [by destruct h0 |].
  destruct l as [e' |]; simpl in Eh.
  - apply app_inj_tail in Eh as [-> ->]. exists n, 0%nat, s1, s2. split; [done |]. split; [done | constructor].
  - rewrite app_nil_r in Eh. destruct (IH h0 Eh) as (n1 & n2 & sa & sb & H1 & H2 & H3).
    exists n1, (S n2), sa, sb. split; [done |]. split; [done |].
    by eapply (exec_snoc step _ _ [] _ None).
Qed.

Lemma system_silent {St} (ostep : St -> option E -> St -> Prop) n p p' c :
  exec ostep n p [] p' -> exec (system_step ostep) n (p, c) [] (p', c).
Proof.
  intros H. remember [] as h eqn:Eh. induction H as [s | n s tr s1 l s2 Hex IH Hs]; [constructor |].
  destruct l as [e |]; simpl in *; [by destruct tr |]. rewrite app_nil_r in *.
  rewrite <- (app_nil_r tr). eapply (exec_snoc _ _ _ _ _ None); [by apply IH | by constructor].
Qed.

(** An execution of the object and one of the client with the same history are
    an execution of the system. *)
Lemma system_compose {St} (ostep : St -> option E -> St -> Prop) n1 n2 p h p' c c' :
  exec ostep n1 p h p' -> exec cstep n2 c h c' ->
  exists n, exec (system_step ostep) n (p, c) h (p', c').
Proof.
  intros Ho Hc. revert n1 p' Ho. induction Hc as [c | n2 c tr c1 l c2 Hc IH Hs]; intros n1 p' Ho.
  { exists n1. by apply system_silent. }
  destruct l as [e |]; simpl in *.
  - destruct (exec_last_event ostep _ _ _ _ _ Ho) as (na & nb & pa & pb & Ha & He & Hb).
    destruct (IH na pa Ha) as [n Hn]. exists (S n + nb)%nat.
    rewrite <- (app_nil_r (tr ++ [e])). eapply exec_app; [| by apply system_silent].
    eapply (exec_snoc _ _ _ _ _ (Some e)); [exact Hn | by constructor].
  - rewrite app_nil_r in Ho. destruct (IH n1 p' Ho) as [n Hn]. exists (S n).
    eapply (exec_snoc _ _ _ _ _ None); [exact Hn | by constructor].
Qed.

(** Whatever a client does over the implementation it does over the specification,
    and the states of the two objects are related if the simulation relates them. *)
Lemma client_simulation {St1 St2} (step1 : St1 -> option E -> St1 -> Prop)
    (step2 : St2 -> option E -> St2 -> Prop) (R : nat -> St1 -> St2 -> Prop) p1 p2 c n h p1' c' :
  (forall m h p1', (m <= n)%nat -> exec step1 m p1 h p1' -> exists k p2', exec step2 k p2 h p2' /\ R m p1' p2') ->
  exec (system_step step1) n (p1, c) h (p1', c') ->
  exists k m p2', (m <= n)%nat /\ exec (system_step step2) k (p2, c) h (p2', c') /\ R m p1' p2'.
Proof.
  intros Hlin Hex. destruct (system_project _ _ _ _ _ Hex) as (n1 & n2 & Hn & H1 & H2). simpl in *.
  destruct (Hlin n1 h p1' Hn H1) as (k & p2' & Hk & HR).
  destruct (system_compose step2 k n2 p2 h p2' c c' Hk H2) as [m Hm]. by exists m, n1, p2'.
Qed.

Lemma client_refinement {St1 St2} (step1 : St1 -> option E -> St1 -> Prop)
    (step2 : St2 -> option E -> St2 -> Prop) p1 p2 c n h p1' c' :
  (forall m h p1', (m <= n)%nat -> exec step1 m p1 h p1' -> exists k p2', exec step2 k p2 h p2') ->
  exec (system_step step1) n (p1, c) h (p1', c') ->
  exists k p2', exec (system_step step2) k (p2, c) h (p2', c').
Proof.
  intros Hlin Hex. destruct (client_simulation step1 step2 (fun _ _ _ => True) p1 p2 c n h p1' c') as (k & _ & p2' & _ & H & _);
    [| done | by eauto].
  intros m h' p' Hm Hp. destruct (Hlin m h' p' Hm Hp) as (k & p2' & H). by exists k, p2'.
Qed.

End clients.

(** The same for an object proved linearizable. *)
Lemma client_over_atomic {A Op Res C St1} (cstep : C -> option (event Op Res) -> C -> Prop)
    (spec : list (status Op Res) -> A -> Op -> Res -> A -> Prop)
    (step1 : St1 -> option (event Op Res) -> St1 -> Prop) a nthreads p c n h p' c' :
  exec (system_step cstep step1) n (p, c) h (p', c') ->
  (forall m h p', (m <= n)%nat -> exec step1 m p h p' -> linearizable spec a nthreads h) ->
  exists k s, exec (system_step cstep (canon_step spec)) k (mkPool a (replicate nthreads Idle), c) h (s, c').
Proof. intros Hex Hlin. by eapply client_refinement. Qed.

(** ** Deterministic clients *)

(** The threads of a program that uses one object: what a thread does next (it may
    call the object), and how it goes on when its call returns. *)
Class Client (Op Res C : Type) : Type := {
  advance : C -> nat -> option (option Op * C);
  receive : C -> nat -> Res -> option C;
}.

Inductive client_step `{!Client Op Res C} : C -> option (event Op Res) -> C -> Prop :=
| client_local c t c' : advance c t = Some (None, c') -> client_step c None c'
| client_call c t o c' : advance c t = Some (Some o, c') -> client_step c (Some (Call t o)) c'
| client_ret c t r c' : receive c t r = Some c' -> client_step c (Some (Ret t r)) c'.

(** Executable schedules of a client over an object. *)
Inductive system_choice : Type :=
| Advance (t : nat)         (** the client's code of a thread *)
| Inside (t : nat) (k : nat) (** the object's code of a thread, outcome [k] *)
| Return (t : nat).

Section schedules.

Context `{!ConcurrentObject Op Res Sh Lo} `{!Client Op Res C}.

Definition run_system_choice (s : pool Sh Lo * C) (x : system_choice)
    : option (option (event Op Res) * (pool Sh Lo * C)) :=
  let '(p, c) := s in
  match x with
  | Advance t =>
      '(o, c') ← advance c t;
      match o with
      | None => Some (None, (p, c'))
      | Some o => '(l, p') ← run_choice p (DoCall t o); Some (l, (p', c'))
      end
  | Inside t k => '(l, p') ← run_choice p (DoStep t k); Some (l, (p', c))
  | Return t =>
      '(l, p') ← run_choice p (DoRet t);
      match l with
      | Some (Ret t r) => c' ← receive c t r; Some (l, (p', c'))
      | _ => None
      end
  end.

Fixpoint run_system (s : pool Sh Lo * C) (xs : list system_choice)
    : option (list (event Op Res) * (pool Sh Lo * C)) :=
  match xs with
  | [] => Some ([], s)
  | x :: xs =>
      '(l, s1) ← run_system_choice s x;
      '(tr, s2) ← run_system s1 xs;
      Some (trace_of l ++ tr, s2)
  end.

Lemma run_system_choice_step s x l s' :
  run_system_choice s x = Some (l, s') -> system_step client_step pool_step s l s'.
Proof.
  destruct s as [p c], x as [t | t k | t]; intros H; unfold run_system_choice in H.
  - destruct (advance c t) as [[[o |] c'] |] eqn:E; cbn [mbind option_bind] in H; [| | done].
    + destruct (run_choice p (DoCall t o)) as [[l0 p'] |] eqn:Er; cbn [mbind option_bind] in H; [| done].
      injection H as <- <-. assert (l0 = Some (Call t o)) as ->.
      { unfold run_choice in Er. destruct (threads p !! t) as [lo |]; [| done]. cbn [mbind option_bind] in Er.
        destruct (call lo o); [| done]. cbn [mbind option_bind] in Er. by injection Er. }
      constructor; [by eapply run_choice_step | by constructor].
    + injection H as <- <-. apply system_client. by eapply client_local.
  - destruct (run_choice p (DoStep t k)) as [[l0 p'] |] eqn:Er; cbn [mbind option_bind] in H; [| done].
    injection H as <- <-. assert (l0 = None) as ->.
    { unfold run_choice in Er. destruct (threads p !! t) as [lo |]; [| done]. cbn [mbind option_bind] in Er.
      destruct (tstep (shared p) lo !! k) as [[s0 lo'] |]; [| done]. cbn [mbind option_bind] in Er. by injection Er. }
    constructor. by eapply run_choice_step.
  - destruct (run_choice p (DoRet t)) as [[l0 p'] |] eqn:Er; cbn [mbind option_bind] in H; [| done].
    destruct l0 as [[t0 o | t0 r] |]; try done.
    destruct (receive c t0 r) as [c' |] eqn:Ec; cbn [mbind option_bind] in H; [| done].
    injection H as <- <-. constructor; [by eapply run_choice_step | by constructor].
Qed.

(** A schedule that runs is an execution of the system. *)
Lemma run_system_exec s xs tr s' :
  run_system s xs = Some (tr, s') -> exec (system_step client_step pool_step) (length xs) s tr s'.
Proof.
  revert s tr. induction xs as [| x xs IH]; intros s tr H; cbn [run_system] in H.
  - injection H as <- <-. constructor.
  - destruct (run_system_choice s x) as [[l s1] |] eqn:Hc; cbn [mbind option_bind] in H; [| done].
    destruct (run_system s1 xs) as [[tr2 s2] |] eqn:Hr; cbn [mbind option_bind] in H; [| done].
    injection H as <- <-. eapply exec_cons; [by eapply run_system_choice_step | by apply IH].
Qed.

End schedules.

(** Invariants of an execution, indexed by its history. *)
Lemma exec_history_invariant {St E} (step : St -> option E -> St -> Prop) (Inv : nat -> St -> Prop) s bound :
  Inv 0%nat s ->
  (forall m s1 l s2, (m + length (trace_of l) <= bound)%nat -> Inv m s1 -> step s1 l s2 ->
     Inv (m + length (trace_of l))%nat s2) ->
  forall n h s', exec step n s h s' -> (length h <= bound)%nat -> Inv (length h) s'.
Proof.
  intros H0 Hstep n h s' Hex. induction Hex as [| n s tr s1 l s2 Hex IH Hs]; intros Hb; [done |].
  rewrite length_app in *. eapply Hstep; [done | apply IH; [done | lia] | exact Hs].
Qed.

Lemma exec_history_length {St E} (step : St -> option E -> St -> Prop) n s h s' :
  exec step n s h s' -> (length h <= n)%nat.
Proof.
  induction 1 as [| n s tr s1 l s2 _ IH _]; [done |]. rewrite length_app. destruct l; simpl; lia.
Qed.
