(* ===== verification/Speculation.v ===== *)
(** * Operations whose effect is decided after the fact

    A seqlock reader copies a slot and learns only from a later version check
    whether the copy counts.  Its read takes effect when it looked at the
    published boundary, but no forward simulation can tell at that moment which
    way the read will end.  The automaton [spec_step] therefore lets a pending
    operation [spec_observe] results that the specification allows now without
    changing the state, and choose one of them, or take effect later, when it
    ends.  [speculation_sound] shows that this automaton has no more histories
    than the atomic object of [Concurrency.v], so a simulation into it proves
    linearizability. *)

From S2P Require Import Prelude Concurrency.

Inductive pending (Op Res : Type) : Type :=
| Free
| Open (o : Op) (observed : list Res)
| Closed (r : Res).
Arguments Free {_ _}.
Arguments Open {_ _} _ _.
Arguments Closed {_ _} _.

Section speculation.

Context {A Op Res : Type}.
Context (spec : list (status Op Res) -> A -> Op -> Res -> A -> Prop).

(** The status an atomic object would show: an open operation has not taken
    effect. *)
Definition committed (x : pending Op Res) : status Op Res :=
  match x with
  | Free => Idle
  | Open o _ => Called o
  | Closed r => Finished r
  end.

(** The statuses an open operation may still turn out to have had. *)
Inductive possible : pending Op Res -> status Op Res -> Prop :=
| possible_committed x : possible x (committed x)
| possible_observed o rs r : r ∈ rs -> possible (Open o rs) (Finished r).

(** The side condition of an effect may mention the operations that are pending;
    it has to hold for every way the open ones may turn out. *)
Definition allowed (cs : list (pending Op Res)) (a : A) (o : Op) (r : Res) (a' : A) : Prop :=
  forall st, Forall2 possible cs st -> spec st a o r a'.

Inductive spec_step
    : pool A (pending Op Res) -> option (event Op Res) -> pool A (pending Op Res) -> Prop :=
| spec_call a cs t o :
    cs !! t = Some Free ->
    spec_step (mkPool a cs) (Some (Call t o)) (mkPool a (<[t := Open o []]> cs))
| spec_observe a cs t o rs r :
    cs !! t = Some (Open o rs) -> allowed cs a o r a ->
    spec_step (mkPool a cs) None (mkPool a (<[t := Open o (r :: rs)]> cs))
| spec_effect a cs t o rs r a' :
    cs !! t = Some (Open o rs) -> allowed cs a o r a' ->
    spec_step (mkPool a cs) None (mkPool a' (<[t := Closed r]> cs))
| spec_choose a cs t o rs r :
    cs !! t = Some (Open o rs) -> r ∈ rs ->
    spec_step (mkPool a cs) None (mkPool a (<[t := Closed r]> cs))
| spec_ret a cs t r :
    cs !! t = Some (Closed r) ->
    spec_step (mkPool a cs) (Some (Ret t r)) (mkPool a (<[t := Free]> cs)).

Lemma possible_update (cs : list (pending Op Res)) t x x' st' :
  cs !! t = Some x -> Forall2 possible (<[t := x']> cs) st' ->
  exists y', st' !! t = Some y' /\ possible x' y' /\
    forall y, possible x y -> Forall2 possible cs (<[t := y]> st').
Proof.
  intros Ht H. assert (Hlt := lookup_lt_Some _ _ _ Ht).
  destruct (Forall2_lookup_l _ _ _ t x' H) as (y' & Hy' & Hp).
  { by rewrite list_lookup_insert_eq. }
  exists y'. split; [done |]. split; [done |]. intros y Hy.
  rewrite <- (list_insert_id cs t x) by done.
  rewrite <- (list_insert_insert_eq cs t x x').
  by apply Forall2_insert.
Qed.

Lemma possible_free k st : Forall2 possible (replicate k Free) st -> st = replicate k Idle.
Proof.
  revert st. induction k as [| k IH]; intros st H; inversion H as [| ? y ? st' Hp H']; [done |].
  subst st. simpl. f_equal; [by inversion Hp | by apply IH].
Qed.

Lemma speculation_exec n a0 k h a cs :
  exec spec_step n (mkPool a0 (replicate k Free)) h (mkPool a cs) ->
  forall st, Forall2 possible cs st ->
  exists m, exec (canon_step spec) m (mkPool a0 (replicate k Idle)) h (mkPool a st).
Proof.
  intros Hex. remember (mkPool a0 (replicate k Free)) as p0 eqn:E0.
  remember (mkPool a cs) as p eqn:E. revert a cs E.
  induction Hex as [p | n p tr p1 l p2 Hex IH Hs]; intros a cs E st Hst.
  - rewrite E0 in E. injection E as <- <-. subst p. exists 0%nat.
    assert (st = replicate k Idle) as ->; [| constructor].
    by apply possible_free.
  - specialize (IH E0). destruct Hs as [a1 cs1 t o Ht | a1 cs1 t o rs r Ht Hsp
      | a1 cs1 t o rs r a' Ht Hsp | a1 cs1 t o rs r Ht Hr | a1 cs1 t r Ht];
      injection E as <- <-; specialize (IH a1 cs1 eq_refl);
      destruct (possible_update _ _ _ _ _ Ht Hst) as (y' & Hy' & Hp & Hback);
      assert (Hlt := lookup_lt_Some _ _ _ Hy');
      rewrite <- (list_insert_id st t y') by done;
      assert (Hst' := fun y => list_insert_insert_eq st t y' y).
    + assert (y' = Called o) as -> by 
        (inversion Hp as [| ? ? ? Hin]; subst; [done | by apply not_elem_of_nil in Hin]).
      destruct (IH _ (Hback Idle (possible_committed Free))) as [m Hm]. exists (S m).
      rewrite <- (Hst' Idle). eapply exec_snoc; [done |]. constructor. by rewrite list_lookup_insert_eq.
    + assert (Hc := Hback (Called o) (possible_committed (Open o rs))).
      assert (y' = Finished r \/ possible (Open o rs) y') as [-> | Hold].
      { inversion Hp as [| ? ? ? Hin]; subst; [right; apply (possible_committed (Open o rs)) |].
        apply elem_of_cons in Hin as [-> | Hin]; [by left | right; by constructor]. }
      * destruct (IH _ Hc) as [m Hm]. exists (S m). rewrite <- (Hst' (Called o)).
        eapply exec_snoc; [done |]. eapply canon_lin; [by rewrite list_lookup_insert_eq | by apply Hsp].
      * destruct (IH _ (Hback _ Hold)) as [m Hm]. exists m. by rewrite app_nil_r.
    + assert (y' = Finished r) as -> by (by inversion Hp).
      assert (Hc := Hback (Called o) (possible_committed (Open o rs))).
      destruct (IH _ Hc) as [m Hm]. exists (S m). rewrite <- (Hst' (Called o)).
      eapply exec_snoc; [done |]. eapply canon_lin; [by rewrite list_lookup_insert_eq | by apply Hsp].
    + assert (y' = Finished r) as -> by (by inversion Hp).
      destruct (IH _ (Hback _ (possible_observed o rs r Hr))) as [m Hm]. exists m. by rewrite app_nil_r.
    + assert (y' = Idle) as -> by (by inversion Hp).
      destruct (IH _ (Hback _ (possible_committed (Closed r)))) as [m Hm]. exists (S m).
      rewrite <- (Hst' (Finished r)). eapply exec_snoc; [done |]. constructor.
      by rewrite list_lookup_insert_eq.
Qed.

Lemma speculation_sound n a0 k h p :
  exec spec_step n (mkPool a0 (replicate k Free)) h p -> linearizable spec a0 k h.
Proof.
  destruct p as [a cs]. intros Hex.
  destruct (speculation_exec _ _ _ _ _ _ Hex (committed <$> cs)) as [m Hm].
  { apply Forall2_fmap_r, Forall_Forall2_diag, Forall_true. intros x. constructor. }
  by exists m, (mkPool a (committed <$> cs)).
Qed.

End speculation.
