(* ===== verification/Mutex.v ===== *)
(** * Objects whose operations run under one mutex

    [SPMCMulticastQueue] and the non-blocking operations of [BlockingQueue] take
    a [std::lock_guard] for their whole body, after checks that need no lock.
    This file interleaves such operations: checks, acquisition, body, release.
    At most one thread is inside a body ([mutual_exclusion]), which is what makes
    running a body as one step faithful, and every history is linearizable to any
    specification the bodies implement ([locked_exec_sim]). *)

From S2P Require Import Prelude Concurrency.

Record locked (S : Type) : Type := mkLocked {
  mutex_ : bool;
  guarded : S;
}.
Arguments mkLocked {_} _ _.
Arguments mutex_ {_} _.
Arguments guarded {_} _.

Inductive lock_pc (Op Res : Type) : Type :=
| LIdle
| LStart (o : Op)
| LLock (o : Op)
| LBody (o : Op)
| LUnlock (r : Res)
| LDone (r : Res)
| LFault.
Arguments LIdle {_ _}.
Arguments LStart {_ _} _.
Arguments LLock {_ _} _.
Arguments LBody {_ _} _.
Arguments LUnlock {_ _} _.
Arguments LDone {_ _} _.
Arguments LFault {_ _}.

Section Mutex.

Context {Op Res S : Type}.
(** Checks before the lock (a result ends the call), and the locked body ([None]
    is undefined behaviour). *)
Context (early : Op -> option Res) (body : S -> Op -> option (Res * S)).

Definition lock_call (l : lock_pc Op Res) (o : Op) : option (lock_pc Op Res) :=
  match l with LIdle => Some (LStart o) | _ => None end.

Definition lock_tstep (s : locked S) (l : lock_pc Op Res) : list (locked S * lock_pc Op Res) :=
  match l with
  | LStart o => match early o with Some r => [(s, LDone r)] | None => [(s, LLock o)] end
  | LLock o => if mutex_ s then [] else [(mkLocked true (guarded s), LBody o)]
  | LBody o => match body (guarded s) o with
               | Some (r, g) => [(mkLocked (mutex_ s) g, LUnlock r)]
               | None => [(s, LFault)]
               end
  | LUnlock r => [(mkLocked false (guarded s), LDone r)]
  | LIdle | LDone _ | LFault => []
  end.

Definition lock_ret (l : lock_pc Op Res) : option (Res * lock_pc Op Res) :=
  match l with LDone r => Some (r, LIdle) | _ => None end.

#[local] Instance lock_object : ConcurrentObject Op Res (locked S) (lock_pc Op Res) := {|
  call := lock_call; tstep := lock_tstep; ret := lock_ret;
|}.

Definition lock_init (g : S) (k : nat) : pool (locked S) (lock_pc Op Res) :=
  mkPool (mkLocked false g) (replicate k LIdle).

Definition holds_lock (l : lock_pc Op Res) : Prop :=
  match l with LBody _ | LUnlock _ | LFault => True | _ => False end.

(** ** Mutual exclusion *)

Definition lock_inv (p : pool (locked S) (lock_pc Op Res)) : Prop :=
  (forall t l, threads p !! t = Some l -> holds_lock l -> mutex_ (shared p) = true) /\
  (forall t1 t2 l1 l2, threads p !! t1 = Some l1 -> threads p !! t2 = Some l2 ->
     holds_lock l1 -> holds_lock l2 -> t1 = t2).

Lemma lock_inv_update s s' ts t l l' :
  lock_inv (mkPool s ts) -> ts !! t = Some l ->
  (holds_lock l' -> holds_lock l \/ mutex_ s = false) ->
  (holds_lock l' -> mutex_ s' = true) -> (mutex_ s' = mutex_ s \/ holds_lock l \/ holds_lock l') ->
  lock_inv (mkPool s' (<[t := l']> ts)).
Proof.
  intros [H1 H2] Hl Hnew Hs' Hsame. simpl in *.
  assert (Hlt := lookup_lt_Some _ _ _ Hl). split; simpl.
  - intros t0 l0 H0 Hh. destruct (decide (t0 = t)) as [-> | Hne].
    { rewrite list_lookup_insert_eq in H0 by done. simplify_eq. auto. }
    rewrite list_lookup_insert_ne in H0 by done. destruct Hsame as [-> | [Hh' | Hh']]; eauto.
  - intros t1 t2 l1 l2 L1 L2 Hh1 Hh2.
    destruct (decide (t1 = t)) as [-> | N1], (decide (t2 = t)) as [-> | N2]; [done | | |].
    + rewrite list_lookup_insert_eq in L1 by done. rewrite list_lookup_insert_ne in L2 by done.
      simplify_eq. destruct (Hnew Hh1) as [Hh | Hf]; [by eapply H2 |].
      by rewrite (H1 t2 l2) in Hf.
    + rewrite list_lookup_insert_eq in L2 by done. rewrite list_lookup_insert_ne in L1 by done.
      simplify_eq. destruct (Hnew Hh2) as [Hh | Hf]; [by eapply H2 |].
      by rewrite (H1 t1 l1) in Hf.
    + rewrite list_lookup_insert_ne in L1 by done. rewrite list_lookup_insert_ne in L2 by done.
      by eapply H2.
Qed.

Lemma lock_inv_step p lab p' : lock_inv p -> pool_step p lab p' -> lock_inv p'.
Proof.
  intros Hinv Hs. destruct Hs as [s ts t l o l' Hl Hc | s ts t l s' l' Hl Hs | s ts t l r l' Hl Hr].
  - eapply lock_inv_update; eauto; destruct l; simplify_eq/=; tauto.
  - pose proof (proj1 Hinv t l Hl) as Hm. simpl in Hm.
    destruct l; simpl in Hs; repeat case_match; inv_outcome Hs;
      (eapply lock_inv_update; [done.. | | |]); simpl; tauto.
  - eapply lock_inv_update; eauto; destruct l; simplify_eq/=; tauto.
Qed.

Lemma mutual_exclusion g k n h p :
  exec pool_step n (lock_init g k) h p -> lock_inv p.
Proof.
  intros Hex. eapply (exec_invariant pool_step (fun _ => lock_inv) (fun _ => True)); [done | | | done | done].
  - split; simpl; [intros t l H Hh | intros t1 t2 l1 l2 H _ Hh _];
      by apply lookup_replicate in H as [-> _].
  - intros ??????. by eapply lock_inv_step.
Qed.

(** ** Linearizability *)

Section linearize.

Context {A : Type} (spec : A -> Op -> Res -> A -> Prop).
Context (R : nat -> S -> A -> Prop) (bounded : nat -> Prop).
Hypothesis bounded_down : forall n, bounded (Datatypes.S n) -> bounded n.
Hypothesis R_weaken : forall n g a, R n g a -> R (Datatypes.S n) g a.
Hypothesis early_spec : forall n g a o r, R n g a -> early o = Some r -> spec a o r a.
Hypothesis body_spec : forall n g a o, bounded (Datatypes.S n) -> R n g a -> early o = None ->
  exists r g' a', body g o = Some (r, g') /\ spec a o r a' /\ R (Datatypes.S n) g' a'.

Definition lock_rel (l : lock_pc Op Res) (st : status Op Res) : Prop :=
  match l, st with
  | LIdle, Idle => True
  | LStart o, Called o' => o = o'
  | LLock o, Called o' | LBody o, Called o' => o = o' /\ early o = None
  | LUnlock r, Finished r' | LDone r, Finished r' => r = r'
  | _, _ => False
  end.

Definition lock_sim (n : nat) (p : pool (locked S) (lock_pc Op Res)) (c : pool A (status Op Res)) : Prop :=
  R n (guarded (shared p)) (shared c) /\
  threads_related (fun _ => lock_rel) (threads p) (threads c).

Lemma lock_simulates n p lab p' c :
  bounded (Datatypes.S n) -> lock_sim n p c -> pool_step p lab p' ->
  exists c', match_step (canon_step (strict spec)) c lab c' /\ lock_sim (Datatypes.S n) p' c'.
Proof using early_spec body_spec R_weaken.
  intros Hb [HR Ht] Hs. destruct c as [a cs]. simpl in *.
  destruct Hs as [s ts t l o l' Hl Hc | s ts t l s' l' Hl Hs | s ts t l r l' Hl Hr]; simpl in *;
    destruct (threads_related_lookup _ _ _ _ _ Ht Hl) as (st & Hst & HP).
  - destruct l, st; try done; simplify_eq/=. eexists. split; [by eapply match_one, canon_call |].
    split; [by apply R_weaken |]. by eapply threads_related_update.
  - assert (Hstay : forall s1 l1, guarded s1 = guarded s -> lock_rel l1 st ->
      exists c', match_step (canon_step (strict spec)) (mkPool a cs) None c' /\
                 lock_sim (Datatypes.S n) (mkPool s1 (<[t := l1]> ts)) c').
    { intros s1 l1 Hg Hrel. eexists. split; [apply match_stutter |]. split; simpl.
      - rewrite Hg. by apply R_weaken.
      - by eapply threads_related_update_l. }
    destruct l as [| o | o | o | r | r |], st as [| o' | r']; try done; simpl in HP, Hs;
      try by apply not_elem_of_nil in Hs.
    + subst o'. destruct (early o) as [r |] eqn:He; inv_outcome Hs; [| by apply Hstay].
      eexists. split; [by eapply match_one, canon_lin, early_spec |].
      split; [by apply R_weaken |]. by eapply threads_related_update.
    + destruct (mutex_ s); inv_outcome Hs. by apply Hstay.
    + destruct HP as [<- He]. destruct (body_spec n (guarded s) a o Hb HR He) as (r & g' & a' & Hbd & Hsp & HR').
      rewrite Hbd in Hs. inv_outcome Hs. eexists. split; [by eapply match_one, canon_lin |].
      split; [done |]. by eapply threads_related_update.
    + inv_outcome Hs. by apply Hstay.
  - destruct l, st; try done; simplify_eq/=. eexists. split; [by eapply match_one, canon_ret |].
    split; [by apply R_weaken |]. by eapply threads_related_update.
Qed.

Lemma locked_exec_sim g a k n h p :
  bounded n -> R 0%nat g a -> exec pool_step n (lock_init g k) h p ->
  exists m c, exec (canon_step (strict spec)) m (mkPool a (replicate k Idle)) h c /\ lock_sim n p c.
Proof using early_spec body_spec R_weaken bounded_down.
  intros Hb H0 Hex.
  eapply (simulation_exec pool_step (canon_step (strict spec)) lock_sim bounded);
    [exact bounded_down | | exact Hb | | exact Hex].
  - intros i p1 l p2 c. apply lock_simulates.
  - split; [done |]. by apply threads_related_replicate.
Qed.

(** No thread ever runs into undefined behaviour. *)
Lemma lock_sim_no_fault n p c t : lock_sim n p c -> threads p !! t <> Some LFault.
Proof.
  intros [_ Ht] Hl. by destruct (threads_related_lookup _ _ _ _ _ Ht Hl) as ([] & _ & HP).
Qed.

End linearize.

End Mutex.
