(* ===== verification/BoundedFifo.v ===== *)
(** * The abstract bounded FIFO

    What [SPSCQueue] and [MPMCQueue] promise to their clients: a list of at most
    [capacity] messages, numbered from one in publication order.  The two
    classes differ in one clause of their contract: a [try_pop] into a buffer that
    is too short leaves the message queued in [SPSCQueue] and consumes it in
    [MPMCQueue] ([consume_short]). *)

From S2P Require Import Prelude Result FixedMessage Concurrency.

(** The observer methods [empty()] and [full()]. *)
Inductive observer : Type := is_empty_ | is_full_.

Inductive QueueOp : Type :=
| TryPush (payload : list byte)
| TryPop (destination : list byte)
| Observe (o : observer).

Inductive QueueRes : Type :=
| Pushed (r : WriteResult)
| Popped (r : ReadResult) (destination : list byte)
| Observed (b : bool).

Record fifo : Type := mkFifo {
  pushed : Z;             (** messages accepted since construction *)
  items : list message;   (** the unread ones, oldest first *)
}.

Definition fifo_empty : fifo := mkFifo 0 [].

Section fifo.

Context (MaxPayloadSize capacity : Z) (consume_short : bool).

Definition fifo_push (a : fifo) (payload : list byte) : WriteResult * fifo :=
  if MaxPayloadSize <? span_size payload then (mkWrite message_too_large 0, a)
  else if span_size (items a) =? capacity then (mkWrite full 0, a)
  else
    let seq := pushed a +u 1 in
    (mkWrite success seq, mkFifo (pushed a + 1) (items a ++ [(seq, payload)])).

Definition fifo_pop (a : fifo) (destination : list byte) : ReadResult * list byte * fifo :=
  match items a with
  | [] => (mkRead empty 0 0, destination, a)
  | msg :: rest =>
      let '(r, destination') := deliver msg destination in
      (r, destination',
       if ok (r_status r) || consume_short then mkFifo (pushed a) rest else a)
  end.

Definition fifo_observe (a : fifo) (o : observer) : bool :=
  match o with
  | is_empty_ => span_size (items a) =? 0
  | is_full_ => span_size (items a) =? capacity
  end.

Inductive fifo_spec : fifo -> QueueOp -> QueueRes -> fifo -> Prop :=
| fifo_spec_push a payload r a' :
    fifo_push a payload = (r, a') -> fifo_spec a (TryPush payload) (Pushed r) a'
| fifo_spec_pop a destination r destination' a' :
    fifo_pop a destination = (r, destination', a') ->
    fifo_spec a (TryPop destination) (Popped r destination') a'
| fifo_spec_observe a o : fifo_spec a (Observe o) (Observed (fifo_observe a o)) a.

Definition fifo_apply (a : fifo) (o : QueueOp) : QueueRes * fifo :=
  match o with
  | TryPush payload => let '(r, a') := fifo_push a payload in (Pushed r, a')
  | TryPop destination => let '(r, d, a') := fifo_pop a destination in (Popped r d, a')
  | Observe o => (Observed (fifo_observe a o), a)
  end.

(** The results of a sequence of calls. *)
Fixpoint fifo_run (a : fifo) (os : list QueueOp) : list QueueRes * fifo :=
  match os with
  | [] => ([], a)
  | o :: os => let '(r, a1) := fifo_apply a o in
               let '(rs, a2) := fifo_run a1 os in (r :: rs, a2)
  end.

(** The unread messages are the last ones accepted, consecutively numbered and
    no longer than the payload limit, and never more than the capacity. *)
Record fifo_wf (a : fifo) : Prop := {
  fifo_bounded : span_size (items a) <= capacity;
  fifo_counts : span_size (items a) <= pushed a;
  fifo_numbered : forall i msg, items a !! i = Some msg ->
    msg.1 = u64 (pushed a - span_size (items a) + Z.of_nat i + 1) /\
    span_size msg.2 <= MaxPayloadSize;
}.

Lemma fifo_wf_empty : 0 <= capacity -> fifo_wf fifo_empty.
Proof. intros H. split; simpl; unfold span_size; simpl; [lia | lia | done]. Qed.

Lemma fifo_spec_wf a o r a' : fifo_wf a -> fifo_spec a o r a' -> fifo_wf a'.
Proof.
  intros [Hb Hc Hn] Hs. destruct Hs as [a payload r a' H | a d r d' a' H |]; [| | done].
  - unfold fifo_push in H. case_tests_in H; simplify_eq; try by split.
    unfold span_size in *. split; unfold span_size; simpl; try (rewrite length_app; simpl; lia).
    intros i msg Hi. rewrite length_app; simpl.
    apply lookup_snoc_inv in Hi as [Hi | [-> ->]].
    + destruct (Hn i msg Hi) as [-> ?]. split; [u64_eq | done].
    + split; [simpl; u64_eq | simpl; lia].
  - unfold fifo_pop in H. destruct (items a) as [| msg rest] eqn:Ei; simplify_eq; [by split; rewrite Ei |].
    destruct (deliver msg d) as [r0 d0]. simplify_eq.
    destruct (ok _ || _); [| by split; rewrite ?Ei].
    unfold span_size in *; simpl in *. split; unfold span_size; simpl; try lia.
    intros i m Hi. destruct (Hn (S i) m Hi) as [-> ?]. split; [u64_eq | done].
Qed.

End fifo.

#[export] Hint Constructors fifo_spec : orbit.

(** ** Numbered streams

    A client that pushes the payloads [image 1], [image 2], ... in order keeps the
    queue in a state described by two numbers: how many were accepted ([pushed])
    and how many were taken ([k]). *)
Section stream.

Context (MaxPayloadSize capacity : Z) (image : Z -> list byte).

Definition numbered (i : Z) : message := (i, image i).

Record stream (a : fifo) (k : Z) : Prop := {
  stream_taken : 0 <= k <= pushed a;
  stream_bounded : pushed a - k <= capacity;
  stream_items : items a = numbered <$> seqZ (k + 1) (pushed a - k);
}.

Lemma stream_empty : 0 <= capacity -> stream fifo_empty 0.
Proof. intros H. split; simpl; [lia | lia | done]. Qed.

Lemma stream_size a k : stream a k -> span_size (items a) = pushed a - k.
Proof. intros [Hk _ ->]. unfold span_size. rewrite length_fmap, length_seqZ. lia. Qed.

Lemma stream_push a k r a' :
  stream a k -> pushed a + 1 < u64_modulus -> span_size (image (pushed a + 1)) <= MaxPayloadSize ->
  fifo_push MaxPayloadSize capacity a (image (pushed a + 1)) = (r, a') ->
  (r = mkWrite success (pushed a + 1) /\ pushed a' = pushed a + 1 /\ stream a' k) \/
  (r = mkWrite full 0 /\ a' = a).
Proof.
  intros Hs Hn Hfit Hp. pose proof (stream_size a k Hs) as Hsz. destruct Hs as [Hk Hb Hi].
  unfold fifo_push in Hp. rewrite (proj2 (Z.ltb_ge _ _)), Hsz in Hp by lia.
  destruct (Z.eqb_spec (pushed a - k) capacity) as [E | E]; injection Hp as <- <-; [by right | left].
  rewrite u64_small by lia. split; [done |]. split; [done |].
  split; simpl; [lia | lia |]. rewrite Hi.
  replace (pushed a + 1 - k) with ((pushed a - k) + 1) by lia.
  rewrite seqZ_app, fmap_app by lia. f_equal.
  replace (k + 1 + (pushed a - k)) with (pushed a + 1) by lia. done.
Qed.

(** The destination must be large enough for what is next. *)
Lemma stream_pop consume_short a k d r d' a' :
  stream a k -> span_size (image (k + 1)) <= span_size d ->
  fifo_pop consume_short a d = (r, d', a') ->
  (k = pushed a /\ r = mkRead empty 0 0 /\ d' = d /\ a' = a) \/
  (k < pushed a /\ r = mkRead success (span_size (image (k + 1))) (k + 1) /\
   d' = std_copy (image (k + 1)) d /\ pushed a' = pushed a /\ stream a' (k + 1)).
Proof.
  intros [Hk Hb Hi] Hfit Hp. unfold fifo_pop in Hp. rewrite Hi in Hp.
  destruct (Z.eq_dec k (pushed a)) as [E | E].
  { left. rewrite seqZ_nil in Hp by lia. by injection Hp as <- <- <-. }
  right. rewrite seqZ_cons in Hp by lia. cbn [fmap list_fmap] in Hp.
  rewrite deliver_success in Hp by done. cbn [ok r_status numbered fst snd orb] in Hp.
  injection Hp as <- <- <-. split; [lia |]. split; [done |]. split; [done |]. split; [done |].
  split; simpl; [lia | lia |]. f_equal. f_equal; lia.
Qed.

Lemma stream_observe_empty a k : stream a k -> fifo_observe capacity a is_empty_ = (pushed a =? k).
Proof.
  intros Hs. cbn [fifo_observe]. rewrite (stream_size a k Hs). apply eq_true_iff_eq. rewrite !Z.eqb_eq. lia.
Qed.

End stream.
