(* ===== verification/SPSCQueue.v ===== *)
(** * The single-producer single-consumer ring ([include/orbitqueue/spsc_queue.h])

    The class as a state-passing program, one definition per member function.
    A subscript outside [slots_] (undefined behaviour in C++) is [None].  The
    theorems here are about calls that do not overlap; [SPSCConcurrent.v] splits
    the same code at its atomic accesses. *)

From S2P Require Import Prelude Result FixedMessage BoundedFifo.

Record SPSCQueue : Type := mkSPSC {
  capacity_ : Z;
  slots_ : list FixedMessage;
  head_ : Z;
  tail_ : Z;
}.

Section SPSCQueue.

Context (MaxPayloadSize : Z).

Definition SPSCQueue_new (capacity : Z) : throwing SPSCQueue :=
  let q := mkSPSC capacity
             (replicate (Z.to_nat capacity) (fresh_message MaxPayloadSize)) 0 0 in
  if capacity =? 0
  then throw (invalid_argument "SPSCQueue capacity must be greater than zero")
  else returns q.

(** [slots_[position % capacity_]] *)
Definition slot_index (q : SPSCQueue) (position : Z) : nat :=
  slot_of (position mod capacity_ q).

Definition try_push (q : SPSCQueue) (payload : list byte) : option (WriteResult * SPSCQueue) :=
  if MaxPayloadSize <? span_size payload then Some (mkWrite message_too_large 0, q)
  else
    let head := head_ q in
    if head -u tail_ q =? capacity_ q then Some (mkWrite full 0, q)
    else
      let sequence := head +u 1 in
      slot ← slots_ q !! slot_index q head;
      let '(result, slot') := assign MaxPayloadSize slot payload sequence in
      Some (result,
            mkSPSC (capacity_ q) (<[slot_index q head := slot']> (slots_ q)) sequence (tail_ q)).

Definition try_pop (q : SPSCQueue) (destination : list byte)
    : option (ReadResult * list byte * SPSCQueue) :=
  let tail := tail_ q in
  if tail =? head_ q then Some (mkRead empty 0 0, destination, q)
  else
    slot ← slots_ q !! slot_index q tail;
    let '(result, destination') := copy_to slot destination in
    if ok (r_status result)
    then Some (result, destination', mkSPSC (capacity_ q) (slots_ q) (head_ q) (tail +u 1))
    else Some (result, destination', q).

Definition capacity (q : SPSCQueue) : Z := capacity_ q.
Definition is_empty (q : SPSCQueue) : bool := head_ q =? tail_ q.
Definition is_full (q : SPSCQueue) : bool := head_ q -u tail_ q =? capacity_ q.

Definition observe (q : SPSCQueue) (o : observer) : bool :=
  match o with is_empty_ => is_empty q | is_full_ => is_full q end.

(** ** The ring represents the abstract FIFO *)

(** Positions below [bound] are mapped to the same slot by the 64-bit counters
    and by unbounded ones: either no counter has wrapped, or the capacity divides
    [2^64] and wrapping is harmless. *)
Definition index_stable (cap bound : Z) : Prop :=
  bound <= u64_modulus \/ (cap | u64_modulus).

Lemma index_stable_mod cap bound p :
  0 < cap -> index_stable cap bound -> 0 <= p < bound -> u64 p mod cap = p mod cap.
Proof.
  intros Hc [Hb | [k Hk]] Hp.
  - by rewrite u64_small by lia.
  - unfold u64. rewrite Hk. rewrite (Z.mul_comm k cap), Z.rem_mul_r.
    + rewrite Z.mul_comm, Z.mod_add by lia. by apply Z.mod_mod; lia.
    + lia.
    + pose proof u64_modulus_pos. nia.
Qed.

Lemma index_stable_le cap b b' : b' <= b -> index_stable cap b -> index_stable cap b'.
Proof. intros Hle [H | H]; [left; lia | by right]. Qed.

Record spsc_repr (cap : Z) (q : SPSCQueue) (a : fifo) : Prop := {
  repr_capacity : capacity_ q = cap;
  repr_capacity_range : 0 < cap < u64_modulus;
  repr_slots : length (slots_ q) = Z.to_nat cap;
  repr_slots_wf : Forall (message_wf MaxPayloadSize) (slots_ q);
  repr_head : head_ q = u64 (pushed a);
  repr_tail : tail_ q = u64 (pushed a - span_size (items a));
  repr_fifo : fifo_wf MaxPayloadSize cap a;
  repr_items : forall i msg, items a !! i = Some msg ->
    exists m, slots_ q !! slot_of ((pushed a - span_size (items a) + Z.of_nat i) mod cap) = Some m /\
              message_of m = msg;
}.

Lemma spsc_repr_new cap q :
  0 <= MaxPayloadSize -> 0 <= cap < u64_modulus ->
  SPSCQueue_new cap = inr q -> spsc_repr cap q fifo_empty.
Proof.
  intros HM Hc H. unfold SPSCQueue_new in H. case_tests_in H; [done |]. injection H as <-.
  split; simpl; try done; try lia.
  - by rewrite length_replicate.
  - apply Forall_replicate. by apply fresh_message_wf.
  - apply fifo_wf_empty. lia.
Qed.

(** The counters decide fullness and emptiness correctly across wrap-around. *)
Lemma spsc_full_iff cap q a :
  spsc_repr cap q a -> (head_ q -u tail_ q = cap <-> span_size (items a) = cap).
Proof.
  intros [? Hc ? ? Hh Ht [Hb Hcnt _] ?]. rewrite Hh, Ht, u64_sub.
  replace (pushed a - (pushed a - _)) with (span_size (items a)) by lia.
  pose proof (span_size_nonneg (items a)). by rewrite u64_small by lia.
Qed.

Lemma spsc_empty_iff cap q a :
  spsc_repr cap q a -> (tail_ q = head_ q <-> items a = []).
Proof.
  intros [? Hc ? ? Hh Ht [Hb Hcnt _] ?]. rewrite Hh, Ht. split.
  - intros He. apply u64_window_inj in He.
    + apply nil_length_inv. unfold span_size in *. lia.
    + pose proof (span_size_nonneg (items a)). lia.
  - intros ->. unfold span_size; simpl. u64_eq.
Qed.

Lemma spsc_slot_exists cap q a p :
  spsc_repr cap q a -> 0 <= p -> index_stable cap (p + 1) ->
  exists m, slots_ q !! slot_index q (u64 p) = Some m /\ message_wf MaxPayloadSize m /\
            slot_index q (u64 p) = slot_of (p mod cap).
Proof.
  intros [Hcap Hc Hl Hwf ? ? ? ?] Hp Hst. unfold slot_index. rewrite Hcap.
  rewrite (index_stable_mod cap (p + 1)) by (done || lia).
  destruct (lookup_lt_is_Some_2 (slots_ q) (slot_of (p mod cap))) as [m Hm].
  { apply (ring_slot_lt cap); [lia | done]. }
  exists m. split; [done | split; [| done]].
  eapply Forall_lookup_1 in Hwf; eauto.
Qed.

(** The front message is in the slot the tail points at. *)
Lemma spsc_front cap q a msg rest :
  spsc_repr cap q a -> items a = msg :: rest -> index_stable cap (pushed a) ->
  exists m, slots_ q !! slot_index q (tail_ q) = Some m /\ message_wf MaxPayloadSize m /\
            message_of m = msg.
Proof.
  intros Hr Hi Hst. pose proof Hr as [Hcap Hc Hl Hwf Hh Ht [Hb Hcnt _] Hit].
  destruct (Hit 0%nat msg) as (m & Hm & Hmsg); [by rewrite Hi |].
  rewrite Z.add_0_r in Hm. exists m.
  assert (Hlen : 1 <= span_size (items a)) by (rewrite Hi; unfold span_size; simpl; lia).
  unfold slot_index. rewrite Ht, Hcap.
  rewrite (index_stable_mod cap (pushed a)) by (done || lia).
  split; [done | split; [| done]]. eapply Forall_lookup_1 in Hwf; eauto.
Qed.

(** Filling the free slot and advancing the head appends to the FIFO. *)
Lemma spsc_repr_push cap q a payload m :
  spsc_repr cap q a -> span_size (items a) <> cap -> span_size payload <= MaxPayloadSize ->
  message_wf MaxPayloadSize m -> message_of m = (pushed a +u 1, payload) ->
  spsc_repr cap
    (mkSPSC cap (<[slot_of (pushed a mod cap) := m]> (slots_ q)) (pushed a +u 1) (tail_ q))
    (mkFifo (pushed a + 1) (items a ++ [(pushed a +u 1, payload)])).
Proof.
  intros [Hcap Hc Hl Hwf Hh Ht Hfw Hit] Hnf Hfit Hm Hmsg.
  assert (Hfw' : fifo_wf MaxPayloadSize cap (mkFifo (pushed a + 1) (items a ++ [(pushed a +u 1, payload)]))).
  { eapply (fifo_spec_wf MaxPayloadSize cap false a (TryPush payload)); [done |].
    constructor. unfold fifo_push. rewrite (proj2 (Z.ltb_ge _ _)) by lia.
    by rewrite (proj2 (Z.eqb_neq _ _)). }
  assert (Hsz : span_size (items a ++ [(pushed a +u 1, payload)]) = span_size (items a) + 1)
    by (unfold span_size; rewrite length_app; simpl; lia).
  destruct Hfw as [Hb Hcnt _].
  split; simpl; try done.
  - by rewrite length_insert.
  - by apply Forall_insert.
  - rewrite Hsz, Ht. u64_eq.
  - intros i msg Hi. rewrite Hsz. apply lookup_snoc_inv in Hi as [Hi | [-> ->]].
    + destruct (Hit i msg Hi) as (m0 & Hm0 & He). exists m0. split; [| done].
      replace (pushed a + 1 - _ + _) with (pushed a - span_size (items a) + Z.of_nat i) by lia.
      rewrite list_lookup_insert_ne; [done |].
      assert (Z.of_nat i < span_size (items a))
        by (apply lookup_lt_Some in Hi; unfold span_size; lia).
      apply ring_slot_ne; lia.
    + exists m. split; [| done].
      replace (pushed a + 1 - _ + _) with (pushed a) by (unfold span_size; lia).
      apply list_lookup_insert_eq. apply (ring_slot_lt cap); [lia | done].
Qed.

(** Advancing the tail drops the front message. *)
Lemma spsc_repr_pop cap q a msg rest :
  spsc_repr cap q a -> items a = msg :: rest ->
  spsc_repr cap (mkSPSC (capacity_ q) (slots_ q) (head_ q) (tail_ q +u 1)) (mkFifo (pushed a) rest).
Proof.
  intros [Hcap Hc Hl Hwf Hh Ht Hfw Hit] Hi.
  assert (Hsz : span_size (items a) = span_size rest + 1)
    by (rewrite Hi; unfold span_size; simpl; lia).
  split; simpl; try done.
  - rewrite Ht, u64_add_l. u64_eq.
  - destruct Hfw as [Hb Hcnt Hn]. split; simpl; [lia | lia |].
    intros i m Hm. destruct (Hn (S i) m) as [-> ?]; [by rewrite Hi |]. split; [u64_eq | done].
  - intros i m Hm. destruct (Hit (S i) m) as (m0 & Hm0 & He); [by rewrite Hi |].
    exists m0. split; [| done]. rewrite <- Hm0.
    by replace (pushed a - span_size rest + _)
      with (pushed a - span_size (items a) + Z.of_nat (S i)) by lia.
Qed.

(** ** The sequential contract *)

(** [try_push] behaves as the abstract push: accepted messages are numbered
    consecutively, a full queue and an oversized payload leave the queue as it
    was, and no slot outside the ring is touched. *)
Lemma try_push_spec cap q a payload :
  spsc_repr cap q a -> index_stable cap (pushed a + 1) ->
  exists r q' a', try_push q payload = Some (r, q') /\
    fifo_push MaxPayloadSize cap a payload = (r, a') /\ spsc_repr cap q' a'.
Proof.
  intros Hr Hst. unfold try_push, fifo_push.
  destruct (Z.ltb_spec MaxPayloadSize (span_size payload)) as [Hbig | Hfit]; [by eauto 10 |].
  pose proof (spsc_full_iff cap q a Hr) as Hfull.
  pose proof Hr as [Hcap Hc _ _ Hh _ [Hb Hcnt _] _]. rewrite Hcap.
  destruct (Z.eqb_spec (span_size (items a)) cap) as [He | Hne].
  { rewrite (proj2 (Z.eqb_eq _ _)) by tauto. eauto 10. }
  rewrite (proj2 (Z.eqb_neq _ _)) by tauto.
  destruct (spsc_slot_exists cap q a (pushed a)) as (m & Hm & Hmwf & Hix); [done | | done |].
  { pose proof (span_size_nonneg (items a)). lia. }
  rewrite Hh, Hm; simpl. rewrite Hix, u64_add_l.
  pose proof (assign_message_of MaxPayloadSize m payload (pushed a +u 1) Hfit) as Hmsg.
  pose proof (assign_wf MaxPayloadSize m payload (pushed a +u 1) Hmwf) as Hwf'.
  rewrite assign_fits in * by done. simpl in *.
  eexists _, _, _. split; [done | split; [done |]]. by apply spsc_repr_push.
Qed.

(** [try_pop] behaves as the abstract pop of the retrying kind: a destination
    that is too short keeps the message queued. *)
Lemma try_pop_spec cap q a destination :
  spsc_repr cap q a -> index_stable cap (pushed a) ->
  exists r destination' q' a', try_pop q destination = Some (r, destination', q') /\
    fifo_pop false a destination = (r, destination', a') /\ spsc_repr cap q' a'.
Proof.
  intros Hr Hst. unfold try_pop, fifo_pop.
  pose proof (spsc_empty_iff cap q a Hr) as Hemp.
  destruct (items a) as [| msg rest] eqn:Hi.
  { rewrite (proj2 (Z.eqb_eq _ _)) by tauto. eauto 10. }
  rewrite (proj2 (Z.eqb_neq _ _)) by (intros He; apply Hemp in He; done).
  destruct (spsc_front cap q a msg rest Hr Hi Hst) as (m & Hm & Hmwf & Hmsg).
  rewrite Hm; simpl. rewrite (copy_to_deliver _ _ _ Hmwf), Hmsg.
  destruct (deliver msg destination) as [r d'] eqn:Ed.
  rewrite orb_false_r. destruct (ok (r_status r)); [| by eauto 10].
  eexists _, _, _, _. split; [done | split; [done |]]. by eapply spsc_repr_pop.
Qed.

(** The observers tell whether the queue is empty or full. *)
Lemma observe_spec cap q a o : spsc_repr cap q a -> observe q o = fifo_observe cap a o.
Proof.
  intros Hr. pose proof (spsc_full_iff _ _ _ Hr) as Hf. pose proof (spsc_empty_iff _ _ _ Hr) as He.
  pose proof (repr_capacity _ _ _ Hr) as Hc. destruct o; simpl.
  - unfold is_empty. apply eq_true_iff_eq. rewrite !Z.eqb_eq. unfold span_size.
    assert (Hs : head_ q = tail_ q <-> tail_ q = head_ q) by (split; congruence).
    rewrite Hs, He. destruct (items a); simpl; split; (done || lia).
  - unfold is_full. rewrite Hc. apply eq_true_iff_eq. by rewrite !Z.eqb_eq.
Qed.

(** ** Call sequences *)

Definition spsc_apply (q : SPSCQueue) (o : QueueOp) : option (QueueRes * SPSCQueue) :=
  match o with
  | TryPush payload =>
      '(r, q') ← try_push q payload; Some (Pushed r, q')
  | TryPop destination =>
      '(r, d, q') ← try_pop q destination; Some (Popped r d, q')
  | Observe o => Some (Observed (observe q o), q)
  end.

Fixpoint spsc_run (q : SPSCQueue) (os : list QueueOp) : option (list QueueRes * SPSCQueue) :=
  match os with
  | [] => Some ([], q)
  | o :: os =>
      '(r, q1) ← spsc_apply q o; '(rs, q2) ← spsc_run q1 os; Some (r :: rs, q2)
  end.

Lemma spsc_apply_spec cap q a o :
  spsc_repr cap q a -> index_stable cap (pushed a + 1) ->
  exists r q' a', spsc_apply q o = Some (r, q') /\ fifo_apply MaxPayloadSize cap false a o = (r, a') /\
    spsc_repr cap q' a' /\ pushed a' <= pushed a + 1.
Proof.
  intros Hr Hst. destruct o as [payload | destination | o]; simpl.
  - destruct (try_push_spec cap q a payload Hr Hst) as (r & q' & a' & -> & Hf & Hr').
    rewrite Hf. simpl. eexists _, _, _. split_and!; [done.. |].
    unfold fifo_push in Hf. case_tests_in Hf; simplify_eq/=; lia.
  - destruct (try_pop_spec cap q a destination) as (r & d & q' & a' & -> & Hf & Hr'); [done | |].
    { eapply index_stable_le; [| exact Hst]. lia. }
    rewrite Hf. simpl. eexists _, _, _. split_and!; [done.. |].
    unfold fifo_pop in Hf. repeat case_match; simplify_eq/=; lia.
  - eexists _, _, _. split; [done |]. rewrite (observe_spec cap q a o Hr). split_and!; [done.. | lia].
Qed.

Lemma spsc_run_spec cap q a os :
  spsc_repr cap q a -> index_stable cap (pushed a + Z.of_nat (length os)) ->
  exists q', spsc_run q os = Some ((fifo_run MaxPayloadSize cap false a os).1, q') /\
    spsc_repr cap q' (fifo_run MaxPayloadSize cap false a os).2.
Proof.
  revert q a. induction os as [| o os IH]; intros q a Hr Hst; simpl; [by eauto |].
  destruct (spsc_apply_spec cap q a o Hr) as (r & q' & a' & -> & -> & Hr' & Hn).
  { eapply index_stable_le; [| exact Hst]. simpl. lia. }
  destruct (IH q' a' Hr') as (q'' & Hrun & Hr'').
  { eapply index_stable_le; [| exact Hst]. simpl. lia. }
  simpl. rewrite Hrun. simpl. destruct (fifo_run _ _ _ a' os) as [rs a'']. by eauto.
Qed.

End SPSCQueue.

(** A fresh [SPSCQueue] answers every sequence of [try_push] and [try_pop]
    calls with exactly the results, copied bytes included, of the bounded FIFO
    specification, and never subscripts outside its ring; the sequence may have
    any length when the capacity divides [2^64], and up to [2^64] calls
    otherwise. *)
Theorem spsc_run_refines_fifo MaxPayloadSize cap q os :
  0 <= MaxPayloadSize -> 0 <= cap < u64_modulus ->
  SPSCQueue_new MaxPayloadSize cap = inr q ->
  index_stable cap (Z.of_nat (length os)) ->
  exists q', spsc_run MaxPayloadSize q os =
    Some ((fifo_run MaxPayloadSize cap false fifo_empty os).1, q').
Proof.
  intros HM Hc Hnew Hst.
  destruct (spsc_run_spec MaxPayloadSize cap q fifo_empty os) as (q' & H & _); eauto.
  by apply spsc_repr_new.
Qed.

Lemma spsc_run_refines_fifo_witness :
  exists q', spsc_run 2 (mkSPSC 1 [fresh_message 2] 0 0)
               [TryPush [Byte.x07]; TryPush [Byte.x08]; TryPop []; TryPop [Byte.x00; Byte.x01]] =
    Some ([Pushed (mkWrite success 1); Pushed (mkWrite full 0);
           Popped (mkRead message_too_large 0 1) [];
           Popped (mkRead success 1 1) [Byte.x07; Byte.x01]], q').
Proof.
  apply (spsc_run_refines_fifo 2 1 (mkSPSC 1 [fresh_message 2] 0 0)); [lia | done | done |].
  left. vm_compute. discriminate.
Defined.
