(* ===== verification/SPSCConcurrent.v ===== *)
(** * Concurrent use of [SPSCQueue]

    [try_push], [try_pop], [empty] and [full] split at their accesses to shared
    memory: the loads and stores of [head_] and [tail_], and the copy in or out of a
    slot.  The producer thread only pushes and the consumer thread only pops, as the
    class requires.  Theorems: every interleaving is linearizable to the bounded FIFO,
    a slot is never written while it is read and no subscript leaves the ring,
    both operations are wait-free, and the split code computes what the member
    functions of [SPSCQueue.v] compute. *)

From S2P Require Import Prelude Result FixedMessage Concurrency BoundedFifo SPSCQueue.

(** The two threads, for the observers both may call. *)
Inductive role : Type := Producer | Consumer.

Inductive spsc_pc : Type :=
| ProducerIdle
| PushStart (payload : list byte)
| PushLoadTail (payload : list byte) (head : Z)
| PushAssign (payload : list byte) (head : Z)
| PushStoreHead (result : WriteResult) (sequence : Z)
| PushDone (result : WriteResult)
| ConsumerIdle
| PopStart (destination : list byte)
| PopLoadHead (destination : list byte) (tail : Z)
| PopCopy (destination : list byte) (tail : Z)
| PopStoreTail (result : ReadResult) (destination : list byte) (tail : Z)
| PopDone (result : ReadResult) (destination : list byte)
| ObsStart (who : role) (o : observer)
| ObsHead (who : role) (o : observer) (head : Z)
| ObsTail (who : role) (o : observer) (tail : Z)
| ObsDone (who : role) (b : bool)
| OutOfBounds.

Definition store_head (q : SPSCQueue) (v : Z) : SPSCQueue :=
  mkSPSC (capacity_ q) (slots_ q) v (tail_ q).
Definition store_tail (q : SPSCQueue) (v : Z) : SPSCQueue :=
  mkSPSC (capacity_ q) (slots_ q) (head_ q) v.
Definition store_slot (q : SPSCQueue) (i : nat) (m : FixedMessage) : SPSCQueue :=
  mkSPSC (capacity_ q) (<[i := m]> (slots_ q)) (head_ q) (tail_ q).

(** Split a conjunction of five facts without looking inside them. *)
Ltac split5 := refine (conj _ (conj _ (conj _ (conj _ _)))).

Section SPSCConcurrent.

Context (MaxPayloadSize : Z).

Definition spsc_call (l : spsc_pc) (o : QueueOp) : option spsc_pc :=
  match l, o with
  | ProducerIdle, TryPush payload => Some (PushStart payload)
  | ConsumerIdle, TryPop destination => Some (PopStart destination)
  | ProducerIdle, Observe o => Some (ObsStart Producer o)
  | ConsumerIdle, Observe o => Some (ObsStart Consumer o)
  | _, _ => None
  end.

(** What [empty()] and [full()] return for the loaded counters. *)
Definition observed (q : SPSCQueue) (o : observer) (head tail : Z) : bool :=
  match o with
  | is_empty_ => head =? tail
  | is_full_ => head -u tail =? capacity_ q
  end.

Definition spsc_tstep (q : SPSCQueue) (l : spsc_pc) : list (SPSCQueue * spsc_pc) :=
  match l with
  | PushStart payload =>
      if MaxPayloadSize <? span_size payload
      then [(q, PushDone (mkWrite message_too_large 0))]
      else [(q, PushLoadTail payload (head_ q))]
  | PushLoadTail payload head =>
      if head -u tail_ q =? capacity_ q
      then [(q, PushDone (mkWrite full 0))]
      else [(q, PushAssign payload head)]
  | PushAssign payload head =>
      let sequence := head +u 1 in
      match slots_ q !! slot_index q head with
      | None => [(q, OutOfBounds)]
      | Some slot =>
          let '(result, slot') := assign MaxPayloadSize slot payload sequence in
          [(store_slot q (slot_index q head) slot', PushStoreHead result sequence)]
      end
  | PushStoreHead result sequence => [(store_head q sequence, PushDone result)]
  | PopStart destination => [(q, PopLoadHead destination (tail_ q))]
  | PopLoadHead destination tail =>
      if tail =? head_ q
      then [(q, PopDone (mkRead empty 0 0) destination)]
      else [(q, PopCopy destination tail)]
  | PopCopy destination tail =>
      match slots_ q !! slot_index q tail with
      | None => [(q, OutOfBounds)]
      | Some slot =>
          let '(result, destination') := copy_to slot destination in
          if ok (r_status result)
          then [(q, PopStoreTail result destination' tail)]
          else [(q, PopDone result destination')]
      end
  | PopStoreTail result destination tail =>
      [(store_tail q (tail +u 1), PopDone result destination)]
  (* the order in which the operands are loaded is unspecified *)
  | ObsStart who o => [(q, ObsHead who o (head_ q)); (q, ObsTail who o (tail_ q))]
  | ObsHead who o head => [(q, ObsDone who (observed q o head (tail_ q)))]
  | ObsTail who o tail => [(q, ObsDone who (observed q o (head_ q) tail))]
  | ProducerIdle | ConsumerIdle | PushDone _ | PopDone _ _ | ObsDone _ _ | OutOfBounds => []
  end.

Definition spsc_ret (l : spsc_pc) : option (QueueRes * spsc_pc) :=
  match l with
  | PushDone result => Some (Pushed result, ProducerIdle)
  | PopDone result destination => Some (Popped result destination, ConsumerIdle)
  | ObsDone Producer b => Some (Observed b, ProducerIdle)
  | ObsDone Consumer b => Some (Observed b, ConsumerIdle)
  | _ => None
  end.

#[local] Instance spsc_object : ConcurrentObject QueueOp QueueRes SPSCQueue spsc_pc := {|
  call := spsc_call; tstep := spsc_tstep; ret := spsc_ret;
|}.

(** One producer thread and one consumer thread over a fresh queue. *)
Definition spsc_init (q : SPSCQueue) : pool SPSCQueue spsc_pc :=
  mkPool q [ProducerIdle; ConsumerIdle].

(** ** The split code is the code *)

Lemma push_solo q payload :
  match try_push MaxPayloadSize q payload with
  | Some (r, q') => solo 4 q (PushStart payload) = (q', PushDone r)
  | None => (solo 4 q (PushStart payload)).2 = OutOfBounds
  end.
Proof.
  unfold try_push. simpl. destruct (MaxPayloadSize <? span_size payload); [done | simpl].
  destruct (head_ q -u tail_ q =? capacity_ q); [done | simpl].
  destruct (slots_ q !! slot_index q (head_ q)) as [slot |] eqn:E; [| done].
  simpl. destruct (assign MaxPayloadSize slot payload (head_ q +u 1)) as [r slot']. done.
Qed.

Lemma pop_solo q destination :
  match try_pop q destination with
  | Some (r, d, q') => solo 4 q (PopStart destination) = (q', PopDone r d)
  | None => (solo 4 q (PopStart destination)).2 = OutOfBounds
  end.
Proof.
  unfold try_pop. simpl. destruct (tail_ q =? head_ q); [done | simpl].
  destruct (slots_ q !! slot_index q (tail_ q)) as [slot |] eqn:E; [| done].
  simpl. destruct (copy_to slot destination) as [r d]. simpl.
  by destruct (ok (r_status r)).
Qed.

(** ** Wait-freedom *)

Definition spsc_measure (l : spsc_pc) : nat :=
  match l with
  | PushStart _ | PopStart _ => 4
  | ObsStart _ _ => 2
  | ObsHead _ _ _ | ObsTail _ _ _ => 1
  | PushLoadTail _ _ | PopLoadHead _ _ => 3
  | PushAssign _ _ | PopCopy _ _ => 2
  | PushStoreHead _ _ | PopStoreTail _ _ _ => 1
  | _ => 0
  end.

Lemma spsc_measure_decreases q l q' l' :
  (q', l') ∈ spsc_tstep q l -> (spsc_measure l' < spsc_measure l)%nat.
Proof.
  intros H. destruct l; simpl in *; repeat case_match; simplify_eq/=; inv_outcomes H; simpl; lia.
Qed.

(** ** Simulation by the atomic FIFO *)

Section simulation_relation.

Context (cap : Z).

(** What a thread in the middle of an operation knows about the ring. *)
Definition producer_rel (q : SPSCQueue) (a : fifo) (l : spsc_pc) (st : status QueueOp QueueRes)
    : Prop :=
  match l, st with
  | ProducerIdle, Idle => True
  | PushStart payload, Called (TryPush payload') => payload = payload'
  | PushLoadTail payload head, Called (TryPush payload') =>
      payload = payload' /\ head = head_ q /\ span_size payload <= MaxPayloadSize
  | PushAssign payload head, Called (TryPush payload') =>
      payload = payload' /\ head = head_ q /\ span_size payload <= MaxPayloadSize /\
      span_size (items a) <> cap
  | PushStoreHead result sequence, Called (TryPush payload') =>
      result = mkWrite success sequence /\ sequence = pushed a +u 1 /\
      span_size payload' <= MaxPayloadSize /\ span_size (items a) <> cap /\
      exists m, slots_ q !! slot_of (pushed a mod cap) = Some m /\
                message_wf MaxPayloadSize m /\ message_of m = (sequence, payload')
  | PushDone result, Finished (Pushed result') => result = result'
  | ObsStart Producer o, Called (Observe o') => o = o'
  | ObsHead Producer o head, Called (Observe o') => o = o' /\ head = head_ q
  | ObsTail Producer o tail, Finished (Observed b) => b = observed q o (head_ q) tail
  | ObsDone Producer b, Finished (Observed b') => b = b'
  | _, _ => False
  end.

Definition consumer_rel (q : SPSCQueue) (a : fifo) (l : spsc_pc) (st : status QueueOp QueueRes)
    : Prop :=
  match l, st with
  | ConsumerIdle, Idle => True
  | PopStart destination, Called (TryPop destination') => destination = destination'
  | PopLoadHead destination tail, Called (TryPop destination') =>
      destination = destination' /\ tail = tail_ q
  | PopCopy destination tail, Called (TryPop destination') =>
      destination = destination' /\ tail = tail_ q /\ items a <> []
  | PopStoreTail result destination tail, Called (TryPop destination') =>
      tail = tail_ q /\ ok (r_status result) = true /\
      exists msg rest, items a = msg :: rest /\ deliver msg destination' = (result, destination)
  | PopDone result destination, Finished (Popped result' destination') =>
      result = result' /\ destination = destination'
  | ObsStart Consumer o, Called (Observe o') => o = o'
  | ObsTail Consumer o tail, Called (Observe o') => o = o' /\ tail = tail_ q
  | ObsHead Consumer o head, Finished (Observed b) => b = observed q o head (tail_ q)
  | ObsDone Consumer b, Finished (Observed b') => b = b'
  | _, _ => False
  end.

Definition spsc_sim (n : nat) (p : pool SPSCQueue spsc_pc)
    (c : pool fifo (status QueueOp QueueRes)) : Prop :=
  spsc_repr MaxPayloadSize cap (shared p) (shared c) /\
  pushed (shared c) <= Z.of_nat n /\
  exists lp lc sp sc, threads p = [lp; lc] /\ threads c = [sp; sc] /\
    producer_rel (shared p) (shared c) lp sp /\ consumer_rel (shared p) (shared c) lc sc.

(** Filling the free slot does not disturb the queued messages. *)
Lemma spsc_repr_store_slot q a m :
  spsc_repr MaxPayloadSize cap q a -> span_size (items a) <> cap ->
  message_wf MaxPayloadSize m ->
  spsc_repr MaxPayloadSize cap (store_slot q (slot_of (pushed a mod cap)) m) a.
Proof.
  intros [Hcap Hc Hl Hwf Hh Ht [Hb Hcnt Hn] Hit] Hnf Hm. split; simpl; try done.
  - by rewrite length_insert.
  - by apply Forall_insert.
  - intros i msg Hi. destruct (Hit i msg Hi) as (m0 & Hm0 & He). exists m0. split; [| done].
    assert (Z.of_nat i < span_size (items a))
      by (apply lookup_lt_Some in Hi; unfold span_size; lia).
    rewrite list_lookup_insert_ne; [done |]. apply ring_slot_ne; lia.
Qed.

(** Appending a message keeps what the consumer knows of the front. *)
Lemma consumer_rel_push q a n msg v lc sc :
  consumer_rel q a lc sc -> consumer_rel (store_head q v) (mkFifo n (items a ++ [msg])) lc sc.
Proof.
  destruct lc, sc as [| [] | []]; simpl; try done.
  - intros (? & ? & Hne). split_and!; [done.. |]. by destruct (items a).
  - intros (? & ? & m & rest & -> & Hd). split_and!; [done.. |].
    by exists m, (rest ++ [msg]).
Qed.

(** Dropping the front keeps what the producer knows of the free slot. *)
Lemma producer_rel_pop q a msg rest v lp sp :
  items a = msg :: rest -> span_size (items a) <= cap ->
  producer_rel q a lp sp -> producer_rel (store_tail q v) (mkFifo (pushed a) rest) lp sp.
Proof.
  intros Hi Hb. rewrite Hi in Hb. unfold span_size in Hb; simpl in Hb.
  destruct lp, sp as [| [] | []]; simpl; try done; intros Hp; destruct_and!; split_and!;
    try done; unfold span_size; lia.
Qed.

(** Loading both counters in one state answers for that state. *)
Lemma observed_spec q a o :
  spsc_repr MaxPayloadSize cap q a -> observed q o (head_ q) (tail_ q) = fifo_observe cap a o.
Proof. intros Hr. rewrite <- (observe_spec MaxPayloadSize cap q a o Hr). by destruct o. Qed.

(** The producer moves: the consumer's knowledge survives. *)
Lemma producer_step_sim q a lp sp q' lp' :
  spsc_repr MaxPayloadSize cap q a -> index_stable cap (pushed a + 1) ->
  producer_rel q a lp sp -> (q', lp') ∈ spsc_tstep q lp ->
  exists a' sp', spsc_repr MaxPayloadSize cap q' a' /\ pushed a' <= pushed a + 1 /\
    producer_rel q' a' lp' sp' /\
    (forall lc sc, consumer_rel q a lc sc -> consumer_rel q' a' lc sc) /\
    ((a' = a /\ sp' = sp) \/
     exists o r, sp = Called o /\ sp' = Finished r /\ fifo_spec MaxPayloadSize cap false a o r a').
Proof.
  intros Hr Hst Hp Hs. pose proof (spsc_full_iff _ _ _ _ Hr) as Hfull.
  pose proof Hr as [Hcap Hc Hl Hwf Hh Ht [Hb Hcnt Hn] Hit].
  destruct lp as [| | | | | | | | | | | | [] o | [] o head | [] o tail | [] b |],
    sp as [| [payload' | | o'] | [| | b']]; try done; simpl in Hp, Hs;
    try by apply not_elem_of_nil in Hs.
  - (* size check *)
    subst payload'. case_tests_in Hs; inv_outcome Hs.
    + exists a, (Finished (Pushed (mkWrite message_too_large 0))).
      split5; [done | lia | done | done | right]. eexists _, _. split_and!; [done.. |].
      constructor. unfold fifo_push. by rewrite (proj2 (Z.ltb_lt _ _)).
    + exists a, (Called (TryPush payload)). by split5; [| lia | | | left].
  - (* load of tail *)
    destruct Hp as (-> & -> & Hfit). rewrite Hcap in Hs. case_tests_in Hs; inv_outcome Hs.
    + exists a, (Finished (Pushed (mkWrite full 0))).
      split5; [done | lia | done | done | right]. eexists _, _. split_and!; [done.. |].
      constructor. unfold fifo_push. rewrite (proj2 (Z.ltb_ge _ _)) by lia.
      by rewrite (proj2 (Z.eqb_eq _ _)) by tauto.
    + exists a, (Called (TryPush payload')). split5; [done | lia | | done | by left].
      simpl. split_and!; [done.. | tauto].
  - (* write of the slot *)
    destruct Hp as (-> & -> & Hfit & Hnf).
    destruct (spsc_slot_exists MaxPayloadSize cap q a (pushed a)) as (m & Hm & Hmwf & Hix);
      [done | pose proof (span_size_nonneg (items a)); lia | done |].
    rewrite Hh, Hm, Hix, u64_add_l in Hs.
    pose proof (assign_message_of MaxPayloadSize m payload' (pushed a +u 1) Hfit) as Hmsg.
    pose proof (assign_wf MaxPayloadSize m payload' (pushed a +u 1) Hmwf) as Hwf'.
    rewrite assign_fits in Hs, Hmsg, Hwf' by done. inv_outcome Hs.
    exists a, (Called (TryPush payload')).
    split5; [by apply spsc_repr_store_slot | lia | | done | by left].
    simpl. split_and!; [done.. |]. eexists. split_and!; [| done | done].
    apply list_lookup_insert_eq, (ring_slot_lt cap); [lia | done].
  - (* store of head *)
    destruct Hp as (-> & -> & Hfit & Hnf & m & Hm & Hmwf & Hmsg). inv_outcome Hs.
    exists (mkFifo (pushed a + 1) (items a ++ [(pushed a +u 1, payload')])),
      (Finished (Pushed (mkWrite success (pushed a +u 1)))).
    split5; [| simpl; lia | done | |].
    + pose proof (spsc_repr_push _ _ _ _ payload' m Hr Hnf Hfit Hmwf Hmsg) as Hr'.
      rewrite list_insert_id in Hr' by done. unfold store_head. by rewrite Hcap.
    + intros lc sc. apply consumer_rel_push.
    + right. eexists _, _. split_and!; [done.. |]. constructor. unfold fifo_push.
      rewrite (proj2 (Z.ltb_ge _ _)) by lia. by rewrite (proj2 (Z.eqb_neq _ _)).
  - (* observation: first load *)
    subst o'. inv_outcomes Hs.
    + exists a, (Called (Observe o)). by split5; [| lia | | | left].
    + exists a, (Finished (Observed (observed q o (head_ q) (tail_ q)))).
      split5; [done | lia | done | done | right]. eexists _, _. split_and!; [done.. |].
      rewrite observed_spec with (a := a) by done. constructor.
  - (* observation: load of tail *)
    destruct Hp as [-> ->]. inv_outcome Hs. exists a, (Finished (Observed (observed q o' (head_ q) (tail_ q)))).
    split5; [done | lia | done | done | right]. eexists _, _. split_and!; [done.. |].
    rewrite observed_spec with (a := a) by done. constructor.
  - (* observation: load of the own head *)
    subst b'. inv_outcome Hs. exists a, (Finished (Observed (observed q o (head_ q) tail))).
    by split5; [| lia | | | left].
Qed.

(** The consumer moves: the producer's knowledge survives. *)
Lemma consumer_step_sim q a lc sc q' lc' :
  spsc_repr MaxPayloadSize cap q a -> index_stable cap (pushed a) ->
  consumer_rel q a lc sc -> (q', lc') ∈ spsc_tstep q lc ->
  exists a' sc', spsc_repr MaxPayloadSize cap q' a' /\ pushed a' <= pushed a + 1 /\
    consumer_rel q' a' lc' sc' /\
    (forall lp sp, producer_rel q a lp sp -> producer_rel q' a' lp sp) /\
    ((a' = a /\ sc' = sc) \/
     exists o r, sc = Called o /\ sc' = Finished r /\ fifo_spec MaxPayloadSize cap false a o r a').
Proof.
  intros Hr Hst Hc Hs. pose proof (spsc_empty_iff _ _ _ _ Hr) as Hemp.
  destruct lc as [| | | | | | | | | | | | [] o | [] o head | [] o tail | [] b |],
    sc as [| [| d | o'] | [| | b']]; try done; simpl in Hc, Hs;
    try by apply not_elem_of_nil in Hs.
  - (* load of the own tail *)
    subst d. inv_outcome Hs. exists a, (Called (TryPop destination)).
    by split5; [| lia | | | left].
  - (* load of head *)
    destruct Hc as (-> & ->). case_tests_in Hs; inv_outcome Hs.
    + exists a, (Finished (Popped (mkRead empty 0 0) d)).
      split5; [done | lia | done | done | right]. eexists _, _. split_and!; [done.. |].
      constructor. unfold fifo_pop. by rewrite (proj1 Hemp).
    + exists a, (Called (TryPop d)). split5; [done | lia | | done | by left].
      simpl. tauto.
  - (* copy out of the slot *)
    destruct Hc as (-> & -> & Hne). destruct (items a) as [| msg rest] eqn:Hi; [done |].
    destruct (spsc_front _ _ _ _ _ _ Hr Hi Hst) as (m & Hm & Hmwf & Hmsg).
    rewrite Hm, (copy_to_deliver _ _ _ Hmwf), Hmsg in Hs.
    destruct (deliver msg d) as [r d'] eqn:Ed.
    destruct (ok (r_status r)) eqn:Hok; inv_outcome Hs.
    + exists a, (Called (TryPop d)). split5; [done | lia | | done | by left].
      simpl. split_and!; [done.. |]. eauto.
    + exists a, (Finished (Popped r d')). split5; [done | lia | done | done | right].
      eexists _, _. split_and!; [done.. |]. constructor. unfold fifo_pop. by rewrite Hi, Ed, Hok.
  - (* store of tail *)
    destruct Hc as (-> & Hok & msg & rest & Hi & Hd). inv_outcome Hs.
    exists (mkFifo (pushed a) rest), (Finished (Popped result destination)).
    split5; [by eapply spsc_repr_pop | simpl; lia | done | |].
    + intros lp sp. apply (producer_rel_pop _ _ msg); [done |]. apply (repr_fifo _ _ _ _ Hr).
    + right. eexists _, _. split_and!; [done.. |]. constructor. unfold fifo_pop.
      by rewrite Hi, Hd, Hok.
  - (* observation: first load *)
    subst o'. inv_outcomes Hs.
    + exists a, (Finished (Observed (observed q o (head_ q) (tail_ q)))).
      split5; [done | lia | done | done | right]. eexists _, _. split_and!; [done.. |].
      rewrite observed_spec with (a := a) by done. constructor.
    + exists a, (Called (Observe o)). by split5; [| lia | | | left].
  - (* observation: load of the own tail *)
    subst b'. inv_outcome Hs. exists a, (Finished (Observed (observed q o head (tail_ q)))).
    by split5; [| lia | | | left].
  - (* observation: load of head *)
    destruct Hc as [-> ->]. inv_outcome Hs. exists a, (Finished (Observed (observed q o' (head_ q) (tail_ q)))).
    split5; [done | lia | done | done | right]. eexists _, _. split_and!; [done.. |].
    rewrite observed_spec with (a := a) by done. constructor.
Qed.

(** The two threads of the pool. *)
Lemma two_threads_inv (A : Type) (x y z : A) t :
  [x; y] !! t = Some z -> (t = 0%nat /\ z = x) \/ (t = 1%nat /\ z = y).
Proof. destruct t as [| [| t]]; intros; simplify_eq/=; auto. Qed.

(** Calls and returns change the status and the program counter together. *)
Lemma producer_call_rel q a l o l' st :
  spsc_call l o = Some l' -> producer_rel q a l st -> st = Idle /\ producer_rel q a l' (Called o).
Proof. destruct l as [| | | | | | | | | | | | [] | [] | [] | [] |], o, st as [| [] | []]; intros; simplify_eq/=; done. Qed.

Lemma consumer_call_rel q a l o l' st :
  spsc_call l o = Some l' -> consumer_rel q a l st -> st = Idle /\ consumer_rel q a l' (Called o).
Proof. destruct l as [| | | | | | | | | | | | [] | [] | [] | [] |], o, st as [| [] | []]; intros; simplify_eq/=; done. Qed.

Lemma producer_ret_rel q a l r l' st :
  spsc_ret l = Some (r, l') -> producer_rel q a l st -> st = Finished r /\ producer_rel q a l' Idle.
Proof.
  destruct l as [| | | | | | | | | | | | [] | [] | [] | [] |], st as [| [] | []]; intros; simplify_eq/=; done.
Qed.

Lemma consumer_ret_rel q a l r l' st :
  spsc_ret l = Some (r, l') -> consumer_rel q a l st -> st = Finished r /\ consumer_rel q a l' Idle.
Proof.
  destruct l as [| | | | | | | | | | | | [] | [] | [] | [] |], st as [| [] | []]; intros; simplify_eq/=;
    destruct_and?; by simplify_eq.
Qed.

Lemma spsc_simulates n p l p' c :
  index_stable cap (Z.of_nat (S n)) -> spsc_sim n p c -> pool_step p l p' ->
  exists c', match_step (canon_step (strict (fifo_spec MaxPayloadSize cap false))) c l c' /\ spsc_sim (S n) p' c'.
Proof.
  intros Hst (Hr & Hn & lp & lc & sp & sc & Hp & Hc & HP & HC) Hs. destruct c as [a cs].
  assert (Hst1 : index_stable cap (pushed a + 1))
    by (eapply index_stable_le; [| exact Hst]; simpl in Hn; lia).
  destruct Hs as [q ts t lo o lo' Ht Hcall | q ts t lo q' lo' Ht Hstep | q ts t lo r lo' Ht Hret];
    simpl in *; subst ts cs; apply two_threads_inv in Ht as [[-> ->] | [-> ->]].
  - destruct (producer_call_rel q a lp o lo' sp Hcall HP) as [-> HP'].
    eexists. split; [by eapply match_one, (canon_call _ _ _ 0) |]. split; [done |].
    split; [simpl; lia |]. by eexists _, _, _, _.
  - destruct (consumer_call_rel q a lc o lo' sc Hcall HC) as [-> HC'].
    eexists. split; [by eapply match_one, (canon_call _ _ _ 1) |]. split; [done |].
    split; [simpl; lia |]. by eexists _, _, _, _.
  - destruct (producer_step_sim _ _ _ _ _ _ Hr Hst1 HP Hstep)
      as (a' & sp' & Hr' & Hn' & HP' & HC' & [[-> ->] | (o & r & -> & -> & Hspec)]).
    + eexists. split; [apply match_stutter |].
      split; [done |]. split; [simpl; lia |]. eexists _, _, _, _. eauto 10.
    + eexists. split; [by eapply match_one, (canon_lin _ _ _ 0) |].
      split; [done |]. split; [simpl; lia |]. eexists _, _, _, _. eauto 10.
  - destruct (consumer_step_sim q a lc sc q' lo') as (a' & sc' & Hr' & Hn' & HC' & HP' & Hor); [done | | done.. |].
    { eapply index_stable_le; [| exact Hst1]. lia. }
    destruct Hor as [[-> ->] | (o & r & -> & -> & Hspec)].
    + eexists. split; [apply match_stutter |].
      split; [done |]. split; [simpl; lia |]. eexists _, _, _, _. eauto 10.
    + eexists. split; [by eapply match_one, (canon_lin _ _ _ 1) |].
      split; [done |]. split; [simpl; lia |]. eexists _, _, _, _. eauto 10.
  - destruct (producer_ret_rel q a lp r lo' sp Hret HP) as [-> HP'].
    eexists. split; [by eapply match_one, (canon_ret _ _ _ 0) |]. split; [done |].
    split; [simpl; lia |]. by eexists _, _, _, _.
  - destruct (consumer_ret_rel q a lc r lo' sc Hret HC) as [-> HC'].
    eexists. split; [by eapply match_one, (canon_ret _ _ _ 1) |]. split; [done |].
    split; [simpl; lia |]. by eexists _, _, _, _.
Qed.

End simulation_relation.

(** Everything below is about executions of a fresh queue that are short enough
    for the counters, or of any length when the capacity divides [2^64]. *)
Lemma spsc_exec_sim cap q n h p :
  0 <= MaxPayloadSize -> 0 <= cap < u64_modulus -> SPSCQueue_new MaxPayloadSize cap = inr q ->
  index_stable cap (Z.of_nat n) -> exec pool_step n (spsc_init q) h p ->
  exists m c, exec (canon_step (strict (fifo_spec MaxPayloadSize cap false))) m
                (mkPool fifo_empty (replicate 2 Idle)) h c /\ spsc_sim cap n p c.
Proof.
  intros HM Hc Hnew Hst Hex.
  eapply (simulation_exec pool_step (canon_step (strict (fifo_spec MaxPayloadSize cap false))) (spsc_sim cap)
            (fun n => index_stable cap (Z.of_nat n))); [| | exact Hst | | exact Hex].
  - intros k. apply index_stable_le. lia.
  - intros k p1 l p2 c. apply spsc_simulates.
  - split; [by apply spsc_repr_new |]. split; [simpl; lia |]. by eexists _, _, _, _.
Qed.

(** The slot being filled is never the slot being copied out. *)
Lemma spsc_sim_slots cap n p c :
  spsc_sim cap n p c -> index_stable cap (Z.of_nat (S n)) ->
  exists lp lc, threads p = [lp; lc] /\ lp <> OutOfBounds /\ lc <> OutOfBounds /\
    forall payload head destination tail,
      lp = PushAssign payload head -> lc = PopCopy destination tail ->
      slot_index (shared p) head <> slot_index (shared p) tail.
Proof.
  intros (Hr & Hn & lp & lc & sp & sc & Hp & _ & HP & HC) Hst. exists lp, lc.
  split; [done |]. split; [by intros -> |]. split; [by intros -> |].
  intros payload head d tail -> ->. simpl in HP, HC.
  destruct sp as [| [] |]; try done. destruct sc as [| [] |]; try done.
  destruct HP as (_ & -> & _ & Hnf), HC as (_ & -> & Hne).
  pose proof Hr as [Hcap Hc _ _ Hh Ht [Hb Hcnt _] _].
  assert (0 < span_size (items (shared c)))
    by (destruct (items (shared c)); [done | unfold span_size; simpl; lia]).
  unfold slot_index. rewrite Hh, Ht, Hcap.
  rewrite !(index_stable_mod cap (Z.of_nat (S n))) by (done || lia).
  apply ring_slot_ne; lia.
Qed.

End SPSCConcurrent.

#[export] Existing Instance spsc_object.

(** one producer and one consumer that call [try_push], [try_pop], [empty] and
    [full], interleaved at every access to the shared counters and slots in any
    way, produce only histories of calls and returns that the atomic bounded FIFO
    has: [SPSCQueue] is linearizable. *)
Theorem spsc_linearizable MaxPayloadSize cap q n h p :
  0 <= MaxPayloadSize -> 0 <= cap < u64_modulus -> SPSCQueue_new MaxPayloadSize cap = inr q ->
  index_stable cap (Z.of_nat n) ->
  exec (pool_step (ConcurrentObject0 := spsc_object MaxPayloadSize)) n (spsc_init q) h p ->
  linearizable (strict (fifo_spec MaxPayloadSize cap false)) fifo_empty 2 h.
Proof.
  intros HM Hc Hnew Hst Hex.
  destruct (spsc_exec_sim MaxPayloadSize cap q n h p) as (m & c & Hc' & _); try done.
  by exists m, c.
Qed.

Lemma spsc_linearizable_witness :
  linearizable (strict (fifo_spec 2 1 false)) fifo_empty 2
    [Call 0 (TryPush [Byte.x07]); Call 1 (TryPop [Byte.x00]);
     Ret 0 (Pushed (mkWrite success 1)); Call 0 (TryPush [Byte.x09]);
     Ret 0 (Pushed (mkWrite full 0)); Ret 1 (Popped (mkRead success 1 1) [Byte.x07])].
Proof.
  eapply (spsc_linearizable 2 1 (mkSPSC 1 [fresh_message 2] 0 0) 16); [lia | done | done | |].
  - left. vm_compute. discriminate.
  - apply (run_schedule_exec (ConcurrentObject0 := spsc_object 2) _
      [DoCall 0 (TryPush [Byte.x07]); DoStep 0 0; DoStep 0 0; DoCall 1 (TryPop [Byte.x00]);
       DoStep 0 0; DoStep 0 0; DoStep 1 0; DoRet 0; DoStep 1 0;
       DoCall 0 (TryPush [Byte.x09]); DoStep 0 0; DoStep 0 0; DoStep 1 0; DoRet 0;
       DoStep 1 0; DoRet 1]).
    vm_compute. reflexivity.
Defined.

(** In every reachable state neither thread has left the ring, and when the
    producer is about to write a slot while the consumer is about to copy one
    out, the two slots are different: the plain (non-atomic) payload accesses
    never conflict. *)
Theorem spsc_no_data_race MaxPayloadSize cap q n h p :
  0 <= MaxPayloadSize -> 0 <= cap < u64_modulus -> SPSCQueue_new MaxPayloadSize cap = inr q ->
  index_stable cap (Z.of_nat (S n)) ->
  exec (pool_step (ConcurrentObject0 := spsc_object MaxPayloadSize)) n (spsc_init q) h p ->
  exists lp lc, threads p = [lp; lc] /\ lp <> OutOfBounds /\ lc <> OutOfBounds /\
    forall payload head destination tail,
      lp = PushAssign payload head -> lc = PopCopy destination tail ->
      slot_index (shared p) head <> slot_index (shared p) tail.
Proof.
  intros HM Hc Hnew Hst Hex.
  destruct (spsc_exec_sim MaxPayloadSize cap q n h p) as (m & c & _ & Hsim); try done.
  { eapply index_stable_le; [| exact Hst]. lia. }
  by eapply spsc_sim_slots.
Qed.

(** [try_push], [try_pop], [empty] and [full] are wait-free: whatever the other
    thread does, a call returns after at most four steps of its own. *)
Theorem spsc_wait_free MaxPayloadSize :
  wait_free (ConcurrentObject0 := spsc_object MaxPayloadSize) 4 (fun l => l = OutOfBounds).
Proof.
  apply (wait_free_by_measure (ConcurrentObject0 := spsc_object MaxPayloadSize)
           spsc_measure (fun l => l <> ProducerIdle /\ l <> ConsumerIdle)).
  - apply spsc_measure_decreases.
  - intros [] [] l H; simplify_eq/=; split; (lia || done).
  - intros q l q' l' _ H. destruct l; simpl in H; repeat case_match; inv_outcomes H; done.
  - intros q l [H1 H2] Hret Hok. destruct l; simpl in *; repeat case_match; done.
Qed.

(** A producer about to fill the second slot while the consumer is about to copy
    out the first. *)
Lemma spsc_no_data_race_witness :
  slot_index (mkSPSC 2 [mkMessage [Byte.x07] 1 1; fresh_message 1] 1 0) 1 <>
  slot_index (mkSPSC 2 [mkMessage [Byte.x07] 1 1; fresh_message 1] 1 0) 0.
Proof.
  destruct (spsc_no_data_race 1 2 (mkSPSC 2 [fresh_message 1; fresh_message 1] 0 0) 12
    [Call 0 (TryPush [Byte.x07]); Ret 0 (Pushed (mkWrite success 1));
     Call 1 (TryPop [Byte.x00]); Call 0 (TryPush [Byte.x09])]
    (mkPool (mkSPSC 2 [mkMessage [Byte.x07] 1 1; fresh_message 1] 1 0)
       [PushAssign [Byte.x09] 1; PopCopy [Byte.x00] 0])) as (lp & lc & E & _ & _ & H).
  - lia.
  - by vm_compute.
  - done.
  - left. vm_compute. discriminate.
  - apply (run_schedule_exec (ConcurrentObject0 := spsc_object 1) _
      [DoCall 0 (TryPush [Byte.x07]); DoStep 0 0; DoStep 0 0; DoStep 0 0; DoStep 0 0; DoRet 0;
       DoCall 1 (TryPop [Byte.x00]); DoStep 1 0; DoStep 1 0;
       DoCall 0 (TryPush [Byte.x09]); DoStep 0 0; DoStep 0 0]).
    vm_compute. reflexivity.
  - injection E as <- <-. exact (H _ _ _ _ eq_refl eq_refl).
Defined.

(** Run without interference, the split code of [try_push], [try_pop], [empty]
    and [full] computes what the member functions compute, on every queue state,
    including out-of-range subscripts. *)
Theorem spsc_split_faithful MaxPayloadSize q payload destination who o :
  match try_push MaxPayloadSize q payload with
  | Some (r, q') => solo (ConcurrentObject0 := spsc_object MaxPayloadSize) 4 q (PushStart payload) = (q', PushDone r)
  | None => (solo (ConcurrentObject0 := spsc_object MaxPayloadSize) 4 q (PushStart payload)).2 = OutOfBounds
  end /\
  match try_pop q destination with
  | Some (r, d, q') =>
      solo (ConcurrentObject0 := spsc_object MaxPayloadSize) 4 q (PopStart destination) = (q', PopDone r d)
  | None => (solo (ConcurrentObject0 := spsc_object MaxPayloadSize) 4 q (PopStart destination)).2 = OutOfBounds
  end /\
  solo (ConcurrentObject0 := spsc_object MaxPayloadSize) 4 q (ObsStart who o) = (q, ObsDone who (observe q o)).
Proof. split; [apply push_solo |]. split; [apply pop_solo | by destruct o]. Qed.
