(* ===== verification/StreamClients.v ===== *)
(** * Producer/consumer programs over [SPSCQueue]

    Programs in which thread 0 pushes the payloads [image 1], [image 2], ... and
    thread 1 pops them.  Such a program is verified by giving what its producer
    knows when [n] messages have been accepted and what its consumer knows when
    [k] have been taken, and by checking every kind of step on its own
    ([stream_client]); [stream_client_sound] turns this into an invariant of
    every execution over the real queue, by [client_refinement]. *)

From S2P Require Import Prelude Result FixedMessage Concurrency Clients BoundedFifo SPSCQueue SPSCConcurrent.

Section stream_clients.

Context {C : Type} `{!Client QueueOp QueueRes C}.
Context (MaxPayloadSize cap : Z) (image : Z -> list byte) (c0 : C).

Abbreviation thread_status := (status QueueOp QueueRes).

(** The producer's knowledge also mentions a bound [L] on the calls made so far,
    which keeps the counters from wrapping. *)
Context (P : Z -> Z -> thread_status -> C -> Prop) (K : Z -> Z -> thread_status -> C -> Prop).

Record stream_client : Prop := {
  sc_init : P 0 0 Idle c0 /\ K 0 0 Idle c0;
  sc_weaken : forall L L' n st c, L <= L' -> P L n st c -> P L' n st c;
  sc_push_lin : forall L a k sc c o r a',
    stream cap image a k -> L + 1 < u64_modulus -> pushed a <= L ->
    P L (pushed a) (Called o) c -> K (pushed a) k sc c -> fifo_spec MaxPayloadSize cap false a o r a' ->
    stream cap image a' k /\ pushed a' <= L /\ P L (pushed a') (Finished r) c /\ K (pushed a') k sc c;
  sc_pop_lin : forall L a k c o r a',
    stream cap image a k -> L + 1 < u64_modulus -> pushed a <= L ->
    K (pushed a) k (Called o) c -> fifo_spec MaxPayloadSize cap false a o r a' ->
    exists k', stream cap image a' k' /\ pushed a' = pushed a /\ K (pushed a) k' (Finished r) c;
  sc_local : forall L n k sp sc c t c',
    P L n sp c -> K n k sc c -> 0 <= k <= n -> n <= L -> L + 1 < u64_modulus ->
    advance c t = Some (None, c') -> P L n sp c' /\ K n k sc c';
  sc_push_call : forall L n k sc c o c',
    P L n Idle c -> K n k sc c -> 0 <= k <= n -> n <= L -> L + 1 < u64_modulus ->
    advance c 0 = Some (Some o, c') -> P (L + 1) n (Called o) c' /\ K n k sc c';
  sc_pop_call : forall L n k sp c o c',
    P L n sp c -> K n k Idle c -> 0 <= k <= n -> n <= L -> L + 1 < u64_modulus ->
    advance c 1 = Some (Some o, c') -> P L n sp c' /\ K n k (Called o) c';
  sc_push_ret : forall L n k sc c r c',
    P L n (Finished r) c -> K n k sc c -> 0 <= k <= n -> n <= L -> L + 1 < u64_modulus ->
    receive c 0 r = Some c' -> P L n Idle c' /\ K n k sc c';
  sc_pop_ret : forall L n k sp c r c',
    P L n sp c -> K n k (Finished r) c -> 0 <= k <= n -> n <= L -> L + 1 < u64_modulus ->
    receive c 1 r = Some c' -> P L n sp c' /\ K n k Idle c';
}.

Hypothesis HPK : stream_client.

Definition stream_inv (L : nat) (s : pool fifo thread_status * C) : Prop :=
  exists k sp sc, threads s.1 = [sp; sc] /\ stream cap image (shared s.1) k /\
    pushed (shared s.1) <= Z.of_nat L /\
    P (Z.of_nat L) (pushed (shared s.1)) sp s.2 /\ K (pushed (shared s.1)) k sc s.2.

#[local] Abbreviation atomic_step := (canon_step (strict (fifo_spec MaxPayloadSize cap false))).

Lemma stream_inv_sync m s a k sp sc c' :
  Z.of_nat m = s -> stream cap image a k -> pushed a <= s -> P (s + 1) (pushed a) sp c' -> K (pushed a) k sc c' ->
  stream_inv (m + 1) (mkPool a [sp; sc], c').
Proof.
  intros <- Hs Hn HP HC. exists k, sp, sc. rewrite Nat2Z.inj_add. split; [done |]. split; [done |].
  cbn [fst snd shared]. split; [lia |]. done.
Qed.

Lemma stream_inv_step m s1 l s2 :
  Z.of_nat (m + length (trace_of l)) + 1 < u64_modulus -> stream_inv m s1 ->
  system_step client_step atomic_step s1 l s2 -> stream_inv (m + length (trace_of l)) s2.
Proof using HPK.
  intros HL (k & sp & sc & Ht & Hs & Hn & HP & HC) Hstep. pose proof (stream_taken _ _ _ _ Hs) as Hk.
  destruct HPK as [_ Hweak Hpl Hcl Hloc Hpc Hcc Hpr Hcr].
  destruct Hstep as [p p' c Ho | p c c' Hc | p p' c c' e Ho Hc]; simpl in Ht, Hs, Hn, HP, HC, Hk, HL |- *.
  - rewrite Nat.add_0_r in *. inversion Ho as [| a cs t o r a' Hst Hspec |]; subst; simpl in *; subst cs.
    apply two_threads_inv in Hst as [[-> <-] | [-> <-]].
    + destruct (Hpl _ a k sc c o r a' Hs HL Hn HP HC Hspec) as (Hs' & Hn' & HP' & HC').
      by exists k, (Finished r), sc.
    + destruct (Hcl _ a k c o r a' Hs HL Hn HC Hspec) as (k' & Hs' & Hn' & HC').
      exists k', sp, (Finished r). simpl. by rewrite Hn'.
  - rewrite Nat.add_0_r in *. inversion Hc as [c1 t c1' Hadv | |]; subst.
    destruct (Hloc _ _ _ _ _ _ _ _ HP HC Hk Hn HL Hadv) as [HP' HC']. by exists k, sp, sc.
  - rewrite Nat2Z.inj_add in HL. assert (HL' : Z.of_nat m + 1 < u64_modulus) by lia.
    inversion Ho as [a cs t o Hst | | a cs t r Hst]; subst; simpl in *; subst cs;
      inversion Hc as [| c1 t1 o1 c1' Hadv | c1 t1 r1 c1' Hrec]; subst;
      apply two_threads_inv in Hst as [[-> E] | [-> E]]; subst; simpl.
    + destruct (Hpc _ _ _ _ _ _ _ HP HC Hk Hn HL' Hadv) as [HP' HC']. by eapply stream_inv_sync.
    + destruct (Hcc _ _ _ _ _ _ _ HP HC Hk Hn HL' Hadv) as [HP' HC']. eapply stream_inv_sync; try done.
      eapply Hweak; [| exact HP']. lia.
    + destruct (Hpr _ _ _ _ _ _ _ HP HC Hk Hn HL' Hrec) as [HP' HC']. eapply stream_inv_sync; try done.
      eapply Hweak; [| exact HP']. lia.
    + destruct (Hcr _ _ _ _ _ _ _ HP HC Hk Hn HL' Hrec) as [HP' HC']. eapply stream_inv_sync; try done.
      eapply Hweak; [| exact HP']. lia.
Qed.

(** The invariant holds in every state the program reaches over [SPSCQueue]. *)
Lemma stream_client_sound q n h p c :
  0 <= MaxPayloadSize -> 0 <= cap < u64_modulus -> SPSCQueue_new MaxPayloadSize cap = inr q ->
  Z.of_nat n + 1 < u64_modulus ->
  exec (system_step client_step (pool_step (ConcurrentObject0 := spsc_object MaxPayloadSize))) n
    (spsc_init q, c0) h (p, c) ->
  exists L N k sp sc, 0 <= k <= N /\ N - k <= cap /\ N <= L /\ L + 1 < u64_modulus /\ P L N sp c /\ K N k sc c.
Proof using HPK.
  intros HM Hcap Hq Hn Hex. pose proof (exec_history_length _ _ _ _ _ Hex) as Hlen.
  destruct (client_refinement client_step (pool_step (ConcurrentObject0 := spsc_object MaxPayloadSize)) atomic_step
    (spsc_init q) (mkPool fifo_empty (replicate 2 Idle)) c0 n h p c) as (j & s & Hex'); [| exact Hex |].
  { intros i h' p' Hi Hp. destruct (spsc_exec_sim MaxPayloadSize cap q i h' p') as (j & s & H & _); eauto. left. lia. }
  assert (Hinv : stream_inv (length h) (s, c)).
  { eapply (exec_history_invariant _ stream_inv _ n); [| | exact Hex' | done].
    - destruct (sc_init HPK). exists 0, Idle, Idle. split_and!; try done. apply stream_empty. lia.
    - intros i s1 l s2 Hi. apply stream_inv_step. lia. }
  destruct Hinv as (k & sp & sc & _ & Hs & Hb & HP & HC).
  exists (Z.of_nat (length h)), (pushed (shared s)), k, sp, sc.
  pose proof (stream_taken _ _ _ _ Hs). pose proof (stream_bounded _ _ _ _ Hs). cbn [fst snd] in *.
  split_and!; try done; lia.
Qed.

End stream_clients.
