(* ===== verification/MPMCQueue.v ===== *)
(** * The multi-producer multi-consumer ring ([include/orbitqueue/mpmc_queue.h])

    The cells, the constructor with its capacity check, and the member functions
    run by one thread at a time.  [compare_exchange_weak] may fail spuriously:
    the claim loops take the outcomes of their failing exchanges as a list, and
    fuel for their iterations.  [MPMCConcurrent.v] interleaves the same code. *)

From S2P Require Import Prelude Result FixedMessage BoundedFifo.

Record Cell : Type := mkCell {
  cell_sequence : Z;
  cell_message : FixedMessage;
}.

Record MPMCQueue : Type := mkMPMC {
  capacity_ : Z;
  mask_ : Z;
  cells_ : list Cell;
  enqueue_pos_ : Z;
  dequeue_pos_ : Z;
}.

Definition validate_capacity (capacity : Z) : throwing Z :=
  if (capacity <? 2) || negb (Z.land capacity (capacity -u 1) =? 0)
  then throw (invalid_argument "MPMCQueue capacity must be a power of two greater than one")
  else returns capacity.

(** [cells_[position & mask_]] *)
Definition cell_index (q : MPMCQueue) (position : Z) : nat := slot_of (Z.land position (mask_ q)).

Definition store_enqueue (q : MPMCQueue) (v : Z) : MPMCQueue :=
  mkMPMC (capacity_ q) (mask_ q) (cells_ q) v (dequeue_pos_ q).
Definition store_dequeue (q : MPMCQueue) (v : Z) : MPMCQueue :=
  mkMPMC (capacity_ q) (mask_ q) (cells_ q) (enqueue_pos_ q) v.
Definition store_cell (q : MPMCQueue) (i : nat) (c : Cell) : MPMCQueue :=
  mkMPMC (capacity_ q) (mask_ q) (<[i := c]> (cells_ q)) (enqueue_pos_ q) (dequeue_pos_ q).

(** How the claim loop of an operation ends. *)
Inductive claim : Type :=
| Claimed (position : Z) (q : MPMCQueue)
| Refused
| NoFuel
| BadIndex.

Section MPMCQueue.

Context (MaxPayloadSize : Z).

Definition MPMCQueue_new (capacity : Z) : throwing MPMCQueue :=
  match validate_capacity capacity with
  | inl e => throw e
  | inr capacity =>
      let cells := replicate (Z.to_nat capacity) (mkCell 0 (fresh_message MaxPayloadSize)) in
      returns (mkMPMC capacity (capacity -u 1)
                 (imap (fun index c => mkCell (Z.of_nat index) (cell_message c)) cells) 0 0)
  end.

Fixpoint push_loop (fuel : nat) (weak_failures : list bool) (q : MPMCQueue) (position : Z) : claim :=
  match fuel with
  | O => NoFuel
  | S fuel =>
      match cells_ q !! cell_index q position with
      | None => BadIndex
      | Some cell =>
          let sequence := cell_sequence cell in
          if sequence =? position then
            if (enqueue_pos_ q =? position) && negb (default false (head weak_failures))
            then Claimed position (store_enqueue q (position +u 1))
            else push_loop fuel (tail weak_failures) q (enqueue_pos_ q)
          else if sequence <? position then Refused
          else push_loop fuel weak_failures q (enqueue_pos_ q)
      end
  end.

Definition try_push (fuel : nat) (weak_failures : list bool) (q : MPMCQueue) (payload : list byte)
    : option (WriteResult * MPMCQueue) :=
  if MaxPayloadSize <? span_size payload then Some (mkWrite message_too_large 0, q)
  else
    match push_loop fuel weak_failures q (enqueue_pos_ q) with
    | Claimed position q1 =>
        cell ← cells_ q1 !! cell_index q1 position;
        let logical_sequence := position +u 1 in
        let '(result, message) := assign MaxPayloadSize (cell_message cell) payload logical_sequence in
        Some (result, store_cell q1 (cell_index q1 position) (mkCell (position +u 1) message))
    | Refused => Some (mkWrite full 0, q)
    | NoFuel | BadIndex => None
    end.

Fixpoint pop_loop (fuel : nat) (weak_failures : list bool) (q : MPMCQueue) (position : Z) : claim :=
  match fuel with
  | O => NoFuel
  | S fuel =>
      match cells_ q !! cell_index q position with
      | None => BadIndex
      | Some cell =>
          let sequence := cell_sequence cell in
          if sequence =? position +u 1 then
            if (dequeue_pos_ q =? position) && negb (default false (head weak_failures))
            then Claimed position (store_dequeue q (position +u 1))
            else pop_loop fuel (tail weak_failures) q (dequeue_pos_ q)
          else if sequence <? position +u 1 then Refused
          else pop_loop fuel weak_failures q (dequeue_pos_ q)
      end
  end.

Definition try_pop (fuel : nat) (weak_failures : list bool) (q : MPMCQueue) (destination : list byte)
    : option (ReadResult * list byte * MPMCQueue) :=
  match pop_loop fuel weak_failures q (dequeue_pos_ q) with
  | Claimed position q1 =>
      cell ← cells_ q1 !! cell_index q1 position;
      let '(result, destination') := copy_to (cell_message cell) destination in
      Some (result, destination',
            store_cell q1 (cell_index q1 position)
              (mkCell (position +u capacity_ q1) (cell_message cell)))
  | Refused => Some (mkRead empty 0 0, destination, q)
  | NoFuel | BadIndex => None
  end.

Definition capacity (q : MPMCQueue) : Z := capacity_ q.

Definition is_empty (q : MPMCQueue) : option bool :=
  let position := dequeue_pos_ q in
  cell ← cells_ q !! cell_index q position;
  Some (cell_sequence cell <? position +u 1).

End MPMCQueue.

(** ** Capacities *)

Lemma validate_capacity_iff capacity :
  0 <= capacity < u64_modulus ->
  (validate_capacity capacity = returns capacity <-> exists k, 1 <= k <= 63 /\ capacity = 2 ^ k).
Proof.
  intros Hc. unfold validate_capacity, returns, throw. split.
  - destruct (Z.ltb_spec capacity 2); simpl; [done |].
    rewrite u64_small by lia. destruct (Z.eqb_spec (Z.land capacity (capacity - 1)) 0) as [He |]; [| done].
    intros _. exists (Z.log2 capacity). apply pow2_of_land_pred in He as Hp; [| lia].
    split; [| done]. split.
    + apply Z.log2_le_pow2; lia.
    + assert (Z.log2 capacity < 64); [| lia]. apply Z.log2_lt_pow2; [lia |]. apply Hc.
  - intros (k & Hk & ->). assert (2 ^ 1 <= 2 ^ k) by (apply Z.pow_le_mono_r; lia).
    rewrite (proj2 (Z.ltb_ge _ _)) by lia. rewrite u64_small by lia. simpl.
    by rewrite land_pred_pow2 by lia.
Qed.

Lemma validate_capacity_inv capacity c :
  0 <= capacity < u64_modulus -> validate_capacity capacity = inr c ->
  c = capacity /\ exists k, 1 <= k <= 63 /\ capacity = 2 ^ k.
Proof.
  intros Hc H. assert (c = capacity) as ->.
  { unfold validate_capacity, throw, returns in H. destruct (_ || _); by simplify_eq. }
  split; [done |]. by apply validate_capacity_iff.
Qed.

(** The constructor's test [capacity < 2 || (capacity & (capacity - 1)) != 0]
    accepts exactly the powers of two from 2 to [2^63] and throws
    [std::invalid_argument] for every other value. *)
Theorem validate_capacity_spec capacity :
  0 <= capacity < u64_modulus ->
  ((exists k, 1 <= k <= 63 /\ capacity = 2 ^ k) -> validate_capacity capacity = inr capacity) /\
  (~ (exists k, 1 <= k <= 63 /\ capacity = 2 ^ k) ->
     validate_capacity capacity =
       inl (invalid_argument "MPMCQueue capacity must be a power of two greater than one")).
Proof.
  intros Hc. split; [by apply validate_capacity_iff |].
  intros Hn. destruct (validate_capacity capacity) as [e | c] eqn:E.
  - unfold validate_capacity, throw, returns in E. by destruct (_ || _); simplify_eq.
  - apply validate_capacity_inv in E as [_ E]; done.
Qed.

Lemma validate_capacity_spec_witness : validate_capacity 64 = inr 64.
Proof.
  apply (validate_capacity_spec 64); [vm_compute; split; [discriminate | reflexivity] |].
  exists 6. split; [lia | reflexivity].
Defined.
