(* ===== verification/MPMCConcurrent.v ===== *)
(** * Concurrent use of [MPMCQueue]

    [try_push] and [try_pop] split at every access to the positions, to the
    sequence of a cell and to its message; [compare_exchange_weak] may fail
    spuriously.  Any number of threads may run any mixture of operations.

    The invariant follows the ownership of the cells: each position of the last
    [capacity] enqueue tickets is being written by the thread that claimed it,
    published, being read by the thread that claimed it, or released for the next
    round, and the sequence of its cell says which.  From it: linearizability
    with respect to the FIFO in which [full] and [empty] may also be reported
    while another thread is between its claim and its release or publication,
    exclusive access to the messages, and the meaning of a failed exchange. *)

From S2P Require Import Prelude Result FixedMessage Concurrency BoundedFifo MPMCQueue.

Inductive mpmc_pc : Type :=
| MIdle
| PushStart (payload : list byte)
| PushLoadCell (payload : list byte) (position : Z)
| PushCas (payload : list byte) (position : Z)
| PushReload (payload : list byte)
| PushAssign (payload : list byte) (position : Z)
| PushPublish (result : WriteResult) (position : Z)
| PushDone (result : WriteResult)
| PopStart (destination : list byte)
| PopLoadCell (destination : list byte) (position : Z)
| PopCas (destination : list byte) (position : Z)
| PopReload (destination : list byte)
| PopCopy (destination : list byte) (position : Z)
| PopRelease (result : ReadResult) (destination : list byte) (position : Z)
| PopDone (result : ReadResult) (destination : list byte)
| OutOfBounds.

(** The position a thread has claimed and not yet published or released. *)
Definition push_claim (l : mpmc_pc) : option Z :=
  match l with PushAssign _ p | PushPublish _ p => Some p | _ => None end.
Definition pop_claim (l : mpmc_pc) : option Z :=
  match l with PopCopy _ p | PopRelease _ _ p => Some p | _ => None end.

Section MPMCConcurrent.

Context (MaxPayloadSize : Z).

(** [empty()] has no part in the protocol of the threads; it is in [MPMCSequential] and,
    with its memory orders, in [MPMCWeak]. *)
Definition mpmc_call (l : mpmc_pc) (o : QueueOp) : option mpmc_pc :=
  match l, o with
  | MIdle, TryPush payload => Some (PushStart payload)
  | MIdle, TryPop destination => Some (PopStart destination)
  | _, _ => None
  end.

Definition mpmc_tstep (q : MPMCQueue) (l : mpmc_pc) : list (MPMCQueue * mpmc_pc) :=
  match l with
  | PushStart payload =>
      if MaxPayloadSize <? span_size payload
      then [(q, PushDone (mkWrite message_too_large 0))]
      else [(q, PushLoadCell payload (enqueue_pos_ q))]
  | PushLoadCell payload position =>
      match cells_ q !! cell_index q position with
      | None => [(q, OutOfBounds)]
      | Some cell =>
          if cell_sequence cell =? position then [(q, PushCas payload position)]
          else if cell_sequence cell <? position then [(q, PushDone (mkWrite full 0))]
          else [(q, PushReload payload)]
      end
  | PushCas payload position =>
      if enqueue_pos_ q =? position
      then [(store_enqueue q (position +u 1), PushAssign payload position);
            (q, PushLoadCell payload (enqueue_pos_ q))]
      else [(q, PushLoadCell payload (enqueue_pos_ q))]
  | PushReload payload => [(q, PushLoadCell payload (enqueue_pos_ q))]
  | PushAssign payload position =>
      match cells_ q !! cell_index q position with
      | None => [(q, OutOfBounds)]
      | Some cell =>
          let logical_sequence := position +u 1 in
          let '(result, message) := assign MaxPayloadSize (cell_message cell) payload logical_sequence in
          [(store_cell q (cell_index q position) (mkCell (cell_sequence cell) message),
            PushPublish result position)]
      end
  | PushPublish result position =>
      match cells_ q !! cell_index q position with
      | None => [(q, OutOfBounds)]
      | Some cell =>
          [(store_cell q (cell_index q position) (mkCell (position +u 1) (cell_message cell)),
            PushDone result)]
      end
  | PopStart destination => [(q, PopLoadCell destination (dequeue_pos_ q))]
  | PopLoadCell destination position =>
      match cells_ q !! cell_index q position with
      | None => [(q, OutOfBounds)]
      | Some cell =>
          if cell_sequence cell =? position +u 1 then [(q, PopCas destination position)]
          else if cell_sequence cell <? position +u 1
          then [(q, PopDone (mkRead empty 0 0) destination)]
          else [(q, PopReload destination)]
      end
  | PopCas destination position =>
      if dequeue_pos_ q =? position
      then [(store_dequeue q (position +u 1), PopCopy destination position);
            (q, PopLoadCell destination (dequeue_pos_ q))]
      else [(q, PopLoadCell destination (dequeue_pos_ q))]
  | PopReload destination => [(q, PopLoadCell destination (dequeue_pos_ q))]
  | PopCopy destination position =>
      match cells_ q !! cell_index q position with
      | None => [(q, OutOfBounds)]
      | Some cell =>
          let '(result, destination') := copy_to (cell_message cell) destination in
          [(q, PopRelease result destination' position)]
      end
  | PopRelease result destination position =>
      match cells_ q !! cell_index q position with
      | None => [(q, OutOfBounds)]
      | Some cell =>
          [(store_cell q (cell_index q position)
              (mkCell (position +u capacity_ q) (cell_message cell)),
            PopDone result destination)]
      end
  | MIdle | PushDone _ | PopDone _ _ | OutOfBounds => []
  end.

Definition mpmc_ret (l : mpmc_pc) : option (QueueRes * mpmc_pc) :=
  match l with
  | PushDone result => Some (Pushed result, MIdle)
  | PopDone result destination => Some (Popped result destination, MIdle)
  | _ => None
  end.

#[local] Instance mpmc_object : ConcurrentObject QueueOp QueueRes MPMCQueue mpmc_pc := {|
  call := mpmc_call; tstep := mpmc_tstep; ret := mpmc_ret;
|}.

Definition mpmc_init (q : MPMCQueue) (nthreads : nat) : pool MPMCQueue mpmc_pc :=
  mkPool q (replicate nthreads MIdle).

(** ** The specification under contention

    Successful operations are those of the FIFO.  A refusal is allowed when the
    FIFO is really full or empty, or while another thread has taken effect and
    not yet returned: a consumer that still holds the cell a producer needs, or a
    producer that has not yet published the oldest message. *)
Inductive mpmc_spec (cap : Z) (cs : list (status QueueOp QueueRes))
    : fifo -> QueueOp -> QueueRes -> fifo -> Prop :=
| mpmc_spec_fifo a o r a' :
    fifo_spec MaxPayloadSize cap true a o r a' -> mpmc_spec cap cs a o r a'
| mpmc_spec_full a payload t r d :
    span_size payload <= MaxPayloadSize ->
    cs !! t = Some (Finished (Popped r d)) -> r_status r <> empty ->
    mpmc_spec cap cs a (TryPush payload) (Pushed (mkWrite full 0)) a
| mpmc_spec_empty a d t r :
    cs !! t = Some (Finished (Pushed r)) -> w_status r = success ->
    mpmc_spec cap cs a (TryPop d) (Popped (mkRead empty 0 0) d) a.

(** ** The invariant *)

Section invariant.

Context (cap : Z).

Definition cell_at (q : MPMCQueue) (p : Z) (c : Cell) : Prop :=
  cells_ q !! slot_of (p mod cap) = Some c.

Definition owns_push (ts : list mpmc_pc) (p : Z) : Prop :=
  exists t l, ts !! t = Some l /\ push_claim l = Some p.
Definition owns_pop (ts : list mpmc_pc) (p : Z) : Prop :=
  exists t l, ts !! t = Some l /\ pop_claim l = Some p.

(** What the sequence of the cell of position [p] says about it. *)
Definition position_ok (a : fifo) (ts : list mpmc_pc) (p : Z) (c : Cell) : Prop :=
  let deq := pushed a - span_size (items a) in
  (deq <= p ->
     (cell_sequence c = p /\ owns_push ts p) \/
     (cell_sequence c = p + 1 /\ items a !! Z.to_nat (p - deq) = Some (message_of (cell_message c)))) /\
  (p < deq ->
     (cell_sequence c = p + 1 /\ owns_pop ts p) \/ cell_sequence c = p + cap).

Definition mpmc_rel (q : MPMCQueue) (a : fifo) (l : mpmc_pc) (st : status QueueOp QueueRes) : Prop :=
  let enq := pushed a in
  let deq := pushed a - span_size (items a) in
  match l, st with
  | MIdle, Idle => True
  | PushStart pl, Called (TryPush pl') => pl = pl'
  | PushLoadCell pl pos, Called (TryPush pl') =>
      pl = pl' /\ span_size pl <= MaxPayloadSize /\ 0 <= pos <= enq
  | PushCas pl pos, Called (TryPush pl') =>
      pl = pl' /\ span_size pl <= MaxPayloadSize /\ 0 <= pos <= enq /\
      (pos = enq -> exists c, cell_at q pos c /\ cell_sequence c = pos)
  | PushReload pl, Called (TryPush pl') => pl = pl' /\ span_size pl <= MaxPayloadSize
  | PushAssign pl pos, Finished (Pushed r) =>
      span_size pl <= MaxPayloadSize /\ deq <= pos < enq /\ r = mkWrite success (pos + 1) /\
      items a !! Z.to_nat (pos - deq) = Some (pos + 1, pl) /\
      exists c, cell_at q pos c /\ cell_sequence c = pos
  | PushPublish r' pos, Finished (Pushed r) =>
      deq <= pos < enq /\ r' = r /\ w_status r = success /\
      exists c, cell_at q pos c /\ cell_sequence c = pos /\
        items a !! Z.to_nat (pos - deq) = Some (message_of (cell_message c))
  | PushDone r, Finished (Pushed r') => r = r'
  | PopStart d, Called (TryPop d') => d = d'
  | PopLoadCell d pos, Called (TryPop d') => d = d' /\ 0 <= pos <= deq
  | PopCas d pos, Called (TryPop d') =>
      d = d' /\ 0 <= pos <= deq /\
      (pos = deq -> pos < enq /\ exists c, cell_at q pos c /\ cell_sequence c = pos + 1)
  | PopReload d, Called (TryPop d') => d = d'
  | PopCopy d pos, Finished (Popped r d') =>
      enq - cap <= pos < deq /\ 0 <= pos /\ r_status r <> empty /\
      exists c, cell_at q pos c /\ cell_sequence c = pos + 1 /\
        deliver (message_of (cell_message c)) d = (r, d')
  | PopRelease r d pos, Finished (Popped r' d') =>
      r = r' /\ d = d' /\ enq - cap <= pos < deq /\ 0 <= pos /\ r_status r <> empty /\
      exists c, cell_at q pos c /\ cell_sequence c = pos + 1
  | PopDone r d, Finished (Popped r' d') => r = r' /\ d = d'
  | _, _ => False
  end.

Record mpmc_ring (q : MPMCQueue) (a : fifo) : Prop := {
  ring_pow2 : exists k, 1 <= k <= 63 /\ cap = 2 ^ k;
  ring_capacity : capacity_ q = cap;
  ring_mask : mask_ q = cap - 1;
  ring_cells : length (cells_ q) = Z.to_nat cap;
  ring_wf : Forall (fun c => message_wf MaxPayloadSize (cell_message c)) (cells_ q);
  ring_enqueue : enqueue_pos_ q = pushed a;
  ring_dequeue : dequeue_pos_ q = pushed a - span_size (items a);
  ring_fifo : fifo_wf MaxPayloadSize cap a;
}.

Record mpmc_sim (n : nat) (p : pool MPMCQueue mpmc_pc) (c : pool fifo (status QueueOp QueueRes))
    : Prop := {
  sim_ring : mpmc_ring (shared p) (shared c);
  sim_bound : pushed (shared c) <= Z.of_nat n;
  sim_window : forall pos, pushed (shared c) - cap <= pos < pushed (shared c) ->
    exists cell, cell_at (shared p) pos cell /\ position_ok (shared c) (threads p) pos cell;
  sim_push_unique : forall t1 t2 l1 l2 pos,
    threads p !! t1 = Some l1 -> threads p !! t2 = Some l2 ->
    push_claim l1 = Some pos -> push_claim l2 = Some pos -> t1 = t2;
  sim_pop_unique : forall t1 t2 l1 l2 pos,
    threads p !! t1 = Some l1 -> threads p !! t2 = Some l2 ->
    pop_claim l1 = Some pos -> pop_claim l2 = Some pos -> t1 = t2;
  sim_threads : threads_related (fun _ => mpmc_rel (shared p) (shared c)) (threads p) (threads c);
}.

(** ** Ring geometry *)

Lemma ring_cap q a : mpmc_ring q a -> 2 <= cap <= 2 ^ 63.
Proof.
  intros [(k & Hk & ->) _ _ _ _ _ _ _].
  pose proof (Z.pow_le_mono_r 2 1 k). pose proof (Z.pow_le_mono_r 2 k 63). lia.
Qed.

Lemma ring_cell_index q a p : mpmc_ring q a -> cell_index q p = slot_of (p mod cap).
Proof.
  intros [(k & Hk & Hcap) _ Hm _ _ _ _ _]. unfold cell_index. rewrite Hm, Hcap.
  by rewrite land_mask_mod by lia.
Qed.

Lemma ring_cell_exists q a p :
  mpmc_ring q a -> exists c, cell_at q p c /\ message_wf MaxPayloadSize (cell_message c).
Proof.
  intros Hr. pose proof (ring_cap _ _ Hr). pose proof Hr as [_ _ _ Hl Hwf _ _ _].
  destruct (lookup_lt_is_Some_2 (cells_ q) (slot_of (p mod cap))) as [c Hc].
  { apply (ring_slot_lt cap); [lia | done]. }
  exists c. split; [done |]. eapply Forall_lookup_1 in Hwf; eauto.
Qed.

Lemma cell_at_fun q p c c' : cell_at q p c -> cell_at q p c' -> c = c'.
Proof. unfold cell_at. congruence. Qed.

Lemma cell_at_store_eq q a p c :
  mpmc_ring q a -> cell_at (store_cell q (slot_of (p mod cap)) c) p c.
Proof.
  intros Hr. pose proof (ring_cap _ _ Hr). pose proof Hr as [_ _ _ Hl _ _ _ _].
  apply list_lookup_insert_eq, (ring_slot_lt cap); [lia | done].
Qed.

Lemma cell_at_store_ne q pos p c c' :
  0 < cap -> Z.abs (p - pos) < cap -> p <> pos ->
  cell_at q p c' -> cell_at (store_cell q (slot_of (pos mod cap)) c) p c'.
Proof.
  intros Hc Hd Hne. unfold cell_at; simpl. rewrite list_lookup_insert_ne; [done |].
  apply ring_slot_ne; lia.
Qed.

(** One period apart, two positions share their cell. *)
Lemma cell_at_period q p c : 0 < cap -> cell_at q (p - cap) c <-> cell_at q p c.
Proof.
  intros Hc. unfold cell_at. replace p with (p - cap + cap) at 2 by lia.
  by rewrite ring_slot_period.
Qed.

Lemma mpmc_ring_store_cell q a i c :
  mpmc_ring q a -> message_wf MaxPayloadSize (cell_message c) -> mpmc_ring (store_cell q i c) a.
Proof.
  intros [? ? ? Hl Hwf ? ? ?] Hc. split; simpl; try done.
  - by rewrite length_insert.
  - by apply Forall_insert.
Qed.

(** ** Ownership *)

Lemma owns_push_update (ts : list mpmc_pc) t l l' p :
  ts !! t = Some l -> (push_claim l = Some p -> push_claim l' = Some p) ->
  owns_push ts p -> owns_push (<[t := l']> ts) p.
Proof.
  intros Hl Hc (t0 & l0 & Hl0 & Hc0). destruct (decide (t0 = t)) as [-> | Hne].
  - simplify_eq. exists t, l'. split; [| by apply Hc].
    by eapply list_lookup_insert_eq, lookup_lt_Some.
  - exists t0, l0. split; [| done]. by rewrite list_lookup_insert_ne.
Qed.

Lemma owns_pop_update (ts : list mpmc_pc) t l l' p :
  ts !! t = Some l -> (pop_claim l = Some p -> pop_claim l' = Some p) ->
  owns_pop ts p -> owns_pop (<[t := l']> ts) p.
Proof.
  intros Hl Hc (t0 & l0 & Hl0 & Hc0). destruct (decide (t0 = t)) as [-> | Hne].
  - simplify_eq. exists t, l'. split; [| by apply Hc].
    by eapply list_lookup_insert_eq, lookup_lt_Some.
  - exists t0, l0. split; [| done]. by rewrite list_lookup_insert_ne.
Qed.

(** A claim function stays injective when one thread drops, keeps or takes a
    claim nobody else has. *)
Lemma unique_update (claim : mpmc_pc -> option Z) (ts : list mpmc_pc) t l l' :
  ts !! t = Some l ->
  (forall t1 t2 l1 l2 pos, ts !! t1 = Some l1 -> ts !! t2 = Some l2 ->
     claim l1 = Some pos -> claim l2 = Some pos -> t1 = t2) ->
  (forall pos, claim l' = Some pos -> claim l = Some pos \/
     forall t0 l0, t0 <> t -> ts !! t0 = Some l0 -> claim l0 <> Some pos) ->
  forall t1 t2 l1 l2 pos, <[t := l']> ts !! t1 = Some l1 -> <[t := l']> ts !! t2 = Some l2 ->
     claim l1 = Some pos -> claim l2 = Some pos -> t1 = t2.
Proof.
  intros Hl Hu Hn t1 t2 l1 l2 pos H1 H2 C1 C2.
  assert (Hlt := lookup_lt_Some _ _ _ Hl).
  destruct (decide (t1 = t)) as [-> | N1], (decide (t2 = t)) as [-> | N2]; [done | | |].
  - rewrite list_lookup_insert_eq in H1 by done. rewrite list_lookup_insert_ne in H2 by done.
    simplify_eq. destruct (Hn pos C1) as [Hc | Hc]; [by eapply Hu | by destruct (Hc t2 l2)].
  - rewrite list_lookup_insert_eq in H2 by done. rewrite list_lookup_insert_ne in H1 by done.
    simplify_eq. destruct (Hn pos C2) as [Hc | Hc]; [by eapply Hu | by destruct (Hc t1 l1)].
  - rewrite list_lookup_insert_ne in H1 by done. rewrite list_lookup_insert_ne in H2 by done.
    by eapply Hu.
Qed.

(** ** Preservation, by kind of step *)

(** Steps that touch no shared memory and keep the claims. *)
Lemma sim_local n q ts a cs t l l' st' :
  mpmc_sim n (mkPool q ts) (mkPool a cs) ->
  ts !! t = Some l -> push_claim l' = push_claim l -> pop_claim l' = pop_claim l ->
  mpmc_rel q a l' st' ->
  mpmc_sim (S n) (mkPool q (<[t := l']> ts)) (mkPool a (<[t := st']> cs)).
Proof.
  intros [Hr Hb Hw Hu1 Hu2 Ht] Hl Hpc Hqc Hrel. simpl in *. split; simpl; try done.
  - lia.
  - intros pos Hpos. destruct (Hw pos Hpos) as (c & Hc & Hok). exists c. split; [done |].
    destruct Hok as [Hok1 Hok2]. split; intros Hd.
    + destruct (Hok1 Hd) as [[? ?] | ?]; [left | by right]. split; [done |].
      eapply owns_push_update; [done | by rewrite Hpc | done].
    + destruct (Hok2 Hd) as [[? ?] | ?]; [left | by right]. split; [done |].
      eapply owns_pop_update; [done | by rewrite Hqc | done].
  - apply (unique_update push_claim _ _ l); [done.. |]. intros p. rewrite Hpc. auto.
  - apply (unique_update pop_claim _ _ l); [done.. |]. intros p. rewrite Hqc. auto.
  - by eapply threads_related_update.
Qed.

(** A thread that does not own position [pos] keeps its knowledge when the owner
    of [pos] changes the cell: the positions it knows about have other cells. *)
Lemma mpmc_rel_owner_store q a x y pos c c' :
  mpmc_ring q a ->
  let deq := pushed a - span_size (items a) in
  cell_at q pos c ->
  (cell_sequence c = pos /\ deq <= pos < pushed a) \/
  (cell_sequence c = pos + 1 /\ pushed a - cap <= pos < deq) ->
  ~ (push_claim x = Some pos \/ pop_claim x = Some pos) ->
  mpmc_rel q a x y -> mpmc_rel (store_cell q (slot_of (pos mod cap)) c') a x y.
Proof.
  intros Hr deq Hc Hown Hno HP. pose proof (ring_cap _ _ Hr) as Hcap.
  pose proof (ring_fifo _ _ Hr) as [Hfb Hfc _]. pose proof (span_size_nonneg (items a)) as Hnn.
  set (q' := store_cell _ _ _).
  assert (Hkeep : forall p c0, pushed a - cap <= p <= pushed a -> cell_at q p c0 ->
    p <> pos -> (p = pushed a -> cell_sequence c0 = p) -> cell_at q' p c0).
  { intros p c0 Hp Hc0 Hnp Hseq.
    destruct (decide (p = pushed a /\ pos = pushed a - cap)) as [[-> Heq] | Hne];
      [| apply cell_at_store_ne; (done || unfold deq in *; lia)].
    exfalso. rewrite Heq in Hc. apply (proj1 (cell_at_period _ _ _ ltac:(lia))) in Hc.
    rewrite (cell_at_fun _ _ _ _ Hc Hc0) in *. specialize (Hseq eq_refl).
    unfold deq in *; lia. }
  unfold deq in *; clear deq.
  destruct x, y as [| [] | []]; simpl in HP, Hno |- *; try done.
  - destruct HP as (? & ? & ? & HP). split_and!; try done; try lia. intros ->.
    destruct HP as (c0 & Hc0 & Hs0); [done |]. exists c0. split; [| done].
    apply Hkeep; (done || lia).
  - destruct HP as (? & ? & ? & ? & c0 & Hc0 & Hs0). split_and!; try done; try lia.
    exists c0. split; [| done]. apply Hkeep; try (done || lia). intros ->. apply Hno; auto.
  - destruct HP as (? & ? & ? & c0 & Hc0 & Hs0 & ?). split_and!; try done; try lia.
    exists c0. split; [| done]. apply Hkeep; try (done || lia). intros ->. apply Hno; auto.
  - destruct HP as (? & ? & HP). split_and!; try done; try lia. intros ->.
    destruct HP as (? & c0 & Hc0 & Hs0); [done |]. split; [done |]. exists c0. split; [| done].
    apply Hkeep; [lia | done | | lia]. intros <-.
    rewrite (cell_at_fun _ _ _ _ Hc Hc0) in *. lia.
  - destruct HP as (? & ? & ? & c0 & Hc0 & Hs0 & ?). split_and!; try done; try lia.
    exists c0. split; [| done]. apply Hkeep; try (done || lia). intros ->. apply Hno; auto.
  - destruct HP as (? & ? & ? & ? & ? & c0 & Hc0 & Hs0). split_and!; try done; try lia.
    exists c0. split; [| done]. apply Hkeep; try (done || lia). intros ->. apply Hno; auto.
Qed.

(** The owner of a position changes its cell: nobody else depends on it. *)
Lemma sim_owner_store n q ts a cs t l l' st' pos c c' :
  mpmc_sim n (mkPool q ts) (mkPool a cs) ->
  ts !! t = Some l ->
  let deq := pushed a - span_size (items a) in
  cell_at q pos c ->
  (push_claim l = Some pos /\ cell_sequence c = pos /\ deq <= pos < pushed a) \/
  (pop_claim l = Some pos /\ cell_sequence c = pos + 1 /\ pushed a - cap <= pos < deq) ->
  push_claim l' = None \/ push_claim l' = push_claim l ->
  pop_claim l' = None \/ pop_claim l' = pop_claim l ->
  message_wf MaxPayloadSize (cell_message c') ->
  let q' := store_cell q (slot_of (pos mod cap)) c' in
  position_ok a (<[t := l']> ts) pos c' -> mpmc_rel q' a l' st' ->
  mpmc_sim (S n) (mkPool q' (<[t := l']> ts)) (mkPool a (<[t := st']> cs)).
Proof.
  intros [Hr Hb Hw Hu1 Hu2 Ht] Hl deq Hc Hown Hpc Hqc Hwf q' Hok Hrel. simpl in *.
  pose proof (ring_cap _ _ Hr) as Hcap. pose proof (ring_fifo _ _ Hr) as [Hfb Hfc _].
  pose proof (span_size_nonneg (items a)) as Hnn.
  assert (Hcl : (push_claim l = Some pos /\ pop_claim l = None) \/
                (pop_claim l = Some pos /\ push_claim l = None))
    by (destruct Hown as [[E _] | [E _]]; [left | right]; (split; [done |]); by destruct l).
  assert (Hposw : pushed a - cap <= pos < pushed a) by (unfold deq in *; destruct Hown as [(_ & _ & ?) | (_ & _ & ?)]; lia).
  split; simpl; try done.
  - by apply mpmc_ring_store_cell.
  - lia.
  - intros p Hp. destruct (decide (p = pos)) as [-> | Hne].
    { exists c'. split; [by eapply cell_at_store_eq | done]. }
    destruct (Hw p Hp) as (c0 & Hc0 & Hok1 & Hok2). exists c0.
    split; [apply cell_at_store_ne; (done || lia) |]. split; intros Hd.
    + destruct (Hok1 Hd) as [[? ?] | ?]; [left | by right]. split; [done |].
      eapply owns_push_update; [done | | done]. intros E. destruct Hcl as [[] | []]; congruence.
    + destruct (Hok2 Hd) as [[? ?] | ?]; [left | by right]. split; [done |].
      eapply owns_pop_update; [done | | done]. intros E. destruct Hcl as [[] | []]; congruence.
  - apply (unique_update push_claim _ _ l); [done.. |]. intros p Hp'. destruct Hpc; left; congruence.
  - apply (unique_update pop_claim _ _ l); [done.. |]. intros p Hp'. destruct Hqc; left; congruence.
  - eapply threads_related_update; [done | | done]. intros t' x y Hne Hx Hy HP.
    apply (mpmc_rel_owner_store q a x y pos c c'); [done | done | | | done].
    + destruct Hown as [(? & ? & ?) | (? & ? & ?)]; [left | right]; done.
    + intros [E | E]; apply Hne; destruct Hown as [(Hpos & _ & Hrg) | (Hpos & _ & Hrg)].
      * by eapply Hu1.
      * exfalso. destruct x, y as [| | []]; simplify_eq/=; unfold deq in *; lia.
      * exfalso. destruct x, y as [| | []]; simplify_eq/=; unfold deq in *; lia.
      * by eapply Hu2.
Qed.

(** The cell the next producer needs is free: the queue has room, and no
    consumer still works on that cell. *)
Lemma free_cell_room n q ts a cs c :
  mpmc_sim n (mkPool q ts) (mkPool a cs) -> cell_at q (pushed a) c -> cell_sequence c = pushed a ->
  span_size (items a) < cap.
Proof.
  intros [Hr _ Hw _ _ _] Hc Hs. simpl in *. pose proof (ring_cap _ _ Hr).
  pose proof (ring_fifo _ _ Hr) as [Hfb _ _].
  destruct (Hw (pushed a - cap)) as (c0 & Hc0 & Hok & _); [lia |].
  apply (proj1 (cell_at_period _ _ _ ltac:(lia))) in Hc0.
  rewrite (cell_at_fun _ _ _ _ Hc0 Hc) in Hok.
  destruct (Z.eq_dec (span_size (items a)) cap) as [E |]; [| lia].
  destruct Hok as [[? _] | [? _]]; lia.
Qed.

(** Taking the next enqueue ticket disturbs no other thread. *)
Lemma mpmc_rel_take_push q a x y c v msg :
  mpmc_ring q a -> cell_at q (pushed a) c -> cell_sequence c = pushed a ->
  mpmc_rel q a x y ->
  mpmc_rel (store_enqueue q v) (mkFifo (pushed a + 1) (items a ++ [msg])) x y.
Proof.
  intros Hr Hc Hs HP. pose proof (ring_cap _ _ Hr) as Hcap.
  pose proof (span_size_nonneg (items a)) as Hnn.
  assert (Hsz : span_size (items a ++ [msg]) = span_size (items a) + 1)
    by (unfold span_size; rewrite length_app; simpl; lia).
  assert (Hold : forall pos c0, cell_at q pos c0 -> cell_sequence c0 = pos + 1 -> pos <> pushed a - cap).
  { intros pos c0 Hc0 Hs0 ->. apply (proj1 (cell_at_period _ _ _ ltac:(lia))) in Hc0.
    rewrite (cell_at_fun _ _ _ _ Hc0 Hc) in Hs0. lia. }
  destruct x, y as [| [] | []]; simpl in HP |- *; try done; rewrite ?Hsz;
    replace (pushed a + 1 - (span_size (items a) + 1)) with (pushed a - span_size (items a)) by lia.
  - destruct HP as (? & ? & ?). split_and!; (done || lia).
  - destruct HP as (? & ? & ? & HP). split_and!; (done || lia).
  - destruct HP as (? & ? & ? & Hi & HP). split_and!; try (done || lia).
    by apply lookup_app_l_Some.
  - destruct HP as (? & ? & ? & c0 & Hc0 & Hs0 & Hi). split_and!; try (done || lia).
    exists c0. split_and!; [done.. |]. by apply lookup_app_l_Some.
  - destruct HP as (? & ? & HP). split_and!; (done || lia).
  - destruct HP as (? & ? & HP). split_and!; try (done || lia). intros E.
    destruct (HP E) as (? & HP'). split; [lia | done].
  - destruct HP as (? & ? & ? & c0 & Hc0 & Hs0 & ?). pose proof (Hold _ _ Hc0 Hs0).
    split_and!; try (done || lia). by exists c0.
  - destruct HP as (? & ? & ? & ? & ? & c0 & Hc0 & Hs0). pose proof (Hold _ _ Hc0 Hs0).
    split_and!; try (done || lia). by exists c0.
Qed.

Lemma sim_take_push n q ts a cs t pl :
  mpmc_sim n (mkPool q ts) (mkPool a cs) -> Z.of_nat (S n) + cap < u64_modulus ->
  ts !! t = Some (PushCas pl (pushed a)) -> cs !! t = Some (Called (TryPush pl)) ->
  let a' := mkFifo (pushed a + 1) (items a ++ [(pushed a + 1, pl)]) in
  let r := mkWrite success (pushed a + 1) in
  fifo_push MaxPayloadSize cap a pl = (r, a') /\
  mpmc_sim (S n) (mkPool (store_enqueue q (pushed a +u 1)) (<[t := PushAssign pl (pushed a)]> ts))
    (mkPool a' (<[t := Finished (Pushed r)]> cs)).
Proof.
  intros Hsim Hbd Hl Hst a' r. pose proof Hsim as [Hr Hb Hw Hu1 Hu2 Ht]. simpl in *.
  pose proof (ring_cap _ _ Hr) as Hcap. pose proof (span_size_nonneg (items a)) as Hnn.
  pose proof (ring_fifo _ _ Hr) as Hwf. pose proof Hwf as [Hfb Hfc _].
  destruct (proj2 Ht t _ _ Hl Hst) as (_ & Hfit & _ & (c & Hc & Hs)); [done |].
  pose proof (free_cell_room _ _ _ _ _ _ Hsim Hc Hs) as Hroom.
  assert (Hpush : fifo_push MaxPayloadSize cap a pl = (r, a')).
  { unfold fifo_push. rewrite (proj2 (Z.ltb_ge _ _)) by lia.
    rewrite (proj2 (Z.eqb_neq _ _)) by lia. by rewrite u64_small by lia. }
  split; [done |]. rewrite u64_small by lia.
  assert (Hwf' : fifo_wf MaxPayloadSize cap a')
    by (eapply (fifo_spec_wf _ _ true); [exact Hwf | by apply fifo_spec_push]).
  assert (Hsz : span_size (items a') = span_size (items a) + 1)
    by (unfold span_size; simpl; rewrite length_app; simpl; lia).
  assert (Hdeq : pushed a' - span_size (items a') = pushed a - span_size (items a)) by (simpl in *; lia).
  split; simpl.
  - destruct Hr. split; simpl in *; try done. lia.
  - lia.
  - intros pos Hpos. destruct (decide (pos = pushed a)) as [-> | Hne].
    + exists c. split; [done |]. unfold position_ok. rewrite Hdeq.
      split; intros Hd; [left | lia]. split; [done |].
      exists t, (PushAssign pl (pushed a)). split; [| done].
      by eapply list_lookup_insert_eq, lookup_lt_Some.
    + destruct (Hw pos) as (c0 & Hc0 & Hok1 & Hok2); [lia |]. exists c0. split; [done |].
      unfold position_ok. rewrite Hdeq. split; intros Hd.
      * destruct (Hok1 Hd) as [[? ?] | [? Hi]]; [left | right].
        -- split; [done |]. by eapply owns_push_update.
        -- split; [done |]. by apply lookup_app_l_Some.
      * destruct (Hok2 Hd) as [[? ?] | ?]; [left | by right]. split; [done |].
        by eapply owns_pop_update.
  - eapply (unique_update push_claim); [exact Hl | done |]. intros pos [= <-]. right.
    intros t0 l0 Hne0 Hl0 Hcl.
    destruct (threads_related_lookup _ _ _ _ _ Ht Hl0) as (y & Hy & HP).
    destruct l0, y as [| | []]; simplify_eq/=; lia.
  - by eapply (unique_update pop_claim).
  - eapply threads_related_update; [exact Ht | |].
    + intros t' x y _ _ _. by eapply mpmc_rel_take_push.
    + simpl in Hsz |- *. rewrite Hsz. split_and!; try (done || lia).
      * replace (pushed a + 1 - (span_size (items a) + 1)) with (pushed a - span_size (items a)) by lia.
        rewrite lookup_app_r by (unfold span_size; lia).
        by replace (_ - length (items a))%nat with 0%nat by (unfold span_size; lia).
      * by exists c.
Qed.

(** Taking the next dequeue ticket disturbs no other thread. *)
Lemma mpmc_rel_take_pop q a x y c v msg rest :
  let deq := pushed a - span_size (items a) in
  items a = msg :: rest -> cell_at q deq c -> cell_sequence c = deq + 1 ->
  mpmc_rel q a x y -> mpmc_rel (store_dequeue q v) (mkFifo (pushed a) rest) x y.
Proof.
  intros deq Hi Hc Hs HP.
  assert (Hsz : span_size (items a) = span_size rest + 1) by (rewrite Hi; unfold span_size; simpl; lia).
  assert (Hold : forall pos c0, cell_at q pos c0 -> cell_sequence c0 = pos -> pos <> deq).
  { intros pos c0 Hc0 Hs0 ->. rewrite (cell_at_fun _ _ _ _ Hc0 Hc) in Hs0. lia. }
  assert (Hshift : forall pos m, deq < pos -> items a !! Z.to_nat (pos - deq) = Some m ->
            rest !! Z.to_nat (pos - (pushed a - span_size rest)) = Some m).
  { intros pos m Hpos. rewrite Hi. unfold deq in *.
    replace (Z.to_nat (pos - (pushed a - span_size (items a))))
      with (S (Z.to_nat (pos - (pushed a - span_size rest)))) by lia. done. }
  unfold deq in *. clear deq.
  destruct x, y as [| [] | []]; simpl in HP |- *; try done.
  - destruct HP as (? & ? & ? & Hit & c0 & Hc0 & Hs0). pose proof (Hold _ _ Hc0 Hs0).
    split_and!; try (done || lia); [| by exists c0]. apply Hshift; [lia | done].
  - destruct HP as (? & ? & ? & c0 & Hc0 & Hs0 & Hit). pose proof (Hold _ _ Hc0 Hs0).
    split_and!; try (done || lia). exists c0. split_and!; [done.. |]. apply Hshift; [lia | done].
  - destruct HP as (? & ? & ?). split_and!; (done || lia).
  - destruct HP as (? & ? & HP). split_and!; (done || lia).
  - destruct HP as (? & ? & ? & c0 & Hc0 & Hs0 & ?). split_and!; try (done || lia). by exists c0.
  - destruct HP as (? & ? & ? & ? & ? & c0 & Hc0 & Hs0). split_and!; try (done || lia). by exists c0.
Qed.

Lemma sim_take_pop n q ts a cs t d :
  mpmc_sim n (mkPool q ts) (mkPool a cs) -> Z.of_nat (S n) + cap < u64_modulus ->
  let deq := pushed a - span_size (items a) in
  ts !! t = Some (PopCas d deq) -> cs !! t = Some (Called (TryPop d)) ->
  exists msg rest r d', items a = msg :: rest /\ deliver msg d = (r, d') /\
    mpmc_sim (S n) (mkPool (store_dequeue q (deq +u 1)) (<[t := PopCopy d deq]> ts))
      (mkPool (mkFifo (pushed a) rest) (<[t := Finished (Popped r d')]> cs)).
Proof.
  intros Hsim Hbd deq Hl Hst. pose proof Hsim as [Hr Hb Hw Hu1 Hu2 Ht]. simpl in *.
  pose proof (ring_cap _ _ Hr) as Hcap. pose proof (span_size_nonneg (items a)) as Hnn.
  pose proof (ring_fifo _ _ Hr) as Hwf. pose proof Hwf as [Hfb Hfc _].
  destruct (proj2 Ht t _ _ Hl Hst) as (_ & Hpos & Hcas). destruct Hcas as (Hlt & c & Hc & Hs); [done |].
  destruct (Hw deq) as (c0 & Hc0 & Hok & _); [unfold deq in *; lia |].
  rewrite (cell_at_fun _ _ _ _ Hc0 Hc) in Hok. unfold deq in Hok.
  destruct Hok as [[? _] | [_ Hfront]]; [lia | unfold deq in *; lia |].
  replace (Z.to_nat _) with 0%nat in Hfront by lia.
  destruct (items a) as [| msg rest] eqn:Hi; [done |]. injection Hfront as Hmsg.
  destruct (deliver msg d) as [r d'] eqn:Hd. exists msg, rest, r, d'. split_and!; [done.. |].
  assert (Hsz : span_size (msg :: rest) = span_size rest + 1) by (unfold span_size; simpl; lia).
  assert (Hwf' : fifo_wf MaxPayloadSize cap (mkFifo (pushed a) rest)).
  { eapply (fifo_spec_wf _ _ true); [exact Hwf |].
    apply (fifo_spec_pop _ _ _ a d r d'). unfold fifo_pop. by rewrite Hi, Hd, orb_true_r. }
  assert (Hdeq : pushed a - span_size rest = deq + 1) by (unfold deq; rewrite Hsz; lia).
  rewrite u64_small by (unfold deq in *; lia).
  split; simpl.
  - destruct Hr. split; simpl in *; done.
  - lia.
  - intros pos Hp. destruct (Hw pos Hp) as (c1 & Hc1 & Hok1 & Hok2). exists c1. split; [done |].
    unfold position_ok; simpl. rewrite Hdeq. rewrite Hi in Hok1, Hok2. fold deq in Hok1, Hok2.
    split; intros Hd'.
    + destruct Hok1 as [[? ?] | [? Hit]]; [lia | left | right]; (split; [done |]).
      * by eapply owns_push_update.
      * rewrite <- Hit. replace (Z.to_nat (pos - deq)) with (S (Z.to_nat (pos - (deq + 1)))) by lia. done.
    + destruct (decide (pos = deq)) as [-> | Hne].
      * left. rewrite (cell_at_fun _ _ _ _ Hc1 Hc). split; [done |].
        exists t, (PopCopy d deq). split; [| done]. by eapply list_lookup_insert_eq, lookup_lt_Some.
      * destruct Hok2 as [[? ?] | ?]; [lia | left | by right]. split; [done |].
        by eapply owns_pop_update.
  - by eapply (unique_update push_claim).
  - eapply (unique_update pop_claim); [exact Hl | done |]. intros pos [= <-]. right.
    intros t0 l0 Hne0 Hl0 Hcl.
    destruct (threads_related_lookup _ _ _ _ _ Ht Hl0) as (y & Hy & HP).
    destruct l0, y as [| | []]; simplify_eq/=; rewrite Hi in HP; unfold deq in *; lia.
  - eapply threads_related_update; [exact Ht | |].
    + intros t' x y _ _ _. eapply (mpmc_rel_take_pop _ _ _ _ c _ msg); rewrite Hi; done.
    + simpl. rewrite Hdeq. split_and!; try (unfold deq in *; done || lia).
      * by eapply deliver_not_empty.
      * exists c. split_and!; [done.. |]. by rewrite <- Hmsg.
Qed.

(** ** What the sequence of a cell tells a thread that reads it *)

Lemma cell_at_mod q p p' c : p' mod cap = p mod cap -> cell_at q p' c -> cell_at q p c.
Proof. unfold cell_at. by intros ->. Qed.

(** A producer that finds a sequence below its position stands at the current
    enqueue position, and the queue is full or a consumer still holds the cell. *)
Lemma full_justified n q ts a cs pos c :
  mpmc_sim n (mkPool q ts) (mkPool a cs) -> pos <= pushed a ->
  cell_at q pos c -> cell_sequence c < pos ->
  pos = pushed a /\ (span_size (items a) = cap \/ owns_pop ts (pushed a - cap)).
Proof.
  intros [Hr _ Hw _ _ _] Hpos Hc Hs. simpl in *. pose proof (ring_cap _ _ Hr) as Hcap.
  pose proof (ring_fifo _ _ Hr) as [Hfb _ _].
  destruct (decide (pos = pushed a)) as [-> | Hne].
  - split; [done |]. destruct (Hw (pushed a - cap)) as (c0 & Hc0 & _ & Hok2); [lia |].
    apply (proj1 (cell_at_period _ _ _ ltac:(lia))) in Hc0.
    rewrite (cell_at_fun _ _ _ _ Hc0 Hc) in Hok2.
    destruct (Z.eq_dec (span_size (items a)) cap) as [E |]; [by left | right].
    destruct Hok2 as [[_ ?] | ?]; [lia | done | lia].
  - exfalso. destruct (ring_representative cap pos (pushed a)) as (p' & Hp' & Hle & _ & Hmod); [lia.. |].
    destruct (Hw p' Hp') as (c0 & Hc0 & Hok1 & Hok2). apply (cell_at_mod _ pos) in Hc0; [| done].
    rewrite (cell_at_fun _ _ _ _ Hc0 Hc) in Hok1, Hok2.
    destruct (Z.le_gt_cases (pushed a - span_size (items a)) p') as [Hd | Hd].
    + destruct (Hok1 Hd) as [[? _] | [? _]]; lia.
    + destruct (Hok2 Hd) as [[? _] | ?]; lia.
Qed.

(** A consumer that finds a sequence at most its position stands at the current
    dequeue position, and the queue is empty or its oldest message is claimed and
    not yet published. *)
Lemma empty_justified n q ts a cs pos c :
  let deq := pushed a - span_size (items a) in
  mpmc_sim n (mkPool q ts) (mkPool a cs) -> pos <= deq ->
  cell_at q pos c -> cell_sequence c < pos + 1 ->
  pos = deq /\ (items a = [] \/ owns_push ts deq).
Proof.
  intros deq [Hr _ Hw _ _ _] Hpos Hc Hs. simpl in *. pose proof (ring_cap _ _ Hr) as Hcap.
  pose proof (ring_fifo _ _ Hr) as [Hfb _ _]. pose proof (span_size_nonneg (items a)) as Hnn.
  destruct (decide (span_size (items a) = 0 /\ pos = deq)) as [[E ->] | Hne].
  { split; [done | left]. apply nil_length_inv. unfold span_size in E. lia. }
  destruct (ring_representative cap pos (pushed a)) as (p' & Hp' & Hle & Hor & Hmod);
    [lia | unfold deq in *; lia |].
  destruct (Hw p' Hp') as (c0 & Hc0 & Hok1 & Hok2). apply (cell_at_mod _ pos) in Hc0; [| done].
  rewrite (cell_at_fun _ _ _ _ Hc0 Hc) in Hok1, Hok2.
  destruct (Z.le_gt_cases deq p') as [Hd | Hd].
  - destruct (Hok1 Hd) as [[? Ho] | [? _]]; [| lia].
    assert (p' = pos) as -> by lia. assert (pos = deq) as -> by lia. by split; [| right].
  - exfalso. destruct (Hok2 Hd) as [[? _] | ?]; lia.
Qed.

(** At the dequeue position of an empty queue no cell looks published. *)
Lemma published_nonempty n q ts a cs c :
  let deq := pushed a - span_size (items a) in
  mpmc_sim n (mkPool q ts) (mkPool a cs) ->
  cell_at q deq c -> cell_sequence c = deq + 1 -> deq < pushed a.
Proof.
  intros deq [Hr _ Hw _ _ _] Hc Hs. simpl in *. pose proof (ring_cap _ _ Hr) as Hcap.
  pose proof (span_size_nonneg (items a)) as Hnn.
  destruct (Z.eq_dec (span_size (items a)) 0) as [E |]; [| unfold deq; lia]. exfalso.
  unfold deq in *. rewrite E, Z.sub_0_r in *.
  destruct (Hw (pushed a - cap)) as (c0 & Hc0 & _ & Hok2); [lia |].
  apply (proj1 (cell_at_period _ _ _ ltac:(lia))) in Hc0.
  rewrite (cell_at_fun _ _ _ _ Hc0 Hc), E, Z.sub_0_r in Hok2.
  destruct Hok2 as [[? _] | ?]; lia.
Qed.

(** The thread that owns a position, seen from the specification. *)
Lemma owns_pop_finished n q ts a cs p :
  mpmc_sim n (mkPool q ts) (mkPool a cs) -> owns_pop ts p ->
  exists t r d, cs !! t = Some (Finished (Popped r d)) /\ r_status r <> empty.
Proof.
  intros [_ _ _ _ _ Ht] (t & l & Hl & Hc). simpl in *.
  destruct (threads_related_lookup _ _ _ _ _ Ht Hl) as (y & Hy & HP).
  destruct l, y as [| | []]; simplify_eq/=; try done; exists t; eauto.
  - destruct HP as (_ & _ & ? & _). eauto.
  - destruct HP as (-> & -> & _ & _ & ? & _). eauto.
Qed.

Lemma owns_push_finished n q ts a cs p :
  mpmc_sim n (mkPool q ts) (mkPool a cs) -> owns_push ts p ->
  exists t r, cs !! t = Some (Finished (Pushed r)) /\ w_status r = success.
Proof.
  intros [_ _ _ _ _ Ht] (t & l & Hl & Hc). simpl in *.
  destruct (threads_related_lookup _ _ _ _ _ Ht Hl) as (y & Hy & HP).
  destruct l, y as [| | []]; simplify_eq/=; try done; exists t.
  - destruct HP as (_ & _ & -> & _). eauto.
  - destruct HP as (_ & _ & ? & _). eauto.
Qed.

(** ** The simulation *)

Definition simulated (n : nat) (q : MPMCQueue) (ts : list mpmc_pc) (a : fifo)
    (cs : list (status QueueOp QueueRes)) : Prop :=
  exists c', match_step (canon_step (mpmc_spec cap)) (mkPool a cs) None c' /\
             mpmc_sim (S n) (mkPool q ts) c'.

(** The invariant survives a step at which nothing takes effect. *)
Definition keeps (n : nat) (q : MPMCQueue) (ts : list mpmc_pc) (a : fifo)
    (cs : list (status QueueOp QueueRes)) : Prop := mpmc_sim (S n) (mkPool q ts) (mkPool a cs).

Lemma keeps_stay n q ts a cs t st :
  cs !! t = Some st -> mpmc_sim (S n) (mkPool q ts) (mkPool a (<[t := st]> cs)) -> keeps n q ts a cs.
Proof. intros Hst Hs. by rewrite list_insert_id in Hs. Qed.

Lemma keeps_simulated n q ts a cs : keeps n q ts a cs -> simulated n q ts a cs.
Proof. intros Hs. eexists. split; [apply match_stutter | done]. Qed.

Lemma simulated_lin n q ts a cs t o r a' :
  cs !! t = Some (Called o) -> mpmc_spec cap cs a o r a' ->
  mpmc_sim (S n) (mkPool q ts) (mkPool a' (<[t := Finished r]> cs)) ->
  simulated n q ts a cs.
Proof. intros Hst Hs Hsim. eexists. split; [by eapply match_one, canon_lin | done]. Qed.

Section step.

Context (n : nat) (q : MPMCQueue) (ts : list mpmc_pc) (a : fifo) (cs : list (status QueueOp QueueRes)).
Context (t : nat).
Hypothesis Hsim : mpmc_sim n (mkPool q ts) (mkPool a cs).
Hypothesis Hbound : Z.of_nat (S n) + cap < u64_modulus.

Lemma step_ring : mpmc_ring q a.
Proof. apply (sim_ring _ _ _ Hsim). Qed.

Lemma step_rel l : ts !! t = Some l -> exists st, cs !! t = Some st /\ mpmc_rel q a l st.
Proof. apply (threads_related_lookup _ _ _ _ _ (sim_threads _ _ _ Hsim)). Qed.

Lemma step_counters :
  2 <= cap /\ 0 <= pushed a - span_size (items a) /\ 0 <= span_size (items a) <= cap /\
  0 <= pushed a <= Z.of_nat n.
Proof.
  pose proof (ring_cap _ _ step_ring). pose proof (ring_fifo _ _ step_ring) as [Hfb Hfc _].
  pose proof (span_size_nonneg (items a)). pose proof (sim_bound _ _ _ Hsim). simpl in *. lia.
Qed.

Lemma step_cell p : exists c, cells_ q !! cell_index q p = Some c /\ cell_at q p c /\
  message_wf MaxPayloadSize (cell_message c).
Proof.
  destruct (ring_cell_exists q a p step_ring) as (c & Hc & Hwf).
  exists c. split_and!; [| done..]. by rewrite (ring_cell_index q a p step_ring).
Qed.

(** A purely local step. *)
Lemma step_local l l' st :
  ts !! t = Some l -> cs !! t = Some st -> push_claim l' = push_claim l -> pop_claim l' = pop_claim l -> mpmc_rel q a l' st ->
  keeps n q (<[t := l']> ts) a cs.
Proof. intros. eapply keeps_stay; [done |]. by eapply sim_local. Qed.

(** A step at which a claim-free operation takes effect without changing the FIFO. *)
Lemma step_refuse l l' o r :
  ts !! t = Some l -> cs !! t = Some (Called o) -> push_claim l' = push_claim l -> pop_claim l' = pop_claim l ->
  mpmc_spec cap cs a o r a -> mpmc_rel q a l' (Finished r) ->
  simulated n q (<[t := l']> ts) a cs.
Proof.
  intros Hl Hst Hp Hq Hspec Hrel. eapply simulated_lin; [exact Hst | exact Hspec |].
  by eapply sim_local.
Qed.

Lemma push_load_sim pl pos q' l' :
  ts !! t = Some (PushLoadCell pl pos) -> (q', l') ∈ mpmc_tstep q (PushLoadCell pl pos) -> simulated n q' (<[t := l']> ts) a cs.
Proof.
  intros Hl Hs. destruct (step_rel _ Hl) as ([| [pl' | |] |] & Hst & HP); try done.
  destruct HP as (<- & Hfit & Hpos).
  destruct (step_cell pos) as (c & Hc & Hca & _). cbn in Hs. rewrite Hc in Hs.
  case_tests_in Hs; inv_outcome Hs.
  - eapply keeps_simulated, step_local; [done.. |]. simpl. split_and!; try (done || lia); eauto.
  - destruct (full_justified _ _ _ _ _ _ _ Hsim (proj2 Hpos) Hca) as (-> & Hor); [lia |].
    eapply (step_refuse _ _ _ (Pushed (mkWrite full 0))); [done.. | | done].
    destruct Hor as [Hfull | Hown].
    + apply mpmc_spec_fifo, fifo_spec_push. unfold fifo_push.
      rewrite (proj2 (Z.ltb_ge _ _)) by lia. by rewrite (proj2 (Z.eqb_eq _ _)).
    + destruct (owns_pop_finished _ _ _ _ _ _ Hsim Hown) as (t' & r & d & Hfin & Hne).
      by eapply mpmc_spec_full.
  - eapply keeps_simulated, step_local; [done.. |]. done.
Qed.

Lemma pop_load_sim d pos q' l' :
  ts !! t = Some (PopLoadCell d pos) -> (q', l') ∈ mpmc_tstep q (PopLoadCell d pos) -> simulated n q' (<[t := l']> ts) a cs.
Proof.
  intros Hl Hs. pose proof step_counters as Hcnt.
  destruct (step_rel _ Hl) as ([| [| d' |] |] & Hst & HP); try done. destruct HP as (<- & Hpos).
  destruct (step_cell pos) as (c & Hc & Hca & _). cbn in Hs.
  rewrite Hc, u64_small in Hs by lia. case_tests_in Hs; inv_outcome Hs.
  - eapply keeps_simulated, step_local; [done.. |]. simpl. split_and!; try (done || lia). intros ->.
    split; [| by eauto]. by eapply published_nonempty.
  - destruct (empty_justified _ _ _ _ _ _ _ Hsim (proj2 Hpos) Hca) as (-> & Hor); [lia |].
    eapply (step_refuse _ _ _ (Popped (mkRead empty 0 0) d)); [done.. | | done].
    destruct Hor as [He | Hown].
    + apply mpmc_spec_fifo, fifo_spec_pop. unfold fifo_pop. by rewrite He.
    + destruct (owns_push_finished _ _ _ _ _ _ Hsim Hown) as (t' & r & Hfin & Hok).
      by eapply mpmc_spec_empty.
  - eapply keeps_simulated, step_local; [done.. |]. done.
Qed.

Lemma push_claim_sim pl pos q' l' :
  ts !! t = Some (PushCas pl pos) -> (q', l') ∈ mpmc_tstep q (PushCas pl pos) ->
  simulated n q' (<[t := l']> ts) a cs.
Proof.
  intros Hl Hs. pose proof step_counters as Hcnt.
  destruct (step_rel _ Hl) as ([| [pl' | |] |] & Hst & HP); try done.
  pose proof HP as (<- & Hfit & Hpos & _). cbn in Hs. rewrite (ring_enqueue _ _ step_ring) in Hs.
  assert (Hretry : simulated n q (<[t := PushLoadCell pl (pushed a)]> ts) a cs).
  { eapply keeps_simulated, step_local; [done.. |]. simpl. split_and!; (done || lia). }
  case_tests_in Hs; [| by inv_outcome Hs].
  apply elem_of_cons in Hs as [[= -> ->] | Hs]; [| by inv_outcome Hs]. subst pos.
  destruct (sim_take_push _ _ _ _ _ _ _ Hsim Hbound Hl Hst) as [Hpush Hsim'].
  eapply simulated_lin; [exact Hst | | exact Hsim']. by apply mpmc_spec_fifo, fifo_spec_push.
Qed.

Lemma pop_claim_sim d pos q' l' :
  ts !! t = Some (PopCas d pos) -> (q', l') ∈ mpmc_tstep q (PopCas d pos) ->
  simulated n q' (<[t := l']> ts) a cs.
Proof.
  intros Hl Hs. pose proof step_counters as Hcnt.
  destruct (step_rel _ Hl) as ([| [| d' |] |] & Hst & HP); try done.
  pose proof HP as (<- & Hpos & _). cbn in Hs. rewrite (ring_dequeue _ _ step_ring) in Hs.
  assert (Hretry : simulated n q (<[t := PopLoadCell d (pushed a - span_size (items a))]> ts) a cs).
  { eapply keeps_simulated, step_local; [done.. |]. simpl. split_and!; (done || lia). }
  case_tests_in Hs; [| by inv_outcome Hs].
  apply elem_of_cons in Hs as [[= -> ->] | Hs]; [| by inv_outcome Hs]. subst pos.
  destruct (sim_take_pop _ _ _ _ _ _ _ Hsim Hbound Hl Hst) as (msg & rest & r & d' & Hi & Hd & Hsim').
  eapply simulated_lin; [exact Hst | | exact Hsim']. apply mpmc_spec_fifo, fifo_spec_pop.
  unfold fifo_pop. by rewrite Hi, Hd, orb_true_r.
Qed.

Lemma push_assign_sim pl pos q' l' :
  ts !! t = Some (PushAssign pl pos) -> (q', l') ∈ mpmc_tstep q (PushAssign pl pos) ->
  keeps n q' (<[t := l']> ts) a cs.
Proof.
  intros Hl Hs. pose proof step_counters as Hcnt.
  destruct (step_rel _ Hl) as ([| | [r | |]] & Hst & HP); try done.
  destruct HP as (Hfit & Hpos & -> & Hit & c0 & Hc0 & Hs0).
  destruct (step_cell pos) as (c & Hc & Hca & Hwf). rewrite (cell_at_fun _ _ _ _ Hc0 Hca) in Hs0.
  cbn in Hs. rewrite Hc, u64_small in Hs by lia.
  pose proof (assign_message_of MaxPayloadSize (cell_message c) pl (pos + 1) Hfit) as Hmsg.
  pose proof (assign_wf MaxPayloadSize (cell_message c) pl (pos + 1) Hwf) as Hwf'.
  rewrite assign_fits in Hs, Hmsg, Hwf' by done. inv_outcome Hs.
  rewrite (ring_cell_index _ _ pos step_ring).
  eapply keeps_stay; [exact Hst |]. eapply (sim_owner_store _ _ _ _ _ _ _ _ _ _ c); try done.
  - left. split_and!; (done || lia).
  - by right.
  - by right.
  - split; intros Hd; [left | lia]. split; [done |].
    eexists t, _. split; [by eapply list_lookup_insert_eq, lookup_lt_Some | done].
  - simpl. split_and!; try (done || lia). eexists.
    split; [by eapply cell_at_store_eq, step_ring |]. split; [done |]. by rewrite Hit, <- Hmsg.
Qed.

Lemma push_publish_sim r pos q' l' :
  ts !! t = Some (PushPublish r pos) -> (q', l') ∈ mpmc_tstep q (PushPublish r pos) ->
  keeps n q' (<[t := l']> ts) a cs.
Proof.
  intros Hl Hs. pose proof step_counters as Hcnt.
  destruct (step_rel _ Hl) as ([| | [r' | |]] & Hst & HP); try done.
  destruct HP as (Hpos & <- & Hok & c0 & Hc0 & Hs0 & Hit).
  destruct (step_cell pos) as (c & Hc & Hca & Hwf). rewrite (cell_at_fun _ _ _ _ Hc0 Hca) in Hs0, Hit.
  cbn in Hs. rewrite Hc, u64_small in Hs by lia. inv_outcome Hs.
  rewrite (ring_cell_index _ _ pos step_ring).
  eapply keeps_stay; [exact Hst |]. eapply (sim_owner_store _ _ _ _ _ _ _ _ _ _ c); try done.
  - left. split_and!; (done || lia).
  - by left.
  - by left.
  - split; intros Hd; [right | lia]. by split.
Qed.

Lemma pop_copy_sim d pos q' l' :
  ts !! t = Some (PopCopy d pos) -> (q', l') ∈ mpmc_tstep q (PopCopy d pos) ->
  keeps n q' (<[t := l']> ts) a cs.
Proof.
  intros Hl Hs. destruct (step_rel _ Hl) as ([| | [| r d' |]] & Hst & HP); try done.
  destruct HP as (Hpos & Hnn & Hne & c0 & Hc0 & Hs0 & Hd).
  destruct (step_cell pos) as (c & Hc & Hca & Hwf). rewrite (cell_at_fun _ _ _ _ Hc0 Hca) in Hs0, Hd.
  cbn in Hs. rewrite Hc, (copy_to_deliver _ _ _ Hwf), Hd in Hs. inv_outcome Hs.
  eapply step_local; [done.. |]. simpl. split_and!; try (done || lia). eauto.
Qed.

Lemma pop_release_sim r d pos q' l' :
  ts !! t = Some (PopRelease r d pos) -> (q', l') ∈ mpmc_tstep q (PopRelease r d pos) ->
  keeps n q' (<[t := l']> ts) a cs.
Proof.
  intros Hl Hs. pose proof step_counters as Hcnt.
  destruct (step_rel _ Hl) as ([| | [| r' d' |]] & Hst & HP); try done.
  destruct HP as (<- & <- & Hpos & Hnn & Hne & c0 & Hc0 & Hs0).
  destruct (step_cell pos) as (c & Hc & Hca & Hwf). rewrite (cell_at_fun _ _ _ _ Hc0 Hca) in Hs0.
  cbn in Hs. rewrite Hc, (ring_capacity _ _ step_ring), u64_small in Hs by lia. inv_outcome Hs.
  rewrite (ring_cell_index _ _ pos step_ring).
  eapply keeps_stay; [exact Hst |]. eapply (sim_owner_store _ _ _ _ _ _ _ _ _ _ c); try done.
  - right. split_and!; (done || lia).
  - by left.
  - by left.
  - split; intros Hd; [lia | by right].
Qed.

Lemma mpmc_tau_sim l q' l' :
  ts !! t = Some l -> (q', l') ∈ mpmc_tstep q l -> simulated n q' (<[t := l']> ts) a cs.
Proof.
  intros Hl Hs. pose proof step_counters as Hcnt. pose proof step_ring as Hr.
  destruct l; try by apply not_elem_of_nil in Hs.
  - destruct (step_rel _ Hl) as ([| [pl' | |] |] & Hst & HP); try done. simpl in HP; subst pl'.
    cbn in Hs. rewrite (ring_enqueue _ _ Hr) in Hs. case_tests_in Hs; inv_outcome Hs.
    + eapply (step_refuse _ _ _ (Pushed (mkWrite message_too_large 0))); [done.. | | done].
      apply mpmc_spec_fifo, fifo_spec_push. unfold fifo_push. by rewrite (proj2 (Z.ltb_lt _ _)).
    + eapply keeps_simulated, step_local; [done.. |]. simpl. split_and!; (done || lia).
  - by eapply push_load_sim.
  - by eapply push_claim_sim.
  - destruct (step_rel _ Hl) as ([| [pl' | |] |] & Hst & HP); try done. destruct HP as (<- & Hfit).
    cbn in Hs. rewrite (ring_enqueue _ _ Hr) in Hs. inv_outcome Hs.
    eapply keeps_simulated, step_local; [done.. |]. simpl. split_and!; (done || lia).
  - by eapply keeps_simulated, push_assign_sim.
  - by eapply keeps_simulated, push_publish_sim.
  - destruct (step_rel _ Hl) as ([| [| d' |] |] & Hst & HP); try done. simpl in HP; subst d'.
    cbn in Hs. rewrite (ring_dequeue _ _ Hr) in Hs. inv_outcome Hs.
    eapply keeps_simulated, step_local; [done.. |]. simpl. split_and!; (done || lia).
  - by eapply pop_load_sim.
  - by eapply pop_claim_sim.
  - destruct (step_rel _ Hl) as ([| [| d' |] |] & Hst & HP); try done. simpl in HP; subst d'.
    cbn in Hs. rewrite (ring_dequeue _ _ Hr) in Hs. inv_outcome Hs.
    eapply keeps_simulated, step_local; [done.. |]. simpl. split_and!; (done || lia).
  - by eapply keeps_simulated, pop_copy_sim.
  - by eapply keeps_simulated, pop_release_sim.
Qed.

End step.

Lemma mpmc_simulates n p lab p' c :
  Z.of_nat (S n) + cap < u64_modulus -> mpmc_sim n p c -> pool_step p lab p' ->
  exists c', match_step (canon_step (mpmc_spec cap)) c lab c' /\ mpmc_sim (S n) p' c'.
Proof.
  intros Hb Hsim Hs. destruct c as [a cs].
  destruct Hs as [q ts t l o l' Hl Hcall | q ts t l q' l' Hl Hstep | q ts t l r l' Hl Hret].
  - destruct (step_rel _ _ _ _ _ _ Hsim _ Hl) as (st & Hst & HP).
    destruct l, o; simplify_eq/=; destruct st; try done;
      (eexists; split; [by eapply match_one, canon_call | by eapply sim_local]).
  - by eapply mpmc_tau_sim.
  - destruct (step_rel _ _ _ _ _ _ Hsim _ Hl) as (st & Hst & HP).
    destruct l; simplify_eq/=; destruct st as [| | []]; try done; destruct_and?; subst;
      (eexists; split; [by eapply match_one, canon_ret | by eapply sim_local]).
Qed.

(** The cell the producers look at never runs ahead of the enqueue position, nor
    the cell the consumers look at ahead of the dequeue position plus one. *)
Lemma enqueue_cell_le n q ts a cs c :
  mpmc_sim n (mkPool q ts) (mkPool a cs) -> cell_at q (pushed a) c -> cell_sequence c <= pushed a.
Proof.
  intros [Hr _ Hw _ _ _] Hc. simpl in *. pose proof (ring_cap _ _ Hr) as Hcap.
  pose proof (ring_fifo _ _ Hr) as [Hfb _ _].
  destruct (Hw (pushed a - cap)) as (c0 & Hc0 & Hok1 & Hok2); [lia |].
  apply (proj1 (cell_at_period _ _ _ ltac:(lia))) in Hc0. rewrite (cell_at_fun _ _ _ _ Hc0 Hc) in Hok1, Hok2.
  destruct (Z.le_gt_cases (pushed a - span_size (items a)) (pushed a - cap)) as [Hd | Hd].
  - destruct (Hok1 Hd) as [[? _] | [? _]]; lia.
  - destruct (Hok2 Hd) as [[? _] | ?]; lia.
Qed.

Lemma dequeue_cell_le n q ts a cs c :
  let deq := pushed a - span_size (items a) in
  mpmc_sim n (mkPool q ts) (mkPool a cs) -> cell_at q deq c -> cell_sequence c <= deq + 1.
Proof.
  intros deq Hsim Hc. pose proof Hsim as [Hr _ Hw _ _ _]. simpl in *.
  pose proof (ring_cap _ _ Hr) as Hcap. pose proof (span_size_nonneg (items a)) as Hnn.
  pose proof (ring_fifo _ _ Hr) as [Hfb _ _].
  destruct (Z.eq_dec (span_size (items a)) 0) as [E | Hne].
  - unfold deq in *. rewrite E, Z.sub_0_r in *. pose proof (enqueue_cell_le _ _ _ _ _ _ Hsim Hc). lia.
  - destruct (Hw deq) as (c0 & Hc0 & Hok & _); [unfold deq; lia |].
    rewrite (cell_at_fun _ _ _ _ Hc0 Hc) in Hok. fold deq in Hok.
    destruct Hok as [[? _] | [? _]]; lia.
Qed.

Lemma mpmc_init_sim q k :
  0 <= MaxPayloadSize -> 0 <= cap < u64_modulus -> MPMCQueue_new MaxPayloadSize cap = inr q ->
  mpmc_sim 0 (mpmc_init q k) (mkPool fifo_empty (replicate k Idle)).
Proof.
  intros HM Hc Hnew. unfold MPMCQueue_new in Hnew.
  destruct (validate_capacity cap) as [e | c] eqn:Hv; [done |].
  apply validate_capacity_inv in Hv as [-> (kk & Hk & Hpow)]; [| done]. unfold returns in Hnew.
  injection Hnew as <-. assert (2 <= cap).
  { rewrite Hpow. pose proof (Z.pow_le_mono_r 2 1 kk). lia. }
  split; simpl.
  - split; simpl; try done.
    + eauto.
    + by rewrite u64_small by lia.
    + by rewrite length_imap, length_replicate.
    + apply Forall_lookup_2. intros i x Hx. apply list_lookup_imap_Some in Hx as (y & Hy & ->).
      apply lookup_replicate in Hy as [-> _]. simpl. by apply fresh_message_wf.
    + apply fifo_wf_empty. lia.
  - lia.
  - intros pos Hpos. exists (mkCell (pos + cap) (fresh_message MaxPayloadSize)). split.
    + unfold cell_at; simpl.
      assert (Hmod : pos mod cap = pos + cap).
      { rewrite <- (Z.mod_add pos 1 cap), Z.mul_1_l by lia. apply Z.mod_small. lia. }
      rewrite Hmod, list_lookup_imap, lookup_replicate_2 by (unfold slot_of; lia). simpl.
      unfold slot_of. by rewrite Z2Nat.id by lia.
    + split; intros Hd; [simpl in *; unfold span_size in *; simpl in *; lia | by right].
  - intros t1 t2 l1 l2 pos H1 _ C1. by apply lookup_replicate in H1 as [-> _].
  - intros t1 t2 l1 l2 pos H1 _ C1. by apply lookup_replicate in H1 as [-> _].
  - by apply threads_related_replicate.
Qed.

Lemma mpmc_exec_sim q k n h p :
  0 <= MaxPayloadSize -> 0 <= cap < u64_modulus -> MPMCQueue_new MaxPayloadSize cap = inr q ->
  Z.of_nat n + cap < u64_modulus -> exec pool_step n (mpmc_init q k) h p ->
  exists m c, exec (canon_step (mpmc_spec cap)) m (mkPool fifo_empty (replicate k Idle)) h c /\
              mpmc_sim n p c.
Proof.
  intros HM Hc Hnew Hb Hex.
  eapply (simulation_exec pool_step (canon_step (mpmc_spec cap)) mpmc_sim
            (fun n => Z.of_nat n + cap < u64_modulus)); [lia | | exact Hb | | exact Hex].
  - intros i p1 l p2 c. apply mpmc_simulates.
  - by apply mpmc_init_sim.
Qed.

(** ** Messages left in the queue *)

(** The messages published and not popped, oldest first. *)
Definition unread (q : MPMCQueue) : list message :=
  omap (fun position =>
    cell ← cells_ q !! cell_index q position;
    if cell_sequence cell =? position +u 1 then Some (message_of (cell_message cell)) else None)
    (seqZ (dequeue_pos_ q) (enqueue_pos_ q - dequeue_pos_ q)).

(** Threads that are not inside a call of the contract are not inside the code. *)
Lemma mpmc_all_idle n p c :
  mpmc_sim n p c -> Forall (fun st => st = Idle) (threads c) -> Forall (fun l => l = MIdle) (threads p).
Proof.
  intros Hsim Hidle. apply Forall_lookup. intros t l Hl.
  destruct (threads_related_lookup _ _ _ _ _ (sim_threads _ _ _ Hsim) Hl) as (st & Hst & Hrel).
  apply (Forall_lookup_1 _ _ _ _ Hidle) in Hst as ->. by destruct l.
Qed.

(** When no thread is inside a call, they are the items of the FIFO. *)
Lemma unread_items n p c :
  mpmc_sim n p c -> Forall (fun l => l = MIdle) (threads p) -> Z.of_nat n + cap < u64_modulus ->
  unread (shared p) = items (shared c).
Proof.
  intros Hsim Hidle Hn. pose proof (sim_ring _ _ _ Hsim) as Hr. pose proof (ring_cap _ _ Hr) as Hcap.
  pose proof (sim_bound _ _ _ Hsim) as Hb. pose proof (ring_fifo _ _ Hr) as [Hw1 Hw2 Hw3].
  unfold unread. rewrite (ring_enqueue _ _ Hr), (ring_dequeue _ _ Hr).
  set (a := shared c) in *. set (deq := pushed a - span_size (items a)). replace (pushed a - deq) with (span_size (items a)) by lia.
  assert (Hown : forall pos, ~ owns_push (threads p) pos).
  { intros pos (t & l & Hl & Hc). apply (Forall_lookup_1 _ _ _ _ Hidle) in Hl as ->. done. }
  assert (Hcell : forall i, (i < length (items a))%nat ->
    (cell ← cells_ (shared p) !! cell_index (shared p) (deq + Z.of_nat i);
     if cell_sequence cell =? (deq + Z.of_nat i) +u 1 then Some (message_of (cell_message cell)) else None) = items a !! i).
  { intros i Hi. destruct (sim_window _ _ _ Hsim (deq + Z.of_nat i)) as (cell & Hc & Hok); [fold a; unfold deq, span_size in *; lia |].
    rewrite (ring_cell_index _ _ _ Hr). unfold cell_at in Hc. rewrite Hc. cbn [mbind option_bind].
    destruct Hok as [Hok _]. fold a deq in Hok. destruct Hok as [[_ Ho] | [Es Ei]]; [lia | by destruct (Hown _ Ho) |].
    rewrite Es, u64_small, Z.eqb_refl by (unfold deq, span_size in *; lia). rewrite <- Ei. f_equal. lia. }
  clearbody deq. revert Hcell. unfold span_size. generalize (items a). clear. intros xs. revert deq.
  induction xs as [| x xs IH]; intros deq Hcell; [done |].
  rewrite seqZ_cons by (cbn; lia). pose proof (Hcell 0%nat ltac:(cbn; lia)) as H0. cbn [lookup list_lookup] in H0.
  rewrite Z.add_0_r in H0. cbn [omap list_omap]. rewrite H0. f_equal. replace (Z.pred (Z.of_nat (length (x :: xs)))) with (Z.of_nat (length xs)) by (cbn; lia).
  apply IH. intros i Hi. specialize (Hcell (S i) ltac:(cbn; lia)). etransitivity; [| exact Hcell].
  by replace (Z.succ deq + Z.of_nat i) with (deq + Z.of_nat (S i)) by lia.
Qed.

End invariant.

End MPMCConcurrent.

#[export] Existing Instance mpmc_object.

(** C4: any number of threads pushing and popping concurrently, interleaved at
    every access to the positions, the cell sequences and the messages, and with
    spurious failures of the exchanges, produce only histories that the atomic
    FIFO has, where [full] and [empty] may in addition be answered while another
    operation has taken effect and not returned.  In particular every accepted
    message is delivered by at most one pop, in publication order, unmodified. *)
Theorem mpmc_linearizable MaxPayloadSize cap q k n h p :
  0 <= MaxPayloadSize -> 0 <= cap < u64_modulus -> MPMCQueue_new MaxPayloadSize cap = inr q ->
  Z.of_nat n + cap < u64_modulus ->
  exec (pool_step (ConcurrentObject0 := mpmc_object MaxPayloadSize)) n (mpmc_init q k) h p ->
  linearizable (mpmc_spec MaxPayloadSize cap) fifo_empty k h.
Proof.
  intros HM Hc Hnew Hb Hex.
  destruct (mpmc_exec_sim MaxPayloadSize cap q k n h p) as (m & c & Hc' & _); try done.
  by exists m, c.
Qed.

(** Thread 0 claims the first position and stalls before publishing; thread 1
    completes a push behind it; thread 2 pops in vain, then thread 0 publishes
    and thread 2 gets its message. *)
Definition stalled_producer_schedule : list (choice QueueOp) :=
  [DoCall 0 (TryPush [Byte.x0a]); DoStep 0 0; DoStep 0 0; DoStep 0 0;
   DoCall 1 (TryPush [Byte.x0b]); DoStep 1 0; DoStep 1 0; DoStep 1 1; DoStep 1 0; DoStep 1 0;
   DoStep 1 0; DoStep 1 0; DoRet 1;
   DoCall 2 (TryPop [Byte.x00]); DoStep 2 0; DoStep 2 0; DoRet 2;
   DoStep 0 0; DoStep 0 0; DoRet 0;
   DoCall 2 (TryPop [Byte.x00]); DoStep 2 0; DoStep 2 0; DoStep 2 0; DoStep 2 0; DoStep 2 0; DoRet 2].

Definition stalled_producer_history : list (event QueueOp QueueRes) :=
  [Call 0 (TryPush [Byte.x0a]); Call 1 (TryPush [Byte.x0b]); Ret 1 (Pushed (mkWrite success 2));
   Call 2 (TryPop [Byte.x00]); Ret 2 (Popped (mkRead empty 0 0) [Byte.x00]);
   Ret 0 (Pushed (mkWrite success 1));
   Call 2 (TryPop [Byte.x00]); Ret 2 (Popped (mkRead success 1 1) [Byte.x0a])].

Definition small_mpmc : MPMCQueue :=
  mkMPMC 2 1 [mkCell 0 (fresh_message 2); mkCell 1 (fresh_message 2)] 0 0.

Lemma mpmc_linearizable_witness :
  linearizable (mpmc_spec 2 2) fifo_empty 3 stalled_producer_history.
Proof.
  eapply (mpmc_linearizable 2 2 small_mpmc 3 27); [lia | by vm_compute | done | by vm_compute |].
  apply (run_schedule_exec (ConcurrentObject0 := mpmc_object 2) _ stalled_producer_schedule).
  vm_compute. reflexivity.
Defined.

(** C21: [empty] does not mean that no cell is published: with one producer
    stalled between its claim and its publication, a pop looks only at the oldest
    cell and answers [empty] while the next cell holds a completed, published
    message. *)
Theorem mpmc_empty_despite_published :
  exists p cell,
    exec (pool_step (ConcurrentObject0 := mpmc_object 2)) 15 (mpmc_init small_mpmc 3)
      [Call 0 (TryPush [Byte.x0a]); Call 1 (TryPush [Byte.x0b]); Ret 1 (Pushed (mkWrite success 2));
       Call 2 (TryPop [Byte.x00])] p /\
    cells_ (shared p) !! cell_index (shared p) 1 = Some cell /\
    cell_sequence cell = 2 /\ message_of (cell_message cell) = (2, [Byte.x0b]) /\
    threads p !! 2%nat = Some (PopLoadCell [Byte.x00] 0) /\
    mpmc_tstep 2 (shared p) (PopLoadCell [Byte.x00] 0) =
      [(shared p, PopDone (mkRead empty 0 0) [Byte.x00])].
Proof.
  eexists _, _. split.
  { apply (run_schedule_exec (ConcurrentObject0 := mpmc_object 2) _ (take 15 stalled_producer_schedule)).
    vm_compute. reflexivity. }
  repeat (split; [vm_compute; reflexivity |]). vm_compute. reflexivity.
Qed.

(** ** The split code is the code *)

(** One thread alone, with any outcome where the code leaves a choice. *)
Definition mpmc_alone MaxPayloadSize : relation (MPMCQueue * mpmc_pc) :=
  fun x y => y ∈ mpmc_tstep MaxPayloadSize x.1 x.2.

Lemma alone_step M q l q1 l1 y :
  mpmc_tstep M q l = [(q1, l1)] -> rtc (mpmc_alone M) (q1, l1) y -> rtc (mpmc_alone M) (q, l) y.
Proof. intros H. apply rtc_l. unfold mpmc_alone. simpl. rewrite H. by left. Qed.

Lemma push_loop_alone M payload fuel : forall weak q pos,
  match push_loop fuel weak q pos with
  | Claimed p q1 => rtc (mpmc_alone M) (q, PushLoadCell payload pos) (q1, PushAssign payload p)
  | Refused => rtc (mpmc_alone M) (q, PushLoadCell payload pos) (q, PushDone (mkWrite full 0))
  | NoFuel => True
  | BadIndex => exists q1, rtc (mpmc_alone M) (q, PushLoadCell payload pos) (q1, OutOfBounds)
  end.
Proof.
  induction fuel as [| fuel IH]; intros weak q pos; simpl; [done |].
  destruct (cells_ q !! cell_index q pos) as [cell |] eqn:Hc.
  2: { exists q. eapply alone_step; [simpl; by rewrite Hc | apply rtc_refl]. }
  assert (Hnext : forall weak' l, rtc (mpmc_alone M) (q, PushLoadCell payload pos) (q, l) ->
    (q, PushLoadCell payload (enqueue_pos_ q)) ∈ mpmc_tstep M q l ->
    match push_loop fuel weak' q (enqueue_pos_ q) with
    | Claimed p q1 => rtc (mpmc_alone M) (q, PushLoadCell payload pos) (q1, PushAssign payload p)
    | Refused => rtc (mpmc_alone M) (q, PushLoadCell payload pos) (q, PushDone (mkWrite full 0))
    | NoFuel => True
    | BadIndex => exists q1, rtc (mpmc_alone M) (q, PushLoadCell payload pos) (q1, OutOfBounds)
    end).
  { intros weak' l Hl Hin. specialize (IH weak' q (enqueue_pos_ q)).
    assert (H : forall y, rtc (mpmc_alone M) (q, PushLoadCell payload (enqueue_pos_ q)) y ->
      rtc (mpmc_alone M) (q, PushLoadCell payload pos) y).
    { intros y Hy. etrans; [exact Hl |]. by eapply rtc_l. }
    destruct (push_loop fuel weak' q (enqueue_pos_ q)); auto. destruct IH as [q1 H1]. eauto. }
  destruct (Z.eqb_spec (cell_sequence cell) pos) as [Eseq | Hne].
  - assert (Hcas : rtc (mpmc_alone M) (q, PushLoadCell payload pos) (q, PushCas payload pos)).
    { eapply alone_step; [simpl; rewrite Hc, (proj2 (Z.eqb_eq _ _) Eseq); done | apply rtc_refl]. }
    destruct (Z.eqb_spec (enqueue_pos_ q) pos) as [Epos | Hpos]; simpl.
    + destruct (negb (default false (head weak))) eqn:Hw.
      * etrans; [exact Hcas |]. apply rtc_once. unfold mpmc_alone. simpl.
        rewrite (proj2 (Z.eqb_eq _ _) Epos). by left.
      * apply (Hnext _ _ Hcas). simpl. rewrite (proj2 (Z.eqb_eq _ _) Epos). right. by left.
    + apply (Hnext _ _ Hcas). simpl. rewrite (proj2 (Z.eqb_neq _ _) Hpos). by left.
  - apply Z.eqb_neq in Hne. destruct (cell_sequence cell <? pos) eqn:Hlt.
    + eapply alone_step; [simpl; by rewrite Hc, Hne, Hlt | apply rtc_refl].
    + apply (Hnext weak (PushReload payload)); [| by left].
      eapply alone_step; [simpl; by rewrite Hc, Hne, Hlt | apply rtc_refl].
Qed.

Lemma pop_loop_alone M d fuel : forall weak q pos,
  match pop_loop fuel weak q pos with
  | Claimed p q1 => rtc (mpmc_alone M) (q, PopLoadCell d pos) (q1, PopCopy d p)
  | Refused => rtc (mpmc_alone M) (q, PopLoadCell d pos) (q, PopDone (mkRead empty 0 0) d)
  | NoFuel => True
  | BadIndex => exists q1, rtc (mpmc_alone M) (q, PopLoadCell d pos) (q1, OutOfBounds)
  end.
Proof.
  induction fuel as [| fuel IH]; intros weak q pos; simpl; [done |].
  destruct (cells_ q !! cell_index q pos) as [cell |] eqn:Hc.
  2: { exists q. eapply alone_step; [simpl; by rewrite Hc | apply rtc_refl]. }
  assert (Hnext : forall weak' l, rtc (mpmc_alone M) (q, PopLoadCell d pos) (q, l) ->
    (q, PopLoadCell d (dequeue_pos_ q)) ∈ mpmc_tstep M q l ->
    match pop_loop fuel weak' q (dequeue_pos_ q) with
    | Claimed p q1 => rtc (mpmc_alone M) (q, PopLoadCell d pos) (q1, PopCopy d p)
    | Refused => rtc (mpmc_alone M) (q, PopLoadCell d pos) (q, PopDone (mkRead empty 0 0) d)
    | NoFuel => True
    | BadIndex => exists q1, rtc (mpmc_alone M) (q, PopLoadCell d pos) (q1, OutOfBounds)
    end).
  { intros weak' l Hl Hin. specialize (IH weak' q (dequeue_pos_ q)).
    assert (H : forall y, rtc (mpmc_alone M) (q, PopLoadCell d (dequeue_pos_ q)) y ->
      rtc (mpmc_alone M) (q, PopLoadCell d pos) y).
    { intros y Hy. etrans; [exact Hl |]. by eapply rtc_l. }
    destruct (pop_loop fuel weak' q (dequeue_pos_ q)); auto. destruct IH as [q1 H1]. eauto. }
  destruct (Z.eqb_spec (cell_sequence cell) (pos +u 1)) as [Eseq | Hne].
  - assert (Hcas : rtc (mpmc_alone M) (q, PopLoadCell d pos) (q, PopCas d pos)).
    { eapply alone_step; [simpl; rewrite Hc, (proj2 (Z.eqb_eq _ _) Eseq); done | apply rtc_refl]. }
    destruct (Z.eqb_spec (dequeue_pos_ q) pos) as [Epos | Hpos]; simpl.
    + destruct (negb (default false (head weak))) eqn:Hw.
      * etrans; [exact Hcas |]. apply rtc_once. unfold mpmc_alone. simpl.
        rewrite (proj2 (Z.eqb_eq _ _) Epos). by left.
      * apply (Hnext _ _ Hcas). simpl. rewrite (proj2 (Z.eqb_eq _ _) Epos). right. by left.
    + apply (Hnext _ _ Hcas). simpl. rewrite (proj2 (Z.eqb_neq _ _) Hpos). by left.
  - apply Z.eqb_neq in Hne. destruct (cell_sequence cell <? pos +u 1) eqn:Hlt.
    + eapply alone_step; [simpl; by rewrite Hc, Hne, Hlt | apply rtc_refl].
    + apply (Hnext weak (PopReload d)); [| by left].
      eapply alone_step; [simpl; by rewrite Hc, Hne, Hlt | apply rtc_refl].
Qed.

(** Whatever [try_push] and [try_pop] of one thread alone return, on any
    queue and with any spurious exchange failures, the split code can run to the
    same result and the same queue. *)
Theorem mpmc_split_faithful M fuel weak q payload destination :
  (forall r q', try_push M fuel weak q payload = Some (r, q') ->
     rtc (mpmc_alone M) (q, PushStart payload) (q', PushDone r)) /\
  (forall r d q', try_pop fuel weak q destination = Some (r, d, q') ->
     rtc (mpmc_alone M) (q, PopStart destination) (q', PopDone r d)).
Proof.
  split.
  - intros r q' H. unfold try_push in H. destruct (M <? span_size payload) eqn:Hfit.
    { simplify_eq. eapply alone_step; [simpl; by rewrite Hfit | apply rtc_refl]. }
    eapply alone_step; [simpl; by rewrite Hfit |].
    pose proof (push_loop_alone M payload fuel weak q (enqueue_pos_ q)) as Hl.
    destruct (push_loop _ _ _ _) as [p q1 | | |]; try done; [| by simplify_eq].
    etrans; [exact Hl |].
    destruct (cells_ q1 !! cell_index q1 p) as [cell |] eqn:Hc; [| done]. simpl in H.
    destruct (assign M (cell_message cell) payload (p +u 1)) as [r0 m] eqn:Ea. simplify_eq.
    eapply alone_step; [simpl; by rewrite Hc, Ea |].
    eapply alone_step; [| apply rtc_refl]. simpl.
    change (cell_index (store_cell q1 ?i ?c) p) with (cell_index q1 p).
    rewrite list_lookup_insert_eq by (by eapply lookup_lt_Some).
    unfold store_cell. simpl. by rewrite list_insert_insert_eq.
  - intros r d q' H. unfold try_pop in H. eapply alone_step; [done |].
    pose proof (pop_loop_alone M destination fuel weak q (dequeue_pos_ q)) as Hl.
    destruct (pop_loop _ _ _ _) as [p q1 | | |]; try done; [| by simplify_eq].
    etrans; [exact Hl |].
    destruct (cells_ q1 !! cell_index q1 p) as [cell |] eqn:Hc; [| done]. simpl in H.
    destruct (copy_to (cell_message cell) destination) as [r0 d0] eqn:Ec. simplify_eq.
    eapply alone_step; [simpl; by rewrite Hc, Ec |].
    eapply alone_step; [| apply rtc_refl]. simpl. by rewrite Hc.
Qed.

Lemma mpmc_split_faithful_witness :
  exists q', rtc (mpmc_alone 2) (small_mpmc, PushStart [Byte.x0a]) (q', PushDone (mkWrite success 1)).
Proof.
  eexists. apply (proj1 (mpmc_split_faithful 2 2 [true] small_mpmc [Byte.x0a] [])).
  vm_compute. reflexivity.
Defined.

(** ** Exclusive access to messages *)

(** The position whose message a thread is about to write or to read. *)
Definition message_access (l : mpmc_pc) : option Z :=
  match l with PushAssign _ p | PopCopy _ p => Some p | _ => None end.

(** A claimed position is in the last round of the ring. *)
Lemma claim_range MaxPayloadSize cap q a l y p :
  mpmc_rel MaxPayloadSize cap q a l y -> push_claim l = Some p \/ pop_claim l = Some p ->
  let deq := pushed a - span_size (items a) in
  (push_claim l = Some p /\ deq <= p < pushed a) \/ (pop_claim l = Some p /\ pushed a - cap <= p < deq).
Proof.
  intros HP Hl. destruct l, Hl as [Hl | Hl]; try done; injection Hl as ->; destruct y as [| | []]; try done; simpl in HP;
    [left | left | right | right]; (split; [done | tauto]).
Qed.

(** Two threads never hold the same cell. *)
Lemma mpmc_sim_apart MaxPayloadSize cap n p c t1 t2 l1 l2 p1 p2 :
  mpmc_sim MaxPayloadSize cap n p c -> t1 <> t2 -> threads p !! t1 = Some l1 -> threads p !! t2 = Some l2 ->
  push_claim l1 = Some p1 \/ pop_claim l1 = Some p1 -> push_claim l2 = Some p2 \/ pop_claim l2 = Some p2 ->
  slot_of (p1 mod cap) <> slot_of (p2 mod cap).
Proof.
  intros [Hr _ _ Hu1 Hu2 Ht] Hne H1 H2 A1 A2.
  pose proof (ring_cap _ _ _ _ Hr) as Hcap. pose proof (ring_fifo _ _ _ _ Hr) as [Hfb _ _].
  pose proof (span_size_nonneg (items (shared c))) as Hnn.
  destruct (threads_related_lookup _ _ _ _ _ Ht H1) as (y1 & _ & HP1).
  destruct (threads_related_lookup _ _ _ _ _ Ht H2) as (y2 & _ & HP2).
  specialize (Hu1 t1 t2 l1 l2 p1 H1 H2). specialize (Hu2 t1 t2 l1 l2 p1 H1 H2).
  apply claim_range with (p := p1) in HP1; [| done]. apply claim_range with (p := p2) in HP2; [| done]. simpl in HP1, HP2.
  assert (p1 <> p2).
  { intros <-. destruct HP1 as [[C1 R1] | [C1 R1]], HP2 as [[C2 R2] | [C2 R2]]; auto; lia. }
  apply ring_slot_ne; [lia | lia | done].
Qed.

Lemma message_access_claim l p : message_access l = Some p -> push_claim l = Some p \/ pop_claim l = Some p.
Proof. destruct l; intros; simplify_eq/=; auto. Qed.

Lemma mpmc_sim_inside MaxPayloadSize cap n p c t :
  mpmc_sim MaxPayloadSize cap n p c -> threads p !! t <> Some OutOfBounds.
Proof.
  intros [_ _ _ _ _ Ht] Hl. by destruct (threads_related_lookup _ _ _ _ _ Ht Hl) as ([| [] | []] & _ & HP).
Qed.

(** In every reachable state no thread has left the ring, and two threads
    that are about to access a message, for writing or reading, are at different
    cells: the plain payload accesses never conflict. *)
Theorem mpmc_exclusive_cells MaxPayloadSize cap q k n h p :
  0 <= MaxPayloadSize -> 0 <= cap < u64_modulus -> MPMCQueue_new MaxPayloadSize cap = inr q ->
  Z.of_nat n + cap < u64_modulus ->
  exec (pool_step (ConcurrentObject0 := mpmc_object MaxPayloadSize)) n (mpmc_init q k) h p ->
  (forall t, threads p !! t <> Some OutOfBounds) /\
  forall t1 t2 l1 l2 p1 p2, t1 <> t2 -> threads p !! t1 = Some l1 -> threads p !! t2 = Some l2 ->
    message_access l1 = Some p1 -> message_access l2 = Some p2 ->
    cell_index (shared p) p1 <> cell_index (shared p) p2.
Proof.
  intros HM Hc Hnew Hb Hex.
  destruct (mpmc_exec_sim MaxPayloadSize cap q k n h p) as (m & c & _ & Hsim); try done.
  split; [intros t; by eapply mpmc_sim_inside |]. intros t1 t2 l1 l2 p1 p2 Hne H1 H2 A1 A2.
  rewrite !(ring_cell_index _ _ _ _ _ (sim_ring _ _ _ _ _ Hsim)).
  eapply mpmc_sim_apart; [exact Hsim | exact Hne | done | done | by apply message_access_claim..].
Qed.

Lemma mpmc_exclusive_cells_witness :
  cell_index (store_enqueue small_mpmc 2) 0 <> cell_index (store_enqueue small_mpmc 2) 1.
Proof.
  assert (Hex : exec (pool_step (ConcurrentObject0 := mpmc_object 2)) 8 (mpmc_init small_mpmc 2)
      [Call 0 (TryPush [Byte.x0a]); Call 1 (TryPush [Byte.x0b])]
      (mkPool (store_enqueue small_mpmc 2) [PushAssign [Byte.x0a] 0; PushAssign [Byte.x0b] 1])).
  { apply (run_schedule_exec (ConcurrentObject0 := mpmc_object 2) _
      [DoCall 0 (TryPush [Byte.x0a]); DoStep 0 0; DoStep 0 0; DoStep 0 0;
       DoCall 1 (TryPush [Byte.x0b]); DoStep 1 0; DoStep 1 0; DoStep 1 0]).
    vm_compute. reflexivity. }
  apply mpmc_exclusive_cells with (cap := 2) in Hex as [_ Hex];
    [| lia | by vm_compute | done | by vm_compute].
  by apply (Hex 0%nat 1%nat (PushAssign [Byte.x0a] 0) (PushAssign [Byte.x0b] 1)).
Defined.

(** ** Progress *)

Section progress.

Context (MaxPayloadSize cap : Z).

(** How far a thread is from returning while nobody claims a position: a thread
    that holds a stale position reloads it once. *)
Definition distance (q : MPMCQueue) (l : mpmc_pc) : nat :=
  match l with
  | PushLoadCell _ pos => if pos =? enqueue_pos_ q then 2 else 4
  | PushCas _ pos => if pos =? enqueue_pos_ q then 1 else 3
  | PopLoadCell _ pos => if pos =? dequeue_pos_ q then 2 else 4
  | PopCas _ pos => if pos =? dequeue_pos_ q then 1 else 3
  | PushStart _ | PopStart _ | PushReload _ | PopReload _ => 3
  | PushAssign _ _ | PopCopy _ _ => 2
  | PushPublish _ _ | PopRelease _ _ _ => 1
  | MIdle | PushDone _ | PopDone _ _ | OutOfBounds => 0
  end.

Definition total_distance (p : pool MPMCQueue mpmc_pc) : nat :=
  sum_list (distance (shared p) <$> threads p).

(** The step is an exchange that found its expected value and failed anyway. *)
Definition spurious_failure (q : MPMCQueue) (l l' : mpmc_pc) : Prop :=
  (exists pl, l = PushCas pl (enqueue_pos_ q) /\ l' = PushLoadCell pl (enqueue_pos_ q)) \/
  (exists d, l = PopCas d (dequeue_pos_ q) /\ l' = PopLoadCell d (dequeue_pos_ q)).

Lemma distance_le q l : (distance q l <= 4)%nat.
Proof. destruct l; simpl; repeat case_match; lia. Qed.

Lemma mpmc_step_distance n q ts a cs t l q' l' :
  mpmc_sim MaxPayloadSize cap n (mkPool q ts) (mkPool a cs) ->
  Z.of_nat (S n) + cap < u64_modulus ->
  ts !! t = Some l -> (q', l') ∈ mpmc_tstep MaxPayloadSize q l ->
  enqueue_pos_ q' <> enqueue_pos_ q \/ dequeue_pos_ q' <> dequeue_pos_ q \/
  spurious_failure q l l' \/
  (enqueue_pos_ q' = enqueue_pos_ q /\ dequeue_pos_ q' = dequeue_pos_ q /\
   (distance q' l' < distance q l)%nat).
Proof.
  intros Hsim Hb Hl Hs. pose proof (step_ring _ _ _ _ _ _ _ Hsim) as Hr.
  pose proof (step_counters _ _ _ _ _ _ _ Hsim) as Hcnt.
  pose proof (ring_enqueue _ _ _ _ Hr) as He. pose proof (ring_dequeue _ _ _ _ Hr) as Hd.
  destruct l; cbn in Hs; try by apply not_elem_of_nil in Hs.
  - case_tests_in Hs; inv_outcome Hs; simpl; rewrite ?Z.eqb_refl; auto with lia.
  - destruct (step_cell _ _ _ _ _ _ _ Hsim position) as (c & Hc & Hca & _). rewrite Hc in Hs.
    case_tests_in Hs; inv_outcome Hs; simpl; do 3 right; (split_and!; [done.. |]); case_tests; try lia.
    subst position. rewrite He in *. pose proof (enqueue_cell_le _ _ _ _ _ _ _ _ Hsim Hca). lia.
  - case_tests_in Hs.
    + apply elem_of_cons in Hs as [[= -> ->] | Hs]; [| inv_outcome Hs].
      * left. simpl. subst position. rewrite u64_small by (rewrite He; lia). lia.
      * do 2 right. left. left. subst. eauto.
    + inv_outcome Hs. do 3 right. simpl. split_and!; [done.. |]. rewrite Z.eqb_refl.
      rewrite (proj2 (Z.eqb_neq _ _)) by done. lia.
  - inv_outcome Hs. simpl. rewrite Z.eqb_refl. auto with lia.
  - destruct (step_cell _ _ _ _ _ _ _ Hsim position) as (c & Hc & Hca & _). rewrite Hc in Hs.
    destruct (assign _ _ _ _). inv_outcome Hs. simpl. auto with lia.
  - destruct (step_cell _ _ _ _ _ _ _ Hsim position) as (c & Hc & Hca & _). rewrite Hc in Hs.
    inv_outcome Hs. simpl. auto with lia.
  - inv_outcome Hs. simpl. rewrite Z.eqb_refl. auto with lia.
  - destruct (step_cell _ _ _ _ _ _ _ Hsim position) as (c & Hc & Hca & _). rewrite Hc in Hs.
    case_tests_in Hs; inv_outcome Hs; simpl; do 3 right; (split_and!; [done.. |]); case_tests; try lia.
    subst position. rewrite Hd in *. pose proof (dequeue_cell_le _ _ _ _ _ _ _ _ Hsim Hca).
    rewrite u64_small in * by lia. lia.
  - case_tests_in Hs.
    + apply elem_of_cons in Hs as [[= -> ->] | Hs]; [| inv_outcome Hs].
      * right; left. simpl. subst position. rewrite u64_small by (rewrite Hd; lia). lia.
      * do 2 right. left. right. subst. eauto.
    + inv_outcome Hs. do 3 right. simpl. split_and!; [done.. |]. rewrite Z.eqb_refl.
      rewrite (proj2 (Z.eqb_neq _ _)) by done. lia.
  - inv_outcome Hs. simpl. rewrite Z.eqb_refl. auto with lia.
  - destruct (step_cell _ _ _ _ _ _ _ Hsim position) as (c & Hc & Hca & _). rewrite Hc in Hs.
    destruct (copy_to _ _). inv_outcome Hs. simpl. auto with lia.
  - destruct (step_cell _ _ _ _ _ _ _ Hsim position) as (c & Hc & Hca & _). rewrite Hc in Hs.
    inv_outcome Hs. simpl. auto with lia.
Qed.

Lemma mpmc_pool_distance n p c p' :
  mpmc_sim MaxPayloadSize cap n p c -> Z.of_nat (S n) + cap < u64_modulus ->
  pool_step (ConcurrentObject0 := mpmc_object MaxPayloadSize) p None p' ->
  enqueue_pos_ (shared p') <> enqueue_pos_ (shared p) \/
  dequeue_pos_ (shared p') <> dequeue_pos_ (shared p) \/
  (exists t l l', threads p !! t = Some l /\ threads p' !! t = Some l' /\
     spurious_failure (shared p) l l') \/
  (total_distance p' < total_distance p)%nat.
Proof.
  intros Hsim Hb Hs. inversion Hs as [| q ts t l q' l' Hl Hstep |]; subst. destruct c as [a cs].
  destruct (mpmc_step_distance _ _ _ _ _ _ _ _ _ Hsim Hb Hl Hstep)
    as [? | [? | [Hsp | (He & Hd & Hlt)]]]; simpl; [tauto | tauto | |].
  - do 2 right. left. exists t, l, l'. split; [done |]. split; [| done].
    by eapply list_lookup_insert_eq, lookup_lt_Some.
  - do 3 right. unfold total_distance; simpl. rewrite list_fmap_insert.
    assert (Heq : distance q' <$> ts = distance q <$> ts).
    { apply list_fmap_ext. intros i x _. destruct x; simpl; rewrite ?He, ?Hd; done. }
    rewrite Heq. pose proof (sum_list_insert (distance q <$> ts) t (distance q l) (distance q' l')) as Hsum.
    rewrite list_lookup_fmap, Hl in Hsum. specialize (Hsum eq_refl). lia.
Qed.

Lemma total_distance_le p : (total_distance p <= 4 * length (threads p))%nat.
Proof.
  unfold total_distance. rewrite <- (length_fmap (distance (shared p))). apply sum_list_bound.
  apply Forall_fmap, Forall_true. intros l. apply distance_le.
Qed.

End progress.

(** C14: system-wide progress: in every reachable state, every internal step of
    any thread claims a position, or is a spurious failure of an exchange, or
    strictly decreases a distance that is at most four times the number of
    threads.  So between two successful claims only finitely many, boundedly
    many, steps can be spent inside [try_push] and [try_pop] before some call
    returns: threads cannot keep each other in the retry loops. *)
Theorem mpmc_progress MaxPayloadSize cap q k n h p p' :
  0 <= MaxPayloadSize -> 0 <= cap < u64_modulus -> MPMCQueue_new MaxPayloadSize cap = inr q ->
  Z.of_nat (S n) + cap < u64_modulus ->
  exec (pool_step (ConcurrentObject0 := mpmc_object MaxPayloadSize)) n (mpmc_init q k) h p ->
  pool_step (ConcurrentObject0 := mpmc_object MaxPayloadSize) p None p' ->
  (total_distance p <= 4 * k)%nat /\
  (enqueue_pos_ (shared p') <> enqueue_pos_ (shared p) \/
   dequeue_pos_ (shared p') <> dequeue_pos_ (shared p) \/
   (exists t l l', threads p !! t = Some l /\ threads p' !! t = Some l' /\
      spurious_failure (shared p) l l') \/
   (total_distance p' < total_distance p)%nat).
Proof.
  intros HM Hc Hnew Hb Hex Hs.
  destruct (mpmc_exec_sim MaxPayloadSize cap q k n h p) as (m & c & _ & Hsim); [done.. | lia | done |].
  split; [| by eapply mpmc_pool_distance].
  pose proof (total_distance_le p) as Hle.
  assert (Hk : length (threads p) = k); [| by rewrite Hk in Hle].
  apply pool_exec_length in Hex. by rewrite Hex; simpl; rewrite length_replicate.
Qed.

Lemma mpmc_progress_witness :
  (total_distance (mkPool small_mpmc [PushStart [Byte.x0a]]) <= 4 * 1)%nat.
Proof.
  eapply (mpmc_progress 2 2 small_mpmc 1 1 [Call 0 (TryPush [Byte.x0a])] _
            (mkPool small_mpmc [PushLoadCell [Byte.x0a] 0]));
    [lia | by vm_compute | done | by vm_compute | |].
  - apply (run_schedule_exec (ConcurrentObject0 := mpmc_object 2) _ [DoCall 0 (TryPush [Byte.x0a])]).
    vm_compute. reflexivity.
  - apply (run_choice_step (ConcurrentObject0 := mpmc_object 2) _ (DoStep 0 0)). vm_compute. reflexivity.
Defined.
