(* ===== verification/MPMCSequential.v ===== *)
(** * [MPMCQueue] used by one thread at a time

    The member functions of [MPMCQueue] as the pure functions of [MPMCQueue.v], their
    claim loops with fuel and with spurious failures of the weak exchanges.  Theorem:
    a new queue answers every sequence of calls with the results of the bounded FIFO,
    each call terminating as soon as the fuel exceeds the number of its spurious
    failures, and never touching a cell outside the ring. *)

From S2P Require Import Prelude Result FixedMessage Concurrency BoundedFifo MPMCQueue MPMCConcurrent.

(** A call with the fuel of its claim loop and the failures of its exchanges. *)
Record attempt : Type := mkAttempt {
  operation : QueueOp;
  fuel : nat;
  weak_failures : list bool;
}.

Section sequential.

Context (MaxPayloadSize cap : Z).

(** The class has no [full()]. *)
Definition mpmc_apply (q : MPMCQueue) (x : attempt) : option (QueueRes * MPMCQueue) :=
  match operation x with
  | TryPush payload =>
      '(r, q') ← try_push MaxPayloadSize (fuel x) (weak_failures x) q payload; Some (Pushed r, q')
  | TryPop destination =>
      '(r, d, q') ← try_pop (fuel x) (weak_failures x) q destination; Some (Popped r d, q')
  | Observe is_empty_ => b ← is_empty q; Some (Observed b, q)
  | Observe is_full_ => None
  end.

Fixpoint mpmc_run (q : MPMCQueue) (xs : list attempt) : option (list QueueRes * MPMCQueue) :=
  match xs with
  | [] => Some ([], q)
  | x :: xs => '(r, q1) ← mpmc_apply q x; '(rs, q2) ← mpmc_run q1 xs; Some (r :: rs, q2)
  end.

(** Enough fuel, and an operation the class has. *)
Definition attempt_ok (x : attempt) : Prop :=
  (length (weak_failures x) < fuel x)%nat /\ operation x <> Observe is_full_.

(** A queue with no call in progress: the cells of the last round hold the unread
    messages, or wait for the next round. *)
Record mpmc_repr (q : MPMCQueue) (a : fifo) : Prop := {
  repr_ring : mpmc_ring MaxPayloadSize cap q a;
  repr_window : forall pos, pushed a - cap <= pos < pushed a ->
    exists c, cell_at cap q pos c /\
      let deq := pushed a - span_size (items a) in
      (deq <= pos -> cell_sequence c = pos + 1 /\ items a !! Z.to_nat (pos - deq) = Some (message_of (cell_message c))) /\
      (pos < deq -> cell_sequence c = pos + cap);
}.

Lemma mpmc_repr_new q :
  0 <= MaxPayloadSize -> 0 <= cap < u64_modulus -> MPMCQueue_new MaxPayloadSize cap = inr q -> mpmc_repr q fifo_empty.
Proof.
  intros HM Hc Hnew. destruct (mpmc_init_sim MaxPayloadSize cap q 0 HM Hc Hnew) as [Hr _ Hw _ _ _].
  split; [exact Hr |]. intros pos Hpos. destruct (Hw pos Hpos) as (c & Hcell & H1 & H2). exists c. split; [done |]. cbn in *.
  unfold span_size in *. cbn in *. split; [lia |]. intros H. destruct (H2 H) as [[_ (t & l & Hl & _)] | E]; [done | exact E].
Qed.

(** The cells at the two ends of the queue. *)
Lemma enqueue_cell q a :
  mpmc_repr q a -> exists c, cells_ q !! cell_index q (pushed a) = Some c /\ message_wf MaxPayloadSize (cell_message c) /\
    if span_size (items a) =? cap then cell_sequence c < pushed a else cell_sequence c = pushed a.
Proof.
  intros [Hr Hw]. pose proof (ring_cap _ _ _ _ Hr) as Hcap. pose proof (ring_fifo _ _ _ _ Hr) as [Hb _ _].
  destruct (Hw (pushed a - cap)) as (c & Hc & H1 & H2); [lia |]. cbn in H1, H2.
  apply (cell_at_mod cap q (pushed a) (pushed a - cap)) in Hc; [| by rewrite <- (Z.mod_add (pushed a - cap) 1 cap), Z.mul_1_l, Z.sub_add by lia]. exists c. rewrite (ring_cell_index _ _ _ _ _ Hr). split; [exact Hc |].
  split; [by eapply (Forall_lookup_1 _ _ _ _ (ring_wf _ _ _ _ Hr)) |].
  destruct (Z.eqb_spec (span_size (items a)) cap); [destruct H1; lia | rewrite H2; lia].
Qed.

Lemma dequeue_cell q a :
  mpmc_repr q a -> let deq := pushed a - span_size (items a) in
  exists c, cells_ q !! cell_index q deq = Some c /\ message_wf MaxPayloadSize (cell_message c) /\
    match items a with
    | [] => cell_sequence c = deq
    | msg :: _ => cell_sequence c = deq + 1 /\ message_of (cell_message c) = msg
    end.
Proof.
  intros Hrep deq. pose proof Hrep as [Hr Hw]. pose proof (ring_cap _ _ _ _ Hr) as Hcap. pose proof (ring_fifo _ _ _ _ Hr) as [Hb _ _].
  destruct (items a) as [| msg rest] eqn:Ei.
  - assert (deq = pushed a) as -> by (unfold deq, span_size; simpl; lia).
    destruct (enqueue_cell q a Hrep) as (c & Hc & Hwf & Hs). rewrite Ei in Hs. exists c. split_and!; try done.
    destruct (Z.eqb_spec (span_size (A := message) []) cap); [unfold span_size in *; simpl in *; lia | done].
  - destruct (Hw deq) as (c & Hc & H1 & _); [unfold deq, span_size in *; simpl in *; lia |].
    exists c. rewrite (ring_cell_index _ _ _ _ _ Hr). split; [exact Hc |].
    split; [by eapply (Forall_lookup_1 _ _ _ _ (ring_wf _ _ _ _ Hr)) |]. cbn in H1.
    destruct H1 as [Es Em]; [unfold deq; lia |]. fold deq in Em. rewrite Z.sub_diag in Em. cbn in Em. by injection Em as ->.
Qed.

(** *** The claim loops terminate *)

Lemma push_loop_claims q c : forall weak n,
  cells_ q !! cell_index q (enqueue_pos_ q) = Some c -> cell_sequence c = enqueue_pos_ q -> (length weak < n)%nat ->
  push_loop n weak q (enqueue_pos_ q) = Claimed (enqueue_pos_ q) (store_enqueue q (enqueue_pos_ q +u 1)).
Proof.
  induction weak as [| b weak IH]; intros [| n] Hc Es Hn; cbn [length] in Hn; try lia;
    cbn [push_loop]; rewrite Hc, Es, !Z.eqb_refl; cbn; [done |].
  destruct b; cbn; [apply IH; [done | done | lia] | done].
Qed.

Lemma pop_loop_claims q c : forall weak n,
  cells_ q !! cell_index q (dequeue_pos_ q) = Some c -> cell_sequence c = dequeue_pos_ q +u 1 -> (length weak < n)%nat ->
  pop_loop n weak q (dequeue_pos_ q) = Claimed (dequeue_pos_ q) (store_dequeue q (dequeue_pos_ q +u 1)).
Proof.
  induction weak as [| b weak IH]; intros [| n] Hc Es Hn; cbn [length] in Hn; try lia;
    cbn [pop_loop]; rewrite Hc, Es, !Z.eqb_refl; cbn; [done |].
  destruct b; cbn; [apply IH; [done | done | lia] | done].
Qed.

Lemma push_loop_refuses q c weak n :
  cells_ q !! cell_index q (enqueue_pos_ q) = Some c -> cell_sequence c < enqueue_pos_ q -> (0 < n)%nat ->
  push_loop n weak q (enqueue_pos_ q) = Refused.
Proof.
  intros Hc Hs Hn. destruct n as [| n]; [lia |]. cbn [push_loop].
  by rewrite Hc, (proj2 (Z.eqb_neq _ _)), (proj2 (Z.ltb_lt _ _)) by lia.
Qed.

Lemma pop_loop_refuses q c weak n :
  cells_ q !! cell_index q (dequeue_pos_ q) = Some c -> cell_sequence c < dequeue_pos_ q +u 1 -> (0 < n)%nat ->
  pop_loop n weak q (dequeue_pos_ q) = Refused.
Proof.
  intros Hc Hs Hn. destruct n as [| n]; [lia |]. cbn [pop_loop].
  by rewrite Hc, (proj2 (Z.eqb_neq _ _)), (proj2 (Z.ltb_lt _ _)) by lia.
Qed.

(** *** The operations *)

Lemma mpmc_repr_push q a payload c :
  mpmc_repr q a -> span_size payload <= MaxPayloadSize -> span_size (items a) <> cap -> pushed a + cap < u64_modulus ->
  message_wf MaxPayloadSize c -> message_of c = (pushed a + 1, payload) ->
  mpmc_repr (store_cell (store_enqueue q (pushed a + 1)) (slot_of (pushed a mod cap)) (mkCell (pushed a + 1) c))
    (mkFifo (pushed a + 1) (items a ++ [(pushed a + 1, payload)])).
Proof.
  intros [Hr Hw] Hfit Hne Hb Hwf Hmsg. pose proof (ring_cap _ _ _ _ Hr) as Hcap. pose proof (ring_fifo _ _ _ _ Hr) as Hf.
  pose proof Hf as [Hfb Hfc _]. pose proof (span_size_nonneg (items a)) as Hsz.
  assert (Hlen : span_size (items a ++ [(pushed a + 1, payload)]) = span_size (items a) + 1).
  { unfold span_size. rewrite length_app. simpl. lia. }
  split.
  - apply mpmc_ring_store_cell; [| done]. destruct Hr. split; cbn; try done.
    + rewrite Hlen, ring_dequeue. lia.
    + apply (fifo_spec_wf _ _ true a (TryPush payload) (Pushed (mkWrite success (pushed a +u 1)))); [done |]. constructor.
      unfold fifo_push. rewrite (proj2 (Z.ltb_ge _ _)), (proj2 (Z.eqb_neq _ _)), u64_small by lia. done.
  - cbn [pushed items]. intros pos Hpos. rewrite Hlen. replace (pushed a + 1 - (span_size (items a) + 1)) with (pushed a - span_size (items a)) by lia.
    destruct (Z.eq_dec pos (pushed a)) as [-> | Hp].
    + exists (mkCell (pushed a + 1) c). split.
      { apply list_lookup_insert_eq, (ring_slot_lt cap); [lia | apply Hr]. }
      cbn. split; [| lia]. intros _. split; [done |].
      rewrite lookup_app_r by (unfold span_size in *; lia). unfold span_size in *.
      replace (Z.to_nat _ - length (items a))%nat with 0%nat by lia. cbn. by rewrite Hmsg.
    + destruct (Hw pos) as (c0 & Hc0 & H1 & H2); [lia |]. exists c0. split; [apply cell_at_store_ne; try lia; exact Hc0 |].
      cbn in H1, H2 |- *. split; [| exact H2]. intros Hd. destruct (H1 Hd) as [E1 E2]. split; [done |].
      rewrite lookup_app_l; [done |]. unfold span_size in *. lia.
Qed.

Lemma mpmc_repr_pop q a msg rest c :
  mpmc_repr q a -> items a = msg :: rest -> pushed a + cap < u64_modulus -> message_wf MaxPayloadSize c ->
  let deq := pushed a - span_size (items a) in
  mpmc_repr (store_cell (store_dequeue q (deq + 1)) (slot_of (deq mod cap)) (mkCell (deq + cap) c)) (mkFifo (pushed a) rest).
Proof.
  intros [Hr Hw] Ei Hb Hwf deq. pose proof (ring_cap _ _ _ _ Hr) as Hcap. pose proof (ring_fifo _ _ _ _ Hr) as Hf.
  pose proof Hf as [Hfb Hfc _]. assert (Hlen : span_size (items a) = span_size rest + 1) by (rewrite Ei; unfold span_size; simpl; lia).
  pose proof (span_size_nonneg rest) as Hsz. split.
  - apply mpmc_ring_store_cell; [| done]. destruct Hr. split; cbn; try done.
    + unfold deq. lia.
    + destruct (deliver msg []) as [r d] eqn:Ed.
      apply (fifo_spec_wf _ _ true a (TryPop []) (Popped r d)); [done |]. constructor.
      unfold fifo_pop. by rewrite Ei, Ed, orb_true_r.
  - cbn [pushed items]. intros pos Hpos. destruct (Z.eq_dec pos deq) as [-> | Hp].
    + exists (mkCell (deq + cap) c). split.
      { apply list_lookup_insert_eq, (ring_slot_lt cap); [lia | apply Hr]. }
      cbn. split; [unfold deq; lia | done].
    + destruct (Hw pos) as (c0 & Hc0 & H1 & H2); [lia |]. exists c0. split; [apply cell_at_store_ne; try (unfold deq; lia); exact Hc0 |].
      cbn in H1, H2 |- *. fold deq in H1, H2. split; [| intros; apply H2; unfold deq in *; lia].
      intros Hd. destruct H1 as [E1 E2]; [unfold deq; lia |]. split; [done |]. rewrite Ei in E2.
      replace (Z.to_nat (pos - deq)) with (S (Z.to_nat (pos - (pushed a - span_size rest)))) in E2 by (unfold deq in *; lia).
      exact E2.
Qed.

Lemma mpmc_push_spec q a payload weak n :
  mpmc_repr q a -> pushed a + cap < u64_modulus -> (length weak < n)%nat ->
  exists q', try_push MaxPayloadSize n weak q payload = Some ((fifo_push MaxPayloadSize cap a payload).1, q') /\
    mpmc_repr q' (fifo_push MaxPayloadSize cap a payload).2.
Proof.
  intros Hrep Hb Hn. unfold try_push, fifo_push.
  destruct (Z.ltb_spec MaxPayloadSize (span_size payload)) as [| Hfit]; [by exists q |].
  pose proof (ring_enqueue _ _ _ _ (repr_ring _ _ Hrep)) as He. pose proof (ring_cap _ _ _ _ (repr_ring _ _ Hrep)) as Hcap.
  pose proof (ring_fifo _ _ _ _ (repr_ring _ _ Hrep)) as [_ Hfc _]. pose proof (span_size_nonneg (items a)) as Hsz.
  destruct (enqueue_cell q a Hrep) as (c & Hc & Hwf & Hs). rewrite <- He in Hc.
  destruct (Z.eqb_spec (span_size (items a)) cap) as [| Hne].
  { rewrite (push_loop_refuses q c) by (done || lia). by exists q. }
  rewrite (push_loop_claims q c) by (done || lia). cbn [mbind option_bind].
  change (cells_ (store_enqueue q ?x)) with (cells_ q). change (cell_index (store_enqueue q ?x)) with (cell_index q).
  rewrite Hc. cbn [mbind option_bind]. rewrite He, u64_small by lia.
  pose proof (assign_message_of MaxPayloadSize (cell_message c) payload (pushed a + 1) Hfit) as Hmsg.
  pose proof (assign_wf MaxPayloadSize (cell_message c) payload (pushed a + 1) Hwf) as Hwf'.
  rewrite assign_fits in * by done. cbn [fst snd] in *. eexists. split; [done |].
  rewrite (ring_cell_index _ _ _ _ _ (repr_ring _ _ Hrep)). by apply mpmc_repr_push.
Qed.

Lemma mpmc_pop_spec q a d weak n :
  mpmc_repr q a -> pushed a + cap < u64_modulus -> (length weak < n)%nat ->
  exists q', try_pop n weak q d = Some ((fifo_pop true a d).1, q') /\ mpmc_repr q' (fifo_pop true a d).2.
Proof.
  intros Hrep Hb Hn. unfold try_pop, fifo_pop. pose proof (repr_ring _ _ Hrep) as Hr.
  pose proof (ring_dequeue _ _ _ _ Hr) as Hd. pose proof (ring_cap _ _ _ _ Hr) as Hcap.
  pose proof (ring_fifo _ _ _ _ Hr) as [_ Hfc _]. pose proof (span_size_nonneg (items a)) as Hsz.
  destruct (dequeue_cell q a Hrep) as (c & Hc & Hwf & Hs). rewrite <- Hd in Hc, Hs.
  destruct (items a) as [| msg rest] eqn:Ei.
  { rewrite (pop_loop_refuses q c) by (done || rewrite ?u64_small; lia). by exists q. }
  destruct Hs as [Hs Hmsg]. assert (Hlt : dequeue_pos_ q + 1 <= pushed a) by (rewrite Hd; unfold span_size; simpl; lia).
  rewrite (pop_loop_claims q c) by (done || rewrite ?u64_small; lia). cbn [mbind option_bind].
  change (cells_ (store_dequeue q ?x)) with (cells_ q). change (cell_index (store_dequeue q ?x)) with (cell_index q).
  change (capacity_ (store_dequeue q ?x)) with (capacity_ q).
  rewrite Hc. cbn [mbind option_bind]. rewrite (copy_to_deliver _ _ _ Hwf), Hmsg. destruct (deliver msg d) as [r d'].
  rewrite orb_true_r. eexists. split; [done |]. cbn [snd].
  rewrite (ring_capacity _ _ _ _ Hr), (ring_cell_index _ _ _ _ _ Hr), !u64_small by lia. rewrite Hd, <- Ei.
  by eapply mpmc_repr_pop.
Qed.

Lemma mpmc_empty_spec q a :
  mpmc_repr q a -> pushed a + cap < u64_modulus -> is_empty q = Some (fifo_observe cap a is_empty_).
Proof.
  intros Hrep Hb. pose proof (repr_ring _ _ Hrep) as Hr. pose proof (ring_dequeue _ _ _ _ Hr) as Hd.
  pose proof (ring_cap _ _ _ _ Hr) as Hcap. pose proof (ring_fifo _ _ _ _ Hr) as [_ Hfc _]. pose proof (span_size_nonneg (items a)) as Hsz.
  destruct (dequeue_cell q a Hrep) as (c & Hc & _ & Hs). unfold is_empty. rewrite Hd, Hc. cbn [mbind option_bind]. f_equal.
  unfold fifo_observe. rewrite u64_small by lia. destruct (items a) as [| msg rest].
  - rewrite (proj2 (Z.ltb_lt _ _)) by lia. done.
  - destruct Hs as [-> _]. rewrite Z.ltb_irrefl. symmetry. apply Z.eqb_neq. unfold span_size. simpl. lia.
Qed.

Lemma mpmc_run_spec xs : forall q a,
  mpmc_repr q a -> pushed a + Z.of_nat (length xs) + cap < u64_modulus -> Forall attempt_ok xs ->
  exists q', mpmc_run q xs = Some ((fifo_run MaxPayloadSize cap true a (operation <$> xs)).1, q') /\
    mpmc_repr q' (fifo_run MaxPayloadSize cap true a (operation <$> xs)).2.
Proof.
  induction xs as [| [o n weak] xs IH]; intros q a Hrep Hb Hok; [by exists q |].
  inversion Hok as [| ? ? [Hn Ho] Hok']; subst. cbn [fuel weak_failures operation length] in *.
  rewrite fmap_cons. cbn [mpmc_run fifo_run operation].
  assert (Hstep : exists q1, mpmc_apply q (mkAttempt o n weak) = Some ((fifo_apply MaxPayloadSize cap true a o).1, q1) /\
    mpmc_repr q1 (fifo_apply MaxPayloadSize cap true a o).2 /\ pushed (fifo_apply MaxPayloadSize cap true a o).2 <= pushed a + 1).
  { unfold mpmc_apply, fifo_apply. cbn [operation fuel weak_failures]. destruct o as [payload | d | [|]]; [| | | done].
    - destruct (mpmc_push_spec q a payload weak n Hrep) as (q1 & -> & Hrep1); [lia | done |]. cbn [mbind option_bind].
      destruct (fifo_push _ _ a payload) as [r a1] eqn:E. exists q1. split; [done |]. split; [done |]. cbn [snd].
      unfold fifo_push in E. case_tests_in E; simplify_eq/=; lia.
    - destruct (mpmc_pop_spec q a d weak n Hrep) as (q1 & -> & Hrep1); [lia | done |]. cbn [mbind option_bind].
      destruct (fifo_pop _ a d) as [[r d'] a1] eqn:E. exists q1. split; [done |]. split; [done |]. cbn [snd].
      unfold fifo_pop in E. repeat case_match; simplify_eq/=; lia.
    - rewrite (mpmc_empty_spec q a) by (done || lia). exists q. split; [done |]. split; [done |]. cbn. lia. }
  destruct Hstep as (q1 & -> & Hrep1 & Hp). cbn [mbind option_bind].
  destruct (fifo_apply _ _ _ a o) as [r a1]. cbn [fst snd] in *.
  destruct (IH q1 a1 Hrep1 ltac:(lia) Hok') as (q2 & -> & Hrep2). cbn [mbind option_bind].
  destruct (fifo_run _ _ _ a1 _) as [rs a2]. by exists q2.
Qed.

End sequential.

(** C19: Used by one thread at a time, a new [MPMCQueue] answers every sequence of
    [try_push], [try_pop] and [empty] calls with exactly the results, copied bytes and
    error statuses included, of the bounded FIFO; every call returns, whichever of its
    exchanges fail spuriously, when its claim loop may take one iteration more than it
    has failures. *)
Theorem mpmc_run_refines_fifo MaxPayloadSize cap q xs :
  0 <= MaxPayloadSize -> 0 <= cap < u64_modulus -> MPMCQueue_new MaxPayloadSize cap = inr q ->
  Z.of_nat (length xs) + cap < u64_modulus -> Forall attempt_ok xs ->
  exists q', mpmc_run MaxPayloadSize q xs =
    Some ((fifo_run MaxPayloadSize cap true fifo_empty (operation <$> xs)).1, q').
Proof.
  intros HM Hc Hnew Hb Hok.
  destruct (mpmc_run_spec MaxPayloadSize cap xs q fifo_empty) as (q' & H & _); [by apply mpmc_repr_new | done | done |].
  by exists q'.
Qed.

(** Two cells: a spurious failure, a full queue, a buffer that is too short. *)
Definition sample_attempts : list attempt :=
  [mkAttempt (TryPush [Byte.x07]) 2 [true]; mkAttempt (TryPush [Byte.x08; Byte.x09]) 1 [];
   mkAttempt (TryPush [Byte.x0a]) 1 []; mkAttempt (TryPop [Byte.x00; Byte.x01]) 3 [true; true];
   mkAttempt (TryPop []) 1 []; mkAttempt (Observe is_empty_) 1 []].

Lemma mpmc_run_refines_fifo_witness :
  exists q', mpmc_run 2 small_mpmc sample_attempts =
    Some ([Pushed (mkWrite success 1); Pushed (mkWrite success 2); Pushed (mkWrite full 0);
           Popped (mkRead success 1 1) [Byte.x07; Byte.x01]; Popped (mkRead message_too_large 0 2) [];
           Observed true], q').
Proof.
  apply (mpmc_run_refines_fifo 2 2 small_mpmc sample_attempts); [lia | done | reflexivity | reflexivity |].
  repeat constructor; cbn; try lia; discriminate.
Defined.
