(* ===== verification/MulticastContract.v ===== *)
(** * The multicast contract

    What [SPMCMulticastQueue] and [VersionedSPMCQueue] promise: publications form
    a log numbered from one, the last [capacity] of them are retained, and every
    consumer handle owns a cursor into the log that only its own reads move.  The
    two classes share this contract; they differ in one clause, [lossy]: the
    mutex-free queue may answer [overwritten] to a reader whose message is being
    overwritten while it reads.  The consumer handle and its move operations,
    identical in the two classes, are modelled here too, and so is what a
    consumer can rely on across a whole session. *)

From Stdlib Require Export Sorting.Sorted.
From S2P Require Import Prelude Result FixedMessage Concurrency.

(** ** Consumer handles *)

(** [queue_] says whether the pointer is non-null; it never points to another
    queue than the one the handle was made by. *)
Record Consumer : Type := mkConsumer {
  queue_ : bool;
  next_sequence_ : Z;
}.

#[export] Instance Consumer_eq_dec : EqDecision Consumer.
Proof. solve_decision. Defined.

Definition Consumer_new (next_sequence : Z) : Consumer := mkConsumer true next_sequence.

Definition next_sequence (c : Consumer) : Z := next_sequence_ c.

(** [std::exchange(other.queue_, nullptr)] *)
Definition exchange_null (other : Consumer) : bool * Consumer :=
  (queue_ other, mkConsumer false (next_sequence_ other)).

(** [Consumer(Consumer&& other)]: the new handle, and the moved-from one. *)
Definition move_construct (other : Consumer) : Consumer * Consumer :=
  let '(queue, other') := exchange_null other in
  (mkConsumer queue (next_sequence_ other'), other').

(** [operator=(Consumer&& other)] on handles held in memory: [this] and [other]
    are addresses, so that assigning a handle to itself is expressible. *)
Definition move_assign (handles : list Consumer) (this other : nat) : option (list Consumer) :=
  if decide (this = other) then Some handles
  else
    source ← handles !! other;
    target ← handles !! this;
    let '(queue, source') := exchange_null source in
    Some (<[this := mkConsumer queue (next_sequence_ source')]> (<[other := source']> handles)).

(** The cursors through which messages can be read: moving a handle neither
    duplicates nor moves its cursor. *)
Definition cursors (handles : list Consumer) : list Z :=
  next_sequence_ <$> filter (fun c => queue_ c = true) handles.

Lemma cursors_insert handles i c c' :
  handles !! i = Some c ->
  cursors (<[i := c']> handles) ++ cursors [c] ≡ₚ cursors handles ++ cursors [c'].
Proof.
  intros H. assert (Hlt := lookup_lt_Some _ _ _ H).
  rewrite <- (take_drop_middle handles i c H) at 2. rewrite insert_take_drop by done.
  unfold cursors. rewrite !filter_app, !fmap_app, !(filter_cons _ _ (drop _ _)), !filter_cons, filter_nil.
  repeat case_decide; simpl; rewrite ?app_nil_r; try done; solve_Permutation.
Qed.

(** ** The log *)

Abbreviation log := (list (list byte)).

Inductive McOp : Type :=
| McPublish (payload : list byte)
| McRegister
| McRead (c : Consumer) (destination : list byte)
| McPublished.

Inductive McRes : Type :=
| McWritten (r : WriteResult)
| McRegistered (c : Consumer)
| McReadDone (r : ReadResult) (c : Consumer) (destination : list byte)
| McPublishedIs (n : Z).

Section contract.

Context (MaxPayloadSize cap : Z).

(** The oldest retained publication. *)
Definition oldest (l : log) : Z :=
  if cap <=? span_size l then span_size l - cap + 1 else 1.

(** Publication [s], with its number. *)
Definition entry (l : log) (s : Z) : message := (s, default [] (l !! Z.to_nat (s - 1))).

Definition mc_publish (l : log) (payload : list byte) : WriteResult * log :=
  if MaxPayloadSize <? span_size payload then (mkWrite message_too_large 0, l)
  else (mkWrite success (span_size l + 1), l ++ [payload]).

Definition mc_read (l : log) (c : Consumer) (destination : list byte)
    : ReadResult * Consumer * list byte :=
  let next := next_sequence_ c in
  if negb (queue_ c) then (mkRead invalid_consumer 0 next, c, destination)
  else if span_size l <? next then (mkRead empty 0 next, c, destination)
  else if next <? oldest l
  then (mkRead consumer_lagged 0 (oldest l), mkConsumer true (oldest l), destination)
  else
    let '(r, destination') := deliver (entry l next) destination in
    (r, if ok (r_status r) then mkConsumer true (next + 1) else c, destination').

(** The answer to a reader that lost its message while reading it: its cursor
    jumps to the oldest retained publication, never backwards. *)
Definition mc_lost (l : log) (c : Consumer) (destination : list byte)
    : ReadResult * Consumer * list byte :=
  let resume := Z.max (next_sequence_ c) (oldest l) in
  (mkRead overwritten 0 resume, mkConsumer true resume, destination).

(** A publication that fits has been called and has not taken effect. *)
Definition publish_pending (cs : list (status McOp McRes)) : Prop :=
  exists t payload, cs !! t = Some (Called (McPublish payload)) /\
    span_size payload <= MaxPayloadSize.

Inductive mc_spec (lossy : bool) (cs : list (status McOp McRes)) : log -> McOp -> McRes -> log -> Prop :=
| mc_spec_publish l payload r l' :
    mc_publish l payload = (r, l') -> mc_spec lossy cs l (McPublish payload) (McWritten r) l'
| mc_spec_register l :
    mc_spec lossy cs l McRegister (McRegistered (Consumer_new (span_size l + 1))) l
| mc_spec_published l :
    mc_spec lossy cs l McPublished (McPublishedIs (span_size l)) l
| mc_spec_read l c d r c' d' :
    mc_read l c d = (r, c', d') ->
    mc_spec lossy cs l (McRead c d) (McReadDone r c' d') l
| mc_spec_lost l c d r c' d' :
    lossy = true -> queue_ c = true -> 1 <= next_sequence_ c ->
    (** the message has been overwritten, or is being overwritten now *)
    next_sequence_ c + cap <= span_size l \/
      (next_sequence_ c + cap = span_size l + 1 /\ publish_pending cs) ->
    mc_lost l c d = (r, c', d') ->
    mc_spec lossy cs l (McRead c d) (McReadDone r c' d') l.

(** ** Sessions *)

(** The reads of one consumer, in order, while publications arrive. *)
Inductive session (lossy : bool)
    : log -> Consumer -> list (ReadResult * list byte) -> log -> Consumer -> Prop :=
| session_start l c : session lossy l c [] l c
| session_publish l c tr l1 c1 payload :
    session lossy l c tr l1 c1 -> span_size payload <= MaxPayloadSize ->
    session lossy l c tr (l1 ++ [payload]) c1
| session_read l c tr l1 c1 cs d r c2 d' :
    session lossy l c tr l1 c1 ->
    mc_spec lossy cs l1 (McRead c1 d) (McReadDone r c2 d') l1 ->
    session lossy l c (tr ++ [(r, d')]) l1 c2.

(** The sequence numbers delivered, and the reports of lost messages. *)
Definition delivered (tr : list (ReadResult * list byte)) : list Z :=
  (r_sequence ∘ fst) <$> filter (fun x => r_status x.1 = success) tr.

Definition reports_loss (r : ReadResult) : Prop :=
  r_status r = consumer_lagged \/ r_status r = overwritten.

Definition lossless (tr : list (ReadResult * list byte)) : Prop :=
  Forall (fun x => ~ reports_loss x.1) tr.

Lemma entry_app l l' s :
  1 <= s <= span_size l -> entry (l ++ l') s = entry l s.
Proof. intros H. unfold entry, span_size in *. by rewrite lookup_app_l by lia. Qed.

Lemma entry_lookup l s :
  1 <= s <= span_size l -> l !! Z.to_nat (s - 1) = Some (entry l s).2.
Proof.
  unfold span_size, entry. intros H. simpl.
  destruct (lookup_lt_is_Some_2 l (Z.to_nat (s - 1))) as [p ->]; [lia | done].
Qed.

Hypothesis Hcap : 0 < cap.

Lemma oldest_pos l : 1 <= oldest l.
Proof using Hcap. unfold oldest. case_tests; lia. Qed.

Lemma oldest_le l : oldest l <= span_size l + 1.
Proof using Hcap. unfold oldest. pose proof (span_size_nonneg l). case_tests; lia. Qed.

(** What one read does to the session, on each of its outcomes. *)
Inductive read_outcome (l : log) (next : Z) (d : list byte)
    : ReadResult -> Z -> list byte -> Prop :=
| read_delivers payload :
    oldest l <= next <= span_size l -> l !! Z.to_nat (next - 1) = Some payload ->
    span_size payload <= span_size d ->
    read_outcome l next d (mkRead success (span_size payload) next) (next + 1) (std_copy payload d)
| read_loses r next' :
    reports_loss r -> next + cap <= span_size l + 1 ->
    next <= next' <= span_size l + 1 -> read_outcome l next d r next' d
| read_keeps r :
    r_status r = empty /\ span_size l < next \/
    r_status r = message_too_large /\ next <= span_size l ->
    read_outcome l next d r next d.

Lemma mc_spec_read_outcome lossy cs l c d r c' d' l' :
  mc_spec lossy cs l (McRead c d) (McReadDone r c' d') l' ->
  queue_ c = true -> 1 <= next_sequence_ c <= span_size l + 1 ->
  queue_ c' = true /\ read_outcome l (next_sequence_ c) d r (next_sequence_ c') d'.
Proof using Hcap.
  intros Hs Hq Hn. pose proof (oldest_le l) as Ho. pose proof (oldest_pos l) as Hp.
  inversion Hs as [| | | ? ? ? ? ? ? H | ? ? ? ? ? ? _ _ _ Hlost H]; subst.
  - unfold mc_read in H. rewrite Hq in H. simpl in H. case_tests_in H; simplify_eq/=.
    + split; [done |]. apply read_keeps. by left.
    + split; [done |]. apply read_loses; [by left | | lia].
      unfold oldest in *. case_tests_in H1; lia.
    + pose proof (entry_lookup l' (next_sequence_ c) ltac:(lia)) as He.
      unfold deliver in H. case_tests_in H; simplify_eq/=.
      * split; [done |]. apply read_keeps. right. split; [done | lia].
      * split; [done |]. apply read_delivers; [lia | done | done].
  - unfold mc_lost in H. simplify_eq/=. split; [done |].
    apply read_loses; [by right | lia | lia].
Qed.

Lemma mc_spec_read_shape lossy cs l c d r l' :
  mc_spec lossy cs l (McRead c d) r l' -> l' = l /\ exists r0 c' d', r = McReadDone r0 c' d'.
Proof. intros H. inversion H; subst; eauto. Qed.

(** Everything a consumer can rely on, over any number of its reads and any
    interleaving with publications. *)
Record session_sound (l0 : log) (tr : list (ReadResult * list byte)) (l1 : log) (next : Z) : Prop := {
  sound_cursor : span_size l0 < next <= span_size l1 + 1;
  sound_grows : span_size l0 <= span_size l1;
  (** in order, without duplicates, only later publications *)
  sound_sorted : StronglySorted Z.lt (delivered tr);
  sound_range : Forall (fun s => span_size l0 < s < next) (delivered tr);
  (** every delivery carries the bytes published under its number *)
  sound_content : forall r d, (r, d) ∈ tr -> r_status r = success ->
    exists payload, l1 !! Z.to_nat (r_sequence r - 1) = Some payload /\
      bytes_read r = span_size payload /\ take (length payload) d = payload;
  (** without a reported loss nothing is skipped *)
  sound_complete : lossless tr ->
    delivered tr = seqZ (span_size l0 + 1) (next - span_size l0 - 1);
  (** and no loss happens while fewer than [cap] publications have arrived *)
  sound_lossless : span_size l1 < span_size l0 + cap -> lossless tr;
}.

Lemma delivered_app tr1 tr2 : delivered (tr1 ++ tr2) = delivered tr1 ++ delivered tr2.
Proof. unfold delivered. by rewrite filter_app, fmap_app. Qed.

Lemma delivered_other r d : r_status r <> success -> delivered [(r, d)] = [].
Proof. intros H. unfold delivered. rewrite filter_cons. simpl. by rewrite decide_False. Qed.

Lemma StronglySorted_snoc (xs : list Z) x :
  StronglySorted Z.lt xs -> Forall (fun y => y < x) xs -> StronglySorted Z.lt (xs ++ [x]).
Proof.
  induction 1 as [| y ys Hs IH Hy]; intros Hx; [by repeat constructor |]. inversion_clear Hx.
  simpl. constructor; [by apply IH |]. apply Forall_app. split; [done | by constructor].
Qed.

Lemma session_sound_publish l0 tr l1 next payload :
  session_sound l0 tr l1 next -> session_sound l0 tr (l1 ++ [payload]) next.
Proof.
  intros [Hc Hg Hs Hr Hd Hcomp Hl]. assert (span_size (l1 ++ [payload]) = span_size l1 + 1) as E
    by (unfold span_size; rewrite length_app; simpl; lia).
  split; rewrite ?E; try done; try lia.
  - intros r d Hin Hok. destruct (Hd r d Hin Hok) as (p & Hp & Hrest). exists p.
    split; [by apply lookup_app_l_Some | done].
  - intros. apply Hl. lia.
Qed.

(** A read that delivers nothing keeps what was delivered so far. *)
Lemma session_sound_silent l0 tr l1 next r d next' :
  session_sound l0 tr l1 next -> r_status r <> success -> next <= next' <= span_size l1 + 1 ->
  (~ reports_loss r -> next' = next) -> (reports_loss r -> next + cap <= span_size l1 + 1) ->
  session_sound l0 (tr ++ [(r, d)]) l1 next'.
Proof.
  intros [Hc Hg Hs Hr Hd Hcomp Hl] Hne Hn Hkeep Hloss.
  split; rewrite ?delivered_app, ?(delivered_other r d Hne), ?app_nil_r; try done.
  - lia.
  - eapply Forall_impl; [exact Hr |]. simpl. intros. lia.
  - intros r' d' [Hin | [=-> ->]%list_elem_of_singleton]%elem_of_app Hok; [by apply (Hd r') | done].
  - intros [Hl1 Hl2]%Forall_app. rewrite Forall_singleton in Hl2. rewrite (Hkeep Hl2). auto.
  - intros Hlt. apply Forall_app. split; [by apply Hl |]. rewrite Forall_singleton.
    intros Hrep. specialize (Hloss Hrep). lia.
Qed.

Lemma session_sound_delivery l0 tr l1 next payload d :
  session_sound l0 tr l1 next -> next <= span_size l1 ->
  l1 !! Z.to_nat (next - 1) = Some payload ->
  session_sound l0 (tr ++ [(mkRead success (span_size payload) next, std_copy payload d)]) l1 (next + 1).
Proof.
  intros [Hc Hg Hs Hr Hd Hcomp Hl] Hn Hp.
  split; rewrite ?delivered_app; try done; try change (delivered [_]) with [next].
  - lia.
  - apply StronglySorted_snoc; [done |]. eapply Forall_impl; [exact Hr |]. simpl. intros. lia.
  - apply Forall_app. split; [eapply Forall_impl; [exact Hr |]; simpl; intros; lia |].
    rewrite Forall_singleton. lia.
  - intros r d' [Hin | [=-> ->]%list_elem_of_singleton]%elem_of_app Hok; [by apply (Hd r) |].
    exists payload. split; [done |]. split; [done |]. apply std_copy_prefix.
  - intros [Hl1 _]%Forall_app. rewrite (Hcomp Hl1).
    replace (next + 1 - span_size l0 - 1) with ((next - span_size l0 - 1) + 1) by lia.
    rewrite seqZ_app by lia. f_equal.
    replace (span_size l0 + 1 + (next - span_size l0 - 1)) with next by lia. done.
  - intros Hlt. apply Forall_app. split; [by apply Hl |]. rewrite Forall_singleton. by intros [[=] | [=]].
Qed.

Lemma session_sound_read l0 tr l1 next d r next' d' :
  session_sound l0 tr l1 next -> read_outcome l1 next d r next' d' ->
  session_sound l0 (tr ++ [(r, d')]) l1 next'.
Proof using Hcap.
  intros Hs Ho. pose proof (sound_cursor _ _ _ _ Hs) as Hc.
  destruct Ho as [payload Hr Hp Hd | r next' Hrep Hcap' Hn | r Hr].
  - apply session_sound_delivery; [done | lia | done].
  - eapply session_sound_silent; [done | | done | tauto | lia].
    by destruct Hrep as [-> | ->].
  - eapply session_sound_silent; [done | | lia | done |].
    + by destruct Hr as [[-> _] | [-> _]].
    + by destruct Hr as [[E _] | [E _]]; intros [H | H]; rewrite E in H.
Qed.

Lemma session_is_sound lossy l0 tr l1 c :
  session lossy l0 (Consumer_new (span_size l0 + 1)) tr l1 c ->
  queue_ c = true /\ session_sound l0 tr l1 (next_sequence_ c).
Proof using Hcap.
  intros H. remember (Consumer_new (span_size l0 + 1)) as c0 eqn:E0.
  induction H as [l c | l c tr l1 c1 payload H IH Hp | l c tr l1 c1 cs d r c2 d' H IH Hs]; subst c.
  - split; [done |]. simpl. split; try done; try lia.
    + constructor.
    + intros r d H. by apply not_elem_of_nil in H.
    + intros _. by replace (span_size l + 1 - span_size l - 1) with 0 by lia.
    + intros. constructor.
  - destruct (IH eq_refl) as [Hq Hi]. split; [done |]. by apply session_sound_publish.
  - destruct (IH eq_refl) as [Hq Hi]. pose proof (sound_cursor _ _ _ _ Hi).
    pose proof (span_size_nonneg l).
    destruct (mc_spec_read_outcome _ _ _ _ _ _ _ _ _ Hs Hq) as [Hq' Ho]; [lia |].
    split; [done |]. by eapply session_sound_read.
Qed.

End contract.

(** ** Histories *)

(** The same argument serves every atomic object whose state holds a log and whose
    calls are those of a multicast queue, perhaps with a label. *)

Section histories.

Context {St Op : Type} (log_of : St -> log) (op_of : Op -> McOp).
Context (spec : list (status Op McRes) -> St -> Op -> McRes -> St -> Prop).

Abbreviation mc_event := (event Op McRes).

Definition published_in (h : list mc_event) (payload : list byte) : Prop :=
  exists t o, Call t o ∈ h /\ op_of o = McPublish payload.

(** A successful read returned the whole payload of some publication. *)
Definition genuine (h : list mc_event) (r : ReadResult) (d : list byte) : Prop :=
  r_status r = success ->
  exists payload, published_in h payload /\ bytes_read r = span_size payload /\ take (length payload) d = payload.

Lemma published_in_app h e payload : published_in h payload -> published_in (h ++ e) payload.
Proof. intros (t & o & Hin & Ho). exists t, o. split; [apply elem_of_app; by left | done]. Qed.

Lemma genuine_app h e r d : genuine h r d -> genuine (h ++ e) r d.
Proof. intros H Hok. destruct (H Hok) as (p & Hp & Hrest). exists p. split; [by apply published_in_app | done]. Qed.

(** Only publications enter the log, and reads return what is in it. *)
Hypothesis log_grows : forall cs a o r a' p, spec cs a o r a' -> p ∈ log_of a' -> p ∈ log_of a \/ op_of o = McPublish p.
Hypothesis reads_log : forall cs a o r c d a' h, spec cs a o (McReadDone r c d) a' ->
  (forall p, p ∈ log_of a -> published_in h p) -> genuine h r d.

Record history_ok (h : list mc_event) (a : St) (cs : list (status Op McRes)) : Prop := {
  ho_log : forall p, p ∈ log_of a -> published_in h p;
  ho_called : forall t o p, cs !! t = Some (Called o) -> op_of o = McPublish p -> published_in h p;
  ho_finished : forall t r c d, cs !! t = Some (Finished (McReadDone r c d)) -> genuine h r d;
  ho_returned : forall t r c d, Ret t (McReadDone r c d) ∈ h -> genuine h r d;
}.

Lemma history_ok_call h a cs t o : history_ok h a cs -> history_ok (h ++ [Call t o]) a (<[t := Called o]> cs).
Proof.
  intros [I1 I2 I3 I4]. split.
  - intros p Hp. by apply published_in_app, I1.
  - intros t' o' p H Ho. apply list_lookup_insert_Some in H as [(-> & [= ->] & _) | [_ H]].
    + exists t', o'. split; [apply elem_of_app; right; by left | done].
    + apply published_in_app. by eapply I2.
  - intros t' r c d H. apply genuine_app.
    apply list_lookup_insert_Some in H as [(_ & ? & _) | [_ H]]; [done | by eapply I3].
  - intros t' r c d [H | H%list_elem_of_singleton]%elem_of_app; [| done]. apply genuine_app. by eapply I4.
Qed.

Lemma history_ok_effect h a cs t o r a' :
  history_ok h a cs -> cs !! t = Some (Called o) -> spec cs a o r a' -> history_ok h a' (<[t := Finished r]> cs).
Proof using log_grows reads_log.
  intros [I1 I2 I3 I4] Ht Hs. split; [| | | exact I4].
  - intros p Hp. destruct (log_grows _ _ _ _ _ _ Hs Hp) as [Hold | Ho]; [by apply I1 | by eapply I2].
  - intros t' o' p H Ho. apply list_lookup_insert_Some in H as [(_ & ? & _) | [_ H]]; [done | by eapply I2].
  - intros t' r' c d H. apply list_lookup_insert_Some in H as [(_ & [= ->] & _) | [_ H]]; [| by eapply I3].
    by eapply reads_log.
Qed.

Lemma history_ok_return h a cs t r :
  history_ok h a cs -> cs !! t = Some (Finished r) -> history_ok (h ++ [Ret t r]) a (<[t := Idle]> cs).
Proof.
  intros [I1 I2 I3 I4] Ht. split.
  - intros p Hp. by apply published_in_app, I1.
  - intros t' o' p H Ho. apply list_lookup_insert_Some in H as [(_ & ? & _) | [_ H]]; [done |].
    apply published_in_app. by eapply I2.
  - intros t' r' c d H. apply genuine_app.
    apply list_lookup_insert_Some in H as [(_ & ? & _) | [_ H]]; [done | by eapply I3].
  - intros t' r' c d [H | [= -> <-]%list_elem_of_singleton]%elem_of_app; apply genuine_app; [by eapply I4 | by eapply I3].
Qed.

Lemma contract_history m k h a0 a cs :
  log_of a0 = [] -> exec (canon_step spec) m (mkPool a0 (replicate k Idle)) h (mkPool a cs) -> history_ok h a cs.
Proof using log_grows reads_log.
  intros Ha0 Hex. remember (mkPool a0 (replicate k Idle)) as p0 eqn:E0. remember (mkPool a cs) as p eqn:E. revert a cs E.
  induction Hex as [p | m p h p1 lab p2 Hex IH Hs]; intros a cs E.
  - rewrite E0 in E. injection E as <- <-.
    split; intros *; [rewrite Ha0; by intros ?%not_elem_of_nil | | | by intros ?%not_elem_of_nil];
      by intros [? _]%lookup_replicate.
  - specialize (IH E0). destruct Hs as [a1 cs0 t o Ht | a1 cs0 t o r a' Ht Hsp | a1 cs0 t r Ht]; injection E as <- <-; simpl.
    + by apply history_ok_call, IH.
    + rewrite app_nil_r. eapply history_ok_effect; [by apply IH | done | done].
    + by apply history_ok_return; [apply IH |].
Qed.

End histories.

(** Both hypotheses hold of the contract itself. *)
Section contract_histories.

Context (MaxPayloadSize cap : Z) (lossy : bool).
Hypothesis Hcap : 0 < cap.

Lemma mc_spec_log cs l o r l' p :
  mc_spec MaxPayloadSize cap lossy cs l o r l' -> p ∈ l' -> p ∈ l \/ o = McPublish p.
Proof.
  intros H Hp. destruct H as [l p0 r l' H | | | |]; auto. unfold mc_publish in H.
  case_tests_in H; simplify_eq; [auto |].
  apply elem_of_app in Hp as [? | ->%list_elem_of_singleton]; auto.
Qed.

(** A successful read returns an entry of the log. *)
Lemma mc_spec_entry cs l o c d' r l' :
  mc_spec MaxPayloadSize cap lossy cs l o (McReadDone r c d') l' -> r_status r = success ->
  exists payload, payload ∈ l /\ bytes_read r = span_size payload /\ take (length payload) d' = payload.
Proof using Hcap.
  intros Hs Hok. pose proof (oldest_pos cap Hcap l).
  inversion Hs as [| | | ? c0 d0 ? ? ? H1 | ? ? ? ? ? ? _ _ _ _ H1]; subst.
  - unfold mc_read in H1. case_match; [by simplify_eq |]. case_tests_in H1; try by simplify_eq.
    unfold deliver in H1. case_tests_in H1; simplify_eq/=.
    eexists. split; [exact (list_elem_of_lookup_2 _ _ _ (entry_lookup l' (next_sequence_ c0) ltac:(lia))) |].
    split; [done |]. apply std_copy_prefix.
  - by unfold mc_lost in H1; simplify_eq.
Qed.

End contract_histories.
