(* ===== verification/SPMCMulticastQueue.v ===== *)
(** * The mutex-based multicast queue ([include/orbitqueue/spmc_multicast_queue.h])

    A ring of [FixedMessage] slots behind one mutex.  Each member function is
    translated with its locked part; [SPMCMulticastQueue] interleaved by many
    threads is the [Mutex] object over these bodies.  Theorems: every history is
    linearizable to the multicast contract of [MulticastContract.v] without its
    lossy clause (so the [overwritten] branch of [try_read] never runs and no
    subscript leaves the ring), and a consumer session of the code itself
    delivers what was published. *)

From S2P Require Import Prelude Result FixedMessage Concurrency Mutex MulticastContract.

Record SPMCMulticastQueue : Type := mkMulticast {
  capacity_ : Z;
  slots_ : list FixedMessage;
  published_sequence_ : Z;
}.

Section SPMCMulticastQueue.

Context (MaxPayloadSize : Z).

Definition SPMCMulticastQueue_new (capacity : Z) : throwing SPMCMulticastQueue :=
  let q := mkMulticast capacity (replicate (Z.to_nat capacity) (fresh_message MaxPayloadSize)) 0 in
  if capacity =? 0
  then throw (invalid_argument "SPMCMulticastQueue capacity must be greater than zero")
  else returns q.

Definition register_consumer (q : SPMCMulticastQueue) : Consumer :=
  Consumer_new (published_sequence_ q +u 1).

Definition slot_index (q : SPMCMulticastQueue) (sequence : Z) : nat :=
  slot_of ((sequence -u 1) mod capacity_ q).

(** The part of [try_publish] that runs under the lock. *)
Definition publish_locked (q : SPMCMulticastQueue) (payload : list byte)
    : option (WriteResult * SPMCMulticastQueue) :=
  let sequence := published_sequence_ q +u 1 in
  slot ← slots_ q !! slot_index q sequence;
  let '(result, slot') := assign MaxPayloadSize slot payload sequence in
  Some (result, mkMulticast (capacity_ q) (<[slot_index q sequence := slot']> (slots_ q)) sequence).

Definition try_publish (q : SPMCMulticastQueue) (payload : list byte)
    : option (WriteResult * SPMCMulticastQueue) :=
  if MaxPayloadSize <? span_size payload then Some (mkWrite message_too_large 0, q)
  else publish_locked q payload.

Definition capacity (q : SPMCMulticastQueue) : Z := capacity_ q.

Definition published_sequence (q : SPMCMulticastQueue) : Z := published_sequence_ q.

(** [SPMCMulticastQueue::try_read] *)
Definition try_read (q : SPMCMulticastQueue) (consumer : Consumer) (destination : list byte)
    : option (ReadResult * Consumer * list byte) :=
  if published_sequence_ q <? next_sequence_ consumer
  then Some (mkRead empty 0 (next_sequence_ consumer), consumer, destination)
  else
    let oldest := if capacity_ q <=? published_sequence_ q
                  then (published_sequence_ q -u capacity_ q) +u 1 else 1 in
    if next_sequence_ consumer <? oldest
    then Some (mkRead consumer_lagged 0 oldest, mkConsumer (queue_ consumer) oldest, destination)
    else
      let expected := next_sequence_ consumer in
      slot ← slots_ q !! slot_index q expected;
      if negb (sequence slot =? expected)
      then Some (mkRead overwritten 0 oldest, mkConsumer (queue_ consumer) oldest, destination)
      else
        let '(result, destination') := copy_to slot destination in
        let consumer' := if ok (r_status result)
                         then mkConsumer (queue_ consumer) (next_sequence_ consumer +u 1)
                         else consumer in
        Some (result, consumer', destination').

(** [Consumer::try_read] *)
Definition Consumer_try_read (q : SPMCMulticastQueue) (c : Consumer) (destination : list byte)
    : option (ReadResult * Consumer * list byte) :=
  if negb (queue_ c) then Some (mkRead invalid_consumer 0 (next_sequence_ c), c, destination)
  else try_read q c destination.

(** ** As a mutex-protected object *)

Definition mc_early (o : McOp) : option McRes :=
  match o with
  | McPublish payload =>
      if MaxPayloadSize <? span_size payload
      then Some (McWritten (mkWrite message_too_large 0)) else None
  | McRead c destination =>
      if negb (queue_ c)
      then Some (McReadDone (mkRead invalid_consumer 0 (next_sequence_ c)) c destination) else None
  | McRegister | McPublished => None
  end.

Definition mc_body (q : SPMCMulticastQueue) (o : McOp) : option (McRes * SPMCMulticastQueue) :=
  match o with
  | McPublish payload => '(r, q') ← publish_locked q payload; Some (McWritten r, q')
  | McRegister => Some (McRegistered (register_consumer q), q)
  | McRead c destination =>
      '(r, c', d) ← try_read q c destination; Some (McReadDone r c' d, q)
  | McPublished => Some (McPublishedIs (published_sequence q), q)
  end.

(** ** Representation *)

Section representation.

Context (cap : Z).

Record multicast_repr (q : SPMCMulticastQueue) (l : log) : Prop := {
  mr_capacity : capacity_ q = cap;
  mr_length : length (slots_ q) = Z.to_nat cap;
  mr_published : published_sequence_ q = span_size l;
  mr_slots : Forall (message_wf MaxPayloadSize) (slots_ q);
  mr_retained : forall s, 1 <= s -> span_size l - cap < s <= span_size l ->
    exists m, slots_ q !! slot_of ((s - 1) mod cap) = Some m /\ message_of m = entry l s;
}.

Hypothesis Hcap : 0 < cap < u64_modulus.
Hypothesis Hmax : 0 <= MaxPayloadSize.

Lemma multicast_repr_new q : SPMCMulticastQueue_new cap = returns q -> multicast_repr q [].
Proof using Hcap Hmax.
  unfold SPMCMulticastQueue_new. case_tests; [done |]. intros [= <-]. split; simpl; try done.
  - by rewrite length_replicate.
  - by apply Forall_replicate, fresh_message_wf.
  - unfold span_size. simpl. lia.
Qed.

Lemma publish_locked_repr q l payload :
  multicast_repr q l -> span_size payload <= MaxPayloadSize -> span_size l + 1 < u64_modulus ->
  exists q', publish_locked q payload = Some (mkWrite success (span_size l + 1), q') /\
             multicast_repr q' (l ++ [payload]).
Proof using Hcap.
  intros [Hc Hlen Hp Hs Hr] Hfit Hb. pose proof (span_size_nonneg l) as Hn.
  unfold publish_locked, slot_index. rewrite Hc, Hp.
  rewrite (u64_small (span_size l + 1)) by lia. rewrite (u64_small (_ - 1)) by lia.
  set (i := slot_of ((span_size l + 1 - 1) mod cap)).
  assert (Hi : (i < length (slots_ q))%nat) by (apply ring_slot_lt; [lia | by rewrite Hlen]).
  destruct (lookup_lt_is_Some_2 _ _ Hi) as [slot Hslot]. rewrite Hslot. simpl.
  pose proof (assign_wf MaxPayloadSize slot payload (span_size l + 1)
                (Forall_lookup_1 _ _ _ _ Hs Hslot)) as Hwf.
  pose proof (assign_message_of MaxPayloadSize slot payload (span_size l + 1) Hfit) as Hmsg.
  rewrite (assign_fits _ _ _ _ Hfit) in *. simpl in *. eexists. split; [done |].
  assert (El : span_size (l ++ [payload]) = span_size l + 1)
    by (unfold span_size; rewrite length_app; simpl; lia).
  split; simpl; try done.
  - by rewrite length_insert.
  - by apply Forall_insert.
  - rewrite El. intros s Hs1 Hs2. destruct (decide (s = span_size l + 1)) as [-> | Hne].
    + eexists. split; [by apply list_lookup_insert_eq |]. rewrite Hmsg. unfold entry. f_equal.
      replace (Z.to_nat (span_size l + 1 - 1)) with (length l) by (unfold span_size; lia).
      by rewrite lookup_app_r, Nat.sub_diag by lia.
    + destruct (Hr s Hs1 ltac:(lia)) as (m & Hm & Em). exists m. rewrite entry_app by lia.
      split; [| done]. rewrite list_lookup_insert_ne; [done |].
      apply ring_slot_ne; lia.
Qed.

Lemma try_read_repr q l c destination :
  multicast_repr q l -> span_size l + 1 < u64_modulus -> queue_ c = true ->
  try_read q c destination = Some (mc_read cap l c destination).
Proof using Hcap.
  intros [Hc Hlen Hp Hs Hr] Hb Hq. pose proof (span_size_nonneg l) as Hn.
  unfold try_read, mc_read, slot_index. rewrite Hc, Hp, Hq. simpl.
  replace (if cap <=? span_size l then (span_size l -u cap) +u 1 else 1)
    with (oldest cap l).
  2: { unfold oldest. destruct (Z.leb_spec cap (span_size l)); [| done].
       rewrite (u64_small (_ - cap)), u64_small; lia. }
  pose proof (oldest_pos cap ltac:(lia) l).
  destruct (Z.ltb_spec (span_size l) (next_sequence_ c)); [done |].
  destruct (Z.ltb_spec (next_sequence_ c) (oldest cap l)) as [| Ho]; [done |].
  destruct (Hr (next_sequence_ c)) as (m & Hm & Em); [lia | |].
  { split; [| done]. unfold oldest in Ho. case_tests_in Ho; lia. }
  rewrite (u64_small (_ - 1)) by lia. rewrite Hm. simpl.
  unfold sequence. rewrite (copy_to_deliver MaxPayloadSize m destination)
    by (by eapply Forall_lookup_1).
  rewrite Em. injection Em as -> _. rewrite Z.eqb_refl. simpl.
  destruct (deliver _ _) as [r d]. rewrite (u64_small (_ + 1)) by lia. by destruct c; simplify_eq/=.
Qed.

(** The locked bodies implement the contract. *)
Definition mc_rel (n : nat) (q : SPMCMulticastQueue) (l : log) : Prop :=
  multicast_repr q l /\ span_size l <= Z.of_nat n.

Definition mc_bounded (n : nat) : Prop := Z.of_nat n < u64_modulus.

Abbreviation contract := (mc_spec MaxPayloadSize cap false []).

Lemma mc_early_spec n q l o r :
  mc_rel n q l -> mc_early o = Some r -> contract l o r l.
Proof.
  intros _ He. destruct o as [payload | | c d |]; simpl in He; try done.
  - destruct (MaxPayloadSize <? span_size payload) eqn:E; [| done]. simplify_eq.
    constructor. unfold mc_publish. by rewrite E.
  - destruct (negb (queue_ c)) eqn:E; [| done]. simplify_eq.
    constructor. unfold mc_read. by rewrite E.
Qed.

Lemma mc_body_spec n q l o :
  mc_bounded (S n) -> mc_rel n q l -> mc_early o = None ->
  exists r q' l', mc_body q o = Some (r, q') /\ contract l o r l' /\ mc_rel (S n) q' l'.
Proof using Hcap.
  intros Hb [HR Hn] He. unfold mc_bounded in Hb. pose proof (span_size_nonneg l) as Hl.
  assert (Hsame : mc_rel (S n) q l) by (split; [done | lia]).
  destruct o as [payload | | c d |]; simpl in *.
  - destruct (Z.ltb_spec MaxPayloadSize (span_size payload)) as [| Hfit]; [done |].
    destruct (publish_locked_repr q l payload HR Hfit ltac:(lia)) as (q' & Hq & HR').
    rewrite Hq. simpl. eexists _, _, _. split; [done |]. split.
    + constructor. unfold mc_publish. by rewrite (proj2 (Z.ltb_ge _ _)).
    + split; [done |]. unfold span_size. rewrite length_app. simpl. unfold span_size in Hn. lia.
  - eexists _, _, _. split; [done |]. split; [| done]. unfold register_consumer.
    rewrite (mr_published _ _ HR), u64_small by lia. constructor.
  - destruct (queue_ c) eqn:Eq; [| done]. rewrite (try_read_repr q l c d HR) by (done || lia).
    destruct (mc_read cap l c d) as [[r c'] d'] eqn:Er. simpl.
    eexists _, _, _. split; [done |]. split; [by constructor | done].
  - eexists _, _, _. split; [done |]. split; [| done]. unfold published_sequence.
    rewrite (mr_published _ _ HR). constructor.
Qed.

Lemma mc_exec_sim q k n h p :
  SPMCMulticastQueue_new cap = returns q -> mc_bounded n ->
  exec (pool_step (ConcurrentObject0 := lock_object mc_early mc_body)) n (lock_init q k) h p ->
  exists m c, exec (canon_step (strict contract)) m (mkPool [] (replicate k Idle)) h c /\
    lock_sim mc_early mc_rel n p c.
Proof using Hcap Hmax.
  intros Hq Hb Hex. eapply locked_exec_sim with (bounded := mc_bounded); [ | | | | exact Hb | | exact Hex].
  - unfold mc_bounded. lia.
  - intros m g a [H1 H2]. split; [done | lia].
  - apply mc_early_spec.
  - apply mc_body_spec.
  - split; [by apply multicast_repr_new | by unfold span_size].
Qed.

(** ** A consumer session of the code *)

Inductive client_op : Type :=
| Publish (payload : list byte)
| Read (destination : list byte).

Fixpoint run_session (q : SPMCMulticastQueue) (c : Consumer) (os : list client_op)
    : option (list (ReadResult * list byte) * SPMCMulticastQueue * Consumer) :=
  match os with
  | [] => Some ([], q, c)
  | Publish payload :: os => '(_, q') ← try_publish q payload; run_session q' c os
  | Read destination :: os =>
      '(r, c', d) ← Consumer_try_read q c destination;
      '(tr, q', c'') ← run_session q c' os;
      Some ((r, d) :: tr, q', c'')
  end.

(** The payloads the queue accepts. *)
Definition accepted (os : list client_op) : log :=
  omap (fun o => match o with
                 | Publish payload =>
                     if MaxPayloadSize <? span_size payload then None else Some payload
                 | Read _ => None
                 end) os.

Lemma accepted_size os : span_size (accepted os) <= Z.of_nat (length os).
Proof.
  unfold accepted, span_size. induction os as [| [payload | d] os IH]; cbn -[Z.of_nat]; [lia | | lia].
  case_tests; cbn -[Z.of_nat]; lia.
Qed.

Lemma run_session_publish_only ps : forall q c tr q' c',
  run_session q c (Publish <$> ps) = Some (tr, q', c') -> tr = [] /\ c' = c.
Proof.
  induction ps as [| payload ps IH]; intros q c tr q' c' H; simpl in H; [by simplify_eq |].
  destruct (try_publish q payload) as [[r q1] |]; simpl in H; [by eapply IH | done].
Qed.

Lemma run_session_spec os : forall q l c l0 c0 tr0,
  multicast_repr q l -> queue_ c = true -> span_size l + Z.of_nat (length os) + 1 < u64_modulus ->
  session MaxPayloadSize cap false l0 c0 tr0 l c ->
  exists tr q' c', run_session q c os = Some (tr, q', c') /\
    multicast_repr q' (l ++ accepted os) /\ queue_ c' = true /\
    session MaxPayloadSize cap false l0 c0 (tr0 ++ tr) (l ++ accepted os) c'.
Proof using Hcap.
  induction os as [| [payload | d] os IH]; intros q l c l0 c0 tr0 HR Hq Hb Hs; simpl in *.
  - exists [], q, c. by rewrite !app_nil_r.
  - unfold try_publish. case_tests; simpl; [apply IH; [done.. | lia | done] |].
    destruct (publish_locked_repr q l payload HR) as (q' & Hp & HR'); [lia | lia |].
    rewrite Hp. simpl. rewrite (cons_middle payload), app_assoc. apply IH; [done | done | | ].
    + unfold span_size in *. rewrite length_app. simpl. lia.
    + by apply session_publish.
  - unfold Consumer_try_read. rewrite Hq. simpl. rewrite (try_read_repr q l c d HR) by (done || lia).
    destruct (mc_read cap l c d) as [[r c1] d'] eqn:Er. simpl.
    assert (Hread : mc_spec MaxPayloadSize cap false [] l (McRead c d) (McReadDone r c1 d') l)
      by (by constructor).
    destruct (IH q l c1 l0 c0 (tr0 ++ [(r, d')])) as (tr & q' & c' & Hrun & HR' & Hq' & Hs').
    { done. }
    { unfold mc_read in Er. rewrite Hq in Er. simpl in Er. case_tests_in Er; simplify_eq/=; try done.
      destruct (deliver _ _). simplify_eq. by destruct (ok _). }
    { lia. }
    { by eapply session_read. }
    rewrite Hrun. simpl. eexists _, _, _. split; [done |]. split; [done |]. split; [done |].
    by rewrite (cons_middle (r, d')), app_assoc.
Qed.

End representation.

End SPMCMulticastQueue.

(** ** Theorems *)

(** C7: Every interleaving of any number of threads calling [try_publish],
    [register_consumer], [Consumer::try_read] and [published_sequence] on one
    [SPMCMulticastQueue] is linearizable to the multicast contract: numbered
    publications, the last [capacity] retained, lagging consumers told to resume
    at the oldest retained one.  The bound on the number of steps keeps the
    64-bit sequence from wrapping. *)
Theorem multicast_linearizable MaxPayloadSize cap q k n h p :
  0 <= MaxPayloadSize -> 0 <= cap < u64_modulus ->
  SPMCMulticastQueue_new MaxPayloadSize cap = returns q ->
  Z.of_nat n < u64_modulus ->
  exec (pool_step (ConcurrentObject0 := lock_object (mc_early MaxPayloadSize) (mc_body MaxPayloadSize)))
    n (lock_init q k) h p ->
  linearizable (strict (mc_spec MaxPayloadSize cap false [])) [] k h.
Proof.
  intros Hmax Hc Hq Hb Hex. assert (0 < cap < u64_modulus).
  { unfold SPMCMulticastQueue_new in Hq. case_tests_in Hq; [done | lia]. }
  destruct (mc_exec_sim MaxPayloadSize cap ltac:(done) Hmax q k n h p Hq Hb Hex) as (m & c & Hm & _).
  by exists m, c.
Qed.

(** At most one thread is between locking and unlocking the mutex, no
    thread indexes the ring out of range, and no read ever takes the
    [overwritten] branch of [try_read]: under the lock a retained sequence is
    always found in its slot. *)
Theorem multicast_safe MaxPayloadSize cap q k n h p :
  0 <= MaxPayloadSize -> 0 <= cap < u64_modulus ->
  SPMCMulticastQueue_new MaxPayloadSize cap = returns q ->
  Z.of_nat n < u64_modulus ->
  exec (pool_step (ConcurrentObject0 := lock_object (mc_early MaxPayloadSize) (mc_body MaxPayloadSize)))
    n (lock_init q k) h p ->
  (forall t1 t2 l1 l2, threads p !! t1 = Some l1 -> threads p !! t2 = Some l2 ->
     holds_lock l1 -> holds_lock l2 -> t1 = t2) /\
  (forall t, threads p !! t <> Some LFault) /\
  (forall c destination r c' destination',
     Consumer_try_read (guarded (shared p)) c destination = Some (r, c', destination') ->
     Z.of_nat n + 1 < u64_modulus -> r_status r <> overwritten).
Proof.
  intros Hmax Hc Hq Hb Hex. assert (0 < cap < u64_modulus) as Hcap.
  { unfold SPMCMulticastQueue_new in Hq. case_tests_in Hq; [done | lia]. }
  destruct (mc_exec_sim MaxPayloadSize cap Hcap Hmax q k n h p Hq Hb Hex) as (m & c & Hm & Hsim).
  split; [exact (proj2 (mutual_exclusion _ _ _ _ _ _ _ Hex)) |]. split.
  - intros t. by eapply lock_sim_no_fault.
  - intros c0 d r c' d' Hr Hn. destruct Hsim as [[HR Hlen] _]. unfold Consumer_try_read in Hr.
    destruct (queue_ c0) eqn:Hqc; simpl in Hr; [| by simplify_eq].
    rewrite (try_read_repr _ cap Hcap _ _ _ _ HR) in Hr by (done || lia).
    unfold mc_read in Hr. rewrite Hqc in Hr. simpl in Hr. case_tests_in Hr; simplify_eq/=; try done.
    unfold deliver in Hr. case_tests_in Hr; by simplify_eq/=.
Qed.

(** C15: A consumer registered after any publications reads, while any further
    calls publish, exactly what was published: the run never fails, deliveries
    come in order without duplicates, each with the bytes published under its
    number, nothing is skipped unless a read reported [consumer_lagged], and no
    loss is reported while fewer than [capacity] publications have arrived since
    the registration. *)
Theorem multicast_session MaxPayloadSize cap q0 before os :
  0 <= MaxPayloadSize -> 0 <= cap < u64_modulus ->
  SPMCMulticastQueue_new MaxPayloadSize cap = returns q0 ->
  Z.of_nat (length before) + Z.of_nat (length os) + 1 < u64_modulus ->
  exists q1 tr q2 c,
    run_session MaxPayloadSize q0 (Consumer_new 1) (Publish <$> before) = Some ([], q1, Consumer_new 1) /\
    run_session MaxPayloadSize q1 (register_consumer q1) os = Some (tr, q2, c) /\
    session_sound cap (accepted MaxPayloadSize (Publish <$> before)) tr
      (accepted MaxPayloadSize (Publish <$> before) ++ accepted MaxPayloadSize os) (next_sequence c).
Proof.
  intros Hmax Hc Hq Hb. assert (0 < cap < u64_modulus) as Hcap.
  { unfold SPMCMulticastQueue_new in Hq. case_tests_in Hq; [done | lia]. }
  pose proof (multicast_repr_new MaxPayloadSize cap Hcap Hmax q0 Hq) as HR0.
  destruct (run_session_spec MaxPayloadSize cap Hcap (Publish <$> before) q0 [] (Consumer_new 1)
    [] (Consumer_new 1) []) as (tr0 & q1 & c1 & Hrun1 & HR1 & _).
  { done. }
  { done. }
  { rewrite length_fmap. unfold span_size. simpl. lia. }
  { constructor. }
  destruct (run_session_publish_only _ _ _ _ _ _ _ Hrun1) as [-> ->]. simpl in HR1.
  set (l0 := accepted MaxPayloadSize (Publish <$> before)) in *.
  assert (Hl0 : span_size l0 <= Z.of_nat (length before)).
  { rewrite <- (length_fmap Publish before). apply accepted_size. }
  assert (Ereg : register_consumer q1 = Consumer_new (span_size l0 + 1)).
  { unfold register_consumer. rewrite (mr_published _ _ _ _ HR1), u64_small; [done |].
    pose proof (span_size_nonneg l0). lia. }
  destruct (run_session_spec MaxPayloadSize cap Hcap os q1 l0 (register_consumer q1)
    l0 (register_consumer q1) []) as (tr & q2 & c & Hrun2 & _ & _ & Hs).
  { done. }
  { done. }
  { lia. }
  { constructor. }
  exists q1, tr, q2, c. split; [done |]. split; [done |]. rewrite Ereg in Hs.
  by apply session_is_sound in Hs as [_ Hs]; [| lia].
Qed.

(** ** Witnesses *)

Definition two_bytes : list byte := [Byte.x61; Byte.x62].
Definition one_byte : list byte := [Byte.x63].
Definition buffer : list byte := replicate 4 Byte.x00.

Definition small_multicast : SPMCMulticastQueue :=
  mkMulticast 2 (replicate 2 (fresh_message 4)) 0.

(** Thread 0 publishes while thread 1 registers, is overtaken, and then reads. *)
Definition multicast_schedule : list (choice McOp) :=
  [DoCall 0 (McPublish two_bytes); DoCall 1 McRegister; DoStep 0 0; DoStep 1 0; DoStep 1 0;
   DoStep 1 0; DoStep 1 0; DoRet 1; DoStep 0 0; DoCall 1 (McRead (Consumer_new 1) buffer);
   DoStep 1 0; DoStep 0 0; DoStep 0 0; DoRet 0; DoStep 1 0; DoStep 1 0; DoStep 1 0; DoRet 1].

Definition multicast_history : list (event McOp McRes) :=
  [Call 0 (McPublish two_bytes); Call 1 McRegister; Ret 1 (McRegistered (Consumer_new 1));
   Call 1 (McRead (Consumer_new 1) buffer); Ret 0 (McWritten (mkWrite success 1));
   Ret 1 (McReadDone (mkRead success 2 1) (Consumer_new 2)
     [Byte.x61; Byte.x62; Byte.x00; Byte.x00])].

Lemma multicast_schedule_runs :
  run_schedule (ConcurrentObject0 := lock_object (mc_early 4) (mc_body 4)) (lock_init small_multicast 2)
    multicast_schedule =
  Some (multicast_history,
        mkPool (mkLocked false (mkMulticast 2
          [mkMessage [Byte.x61; Byte.x62; Byte.x00; Byte.x00] 2 1; fresh_message 4] 1))
          [LIdle; LIdle]).
Proof. vm_compute. reflexivity. Qed.

Lemma multicast_linearizable_witness :
  linearizable (strict (mc_spec 4 2 false [])) [] 2 multicast_history.
Proof.
  eapply (multicast_linearizable 4 2 small_multicast 2 (length multicast_schedule));
    [lia | by vm_compute | done | by vm_compute |].
  apply run_schedule_exec, multicast_schedule_runs.
Defined.

Lemma multicast_safe_witness :
  Forall (fun l => l <> LFault) (replicate 2 (@LIdle McOp McRes)) /\
  forall destination r c' destination',
    Consumer_try_read (mkMulticast 2
      [mkMessage [Byte.x61; Byte.x62; Byte.x00; Byte.x00] 2 1; fresh_message 4] 1)
      (Consumer_new 1) destination = Some (r, c', destination') -> r_status r <> overwritten.
Proof.
  destruct (multicast_safe 4 2 small_multicast 2 (length multicast_schedule) multicast_history _
    ltac:(lia) ltac:(by vm_compute) eq_refl ltac:(by vm_compute)
    (run_schedule_exec _ _ _ _ multicast_schedule_runs)) as (_ & Hf & Ho).
  split.
  - apply Forall_lookup. intros t l Hl ->. by apply (Hf t).
  - intros d r c' d' H. by apply (Ho _ _ _ _ _ H).
Defined.

(** Capacity two: the consumer falls three publications behind, is told so, and
    then reads the two retained ones. *)
Lemma multicast_session_witness :
  exists q1 tr q2 c,
    run_session 4 q1 (register_consumer q1)
      [Publish one_byte; Publish two_bytes; Publish []; Read buffer; Read buffer; Read []]
      = Some (tr, q2, c) /\
    delivered tr = [3; 4] /\ next_sequence c = 5 /\
    session_sound 2 [two_bytes] tr [two_bytes; one_byte; two_bytes; []] 5.
Proof.
  destruct (multicast_session 4 2 small_multicast [two_bytes]
    [Publish one_byte; Publish two_bytes; Publish []; Read buffer; Read buffer; Read []]
    ltac:(lia) ltac:(by vm_compute) eq_refl ltac:(by vm_compute))
    as (q1 & tr & q2 & c & H1 & H2 & H3).
  vm_compute in H1. injection H1 as <-. pose proof H2 as E. vm_compute in E. injection E as <- _ <-.
  eexists _, _, q2, _. split; [exact H2 |].
  split; [by vm_compute |]. split; [done | exact H3].
Defined.
