(* ===== verification/VersionedSPMCQueue.v ===== *)
(** * The mutex-free multicast queue ([include/orbitqueue/versioned_spmc_queue.h])

    A ring of cells, each guarded by a version counter (a seqlock): odd while the
    producer rewrites the cell, even when it is readable.  This file translates
    the class member by member, running alone; [VersionedConcurrent.v] splits
    [try_publish] and [read] at their shared accesses. *)

From S2P Require Import Prelude Result FixedMessage Concurrency MulticastContract.

Record Cell : Type := mkCell {
  version : Z;
  c_sequence : Z;
  c_size : Z;
  storage : list byte;
}.

Record VersionedSPMCQueue : Type := mkVersioned {
  capacity_ : Z;
  cells_ : list Cell;
  produced_ : Z;
  published_ : Z;
}.

(** The locals of [read] that the seqlock loop fills. *)
Record snapshot : Type := mkSnapshot {
  stored_sequence : Z;
  stored_size : Z;
  scratch : list byte;
}.

(** The relaxed stores to the members of a cell. *)
Definition set_version (cell : Cell) (v : Z) : Cell :=
  mkCell v (c_sequence cell) (c_size cell) (storage cell).
Definition set_sequence (cell : Cell) (v : Z) : Cell :=
  mkCell (version cell) v (c_size cell) (storage cell).
Definition set_size (cell : Cell) (v : Z) : Cell :=
  mkCell (version cell) (c_sequence cell) v (storage cell).
Definition set_byte (cell : Cell) (i : nat) (b : byte) : Cell :=
  mkCell (version cell) (c_sequence cell) (c_size cell) (<[i := b]> (storage cell)).

Definition set_cell (q : VersionedSPMCQueue) (i : nat) (cell : Cell) : VersionedSPMCQueue :=
  mkVersioned (capacity_ q) (<[i := cell]> (cells_ q)) (produced_ q) (published_ q).
Definition set_produced (q : VersionedSPMCQueue) (v : Z) : VersionedSPMCQueue :=
  mkVersioned (capacity_ q) (cells_ q) v (published_ q).
Definition set_published (q : VersionedSPMCQueue) (v : Z) : VersionedSPMCQueue :=
  mkVersioned (capacity_ q) (cells_ q) (produced_ q) v.

Definition read_attempts : nat := 64.

Definition validate_capacity (capacity : Z) : throwing Z :=
  if capacity =? 0
  then throw (invalid_argument "VersionedSPMCQueue capacity must be greater than zero")
  else returns capacity.

Definition cell_index (q : VersionedSPMCQueue) (sequence : Z) : nat :=
  slot_of ((sequence -u 1) mod capacity_ q).

Definition oldest_retained (q : VersionedSPMCQueue) (published : Z) : Z :=
  if capacity_ q <=? published then (published -u capacity_ q) +u 1 else 1.

Definition resume_after_overwrite (q : VersionedSPMCQueue) (want : Z) : Z :=
  let refreshed := oldest_retained q (published_ q) in
  if want <? refreshed then refreshed else want.

Definition make_consumer (q : VersionedSPMCQueue) : Consumer := Consumer_new (published_ q +u 1).

Definition register_consumer (q : VersionedSPMCQueue) : Consumer := make_consumer q.

Definition capacity (q : VersionedSPMCQueue) : Z := capacity_ q.

Definition published_sequence (q : VersionedSPMCQueue) : Z := published_ q.

Section VersionedSPMCQueue.

Context (MaxPayloadSize : Z).

Definition fresh_cell : Cell := mkCell 0 0 0 (replicate (Z.to_nat MaxPayloadSize) Byte.x00).

Definition VersionedSPMCQueue_new (capacity : Z) : throwing VersionedSPMCQueue :=
  match validate_capacity capacity with
  | inl e => throw e
  | inr capacity => returns (mkVersioned capacity (replicate (Z.to_nat capacity) fresh_cell) 0 0)
  end.

(** [for (index = 0; index < payload.size(); ++index) storage[index] = payload[index]] *)
Fixpoint store_bytes (cell : Cell) (index : nat) (payload : list byte) : option Cell :=
  match payload with
  | [] => Some cell
  | b :: payload =>
      _ ← storage cell !! index;
      store_bytes (set_byte cell index b) (S index) payload
  end.

(** The seqlock write and the publication of its sequence. *)
Definition try_publish (q : VersionedSPMCQueue) (payload : list byte)
    : option (WriteResult * VersionedSPMCQueue) :=
  if MaxPayloadSize <? span_size payload then Some (mkWrite message_too_large 0, q)
  else
    let sequence := produced_ q +u 1 in
    let i := cell_index q sequence in
    cell ← cells_ q !! i;
    let v := version cell in
    let cell := set_version cell (v +u 1) in
    let cell := set_size (set_sequence cell sequence) (span_size payload) in
    cell ← store_bytes cell 0 payload;
    let cell := set_version cell (v +u 2) in
    Some (mkWrite success sequence,
          set_published (set_produced (set_cell q i cell) sequence) sequence).

Definition try_push (q : VersionedSPMCQueue) (payload : list byte)
    : option (WriteResult * VersionedSPMCQueue) := try_publish q payload.

(** [for (index = 0; index < MaxPayloadSize; ++index) scratch[index] = storage[index]],
    [n] iterations before the end. *)
Fixpoint load_bytes (cell : Cell) (scratch : list byte) (index n : nat) : option (list byte) :=
  match n with
  | O => Some scratch
  | S n =>
      b ← storage cell !! index;
      load_bytes cell (<[index := b]> scratch) (S index) n
  end.

(** The retry loop, with [attempts] iterations left; the flag is [stable]. *)
Fixpoint seqlock_read (q : VersionedSPMCQueue) (i : nat) (snap : snapshot) (attempts : nat)
    : option (bool * snapshot) :=
  match attempts with
  | O => Some (false, snap)
  | S attempts =>
      cell ← cells_ q !! i;
      let before := version cell in
      if negb (Z.land before 1 =? 0) then seqlock_read q i snap attempts
      else
        scratch' ← load_bytes cell (scratch snap) 0 (Z.to_nat MaxPayloadSize);
        let snap := mkSnapshot (c_sequence cell) (c_size cell) scratch' in
        let after := version cell in
        if before =? after then Some (true, snap) else seqlock_read q i snap attempts
  end.

Definition fresh_snapshot : snapshot :=
  mkSnapshot 0 0 (replicate (Z.to_nat MaxPayloadSize) Byte.x00).

Definition read (q : VersionedSPMCQueue) (consumer : Consumer) (destination : list byte)
    : option (ReadResult * Consumer * list byte) :=
  let published := published_ q in
  if published <? next_sequence_ consumer
  then Some (mkRead empty 0 (next_sequence_ consumer), consumer, destination)
  else
    let oldest := oldest_retained q published in
    if next_sequence_ consumer <? oldest
    then Some (mkRead consumer_lagged 0 oldest, mkConsumer (queue_ consumer) oldest, destination)
    else
      let want := next_sequence_ consumer in
      '(stable, snap) ← seqlock_read q (cell_index q want) fresh_snapshot read_attempts;
      if negb stable || negb (stored_sequence snap =? want) then
        let resume := resume_after_overwrite q want in
        Some (mkRead overwritten 0 resume, mkConsumer (queue_ consumer) resume, destination)
      else if span_size destination <? stored_size snap
      then Some (mkRead message_too_large 0 want, consumer, destination)
      else Some (mkRead success (stored_size snap) want,
                 mkConsumer (queue_ consumer) (next_sequence_ consumer +u 1),
                 std_copy_n (scratch snap) (stored_size snap) destination).

(** [Consumer::try_read] and its alias. *)
Definition Consumer_try_read (q : VersionedSPMCQueue) (c : Consumer) (destination : list byte)
    : option (ReadResult * Consumer * list byte) :=
  if negb (queue_ c) then Some (mkRead invalid_consumer 0 (next_sequence_ c), c, destination)
  else read q c destination.

Definition Consumer_try_pop (q : VersionedSPMCQueue) (c : Consumer) (destination : list byte)
    : option (ReadResult * Consumer * list byte) := Consumer_try_read q c destination.

End VersionedSPMCQueue.
