(* ===== verification/VersionedConcurrent.v ===== *)
(** * Concurrent use of [VersionedSPMCQueue]

    [try_publish] and [Consumer::try_read] split at every access to shared
    memory, down to the single bytes of a cell, so that a reader may overlap a
    writer anywhere.  One thread publishes; every thread may register, read and
    ask for the published sequence.  The interleaving is sequentially consistent.

    The proof keeps two facts about a reader in its retry loop: the version of
    its cell is not below the one it read first, and as long as it is equal,
    everything copied so far is what the cell holds now.  Theorems: linearizable
    to the lossy multicast contract (in particular a delivered message is never
    torn), wait-free, and the split code computes what the member functions
    compute. *)

From S2P Require Import Prelude Result FixedMessage Concurrency Speculation.
From S2P Require Import MulticastContract VersionedSPMCQueue.

Inductive versioned_pc : Type :=
| VIdle
| VPublishStart (payload : list byte)
| VLoadVersion (payload : list byte) (sequence : Z)
| VStoreOdd (payload : list byte) (sequence ver : Z)
| VStoreSequence (payload : list byte) (sequence ver : Z)
| VStoreSize (payload : list byte) (sequence ver : Z)
| VStoreByte (payload : list byte) (sequence ver : Z) (index : nat)
| VStoreEven (payload : list byte) (sequence ver : Z)
| VStoreProduced (payload : list byte) (sequence : Z)
| VStorePublished (payload : list byte) (sequence : Z)
| VRegisterStart
| VPublishedStart
| VReadStart (c : Consumer) (destination : list byte)
| VLoadPublished (c : Consumer) (destination : list byte)
| VLoadBefore (c : Consumer) (destination : list byte) (snap : snapshot) (attempts : nat)
| VLoadSequence (c : Consumer) (destination : list byte) (snap : snapshot) (attempts : nat) (before : Z)
| VLoadSize (c : Consumer) (destination : list byte) (snap : snapshot) (attempts : nat) (before : Z)
| VLoadByte (c : Consumer) (destination : list byte) (snap : snapshot) (attempts : nat) (before : Z)
    (index : nat)
| VLoadAfter (c : Consumer) (destination : list byte) (snap : snapshot) (attempts : nat) (before : Z)
| VRefresh (c : Consumer) (destination : list byte)
| VDone (r : McRes)
| VOutOfBounds.

(** A thread: may it publish, and where it is. *)
Record versioned_thread : Type := mkThread {
  is_producer : bool;
  pc : versioned_pc;
}.

Section VersionedConcurrent.

Context (MaxPayloadSize : Z).

Definition versioned_call (th : versioned_thread) (o : McOp) : option versioned_thread :=
  match pc th, o with
  | VIdle, McPublish payload =>
      if is_producer th then Some (mkThread true (VPublishStart payload)) else None
  | VIdle, McRegister => Some (mkThread (is_producer th) VRegisterStart)
  | VIdle, McRead c destination => Some (mkThread (is_producer th) (VReadStart c destination))
  | VIdle, McPublished => Some (mkThread (is_producer th) VPublishedStart)
  | _, _ => None
  end.

(** The next attempt of the retry loop, or the exit with [stable == false].
    [attempts] counts the iterations left. *)
Definition retry (c : Consumer) (d : list byte) (snap : snapshot) (attempts : nat) : versioned_pc :=
  match attempts with
  | O => VRefresh c d
  | S attempts => VLoadBefore c d snap attempts
  end.

(** What [read] does once the loop has ended with [stable == true]. *)
Definition consume (c : Consumer) (d : list byte) (snap : snapshot) : versioned_pc :=
  let want := next_sequence_ c in
  if negb (stored_sequence snap =? want) then VRefresh c d
  else if span_size d <? stored_size snap
  then VDone (McReadDone (mkRead message_too_large 0 want) c d)
  else VDone (McReadDone (mkRead success (stored_size snap) want)
                (mkConsumer (queue_ c) (next_sequence_ c +u 1))
                (std_copy_n (scratch snap) (stored_size snap) d)).

(** One access to the cell of [sequence]; a subscript outside the ring has no
    defined behaviour. *)
Definition at_cell (q : VersionedSPMCQueue) (sequence : Z)
    (f : Cell -> VersionedSPMCQueue * versioned_pc) : list (VersionedSPMCQueue * versioned_pc) :=
  match cells_ q !! cell_index q sequence with
  | Some cell => [f cell]
  | None => [(q, VOutOfBounds)]
  end.

Definition store_at (q : VersionedSPMCQueue) (sequence : Z) (cell : Cell) : VersionedSPMCQueue :=
  set_cell q (cell_index q sequence) cell.

Definition publish_step (q : VersionedSPMCQueue) (l : versioned_pc)
    : list (VersionedSPMCQueue * versioned_pc) :=
  match l with
  | VPublishStart payload =>
      if MaxPayloadSize <? span_size payload
      then [(q, VDone (McWritten (mkWrite message_too_large 0)))]
      else [(q, VLoadVersion payload (produced_ q +u 1))]
  | VLoadVersion payload sequence =>
      at_cell q sequence (fun cell => (q, VStoreOdd payload sequence (version cell)))
  | VStoreOdd payload sequence ver =>
      at_cell q sequence (fun cell =>
        (store_at q sequence (set_version cell (ver +u 1)), VStoreSequence payload sequence ver))
  | VStoreSequence payload sequence ver =>
      at_cell q sequence (fun cell =>
        (store_at q sequence (set_sequence cell sequence), VStoreSize payload sequence ver))
  | VStoreSize payload sequence ver =>
      at_cell q sequence (fun cell =>
        (store_at q sequence (set_size cell (span_size payload)), VStoreByte payload sequence ver 0))
  | VStoreByte payload sequence ver index =>
      match payload !! index with
      | None => [(q, VStoreEven payload sequence ver)]
      | Some b =>
          at_cell q sequence (fun cell =>
            match storage cell !! index with
            | None => (q, VOutOfBounds)
            | Some _ => (store_at q sequence (set_byte cell index b),
                         VStoreByte payload sequence ver (S index))
            end)
      end
  | VStoreEven payload sequence ver =>
      at_cell q sequence (fun cell =>
        (store_at q sequence (set_version cell (ver +u 2)), VStoreProduced payload sequence))
  | VStoreProduced payload sequence => [(set_produced q sequence, VStorePublished payload sequence)]
  | VStorePublished payload sequence =>
      [(set_published q sequence, VDone (McWritten (mkWrite success sequence)))]
  | _ => []
  end.

Definition read_step (q : VersionedSPMCQueue) (l : versioned_pc)
    : list (VersionedSPMCQueue * versioned_pc) :=
  match l with
  | VReadStart c d =>
      if negb (queue_ c)
      then [(q, VDone (McReadDone (mkRead invalid_consumer 0 (next_sequence_ c)) c d))]
      else [(q, VLoadPublished c d)]
  | VLoadPublished c d =>
      let published := published_ q in
      if published <? next_sequence_ c
      then [(q, VDone (McReadDone (mkRead empty 0 (next_sequence_ c)) c d))]
      else
        let oldest := oldest_retained q published in
        if next_sequence_ c <? oldest
        then [(q, VDone (McReadDone (mkRead consumer_lagged 0 oldest) (mkConsumer (queue_ c) oldest) d))]
        else [(q, retry c d (fresh_snapshot MaxPayloadSize) read_attempts)]
  | VLoadBefore c d snap attempts =>
      at_cell q (next_sequence_ c) (fun cell =>
        let before := version cell in
        (q, if negb (Z.land before 1 =? 0) then retry c d snap attempts
            else VLoadSequence c d snap attempts before))
  | VLoadSequence c d snap attempts before =>
      at_cell q (next_sequence_ c) (fun cell =>
        (q, VLoadSize c d (mkSnapshot (c_sequence cell) (stored_size snap) (scratch snap)) attempts before))
  | VLoadSize c d snap attempts before =>
      at_cell q (next_sequence_ c) (fun cell =>
        (q, VLoadByte c d (mkSnapshot (stored_sequence snap) (c_size cell) (scratch snap)) attempts before 0))
  | VLoadByte c d snap attempts before index =>
      if Z.of_nat index <? MaxPayloadSize then
        at_cell q (next_sequence_ c) (fun cell =>
          (q, match storage cell !! index with
              | None => VOutOfBounds
              | Some b => VLoadByte c d
                  (mkSnapshot (stored_sequence snap) (stored_size snap) (<[index := b]> (scratch snap)))
                  attempts before (S index)
              end))
      else [(q, VLoadAfter c d snap attempts before)]
  | VLoadAfter c d snap attempts before =>
      at_cell q (next_sequence_ c) (fun cell =>
        let after := version cell in
        (q, if before =? after then consume c d snap else retry c d snap attempts))
  | VRefresh c d =>
      let resume := resume_after_overwrite q (next_sequence_ c) in
      [(q, VDone (McReadDone (mkRead overwritten 0 resume) (mkConsumer (queue_ c) resume) d))]
  | _ => []
  end.

Definition versioned_step (q : VersionedSPMCQueue) (l : versioned_pc)
    : list (VersionedSPMCQueue * versioned_pc) :=
  match l with
  | VRegisterStart => [(q, VDone (McRegistered (register_consumer q)))]
  | VPublishedStart => [(q, VDone (McPublishedIs (published_sequence q)))]
  | _ => publish_step q l ++ read_step q l
  end.

Definition versioned_tstep (q : VersionedSPMCQueue) (th : versioned_thread)
    : list (VersionedSPMCQueue * versioned_thread) :=
  (fun x => (x.1, mkThread (is_producer th) x.2)) <$> versioned_step q (pc th).

Definition versioned_ret (th : versioned_thread) : option (McRes * versioned_thread) :=
  match pc th with
  | VDone r => Some (r, mkThread (is_producer th) VIdle)
  | _ => None
  end.

#[local] Instance versioned_object
    : ConcurrentObject McOp McRes VersionedSPMCQueue versioned_thread := {|
  call := versioned_call; tstep := versioned_tstep; ret := versioned_ret;
|}.

(** One publishing thread and [k] others over a fresh queue. *)
Definition versioned_init (q : VersionedSPMCQueue) (k : nat)
    : pool VersionedSPMCQueue versioned_thread :=
  mkPool q (mkThread true VIdle :: replicate k (mkThread false VIdle)).

(** ** The split code is the code *)

(** A thread running alone gets from [l] to [l']. *)
Definition runs (q : VersionedSPMCQueue) (l : versioned_pc) (q' : VersionedSPMCQueue)
    (l' : versioned_pc) : Prop :=
  forall b, exists fuel, solo fuel q (mkThread b l) = (q', mkThread b l').

Lemma runs_refl q l : runs q l q l.
Proof. intros b. by exists 0%nat. Qed.

Lemma runs_step q l q1 l1 q' l' :
  versioned_step q l = [(q1, l1)] -> runs q1 l1 q' l' -> runs q l q' l'.
Proof.
  intros H Hr b. destruct (Hr b) as [fuel Hf]. exists (S fuel). simpl. unfold versioned_tstep. simpl.
  by rewrite H.
Qed.

Lemma runs_trans q l q1 l1 q2 l2 : runs q l q1 l1 -> runs q1 l1 q2 l2 -> runs q l q2 l2.
Proof.
  intros H1 H2 b. destruct (H1 b) as [f1 E1], (H2 b) as [f2 E2]. exists (f1 + f2)%nat.
  rewrite <- E2. clear E2 H1 H2. revert q l E1. induction f1 as [| f1 IH]; intros q l E1.
  - simpl in E1. by simplify_eq.
  - simpl in E1 |- *. unfold versioned_tstep in *. simpl in *.
    destruct (versioned_step q l) as [| [q0 l0] rest] eqn:Es; simpl in *.
    + injection E1 as <- <-. destruct f2; simpl; [done |]. unfold versioned_tstep. simpl. by rewrite Es.
    + by apply IH.
Qed.

Lemma set_cell_twice q i c1 c2 : set_cell (set_cell q i c1) i c2 = set_cell q i c2.
Proof. unfold set_cell. simpl. by rewrite list_insert_insert_eq. Qed.

Lemma set_cell_lookup q i c0 c : cells_ q !! i = Some c0 -> cells_ (set_cell q i c) !! i = Some c.
Proof. intros H. simpl. apply list_lookup_insert_eq. by eapply lookup_lt_Some. Qed.

(** Either the run ends in [l'], or the model reaches a subscript out of range. *)
Definition runs_or_fails {A} (res : option A) (q : VersionedSPMCQueue) (l : versioned_pc)
    (k : A -> VersionedSPMCQueue * versioned_pc) : Prop :=
  match res with
  | Some a => runs q l (k a).1 (k a).2
  | None => exists q', runs q l q' VOutOfBounds
  end.

Lemma runs_or_fails_step {A} (res : option A) q l q1 l1 k :
  versioned_step q l = [(q1, l1)] -> runs_or_fails res q1 l1 k -> runs_or_fails res q l k.
Proof.
  unfold runs_or_fails. intros Hs. destruct res; [by apply runs_step |].
  intros [q' H]. exists q'. by eapply runs_step.
Qed.

Lemma store_bytes_runs p s v rest : forall q cell index,
  drop index p = rest -> cells_ q !! cell_index q s = Some cell ->
  runs_or_fails (store_bytes cell index rest) q (VStoreByte p s v index)
    (fun cell' => (set_cell q (cell_index q s) cell', VStoreEven p s v)).
Proof.
  induction rest as [| b rest IH]; intros q cell index Hd Hc; simpl.
  - eapply runs_step; [| unfold set_cell; rewrite list_insert_id by done; destruct q; apply runs_refl].
    simpl. rewrite app_nil_r. rewrite (lookup_ge_None_2 p index); [done |].
    apply (f_equal length) in Hd. rewrite length_drop in Hd. simpl in Hd. lia.
  - assert (Hb : p !! index = Some b).
    { rewrite <- (Nat.add_0_r index), <- lookup_drop, Hd. done. }
    assert (Hd' : drop (S index) p = rest) by (rewrite <- Nat.add_1_r, <- drop_drop, Hd; done).
    destruct (storage cell !! index) as [b0 |] eqn:Hs; simpl.
    + eapply runs_or_fails_step.
      { simpl. rewrite app_nil_r, Hb. unfold at_cell. by rewrite Hc, Hs. }
      pose proof (IH (store_at q s (set_byte cell index b)) (set_byte cell index b) (S index) Hd'
        (set_cell_lookup q _ _ _ Hc)) as H.
      unfold store_at in *. change (cell_index (set_cell q ?i ?c) s) with (cell_index q s) in H.
      unfold runs_or_fails in *. destruct (store_bytes _ _ _); [| done]. simpl in *.
      by rewrite set_cell_twice in H.
    + exists q. eapply runs_step; [| apply runs_refl]. simpl. rewrite app_nil_r, Hb.
      unfold at_cell. by rewrite Hc, Hs.
Qed.

Lemma publish_runs q p :
  runs_or_fails (try_publish MaxPayloadSize q p) q (VPublishStart p)
    (fun x => (x.2, VDone (McWritten x.1))).
Proof.
  unfold try_publish. destruct (MaxPayloadSize <? span_size p) eqn:Hfit.
  { eapply runs_step; [simpl; by rewrite Hfit | apply runs_refl]. }
  eapply runs_or_fails_step; [simpl; by rewrite Hfit |].
  set (s := produced_ q +u 1). destruct (cells_ q !! cell_index q s) as [cell |] eqn:Hc; simpl.
  2: { exists q. eapply runs_step; [| apply runs_refl]. simpl. rewrite app_nil_r. unfold at_cell. by rewrite Hc. }
  eapply runs_or_fails_step; [simpl; rewrite app_nil_r; unfold at_cell; by rewrite Hc |].
  eapply runs_or_fails_step; [simpl; rewrite app_nil_r; unfold at_cell; by rewrite Hc |].
  assert (Hi : forall c, cell_index (store_at q s c) s = cell_index q s) by done.
  assert (Hl : forall c, cells_ (store_at q s c) !! cell_index q s = Some c)
    by (intros c; by eapply set_cell_lookup).
  assert (Htw : forall c1 c2, store_at (store_at q s c1) s c2 = store_at q s c2)
    by (intros c1 c2; apply set_cell_twice).
  eapply runs_or_fails_step; [simpl; rewrite app_nil_r; unfold at_cell; by rewrite Hi, Hl, Htw |].
  eapply runs_or_fails_step; [simpl; rewrite app_nil_r; unfold at_cell; by rewrite Hi, Hl, Htw |].
  match goal with |- runs_or_fails _ (store_at q s ?c) (VStoreByte _ _ ?v _) _ =>
    pose proof (store_bytes_runs p s v p (store_at q s c) c 0 eq_refl (Hl c)) as H end.
  unfold runs_or_fails in *. destruct (store_bytes _ _ _) as [cell' |]; simpl; [| done].
  simpl in H. rewrite Hi in H.
  change (set_cell ?q' (cell_index q s) cell') with (store_at q' s cell') in H. rewrite Htw in H.
  eapply runs_trans; [exact H |].
  eapply runs_step; [simpl; rewrite app_nil_r; unfold at_cell; by rewrite Hi, Hl, Htw |].
  eapply runs_step; [done |]. eapply runs_step; [done |]. apply runs_refl.
Qed.

Lemma load_bytes_runs q c d cell a b : forall n snap index,
  (index + n = Z.to_nat MaxPayloadSize)%nat -> cells_ q !! cell_index q (next_sequence_ c) = Some cell ->
  runs_or_fails (load_bytes cell (scratch snap) index n) q (VLoadByte c d snap a b index)
    (fun scratch' => (q, VLoadAfter c d (mkSnapshot (stored_sequence snap) (stored_size snap) scratch') a b)).
Proof.
  induction n as [| n IH]; intros snap index Hn Hc; simpl.
  - eapply runs_step; [| destruct snap; apply runs_refl]. simpl.
    rewrite (proj2 (Z.ltb_ge _ _)) by lia. by destruct snap.
  - assert (Hlt : (Z.of_nat index <? MaxPayloadSize) = true) by (apply Z.ltb_lt; lia).
    destruct (storage cell !! index) as [x |] eqn:Hx; simpl.
    + eapply runs_or_fails_step; [simpl; rewrite Hlt; unfold at_cell; by rewrite Hc, Hx |].
      apply (IH (mkSnapshot _ _ _)); [lia | done].
    + exists q. eapply runs_step; [| apply runs_refl]. simpl. rewrite Hlt. unfold at_cell. by rewrite Hc, Hx.
Qed.

Lemma seqlock_runs q c d attempts : forall snap,
  runs_or_fails (seqlock_read MaxPayloadSize q (cell_index q (next_sequence_ c)) snap attempts)
    q (retry c d snap attempts)
    (fun x => (q, if x.1 then consume c d x.2 else VRefresh c d)).
Proof.
  induction attempts as [| a IH]; intros snap; simpl; [apply runs_refl |].
  destruct (cells_ q !! cell_index q (next_sequence_ c)) as [cell |] eqn:Hc; simpl.
  2: { exists q. eapply runs_step; [| apply runs_refl]. simpl. unfold at_cell. by rewrite Hc. }
  destruct (negb (Z.land (version cell) 1 =? 0)) eqn:Ho.
  { eapply runs_or_fails_step; [simpl; unfold at_cell; by rewrite Hc, Ho | apply IH]. }
  do 3 (eapply runs_or_fails_step; [simpl; unfold at_cell; by rewrite Hc, ?Ho |]).
  match goal with |- runs_or_fails _ _ (VLoadByte _ _ ?sn _ ?b _) _ =>
    pose proof (load_bytes_runs q c d cell a b (Z.to_nat MaxPayloadSize) sn 0 eq_refl Hc) as H end.
  simpl in H. unfold runs_or_fails in *. destruct (load_bytes _ _ _ _) as [sc |]; simpl in *; [| done].
  rewrite Z.eqb_refl. simpl. eapply runs_trans; [exact H |].
  eapply runs_step; [simpl; unfold at_cell; by rewrite Hc, Z.eqb_refl | apply runs_refl].
Qed.

Lemma read_runs q c d :
  runs_or_fails (Consumer_try_read MaxPayloadSize q c d) q (VReadStart c d)
    (fun x => (q, VDone (McReadDone x.1.1 x.1.2 x.2))).
Proof.
  unfold Consumer_try_read. destruct (negb (queue_ c)) eqn:Hq.
  { eapply runs_step; [simpl; by rewrite Hq | apply runs_refl]. }
  eapply runs_or_fails_step; [simpl; by rewrite Hq |]. unfold read.
  destruct (published_ q <? next_sequence_ c) eqn:E1.
  { eapply runs_step; [simpl; by rewrite E1 | apply runs_refl]. }
  destruct (next_sequence_ c <? oldest_retained q (published_ q)) eqn:E2.
  { eapply runs_step; [simpl; by rewrite E1, E2 | apply runs_refl]. }
  assert (Hstep : versioned_step q (VLoadPublished c d)
    = [(q, retry c d (fresh_snapshot MaxPayloadSize) read_attempts)]).
  { unfold versioned_step, publish_step, read_step. by rewrite E1, E2. }
  revert Hstep. generalize read_attempts as attempts. intros attempts Hstep.
  eapply runs_or_fails_step; [exact Hstep |].
  pose proof (seqlock_runs q c d attempts (fresh_snapshot MaxPayloadSize)) as H.
  unfold runs_or_fails in *. destruct (seqlock_read _ _ _ _ _) as [[stable snap] |]; [| done].
  assert (Hlast : runs q (VRefresh c d) q (VDone (McReadDone
    (mkRead overwritten 0 (resume_after_overwrite q (next_sequence_ c)))
    (mkConsumer (queue_ c) (resume_after_overwrite q (next_sequence_ c))) d)))
    by (eapply runs_step; [done | apply runs_refl]).
  simpl in *. destruct stable; simpl in *; [| by eapply runs_trans].
  unfold consume in H. destruct (negb (stored_sequence snap =? next_sequence_ c));
    [by eapply runs_trans |]. by destruct (span_size d <? stored_size snap).
Qed.

(** ** Wait-freedom *)

(** Steps of one iteration of the retry loop, and of what is left of a call. *)
Definition attempt_cost : nat := Z.to_nat MaxPayloadSize + 6.

Definition versioned_measure (th : versioned_thread) : nat :=
  match pc th with
  | VIdle | VDone _ | VOutOfBounds => 0
  | VRegisterStart | VPublishedStart | VRefresh _ _ => 1
  | VPublishStart p => if MaxPayloadSize <? span_size p then 1 else length p + 9
  | VLoadVersion p _ => length p + 8
  | VStoreOdd p _ _ => length p + 7
  | VStoreSequence p _ _ => length p + 6
  | VStoreSize p _ _ => length p + 5
  | VStoreByte p _ _ i => (length p - i) + 4
  | VStoreEven _ _ _ => 3
  | VStoreProduced _ _ => 2
  | VStorePublished _ _ => 1
  | VReadStart _ _ => read_attempts * attempt_cost + 3
  | VLoadPublished _ _ => read_attempts * attempt_cost + 2
  | VLoadBefore _ _ _ a => a * attempt_cost + attempt_cost + 1
  | VLoadSequence _ _ _ a _ => a * attempt_cost + Z.to_nat MaxPayloadSize + 5
  | VLoadSize _ _ _ a _ => a * attempt_cost + Z.to_nat MaxPayloadSize + 4
  | VLoadByte _ _ _ a _ i => a * attempt_cost + (Z.to_nat MaxPayloadSize - i) + 3
  | VLoadAfter _ _ _ a _ => a * attempt_cost + 2
  end.

Definition versioned_bound : nat := read_attempts * attempt_cost + 3.

Lemma retry_measure b c d snap a :
  versioned_measure (mkThread b (retry c d snap a)) = (a * attempt_cost + 1)%nat.
Proof. destruct a; unfold versioned_measure; simpl; lia. Qed.

Lemma consume_measure b c d snap :
  (versioned_measure (mkThread b (consume c d snap)) <= 1)%nat.
Proof. unfold consume. case_match; [| case_match]; unfold versioned_measure; simpl; lia. Qed.

Lemma at_cell_cases q s f q' l' :
  (q', l') ∈ at_cell q s f -> l' = VOutOfBounds \/ exists cell, l' = (f cell).2.
Proof.
  unfold at_cell. destruct (cells_ q !! _); intros H%list_elem_of_singleton; [| by injection H; auto].
  right. eexists. by rewrite <- H.
Qed.

Lemma publish_measure b q l q' l' :
  (q', l') ∈ publish_step q l ->
  (versioned_measure (mkThread b l') < versioned_measure (mkThread b l))%nat.
Proof.
  unfold versioned_measure. destruct l; simpl; intros H; try by apply not_elem_of_nil in H.
  - destruct (MaxPayloadSize <? span_size payload); inv_outcome H; simpl; lia.
  - apply at_cell_cases in H as [-> | [cell ->]]; simpl; lia.
  - apply at_cell_cases in H as [-> | [cell ->]]; simpl; lia.
  - apply at_cell_cases in H as [-> | [cell ->]]; simpl; lia.
  - apply at_cell_cases in H as [-> | [cell ->]]; simpl; lia.
  - destruct (payload !! index) eqn:E; [| inv_outcome H; simpl; lia].
    apply lookup_lt_Some in E. apply at_cell_cases in H as [-> | [cell ->]]; simpl; [lia |].
    destruct (storage cell !! index); simpl; lia.
  - apply at_cell_cases in H as [-> | [cell ->]]; simpl; lia.
  - inv_outcome H. simpl. lia.
  - inv_outcome H. simpl. lia.
Qed.

Lemma read_measure b q l q' l' :
  (q', l') ∈ read_step q l ->
  (versioned_measure (mkThread b l') < versioned_measure (mkThread b l))%nat.
Proof.
  destruct l; simpl; intros H; try by apply not_elem_of_nil in H.
  - destruct (queue_ c); inv_outcome H; unfold versioned_measure; cbn [pc]; lia.
  - destruct (published_ q <? _); [inv_outcome H; unfold versioned_measure; cbn [pc]; lia |].
    destruct (_ <? _); inv_outcome H; unfold versioned_measure, read_attempts; cbn [pc]; lia.
  - apply at_cell_cases in H as [-> | [cell ->]]; cbn [snd]; [unfold versioned_measure; cbn [pc]; lia |].
    case_match; [rewrite retry_measure |]; unfold versioned_measure, attempt_cost; cbn [pc]; lia.
  - apply at_cell_cases in H as [-> | [cell ->]]; unfold versioned_measure; simpl; lia.
  - apply at_cell_cases in H as [-> | [cell ->]]; unfold versioned_measure; simpl; lia.
  - destruct (Z.ltb_spec (Z.of_nat index) MaxPayloadSize);
      [| inv_outcome H; unfold versioned_measure; simpl; lia].
    apply at_cell_cases in H as [-> | [cell ->]]; cbn [snd]; [unfold versioned_measure; simpl; lia |].
    case_match; unfold versioned_measure; simpl; lia.
  - apply at_cell_cases in H as [-> | [cell ->]]; cbn [snd]; [unfold versioned_measure; simpl; lia |].
    case_match.
    + pose proof (consume_measure b c destination snap). unfold versioned_measure at 2. simpl. lia.
    + rewrite retry_measure. unfold versioned_measure. simpl. lia.
  - inv_outcome H. unfold versioned_measure. simpl. lia.
Qed.

Lemma versioned_measure_decreases q th q' th' :
  (q', th') ∈ versioned_tstep q th -> (versioned_measure th' < versioned_measure th)%nat.
Proof.
  unfold versioned_tstep. intros ((q1 & l1) & [= -> ->] & Hin)%list_elem_of_fmap. simpl.
  destruct th as [b l]. simpl in *.
  assert ((l = VRegisterStart \/ l = VPublishedStart) \/ (q1, l1) ∈ publish_step q l ++ read_step q l) as
    [Hsmall | [H | H]%elem_of_app].
  { destruct l; auto. }
  - destruct Hsmall as [-> | ->]; inv_outcome Hin; unfold versioned_measure; simpl; lia.
  - by eapply publish_measure.
  - by eapply read_measure.
Qed.

Lemma versioned_step_exists q l :
  l <> VIdle -> (forall r, l <> VDone r) -> l <> VOutOfBounds -> versioned_step q l <> [].
Proof.
  intros H1 H2 H3. assert (Hat : forall s f, at_cell q s f <> [])
    by (intros s f; unfold at_cell; by destruct (cells_ q !! _)).
  destruct l; simpl; try done; try (by destruct (H2 r)); rewrite ?app_nil_r; repeat case_match;
    by apply Hat || done.
Qed.

Lemma versioned_step_not_idle q l q' : (q', VIdle) ∈ versioned_step q l -> False.
Proof.
  assert (Hretry : forall c d snap a, VIdle <> retry c d snap a) by (by intros ? ? ? []).
  assert (Hconsume : forall c d snap, VIdle <> consume c d snap)
    by (intros; unfold consume; by repeat case_match).
  destruct l; simpl; rewrite ?app_nil_r; intros H; repeat case_match;
    try (by apply not_elem_of_nil in H); try (by apply list_elem_of_singleton in H);
    apply at_cell_cases in H as [H | [cell H]]; simpl in H; try done;
    repeat case_match; try done; by apply Hretry in H || by apply Hconsume in H.
Qed.

(** ** The invariant *)

Section invariant.

Context (cap : Z).

Definition idx (s : Z) : nat := slot_of ((s - 1) mod cap).

(** The payload of the [try_publish] a thread is in. *)
Definition publishing (l : versioned_pc) : option (list byte) :=
  match l with
  | VPublishStart p | VLoadVersion p _ | VStoreOdd p _ _ | VStoreSequence p _ _ | VStoreSize p _ _
  | VStoreByte p _ _ _ | VStoreEven p _ _ | VStoreProduced p _ | VStorePublished p _ => Some p
  | _ => None
  end.

(** The publication whose cell is being or has been written, but which is not
    published yet. *)
Definition started (l : versioned_pc) : log :=
  match l with
  | VStoreSequence p _ _ | VStoreSize p _ _ | VStoreByte p _ _ _ | VStoreEven p _ _
  | VStoreProduced p _ | VStorePublished p _ => [p]
  | _ => []
  end.

(** Between the odd and the even store of the version. *)
Definition writing (l : versioned_pc) : bool :=
  match l with
  | VStoreSequence _ _ _ | VStoreSize _ _ _ | VStoreByte _ _ _ _ | VStoreEven _ _ _ => true
  | _ => false
  end.

Definition produced_at (l : versioned_pc) (published : Z) : Z :=
  match l with VStorePublished _ _ => published + 1 | _ => published end.

(** The cell of publication [s] satisfies [P]. *)
Definition cell_at (q : VersionedSPMCQueue) (s : Z) (P : Cell -> Prop) : Prop :=
  exists cell, cells_ q !! idx s = Some cell /\ P cell.

Definition holds (msg : message) (cell : Cell) : Prop :=
  c_sequence cell = msg.1 /\ c_size cell = span_size msg.2 /\
  take (length msg.2) (storage cell) = msg.2.

(** What the publishing thread knows about the cell it is rewriting. *)
Definition writer_ok (q : VersionedSPMCQueue) (l : log) (w : versioned_pc) : Prop :=
  let mine p s := s = span_size l + 1 /\ span_size p <= MaxPayloadSize in
  let odd v cell := version cell = v + 1 /\ Z.even v = true in
  match w with
  | VLoadVersion p s | VStoreProduced p s | VStorePublished p s => mine p s
  | VStoreOdd p s v => mine p s /\ cell_at q s (fun cell => version cell = v)
  | VStoreSequence p s v => mine p s /\ cell_at q s (odd v)
  | VStoreSize p s v => mine p s /\ cell_at q s (fun cell => odd v cell /\ c_sequence cell = s)
  | VStoreByte p s v i => mine p s /\ (i <= length p)%nat /\
      cell_at q s (fun cell => odd v cell /\ c_sequence cell = s /\ c_size cell = span_size p /\
        take i (storage cell) = take i p)
  | VStoreEven p s v => mine p s /\ cell_at q s (fun cell => odd v cell /\ holds (s, p) cell)
  | _ => True
  end.

Record ring_ok (n : nat) (q : VersionedSPMCQueue) (l : log) (w : versioned_pc) : Prop := {
  ring_capacity : capacity_ q = cap;
  ring_length : length (cells_ q) = Z.to_nat cap;
  ring_published : published_ q = span_size l;
  ring_produced : produced_ q = produced_at w (span_size l);
  ring_count : span_size (l ++ started w) <= Z.of_nat n;
  ring_cells : forall i cell, cells_ q !! i = Some cell ->
    0 <= version cell <= Z.of_nat n /\ span_size (storage cell) = MaxPayloadSize /\
    (Z.even (version cell) = true \/ writing w = true /\ i = idx (span_size l + 1));
  ring_retained : forall s, 1 <= s -> span_size (l ++ started w) - cap < s <= span_size (l ++ started w) ->
    (writing w = true -> s <= span_size l) ->
    cell_at q s (holds (entry (l ++ started w) s));
  ring_writer : writer_ok q l w;
}.

(** What a reader inside the retry loop knows: either its version still is the
    one of the cell and [P] holds of the cell, or the producer has begun to
    overwrite the wanted message. *)
Definition snap_ok (q : VersionedSPMCQueue) (begun want before : Z) (P : Cell -> Prop) : Prop :=
  Z.even before = true /\
  cell_at q want (fun cell => before <= version cell /\
    (version cell <> before -> want + cap <= begun) /\ (version cell = before -> P cell)).

(** The answer of a read of a retained message. *)
Definition read_answer (l : log) (c : Consumer) (d : list byte) : McRes :=
  let '(r, d') := deliver (entry l (next_sequence_ c)) d in
  McReadDone r (if ok (r_status r) then mkConsumer true (next_sequence_ c + 1) else c) d'.

Definition reading (l : log) (c : Consumer) (d : list byte) (x : pending McOp McRes) : Prop :=
  exists rs, x = Open (McRead c d) rs /\ queue_ c = true /\
    1 <= next_sequence_ c <= span_size l /\ read_answer l c d ∈ rs.

Definition scratch_ok (snap : snapshot) : Prop := span_size (scratch snap) = MaxPayloadSize.

Definition reader_ok (q : VersionedSPMCQueue) (l : log) (begun : Z) (r : versioned_pc)
    (x : pending McOp McRes) : Prop :=
  match r with
  | VIdle => x = Free
  | VRegisterStart => x = Open McRegister []
  | VPublishedStart => x = Open McPublished []
  | VReadStart c d => x = Open (McRead c d) []
  | VLoadPublished c d => x = Open (McRead c d) [] /\ queue_ c = true
  | VLoadBefore c d snap _ => reading l c d x /\ scratch_ok snap
  | VLoadSequence c d snap _ b => reading l c d x /\ scratch_ok snap /\
      snap_ok q begun (next_sequence_ c) b (fun _ => True)
  | VLoadSize c d snap _ b => reading l c d x /\ scratch_ok snap /\
      snap_ok q begun (next_sequence_ c) b (fun cell => stored_sequence snap = c_sequence cell)
  | VLoadByte c d snap _ b i => reading l c d x /\ scratch_ok snap /\ Z.of_nat i <= MaxPayloadSize /\
      snap_ok q begun (next_sequence_ c) b (fun cell =>
        stored_sequence snap = c_sequence cell /\ stored_size snap = c_size cell /\
        take i (scratch snap) = take i (storage cell))
  | VLoadAfter c d snap _ b => reading l c d x /\ scratch_ok snap /\
      snap_ok q begun (next_sequence_ c) b (fun cell =>
        stored_sequence snap = c_sequence cell /\ stored_size snap = c_size cell /\
        scratch snap = storage cell)
  | VRefresh c d => reading l c d x /\ next_sequence_ c + cap <= begun
  | VDone res => x = Closed res
  | _ => False
  end.

Definition thread_ok (q : VersionedSPMCQueue) (l : log) (begun : Z) (t : nat)
    (th : versioned_thread) (x : pending McOp McRes) : Prop :=
  (is_producer th = true <-> t = 0%nat) /\
  match publishing (pc th) with
  | Some payload => is_producer th = true /\ x = Open (McPublish payload) []
  | None => reader_ok q l begun (pc th) x
  end.

Definition versioned_sim (n : nat) (p : pool VersionedSPMCQueue versioned_thread)
    (c : pool log (pending McOp McRes)) : Prop :=
  exists w, threads p !! 0%nat = Some (mkThread true w) /\
    ring_ok n (shared p) (shared c) w /\
    threads_related (thread_ok (shared p) (shared c) (span_size (shared c ++ started w)))
      (threads p) (threads c).

Hypothesis Hcap : 0 < cap < u64_modulus.
Hypothesis Hmax : 0 <= MaxPayloadSize.

(** ** Cells evolve under the producer *)

(** What a producer step may do to a cell, as seen by readers. *)
Definition cells_evolve (q q' : VersionedSPMCQueue) (l : log) (begun : Z) : Prop :=
  forall i cell, cells_ q !! i = Some cell ->
  exists cell', cells_ q' !! i = Some cell' /\
    (cell' = cell \/
     Z.even (version cell) = false /\ version cell <= version cell' \/
     version cell < version cell' /\
       forall want, 1 <= want <= span_size l -> idx want = i -> want + cap <= begun).

Lemma cells_evolve_refl q q' l begun : cells_ q' = cells_ q -> cells_evolve q q' l begun.
Proof. intros E i cell H. exists cell. rewrite E. auto. Qed.

Lemma snap_ok_evolve q q' l begun begun' want before (P : Cell -> Prop) :
  cells_evolve q q' l begun' -> begun <= begun' -> 1 <= want <= span_size l ->
  snap_ok q begun want before P -> snap_ok q' begun' want before P.
Proof.
  intros He Hb Hw [Hev (cell & Hcell & Hle & Hlost & HP)]. split; [done |].
  destruct (He _ _ Hcell) as (cell' & Hcell' & Hcase). exists cell'. split; [done |].
  destruct Hcase as [-> | [[Hodd Hle'] | [Hlt Hw']]].
  - split; [done |]. split; [| done]. intros H. specialize (Hlost H). lia.
  - assert (version cell <> before) as Hne by (intros E; congruence).
    split; [lia |]. split; [intros _; specialize (Hlost Hne); lia | lia].
  - split; [lia |]. split; [intros _; by apply Hw' | lia].
Qed.

Lemma read_answer_app l l' c d :
  1 <= next_sequence_ c <= span_size l -> read_answer (l ++ l') c d = read_answer l c d.
Proof. intros H. unfold read_answer. by rewrite entry_app. Qed.

Lemma reading_app l l' c d x : reading l c d x -> reading (l ++ l') c d x.
Proof.
  intros (rs & -> & Hq & Hn & Hin). exists rs. split; [done |]. split; [done |].
  rewrite read_answer_app by done. split; [| done]. unfold span_size in *.
  rewrite length_app. lia.
Qed.

Lemma reader_ok_evolve q q' l l' begun begun' r x :
  cells_evolve q q' l begun' -> begun <= begun' ->
  reader_ok q l begun r x -> reader_ok q' (l ++ l') begun' r x.
Proof.
  intros He Hb. assert (Hsnap : forall c d before P, reading l c d x ->
    snap_ok q begun (next_sequence_ c) before P -> snap_ok q' begun' (next_sequence_ c) before P).
  { intros c d before P (rs & _ & _ & Hn & _). by eapply snap_ok_evolve. }
  destruct r; simpl; try done; intuition eauto using reading_app. lia.
Qed.

(** ** Producer steps keep the ring *)

Lemma cell_index_idx q s :
  capacity_ q = cap -> 1 <= s < u64_modulus -> cell_index q s = idx s.
Proof. intros Hc Hs. unfold cell_index, idx. rewrite Hc, (u64_small (s - 1)) by lia. done. Qed.

Lemma idx_lt q s : length (cells_ q) = Z.to_nat cap -> (idx s < length (cells_ q))%nat.
Proof using Hcap. intros H. apply ring_slot_lt; lia. Qed.

Lemma idx_ne s s' : Z.abs (s - s') < cap -> s <> s' -> idx s <> idx s'.
Proof using Hcap. intros. apply ring_slot_ne; lia. Qed.

(** Two publications in one cell are a multiple of the capacity apart. *)
Lemma idx_lap s s' : s < s' -> idx s = idx s' -> s + cap <= s'.
Proof using Hcap.
  intros Hlt He. destruct (Z.le_gt_cases (s + cap) s') as [| Hgt]; [done |].
  exfalso. apply (idx_ne s s'); [lia | lia | done].
Qed.

Lemma cell_lookup n q l w s :
  ring_ok n q l w -> exists cell, cells_ q !! idx s = Some cell.
Proof using Hcap.
  intros H. apply lookup_lt_is_Some_2, (idx_lt q s), (ring_length _ _ _ _ H).
Qed.

Lemma span_size_snoc (l : log) p : span_size (l ++ [p]) = span_size l + 1.
Proof. unfold span_size. rewrite length_app. simpl. lia. Qed.

(** Steps that leave the shared state alone. *)
Lemma ring_ok_local n q l w w' :
  ring_ok n q l w -> started w' = started w -> writing w' = writing w ->
  (forall x, produced_at w' x = produced_at w x) -> writer_ok q l w' -> ring_ok (S n) q l w'.
Proof.
  intros [H1 H2 H3 H4 H5 H6 H7 H8] Es Ew Ep Hw.
  split; rewrite ?Es, ?Ew, ?Ep; try done; try lia.
  intros i cell Hi. destruct (H6 i cell Hi) as (? & ? & ?). split; [lia | done].
Qed.

Lemma ring_ok_weaken n q l w : ring_ok n q l w -> ring_ok (S n) q l w.
Proof. intros H. by eapply ring_ok_local; [| | | | eapply ring_writer]. Qed.

(** Stores into the cell of the publication in progress. *)
Lemma ring_ok_store n q l w w' p cell cell' :
  ring_ok n q l w -> cells_ q !! idx (span_size l + 1) = Some cell ->
  (started w = [] \/ started w = [p]) ->
  (started w = [] -> writing w = false) -> started w' = [p] ->
  produced_at w (span_size l) = span_size l -> produced_at w' (span_size l) = span_size l ->
  0 <= version cell' <= Z.of_nat (S n) -> span_size (storage cell') = MaxPayloadSize ->
  (writing w' = true \/ Z.even (version cell') = true /\ holds (span_size l + 1, p) cell') ->
  writer_ok (set_cell q (idx (span_size l + 1)) cell') l w' ->
  ring_ok (S n) (set_cell q (idx (span_size l + 1)) cell') l w'.
Proof using Hcap.
  intros [H1 H2 H3 H4 H5 H6 H7 H8] Hcell Hst Hw0 Hst' Hp Hp' Hv Hlen Hdone Hw'.
  pose proof (span_size_nonneg l) as Hl0.
  assert (Hlt := lookup_lt_Some _ _ _ Hcell). split; simpl; rewrite ?Hst'; try done.
  - by rewrite length_insert.
  - by rewrite Hp', H4, Hp.
  - rewrite span_size_snoc. destruct Hst as [E | E]; rewrite E in H5;
      rewrite ?app_nil_r, ?span_size_snoc in H5; lia.
  - intros i c Hi. destruct (decide (i = idx (span_size l + 1))) as [-> | Hne].
    + rewrite list_lookup_insert_eq in Hi by done. simplify_eq. split; [lia |]. split; [done |].
      destruct Hdone as [Hd | [Hd _]]; auto.
    + rewrite list_lookup_insert_ne in Hi by done. destruct (H6 i c Hi) as (Hb & Hs & [He | [_ ->]]); [| done].
      split; [lia | auto].
  - rewrite span_size_snoc. intros s Hs1 Hs2 Hs3.
    destruct (decide (s = span_size l + 1)) as [-> | Hne].
    + exists cell'. split; [by apply list_lookup_insert_eq |].
      destruct Hdone as [Hd | [_ Hd]]; [specialize (Hs3 Hd); lia |].
      unfold entry. replace (Z.to_nat (span_size l + 1 - 1)) with (length l) by (unfold span_size; lia).
      by rewrite lookup_app_r, Nat.sub_diag by lia.
    + rewrite entry_app by lia. destruct (H7 s Hs1) as (c & Hc & Hh).
      { destruct Hst as [E | E]; rewrite E, ?app_nil_r, ?span_size_snoc; lia. }
      { lia. }
      exists c. split.
      * simpl. rewrite list_lookup_insert_ne; [done |]. apply idx_ne; lia.
      * destruct Hst as [E | E]; rewrite E, ?app_nil_r, ?entry_app in Hh by lia; done.
Qed.

Lemma cells_evolve_store q l s cell cell' begun :
  cells_ q !! idx s = Some cell ->
  (Z.even (version cell) = false /\ version cell <= version cell' \/
   version cell < version cell' /\ span_size l < s <= begun) ->
  cells_evolve q (set_cell q (idx s) cell') l begun.
Proof using Hcap.
  intros Hcell Hcase i c Hi. simpl. destruct (decide (i = idx s)) as [-> | Hne].
  - simplify_eq. exists cell'. split; [apply list_lookup_insert_eq; by eapply lookup_lt_Some |].
    destruct Hcase as [H | [H Hs]]; [auto |]. right. right. split; [done |].
    intros want Hw He. apply idx_lap in He; lia.
  - exists c. rewrite list_lookup_insert_ne by done. auto.
Qed.

Lemma at_cell_inv n q l w s f q' w' :
  ring_ok n q l w -> 1 <= s < u64_modulus -> (q', w') ∈ at_cell q s f ->
  exists cell, cells_ q !! idx s = Some cell /\ (q', w') = f cell.
Proof using Hcap.
  intros H Hs Hin. unfold at_cell in Hin.
  rewrite (cell_index_idx q s (ring_capacity _ _ _ _ H) Hs) in Hin.
  destruct (cell_lookup n q l w s H) as [cell Hc]. rewrite Hc in Hin.
  apply list_elem_of_singleton in Hin. eauto.
Qed.

Lemma even_succ_false v : Z.even v = true -> Z.even (v + 1) = false.
Proof. rewrite Z.even_add. by intros ->. Qed.

(** What a step of [try_publish] does to the ring and to the log. *)
Inductive publish_outcome (n : nat) (q : VersionedSPMCQueue) (l : log) (w : versioned_pc)
    (p : list byte) : VersionedSPMCQueue -> versioned_pc -> Prop :=
| publish_goes_on q' w' :
    ring_ok (S n) q' l w' -> publishing w' = Some p ->
    cells_evolve q q' l (span_size (l ++ started w')) ->
    span_size (l ++ started w) <= span_size (l ++ started w') ->
    publish_outcome n q l w p q' w'
| publish_refused :
    ring_ok (S n) q l (VDone (McWritten (mkWrite message_too_large 0))) ->
    MaxPayloadSize < span_size p -> started w = [] ->
    publish_outcome n q l w p q (VDone (McWritten (mkWrite message_too_large 0)))
| publish_done q' :
    ring_ok (S n) q' (l ++ [p]) (VDone (McWritten (mkWrite success (span_size l + 1)))) ->
    span_size p <= MaxPayloadSize -> started w = [p] -> cells_ q' = cells_ q ->
    publish_outcome n q l w p q' (VDone (McWritten (mkWrite success (span_size l + 1)))).

(** A store to the cell in progress that leaves its odd version alone. *)
Lemma publish_store_odd n q l w w' p v cell cell' :
  ring_ok n q l w -> cells_ q !! idx (span_size l + 1) = Some cell ->
  writing w = true -> started w = [p] -> writing w' = true -> started w' = [p] ->
  produced_at w (span_size l) = span_size l -> produced_at w' (span_size l) = span_size l ->
  version cell = v + 1 -> Z.even v = true ->
  version cell' = version cell -> span_size (storage cell') = MaxPayloadSize ->
  publishing w' = Some p ->
  writer_ok (set_cell q (idx (span_size l + 1)) cell') l w' ->
  publish_outcome n q l w p (set_cell q (idx (span_size l + 1)) cell') w'.
Proof using Hcap.
  intros H Hcell Hw Hs Hw' Hs' Hp Hp' Hv Hev Hv' Hlen Hpub Hok.
  pose proof (ring_cells _ _ _ _ H _ _ Hcell) as (Hb & _ & _).
  apply publish_goes_on; [| done | | by rewrite Hs, Hs'].
  - eapply ring_ok_store; eauto; [by rewrite Hs | lia].
  - eapply cells_evolve_store; [done |]. left. rewrite Hv', Hv.
    split; [by apply even_succ_false | lia].
Qed.

Lemma take_S_insert (xs ys : list byte) i b :
  ys !! i = Some b -> (i < length xs)%nat -> take i xs = take i ys ->
  take (S i) (<[i := b]> xs) = take (S i) ys.
Proof.
  intros Hy Hi He. rewrite (take_S_r _ _ b) by (by apply list_lookup_insert_eq).
  rewrite (take_S_r ys i b) by done. by rewrite take_insert_ge, He by lia.
Qed.

Lemma publish_step_ok n q l w p q' w' :
  Z.of_nat (S n) + 1 < u64_modulus -> ring_ok n q l w -> publishing w = Some p ->
  (q', w') ∈ publish_step q w -> publish_outcome n q l w p q' w'.
Proof using Hcap.
  intros Hb H Hp Hin. pose proof (span_size_nonneg l) as Hl.
  pose proof (ring_writer _ _ _ _ H) as Hw. pose proof (ring_count _ _ _ _ H) as Hn.
  pose proof (ring_capacity _ _ _ _ H) as Hc.
  assert (Hlen : span_size l <= Z.of_nat n).
  { unfold span_size in *. rewrite length_app in Hn. lia. }
  destruct w as [| p0 | p0 s | p0 s v | p0 s v | p0 s v | p0 s v i | p0 s v | p0 s | p0 s
    | | | | | | | | | | | |]; try done; injection Hp as ->; simpl in Hin, Hw, Hn.
  - destruct (Z.ltb_spec MaxPayloadSize (span_size p)); inv_outcome Hin.
    + apply publish_refused; [| done | done]. by eapply ring_ok_local.
    + apply publish_goes_on; [| done | by apply cells_evolve_refl | done].
      eapply ring_ok_local; [done.. |]. split; [| done].
      rewrite (ring_produced _ _ _ _ H), u64_small; simpl; lia.
  - destruct Hw as [-> Hfit]. eapply at_cell_inv in Hin as (cell & Hcell & [= -> ->]); [| done | lia].
    apply publish_goes_on; [| done | by apply cells_evolve_refl | done].
    eapply ring_ok_local; [done.. |]. split; [done | by exists cell].
  - destruct Hw as [[-> Hfit] (cell & Hcell & <-)].
    eapply at_cell_inv in Hin as (cell0 & Hcell0 & [= -> ->]); [| done | lia]. simplify_eq.
    pose proof (ring_cells _ _ _ _ H _ _ Hcell) as (Hv & Hs & [He | [? _]]); [| done].
    unfold store_at. rewrite cell_index_idx by (done || lia). rewrite u64_small by lia.
    apply publish_goes_on; [| done | |].
    + eapply (ring_ok_store n q l _ _ p); eauto; simpl; [lia |].
      split; [done |]. eexists. split; [apply list_lookup_insert_eq; by eapply lookup_lt_Some |]. done.
    + eapply cells_evolve_store; [done |]. right. simpl. rewrite span_size_snoc. lia.
    + simpl. rewrite app_nil_r, span_size_snoc. lia.
  - destruct Hw as [[-> Hfit] (cell & Hcell & Hv & He)].
    eapply at_cell_inv in Hin as (cell0 & Hcell0 & [= -> ->]); [| done | lia]. simplify_eq.
    unfold store_at. rewrite cell_index_idx by (done || lia).
    pose proof (ring_cells _ _ _ _ H _ _ Hcell) as (_ & Hs & _).
    eapply publish_store_odd; eauto; simpl. split; [done |].
    eexists. split; [apply list_lookup_insert_eq; by eapply lookup_lt_Some |]. done.
  - destruct Hw as [[-> Hfit] (cell & Hcell & [Hv He] & Hseq)].
    eapply at_cell_inv in Hin as (cell0 & Hcell0 & [= -> ->]); [| done | lia]. simplify_eq.
    unfold store_at. rewrite cell_index_idx by (done || lia).
    pose proof (ring_cells _ _ _ _ H _ _ Hcell) as (_ & Hs & _).
    eapply publish_store_odd; eauto; simpl. split; [done |]. split; [lia |].
    eexists. split; [apply list_lookup_insert_eq; by eapply lookup_lt_Some |]. done.
  - destruct Hw as [[-> Hfit] [Hi (cell & Hcell & [Hv He] & Hseq & Hsz & Htk)]].
    pose proof (ring_cells _ _ _ _ H _ _ Hcell) as (_ & Hs & _).
    destruct (p !! i) as [b |] eqn:Hpi.
    + eapply at_cell_inv in Hin as (cell0 & Hcell0 & Hf); [| done | lia]. simplify_eq.
      assert (Hi' := lookup_lt_Some _ _ _ Hpi).
      destruct (lookup_lt_is_Some_2 (storage cell) i) as [b0 Hb0]; [unfold span_size in *; lia |].
      rewrite Hb0 in Hf. injection Hf as -> ->.
      unfold store_at. rewrite cell_index_idx by (done || lia).
      eapply publish_store_odd; eauto; simpl; [by unfold span_size; rewrite length_insert |].
      split; [done |]. split; [lia |].
      eexists. split; [apply list_lookup_insert_eq; by eapply lookup_lt_Some |].
      simpl. split; [done |]. split; [done |]. split; [done |].
      apply take_S_insert; [done | by eapply lookup_lt_Some | done].
    + inv_outcome Hin. apply lookup_ge_None in Hpi.
      apply publish_goes_on; [| done | by apply cells_evolve_refl | done].
      eapply ring_ok_local; [done.. |]. split; [done |]. exists cell. split; [done |].
      split; [done |]. split; [done |]. split; [done |]. simpl.
      rewrite (firstn_all2 p) in Htk by lia.
      by replace (length p) with i by lia.
  - destruct Hw as [[-> Hfit] (cell & Hcell & [Hv He] & Hh)].
    eapply at_cell_inv in Hin as (cell0 & Hcell0 & [= -> ->]); [| done | lia]. simplify_eq.
    pose proof (ring_cells _ _ _ _ H _ _ Hcell) as (Hvb & Hs & _).
    unfold store_at. rewrite cell_index_idx by (done || lia). rewrite u64_small by lia.
    apply publish_goes_on; [| done | | done].
    + eapply (ring_ok_store n q l _ _ p); eauto; simpl; try done; [lia |].
      right. split; [by rewrite Z.even_add, He | done].
    + eapply cells_evolve_store; [done |]. left. rewrite Hv. simpl.
      split; [by apply even_succ_false | lia].
  - inv_outcome Hin. destruct Hw as [-> Hfit].
    apply publish_goes_on; [| done | by apply cells_evolve_refl | done].
    destruct H as [H1 H2 H3 H4 H5 H6 H7 H8]. split; simpl; try done; [lia |].
    intros i cell Hi. destruct (H6 i cell Hi) as (? & ? & ?). split; [lia | done].
  - inv_outcome Hin. destruct Hw as [-> Hfit]. apply publish_done; try done.
    destruct H as [H1 H2 H3 H4 H5 H6 H7 H8]. simpl in *.
    split; simpl; rewrite ?app_nil_r, ?span_size_snoc in *; try done; try lia.
    + intros i cell Hi. destruct (H6 i cell Hi) as (? & ? & [? | [? _]]); [split; [lia | auto] | done].
    + intros s Hs1 Hs2 _. by apply H7.
Qed.

(** ** Reader steps *)

Lemma writing_started w : writing w = true -> exists p, started w = [p].
Proof. destruct w; intros; try done; by eexists. Qed.

Lemma writing_odd n q l w cell :
  ring_ok n q l w -> writing w = true -> cells_ q !! idx (span_size l + 1) = Some cell ->
  Z.even (version cell) = false.
Proof.
  intros H Hw Hc. pose proof (ring_writer _ _ _ _ H) as Hok.
  assert (exists v, version cell = v + 1 /\ Z.even v = true) as (v & -> & He).
  { destruct w; try discriminate Hw; simpl in Hok;
      [ destruct Hok as [[-> _] (cell0 & Hc0 & Hv & He)]
      | destruct Hok as [[-> _] (cell0 & Hc0 & (Hv & He) & _)]
      | destruct Hok as [[-> _] [_ (cell0 & Hc0 & (Hv & He) & _)]]
      | destruct Hok as [[-> _] (cell0 & Hc0 & (Hv & He) & _)] ];
      rewrite Hc in Hc0; injection Hc0 as <-; by eexists. }
  by apply even_succ_false.
Qed.

(** An odd version on the way to a published message: it is being overwritten. *)
Lemma odd_lost n q l w want cell :
  ring_ok n q l w -> 1 <= want <= span_size l -> cells_ q !! idx want = Some cell ->
  Z.even (version cell) = false -> want + cap <= span_size (l ++ started w).
Proof using Hcap.
  intros H Hw Hc Ho. destruct (ring_cells _ _ _ _ H _ _ Hc) as (_ & _ & [He | [Hwr Hi]]); [congruence |].
  destruct (writing_started w Hwr) as [p ->]. rewrite span_size_snoc. apply idx_lap; [lia | done].
Qed.

(** A stable cell holds one whole publication: the wanted one or a later one. *)
Lemma stable_cell n q l w want cell :
  ring_ok n q l w -> 1 <= want <= span_size l -> cells_ q !! idx want = Some cell ->
  Z.even (version cell) = true ->
  exists s, holds (entry (l ++ started w) s) cell /\
    (s = want \/ want + cap <= s <= span_size (l ++ started w)).
Proof using Hcap.
  intros H Hw Hc He.
  assert (Hle : span_size l <= span_size (l ++ started w))
    by (unfold span_size; rewrite length_app; lia).
  destruct (ring_representative cap (want - 1) (span_size (l ++ started w))) as (s & Hs & Hws & Hcase & Hmod);
    [lia | lia |].
  assert (Hi : idx (s + 1) = idx want) by (unfold idx; by rewrite Z.add_simpl_r, Hmod).
  destruct (ring_retained _ _ _ _ H (s + 1)) as (cell0 & Hc0 & Hh); [lia | lia | |].
  { intros Hwr. destruct (writing_started w Hwr) as [p Hp]. rewrite Hp, span_size_snoc in Hs.
    destruct (Z.le_gt_cases (s + 1) (span_size l)) as [| Hgt]; [done | exfalso].
    assert (s + 1 = span_size l + 1) as E by lia. rewrite E in Hi. rewrite <- Hi in Hc.
    rewrite (writing_odd _ _ _ _ _ H Hwr Hc) in He. done. }
  rewrite Hi in Hc0. simplify_eq. exists (s + 1). split; [done | lia].
Qed.

Lemma oldest_retained_spec q l :
  capacity_ q = cap -> span_size l + 1 < u64_modulus ->
  oldest_retained q (span_size l) = oldest cap l.
Proof using Hcap.
  intros Hc Hb. unfold oldest_retained, oldest. rewrite Hc. case_tests; [| done].
  pose proof (span_size_nonneg l). rewrite (u64_small (_ - cap)), u64_small; lia.
Qed.

Lemma even_land_one v : negb (Z.land v 1 =? 0) = negb (Z.even v).
Proof.
  f_equal. change 1 with (Z.ones 1). rewrite (Z.land_ones v 1) by lia. change (2 ^ 1) with 2.
  rewrite Zmod_even. by destruct (Z.even v).
Qed.

(** What a step of a reader is in the specification. *)
Inductive read_progress (q : VersionedSPMCQueue) (l : log) (w : versioned_pc)
    (x : pending McOp McRes) : versioned_pc -> Prop :=
| read_stays r' :
    reader_ok q l (span_size (l ++ started w)) r' x -> read_progress q l w x r'
| read_observes o res r' :
    x = Open o [] -> (forall st, mc_spec MaxPayloadSize cap true st l o res l) ->
    reader_ok q l (span_size (l ++ started w)) r' (Open o [res]) -> read_progress q l w x r'
| read_effect o rs res :
    x = Open o rs ->
    (forall st, (started w <> [] -> publish_pending MaxPayloadSize st) ->
       mc_spec MaxPayloadSize cap true st l o res l) ->
    read_progress q l w x (VDone res)
| read_chooses o rs res :
    x = Open o rs -> res ∈ rs -> read_progress q l w x (VDone res).

(** Using a stable snapshot: the wanted message is delivered as published, or it
    has been overwritten. *)
Lemma consume_ok n q l w c d snap cell x :
  Z.of_nat n + 1 < u64_modulus -> ring_ok n q l w -> reading l c d x ->
  cells_ q !! idx (next_sequence_ c) = Some cell -> Z.even (version cell) = true ->
  stored_sequence snap = c_sequence cell -> stored_size snap = c_size cell ->
  scratch snap = storage cell ->
  read_progress q l w x (consume c d snap).
Proof using Hcap.
  intros Hb H Hr Hc He E1 E2 E3. pose proof Hr as (rs & -> & Hq & Hw & Hin).
  pose proof (ring_count _ _ _ _ H) as Hn.
  destruct (stable_cell _ _ _ _ _ _ H Hw Hc He) as (s & (Hs1 & Hs2 & Hs3) & Hs).
  change (entry _ s).1 with s in Hs1. unfold consume. rewrite E1, E2, E3, Hs1, Hs2.
  destruct (Z.eqb_spec s (next_sequence_ c)) as [-> | Hne]; cbn [negb].
  - unfold read_answer, deliver in Hin. rewrite entry_app in Hs3 by done. rewrite !entry_app by done.
    change (entry _ (next_sequence_ c)).1 with (next_sequence_ c) in Hin. destruct (Z.ltb_spec (span_size d) (span_size (entry l (next_sequence_ c)).2)).
    + by eapply read_chooses.
    + eapply read_chooses; [done |]. unfold std_copy_n.
      replace (take _ (storage cell)) with (entry l (next_sequence_ c)).2
        by (unfold span_size; by rewrite Nat2Z.id, Hs3).
      rewrite Hq, u64_small; [done |]. unfold span_size in *. rewrite length_app in Hn. lia.
  - apply read_stays. split; [done | lia].
Qed.

Lemma retry_ok q l w c d snap attempts x :
  reading l c d x -> scratch_ok snap -> next_sequence_ c + cap <= span_size (l ++ started w) ->
  read_progress q l w x (retry c d snap attempts).
Proof. intros Hr Hs Hl. apply read_stays. by destruct attempts. Qed.

Lemma reading_bounds n q l w c d x :
  ring_ok n q l w -> Z.of_nat n + 1 < u64_modulus -> reading l c d x ->
  1 <= next_sequence_ c <= span_size l /\ 1 <= next_sequence_ c < u64_modulus.
Proof.
  intros H Hb (rs & _ & _ & Hw & _). pose proof (ring_count _ _ _ _ H) as Hn.
  unfold span_size in *. rewrite length_app in Hn. lia.
Qed.

(** The load of the published sequence decides everything but a loss. *)
Lemma load_published_ok n q l w c d q' r' :
  Z.of_nat n + 1 < u64_modulus -> ring_ok n q l w -> queue_ c = true ->
  (q', r') ∈ read_step q (VLoadPublished c d) ->
  q' = q /\ read_progress q l w (Open (McRead c d) []) r'.
Proof using Hcap Hmax.
  intros Hb H Hq Hin. pose proof (ring_count _ _ _ _ H) as Hn.
  assert (Hlen : span_size l <= Z.of_nat n) by (unfold span_size in *; rewrite length_app in Hn; lia).
  pose proof (oldest_pos cap ltac:(lia) l) as Hop.
  simpl in Hin. rewrite (ring_published _ _ _ _ H) in Hin.
  rewrite (oldest_retained_spec q l (ring_capacity _ _ _ _ H)) in Hin by lia.
  destruct (Z.ltb_spec (span_size l) (next_sequence_ c)) as [H1 | H1]; inv_outcome Hin || idtac.
  { split; [done |]. eapply read_effect; [done |]. intros st _. constructor. unfold mc_read.
    rewrite Hq, (proj2 (Z.ltb_lt _ _) H1). done. }
  destruct (Z.ltb_spec (next_sequence_ c) (oldest cap l)) as [H2 | H2]; inv_outcome Hin; (split; [done |]).
  - eapply read_effect; [done |]. intros st _. constructor. unfold mc_read.
    rewrite Hq, (proj2 (Z.ltb_ge _ _) H1), (proj2 (Z.ltb_lt _ _) H2). done.
  - eapply (read_observes _ _ _ _ _ (read_answer l c d)); [done | |].
    + intros st. unfold read_answer. destruct (deliver _ _) as [r d'] eqn:E. constructor. unfold mc_read.
      rewrite Hq, (proj2 (Z.ltb_ge _ _) H1), (proj2 (Z.ltb_ge _ _) H2), E. done.
    + split; [| unfold scratch_ok, span_size; simpl; rewrite length_replicate; lia].
      exists [read_answer l c d]. split; [done |]. split; [done |]. split; [lia |]. by left.
Qed.

(** A read that lost its message answers with the oldest retained sequence. *)
Lemma refresh_ok n q l w c d rs :
  Z.of_nat n + 1 < u64_modulus -> ring_ok n q l w -> reading l c d (Open (McRead c d) rs) ->
  next_sequence_ c + cap <= span_size (l ++ started w) ->
  let resume := resume_after_overwrite q (next_sequence_ c) in
  read_progress q l w (Open (McRead c d) rs)
    (VDone (McReadDone (mkRead overwritten 0 resume) (mkConsumer (queue_ c) resume) d)).
Proof using Hcap.
  intros Hb H (rs' & _ & Hq & Hw & _) Hlost resume. pose proof (ring_count _ _ _ _ H) as Hn.
  assert (Hr : resume = Z.max (next_sequence_ c) (oldest cap l)).
  { unfold resume, resume_after_overwrite. rewrite (ring_published _ _ _ _ H).
    rewrite (oldest_retained_spec q l (ring_capacity _ _ _ _ H))
      by (unfold span_size in *; rewrite length_app in Hn; lia).
    case_tests; lia. }
  eapply read_effect; [done |]. intros st Hpend.
  eapply mc_spec_lost; [done | done | lia | | unfold mc_lost; by rewrite Hq, Hr].
  destruct (started w) as [| p [|]] eqn:Es.
  - rewrite app_nil_r in Hlost. by left.
  - rewrite span_size_snoc in Hlost. destruct (Z.le_gt_cases (next_sequence_ c + cap) (span_size l));
      [by left |]. right. split; [lia | by apply Hpend].
  - by destruct w.
Qed.

Lemma read_step_ok n q l w r x q' r' :
  Z.of_nat n + 1 < u64_modulus -> ring_ok n q l w ->
  reader_ok q l (span_size (l ++ started w)) r x ->
  (q', r') ∈ read_step q r -> q' = q /\ read_progress q l w x r'.
Proof using Hcap Hmax.
  intros Hb H Hok Hin. destruct r; simpl in Hok; try done; try by apply not_elem_of_nil in Hin.
  - subst x. simpl in Hin. destruct (queue_ c) eqn:Hq; inv_outcome Hin; (split; [done |]).
    + by apply read_stays.
    + eapply read_effect; [done |]. intros st _. constructor. unfold mc_read. by rewrite Hq.
  - destruct Hok as [-> Hq]. by eapply load_published_ok.
  - destruct Hok as (Hr & Hs). destruct (reading_bounds _ _ _ _ _ _ _ H Hb Hr) as [Hw Hw'].
    eapply at_cell_inv in Hin as (cell & Hc & [= -> ->]); [| done | done]. split; [done |].
    rewrite even_land_one. destruct (Z.even (version cell)) eqn:He; simpl.
    + apply read_stays. split; [done |]. split; [done |]. split; [done |]. exists cell. done.
    + apply retry_ok; [done | done |]. by eapply odd_lost.
  - destruct Hok as (Hr & Hs & Hev & cell & Hc & Hle & Hlost & HP).
    destruct (reading_bounds _ _ _ _ _ _ _ H Hb Hr) as [Hw Hw'].
    eapply at_cell_inv in Hin as (cell' & Hc' & [= -> ->]); [| done | done]. simplify_eq.
    split; [done |]. apply read_stays. split; [done |]. split; [done |]. split; [done |]. by exists cell.
  - destruct Hok as (Hr & Hs & Hev & cell & Hc & Hle & Hlost & HP).
    destruct (reading_bounds _ _ _ _ _ _ _ H Hb Hr) as [Hw Hw'].
    eapply at_cell_inv in Hin as (cell' & Hc' & [= -> ->]); [| done | done]. simplify_eq.
    split; [done |]. apply read_stays. split; [done |]. split; [done |]. split; [lia |].
    split; [done |]. exists cell. split; [done |]. split; [done |]. split; [done |].
    intros E. split; [exact (HP E) | done].
  - destruct Hok as (Hr & Hs & Hi & Hev & cell & Hc & Hle & Hlost & HP).
    destruct (reading_bounds _ _ _ _ _ _ _ H Hb Hr) as [Hw Hw'].
    pose proof (ring_cells _ _ _ _ H _ _ Hc) as (_ & Hst & _). unfold scratch_ok, span_size in *.
    simpl in Hin. destruct (Z.ltb_spec (Z.of_nat index) MaxPayloadSize).
    + eapply at_cell_inv in Hin as (cell' & Hc' & [= -> ->]); [| done | done]. simplify_eq.
      split; [done |]. destruct (lookup_lt_is_Some_2 (storage cell) index) as [b Hbyte]; [lia |].
      rewrite Hbyte. apply read_stays. split; [done |].
      split; [unfold scratch_ok, span_size; simpl; by rewrite length_insert |]. split; [lia |].
      split; [done |]. exists cell. split; [done |]. split; [done |]. split; [done |].
      intros E. destruct (HP E) as (? & ? & Ht). split; [done |]. split; [done |].
      apply take_S_insert; [done | lia | done].
    + inv_outcome Hin. split; [done |]. apply read_stays. split; [done |]. split; [done |].
      split; [done |]. exists cell. split; [done |]. split; [done |]. split; [done |].
      intros E. destruct (HP E) as (? & ? & Ht). split; [done |]. split; [done |].
      by rewrite !firstn_all2 in Ht by lia.
  - destruct Hok as (Hr & Hs & Hev & cell & Hc & Hle & Hlost & HP).
    destruct (reading_bounds _ _ _ _ _ _ _ H Hb Hr) as [Hw Hw'].
    eapply at_cell_inv in Hin as (cell' & Hc' & [= -> ->]); [| done | done]. simplify_eq.
    split; [done |]. destruct (Z.eqb_spec before (version cell)) as [-> | Hne].
    + destruct (HP eq_refl) as (? & ? & ?). by eapply consume_ok.
    + apply retry_ok; [done | done |]. apply Hlost. lia.
  - destruct Hok as [Hr Hlost]. pose proof Hr as (rs & -> & _). inv_outcome Hin.
    split; [done |]. by eapply refresh_ok.
Qed.

(** ** The simulation *)

Lemma reader_is_local q l begun r x :
  reader_ok q l begun r x ->
  publishing r = None /\ started r = [] /\ writing r = false /\
  (forall y, produced_at r y = y) /\ writer_ok q l r.
Proof. by destruct r. Qed.

Lemma sim_update n q l ts cs w t th th' x' q' k w' :
  ts !! 0%nat = Some (mkThread true w) ->
  threads_related (thread_ok q l (span_size (l ++ started w))) ts cs ->
  ts !! t = Some th -> is_producer th' = is_producer th ->
  w' = (if decide (t = 0%nat) then pc th' else w) ->
  ring_ok (S n) q' (l ++ k) w' ->
  cells_evolve q q' l (span_size ((l ++ k) ++ started w')) ->
  span_size (l ++ started w) <= span_size ((l ++ k) ++ started w') ->
  thread_ok q' (l ++ k) (span_size ((l ++ k) ++ started w')) t th' x' ->
  versioned_sim (S n) (mkPool q' (<[t := th']> ts)) (mkPool (l ++ k) (<[t := x']> cs)).
Proof.
  intros H0 Ht Hl Hrole Ew Hr He Hle Hok. exists w'. simpl. split; [| split; [done |]].
  - destruct (decide (t = 0%nat)) as [-> | Hne].
    + rewrite list_lookup_insert_eq by (by eapply lookup_lt_Some). subst w'.
      destruct th' as [b' pc']. simpl in *. rewrite Hl in H0. injection H0 as ->. by simplify_eq/=.
    + by rewrite list_lookup_insert_ne, Ew by done.
  - eapply threads_related_update; [exact Ht | | exact Hok].
    intros t' y z _ _ _ [Hp Hy]. split; [done |].
    destruct (publishing (pc y)); [done |]. by eapply reader_ok_evolve.
Qed.

Lemma sim_reader n q l ts cs w t th r' x' :
  ts !! 0%nat = Some (mkThread true w) -> ring_ok n q l w ->
  threads_related (thread_ok q l (span_size (l ++ started w))) ts cs ->
  ts !! t = Some th -> publishing (pc th) = None -> started (pc th) = [] ->
  reader_ok q l (span_size (l ++ started w)) r' x' ->
  (is_producer th = true <-> t = 0%nat) ->
  (t = 0%nat -> writing (pc th) = false /\ forall y, produced_at (pc th) y = y) ->
  versioned_sim (S n) (mkPool q (<[t := mkThread (is_producer th) r']> ts)) (mkPool l (<[t := x']> cs)).
Proof.
  intros H0 Hr Ht Hl Hp Hs Hok Hrole Hw.
  destruct (reader_is_local _ _ _ _ _ Hok) as (P1 & P2 & P3 & P4 & P5).
  set (w' := if decide (t = 0%nat) then r' else w).
  assert (Est : started w' = started w).
  { unfold w'. destruct (decide (t = 0%nat)) as [-> |]; [| done].
    rewrite Hl in H0. injection H0 as ->. simpl in Hs. by rewrite P2, Hs. }
  rewrite <- (app_nil_r l) at 1.
  eapply (sim_update n q l ts cs w t th _ _ q [] w'); rewrite ?app_nil_r, ?Est; try done.
  - unfold w'. destruct (decide (t = 0%nat)) as [-> |]; [| by apply ring_ok_weaken].
    rewrite Hl in H0. injection H0 as ->. simpl in *. destruct (Hw eq_refl) as [W1 W2].
    eapply ring_ok_local; [exact Hr | by rewrite P2, Hs | by rewrite P3, W1 | | done].
    intros y. by rewrite P4, W2.
  - by apply cells_evolve_refl.
  - split; simpl; [done |]. by rewrite P1.
Qed.

Lemma pending_publish w (cs : list (pending McOp McRes)) st p :
  cs !! 0%nat = Some (Open (McPublish p) []) -> Forall2 possible cs st ->
  span_size p <= MaxPayloadSize -> started w = [p] -> publish_pending MaxPayloadSize st.
Proof.
  intros H0 Hst Hp Hw. destruct (Forall2_lookup_l _ _ _ _ _ Hst H0) as (y & Hy & Hpos).
  exists 0%nat, p. split; [| done]. rewrite Hy. f_equal.
  inversion Hpos as [| ? ? ? Hin]; [done | by apply not_elem_of_nil in Hin].
Qed.

Lemma started_publishes n q l w :
  ring_ok n q l w -> started w <> [] ->
  exists p, started w = [p] /\ publishing w = Some p /\ span_size p <= MaxPayloadSize.
Proof.
  intros H Hs. pose proof (ring_writer _ _ _ _ H) as Hw.
  destruct w; simpl in Hw; try done; (eexists; split; [done |]; split; [done |]); tauto.
Qed.

Definition versioned_bounded (n : nat) : Prop := Z.of_nat n + 1 < u64_modulus.

Abbreviation lossy_contract := (mc_spec MaxPayloadSize cap true).

Section simulates.

Context (n : nat) (q : VersionedSPMCQueue) (l : log) (ts : list versioned_thread)
  (cs : list (pending McOp McRes)) (w : versioned_pc) (t : nat) (th : versioned_thread)
  (x : pending McOp McRes).
Hypothesis Hb : versioned_bounded (S n).
Hypothesis H0 : ts !! 0%nat = Some (mkThread true w).
Hypothesis Hring : ring_ok n q l w.
Hypothesis Hts : threads_related (thread_ok q l (span_size (l ++ started w))) ts cs.
Hypothesis Hth : ts !! t = Some th.
Hypothesis Hx : cs !! t = Some x.
Hypothesis Hrole : is_producer th = true <-> t = 0%nat.

Lemma simulate_publish p q' pc' :
  publishing (pc th) = Some p -> is_producer th = true -> x = Open (McPublish p) [] ->
  (q', pc') ∈ publish_step q (pc th) ->
  exists c', match_step (spec_step lossy_contract) (mkPool l cs) None c' /\
    versioned_sim (S n) (mkPool q' (<[t := mkThread (is_producer th) pc']> ts)) c'.
Proof using Hcap Hb H0 Hring Hts Hth Hx Hrole.
  intros Hp Hpr -> Hin. unfold versioned_bounded in Hb.
  assert (t = 0%nat) as Et by (by apply Hrole). assert (Ew : pc th = w).
  { rewrite Et, H0 in Hth. by injection Hth as <-. }
  rewrite Ew in Hp, Hin.
  assert (Hok : forall l' b pc1 x1, publishing pc1 = Some p /\ x1 = Open (McPublish p) [] \/
    (exists res, pc1 = VDone res /\ x1 = Closed res) ->
    thread_ok q' l' b t (mkThread (is_producer th) pc1) x1).
  { intros l' b pc1 x1 [[E ->] | (res & -> & ->)]; (split; [done |]); simpl; [by rewrite E | done]. }
  destruct (publish_step_ok n q l w p q' pc' Hb Hring Hp Hin) as
    [q' pc' Hr Hp' He Hle | Hr Hbig Hs | q' Hr Hfit Hs Hc].
  - eexists. split; [apply match_stutter |].
    rewrite <- (app_nil_r l) at 1. rewrite <- (list_insert_id cs t _ Hx).
    eapply (sim_update n q l ts cs w t th _ _ q' [] pc'); rewrite ?app_nil_r; try done;
      [by rewrite decide_True | apply Hok; auto].
  - eexists. split.
    + eapply match_one, spec_effect with (r := McWritten (mkWrite message_too_large 0)); [exact Hx |].
      intros st _. constructor. unfold mc_publish. by rewrite (proj2 (Z.ltb_lt _ _) Hbig).
    + rewrite <- (app_nil_r l) at 1.
      eapply (sim_update n q l ts cs w t th _ _ q [] (VDone _)); rewrite ?app_nil_r;
        first [exact Hr | exact H0 | done | by rewrite decide_True | by apply cells_evolve_refl
              | by rewrite Hs, ?app_nil_r | apply Hok; by eauto].
  - eexists. split.
    + eapply match_one, spec_effect with (r := McWritten (mkWrite success (span_size l + 1))); [exact Hx |].
      intros st _. constructor. unfold mc_publish. by rewrite (proj2 (Z.ltb_ge _ _) Hfit).
    + eapply (sim_update n q l ts cs w t th _ _ q' [p] (VDone _));
        first [exact Hr | exact H0 | done | by rewrite decide_True | by apply cells_evolve_refl
              | by rewrite Hs, ?app_nil_r | apply Hok; by eauto].
Qed.

Lemma simulate_read r' :
  publishing (pc th) = None -> reader_ok q l (span_size (l ++ started w)) (pc th) x ->
  read_progress q l w x r' ->
  exists c', match_step (spec_step lossy_contract) (mkPool l cs) None c' /\
    versioned_sim (S n) (mkPool q (<[t := mkThread (is_producer th) r']> ts)) c'.
Proof using Hcap H0 Hring Hts Hth Hx Hrole.
  intros Hp Hok Hpr. destruct (reader_is_local _ _ _ _ _ Hok) as (_ & P2 & P3 & P4 & _).
  assert (Hsim : forall r1 x1, reader_ok q l (span_size (l ++ started w)) r1 x1 ->
    versioned_sim (S n) (mkPool q (<[t := mkThread (is_producer th) r1]> ts)) (mkPool l (<[t := x1]> cs))).
  { intros r1 x1 H1. by eapply sim_reader. }
  destruct Hpr as [r1 H1 | o res r1 -> Hsp H1 | o rs res -> Hsp | o rs res -> Hin].
  - eexists. split; [apply match_stutter |]. rewrite <- (list_insert_id cs t _ Hx). by apply Hsim.
  - eexists. split; [eapply match_one, (spec_observe _ _ _ _ _ [] res); [exact Hx |] | by apply Hsim].
    intros st _. apply Hsp.
  - eexists. split; [eapply match_one, (spec_effect _ _ _ _ _ rs res); [exact Hx |] | by apply Hsim].
    intros st Hst. apply Hsp. intros Hs.
    destruct (started_publishes _ _ _ _ Hring Hs) as (p & Es & Epub & Hfit).
    destruct (threads_related_lookup _ _ _ _ _ Hts H0) as (x0 & Hx0 & _ & Hx0').
    simpl in Hx0'. rewrite Epub in Hx0'. destruct Hx0' as [_ ->]. by eapply pending_publish.
  - eexists. split; [eapply match_one, (spec_choose _ _ _ _ _ rs res); [exact Hx | done] | by apply Hsim].
Qed.

End simulates.

Lemma simulate_call n q l ts cs w t th o th' :
  ts !! 0%nat = Some (mkThread true w) -> ring_ok n q l w ->
  threads_related (thread_ok q l (span_size (l ++ started w))) ts cs ->
  ts !! t = Some th -> (is_producer th = true <-> t = 0%nat) ->
  versioned_call th o = Some th' ->
  versioned_sim (S n) (mkPool q (<[t := th']> ts)) (mkPool l (<[t := Open o []]> cs)).
Proof using Hcap.
  intros H0 Hr Ht Hl Hrole Hc. unfold versioned_call in Hc.
  destruct (pc th) eqn:Epc; try done.
  destruct o as [payload | | c d |]; simplify_eq;
    try (eapply (sim_reader n q l ts cs w t th); rewrite ?Epc; done).
  destruct (is_producer th) eqn:Ep; [| done]. simplify_eq.
  assert (t = 0%nat) as Et by (by apply Hrole). rewrite Et in Hl. rewrite Hl in H0.
  injection H0 as ->. simpl in *. subst w t. rewrite <- (app_nil_r l) at 1.
  eapply (sim_update n q l ts cs VIdle 0 _ _ _ q [] (VPublishStart payload)); rewrite ?app_nil_r;
    first [exact Hl | done | by apply cells_evolve_refl | by eapply ring_ok_local | idtac].
  simpl in Ht. by rewrite app_nil_r in Ht.
Qed.

Lemma reader_progress n q l w r x q' r' :
  versioned_bounded n -> ring_ok n q l w ->
  reader_ok q l (span_size (l ++ started w)) r x ->
  (q', r') ∈ versioned_step q r -> q' = q /\ read_progress q l w x r'.
Proof using Hcap Hmax.
  intros Hb Hr Hok Hin. unfold versioned_bounded in Hb. pose proof (ring_count _ _ _ _ Hr) as Hn.
  pose proof (span_size_nonneg l).
  destruct (reader_is_local _ _ _ _ _ Hok) as (Hp & _).
  assert (publish_step q r = []) as Hnil by (by destruct r).
  unfold versioned_step in Hin. rewrite Hnil in Hin. simpl in Hin.
  destruct r; try (by eapply read_step_ok); simpl in Hok; subst x; inv_outcome Hin; (split; [done |]);
    (eapply read_effect; [done |]); intros st _.
  - unfold register_consumer, make_consumer. rewrite (ring_published _ _ _ _ Hr), u64_small; [constructor |].
    unfold span_size in *. rewrite length_app in Hn. lia.
  - unfold published_sequence. rewrite (ring_published _ _ _ _ Hr). constructor.
Qed.

Lemma versioned_simulates n p lab p' c :
  versioned_bounded (S n) -> versioned_sim n p c -> pool_step p lab p' ->
  exists c', match_step (spec_step lossy_contract) c lab c' /\ versioned_sim (S n) p' c'.
Proof using Hcap Hmax.
  intros Hb (w & H0 & Hr & Ht) Hs. destruct c as [l cs].
  destruct Hs as [q ts t th o th' Hl Hc | q ts t th q' th' Hl Hs | q ts t th r th' Hl Hret]; simpl in *;
    destruct (threads_related_lookup _ _ _ _ _ Ht Hl) as (x & Hx & Hrole & Hok).
  - eexists. split; [| by eapply simulate_call]. eapply match_one, spec_call. rewrite Hx. f_equal.
    unfold versioned_call in Hc. destruct (pc th); try done.
  - unfold versioned_tstep in Hs. apply list_elem_of_fmap in Hs as ((q1 & pc1) & [= -> ->] & Hin).
    simpl. destruct (publishing (pc th)) as [p |] eqn:Hp.
    + destruct Hok as [Hpr ->]. eapply (simulate_publish n q l ts cs w t th); eauto.
      destruct (pc th); try done; simpl in *; by rewrite app_nil_r in Hin.
    + destruct (reader_progress n q l w (pc th) x q1 pc1) as [-> Hpg]; try done.
      { unfold versioned_bounded in *. lia. }
      by eapply (simulate_read n q l ts cs w t th x).
  - unfold versioned_ret in Hret. destruct (pc th) eqn:Epc; try done. simpl in *. simplify_eq.
    eexists. split; [by eapply match_one, spec_ret |].
    eapply (sim_reader n q l ts cs w t th); rewrite ?Epc; done.
Qed.

Lemma versioned_sim_init q k :
  VersionedSPMCQueue_new MaxPayloadSize cap = returns q ->
  versioned_sim 0 (versioned_init q k) (mkPool [] (replicate (S k) Free)).
Proof using Hcap Hmax.
  unfold VersionedSPMCQueue_new, validate_capacity. case_tests; [done |]. intros [= <-].
  exists VIdle. split; [done |]. simpl. split; [split; simpl; try done |].
  - by rewrite length_replicate.
  - intros i cell [-> _]%lookup_replicate. simpl. split; [lia |]. unfold span_size. simpl.
    rewrite length_replicate. split; [lia | by left].
  - unfold span_size. simpl. lia.
  - split; [simpl; by rewrite !length_replicate |]. intros [| t] th x Hth Hx; simpl in *.
    + simplify_eq. by split.
    + apply lookup_replicate in Hth as [-> _], Hx as [-> _]. by split.
Qed.

Lemma versioned_exec_sim q k n h p :
  VersionedSPMCQueue_new MaxPayloadSize cap = returns q -> versioned_bounded n ->
  exec pool_step n (versioned_init q k) h p ->
  exists m c, exec (spec_step lossy_contract) m (mkPool [] (replicate (S k) Free)) h c /\
    versioned_sim n p c.
Proof using Hcap Hmax.
  intros Hq Hb Hex.
  eapply (simulation_exec pool_step (spec_step lossy_contract) versioned_sim versioned_bounded);
    [| | exact Hb | by apply versioned_sim_init | exact Hex].
  - unfold versioned_bounded. lia.
  - apply versioned_simulates.
Qed.

End invariant.

End VersionedConcurrent.

(** ** Theorems *)

(** Every interleaving of one publishing thread with any number of readers,
    down to single bytes of a cell, is linearizable to the multicast contract in
    which a reader may be told [overwritten], but only when its message has been
    or is being overwritten, and then resumes at the oldest retained sequence
    without moving backwards. *)
Theorem versioned_linearizable MaxPayloadSize cap q k n h p :
  0 <= MaxPayloadSize -> 0 <= cap < u64_modulus ->
  VersionedSPMCQueue_new MaxPayloadSize cap = returns q ->
  Z.of_nat n + 1 < u64_modulus ->
  exec (pool_step (ConcurrentObject0 := versioned_object MaxPayloadSize)) n (versioned_init q k) h p ->
  linearizable (mc_spec MaxPayloadSize cap true) [] (S k) h.
Proof.
  intros Hmax Hc Hq Hb Hex. assert (0 < cap < u64_modulus) as Hcap.
  { unfold VersionedSPMCQueue_new, validate_capacity in Hq. case_tests_in Hq; [done | lia]. }
  destruct (versioned_exec_sim MaxPayloadSize cap Hcap Hmax q k n h p Hq Hb Hex) as (m & c & Hm & _).
  by eapply speculation_sound.
Qed.

(** C17: Publishing and reading are wait-free: whatever the other threads do, a
    call makes at most [versioned_bound] of its own steps, which counts the 64
    attempts of the retry loop, and always has a next step until it returns. *)
Theorem versioned_wait_free MaxPayloadSize :
  wait_free (ConcurrentObject0 := versioned_object MaxPayloadSize)
    (versioned_bound MaxPayloadSize) (fun th => pc th = VOutOfBounds).
Proof.
  eapply (wait_free_by_measure (versioned_measure MaxPayloadSize) (fun th => pc th <> VIdle)).
  - apply versioned_measure_decreases.
  - intros [b l] o th Hc. simpl in Hc. unfold versioned_call in Hc. simpl in Hc.
    destruct l; try done. destruct o; [destruct b | ..]; simplify_eq; (split; [| done]);
      unfold versioned_measure, versioned_bound, attempt_cost, read_attempts; cbn [pc]; try lia.
    destruct (Z.ltb_spec MaxPayloadSize (span_size payload)); [lia |]. unfold span_size in *. lia.
  - intros q th q' th' _ Hs. simpl in Hs. unfold versioned_tstep in Hs.
    apply list_elem_of_fmap in Hs as ((q1 & l1) & [= -> ->] & Hin). simpl. intros ->.
    by apply versioned_step_not_idle in Hin.
  - intros q th Hi Hr Hok. simpl in *. unfold versioned_tstep. intros E%fmap_nil_inv.
    apply (versioned_step_exists MaxPayloadSize q (pc th)); try done.
    intros r Er. unfold versioned_ret in Hr. by rewrite Er in Hr.
Qed.

(** No read is ever torn: the bytes of every successful read that returns
    are the whole payload of one publication, however the producer overlapped the
    copy; and no thread ever leaves the ring or a cell's storage. *)
Theorem versioned_untorn MaxPayloadSize cap q k n h p :
  0 <= MaxPayloadSize -> 0 <= cap < u64_modulus ->
  VersionedSPMCQueue_new MaxPayloadSize cap = returns q ->
  Z.of_nat n + 1 < u64_modulus ->
  exec (pool_step (ConcurrentObject0 := versioned_object MaxPayloadSize)) n (versioned_init q k) h p ->
  (forall t r c destination, Ret t (McReadDone r c destination) ∈ h -> r_status r = success ->
     exists t' payload, Call t' (McPublish payload) ∈ h /\
       bytes_read r = span_size payload /\ take (length payload) destination = payload) /\
  (forall t th, threads p !! t = Some th -> pc th <> VOutOfBounds).
Proof.
  intros Hmax Hc Hq Hb Hex. assert (0 < cap < u64_modulus) as Hcap.
  { unfold VersionedSPMCQueue_new, validate_capacity in Hq. case_tests_in Hq; [done | lia]. }
  destruct (versioned_exec_sim MaxPayloadSize cap Hcap Hmax q k n h p Hq Hb Hex)
    as (m & c & Hm & w & _ & _ & Hts). split.
  - apply speculation_sound in Hm as (m' & [l cs] & Hm').
    apply (contract_history id id) in Hm'; [| by eauto using mc_spec_log | | done].
    + intros t r c0 d Hin Hok.
      destruct (ho_returned _ _ _ _ _ Hm' t r c0 d Hin Hok) as (payload & (t' & o & Hcall & [= ->]) & Hrest). eauto.
    + intros cs0 l0 o r c0 d l1 h0 Hs Hlog Hok.
      destruct (mc_spec_entry MaxPayloadSize cap true (proj1 Hcap) _ _ _ _ _ _ _ Hs Hok) as (payload & Hin & Hrest). eauto.
  - intros t th Hth E. destruct (threads_related_lookup _ _ _ _ _ Hts Hth) as (x & _ & _ & Hok).
    by rewrite E in Hok.
Qed.

(** Run without interference, the split code of [try_publish] and
    [Consumer::try_read] computes what the member functions compute, on every
    queue state, out-of-range subscripts included. *)
Theorem versioned_split_faithful MaxPayloadSize q payload c destination :
  match try_publish MaxPayloadSize q payload with
  | Some (r, q') => runs MaxPayloadSize q (VPublishStart payload) q' (VDone (McWritten r))
  | None => exists q', runs MaxPayloadSize q (VPublishStart payload) q' VOutOfBounds
  end /\
  match Consumer_try_read MaxPayloadSize q c destination with
  | Some (r, c', d') => runs MaxPayloadSize q (VReadStart c destination) q (VDone (McReadDone r c' d'))
  | None => exists q', runs MaxPayloadSize q (VReadStart c destination) q' VOutOfBounds
  end.
Proof.
  split.
  - pose proof (publish_runs MaxPayloadSize q payload) as H. unfold runs_or_fails in H.
    by destruct (try_publish _ _ _) as [[r q'] |].
  - pose proof (read_runs MaxPayloadSize q c destination) as H. unfold runs_or_fails in H.
    by destruct (Consumer_try_read _ _ _ _) as [[[r c'] d'] |].
Qed.

(** ** Witnesses *)

Definition small_versioned : VersionedSPMCQueue :=
  mkVersioned 1 [fresh_cell 2] 0 0.

Definition steps (t n : nat) : list (choice McOp) := replicate n (DoStep t 0).

(** Capacity one.  The reader copies half of the first message, the producer
    overwrites the cell, the reader notices and resumes at the second one. *)
Definition overlapped_schedule : list (choice McOp) :=
  [DoCall 0 (McPublish [Byte.x61; Byte.x62])] ++ steps 0 11 ++ [DoRet 0] ++
  [DoCall 1 (McRead (Consumer_new 1) [Byte.x00; Byte.x00])] ++ steps 1 6 ++
  [DoCall 0 (McPublish [Byte.x63])] ++ steps 0 10 ++ [DoRet 0] ++
  steps 1 11 ++ [DoRet 1] ++
  [DoCall 1 (McRead (Consumer_new 2) [Byte.x00; Byte.x00])] ++ steps 1 9 ++ [DoRet 1].

Definition overlapped_history : list (event McOp McRes) :=
  [Call 0 (McPublish [Byte.x61; Byte.x62]); Ret 0 (McWritten (mkWrite success 1));
   Call 1 (McRead (Consumer_new 1) [Byte.x00; Byte.x00]);
   Call 0 (McPublish [Byte.x63]); Ret 0 (McWritten (mkWrite success 2));
   Ret 1 (McReadDone (mkRead overwritten 0 2) (Consumer_new 2) [Byte.x00; Byte.x00]);
   Call 1 (McRead (Consumer_new 2) [Byte.x00; Byte.x00]);
   Ret 1 (McReadDone (mkRead success 1 2) (Consumer_new 3) [Byte.x63; Byte.x00])].

Definition overlapped_end : pool VersionedSPMCQueue versioned_thread :=
  mkPool (mkVersioned 1 [mkCell 4 2 1 [Byte.x63; Byte.x62]] 2 2)
    [mkThread true VIdle; mkThread false VIdle].

Lemma overlapped_runs :
  run_schedule (ConcurrentObject0 := versioned_object 2) (versioned_init small_versioned 1)
    overlapped_schedule = Some (overlapped_history, overlapped_end).
Proof. vm_compute. reflexivity. Qed.

Lemma versioned_linearizable_witness :
  linearizable (mc_spec 2 1 true) [] 2 overlapped_history.
Proof.
  eapply (versioned_linearizable 2 1 small_versioned 1 (length overlapped_schedule));
    [lia | by vm_compute | done | by vm_compute |].
  apply run_schedule_exec, overlapped_runs.
Defined.

Lemma versioned_untorn_witness :
  exists t' payload, Call t' (McPublish payload) ∈ overlapped_history /\
    1 = span_size payload /\ take (length payload) [Byte.x63; Byte.x00] = payload.
Proof.
  destruct (versioned_untorn 2 1 small_versioned 1 (length overlapped_schedule) overlapped_history
    overlapped_end ltac:(lia) ltac:(by vm_compute) eq_refl ltac:(by vm_compute)
    (run_schedule_exec _ _ _ _ overlapped_runs)) as [H _].
  apply (H 1%nat (mkRead success 1 2) (Consumer_new 3)); [| done].
  unfold overlapped_history. set_unfold. tauto.
Defined.
