(* ===== verification/VersionedSequential.v ===== *)
(** * [VersionedSPMCQueue] used by one thread at a time

    Publications, registrations and reads as the pure functions of
    [VersionedSPMCQueue.v].  Theorem: a new queue answers every sequence of calls, with
    whatever consumer handles, as the multicast contract does: in order, byte for byte,
    with a reported lag when the handle has fallen out of the retained window, and
    never with [overwritten], which only a concurrent publication can cause. *)

From S2P Require Import Prelude Result FixedMessage Concurrency MulticastContract VersionedSPMCQueue VersionedConcurrent.

(** The contract as a function. *)
Definition mc_apply (MaxPayloadSize cap : Z) (l : log) (o : McOp) : McRes * log :=
  match o with
  | McPublish payload => let '(r, l') := mc_publish MaxPayloadSize l payload in (McWritten r, l')
  | McRegister => (McRegistered (Consumer_new (span_size l + 1)), l)
  | McRead c d => let '(r, c', d') := mc_read cap l c d in (McReadDone r c' d', l)
  | McPublished => (McPublishedIs (span_size l), l)
  end.

Fixpoint mc_run (MaxPayloadSize cap : Z) (l : log) (os : list McOp) : list McRes * log :=
  match os with
  | [] => ([], l)
  | o :: os =>
      let '(r, l1) := mc_apply MaxPayloadSize cap l o in
      let '(rs, l2) := mc_run MaxPayloadSize cap l1 os in (r :: rs, l2)
  end.

Section sequential.

Context (MaxPayloadSize cap : Z).

Definition versioned_apply (q : VersionedSPMCQueue) (o : McOp) : option (McRes * VersionedSPMCQueue) :=
  match o with
  | McPublish payload => '(r, q') ← try_publish MaxPayloadSize q payload; Some (McWritten r, q')
  | McRegister => Some (McRegistered (register_consumer q), q)
  | McRead c d => '(r, c', d') ← Consumer_try_read MaxPayloadSize q c d; Some (McReadDone r c' d', q)
  | McPublished => Some (McPublishedIs (published_sequence q), q)
  end.

Fixpoint versioned_run (q : VersionedSPMCQueue) (os : list McOp) : option (list McRes * VersionedSPMCQueue) :=
  match os with
  | [] => Some ([], q)
  | o :: os => '(r, q1) ← versioned_apply q o; '(rs, q2) ← versioned_run q1 os; Some (r :: rs, q2)
  end.

(** A queue with no call in progress: every version is even, and the retained
    publications are in their cells. *)
Record versioned_repr (q : VersionedSPMCQueue) (l : log) : Prop := {
  vr_capacity : capacity_ q = cap;
  vr_length : length (cells_ q) = Z.to_nat cap;
  vr_published : published_ q = span_size l;
  vr_produced : produced_ q = span_size l;
  vr_cells : Forall (fun cell => Z.even (version cell) = true /\ length (storage cell) = Z.to_nat MaxPayloadSize) (cells_ q);
  vr_retained : forall s, 1 <= s -> span_size l - cap < s <= span_size l ->
    cell_at cap q s (holds (entry l s));
}.

Hypothesis Hcap : 0 < cap < u64_modulus.
Hypothesis Hmax : 0 <= MaxPayloadSize.

Lemma versioned_repr_new q : VersionedSPMCQueue_new MaxPayloadSize cap = returns q -> versioned_repr q [].
Proof using Hcap Hmax.
  unfold VersionedSPMCQueue_new, validate_capacity. case_tests; [done |]. intros [= <-]. split; cbn; try done.
  - by rewrite length_replicate.
  - apply Forall_replicate. cbn. by rewrite length_replicate.
  - unfold span_size. simpl. lia.
Qed.

Lemma u64_even x : Z.even (u64 x) = Z.even x.
Proof.
  rewrite (Z.div_mod x u64_modulus) at 2 by done. rewrite Z.even_add, Z.even_mul.
  change (Z.even u64_modulus) with true. fold (u64 x). by destruct (Z.even (u64 x)).
Qed.

(** *** The byte loops *)

Lemma store_bytes_spec payload : forall cell index,
  (index + length payload <= length (storage cell))%nat ->
  exists cell', store_bytes cell index payload = Some cell' /\ version cell' = version cell /\
    c_sequence cell' = c_sequence cell /\ c_size cell' = c_size cell /\ length (storage cell') = length (storage cell) /\
    take (index + length payload) (storage cell') = take index (storage cell) ++ payload.
Proof.
  induction payload as [| b payload IH]; intros cell index Hlen; cbn [store_bytes length] in *.
  { exists cell. by rewrite Nat.add_0_r, app_nil_r. }
  destruct (lookup_lt_is_Some_2 (storage cell) index) as [b0 Hb]; [lia |]. rewrite Hb. cbn [mbind option_bind].
  destruct (IH (set_byte cell index b) (S index)) as (cell' & E & H1 & H2 & H3 & H4 & H5); [cbn; rewrite length_insert; lia |].
  exists cell'. rewrite E. cbn in *. rewrite length_insert in H4. split_and!; try done.
  rewrite Nat.add_succ_r, H5, (take_S_r _ index b) by (apply list_lookup_insert_eq; lia).
  rewrite take_insert_ge by lia. by rewrite <- app_assoc.
Qed.

Lemma load_bytes_spec cell n : forall scratch index,
  (index + n = length (storage cell))%nat -> length scratch = length (storage cell) ->
  take index scratch = take index (storage cell) -> load_bytes cell scratch index n = Some (storage cell).
Proof.
  induction n as [| n IH]; intros scratch index Hn Hl Ht; cbn [load_bytes].
  { f_equal. rewrite Nat.add_0_r in Hn. by rewrite Hn, firstn_all, <- Hl, firstn_all in Ht. }
  destruct (lookup_lt_is_Some_2 (storage cell) index) as [b Hb]; [lia |]. rewrite Hb. cbn [mbind option_bind].
  apply IH; [lia | by rewrite length_insert |]. apply take_S_insert; [done | lia | done].
Qed.

(** *** The operations *)

Lemma versioned_publish_spec q l payload :
  versioned_repr q l -> span_size l + 1 < u64_modulus ->
  exists q', try_publish MaxPayloadSize q payload = Some ((mc_publish MaxPayloadSize l payload).1, q') /\
    versioned_repr q' (mc_publish MaxPayloadSize l payload).2.
Proof using Hcap.
  intros Hrep Hb. pose proof Hrep as [Hc Hlen Hp Hpr Hs Hr]. pose proof (span_size_nonneg l) as Hn.
  unfold try_publish, mc_publish. destruct (Z.ltb_spec MaxPayloadSize (span_size payload)) as [| Hfit]; [by exists q |].
  rewrite Hpr, (u64_small (span_size l + 1)) by lia. rewrite (cell_index_idx cap q) by (done || lia).
  set (s := span_size l + 1). pose proof (idx_lt cap Hcap q s Hlen) as Hlt.
  destruct (lookup_lt_is_Some_2 _ _ Hlt) as [cell Hcell]. rewrite Hcell. cbn [mbind option_bind].
  destruct (Forall_lookup_1 _ _ _ _ Hs Hcell) as [Hev Hst].
  destruct (store_bytes_spec payload (set_size (set_sequence (set_version cell (version cell +u 1)) s) (span_size payload)) 0)
    as (cell' & E & _ & H2 & H3 & H4 & H5).
  { cbn. rewrite Hst. unfold span_size in Hfit. lia. }
  rewrite E. cbn [mbind option_bind fst snd]. eexists. split; [done |].
  assert (Hss : span_size (l ++ [payload]) = s) by (unfold s, span_size; rewrite length_app; simpl; lia).
  split; cbn [set_published set_produced set_cell capacity_ cells_ published_ produced_]; try done.
  - by rewrite length_insert.
  - apply Forall_insert; [done |]. cbn. cbn in H4. split; [| by rewrite H4].
    rewrite u64_even, Z.even_add, Hev. done.
  - rewrite Hss. intros s' Hs1 Hs2. destruct (decide (s' = s)) as [-> | Hne].
    + eexists. split; [by apply list_lookup_insert_eq |]. unfold holds, entry. cbn [set_version c_sequence c_size storage fst snd].
      replace (Z.to_nat (s - 1)) with (length l) by (unfold s, span_size; lia).
      rewrite lookup_app_r, Nat.sub_diag by lia. cbn. cbn in H2, H3, H5. split_and!; done.
    + destruct (Hr s' Hs1 ltac:(lia)) as (c0 & Hc0 & Hh). exists c0. rewrite entry_app by lia.
      split; [| done]. cbn. rewrite list_lookup_insert_ne; [done |]. apply idx_ne; lia.
Qed.

(** The first attempt of the retry loop succeeds. *)
Lemma seqlock_read_spec q i cell snap attempts :
  cells_ q !! i = Some cell -> Z.even (version cell) = true -> length (storage cell) = Z.to_nat MaxPayloadSize ->
  length (scratch snap) = Z.to_nat MaxPayloadSize ->
  seqlock_read MaxPayloadSize q i snap (S attempts) = Some (true, mkSnapshot (c_sequence cell) (c_size cell) (storage cell)).
Proof.
  intros Hc He Hl Hs. cbn [seqlock_read]. rewrite Hc. cbn [mbind option_bind]. rewrite even_land_one, He. cbn [negb].
  rewrite load_bytes_spec by (done || lia). cbn [mbind option_bind]. by rewrite Z.eqb_refl.
Qed.

Lemma versioned_read_spec q l c d :
  versioned_repr q l -> span_size l + 1 < u64_modulus ->
  Consumer_try_read MaxPayloadSize q c d = Some (mc_read cap l c d).
Proof using Hcap.
  intros [Hc Hlen Hp Hpr Hs Hr] Hb. unfold Consumer_try_read, mc_read. destruct (queue_ c) eqn:Hq; [cbn [negb] | done].
  unfold read. rewrite Hp, Hq, (oldest_retained_spec cap Hcap) by done.
  destruct (Z.ltb_spec (span_size l) (next_sequence_ c)); [done |].
  destruct (Z.ltb_spec (next_sequence_ c) (oldest cap l)) as [| Ho]; [done |].
  pose proof (oldest_pos cap ltac:(lia) l) as Hpos. set (want := next_sequence_ c) in *.
  destruct (Hr want) as (cell & Hcell & Hseq & Hsize & Hbytes); [lia | |].
  { split; [| done]. unfold oldest in Ho. case_tests_in Ho; lia. }
  rewrite (cell_index_idx cap q) by (done || lia). destruct (Forall_lookup_1 _ _ _ _ Hs Hcell) as [Hev Hst].
  unfold read_attempts. rewrite (seqlock_read_spec q _ cell) by (done || by cbn; rewrite length_replicate). cbn [mbind option_bind stored_sequence stored_size scratch].
  cbn [entry fst] in Hseq. rewrite Hseq, Z.eqb_refl, Hsize. cbn [negb orb]. unfold deliver.
  destruct (Z.ltb_spec (span_size d) (span_size (entry l want).2)); cbn [ok r_status]; [by destruct c; simplify_eq/= |].
  rewrite u64_small by lia. unfold std_copy_n, span_size. by rewrite Nat2Z.id, Hbytes.
Qed.

Lemma versioned_apply_spec q l o :
  versioned_repr q l -> span_size l + 1 < u64_modulus ->
  exists q', versioned_apply q o = Some ((mc_apply MaxPayloadSize cap l o).1, q') /\
    versioned_repr q' (mc_apply MaxPayloadSize cap l o).2 /\ span_size (mc_apply MaxPayloadSize cap l o).2 <= span_size l + 1.
Proof using Hcap.
  intros Hrep Hb. pose proof (span_size_nonneg l) as Hn. destruct o as [payload | | c d |]; cbn [versioned_apply mc_apply].
  - destruct (versioned_publish_spec q l payload Hrep Hb) as (q' & -> & Hrep'). cbn [mbind option_bind].
    exists q'. unfold mc_publish in *. case_tests; cbn in *; (split; [done | split; [done |]]); [lia |].
    unfold span_size. rewrite length_app. simpl. lia.
  - exists q. unfold register_consumer, make_consumer. rewrite (vr_published _ _ Hrep), u64_small by lia. by split_and!; [.. | cbn; lia].
  - rewrite (versioned_read_spec q l) by done. cbn [mbind option_bind]. destruct (mc_read cap l c d) as [[r c'] d'].
    exists q. by split_and!; [.. | cbn; lia].
  - exists q. unfold published_sequence. rewrite (vr_published _ _ Hrep). by split_and!; [.. | cbn; lia].
Qed.

Lemma versioned_run_spec os : forall q l,
  versioned_repr q l -> span_size l + Z.of_nat (length os) < u64_modulus ->
  exists q', versioned_run q os = Some ((mc_run MaxPayloadSize cap l os).1, q').
Proof using Hcap.
  induction os as [| o os IH]; intros q l Hrep Hb; [by exists q |]. cbn [versioned_run mc_run length] in *.
  destruct (versioned_apply_spec q l o Hrep) as (q1 & -> & Hrep1 & Hl); [lia |]. cbn [mbind option_bind].
  destruct (mc_apply _ _ l o) as [r l1]. cbn [fst snd] in *. destruct (IH q1 l1 Hrep1) as (q2 & ->); [lia |].
  cbn [mbind option_bind]. destruct (mc_run _ _ l1 os) as [rs l2]. by exists q2.
Qed.

End sequential.

(** C20: Used by one thread at a time, a new [VersionedSPMCQueue] answers every sequence
    of publications, registrations and reads, with any consumer handles, exactly as the
    multicast contract: the retained publication of the handle's number byte for byte,
    [empty], a lag or an error status with the cursor moved accordingly, and never
    [overwritten]. *)
Theorem versioned_run_refines_log MaxPayloadSize cap q os :
  0 <= MaxPayloadSize -> 0 < cap < u64_modulus -> VersionedSPMCQueue_new MaxPayloadSize cap = returns q ->
  Z.of_nat (length os) < u64_modulus ->
  exists q', versioned_run MaxPayloadSize q os = Some ((mc_run MaxPayloadSize cap [] os).1, q').
Proof.
  intros HM Hc Hnew Hb. apply (versioned_run_spec MaxPayloadSize cap Hc os q []); [by apply versioned_repr_new | done].
Qed.

(** One slot: a lag after the second publication, then the message, then nothing. *)
Definition sample_calls : list McOp :=
  [McPublish [Byte.x61; Byte.x62]; McPublish [Byte.x63]; McPublish [Byte.x61; Byte.x62; Byte.x63]; McPublished;
   McRead (Consumer_new 1) [Byte.x00; Byte.x00]; McRead (Consumer_new 2) [Byte.x00; Byte.x00];
   McRead (Consumer_new 3) [Byte.x00; Byte.x00]; McRead (mkConsumer false 2) []].

Lemma versioned_run_refines_log_witness :
  exists q', versioned_run 2 (mkVersioned 1 [fresh_cell 2] 0 0) sample_calls =
    Some ([McWritten (mkWrite success 1); McWritten (mkWrite success 2); McWritten (mkWrite message_too_large 0); McPublishedIs 2;
           McReadDone (mkRead consumer_lagged 0 2) (Consumer_new 2) [Byte.x00; Byte.x00];
           McReadDone (mkRead success 1 2) (Consumer_new 3) [Byte.x63; Byte.x00];
           McReadDone (mkRead empty 0 3) (Consumer_new 3) [Byte.x00; Byte.x00];
           McReadDone (mkRead invalid_consumer 0 2) (mkConsumer false 2) []], q').
Proof.
  apply (versioned_run_refines_log 2 1 (mkVersioned 1 [fresh_cell 2] 0 0) sample_calls); [lia | done | reflexivity | reflexivity].
Defined.
