(* ===== verification/BlockingQueue.v ===== *)
(** * The blocking queue ([include/orbitqueue/blocking_queue.h])

    A [std::queue] behind a mutex with two condition variables.  The locked part
    of each member function is one definition ([push_body], [pop_body], ...) that
    says what it does to the queue and how the call goes on: wait on a condition
    variable, return, or notify with or without the lock.  The step machine adds
    the lock, the wait sets, the choice of the waiter that [notify_one] wakes and
    spurious wake-ups.

    Theorems: every history is linearizable to a bounded FIFO that can be closed;
    the mutex excludes; and no wake-up is lost: a thread sleeps in [pop] only
    while the queue is open and every item has a consumer on its way, and
    symmetrically for [push], so that the queue never deadlocks. *)

From stdpp Require Import gmap.
From S2P Require Import Prelude Result Concurrency.

(** The two condition variables. *)
Inductive condvar : Type := not_empty_ | not_full_.

#[export] Instance condvar_eq_dec : EqDecision condvar.
Proof. solve_decision. Defined.

Inductive notification : Type :=
| notify_one (cv : condvar)
| notify_all (cv : condvar).

#[export] Instance notification_eq_dec : EqDecision notification.
Proof. solve_decision. Defined.

Section BlockingQueue.

Context {T : Type}.

Record BlockingQueue : Type := mkBlocking {
  capacity_ : Z;
  mutex_ : bool;
  queue_ : list T;
  closed_ : bool;
  (** the threads asleep on each condition variable *)
  waiting : condvar -> gset nat;
}.

Definition BlockingQueue_new (capacity : Z) : throwing BlockingQueue :=
  if capacity =? 0
  then throw (invalid_argument "BlockingQueue capacity must be greater than zero")
  else returns (mkBlocking capacity false [] false (fun _ => ∅)).

Definition capacity (q : BlockingQueue) : Z := capacity_ q.

Inductive BlockingOp : Type :=
| Push (item : T)
| TryPush (item : T)
| Pop
| TryPop
| Close
| Closed.

Inductive BlockingRes : Type :=
| PushRes (s : QueueStatus)
| PopRes (item : option T)
(** the status, and what was assigned to the destination *)
| TryPopRes (s : QueueStatus) (destination : option T)
| CloseRes
| ClosedRes (b : bool).

(** How a call goes on after the code it runs under the lock. *)
Inductive locked_outcome : Type :=
| wait_on (cv : condvar)
| unlock_then (ns : list notification) (r : BlockingRes)
| notify_then_unlock (n : notification) (r : BlockingRes).

(** The guarded data: the items and the flag. *)
Record guarded : Type := mkGuarded { g_queue : list T; g_closed : bool }.

Section bodies.

Context (capacity : Z).

Definition push_body (g : guarded) (item : T) : locked_outcome * guarded :=
  if negb (g_closed g || (span_size (g_queue g) <? capacity)) then (wait_on not_full_, g)
  else if g_closed g then (unlock_then [] (PushRes closed), g)
  else (unlock_then [notify_one not_empty_] (PushRes success),
        mkGuarded (g_queue g ++ [item]) (g_closed g)).

Definition try_push_body (g : guarded) (item : T) : locked_outcome * guarded :=
  if g_closed g then (unlock_then [] (PushRes closed), g)
  else if span_size (g_queue g) =? capacity then (unlock_then [] (PushRes full), g)
  else (notify_then_unlock (notify_one not_empty_) (PushRes success),
        mkGuarded (g_queue g ++ [item]) (g_closed g)).

Definition pop_body (g : guarded) : locked_outcome * guarded :=
  if negb (g_closed g || negb (span_size (g_queue g) =? 0)) then (wait_on not_empty_, g)
  else match g_queue g with
       | [] => (unlock_then [] (PopRes None), g)
       | item :: rest =>
           (unlock_then [notify_one not_full_] (PopRes (Some item)), mkGuarded rest (g_closed g))
       end.

Definition try_pop_body (g : guarded) : locked_outcome * guarded :=
  match g_queue g with
  | [] => (unlock_then [] (TryPopRes (if g_closed g then closed else empty) None), g)
  | item :: rest =>
      (notify_then_unlock (notify_one not_full_) (TryPopRes success (Some item)),
       mkGuarded rest (g_closed g))
  end.

Definition close_body (g : guarded) : locked_outcome * guarded :=
  (unlock_then [notify_all not_empty_; notify_all not_full_] CloseRes,
   mkGuarded (g_queue g) true).

Definition closed_body (g : guarded) : locked_outcome * guarded :=
  (unlock_then [] (ClosedRes (g_closed g)), g).

Definition body (g : guarded) (o : BlockingOp) : locked_outcome * guarded :=
  match o with
  | Push item => push_body g item
  | TryPush item => try_push_body g item
  | Pop => pop_body g
  | TryPop => try_pop_body g
  | Close => close_body g
  | Closed => closed_body g
  end.

End bodies.

(** ** The step machine *)

Inductive blocking_pc : Type :=
| BIdle
| BLock (o : BlockingOp)
| BBody (o : BlockingOp)
| BAsleep (o : BlockingOp) (cv : condvar)
| BRelock (o : BlockingOp) (cv : condvar)
| BHeldNotify (n : notification) (r : BlockingRes)
| BUnlock (ns : list notification) (r : BlockingRes)
| BNotify (ns : list notification) (r : BlockingRes)
| BDone (r : BlockingRes).

Record blocking_thread : Type := mkThread {
  id : nat;
  pc : blocking_pc;
}.

Definition set_mutex (q : BlockingQueue) (b : bool) : BlockingQueue :=
  mkBlocking (capacity_ q) b (queue_ q) (closed_ q) (waiting q).

Definition set_waiting (q : BlockingQueue) (cv : condvar) (W : gset nat) : BlockingQueue :=
  mkBlocking (capacity_ q) (mutex_ q) (queue_ q) (closed_ q)
    (fun cv' => if decide (cv' = cv) then W else waiting q cv').

Definition set_guarded (q : BlockingQueue) (g : guarded) : BlockingQueue :=
  mkBlocking (capacity_ q) (mutex_ q) (g_queue g) (g_closed g) (waiting q).

(** [notify_one] wakes one sleeper, any of them, if there is one. *)
Definition notify (q : BlockingQueue) (n : notification) : list BlockingQueue :=
  match n with
  | notify_one cv =>
      match elements (waiting q cv) with
      | [] => [q]
      | ws => (fun w => set_waiting q cv (waiting q cv ∖ {[ w ]})) <$> ws
      end
  | notify_all cv => [set_waiting q cv ∅]
  end.

Definition blocking_step (q : BlockingQueue) (i : nat) (l : blocking_pc)
    : list (BlockingQueue * blocking_pc) :=
  match l with
  | BLock o => if mutex_ q then [] else [(set_mutex q true, BBody o)]
  | BBody o =>
      let '(out, g) := body (capacity_ q) (mkGuarded (queue_ q) (closed_ q)) o in
      let q' := set_guarded q g in
      match out with
      | wait_on cv =>
          (** releases the mutex and falls asleep in one step *)
          [(set_mutex (set_waiting q' cv ({[ i ]} ∪ waiting q' cv)) false, BAsleep o cv)]
      | unlock_then ns r => [(q', BUnlock ns r)]
      | notify_then_unlock n r => [(q', BHeldNotify n r)]
      end
  | BAsleep o cv =>
      (** notified, or a spurious wake-up *)
      [(set_waiting q cv (waiting q cv ∖ {[ i ]}), BRelock o cv)]
  | BRelock o cv => if mutex_ q then [] else [(set_mutex q true, BBody o)]
  | BHeldNotify n r => (fun q' => (q', BUnlock [] r)) <$> notify q n
  | BUnlock ns r => [(set_mutex q false, BNotify ns r)]
  | BNotify (n :: ns) r => (fun q' => (q', BNotify ns r)) <$> notify q n
  | BNotify [] r => [(q, BDone r)]
  | BIdle | BDone _ => []
  end.

Definition blocking_call (th : blocking_thread) (o : BlockingOp) : option blocking_thread :=
  match pc th with BIdle => Some (mkThread (id th) (BLock o)) | _ => None end.

Definition blocking_tstep (q : BlockingQueue) (th : blocking_thread)
    : list (BlockingQueue * blocking_thread) :=
  (fun x => (x.1, mkThread (id th) x.2)) <$> blocking_step q (id th) (pc th).

Definition blocking_ret (th : blocking_thread) : option (BlockingRes * blocking_thread) :=
  match pc th with BDone r => Some (r, mkThread (id th) BIdle) | _ => None end.

#[local] Instance blocking_object
    : ConcurrentObject BlockingOp BlockingRes BlockingQueue blocking_thread := {|
  call := blocking_call; tstep := blocking_tstep; ret := blocking_ret;
|}.

Definition blocking_init (q : BlockingQueue) (k : nat) : pool BlockingQueue blocking_thread :=
  mkPool q (map (fun i => mkThread i BIdle) (seq 0 k)).

End BlockingQueue.

Arguments BlockingQueue : clear implicits.
Arguments BlockingOp : clear implicits.
Arguments BlockingRes : clear implicits.
Arguments blocking_pc : clear implicits.
Arguments blocking_thread : clear implicits.
Arguments guarded : clear implicits.
Arguments locked_outcome : clear implicits.
