(* ===== verification/BlockingConcurrent.v ===== *)
(** * Properties of [BlockingQueue] under concurrency

    Linearizability to a closable bounded FIFO, mutual exclusion, and the
    condition-variable protocol: no lost wake-ups and no deadlock.  None of the
    theorems bounds the length of the execution or the number of threads. *)

From stdpp Require Import gmap.
From S2P Require Import Prelude Result Concurrency BlockingQueue.

Section BlockingConcurrent.

Context {T : Type}.
Implicit Types (q : BlockingQueue T) (g : guarded T) (th : blocking_thread T).

#[local] Existing Instance blocking_object.

(** ** The closable bounded FIFO *)

Section spec.

Context (cap : Z).

(** [push] and [pop] may wait: they have no effect while the queue is full, or
    empty, and open. *)
Inductive blocking_spec : guarded T -> BlockingOp T -> BlockingRes T -> guarded T -> Prop :=
| spec_push items x :
    span_size items < cap ->
    blocking_spec (mkGuarded items false) (Push x) (PushRes success) (mkGuarded (items ++ [x]) false)
| spec_push_closed items x :
    blocking_spec (mkGuarded items true) (Push x) (PushRes closed) (mkGuarded items true)
| spec_try_push items x :
    span_size items < cap ->
    blocking_spec (mkGuarded items false) (TryPush x) (PushRes success) (mkGuarded (items ++ [x]) false)
| spec_try_push_full items x :
    span_size items = cap ->
    blocking_spec (mkGuarded items false) (TryPush x) (PushRes full) (mkGuarded items false)
| spec_try_push_closed items x :
    blocking_spec (mkGuarded items true) (TryPush x) (PushRes closed) (mkGuarded items true)
| spec_pop x items b :
    blocking_spec (mkGuarded (x :: items) b) Pop (PopRes (Some x)) (mkGuarded items b)
| spec_pop_drained :
    blocking_spec (mkGuarded [] true) Pop (PopRes None) (mkGuarded [] true)
| spec_try_pop x items b :
    blocking_spec (mkGuarded (x :: items) b) TryPop (TryPopRes success (Some x)) (mkGuarded items b)
| spec_try_pop_empty :
    blocking_spec (mkGuarded [] false) TryPop (TryPopRes empty None) (mkGuarded [] false)
| spec_try_pop_drained :
    blocking_spec (mkGuarded [] true) TryPop (TryPopRes closed None) (mkGuarded [] true)
| spec_close items b :
    blocking_spec (mkGuarded items b) Close CloseRes (mkGuarded items true)
| spec_closed items b :
    blocking_spec (mkGuarded items b) Closed (ClosedRes b) (mkGuarded items b).

(** What the code under the lock does, read off its outcome. *)
Definition body_result (out : locked_outcome T) : option (BlockingRes T) :=
  match out with
  | wait_on _ => None
  | unlock_then _ r | notify_then_unlock _ r => Some r
  end.

Lemma span_size_cons {A} (x : A) l : span_size (x :: l) = span_size l + 1.
Proof. unfold span_size. simpl. lia. Qed.

Lemma span_size_app1 {A} (x : A) l : span_size (l ++ [x]) = span_size l + 1.
Proof. unfold span_size. rewrite length_app. simpl. lia. Qed.

Lemma body_spec g o out g' :
  span_size (g_queue g) <= cap -> body cap g o = (out, g') ->
  span_size (g_queue g') <= cap /\
  match body_result out with
  | Some r => blocking_spec g o r g'
  | None => g' = g
  end.
Proof.
  destruct g as [items b]. simpl. intros Hc Hb. pose proof (span_size_nonneg items) as Hn.
  destruct o as [x | x | | | |]; simpl in Hb.
  - unfold push_body in Hb. simpl in Hb.
    destruct b, (Z.ltb_spec (span_size items) cap); simpl in Hb; simplify_eq/=;
      rewrite ?span_size_app1; (split; [lia | try done; by constructor]).
  - unfold try_push_body in Hb. simpl in Hb.
    destruct b, (Z.eqb_spec (span_size items) cap); simpl in Hb; simplify_eq/=;
      rewrite ?span_size_app1; (split; [lia | try done; constructor; lia]).
  - unfold pop_body in Hb. simpl in Hb. destruct items as [| x items]; simpl in Hb.
    + destruct b; simpl in Hb; simplify_eq/=; split; try done; constructor.
    + rewrite span_size_cons in *. pose proof (span_size_nonneg items).
      destruct (Z.eqb_spec (span_size items + 1) 0); [lia |]. simpl in Hb.
      rewrite orb_true_r in Hb. simplify_eq/=. split; [lia | constructor].
  - unfold try_pop_body in Hb. simpl in Hb. destruct items as [| x items]; simplify_eq/=.
    + split; [exact Hc |]. destruct b; constructor.
    + rewrite span_size_cons in *. split; [lia | constructor].
  - unfold close_body in Hb. simplify_eq/=. split; [done | constructor].
  - unfold closed_body in Hb. simplify_eq/=. split; [done | constructor].
Qed.

(** ** Linearizability *)

Definition pc_rel (l : blocking_pc T) (st : status (BlockingOp T) (BlockingRes T)) : Prop :=
  match l with
  | BIdle => st = Idle
  | BLock o | BBody o | BAsleep o _ | BRelock o _ => st = Called o
  | BHeldNotify _ r | BUnlock _ r | BNotify _ r | BDone r => st = Finished r
  end.

Definition blocking_sim (n : nat) (p : pool (BlockingQueue T) (blocking_thread T))
    (c : pool (guarded T) (status (BlockingOp T) (BlockingRes T))) : Prop :=
  capacity_ (shared p) = cap /\
  shared c = mkGuarded (queue_ (shared p)) (closed_ (shared p)) /\
  span_size (queue_ (shared p)) <= cap /\
  threads_related (fun _ th => pc_rel (pc th)) (threads p) (threads c).

Lemma notify_inv q n q' :
  q' ∈ notify q n ->
  match n with
  | notify_one cv =>
      (waiting q cv = ∅ /\ q' = q) \/
      exists w, w ∈ waiting q cv /\ q' = set_waiting q cv (waiting q cv ∖ {[ w ]})
  | notify_all cv => q' = set_waiting q cv ∅
  end.
Proof.
  intros H. unfold notify in H. destruct n as [cv | cv]; [| by apply list_elem_of_singleton in H].
  destruct (elements (waiting q cv)) as [| w ws] eqn:E.
  - left. apply list_elem_of_singleton in H. split; [| done]. by apply elements_empty_iff, leibniz_equiv in E.
  - right. apply list_elem_of_fmap in H as (w' & -> & Hw). exists w'. split; [| done].
    apply elem_of_elements. by rewrite E.
Qed.

Lemma notify_guarded q n q' :
  q' ∈ notify q n ->
  capacity_ q' = capacity_ q /\ mutex_ q' = mutex_ q /\ queue_ q' = queue_ q /\ closed_ q' = closed_ q.
Proof.
  intros H%notify_inv. destruct n as [cv | cv]; [destruct H as [[_ ->] | (w & _ & ->)] | subst]; done.
Qed.

Lemma blocking_simulates n p lab p' c :
  blocking_sim n p c -> pool_step p lab p' ->
  exists c', match_step (canon_step (strict blocking_spec)) c lab c' /\ blocking_sim (S n) p' c'.
Proof.
  intros (Hcap & Hg & Hlen & Ht) Hs. destruct c as [a cs]. simpl in Hg.
  destruct Hs as [q ts t th o th' Hl Hc | q ts t th q' th' Hl Hs | q ts t th r th' Hl Hr]; simpl in *;
    destruct (threads_related_lookup _ _ _ _ _ Ht Hl) as (st & Hst & HP); simpl in HP.
  - unfold blocking_call in Hc. destruct (pc th); try done. simpl in HP. simplify_eq.
    eexists. split; [by eapply match_one, canon_call |]. split; [done |]. split; [done |].
    split; [done |]. by eapply threads_related_update.
  - unfold blocking_tstep in Hs. apply list_elem_of_fmap in Hs as ((q1 & l1) & [= -> ->] & Hin).
    assert (Hstay : forall q1 l1,
      capacity_ q1 = capacity_ q -> queue_ q1 = queue_ q -> closed_ q1 = closed_ q -> pc_rel l1 st ->
      exists c', match_step (canon_step (strict blocking_spec)) (mkPool a cs) None c' /\
        blocking_sim (S n) (mkPool q1 (<[t := mkThread (id th) l1]> ts)) c').
    { intros q2 l2 E1 E2 E3 Hrel. eexists. split; [apply match_stutter |].
      split; [simpl; by rewrite E1 |]. split; [simpl; by rewrite E2, E3 |]. split; [simpl; by rewrite E2 |].
      by eapply threads_related_update_l. }
    simpl. destruct (pc th) as [| o | o | o cv | o cv | nt r | ns r | ns r | r]; simpl in Hin, HP;
      try by apply not_elem_of_nil in Hin.
    + destruct (mutex_ q); inv_outcome Hin. by apply Hstay.
    + rewrite Hcap in Hin. destruct (body cap _ o) as [out g] eqn:Hb.
      destruct (body_spec (mkGuarded (queue_ q) (closed_ q)) _ _ _ Hlen Hb) as [Hlen' Hspec].
      assert (Heff : forall r l1, body_result out = Some r -> pc_rel l1 (Finished r) ->
        exists c', match_step (canon_step (strict blocking_spec)) (mkPool a cs) None c' /\
          blocking_sim (S n) (mkPool (set_guarded q g) (<[t := mkThread (id th) l1]> ts)) c').
      { intros r l2 Er Hrel. rewrite Er in Hspec. eexists. split.
        - eapply match_one, canon_lin; [by rewrite Hst, HP | by rewrite Hg].
        - split; [done |]. split; [by destruct g |]. split; [done |]. by eapply threads_related_update. }
      destruct out as [cv | ns r | nt r]; inv_outcome Hin; try by eapply Heff.
      simpl in Hspec. subst g. by apply Hstay.
    + inv_outcome Hin. by apply Hstay.
    + destruct (mutex_ q); inv_outcome Hin. by apply Hstay.
    + apply list_elem_of_fmap in Hin as (q2 & [= -> ->] & Hn).
      apply notify_guarded in Hn as (? & ? & ? & ?). by apply Hstay.
    + inv_outcome Hin. by apply Hstay.
    + destruct ns as [| nt ns]; [inv_outcome Hin; by apply Hstay |].
      apply list_elem_of_fmap in Hin as (q2 & [= -> ->] & Hn).
      apply notify_guarded in Hn as (? & ? & ? & ?). by apply Hstay.
  - unfold blocking_ret in Hr. destruct (pc th); try done. simpl in HP. simplify_eq.
    eexists. split; [by eapply match_one, canon_ret |]. split; [done |]. split; [done |].
    split; [done |]. by eapply threads_related_update.
Qed.

End spec.

(** ** The condition-variable protocol *)

Definition holds_lock (l : blocking_pc T) : nat :=
  match l with BBody _ | BHeldNotify _ _ | BUnlock _ _ => 1 | _ => 0 end.

(** The condition variable an operation may wait on. *)
Definition waits (o : BlockingOp T) : option condvar :=
  match o with Push _ => Some not_full_ | Pop => Some not_empty_ | _ => None end.

(** The notifications a thread still owes. *)
Definition owed (l : blocking_pc T) : list notification :=
  match l with
  | BHeldNotify n _ => [n]
  | BUnlock ns _ | BNotify ns _ => ns
  | _ => []
  end.

Definition count_one (cv : condvar) (ns : list notification) : nat :=
  length (filter (fun n => n = notify_one cv) ns).

(** The threads that will look after a waiter on [cv]: awake waiters that have
    not run their test again, and threads that owe a [notify_one]. *)
Definition weight (cv : condvar) (W : gset nat) (th : blocking_thread T) : nat :=
  match pc th with
  | BAsleep _ cv' => if decide (cv' = cv /\ id th ∉ W) then 1 else 0
  | BRelock _ cv' => if decide (cv' = cv) then 1 else 0
  | BBody o => if decide (waits o = Some cv) then 1 else 0
  | l => count_one cv (owed l)
  end.

Definition total (cv : condvar) (W : gset nat) (ts : list (blocking_thread T)) : nat :=
  sum_list (weight cv W <$> ts).

(** What the waiters on a condition variable are waiting for, and how much of it
    there is. *)
Definition available (cv : condvar) (q : BlockingQueue T) : nat :=
  match cv with
  | not_empty_ => length (queue_ q)
  | not_full_ => Z.to_nat (capacity_ q - span_size (queue_ q))
  end.

Definition outcome_owed (out : locked_outcome T) : list notification :=
  match out with
  | wait_on _ => []
  | unlock_then ns _ => ns
  | notify_then_unlock n _ => [n]
  end.

Definition asleep_ok (l : blocking_pc T) : Prop :=
  match l with BAsleep o cv | BRelock o cv => waits o = Some cv | _ => True end.

Definition wake_ok (q : BlockingQueue T) (ts : list (blocking_thread T)) (cv : condvar) : Prop :=
  closed_ q = false -> waiting q cv <> ∅ -> (available cv q <= total cv (waiting q cv) ts)%nat.

Definition close_ok (q : BlockingQueue T) (ts : list (blocking_thread T)) (cv : condvar) : Prop :=
  closed_ q = true -> waiting q cv <> ∅ ->
  exists t th, ts !! t = Some th /\ notify_all cv ∈ owed (pc th).

Record blocking_inv (q : BlockingQueue T) (ts : list (blocking_thread T)) : Prop := {
  bi_length : span_size (queue_ q) <= capacity_ q;
  bi_mutex : sum_list ((holds_lock ∘ pc) <$> ts) = Nat.b2n (mutex_ q);
  bi_id : forall t th, ts !! t = Some th -> id th = t /\ asleep_ok (pc th);
  bi_waiting : forall cv w, w ∈ waiting q cv -> exists o, ts !! w = Some (mkThread w (BAsleep o cv));
  bi_wake : forall cv, wake_ok q ts cv;
  bi_close : forall cv, close_ok q ts cv;
}.

Lemma sum_list_update {A} (f f' : A -> nat) (ts : list A) t x y :
  ts !! t = Some x -> (forall t' z, t' <> t -> ts !! t' = Some z -> f' z = f z) ->
  (sum_list (f' <$> <[t := y]> ts) + f x = sum_list (f <$> ts) + f' y)%nat.
Proof.
  intros Hx Hf. rewrite list_fmap_insert.
  assert (E : <[t := f' y]> (f' <$> ts) = <[t := f' y]> (f <$> ts)).
  { apply list_eq. intros i. destruct (decide (i = t)) as [-> | Hne].
    - rewrite !list_lookup_insert_eq; [done | rewrite length_fmap; by eapply lookup_lt_Some..].
    - rewrite !list_lookup_insert_ne, !list_lookup_fmap by done.
      destruct (ts !! i) as [z |] eqn:Hz; simpl; [by rewrite (Hf i z) | done]. }
  rewrite E. apply sum_list_insert. by rewrite list_lookup_fmap, Hx.
Qed.

Lemma weight_other cv W W' th :
  (id th ∈ W' <-> id th ∈ W) -> weight cv W' th = weight cv W th.
Proof.
  intros H. unfold weight. destruct (pc th); try done. repeat case_decide; tauto.
Qed.

(** A thread that is not asleep is in no wait set. *)
Lemma awake_not_waiting q ts t th cv :
  blocking_inv q ts -> ts !! t = Some th -> (forall o, pc th <> BAsleep o cv) -> t ∉ waiting q cv.
Proof.
  intros Hinv Hth Ha Hin. destruct (bi_waiting _ _ Hinv cv t Hin) as [o Ho]. rewrite Hth in Ho.
  injection Ho as ->. by apply (Ha o).
Qed.

Lemma mutex_held q ts t th :
  blocking_inv q ts -> ts !! t = Some th -> holds_lock (pc th) = 1%nat -> mutex_ q = true.
Proof.
  intros Hinv Hth Hl. pose proof (bi_mutex _ _ Hinv) as Hm.
  pose proof (sum_list_insert ((holds_lock ∘ pc) <$> ts) t (holds_lock (pc th)) 0) as E.
  rewrite list_lookup_fmap, Hth in E. specialize (E eq_refl). destruct (mutex_ q); [done |]. simpl in Hm. lia.
Qed.

Section preservation.

Context (q q' : BlockingQueue T) (ts : list (blocking_thread T)) (t : nat)
  (th : blocking_thread T) (l' : blocking_pc T).
Hypothesis Hinv : blocking_inv q ts.
Hypothesis Hth : ts !! t = Some th.

Let ts' := <[t := mkThread (id th) l']> ts.

Lemma id_is_t : id th = t.
Proof using Hinv Hth. by destruct (bi_id _ _ Hinv _ _ Hth). Qed.

(** Nobody falls asleep or is woken on [cv]. *)
Lemma wake_ok_frame cv :
  waiting q' cv = waiting q cv -> (closed_ q' = false -> closed_ q = false) ->
  (closed_ q' = false -> available cv q' + weight cv (waiting q cv) th <=
   available cv q + weight cv (waiting q cv) (mkThread (id th) l'))%nat ->
  wake_ok q' ts' cv.
Proof using Hinv Hth.
  intros HW Hc Ha Hc' Hne. rewrite HW in *. specialize (Ha Hc').
  pose proof (bi_wake _ _ Hinv cv (Hc Hc') Hne) as H. unfold total in *.
  pose proof (sum_list_update (weight cv (waiting q cv)) (weight cv (waiting q cv)) ts t th
    (mkThread (id th) l') Hth ltac:(done)) as E. unfold ts'. lia.
Qed.

Lemma close_ok_frame cv :
  waiting q' cv ⊆ waiting q cv -> closed_ q = true ->
  (waiting q' cv <> ∅ -> notify_all cv ∈ owed (pc th) -> notify_all cv ∈ owed l') ->
  close_ok q' ts' cv.
Proof using Hinv Hth.
  intros HW Hc Ho _ Hne. destruct (bi_close _ _ Hinv cv Hc) as (t0 & th0 & H0 & Hin); [set_solver |].
  destruct (decide (t0 = t)) as [-> | Hn].
  - exists t, (mkThread (id th) l'). split; [apply list_lookup_insert_eq; by eapply lookup_lt_Some |].
    simplify_eq. by apply Ho.
  - exists t0, th0. unfold ts'. by rewrite list_lookup_insert_ne.
Qed.

Lemma waiting_frame cv :
  waiting q' cv ⊆ waiting q cv -> t ∉ waiting q' cv ->
  forall w, w ∈ waiting q' cv -> exists o, ts' !! w = Some (mkThread w (BAsleep o cv)).
Proof using Hinv Hth.
  intros HW Ht w Hw. destruct (bi_waiting _ _ Hinv cv w) as [o Ho]; [set_solver |].
  exists o. unfold ts'. rewrite list_lookup_insert_ne; [done | set_solver].
Qed.

Lemma ids_frame :
  asleep_ok l' -> forall t0 th0, ts' !! t0 = Some th0 -> id th0 = t0 /\ asleep_ok (pc th0).
Proof using Hinv Hth.
  intros Hl t0 th0 H. pose proof id_is_t as Eid.
  apply list_lookup_insert_Some in H as [(Et & Eth & _) | [_ H]]; [| by apply (bi_id _ _ Hinv)].
  subst th0. simpl. split; [congruence | done].
Qed.

Lemma mutex_frame :
  (Nat.b2n (mutex_ q') + holds_lock (pc th) = Nat.b2n (mutex_ q) + holds_lock l')%nat ->
  sum_list ((holds_lock ∘ pc) <$> ts') = Nat.b2n (mutex_ q').
Proof using Hinv Hth.
  intros H. pose proof (sum_list_update (holds_lock ∘ pc) (holds_lock ∘ pc) ts t th
    (mkThread (id th) l') Hth ltac:(done)) as E. unfold ts'. rewrite (bi_mutex _ _ Hinv) in E.
  simpl in E. lia.
Qed.

End preservation.

(** Steps that leave the wait sets and the items alone. *)
Lemma inv_local q q' ts t th l' :
  blocking_inv q ts -> ts !! t = Some th ->
  capacity_ q' = capacity_ q -> queue_ q' = queue_ q -> closed_ q' = closed_ q ->
  waiting q' = waiting q ->
  (Nat.b2n (mutex_ q') + holds_lock (pc th) = Nat.b2n (mutex_ q) + holds_lock l')%nat ->
  asleep_ok l' -> (forall o cv, pc th <> BAsleep o cv) -> owed l' = owed (pc th) ->
  (forall cv W, weight cv W th <= weight cv W (mkThread (id th) l'))%nat ->
  blocking_inv q' (<[t := mkThread (id th) l']> ts).
Proof.
  intros Hinv Hth E1 E2 E3 E4 Hm Ha Hns Ho Hw. split.
  - rewrite E1, E2. apply (bi_length _ _ Hinv).
  - by eapply mutex_frame.
  - by eapply ids_frame.
  - intros cv. eapply waiting_frame; [done | done | by rewrite E4 |].
    rewrite E4. by eapply awake_not_waiting.
  - intros cv. eapply wake_ok_frame; [done | done | by rewrite E4 | by rewrite E3 |].
    intros _. specialize (Hw cv (waiting q cv)).
    assert (available cv q' = available cv q) as -> by (destruct cv; simpl; by rewrite ?E1, E2). lia.
  - intros cv Hc. eapply (close_ok_frame q q' ts t th); try done; [by rewrite E4 | congruence | by rewrite Ho].
Qed.

(** Every item added is matched by a [notify_one] that is owed, every awake
    waiter consumes at most one item, and a call that waits finds nothing. *)
Lemma body_balance q o out g cv :
  span_size (queue_ q) <= capacity_ q ->
  body (capacity_ q) (mkGuarded (queue_ q) (closed_ q)) o = (out, g) -> g_closed g = false ->
  closed_ q = false /\
  match out with
  | wait_on cv' => g = mkGuarded (queue_ q) (closed_ q) /\ waits o = Some cv' /\ available cv' q = 0%nat
  | _ => (available cv (set_guarded q g) + (if decide (waits o = Some cv) then 1 else 0) <=
          available cv q + count_one cv (outcome_owed out))%nat
  end.
Proof.
  intros Hlen Hb Hc. destruct q as [cap m items b W]. simpl in *.
  unfold set_guarded, available, count_one, span_size in *. simpl in *.
  destruct o as [x | x | | | |]; simpl in Hb;
    unfold push_body, try_push_body, pop_body, try_pop_body, close_body, closed_body, span_size in Hb;
    simpl in Hb.
  - destruct b; simpl in Hb; [by simplify_eq |].
    destruct (Z.ltb_spec (Z.of_nat (length items)) cap); simpl in Hb; simplify_eq/=; (split; [done |]).
    + rewrite length_app. simpl. destruct cv; simpl; lia.
    + split; [done |]. split; [done | lia].
  - destruct b; simpl in Hb; [by simplify_eq |].
    destruct (Z.eqb_spec (Z.of_nat (length items)) cap); simpl in Hb; simplify_eq/=; (split; [done |]).
    + destruct cv; simpl; lia.
    + rewrite length_app. simpl. destruct cv; simpl; lia.
  - destruct items as [| x items]; simpl in Hb.
    + destruct b; simpl in Hb; simplify_eq/=. auto.
    + rewrite orb_true_r in Hb. simplify_eq/=. split; [done |]. destruct cv; simpl; lia.
  - destruct items as [| x items]; simplify_eq/=; (split; [done |]); destruct cv; simpl; lia.
  - by simplify_eq.
  - simplify_eq/=. split; [done |]. destruct cv; simpl; lia.
Qed.

(** Only [close] closes the queue, and it owes both [notify_all]s; a closed queue
    makes nobody wait. *)
Lemma body_closes q o out g cv :
  body (capacity_ q) (mkGuarded (queue_ q) (closed_ q)) o = (out, g) -> g_closed g = true ->
  (closed_ q = true \/ notify_all cv ∈ outcome_owed out) /\ forall cv', out <> wait_on cv'.
Proof.
  intros Hb Hc. destruct q as [cap m items b W]. simpl in *.
  destruct o as [x | x | | | |]; simpl in Hb;
    unfold push_body, try_push_body, pop_body, try_pop_body, close_body, closed_body in Hb;
    simpl in Hb; repeat case_match; simplify_eq/=; try (split; [by left | done]).
  all: split; [right | done]; destruct cv; set_solver.
Qed.

(** The code under the lock. *)
Lemma inv_body q ts t th o out g :
  blocking_inv q ts -> ts !! t = Some th -> pc th = BBody o ->
  body (capacity_ q) (mkGuarded (queue_ q) (closed_ q)) o = (out, g) ->
  forall l', (exists ns r, out = unlock_then ns r /\ l' = BUnlock ns r) \/
             (exists n r, out = notify_then_unlock n r /\ l' = BHeldNotify n r) ->
  blocking_inv (set_guarded q g) (<[t := mkThread (id th) l']> ts).
Proof.
  intros Hinv Hth Epc Hb l' Hl'.
  destruct (body_spec _ (mkGuarded (queue_ q) (closed_ q)) _ _ _ (bi_length _ _ Hinv) Hb) as [Hlen Hspec].
  assert (Hres : exists r, body_result out = Some r).
  { destruct Hl' as [(ns & r & -> & _) | (n & r & -> & _)]; by exists r. }
  assert (Hlock : holds_lock l' = 1%nat).
  { by destruct Hl' as [(ns & r & _ & ->) | (n & r & _ & ->)]. }
  assert (Hnw : forall cv, t ∉ waiting q cv).
  { intros cv. eapply awake_not_waiting; [done | done |]. intros o'. by rewrite Epc. }
  split.
  - done.
  - eapply mutex_frame; [done | done |]. rewrite Epc, Hlock. done.
  - eapply ids_frame; [done | done |]. by destruct Hl' as [(ns & r & _ & ->) | (n & r & _ & ->)].
  - intros cv. eapply waiting_frame; [done | done | done | apply Hnw].
  - intros cv.
    assert (Howed : weight cv (waiting q cv) (mkThread (id th) l') = count_one cv (outcome_owed out)).
    { by destruct Hl' as [(ns & r & -> & ->) | (n & r & -> & ->)]. }
    assert (Hthw : weight cv (waiting q cv) th = if decide (waits o = Some cv) then 1%nat else 0%nat)
      by (unfold weight; by rewrite Epc).
    pose proof (body_balance q o out g cv (bi_length _ _ Hinv) Hb) as Hbal.
    eapply wake_ok_frame; [done | done | done | by intros [? _]%Hbal |].
    intros Hc. destruct (Hbal Hc) as [_ Hle]. rewrite Howed, Hthw.
    by destruct Hl' as [(ns & r & -> & ->) | (n & r & -> & ->)].
  - intros cv Hc. destruct (body_closes q o out g cv Hb Hc) as [[Hq | Hin] _].
    + eapply (close_ok_frame q _ ts t th); try done. by rewrite Epc; intros _ ?%not_elem_of_nil.
    + intros _. exists t, (mkThread (id th) l').
      split; [apply list_lookup_insert_eq; by eapply lookup_lt_Some |].
      by destruct Hl' as [(ns & r & -> & ->) | (n & r & -> & ->)].
Qed.

(** Falling asleep. *)
Lemma inv_sleep q ts t th o cv g :
  blocking_inv q ts -> ts !! t = Some th -> pc th = BBody o ->
  body (capacity_ q) (mkGuarded (queue_ q) (closed_ q)) o = (wait_on cv, g) ->
  let q1 := set_guarded q g in
  blocking_inv (set_mutex (set_waiting q1 cv ({[ id th ]} ∪ waiting q1 cv)) false)
    (<[t := mkThread (id th) (BAsleep o cv)]> ts).
Proof.
  intros Hinv Hth Epc Hb q1. pose proof (id_is_t _ _ _ _ Hinv Hth) as Eid.
  assert (Hcl : g_closed g = false).
  { destruct (g_closed g) eqn:E; [| done]. exfalso.
    by apply (proj2 (body_closes _ _ _ _ cv Hb E) cv). }
  destruct (body_balance _ _ _ _ cv (bi_length _ _ Hinv) Hb Hcl) as (Hqc & Eg & Hw & Hz).
  assert (Hnw : forall cv', t ∉ waiting q cv').
  { intros cv'. eapply awake_not_waiting; [done | done |]. intros o'. by rewrite Epc. }
  split.
  - unfold q1. rewrite Eg. apply (bi_length _ _ Hinv).
  - eapply mutex_frame; [done | done |]. rewrite Epc. simpl.
    by rewrite (mutex_held _ _ _ _ Hinv Hth) by (by rewrite Epc).
  - by eapply ids_frame.
  - intros cv' w Hin. simpl in Hin.
    destruct (decide (cv' = cv)) as [-> | Hne]; [apply elem_of_union in Hin as [->%elem_of_singleton | Hin] |].
    + exists o. rewrite Eid. apply list_lookup_insert_eq. by eapply lookup_lt_Some.
    + eapply (waiting_frame q q ts t th); done.
    + eapply (waiting_frame q q ts t th); done.
  - intros cv'. destruct (decide (cv' = cv)) as [-> | Hne].
    + intros _ _. assert (available cv q1 = 0%nat) as E by (unfold q1; by rewrite Eg).
      change (available cv (set_mutex _ _)) with (available cv q1). lia.
    + eapply (wake_ok_frame q); try done; [by simpl; rewrite decide_False |].
      intros _. unfold weight. rewrite Epc. simpl. rewrite !decide_False by (intros ?; destruct_and?; congruence).
      unfold q1. by rewrite Eg.
  - intros cv' Hc. simpl in Hc. by rewrite Hcl in Hc.
Qed.

(** Waking up, notified or not. *)
Lemma inv_wake q ts t th o cv :
  blocking_inv q ts -> ts !! t = Some th -> pc th = BAsleep o cv ->
  blocking_inv (set_waiting q cv (waiting q cv ∖ {[ id th ]}))
    (<[t := mkThread (id th) (BRelock o cv)]> ts).
Proof.
  intros Hinv Hth Epc. destruct (bi_id _ _ Hinv _ _ Hth) as [Eid Has]. rewrite Epc in Has.
  assert (Hsub : forall cv', waiting (set_waiting q cv (waiting q cv ∖ {[ id th ]})) cv' ⊆ waiting q cv').
  { intros cv'. simpl. case_decide; set_solver. }
  assert (Hother : forall cv', cv' <> cv -> t ∉ waiting q cv').
  { intros cv' Hne. eapply awake_not_waiting; [done | done |]. intros o'. rewrite Epc. congruence. }
  split.
  - apply (bi_length _ _ Hinv).
  - eapply mutex_frame; [done | done |]. by rewrite Epc.
  - by eapply ids_frame.
  - intros cv'. eapply (waiting_frame q); try done. simpl. case_decide; [set_solver | by apply Hother].
  - intros cv'. destruct (decide (cv' = cv)) as [-> | Hcv].
    + intros Hc Hne. simpl in *. rewrite decide_True in * by done. assert (HneW : waiting q cv <> ∅) by set_solver.
      pose proof (bi_wake _ _ Hinv cv Hc HneW) as H. unfold total in *.
      assert (Hoth : forall t' z, t' <> t -> ts !! t' = Some z ->
        weight cv (waiting q cv ∖ {[ id th ]}) z = weight cv (waiting q cv) z).
      { intros t' z Hne' Hz. apply weight_other. destruct (bi_id _ _ Hinv _ _ Hz) as [-> _].
        rewrite Eid. set_solver. }
      pose proof (sum_list_update _ _ ts t th (mkThread (id th) (BRelock o cv)) Hth Hoth) as E.
      assert (weight cv (waiting q cv) th <= 1)%nat by (unfold weight; rewrite Epc; case_decide; lia).
      assert (weight cv (waiting q cv ∖ {[ id th ]}) (mkThread (id th) (BRelock o cv)) = 1%nat)
        by (unfold weight; simpl; by rewrite decide_True).
      change (available cv (set_waiting _ _ _)) with (available cv q). lia.
    + eapply (wake_ok_frame q); try done; [by simpl; rewrite decide_False |].
      intros _. unfold weight. rewrite Epc. simpl. rewrite !decide_False by (intros ?; destruct_and?; congruence).
      done.
  - intros cv' Hc. eapply (close_ok_frame q _ ts t th); try done.
    by rewrite Epc; intros _ ?%not_elem_of_nil.
Qed.

Lemma count_one_cons cv n ns :
  count_one cv (n :: ns) = ((if decide (n = notify_one cv) then 1 else 0) + count_one cv ns)%nat.
Proof. unfold count_one. rewrite filter_cons. by case_decide. Qed.

(** [notify_one] hands its duty to the thread it wakes. *)
Lemma total_notify_one q ts cv w :
  blocking_inv q ts -> w ∈ waiting q cv ->
  total cv (waiting q cv ∖ {[ w ]}) ts = S (total cv (waiting q cv) ts).
Proof.
  intros Hinv Hw. destruct (bi_waiting _ _ Hinv cv w Hw) as [o Ho]. unfold total.
  assert (Hoth : forall t' z, t' <> w -> ts !! t' = Some z ->
    weight cv (waiting q cv ∖ {[ w ]}) z = weight cv (waiting q cv) z).
  { intros t' z Hne Hz. apply weight_other. destruct (bi_id _ _ Hinv _ _ Hz) as [-> _]. set_solver. }
  pose proof (sum_list_update _ _ ts w _ (mkThread w (BAsleep o cv)) Ho Hoth) as E.
  rewrite list_insert_id in E by done. unfold weight at 2 4 in E. simpl in E.
  rewrite decide_False in E by (intros [_ ?]; done). rewrite decide_True in E by (split; [done | set_solver]).
  lia.
Qed.

Lemma inv_notify q q' ts t th n ns l' :
  blocking_inv q ts -> ts !! t = Some th -> q' ∈ notify q n ->
  owed (pc th) = n :: ns -> owed l' = ns ->
  (forall cv W, weight cv W th = count_one cv (n :: ns)) ->
  (forall cv W, weight cv W (mkThread (id th) l') = count_one cv ns) ->
  holds_lock l' = holds_lock (pc th) -> asleep_ok l' -> (forall o cv, pc th <> BAsleep o cv) ->
  blocking_inv q' (<[t := mkThread (id th) l']> ts).
Proof.
  intros Hinv Hth Hn Ho Ho' Hw Hw' Hlk Has Hns.
  destruct (notify_guarded _ _ _ Hn) as (E1 & E2 & E3 & E4). apply notify_inv in Hn.
  assert (Hav : forall cv, available cv q' = available cv q)
    by (intros cv; destruct cv; simpl; by rewrite ?E1, E3).
  assert (Hsub : forall cv, waiting q' cv ⊆ waiting q cv).
  { intros cv. destruct n as [cv0 | cv0]; [destruct Hn as [[_ ->] | (w & _ & ->)] | subst q'];
      simpl; [done | case_decide; set_solver | case_decide; set_solver]. }
  assert (Hnw : forall cv, t ∉ waiting q cv) by (intros cv; by eapply awake_not_waiting).
  split.
  - rewrite E1, E3. apply (bi_length _ _ Hinv).
  - eapply mutex_frame; [done | done |]. by rewrite E2, Hlk.
  - by eapply ids_frame.
  - intros cv. eapply (waiting_frame q); try done. intros Hin. by apply (Hnw cv), Hsub.
  - intros cv. destruct (decide (waiting q' cv = waiting q cv /\ n <> notify_one cv)) as [[EW Hne] | Hcase].
    + eapply (wake_ok_frame q); try done; [by rewrite E4 |]. intros _.
      rewrite Hav, Hw, Hw', count_one_cons, decide_False by done. lia.
    + intros Hc Hne. rewrite Hav. rewrite E4 in Hc. destruct n as [cv0 | cv0].
      * destruct Hn as [[EW ->] | (w & Hin & ->)].
        { destruct Hcase. split; [done |]. intros [= ->]. done. }
        simpl in *. destruct (decide (cv = cv0)) as [-> | Hcv]; [| destruct Hcase; split; [done | congruence]].
        pose proof (bi_wake _ _ Hinv cv0 Hc ltac:(set_solver)) as Hb.
        pose proof (total_notify_one q ts cv0 w Hinv Hin) as Ht.
        set (W' := waiting q cv0 ∖ {[ w ]}) in *.
        pose proof (sum_list_update (weight cv0 W') (weight cv0 W') ts t th (mkThread (id th) l') Hth
          ltac:(done)) as E.
        rewrite Hw, Hw', count_one_cons, decide_True in E by done. unfold total in *. lia.
      * subst q'. simpl in *. destruct (decide (cv = cv0)) as [-> | Hcv]; [done |].
        destruct Hcase. done.
  - intros cv Hc. rewrite E4 in Hc. eapply (close_ok_frame q _ ts t th); try done; [| by rewrite E4].
    intros Hne. rewrite Ho, Ho'. intros [<- | Hin]%elem_of_cons; [| done]. subst q'. simpl in Hne.
    by rewrite decide_True in Hne.
Qed.

Lemma blocking_inv_step q ts q' ts' lab :
  blocking_inv q ts -> pool_step (mkPool q ts) lab (mkPool q' ts') -> blocking_inv q' ts'.
Proof.
  intros Hinv Hs.
  inversion Hs as [? ? t th o th' Hl Hc | ? ? t th ? th' Hl Hst | ? ? t th r th' Hl Hr]; subst; clear Hs.
  - unfold call, blocking_object, blocking_call in Hc. destruct (pc th) eqn:Epc; try done. simplify_eq.
    eapply (inv_local q'); try done; rewrite ?Epc; try done. intros. unfold weight. by rewrite Epc.
  - unfold tstep, blocking_object, blocking_tstep in Hst.
    apply list_elem_of_fmap in Hst as ((q1 & l1) & [= -> ->] & Hin). simpl.
    destruct (pc th) as [| o | o | o cv | o cv | nt r | ns r | ns r | r] eqn:Epc; simpl in Hin;
      try by apply not_elem_of_nil in Hin.
    + destruct (mutex_ q) eqn:Em; inv_outcome Hin.
      eapply (inv_local q); try done; rewrite ?Epc; try done; [by rewrite Em |].
      intros. unfold weight. rewrite Epc. apply Nat.le_0_l.
    + destruct (body _ _ o) as [out g] eqn:Hb. destruct out as [cv | ns r | nt r]; inv_outcome Hin.
      * by eapply (inv_sleep q ts t th o cv g).
      * eapply inv_body; eauto.
      * eapply inv_body; eauto.
    + inv_outcome Hin. by apply inv_wake.
    + destruct (mutex_ q) eqn:Em; inv_outcome Hin. destruct (bi_id _ _ Hinv _ _ Hl) as [_ Has].
      rewrite Epc in Has. eapply (inv_local q); try done; rewrite ?Epc; try done; [by rewrite Em |].
      intros cv' W. unfold weight. rewrite Epc. simpl. rewrite Has. repeat case_decide; congruence || lia.
    + apply list_elem_of_fmap in Hin as (q2 & [= -> ->] & Hn).
      eapply (inv_notify q q2 ts t th nt []); try done; rewrite ?Epc; try done.
      intros cv W. unfold weight. by rewrite Epc.
    + inv_outcome Hin. assert (Hm : mutex_ q = true) by (eapply mutex_held; [done.. | by rewrite Epc]).
      eapply (inv_local q); try done; rewrite ?Epc, ?Hm; try done.
      intros. unfold weight. by rewrite Epc.
    + destruct ns as [| nt ns].
      * inv_outcome Hin. eapply (inv_local q); try done; rewrite ?Epc; try done.
        intros. unfold weight. by rewrite Epc.
      * apply list_elem_of_fmap in Hin as (q2 & [= -> ->] & Hn).
        eapply (inv_notify q q2 ts t th nt ns); try done; rewrite ?Epc; try done.
        intros cv W. unfold weight. by rewrite Epc.
  - unfold ret, blocking_object, blocking_ret in Hr. destruct (pc th) eqn:Epc; try done. simplify_eq.
    eapply (inv_local q'); try done; rewrite ?Epc; try done. intros. unfold weight. by rewrite Epc.
Qed.

Lemma init_thread q k t th :
  threads (blocking_init q k) !! t = Some th -> th = mkThread t BIdle.
Proof.
  simpl. intros H. change (map ?f ?l) with (f <$> l) in H.
  apply list_lookup_fmap_Some in H as (i & -> & Hi). by apply lookup_seq in Hi as [-> _].
Qed.

Lemma init_zero (f : blocking_thread T -> nat) q k :
  (forall i, f (mkThread i BIdle) = 0%nat) -> sum_list (f <$> threads (blocking_init q k)) = 0%nat.
Proof.
  intros Hf. simpl. change (map ?f ?l) with (f <$> l). generalize (seq 0 k) as ids.
  induction ids as [| i ids IH]; simpl; [done | by rewrite Hf].
Qed.

Lemma blocking_inv_init cap q k :
  0 <= cap -> BlockingQueue_new cap = returns q -> blocking_inv q (threads (blocking_init q k)).
Proof.
  unfold BlockingQueue_new. intros Hcap H. case_tests_in H; [done |]. injection H as <-. split.
  - simpl. unfold span_size. simpl. lia.
  - by apply init_zero.
  - intros t th ->%init_thread. done.
  - intros cv w []%elem_of_empty.
  - by intros cv _ [].
  - by intros cv [=].
Qed.

Lemma blocking_inv_exec cap q k n h p :
  0 <= cap -> BlockingQueue_new cap = returns q ->
  exec pool_step n (blocking_init q k) h p -> blocking_inv (shared p) (threads p).
Proof.
  intros Hc Hq Hex.
  eapply (exec_invariant pool_step (fun _ p => blocking_inv (shared p) (threads p)) (fun _ => True)
    (blocking_init q k)); [done | by apply (blocking_inv_init cap) | | done | exact Hex].
  intros m [q1 ts1] lab [q2 ts2] _ Hi Hs. by eapply blocking_inv_step.
Qed.

Lemma blocking_exec_sim cap q k n h p :
  0 <= cap -> BlockingQueue_new cap = returns q -> exec pool_step n (blocking_init q k) h p ->
  exists m c, exec (canon_step (strict (blocking_spec cap))) m
    (mkPool (mkGuarded [] false) (replicate k Idle)) h c /\ blocking_sim cap n p c.
Proof.
  intros Hc Hq Hex.
  eapply (simulation_exec pool_step _ (blocking_sim cap) (fun _ => True)); [done | | done | | exact Hex].
  - intros m p1 l p2 c _. apply blocking_simulates.
  - unfold BlockingQueue_new in Hq. case_tests_in Hq; [done |]. injection Hq as <-.
    split; [done |]. split; [done |]. split; [simpl; unfold span_size; simpl; lia |].
    split; [simpl; by rewrite length_map, length_seq, length_replicate |].
    intros t th st Hth Hst. apply init_thread in Hth as ->. by apply lookup_replicate in Hst as [-> _].
Qed.

(** Asleep: in a wait set, waiting for a notification. *)
Definition asleep (q : BlockingQueue T) (cv : condvar) (th : blocking_thread T) : Prop :=
  (exists o, pc th = BAsleep o cv) /\ id th ∈ waiting q cv.

(** At rest: outside the queue, or asleep. *)
Definition at_rest (q : BlockingQueue T) (th : blocking_thread T) : Prop :=
  pc th = BIdle \/ exists cv, asleep q cv th.

#[local] Instance at_rest_dec q th : Decision (at_rest q th).
Proof.
  unfold at_rest, asleep. destruct (pc th) as [| | | o cv | | | | |] eqn:E; try (right; by intros [? | (cv' & (o' & ?) & _)]).
  - left. by left.
  - destruct (decide (id th ∈ waiting q cv)) as [Hin | Hn].
    + left. right. exists cv. split; [by exists o | done].
    + right. intros [? | (cv' & (o' & [= -> ->]) & Hin)]; done.
Defined.

Lemma rest_weightless q ts cv :
  (forall t th, ts !! t = Some th -> at_rest q th) -> blocking_inv q ts ->
  total cv (waiting q cv) ts = 0%nat.
Proof.
  intros Hrest Hinv. unfold total.
  assert (H : forall x, x ∈ weight cv (waiting q cv) <$> ts -> x = 0%nat).
  { intros x (th & -> & (t & Ht)%list_elem_of_lookup)%list_elem_of_fmap.
    destruct (Hrest t th Ht) as [E | (cv' & (o & E) & Hin)]; unfold weight; rewrite E; [done |].
    apply decide_False. intros [-> ?]. done. }
  induction (weight cv (waiting q cv) <$> ts) as [| x xs IH]; simpl; [done |].
  rewrite (H x) by set_solver. apply IH. intros y Hy. apply H. set_solver.
Qed.

(** Whoever is inside can move, unless it needs the mutex and somebody holds it. *)
Lemma step_enabled q th :
  ~ at_rest q th -> mutex_ q = false \/ holds_lock (pc th) = 1%nat ->
  tstep q th <> [] \/ ret th <> None.
Proof.
  intros Hr Hm. assert (Hnotify : forall n, notify q n <> []).
  { intros [cv | cv]; simpl; [| done]. by destruct (elements (waiting q cv)). }
  simpl. unfold blocking_tstep, blocking_ret.
  destruct (pc th) as [| o | o | o cv | o cv | nt r | ns r | ns r | r] eqn:E; try (by right);
    try (left; intros H%fmap_nil_inv; simpl in H).
  - destruct Hr. by left.
  - by destruct Hm as [Hm | [=]]; rewrite Hm in H.
  - by destruct (body _ _ o) as [[] ?].
  - done.
  - by destruct Hm as [Hm | [=]]; rewrite Hm in H.
  - apply fmap_nil_inv in H. by apply (Hnotify nt).
  - done.
  - destruct ns as [| nt ns]; [done |]. apply fmap_nil_inv in H. by apply (Hnotify nt).
Qed.

Lemma holder_exists q ts :
  blocking_inv q ts -> mutex_ q = true ->
  exists t th, ts !! t = Some th /\ holds_lock (pc th) = 1%nat.
Proof.
  intros Hinv Hm. pose proof (bi_mutex _ _ Hinv) as Hs. rewrite Hm in Hs. clear Hinv Hm.
  induction ts as [| th ts IH]; simpl in Hs; [done |].
  destruct (pc th) eqn:E; simpl in Hs; try (by destruct (IH Hs) as (t & th' & Ht & Hl); exists (S t), th');
    exists 0%nat, th; (split; [done | by rewrite E]).
Qed.

End BlockingConcurrent.

(** ** Theorems *)

#[local] Existing Instance blocking_object.

(** C5: Every interleaving of any number of threads calling [push], [try_push],
    [pop], [try_pop], [close] and [closed], with any wake-up choices and spurious
    wake-ups, is linearizable to a FIFO of at most [capacity] items that can be
    closed: a closed queue refuses items, hands out the ones it has, and then
    reports that it is drained. *)
Theorem blocking_linearizable {T} cap (q : BlockingQueue T) k n h p :
  0 <= cap -> BlockingQueue_new cap = returns q ->
  exec pool_step n (blocking_init q k) h p ->
  linearizable (strict (blocking_spec cap)) (mkGuarded [] false) k h.
Proof.
  intros Hc Hq Hex. destruct (blocking_exec_sim cap q k n h p Hc Hq Hex) as (m & c & Hm & _).
  by exists m, c.
Qed.

(** At most one thread runs between locking and unlocking the mutex, and the
    queue never holds more than [capacity] items. *)
Theorem blocking_mutual_exclusion {T} cap (q : BlockingQueue T) k n h p :
  0 <= cap -> BlockingQueue_new cap = returns q ->
  exec pool_step n (blocking_init q k) h p ->
  (forall t1 t2 th1 th2, threads p !! t1 = Some th1 -> threads p !! t2 = Some th2 ->
     holds_lock (pc th1) = 1%nat -> holds_lock (pc th2) = 1%nat -> t1 = t2) /\
  span_size (queue_ (shared p)) <= capacity_ (shared p).
Proof.
  intros Hc Hq Hex. pose proof (blocking_inv_exec cap q k n h p Hc Hq Hex) as Hinv.
  split; [| apply (bi_length _ _ Hinv)]. intros t1 t2 th1 th2 H1 H2 L1 L2.
  destruct (decide (t1 = t2)) as [| Hne]; [done | exfalso].
  set (xs := (holds_lock ∘ pc) <$> threads p).
  assert (X1 : xs !! t1 = Some 1%nat) by (unfold xs; rewrite list_lookup_fmap, H1; simpl; by rewrite L1).
  assert (X2 : <[t1 := 0%nat]> xs !! t2 = Some 1%nat)
    by (rewrite list_lookup_insert_ne by done; unfold xs; rewrite list_lookup_fmap, H2; simpl; by rewrite L2).
  pose proof (sum_list_insert _ _ _ 0 X1) as E1. pose proof (sum_list_insert _ _ _ 0 X2) as E2.
  pose proof (bi_mutex _ _ Hinv) as Hs. fold xs in Hs. destruct (mutex_ (shared p)); simpl in Hs; lia.
Qed.

(** C6: No wake-up is lost.  While a thread sleeps in [pop] (or [push]) on an
    open queue, there are at least as many threads about to look at the queue on
    behalf of that condition variable, or owing it a [notify_one], as there are
    items (or free places); on a closed queue somebody still owes it a
    [notify_all].  So when every thread is outside or asleep, a sleeper in [pop]
    has an open and empty queue, and a sleeper in [push] an open and full one. *)
Theorem blocking_no_lost_wakeup {T} cap (q : BlockingQueue T) k n h p :
  0 <= cap -> BlockingQueue_new cap = returns q ->
  exec pool_step n (blocking_init q k) h p ->
  forall cv t th, threads p !! t = Some th -> asleep (shared p) cv th ->
  (closed_ (shared p) = false ->
     (available cv (shared p) <= total cv (waiting (shared p) cv) (threads p))%nat) /\
  (closed_ (shared p) = true ->
     exists t' th', threads p !! t' = Some th' /\ notify_all cv ∈ owed (pc th')) /\
  ((forall t' th', threads p !! t' = Some th' -> at_rest (shared p) th') ->
     closed_ (shared p) = false /\ available cv (shared p) = 0%nat).
Proof.
  intros Hc Hq Hex cv t th Hth [_ Hin].
  pose proof (blocking_inv_exec cap q k n h p Hc Hq Hex) as Hinv.
  assert (Hne : waiting (shared p) cv <> ∅) by set_solver.
  split; [intros Hcl; by apply (bi_wake _ _ Hinv) |]. split; [intros Hcl; by apply (bi_close _ _ Hinv) |].
  intros Hrest. destruct (closed_ (shared p)) eqn:Hcl.
  - exfalso. destruct (bi_close _ _ Hinv cv Hcl Hne) as (t' & th' & Ht' & Ho).
    destruct (Hrest t' th' Ht') as [E | (cv' & (o & E) & _)]; rewrite E in Ho; by apply not_elem_of_nil in Ho.
  - split; [done |]. pose proof (bi_wake _ _ Hinv cv Hcl Hne) as Hle.
    rewrite (rest_weightless _ _ cv Hrest Hinv) in Hle. lia.
Qed.

(** C16: The queue does not deadlock: as long as some thread is inside a call and
    not asleep, one such thread can take a step. *)
Theorem blocking_deadlock_free {T} cap (q : BlockingQueue T) k n h p :
  0 <= cap -> BlockingQueue_new cap = returns q ->
  exec pool_step n (blocking_init q k) h p ->
  (exists t th, threads p !! t = Some th /\ ~ at_rest (shared p) th) ->
  exists t th, threads p !! t = Some th /\ ~ at_rest (shared p) th /\
    (tstep (shared p) th <> [] \/ ret th <> None).
Proof.
  intros Hc Hq Hex (t & th & Hth & Hr).
  pose proof (blocking_inv_exec cap q k n h p Hc Hq Hex) as Hinv.
  destruct (mutex_ (shared p)) eqn:Hm.
  - destruct (holder_exists _ _ Hinv Hm) as (t' & th' & Ht' & Hl). exists t', th'.
    assert (Hr' : ~ at_rest (shared p) th').
    { intros [E | (cv & (o & E) & _)]; by rewrite E in Hl. }
    split; [done |]. split; [done |]. apply step_enabled; [done | by right].
  - exists t, th. split; [done |]. split; [done |]. apply step_enabled; [done | by left].
Qed.

(** ** Witnesses *)

Definition small_blocking : BlockingQueue nat :=
  mkBlocking 1 false [] false (fun _ => ∅).

(** Capacity one.  Thread 0 falls asleep in [pop]; thread 1 pushes and notifies;
    thread 2 closes; thread 0 takes the item, and then learns that the queue is
    drained. *)
Definition handover_schedule : list (choice (BlockingOp nat)) :=
  [DoCall 0 Pop; DoStep 0 0; DoStep 0 0; DoCall 1 (Push 7%nat); DoStep 1 0; DoStep 1 0;
   DoCall 2 Close; DoStep 1 0; DoStep 1 0; DoStep 0 0; DoStep 2 0; DoStep 2 0; DoStep 2 0;
   DoStep 1 0; DoRet 1; DoStep 0 0; DoStep 0 0; DoStep 0 0; DoStep 0 0; DoStep 0 0; DoRet 0;
   DoStep 2 0; DoStep 2 0; DoStep 2 0; DoRet 2;
   DoCall 0 Pop; DoStep 0 0; DoStep 0 0; DoStep 0 0; DoStep 0 0; DoRet 0].

Definition handover_history : list (event (BlockingOp nat) (BlockingRes nat)) :=
  [Call 0 Pop; Call 1 (Push 7%nat); Call 2 Close; Ret 1 (PushRes success);
   Ret 0 (PopRes (Some 7%nat)); Ret 2 CloseRes; Call 0 Pop; Ret 0 (PopRes None)].

Lemma blocking_linearizable_witness :
  linearizable (strict (blocking_spec 1)) (mkGuarded [] false) 3 handover_history.
Proof.
  eapply (blocking_linearizable 1 small_blocking 3 (length handover_schedule)); [lia | done |].
  apply run_schedule_exec. vm_compute. reflexivity.
Defined.

(** Thread 0 asleep in [pop], thread 1 past its [push] but not yet notifying. *)
Definition sleeping_schedule : list (choice (BlockingOp nat)) :=
  [DoCall 0 Pop; DoStep 0 0; DoStep 0 0; DoCall 1 (Push 7%nat); DoStep 1 0; DoStep 1 0].

Definition sleeping_history : list (event (BlockingOp nat) (BlockingRes nat)) :=
  [Call 0 Pop; Call 1 (Push 7%nat)].

Definition sleeping_pool : pool (BlockingQueue nat) (blocking_thread nat) :=
  match run_schedule (blocking_init small_blocking 2) sleeping_schedule with
  | Some (_, p) => p
  | None => blocking_init small_blocking 2
  end.

Lemma sleeping_exec :
  exec pool_step (length sleeping_schedule) (blocking_init small_blocking 2) sleeping_history sleeping_pool.
Proof. apply run_schedule_exec. vm_compute. reflexivity. Qed.

Lemma blocking_mutual_exclusion_witness :
  holds_lock (pc (mkThread 1 (BUnlock [notify_one not_empty_] (PushRes (T := nat) success)))) = 1%nat /\
  forall t2 th2, threads sleeping_pool !! t2 = Some th2 -> holds_lock (pc th2) = 1%nat -> 1%nat = t2.
Proof.
  split; [done |]. intros t2 th2 H2 L2.
  eapply (proj1 (blocking_mutual_exclusion 1 small_blocking 2 _ _ _ ltac:(lia) eq_refl sleeping_exec) 1%nat);
    [vm_compute; reflexivity | exact H2 | reflexivity | exact L2].
Defined.

Lemma blocking_no_lost_wakeup_witness :
  queue_ (shared sleeping_pool) = [7%nat] /\ id (mkThread (T := nat) 0 BIdle) ∈ waiting (shared sleeping_pool) not_empty_ /\
  (1 <= total not_empty_ (waiting (shared sleeping_pool) not_empty_) (threads sleeping_pool))%nat.
Proof.
  assert (Hin : 0%nat ∈ waiting (shared sleeping_pool) not_empty_)
    by (apply (bool_decide_unpack _); vm_compute; exact I).
  split; [reflexivity |]. split; [exact Hin |].
  destruct (blocking_no_lost_wakeup 1 small_blocking 2 _ _ _ ltac:(lia) eq_refl sleeping_exec not_empty_
    0%nat (mkThread 0 (BAsleep Pop not_empty_)) eq_refl (conj (ex_intro _ Pop eq_refl) Hin)) as (H & _).
  exact (H eq_refl).
Defined.

Lemma blocking_deadlock_free_witness :
  exists t th, threads sleeping_pool !! t = Some th /\ ~ at_rest (shared sleeping_pool) th /\
    (tstep (shared sleeping_pool) th <> [] \/ ret th <> None).
Proof.
  apply (blocking_deadlock_free 1 small_blocking 2 _ _ _ ltac:(lia) eq_refl sleeping_exec).
  exists 1%nat, (mkThread 1 (BUnlock [notify_one not_empty_] (PushRes success))).
  split; [reflexivity |]. by intros [H | (cv & (o & H) & _)].
Defined.
