(* ===== verification/SequenceTracker.v ===== *)
(** * Sequence tracking ([benchmarks/benchmark_support.h])

    Benchmark consumers record the queue sequences they read in a
    [SequenceTracker], a list of disjoint ranges, and the report counts the
    distinct sequences of all consumers by sorting and sweeping the ranges.
    Theorem: the trackers accept exactly the new maxima, and the sweep returns
    the exact number of distinct accepted sequences; no 64-bit addition wraps,
    the largest representable sequence included. *)

From stdpp Require Import gmap fin_sets sorting.
From S2P Require Import Prelude.

Definition u64_max : Z := u64_modulus - 1.

Record SequenceRange : Type := mkRange {
  first_ : Z;
  last_ : Z;
}.

Record SequenceTracker : Type := mkTracker {
  ranges_ : list SequenceRange;
}.

Definition ranges (t : SequenceTracker) : list SequenceRange := ranges_ t.

Definition push_range (t : SequenceTracker) (r : SequenceRange) : SequenceTracker :=
  mkTracker (ranges_ t ++ [r]).

(** [ranges_.back().last = sequence] *)
Definition set_back_last (t : SequenceTracker) (sequence : Z) : SequenceTracker :=
  mkTracker (match last (ranges_ t) with
             | Some back => <[pred (length (ranges_ t)) := mkRange (first_ back) sequence]> (ranges_ t)
             | None => ranges_ t
             end).

Definition record (t : SequenceTracker) (sequence : Z) : bool * SequenceTracker :=
  if sequence =? 0 then (false, t)
  else match last (ranges_ t) with
       | None => (true, push_range t (mkRange sequence sequence))
       | Some back =>
           if negb (last_ back =? u64_max) && (last_ back +u 1 <? sequence)
           then (true, push_range t (mkRange sequence sequence))
           else if negb (last_ back =? u64_max) && (sequence =? last_ back +u 1)
           then (true, set_back_last t sequence)
           else (false, t)
       end.

(** The order [std::sort] arranges the ranges in. *)
Definition range_le (left right : SequenceRange) : Prop :=
  first_ left < first_ right \/ (first_ left = first_ right /\ last_ left <= last_ right).

#[export] Instance range_le_dec left right : Decision (range_le left right).
Proof. unfold range_le. apply _. Defined.

Fixpoint sweep (current : SequenceRange) (count : Z) (rest : list SequenceRange) : Z :=
  match rest with
  | [] => ((count +u last_ current) -u first_ current) +u 1
  | range :: rest =>
      if negb (last_ current =? u64_max) && (last_ current +u 1 <? first_ range)
      then sweep range (count +u ((last_ current -u first_ current) +u 1)) rest
      else if last_ current <? last_ range
      then sweep (mkRange (first_ current) (last_ range)) count rest
      else sweep current count rest
  end.

Definition count_unique_sequences (trackers : list SequenceTracker) : Z :=
  let all := concat (ranges <$> trackers) in
  match merge_sort range_le all with
  | [] => 0
  | front :: rest => sweep front 0 rest
  end.

(** ** The sets the ranges stand for *)

Definition range_set (r : SequenceRange) : gset Z :=
  list_to_set (seqZ (first_ r) (last_ r - first_ r + 1)).

Definition ranges_set (rs : list SequenceRange) : gset Z := ⋃ (range_set <$> rs).

Definition range_ok (r : SequenceRange) : Prop := 1 <= first_ r <= last_ r /\ last_ r <= u64_max.

Lemma elem_of_range_set r x : x ∈ range_set r <-> first_ r <= x <= last_ r.
Proof. unfold range_set. rewrite elem_of_list_to_set, elem_of_seqZ. lia. Qed.

Lemma elem_of_ranges_set rs x : x ∈ ranges_set rs <-> exists r, r ∈ rs /\ first_ r <= x <= last_ r.
Proof.
  unfold ranges_set. rewrite elem_of_union_list. split.
  - intros (X & (r & -> & Hr)%list_elem_of_fmap & Hx). exists r. by rewrite <- elem_of_range_set.
  - intros (r & Hr & Hx). exists (range_set r). split; [by apply list_elem_of_fmap_2 | by rewrite elem_of_range_set].
Qed.

Lemma ranges_set_cons r rs : ranges_set (r :: rs) = range_set r ∪ ranges_set rs.
Proof. done. Qed.

Lemma size_range_set r : range_ok r -> Z.of_nat (size (range_set r)) = last_ r - first_ r + 1.
Proof.
  intros [H _]. unfold range_set. rewrite size_list_to_set by apply NoDup_seqZ.
  rewrite length_seqZ. lia.
Qed.

#[export] Instance range_le_total : Total range_le.
Proof. intros a b. unfold range_le. lia. Qed.

#[export] Instance range_le_trans : Transitive range_le.
Proof. intros a b c. unfold range_le. lia. Qed.

(** ** The sweep *)

Lemma ranges_set_above rs x y :
  Forall (fun r => x <= first_ r) rs -> y ∈ ranges_set rs -> x <= y.
Proof.
  intros H (r & Hr & Hy)%elem_of_ranges_set. rewrite Forall_forall in H. specialize (H r Hr). lia.
Qed.

(** Three shapes of the next range: apart, overlapping or adjacent, contained. *)
Lemma ranges_set_apart cur rest :
  Forall (fun r => last_ cur < first_ r) rest ->
  size (ranges_set (cur :: rest)) = (size (range_set cur) + size (ranges_set rest))%nat.
Proof.
  intros H. rewrite ranges_set_cons. apply size_union. intros x Hx Hr.
  apply elem_of_range_set in Hx. apply elem_of_ranges_set in Hr as (r & Hin & Hxr).
  rewrite Forall_forall in H. specialize (H r Hin). lia.
Qed.

Lemma ranges_set_merge cur r rest :
  first_ cur <= first_ r <= last_ cur + 1 -> last_ cur <= last_ r ->
  ranges_set (cur :: r :: rest) = ranges_set (mkRange (first_ cur) (last_ r) :: rest).
Proof.
  intros H1 H2. rewrite !ranges_set_cons. apply set_eq. intros x.
  rewrite !elem_of_union, !elem_of_range_set. simpl.
  destruct (Z.le_gt_cases (first_ r) x); intuition lia.
Qed.

Lemma ranges_set_contained cur r rest :
  first_ cur <= first_ r -> last_ r <= last_ cur ->
  ranges_set (cur :: r :: rest) = ranges_set (cur :: rest).
Proof.
  intros H1 H2. rewrite !ranges_set_cons. apply set_eq. intros x.
  rewrite !elem_of_union, !elem_of_range_set. intuition lia.
Qed.

Lemma sweep_spec rest : forall cur count,
  range_ok cur -> Forall range_ok rest -> Forall (fun r => first_ cur <= first_ r) rest ->
  StronglySorted range_le rest -> 0 <= count < first_ cur ->
  sweep cur count rest = count + Z.of_nat (size (ranges_set (cur :: rest))).
Proof.
  unfold u64_max in *. induction rest as [| r rest IH]; intros cur count Hcur Hok Hfirst Hsort Hc.
  - simpl. rewrite ranges_set_cons. change (ranges_set []) with (∅ : gset Z). rewrite union_empty_r_L.
    rewrite size_range_set by done. unfold range_ok, u64_max in Hcur.
    rewrite (u64_sub_l (count + last_ cur)), u64_add_l, u64_small; lia.
  - inversion Hok as [| ? ? Hr Hok']; subst. inversion Hfirst as [| ? ? Hf Hfirst']; subst.
    apply StronglySorted_inv in Hsort as [Hsort Hall].
    assert (Hrest : Forall (fun x => first_ r <= first_ x) rest).
    { eapply Forall_impl; [exact Hall |]. unfold range_le. simpl. lia. }
    unfold range_ok, u64_max in Hcur, Hr. simpl.
    destruct (Z.eqb_spec (last_ cur) u64_max) as [Emax | Hmax]; simpl; unfold u64_max in *.
    + rewrite (proj2 (Z.ltb_ge _ _)) by lia. rewrite ranges_set_contained by lia. apply IH; done || unfold range_ok, u64_max; lia.
    + rewrite (u64_small (last_ cur + 1)) by lia.
      destruct (Z.ltb_spec (last_ cur + 1) (first_ r)).
      * rewrite (u64_small (last_ cur - first_ cur)), (u64_small (_ + 1)), (u64_small (count + _)) by lia.
        rewrite IH; [| done.. | lia]. rewrite (ranges_set_apart cur (r :: rest)).
        { rewrite Nat2Z.inj_add, size_range_set by done. lia. }
        constructor; [lia |]. eapply Forall_impl; [exact Hrest |]. simpl. lia.
      * destruct (Z.ltb_spec (last_ cur) (last_ r)).
        -- rewrite ranges_set_merge by lia. apply IH; try done; unfold range_ok, u64_max; simpl; lia.
        -- rewrite ranges_set_contained by lia. apply IH; try done.
Qed.

(** ** Recording *)

(** A tracker's ranges are valid, and separated by gaps in increasing order. *)
Record tracker_ok (t : SequenceTracker) : Prop := {
  to_ranges : Forall range_ok (ranges_ t);
  to_gaps : StronglySorted (fun a b => last_ a + 1 < first_ b) (ranges_ t);
}.

(** The largest recorded sequence, zero before the first. *)
Definition highest (t : SequenceTracker) : Z :=
  match last (ranges_ t) with Some back => last_ back | None => 0 end.

Lemma tracker_ok_snoc rs r :
  tracker_ok (mkTracker rs) -> range_ok r ->
  highest (mkTracker rs) + 1 < first_ r \/ rs = [] -> tracker_ok (mkTracker (rs ++ [r])).
Proof.
  intros [H1 H2] Hr Hgap. split; simpl in *; [by apply Forall_app; auto |].
  apply StronglySorted_app_2; [| done | by repeat constructor]. intros a b Ha ->%list_elem_of_singleton.
  unfold highest in Hgap. simpl in Hgap. destruct (last rs) as [back |] eqn:El.
  2: { apply last_None in El. subst. by apply not_elem_of_nil in Ha. }
  destruct Hgap as [Hgap | ->]; [| done]. apply last_Some in El as (rs' & ->).
  apply elem_of_app in Ha as [Ha | ->%list_elem_of_singleton]; [| done].
  pose proof (StronglySorted_app_1_elem_of _ _ _ a back H2 Ha ltac:(by left)) as Hab. simpl in Hab.
  apply Forall_app in H1 as [_ H1]. inversion H1 as [| ? ? Hb]; subst. unfold range_ok in Hb. lia.
Qed.

Lemma highest_bound t x : tracker_ok t -> x ∈ ranges_set (ranges_ t) -> x <= highest t.
Proof.
  intros [H1 H2] (r & Hr & Hx)%elem_of_ranges_set. unfold highest.
  destruct (last (ranges_ t)) as [back |] eqn:El.
  2: { apply last_None in El. rewrite El in Hr. by apply not_elem_of_nil in Hr. }
  apply last_Some in El as (rs' & El). rewrite El in *.
  apply elem_of_app in Hr as [Hr | ->%list_elem_of_singleton]; [| lia].
  pose proof (StronglySorted_app_1_elem_of _ _ _ r back H2 Hr ltac:(by left)) as Hrb. simpl in Hrb.
  apply Forall_app in H1 as [_ H1]. inversion H1 as [| ? ? Hb]; subst. unfold range_ok in Hb. lia.
Qed.

Lemma ranges_set_app rs1 rs2 : ranges_set (rs1 ++ rs2) = ranges_set rs1 ∪ ranges_set rs2.
Proof. unfold ranges_set. by rewrite fmap_app, union_list_app_L. Qed.

Lemma range_set_single s : range_set (mkRange s s) = {[ s ]}.
Proof. apply set_eq. intros x. rewrite elem_of_range_set, elem_of_singleton. simpl. lia. Qed.

(** One call: it accepts exactly a new maximum and adds it to the set. *)
Lemma record_spec t s :
  tracker_ok t -> 0 <= s <= u64_max ->
  let '(accepted, t') := record t s in
  tracker_ok t' /\ accepted = (highest t <? s) /\
  ranges_set (ranges_ t') = (if accepted then ranges_set (ranges_ t) ∪ {[ s ]} else ranges_set (ranges_ t)) /\
  highest t' = (if accepted then s else highest t).
Proof.
  intros Hok Hs. destruct t as [rs]. pose proof Hok as [H1 H2]. unfold record, highest. simpl in *.
  assert (Hpush : forall r, highest (mkTracker rs) + 1 < first_ r \/ rs = [] -> range_ok r -> r = mkRange s s ->
    tracker_ok (push_range (mkTracker rs) r) /\
    ranges_set (ranges_ (push_range (mkTracker rs) r)) = ranges_set rs ∪ {[ s ]} /\
    last (ranges_ (push_range (mkTracker rs) r)) = Some r).
  { intros r Hg Hr ->. split; [by apply tracker_ok_snoc |]. simpl. rewrite last_snoc, ranges_set_app.
    split; [| done]. f_equal. rewrite ranges_set_cons, range_set_single. apply union_empty_r_L. }
  assert (Hrs : s <> 0 -> range_ok (mkRange s s)) by (unfold range_ok; simpl; lia).
  destruct (Z.eqb_spec s 0) as [-> | Hnz].
  { split; [done |]. split; [| done]. symmetry. apply Z.ltb_ge.
    destruct (last rs) as [back |] eqn:El; [| done]. apply last_Some in El as (rs' & ->).
    apply Forall_app in H1 as [_ H1]. inversion H1 as [| ? ? Hb]; subst. unfold range_ok in Hb. lia. }
  destruct (last rs) as [back |] eqn:El.
  2: { apply last_None in El. destruct (Hpush (mkRange s s)) as (P1 & P2 & P3); [by right | auto | done |].
       rewrite P3. split; [done |]. split; [symmetry; apply Z.ltb_lt; lia | done]. }
  pose proof El as (rs' & Ers)%last_Some. subst rs. rename rs' into rs.
  apply Forall_app in H1 as [H1 H1b]. inversion H1b as [| ? ? Hb]; subst. unfold range_ok in Hb.
  unfold u64_max in *.
  destruct (Z.eqb_spec (last_ back) (u64_modulus - 1)) as [Emax | Hmax]; simpl.
  { simpl. split; [done |]. rewrite ?El. split; [symmetry; apply Z.ltb_ge; lia | done]. }
  rewrite (u64_small (last_ back + 1)) by lia.
  destruct (Z.ltb_spec (last_ back + 1) s).
  { destruct (Hpush (mkRange s s)) as (P1 & P2 & P3); [| auto | done |].
    { left. unfold highest. simpl. rewrite El. simpl. lia. }
    rewrite P3. split; [done |]. split; [symmetry; apply Z.ltb_lt; lia | done]. }
  destruct (Z.eqb_spec s (last_ back + 1)) as [-> | Hne].
  2: { simpl. split; [done |]. rewrite ?El. split; [symmetry; apply Z.ltb_ge; lia | done]. }
  unfold set_back_last. simpl. rewrite El.
  assert (Eins : <[pred (length (rs ++ [back])) := mkRange (first_ back) (last_ back + 1)]> (rs ++ [back])
    = rs ++ [mkRange (first_ back) (last_ back + 1)]).
  { rewrite length_app. simpl. rewrite Nat.add_1_r. simpl. rewrite insert_app_r_alt by lia.
    by rewrite Nat.sub_diag. }
  rewrite Eins, last_snoc. split; [| split; [symmetry; apply Z.ltb_lt; lia |]].
  - apply tracker_ok_snoc; [split; simpl; [done | by eapply StronglySorted_app_1_l] | unfold range_ok, u64_max; simpl; lia |].
    destruct (last rs) as [b2 |] eqn:E2; [| right; by apply last_None]. left.
    unfold highest. simpl. rewrite E2. apply last_Some in E2 as (rs2 & ->).
    apply (StronglySorted_app_1_elem_of _ _ _ b2 back H2); [apply elem_of_app; right; by left | by left].
  - split; [| done]. rewrite !ranges_set_app, !ranges_set_cons. apply set_eq. intros x.
    rewrite !elem_of_union, !elem_of_range_set, elem_of_singleton. simpl. intuition lia.
Qed.

(** A whole feed: the accepted sequences are the new maxima, in order. *)
Fixpoint track (t : SequenceTracker) (feed : list Z) : list bool * SequenceTracker :=
  match feed with
  | [] => ([], t)
  | s :: feed => let '(b, t1) := record t s in let '(bs, t2) := track t1 feed in (b :: bs, t2)
  end.

Fixpoint new_maxima (m : Z) (feed : list Z) : list Z :=
  match feed with
  | [] => []
  | s :: feed => if m <? s then s :: new_maxima s feed else new_maxima m feed
  end.

(** Sequence [s], recorded after [earlier], is accepted if it is above zero and above
    all of them. *)
Definition is_new_maximum (earlier : list Z) (s : Z) : bool := bool_decide (Forall (fun x => x < s) (0 :: earlier)).

Lemma track_spec feed : forall t,
  tracker_ok t -> Forall (fun s => 0 <= s <= u64_max) feed ->
  tracker_ok (track t feed).2 /\
  ranges_set (ranges_ (track t feed).2) =
    ranges_set (ranges_ t) ∪ list_to_set (new_maxima (highest t) feed).
Proof.
  induction feed as [| s feed IH]; intros t Hok Hf; simpl; [split; [done | set_solver] |].
  inversion Hf as [| ? ? Hs Hf']; subst. pose proof (record_spec t s Hok Hs) as Hr.
  destruct (record t s) as [b t1]. destruct Hr as (Hok1 & Eb & Eset & Eh).
  destruct (IH t1 Hok1 Hf') as [Hok2 Eset2]. destruct (track t1 feed) as [bs t2]. simpl in *.
  split; [done |]. rewrite Eset2, Eset, Eh, <- Eb. destruct b; simpl; [| done].
  by rewrite (assoc_L (∪)).
Qed.

(** What [record] answers to a tracker that has already been fed [earlier]. *)
Lemma track_flags feed : forall t earlier,
  tracker_ok t -> Forall (fun s => 0 <= s <= u64_max) feed -> 0 <= highest t ->
  (forall s, Forall (fun x => x < s) (0 :: earlier) <-> highest t < s) ->
  length (track t feed).1 = length feed /\
  forall i s, feed !! i = Some s -> (track t feed).1 !! i = Some (is_new_maximum (earlier ++ take i feed) s).
Proof.
  induction feed as [| s feed IH]; intros t earlier Hok Hf Hh Hacc; [done |].
  inversion Hf as [| ? ? Hs Hf']; subst. cbn [track]. pose proof (record_spec t s Hok Hs) as Hr.
  destruct (record t s) as [b t1]. destruct Hr as (Hok1 & Eb & _ & Eh).
  destruct (IH t1 (earlier ++ [s]) Hok1 Hf') as [Hl Hi].
  - rewrite Eh. destruct b; lia.
  - intros x. rewrite app_comm_cons, Forall_app, Forall_singleton, Hacc, Eh. subst b. destruct (Z.ltb_spec (highest t) s); lia.
  - destruct (track t1 feed) as [bs t2]. cbn [fst] in *. split; [cbn; lia |].
    intros [| i] x Hx; cbn in Hx; simplify_eq.
    + cbn. rewrite app_nil_r. f_equal. unfold is_new_maximum. symmetry.
      destruct (Z.ltb_spec (highest t) x) as [H | H]; [apply bool_decide_eq_true | apply bool_decide_eq_false]; rewrite Hacc; lia.
    + pose proof (Hi i x Hx) as E. rewrite <- app_assoc in E. exact E.
Qed.

Lemma tracker_ok_fresh : tracker_ok (mkTracker []).
Proof. by repeat constructor. Qed.

Definition trackers_of (feeds : list (list Z)) : list SequenceTracker :=
  (fun feed => (track (mkTracker []) feed).2) <$> feeds.

Lemma trackers_set feeds :
  Forall (Forall (fun s => 0 <= s < u64_modulus)) feeds ->
  Forall range_ok (concat (ranges <$> trackers_of feeds)) /\
  ranges_set (concat (ranges <$> trackers_of feeds)) = list_to_set (concat (new_maxima 0 <$> feeds)).
Proof.
  induction 1 as [| feed feeds Hf _ [IH1 IH2]]; [by split |]. simpl.
  destruct (track_spec feed (mkTracker []) tracker_ok_fresh) as [[Hr _] Hset].
  { eapply Forall_impl; [exact Hf |]. unfold u64_max. simpl. lia. }
  split; [by apply Forall_app |]. rewrite ranges_set_app, list_to_set_app_L. f_equal; [| exact IH2].
  unfold ranges. rewrite Hset. change (ranges_set (ranges_ (mkTracker []))) with (∅ : gset Z).
  by rewrite union_empty_l_L.
Qed.

Lemma ranges_set_perm rs1 rs2 : rs1 ≡ₚ rs2 -> ranges_set rs1 = ranges_set rs2.
Proof.
  intros H. apply set_eq. intros x. rewrite !elem_of_ranges_set. by setoid_rewrite H.
Qed.

Lemma count_unique_spec trackers :
  Forall range_ok (concat (ranges <$> trackers)) ->
  count_unique_sequences trackers = Z.of_nat (size (ranges_set (concat (ranges <$> trackers)))).
Proof.
  intros Hok. unfold count_unique_sequences. set (all := concat (ranges <$> trackers)) in *.
  pose proof (merge_sort_Permutation range_le all) as Hp.
  pose proof (StronglySorted_merge_sort range_le all) as Hs.
  rewrite <- (ranges_set_perm _ _ Hp). rewrite <- Hp in Hok.
  destruct (merge_sort range_le all) as [| front rest]; [done |].
  apply StronglySorted_inv in Hs as [Hs Hall]. inversion Hok as [| ? ? Hf Hr]; subst.
  rewrite sweep_spec; [lia | done | done | | done | unfold range_ok in Hf; lia].
  eapply Forall_impl; [exact Hall |]. unfold range_le. simpl. lia.
Qed.

(** C26: Fed with any sequences, consumer by consumer, [record] answers true exactly to
    the new maxima of each feed, those above zero and above everything recorded before,
    and [count_unique_sequences] returns exactly how many distinct sequences were
    accepted by all trackers together, with no wrap-around even at the largest 64-bit
    sequence. *)
Theorem count_unique_sequences_exact (feeds : list (list Z)) :
  Forall (Forall (fun s => 0 <= s < u64_modulus)) feeds ->
  Forall (fun feed =>
    length (track (mkTracker []) feed).1 = length feed /\
    forall i s, feed !! i = Some s ->
      (track (mkTracker []) feed).1 !! i = Some (is_new_maximum (take i feed) s)) feeds /\
  count_unique_sequences (trackers_of feeds) =
    Z.of_nat (size (list_to_set (concat (new_maxima 0 <$> feeds)) : gset Z)).
Proof.
  intros Hf. split; [| destruct (trackers_set feeds Hf) as [Hok <-]; by apply count_unique_spec].
  eapply Forall_impl; [exact Hf |]. cbn. intros feed Hfeed.
  apply (track_flags feed (mkTracker []) []); [apply tracker_ok_fresh | | done |].
  - eapply Forall_impl; [exact Hfeed |]. unfold u64_max. simpl. lia.
  - intros s. by rewrite Forall_singleton.
Qed.

Lemma count_unique_sequences_exact_witness :
  (track (mkTracker []) [1; 2; 2; 5; 4; 6]).1 !! 4%nat = Some (is_new_maximum [1; 2; 2; 5] 4) /\
  count_unique_sequences (trackers_of [[1; 2; 2; 5; 4; 6]; [2; 3; u64_max]]) = 6.
Proof.
  destruct (count_unique_sequences_exact [[1; 2; 2; 5; 4; 6]; [2; 3; u64_max]]) as [H1 H2].
  - repeat constructor; vm_compute; congruence.
  - inversion H1 as [| ? ? [_ Hflag] _]; subst. split; [by apply (Hflag 4%nat) | rewrite H2; vm_compute; reflexivity].
Defined.
