(* ===== verification/Bytes.v ===== *)
(** * Bytes of machine words, and the standard random generator

    What the payload code of the benchmarks and of the stress tester uses of the
    language and its library: the object representation of unsigned integers
    (little-endian, as on the supported targets), bit mixing on 64-bit words, and
    [std::mt19937_64] as the C++ standard defines it. *)

From Stdlib Require Import Init.Byte Strings.Byte.
From S2P Require Import Prelude.

#[export] Instance byte_eq_decision : EqDecision byte := Byte.byte_eq_dec.

(** ** Object representation *)

Definition byte_of (x : Z) : byte := default Byte.x00 (Byte.of_N (Z.to_N (x mod 256))).

Definition byte_value (b : byte) : Z := Z.of_N (Byte.to_N b).

(** The [n] bytes of an unsigned integer, least significant first. *)
Fixpoint encode (n : nat) (x : Z) : list byte :=
  match n with
  | O => []
  | S n => byte_of x :: encode n (x / 256)
  end.

Fixpoint decode (bs : list byte) : Z :=
  match bs with
  | [] => 0
  | b :: bs => byte_value b + 256 * decode bs
  end.

Lemma byte_of_value x : byte_value (byte_of x) = x mod 256.
Proof.
  unfold byte_of, byte_value. pose proof (Z.mod_pos_bound x 256 ltac:(lia)) as Hb.
  destruct (Byte.of_N (Z.to_N (x mod 256))) as [b |] eqn:E; simpl.
  - apply Byte.to_of_N in E. rewrite E. lia.
  - apply Byte.of_N_None_iff in E. lia.
Qed.

Lemma encode_length n x : length (encode n x) = n.
Proof. revert x. induction n as [| n IH]; intros x; simpl; [done | by rewrite IH]. Qed.

Lemma decode_encode n x : decode (encode n x) = x mod 256 ^ Z.of_nat n.
Proof.
  revert x. induction n as [| n IH]; intros x; simpl; [by rewrite Z.mod_1_r |].
  rewrite byte_of_value, IH, Nat2Z.inj_succ, Z.pow_succ_r by lia.
  rewrite Z.rem_mul_r by (try apply Z.pow_nonzero; lia). lia.
Qed.

Lemma decode_encode_small n x : 0 <= x < 256 ^ Z.of_nat n -> decode (encode n x) = x.
Proof. intros H. rewrite decode_encode. by apply Z.mod_small. Qed.

(** ** 64-bit words *)

Definition u32_modulus : Z := 2 ^ 32.

Lemma decode_encode_u64 x : 0 <= x < u64_modulus -> decode (encode 8 x) = x.
Proof.
  intros H. apply decode_encode_small. replace (256 ^ Z.of_nat 8) with u64_modulus; [exact H |].
  vm_compute. reflexivity.
Qed.

Lemma decode_encode_u32 x : 0 <= x < u32_modulus -> decode (encode 4 x) = x.
Proof.
  intros H. apply decode_encode_small. replace (256 ^ Z.of_nat 4) with u32_modulus; [exact H |].
  vm_compute. reflexivity.
Qed.

(** [value ^ (value >> k)] *)
Definition xorshift (k value : Z) : Z := Z.lxor value (Z.shiftr value k).

(** The finalizer both payload generators use. *)
Definition finalize_word (value : Z) : Z :=
  let value := xorshift 30 value in
  let value := u64 (value * 0xbf58476d1ce4e5b9) in
  let value := xorshift 27 value in
  let value := u64 (value * 0x94d049bb133111eb) in
  xorshift 31 value.

Lemma lxor_range x y : 0 <= x < u64_modulus -> 0 <= y < u64_modulus -> 0 <= Z.lxor x y < u64_modulus.
Proof.
  intros Hx Hy. assert (Hn : 0 <= Z.lxor x y) by (apply Z.lxor_nonneg; lia). split; [done |].
  destruct (Z.eq_dec (Z.lxor x y) 0) as [-> |]; [apply u64_modulus_pos |].
  apply Z.log2_lt_pow2; [lia |]. eapply Z.le_lt_trans; [apply Z.log2_lxor; lia |].
  assert (Hlog : forall z, 0 <= z < u64_modulus -> Z.log2 z < 64).
  { intros z Hz. destruct (Z.eq_dec z 0) as [-> |]; [done |]. apply Z.log2_lt_pow2; [lia | apply Hz]. }
  apply Z.max_lub_lt; auto.
Qed.

Lemma xorshift_range k v : 0 <= k -> 0 <= v < u64_modulus -> 0 <= xorshift k v < u64_modulus.
Proof.
  intros Hk Hv. apply lxor_range; [done |]. rewrite Z.shiftr_div_pow2 by done.
  assert (0 < 2 ^ k) by (apply Z.pow_pos_nonneg; lia). split; [apply Z.div_pos; lia |].
  eapply Z.le_lt_trans; [| apply Hv]. apply Z.div_le_upper_bound; nia.
Qed.

Lemma finalize_word_range v : 0 <= v < u64_modulus -> 0 <= finalize_word v < u64_modulus.
Proof. intros H. unfold finalize_word. by repeat first [apply xorshift_range; [lia |] | apply u64_range]. Qed.

(** ** [std::mt19937_64] *)

Definition mt_n : nat := 312.
Definition mt_m : nat := 156.

Record mt19937_64 : Type := mkMt {
  mt_state : list Z;
  mt_index : nat;
}.

Fixpoint mt_seed_from (n : nat) (i previous : Z) : list Z :=
  match n with
  | O => []
  | S n =>
      let x := u64 (6364136223846793005 * xorshift 62 previous + i) in
      x :: mt_seed_from n (i + 1) x
  end.

Definition mt_seed (seed : Z) : mt19937_64 :=
  mkMt (u64 seed :: mt_seed_from (pred mt_n) 1 (u64 seed)) mt_n.

Definition mt_twist_at (state : list Z) (k : nat) : list Z :=
  let word i := default 0 (state !! (i mod mt_n)%nat) in
  let y := Z.lor (Z.land (word k) 0xffffffff80000000) (Z.land (word (S k)) 0x7fffffff) in
  let x := Z.lxor (word (k + mt_m)%nat)
             (Z.lxor (Z.shiftr y 1) (if Z.odd y then 0xb5026f5aa96619e9 else 0)) in
  <[k := x]> state.

Definition mt_twist (state : list Z) : list Z := foldl mt_twist_at state (seq 0 mt_n).

Definition mt_temper (x : Z) : Z :=
  let x := Z.lxor x (Z.land (Z.shiftr x 29) 0x5555555555555555) in
  let x := Z.lxor x (Z.land (u64 (Z.shiftl x 17)) 0x71d67fffeda60000) in
  let x := Z.lxor x (Z.land (u64 (Z.shiftl x 37)) 0xfff7eee000000000) in
  xorshift 43 x.

(** [random()] *)
Definition mt_next (g : mt19937_64) : Z * mt19937_64 :=
  let g := if (mt_n <=? mt_index g)%nat then mkMt (mt_twist (mt_state g)) 0 else g in
  (mt_temper (default 0 (mt_state g !! mt_index g)), mkMt (mt_state g) (S (mt_index g))).

(** The first output of a default-constructed generator (seed 5489). *)
Example mt19937_64_first_output : (mt_next (mt_seed 5489)).1 = 14514284786278117030.
Proof. vm_compute. reflexivity. Qed.
