(* ===== verification/BenchmarkMessage.v ===== *)
(** * Benchmark payloads ([benchmarks/external_baselines/benchmark_message.h])

    Every benchmark message carries a header with its identity and a checksum of
    it, followed by pseudo-random bytes seeded with the checksum.  Theorems: the
    header survives the trip through the bytes, every generated payload is valid,
    and a valid payload is byte for byte the one its header names, so that a
    consumer cannot count a damaged message. *)

From S2P Require Import Prelude Bytes.

Definition max_payload_size : Z := 256.
Definition payload_header_size : Z := 32.

Record PayloadHeader : Type := mkHeader {
  global_id : Z;
  local_sequence : Z;
  producer_id : Z;
  payload_size : Z;
  checksum : Z;
}.

#[export] Instance PayloadHeader_eq_dec : EqDecision PayloadHeader.
Proof. solve_decision. Defined.

Record Payload : Type := mkPayload {
  bytes : list byte;
  size : Z;
}.

(** [std::memcpy] from and to a header: its members in order, without padding
    (the header is asserted to be 32 bytes long). *)
Definition header_bytes (h : PayloadHeader) : list byte :=
  encode 8 (global_id h) ++ encode 8 (local_sequence h) ++ encode 4 (producer_id h) ++
  encode 4 (payload_size h) ++ encode 8 (checksum h).

Definition header_of_bytes (bs : list byte) : PayloadHeader :=
  mkHeader (decode (take 8 bs)) (decode (take 8 (drop 8 bs))) (decode (take 4 (drop 16 bs)))
    (decode (take 4 (drop 20 bs))) (decode (take 8 (drop 24 bs))).

Definition mix (header : PayloadHeader) : Z :=
  finalize_word
    (Z.lxor (Z.lxor (Z.lxor (global_id header) (u64 (Z.shiftl (producer_id header) 32)))
       (local_sequence header)) 0x4f52424954515545).

(** [for (; index < payload.size; ++index) bytes[index] = random() & 0xff], with
    [n] iterations left; a subscript outside the array is undefined. *)
Fixpoint fill_random (bs : list byte) (index n : nat) (random : mt19937_64) : option (list byte) :=
  match n with
  | O => Some bs
  | S n =>
      _ ← bs !! index;
      let '(word, random) := mt_next random in
      fill_random (<[index := byte_of (Z.land word 255)]> bs) (S index) n random
  end.

Definition make_payload (payload_size producer_id local_sequence global_id : Z) : option Payload :=
  let zeros := replicate (Z.to_nat max_payload_size) Byte.x00 in
  let header := mkHeader global_id local_sequence producer_id payload_size 0 in
  let header := mkHeader global_id local_sequence producer_id payload_size (mix header) in
  let bs := std_copy (header_bytes header) zeros in
  bs ← fill_random bs (Z.to_nat payload_header_size)
         (Z.to_nat payload_size - Z.to_nat payload_header_size) (mt_seed (checksum header));
  Some (mkPayload bs payload_size).

Definition readable (payload : Payload) : list byte := take (Z.to_nat (size payload)) (bytes payload).

(** [writable(payload)], and what copying [src] into it leaves in the payload. *)
Definition writable (payload : Payload) : list byte := take (Z.to_nat (size payload)) (bytes payload).

Definition write_payload (payload : Payload) (src : list byte) : Payload :=
  mkPayload (std_copy src (bytes payload)) (size payload).

Definition read_header (payload : Payload) : PayloadHeader :=
  if payload_header_size <=? size payload then header_of_bytes (bytes payload)
  else mkHeader 0 0 0 0 0.

Definition valid_payload (payload : Payload) (expected_size : Z) : option bool :=
  if negb (size payload =? expected_size) || (size payload <? payload_header_size) then Some false
  else
    let header := read_header payload in
    if negb (payload_size header =? size payload) || (global_id header =? 0)
       || (local_sequence header =? 0) || negb (checksum header =? mix header)
    then Some false
    else
      expected ← make_payload (size payload) (producer_id header) (local_sequence header) (global_id header);
      Some (bool_decide (readable payload = readable expected)).

(** ** The header in the bytes *)

Record header_ok (h : PayloadHeader) : Prop := {
  ho_global : 0 <= global_id h < u64_modulus;
  ho_local : 0 <= local_sequence h < u64_modulus;
  ho_producer : 0 <= producer_id h < u32_modulus;
  ho_size : 0 <= payload_size h < u32_modulus;
  ho_checksum : 0 <= checksum h < u64_modulus;
}.

Lemma header_bytes_length h : length (header_bytes h) = 32%nat.
Proof. unfold header_bytes. by rewrite !length_app, !encode_length. Qed.

Lemma take_encode n x rest : take n (encode n x ++ rest) = encode n x.
Proof. rewrite <- (encode_length n x) at 1. apply take_app_length. Qed.

Lemma drop_encode n m x rest :
  drop (n + m) (encode n x ++ rest) = drop m rest.
Proof. rewrite <- (encode_length n x) at 1. by rewrite <- drop_drop, drop_app_length. Qed.

Lemma header_roundtrip h rest : header_ok h -> header_of_bytes (header_bytes h ++ rest) = h.
Proof.
  intros [H1 H2 H3 H4 H5]. unfold header_of_bytes, header_bytes. rewrite <- !app_assoc.
  rewrite take_encode, decode_encode_u64 by exact H1.
  change (drop 8) with (drop (A := byte) (8 + 0)). change (drop 16) with (drop (A := byte) (8 + (8 + 0))).
  change (drop 20) with (drop (A := byte) (8 + (8 + (4 + 0)))).
  change (drop 24) with (drop (A := byte) (8 + (8 + (4 + (4 + 0))))).
  rewrite !drop_encode, !drop_0, !take_encode.
  rewrite (decode_encode_u64 _ H2), (decode_encode_u32 _ H3), (decode_encode_u32 _ H4).
  replace (take 8 (encode 8 (checksum h) ++ rest)) with (encode 8 (checksum h)) by (symmetry; apply take_encode).
  rewrite (decode_encode_u64 _ H5). by destruct h.
Qed.

Lemma mix_range h :
  0 <= global_id h < u64_modulus -> 0 <= local_sequence h < u64_modulus -> 0 <= mix h < u64_modulus.
Proof.
  intros H1 H2. apply finalize_word_range. repeat apply lxor_range; try done. apply u64_range.
Qed.

(** ** Generated payloads *)

Lemma fill_random_spec n : forall bs index random,
  (index + n <= length bs)%nat ->
  exists bs', fill_random bs index n random = Some bs' /\ length bs' = length bs /\
    take index bs' = take index bs.
Proof.
  induction n as [| n IH]; intros bs index random Hn; cbn [fill_random]; [by exists bs |].
  destruct (lookup_lt_is_Some_2 bs index) as [b Hb]; [lia |]. rewrite Hb. cbn [mbind option_bind].
  destruct (mt_next random) as [word random'].
  destruct (IH (<[index := byte_of (Z.land word 255)]> bs) (S index) random') as (bs' & E & Hl & Ht).
  { rewrite length_insert. lia. }
  exists bs'. split; [exact E |]. rewrite length_insert in Hl. split; [exact Hl |].
  apply (f_equal (take index)) in Ht. rewrite !take_take, !Nat.min_l in Ht by lia.
  by rewrite take_insert_ge in Ht by lia.
Qed.

Section generated.

Context (psize pid local gid : Z).
Hypothesis Hsize : payload_header_size <= psize <= max_payload_size.
Hypothesis Hpid : 0 <= pid < u32_modulus.
Hypothesis Hlocal : 0 < local < u64_modulus.
Hypothesis Hgid : 0 < gid < u64_modulus.

Definition sealed_header : PayloadHeader :=
  mkHeader gid local pid psize (mix (mkHeader gid local pid psize 0)).

Lemma sealed_header_ok : header_ok sealed_header.
Proof using Hsize Hpid Hlocal Hgid.
  split; simpl; try lia; [| apply mix_range; simpl; lia].
  unfold payload_header_size, max_payload_size in Hsize. split; [lia |].
  eapply Z.le_lt_trans; [apply Hsize | done].
Qed.

Lemma make_payload_spec :
  exists p, make_payload psize pid local gid = Some p /\ size p = psize /\
    length (bytes p) = 256%nat /\ read_header p = sealed_header.
Proof using Hsize Hpid Hlocal Hgid.
  unfold make_payload. fold sealed_header. unfold payload_header_size, max_payload_size in *.
  set (bs := std_copy (header_bytes sealed_header) (replicate (Z.to_nat 256) Byte.x00)).
  assert (Hbs : length bs = 256%nat).
  { unfold bs. rewrite std_copy_length; [by rewrite length_replicate |].
    rewrite header_bytes_length, length_replicate. lia. }
  destruct (fill_random_spec (Z.to_nat psize - Z.to_nat 32) bs (Z.to_nat 32)
    (mt_seed (checksum sealed_header))) as (bs' & E & Hl & Ht); [lia |].
  rewrite E. simpl. exists (mkPayload bs' psize). split; [done |]. split; [done |]. simpl.
  split; [lia |]. unfold read_header, payload_header_size. simpl.
  rewrite (proj2 (Z.leb_le _ _)) by lia.
  rewrite <- (take_drop (Z.to_nat 32) bs'), Ht.
  replace (take (Z.to_nat 32) bs) with (header_bytes sealed_header).
  - apply header_roundtrip, sealed_header_ok.
  - unfold bs. change (Z.to_nat 32) with 32%nat. rewrite <- (header_bytes_length sealed_header).
    symmetry. apply std_copy_prefix.
Qed.

End generated.

(** The checksum covers the identifiers, not itself. *)
Lemma sealed_checksum psize pid local gid :
  checksum (sealed_header psize pid local gid) = mix (sealed_header psize pid local gid).
Proof. reflexivity. Qed.

(** What the check asks for is there. *)
Lemma sealed_payload_valid psize pid local gid p :
  payload_header_size <= psize -> 0 < local -> 0 < gid ->
  make_payload psize pid local gid = Some p -> size p = psize ->
  read_header p = sealed_header psize pid local gid -> valid_payload p psize = Some true.
Proof.
  intros Hs Hl Hg E Esz Eh.
  unfold valid_payload. rewrite Eh, Esz, Z.eqb_refl, (proj2 (Z.ltb_ge _ _)) by lia. cbn [negb orb].
  set (h := sealed_header psize pid local gid).
  change (payload_size h) with psize. change (global_id h) with gid.
  change (local_sequence h) with local. change (producer_id h) with pid.
  rewrite Z.eqb_refl, !(proj2 (Z.eqb_neq _ 0)) by lia. cbn [negb orb].
  assert (Hck : (checksum h =? mix h) = true) by (apply Z.eqb_eq, sealed_checksum).
  rewrite Hck. cbn [negb].
  rewrite E. cbn [mbind option_bind]. by rewrite bool_decide_true.
Qed.

(** Only the first [size] bytes of a payload matter. *)
Lemma header_of_bytes_take bs n : (32 <= n)%nat -> header_of_bytes (take n bs) = header_of_bytes bs.
Proof.
  intros Hn. unfold header_of_bytes.
  assert (Ht : forall i k, (i + k <= n)%nat -> take k (drop i (take n bs)) = take k (drop i bs)).
  { intros i k Hik. rewrite skipn_firstn_comm, take_take. f_equal. lia. }
  rewrite (Ht 8%nat 8%nat), (Ht 16%nat 4%nat), (Ht 20%nat 4%nat), (Ht 24%nat 8%nat), take_take by lia.
  by rewrite Nat.min_l by lia.
Qed.

Lemma readable_ext p1 p2 expected :
  size p1 = size p2 -> readable p1 = readable p2 -> payload_header_size <= size p1 ->
  read_header p1 = read_header p2 /\ valid_payload p1 expected = valid_payload p2 expected.
Proof.
  unfold payload_header_size. intros Es Er Hs.
  assert (Eh : read_header p1 = read_header p2).
  { unfold read_header, payload_header_size. rewrite Es, (proj2 (Z.leb_le _ _)) by lia.
    rewrite <- (header_of_bytes_take (bytes p1) (Z.to_nat (size p1))) by lia.
    rewrite <- (header_of_bytes_take (bytes p2) (Z.to_nat (size p2))) by lia.
    unfold readable in Er. by rewrite Er. }
  split; [done |]. unfold valid_payload. by rewrite Es, Eh, Er.
Qed.

(** A generated payload (32 to 256 bytes, nonzero identifiers) never writes
    outside its array, gives back the identifiers it was made from, and passes
    the validity check. *)
Theorem make_payload_valid psize pid local gid :
  payload_header_size <= psize <= max_payload_size -> 0 <= pid < u32_modulus ->
  0 < local < u64_modulus -> 0 < gid < u64_modulus ->
  exists p, make_payload psize pid local gid = Some p /\
    global_id (read_header p) = gid /\ local_sequence (read_header p) = local /\
    producer_id (read_header p) = pid /\ payload_size (read_header p) = psize /\
    valid_payload p psize = Some true.
Proof.
  intros Hs Hp Hl Hg. destruct (make_payload_spec psize pid local gid Hs Hp Hl Hg) as (p & E & Esz & _ & Eh).
  exists p. rewrite Eh. do 5 (split; [done |]). apply (sealed_payload_valid psize pid local gid);
    [lia | lia | lia | exact E | exact Esz | exact Eh].
Qed.

(** A payload that passes the check is, byte for byte, the one generated for
    the identifiers in its header: two valid payloads of one size with the same
    identifiers have the same bytes. *)
Theorem valid_payload_unique p1 p2 expected :
  valid_payload p1 expected = Some true -> valid_payload p2 expected = Some true ->
  global_id (read_header p1) = global_id (read_header p2) ->
  local_sequence (read_header p1) = local_sequence (read_header p2) ->
  producer_id (read_header p1) = producer_id (read_header p2) ->
  readable p1 = readable p2 /\ size p1 = expected /\ payload_size (read_header p1) = expected /\
  checksum (read_header p1) = mix (read_header p1).
Proof.
  assert (Hinv : forall p, valid_payload p expected = Some true ->
    size p = expected /\ payload_size (read_header p) = expected /\
    checksum (read_header p) = mix (read_header p) /\
    exists e, make_payload expected (producer_id (read_header p)) (local_sequence (read_header p))
      (global_id (read_header p)) = Some e /\ readable p = readable e).
  { intros p H. unfold valid_payload in H.
    destruct (Z.eqb_spec (size p) expected) as [-> |]; [| done]. simpl in H.
    destruct (expected <? payload_header_size); [done |].
    destruct (Z.eqb_spec (payload_size (read_header p)) expected); [| done]. simpl in H.
    destruct (global_id (read_header p) =? 0); [done |].
    destruct (local_sequence (read_header p) =? 0); [done |].
    destruct (Z.eqb_spec (checksum (read_header p)) (mix (read_header p))); [| done]. simpl in H.
    destruct (make_payload _ _ _ _) as [expd |]; [| done]. simpl in H. injection H as H.
    apply bool_decide_eq_true in H. eauto 10. }
  intros H1 H2 Eg El Ep. destruct (Hinv p1 H1) as (S1 & P1 & C1 & e1 & M1 & R1).
  destruct (Hinv p2 H2) as (_ & _ & _ & e2 & M2 & R2). rewrite Eg, El, Ep in M1. rewrite M1 in M2.
  injection M2 as ->. split; [congruence | auto].
Qed.

(** ** Witnesses *)

Lemma make_payload_valid_witness :
  exists p, make_payload 40 3 1 7 = Some p /\ valid_payload p 40 = Some true.
Proof.
  destruct (make_payload_valid 40 3 1 7) as (p & H & _ & _ & _ & _ & Hv);
    [by vm_compute | by vm_compute | by vm_compute | by vm_compute |].
  exact (ex_intro _ p (conj H Hv)).
Defined.

(** A payload and a copy of it read into a larger buffer. *)
Lemma valid_payload_unique_witness :
  match make_payload 40 3 1 7 with
  | Some p =>
      let p' := mkPayload (bytes p ++ [Byte.xff]) 40 in
      valid_payload p' 40 = Some true /\ readable p = readable p'
  | None => False
  end.
Proof.
  destruct (make_payload 40 3 1 7) as [p |] eqn:E; vm_compute in E; [| discriminate E].
  injection E as E. cbv zeta.
  assert (H : valid_payload (mkPayload (bytes p ++ [Byte.xff]) 40) 40 = Some true)
    by (rewrite <- E; vm_compute; reflexivity).
  split; [exact H |].
  apply (valid_payload_unique p (mkPayload (bytes p ++ [Byte.xff]) 40) 40);
    rewrite <- E; vm_compute; reflexivity.
Defined.
