(* ===== verification/CommandLine.v ===== *)
(** * Command lines

    What the two drivers share: a small error monad for code that throws or
    exits, [std::from_chars] on [std::uint64_t], the duplicated helper
    [parse_unsigned], and decimal printing.  Lemmas: the parser accepts exactly
    the digit strings below [2^64], and reads back what [operator<<] prints. *)

From stdpp Require Import pretty.
From Stdlib Require Import Ascii.
From S2P Require Import Prelude.

(** ** Throwing and exiting *)

Inductive outcome (A : Type) : Type :=
| Value (a : A)
| Throws (e : exn)
| ExitSuccess.
Arguments Value {_} _.
Arguments Throws {_} _.
Arguments ExitSuccess {_}.

#[export] Instance outcome_ret : MRet outcome := @Value.

#[export] Instance outcome_bind : MBind outcome := fun A B f m =>
  match m with
  | Value a => f a
  | Throws e => Throws e
  | ExitSuccess => ExitSuccess
  end.

(** [if (failed) throw std::invalid_argument(message);] *)
Definition throw_if (failed : bool) (message : string) : outcome unit :=
  if failed then Throws (invalid_argument message) else Value tt.

Lemma throw_if_value {A} failed message (k : outcome A) a :
  (throw_if failed message ≫= fun _ => k) = Value a <-> failed = false /\ k = Value a.
Proof. destruct failed; simpl; [split; [done | by intros []] | tauto]. Qed.

(** What [main] returns. *)
Inductive exit_status : Type := EXIT_SUCCESS | EXIT_FAILURE.

(** Strings compare equal. *)
Definition streq (s1 s2 : string) : bool := bool_decide (s1 = s2).

Lemma streq_eq s1 s2 : streq s1 s2 = true <-> s1 = s2.
Proof. apply bool_decide_eq_true. Qed.

Lemma streq_refl s : streq s s = true.
Proof. by apply streq_eq. Qed.

(** ** [std::from_chars] *)

Inductive errc : Type := no_error | invalid_argument_errc | result_out_of_range.

Definition digit_value (c : ascii) : option Z :=
  let n := Z.of_nat (nat_of_ascii c) in
  if (48 <=? n) && (n <=? 57) then Some (n - 48) else None.

(** The longest prefix of decimal digits. *)
Fixpoint digits (text : string) : list Z :=
  match text with
  | EmptyString => []
  | String c text => match digit_value c with Some d => d :: digits text | None => [] end
  end.

Definition decimal (ds : list Z) : Z := foldl (fun acc d => 10 * acc + d) 0 ds.

(** The value (zero on an error, as initialised by the caller), the position
    where parsing stopped, and the error. *)
Definition from_chars (text : string) : Z * nat * errc :=
  match digits text with
  | [] => (0, 0%nat, invalid_argument_errc)
  | ds => if u64_modulus <=? decimal ds then (0, length ds, result_out_of_range)
          else (decimal ds, length ds, no_error)
  end.

Definition parse_unsigned (option text : string) : outcome Z :=
  let '(value, position, error) := from_chars text in
  if match error with no_error => negb (position =? String.length text)%nat | _ => true end
  then Throws (invalid_argument (option +:+ " requires an unsigned integer"))
  else Value value.

(** [static_cast<std::uint32_t>] after the range check every 32-bit option makes. *)
Definition u32_max : Z := 2 ^ 32 - 1.

Definition parse_u32 (option text : string) : outcome Z :=
  parsed ← parse_unsigned option text;
  _ ← throw_if (u32_max <? parsed) (option +:+ " exceeds uint32 range");
  Value parsed.

(** ** What the parser accepts *)

Fixpoint all_digits (text : string) : bool :=
  match text with
  | EmptyString => true
  | String c text => match digit_value c with Some _ => all_digits text | None => false end
  end.

Lemma digits_length text : (length (digits text) =? String.length text)%nat = all_digits text.
Proof.
  induction text as [| c text IH]; simpl; [done |]. destruct (digit_value c); simpl; done.
Qed.

Lemma decimal_nonneg ds : Forall (fun d => 0 <= d) ds -> 0 <= decimal ds.
Proof.
  unfold decimal. assert (H : forall acc, 0 <= acc -> Forall (fun d => 0 <= d) ds ->
    0 <= foldl (fun acc d => 10 * acc + d) acc ds).
  { induction ds as [| d ds IH]; intros acc Ha Hd; simpl; [done |].
    inversion Hd; subst. apply IH; [lia | done]. }
  by apply H.
Qed.

Lemma digits_nonneg text : Forall (fun d => 0 <= d) (digits text).
Proof.
  induction text as [| c text IH]; simpl; [constructor |].
  destruct (digit_value c) as [d |] eqn:E; [| constructor]. constructor; [| done].
  unfold digit_value in E. destruct (_ && _) eqn:H; [| done]. simplify_eq. reflect_bools. lia.
Qed.

Lemma parse_unsigned_value option text v :
  parse_unsigned option text = Value v <->
  text <> "" /\ all_digits text = true /\ v = decimal (digits text) /\ v < u64_modulus.
Proof.
  unfold parse_unsigned, from_chars. pose proof (digits_length text) as Hl.
  destruct (digits text) as [| d ds] eqn:Ed.
  - split; [done |]. intros (Hne & Ha & _). exfalso. apply Hne. destruct text as [| c text]; [done |].
    simpl in Ha, Ed. by destruct (digit_value c).
  - destruct (Z.leb_spec u64_modulus (decimal (d :: ds))).
    + split; [done |]. intros (_ & _ & -> & Hv). lia.
    + rewrite Hl. destruct (all_digits text); simpl; [| split; [done | by intros (_ & [=] & _)]].
      split; [intros [= <-] | intros (_ & _ & -> & _); done].
      split; [by intros -> |]. done.
Qed.

Lemma parse_u32_value option text v :
  parse_u32 option text = Value v <-> parse_unsigned option text = Value v /\ v <= u32_max.
Proof.
  unfold parse_u32. destruct (parse_unsigned option text) as [p | e |]; simpl;
    [| by split; [| intros []] | by split; [| intros []]].
  destruct (Z.ltb_spec u32_max p); simpl.
  - split; [done |]. intros [[= ->] ?]. lia.
  - split; [intros [= ->]; done | by intros [[= ->] _]].
Qed.

(** ** Printing *)

(** [output << value] for an unsigned integer. *)
Definition print_unsigned (value : Z) : string := pretty (Z.to_N value).

Lemma digit_value_pretty x : (x < 10)%N -> digit_value (pretty_N_char x) = Some (Z.of_N x).
Proof.
  intros H. assert (x = 0 \/ x = 1 \/ x = 2 \/ x = 3 \/ x = 4 \/ x = 5 \/ x = 6 \/ x = 7 \/ x = 8 \/ x = 9)%N as Hx
    by lia. by repeat (destruct Hx as [-> | Hx]); subst.
Qed.

Lemma decimal_foldl ds : forall acc,
  foldl (fun acc d => 10 * acc + d) acc ds = acc * 10 ^ Z.of_nat (length ds) + decimal ds.
Proof.
  unfold decimal. induction ds as [| d ds IH]; intros acc; [simpl; lia |].
  cbn [foldl length]. rewrite IH, (IH (10 * 0 + d)), Nat2Z.inj_succ, Z.pow_succ_r by lia. lia.
Qed.

Lemma decimal_cons d ds : decimal (d :: ds) = d * 10 ^ Z.of_nat (length ds) + decimal ds.
Proof. unfold decimal at 1. cbn [foldl]. rewrite decimal_foldl. lia. Qed.

Lemma pretty_go_decimal x : forall s,
  all_digits s = true ->
  all_digits (pretty_N_go x s) = true /\
  decimal (digits (pretty_N_go x s)) =
    Z.of_N x * 10 ^ Z.of_nat (length (digits s)) + decimal (digits s).
Proof.
  induction (N.lt_wf_0 x) as [x _ IH]. intros s Hs.
  destruct (decide (0 < x)%N) as [Hx | Hx].
  - rewrite pretty_N_go_step by done.
    assert (Hd : digit_value (pretty_N_char (x `mod` 10)) = Some (Z.of_N (x `mod` 10)))
      by (apply digit_value_pretty, N.mod_lt; lia).
    destruct (IH (x `div` 10)%N (N.div_lt x 10 Hx eq_refl) (String (pretty_N_char (x `mod` 10)) s)) as [H1 H2].
    { simpl. by rewrite Hd. }
    split; [done |]. rewrite H2. cbn [digits]. rewrite Hd. cbn [length].
    rewrite decimal_cons, Nat2Z.inj_succ, Z.pow_succ_r by lia.
    pose proof (N.div_mod x 10 ltac:(lia)) as Hdm.
    assert (Z.of_N x = 10 * Z.of_N (x `div` 10) + Z.of_N (x `mod` 10)) by lia. nia.
  - assert (x = 0%N) as -> by lia. rewrite pretty_N_go_0. split; [done | lia].
Qed.

Lemma pretty_go_nonempty x s : s <> "" -> pretty_N_go x s <> "".
Proof.
  revert s. induction (N.lt_wf_0 x) as [x _ IH]. intros s Hs.
  destruct (decide (0 < x)%N) as [Hx | Hx].
  - rewrite pretty_N_go_step by done. apply IH; [by apply N.div_lt | done].
  - assert (x = 0%N) as -> by lia. by rewrite pretty_N_go_0.
Qed.

(** What is printed is read back. *)
Lemma parse_print_unsigned option v :
  0 <= v < u64_modulus -> parse_unsigned option (print_unsigned v) = Value v.
Proof.
  intros Hv. apply parse_unsigned_value. unfold print_unsigned, pretty, pretty_N.
  destruct (decide (Z.to_N v = 0%N)) as [E | E].
  - assert (v = 0) as -> by lia. done.
  - destruct (pretty_go_decimal (Z.to_N v) "" eq_refl) as [H1 H2].
    split; [| split; [done |]].
    + rewrite pretty_N_go_step by lia. by apply pretty_go_nonempty.
    + split; [| lia]. rewrite H2. change (decimal (digits "")) with 0. simpl length.
      rewrite Z2N.id by lia. simpl. lia.
Qed.

Lemma parse_print_u32 option v : 0 <= v <= u32_max -> parse_u32 option (print_unsigned v) = Value v.
Proof.
  intros Hv. apply parse_u32_value. split; [| lia]. apply parse_print_unsigned.
  split; [lia |]. eapply Z.le_lt_trans; [apply Hv | done].
Qed.

(** ** Ranges *)

Lemma parse_unsigned_range option text v :
  parse_unsigned option text = Value v -> 0 <= v < u64_modulus.
Proof.
  intros (_ & _ & -> & H)%parse_unsigned_value. split; [| done].
  apply decimal_nonneg, digits_nonneg.
Qed.

Lemma parse_u32_range option text v : parse_u32 option text = Value v -> 0 <= v <= u32_max.
Proof. intros [H%parse_unsigned_range Hv]%parse_u32_value. lia. Qed.

Lemma pow2_u32 cap :
  cap <= u32_max -> (cap <? 2) || negb (Z.land cap (cap - 1) =? 0) = false ->
  exists k, 1 <= k <= 31 /\ cap = 2 ^ k.
Proof.
  intros Hc H. apply orb_false_iff in H as [H1 H2]. apply Z.ltb_ge in H1.
  apply negb_false_iff, Z.eqb_eq in H2. exists (Z.log2 cap).
  apply pow2_of_land_pred in H2 as Hp; [| lia]. split; [| done]. split.
  - apply Z.log2_le_pow2; lia.
  - assert (Z.log2 cap < 32); [| lia]. apply Z.log2_lt_pow2; [lia |]. unfold u32_max in Hc. lia.
Qed.

Lemma u64_bound x y : 0 <= x <= y -> y < u64_modulus -> 0 <= x < u64_modulus.
Proof. lia. Qed.

Lemma u32_bound x y : 0 <= x <= y -> y <= u32_max -> 0 <= x <= u32_max.
Proof. lia. Qed.

(** ** Concatenation *)

Lemma str_app_cons ch s1 s2 : String ch s1 +:+ s2 = String ch (s1 +:+ s2).
Proof. done. Qed.

Lemma str_app_nil_l s : "" +:+ s = s.
Proof. done. Qed.

Lemma str_app_nil_r s : s +:+ "" = s.
Proof. induction s as [| ch s IH]; [done |]. rewrite ?str_app_cons. by rewrite IH. Qed.

Lemma str_app_assoc s1 s2 s3 : (s1 +:+ s2) +:+ s3 = s1 +:+ (s2 +:+ s3).
Proof. induction s1 as [| ch s1 IH]; [done |]. rewrite ?str_app_cons. by rewrite IH. Qed.

Lemma print_unsigned_digits v :
  0 <= v < u64_modulus -> all_digits (print_unsigned v) = true /\ print_unsigned v <> "".
Proof.
  intros Hv. destruct (proj1 (parse_unsigned_value "" _ v) (parse_print_unsigned "" v Hv)) as (H1 & H2 & _).
  done.
Qed.
