(* ===== verification/StressTester.v ===== *)
(** * The stress tester's configuration, payloads and verdicts ([stress/queue_stress.cpp])

    The command line with its cross-field checks, the payloads the producers
    generate and the consumers check, the failure recorder shared by all threads,
    and the exit status.  Theorems: an accepted configuration satisfies every
    bound the runs rely on, so that no queue constructor throws; every such
    configuration can be written on a command line; a payload passes the check
    exactly when it is the expected one, byte for byte; the first failure is the
    one reported.  The runs are in the files [StressSPSC], [StressMPMC],
    [StressBlocking], [StressClose] and [StressMulticast]; [main_exit] takes their
    verdicts. *)

From S2P Require Import Prelude Bytes CommandLine.
From S2P Require Import FixedMessage SPSCQueue MPMCQueue SPMCMulticastQueue VersionedSPMCQueue BlockingQueue.
From S2P Require Import BenchmarkMessage.

Definition max_payload_size : Z := 256.
Definition payload_header_size : Z := 32.

Record Config : Type := mkConfig {
  seed : Z;
  duration_ms : Z;
  iterations : Z;
  queue : string;
  producers : Z;
  consumers : Z;
  payload_size : Z;
  capacity : Z;
  verbose : bool;
}.

Definition default_config : Config :=
  mkConfig 0x4f52424954515545 250 10000 "all" 3 3 64 64 false.

(** ** Command line *)

(** The assignments of the option chain. *)
Definition set_option (c : Config) (option value : string) : outcome Config :=
  let '(mkConfig seed duration iterations queue producers consumers payload capacity verbose) := c in
  if streq option "--seed" then
    v ← parse_unsigned option value;
    Value (mkConfig v duration iterations queue producers consumers payload capacity verbose)
  else if streq option "--duration-ms" then
    v ← parse_unsigned option value;
    Value (mkConfig seed v iterations queue producers consumers payload capacity verbose)
  else if streq option "--iterations" then
    v ← parse_unsigned option value;
    Value (mkConfig seed duration v queue producers consumers payload capacity verbose)
  else if streq option "--queue" then
    Value (mkConfig seed duration iterations value producers consumers payload capacity verbose)
  else if streq option "--producers" then
    v ← parse_u32 option value;
    Value (mkConfig seed duration iterations queue v consumers payload capacity verbose)
  else if streq option "--consumers" then
    v ← parse_u32 option value;
    Value (mkConfig seed duration iterations queue producers v payload capacity verbose)
  else if streq option "--payload-size" then
    v ← parse_u32 option value;
    Value (mkConfig seed duration iterations queue producers consumers v capacity verbose)
  else if streq option "--capacity" then
    v ← parse_u32 option value;
    Value (mkConfig seed duration iterations queue producers consumers payload v verbose)
  else Throws (invalid_argument ("unknown option: " +:+ option)).

Definition set_verbose (c : Config) : Config :=
  mkConfig (seed c) (duration_ms c) (iterations c) (queue c) (producers c) (consumers c)
    (payload_size c) (capacity c) true.

(** The loop over [argv[1 ..]]. *)
Fixpoint parse_options (c : Config) (args : list string) : outcome Config :=
  match args with
  | [] => Value c
  | option :: rest =>
      if streq option "--verbose" then parse_options (set_verbose c) rest
      else if streq option "--help" then ExitSuccess
      else match rest with
           | [] => Throws (invalid_argument (option +:+ " requires a value"))
           | value :: rest => c' ← set_option c option value; parse_options c' rest
           end
  end.

Definition queues : list string := ["all"; "spsc"; "blocking"; "spmc"; "versioned_spmc"; "mpmc"].

Definition i64_max : Z := 2 ^ 63 - 1.

(** The checks after the loop, in order. *)
Definition check_config (c : Config) : outcome Config :=
  let chosen name := streq (queue c) name in
  _ ← throw_if (negb (existsb chosen queues))
        "--queue must be all, spsc, blocking, spmc, versioned_spmc, or mpmc";
  _ ← throw_if ((duration_ms c =? 0) || (i64_max <? duration_ms c))
        "--duration-ms must fit a positive int64";
  _ ← throw_if ((iterations c =? 0) || (10000000 <? iterations c))
        "--iterations must be between 1 and 10000000";
  _ ← throw_if ((producers c =? 0) || (64 <? producers c) || (consumers c =? 0) || (64 <? consumers c))
        "producer and consumer counts must be between 1 and 64";
  _ ← throw_if ((payload_size c <? payload_header_size) || (max_payload_size <? payload_size c))
        "payload size must be between 32 and 256 bytes";
  _ ← throw_if (capacity c =? 0) "capacity must be greater than zero";
  _ ← throw_if ((chosen "all" || chosen "mpmc") &&
                ((capacity c <? 2) || negb (Z.land (capacity c) (capacity c - 1) =? 0)))
        "MPMC stress capacity must be a power of two greater than one";
  _ ← throw_if (chosen "spsc" && (negb (producers c =? 1) || negb (consumers c =? 1)))
        "SPSC stress requires one producer and one consumer";
  _ ← throw_if ((chosen "spmc" || chosen "versioned_spmc") && negb (producers c =? 1))
        "SPMC stress requires one producer";
  _ ← throw_if ((u64_modulus - 1) / producers c <? iterations c)
        "producer count times iterations overflows uint64";
  Value c.

Definition parse_config (args : list string) : outcome Config :=
  c ← parse_options default_config args;
  check_config c.

Definition should_run (c : Config) (name : string) : bool :=
  streq (queue c) "all" || streq (queue c) name.

(** ** Payloads *)

Record PayloadHeader : Type := mkHeader {
  global_sequence : Z;
  local_sequence : Z;
  producer_id : Z;
  header_payload_size : Z;
  checksum : Z;
}.

(** The layout is that of the benchmark header. *)
Definition header_bytes (h : PayloadHeader) : list byte :=
  BenchmarkMessage.header_bytes
    (BenchmarkMessage.mkHeader (global_sequence h) (local_sequence h) (producer_id h)
       (header_payload_size h) (checksum h)).

Definition header_of_bytes (bs : list byte) : PayloadHeader :=
  let '(BenchmarkMessage.mkHeader g l p s c) := BenchmarkMessage.header_of_bytes bs in mkHeader g l p s c.

Definition mixed_seed (seed producer_id local_sequence : Z) : Z :=
  finalize_word (Z.lxor (Z.lxor seed (u64 (Z.shiftl producer_id 32))) local_sequence).

(** [None]: the header would not fit the vector. *)
Definition make_payload (c : Config) (producer_id local_sequence global_sequence : Z) : option (list byte) :=
  let payload := replicate (Z.to_nat (payload_size c)) Byte.x00 in
  let header := mkHeader global_sequence local_sequence producer_id (payload_size c)
                  (mixed_seed (seed c) producer_id local_sequence) in
  if span_size payload <? payload_header_size then None
  else
    fill_random (std_copy (header_bytes header) payload) (Z.to_nat payload_header_size)
      (length payload - Z.to_nat payload_header_size) (mt_seed (checksum header)).

Definition read_header (payload : list byte) : PayloadHeader :=
  if payload_header_size <=? span_size payload then header_of_bytes payload
  else mkHeader 0 0 0 0 0.

(** ** The failure recorder *)

Record Failure : Type := mkFailure {
  f_queue : string;
  f_seed : Z;
  f_operation : Z;
  f_expected_sequence : Z;
  f_observed_sequence : Z;
  f_expected_checksum : Z;
  f_observed_checksum : Z;
  f_reason : string;
}.

Definition FailureRecorder : Type := option Failure.

Definition record (r : FailureRecorder) (failure : Failure) : FailureRecorder :=
  match r with None => Some failure | Some _ => r end.

Definition failed (r : FailureRecorder) : bool :=
  match r with None => false | Some _ => true end.

(** What [print] writes to [std::cerr]. *)
Definition print (r : FailureRecorder) : string :=
  match r with
  | None => ""
  | Some f =>
      "stress_failure queue=" +:+ f_queue f +:+
      " seed=" +:+ print_unsigned (f_seed f) +:+
      " operation=" +:+ print_unsigned (f_operation f) +:+
      " expected_sequence=" +:+ print_unsigned (f_expected_sequence f) +:+
      " observed_sequence=" +:+ print_unsigned (f_observed_sequence f) +:+
      " expected_checksum=" +:+ print_unsigned (f_expected_checksum f) +:+
      " observed_checksum=" +:+ print_unsigned (f_observed_checksum f) +:+
      " reason=" +:+ String (Ascii.ascii_of_nat 34) (f_reason f) +:+
      String (Ascii.ascii_of_nat 34) (String (Ascii.ascii_of_nat 10) "")
  end.

Definition validate_payload (name : string) (c : Config) (payload : list byte)
    (expected_producer expected_local expected_global operation : Z) (failures : FailureRecorder)
    : option (bool * FailureRecorder) :=
  let observed := read_header payload in
  expected ← make_payload c expected_producer expected_local expected_global;
  let expected_header := read_header expected in
  Some (if negb (span_size payload =? span_size expected) || negb (bool_decide (payload = expected))
        then (false,
              record failures
                (mkFailure name (seed c) operation expected_global (global_sequence observed)
                   (checksum expected_header) (checksum observed)
                   "payload sequence/checksum/pattern mismatch"))
        else (true, failures)).

(** ** The exit status *)

(** [main] after parsing: [run name failures] is the verdict of the run of one
    queue and what it leaves in the recorder. *)
Section main.

Context (run : string -> FailureRecorder -> bool * FailureRecorder).

Definition run_selected (c : Config) (name : string) (st : bool * FailureRecorder) : bool * FailureRecorder :=
  if should_run c name then
    let '(result, failures) := run name st.2 in (result && st.1, failures)
  else st.

Definition main_exit (args : list string) : exit_status :=
  match parse_config args with
  | ExitSuccess => EXIT_SUCCESS
  | Throws _ => EXIT_FAILURE
  | Value c =>
      let st := foldl (fun st name => run_selected c name st) (true, None)
                  ["spsc"; "blocking"; "spmc"; "versioned_spmc"; "mpmc"] in
      if st.1 && negb (failed st.2) then EXIT_SUCCESS else EXIT_FAILURE
  end.

End main.

(** ** Accepted configurations *)

(** What every run relies on. *)
Record config_ok (c : Config) : Prop := {
  co_seed : 0 <= seed c < u64_modulus;
  co_queue : queue c ∈ queues;
  co_duration : 1 <= duration_ms c <= i64_max;
  co_iterations : 1 <= iterations c <= 10000000;
  co_producers : 1 <= producers c <= 64;
  co_consumers : 1 <= consumers c <= 64;
  co_payload : payload_header_size <= payload_size c <= max_payload_size;
  co_capacity : 1 <= capacity c <= u32_max;
  co_mpmc : should_run c "mpmc" = true -> exists k, 1 <= k <= 31 /\ capacity c = 2 ^ k;
  co_spsc : queue c = "spsc" -> producers c = 1 /\ consumers c = 1;
  co_spmc : queue c = "spmc" \/ queue c = "versioned_spmc" -> producers c = 1;
}.

(** The fields the option parser can produce. *)
Record config_typed (c : Config) : Prop := {
  ct_seed : 0 <= seed c < u64_modulus;
  ct_duration : 0 <= duration_ms c;
  ct_iterations : 0 <= iterations c;
  ct_producers : 0 <= producers c;
  ct_consumers : 0 <= consumers c;
  ct_payload : 0 <= payload_size c;
  ct_capacity : 0 <= capacity c <= u32_max;
}.

Lemma set_option_typed c option value c' :
  config_typed c -> set_option c option value = Value c' -> config_typed c'.
Proof.
  intros [H1 H2 H3 H4 H5 H6 H7] H. destruct c as [sd du it qu pr co pa ca ve]. simpl in *.
  unfold set_option in H.
  repeat match type of H with
  | (if ?b then _ else _) = _ => destruct b
  | (parse_unsigned ?o ?t ≫= _) = _ =>
      destruct (parse_unsigned o t) as [v | |] eqn:E; try done; apply parse_unsigned_range in E
  | (parse_u32 ?o ?t ≫= _) = _ =>
      destruct (parse_u32 o t) as [v | |] eqn:E; try done; apply parse_u32_range in E
  end; try done; injection H as <-; split; simpl; lia.
Qed.

Lemma parse_options_typed n : forall c args c',
  (length args <= n)%nat -> config_typed c -> parse_options c args = Value c' -> config_typed c'.
Proof.
  induction n as [| n IH]; intros c [| option rest] c' Hn Hc H; simpl in *; try (by simplify_eq); [lia |].
  destruct (streq option "--verbose").
  { eapply (IH (set_verbose c) rest); [lia | | exact H]. by destruct Hc; split. }
  destruct (streq option "--help"); [done |]. destruct rest as [| value rest]; [done |].
  destruct (set_option c option value) as [c1 | |] eqn:E; try done.
  eapply (IH c1 rest); [simpl in Hn; lia | by eapply set_option_typed | exact H].
Qed.

Lemma default_typed : config_typed default_config.
Proof. split; simpl; try lia; by vm_compute. Qed.

Lemma check_config_value c c' :
  check_config c = Value c' ->
  c' = c /\ (config_typed c -> config_ok c).
Proof.
  unfold check_config. rewrite !throw_if_value.
  intros (Q & D & I & PC & P & C & M & S & V & O & [= <-]). split; [done |].
  intros [T1 T2 T3 T4 T5 T6 T7].
  apply negb_false_iff, existsb_exists in Q as (name & Hin & Hq). apply streq_eq in Hq.
  reflect_bools. split; try lia; try done.
  - rewrite Hq. by apply list_elem_of_In.
  - unfold should_run. intros Hr. rewrite Hr, andb_true_l in M. apply pow2_u32; [lia | exact M].
  - intros Hs. rewrite (proj2 (streq_eq _ _) Hs) in S. simpl in S. reflect_bools. lia.
  - intros Hs. assert (E : streq (queue c) "spmc" || streq (queue c) "versioned_spmc" = true).
    { apply orb_true_iff. rewrite !streq_eq. done. }
    rewrite E in V. simpl in V. reflect_bools. lia.
Qed.

Lemma parse_config_ok args c : parse_config args = Value c -> config_ok c.
Proof.
  unfold parse_config. intros H. destruct (parse_options default_config args) as [c0 | |] eqn:E; try done.
  simpl in H. apply check_config_value in H as [-> Hok]. apply Hok.
  eapply parse_options_typed; [reflexivity | apply default_typed | exact E].
Qed.

(** ** Command lines for configurations *)

Definition args_of (c : Config) : list string :=
  ["--seed"; print_unsigned (seed c); "--duration-ms"; print_unsigned (duration_ms c);
   "--iterations"; print_unsigned (iterations c); "--queue"; queue c;
   "--producers"; print_unsigned (producers c); "--consumers"; print_unsigned (consumers c);
   "--payload-size"; print_unsigned (payload_size c); "--capacity"; print_unsigned (capacity c)] ++
  (if verbose c then ["--verbose"] else []).

Lemma parse_options_step c option value rest c1 :
  streq option "--verbose" = false -> streq option "--help" = false ->
  set_option c option value = Value c1 ->
  parse_options c (option :: value :: rest) = parse_options c1 rest.
Proof. intros E1 E2 E3. simpl. by rewrite E1, E2, E3. Qed.

(** The values a valid configuration prints are read back. *)
Lemma set_unsigned option v (f : Z -> Config) :
  0 <= v < u64_modulus ->
  (x ← parse_unsigned option (print_unsigned v); Value (f x)) = Value (f v).
Proof. intros H. by rewrite parse_print_unsigned. Qed.

Lemma set_u32 option v (f : Z -> Config) :
  0 <= v <= u32_max ->
  (x ← parse_u32 option (print_unsigned v); Value (f x)) = Value (f v).
Proof. intros H. by rewrite parse_print_u32. Qed.

Lemma parse_args_of c : config_ok c -> parse_options default_config (args_of c) = Value c.
Proof.
  intros [H1 _ H3 H4 H5 H6 H7 H8 _ _ _]. destruct c as [sd du it qu pr co pa ca ve].
  cbn [seed duration_ms iterations producers consumers payload_size capacity] in H1, H3, H4, H5, H6, H7, H8.
  unfold args_of, default_config. cbn [seed duration_ms iterations queue producers consumers payload_size capacity verbose app].
  unfold payload_header_size, max_payload_size in *.
  erewrite (parse_options_step _ "--seed"); [| reflexivity | reflexivity | exact (set_unsigned _ sd _ H1)].
  erewrite (parse_options_step _ "--duration-ms"); [| reflexivity | reflexivity
    | apply (set_unsigned _ du), (u64_bound _ i64_max); [lia | by vm_compute]].
  erewrite (parse_options_step _ "--iterations"); [| reflexivity | reflexivity
    | apply (set_unsigned _ it), (u64_bound _ 10000000); [lia | by vm_compute]].
  erewrite (parse_options_step _ "--queue"); [| reflexivity | reflexivity | reflexivity].
  erewrite (parse_options_step _ "--producers"); [| reflexivity | reflexivity
    | apply (set_u32 _ pr), (u32_bound _ 64); [lia | by vm_compute]].
  erewrite (parse_options_step _ "--consumers"); [| reflexivity | reflexivity
    | apply (set_u32 _ co), (u32_bound _ 64); [lia | by vm_compute]].
  erewrite (parse_options_step _ "--payload-size"); [| reflexivity | reflexivity
    | apply (set_u32 _ pa), (u32_bound _ 256); [lia | by vm_compute]].
  erewrite (parse_options_step _ "--capacity"); [| reflexivity | reflexivity
    | apply (set_u32 _ ca), (u32_bound _ u32_max); [lia | done]].
  by destruct ve.
Qed.

Lemma check_config_ok c : config_ok c -> check_config c = Value c.
Proof.
  intros [H1 H2 H3 H4 H5 H6 H7 H8 H9 H10 H11]. unfold check_config. rewrite !throw_if_value.
  assert (Hlt : forall x y, y <= x -> (x <? y) = false) by (intros; by apply Z.ltb_ge).
  assert (Hne : forall x y, x <> y -> (x =? y) = false) by (intros; by apply Z.eqb_neq).
  repeat split.
  - apply negb_false_iff, existsb_exists. exists (queue c). split; [by apply list_elem_of_In | apply streq_refl].
  - rewrite Hne, Hlt by lia. done.
  - rewrite Hne, Hlt by lia. done.
  - rewrite !Hne, !Hlt by lia. done.
  - rewrite !Hlt by lia. done.
  - rewrite Hne by lia. done.
  - unfold should_run in H9. destruct (streq (queue c) "all" || streq (queue c) "mpmc"); [| done].
    destruct (H9 eq_refl) as (k & Hk & ->). simpl. rewrite land_pred_pow2 by lia.
    assert (2 ^ 1 <= 2 ^ k) by (apply Z.pow_le_mono_r; lia). rewrite Hlt by lia. done.
  - destruct (streq (queue c) "spsc") eqn:E; [| done]. apply streq_eq in E.
    destruct (H10 E) as [-> ->]. done.
  - destruct (streq (queue c) "spmc" || streq (queue c) "versioned_spmc") eqn:E; [| done].
    rewrite H11; [done |]. apply orb_true_iff in E as [E | E]; apply streq_eq in E; auto.
  - apply Hlt. apply Z.le_trans with ((u64_modulus - 1) / 64); [| apply Z.div_le_compat_l; [vm_compute; discriminate | lia]].
    apply Z.le_trans with 10000000; [lia | by vm_compute].
Qed.

(** ** Theorems *)

(** C27: The stress tester's command line: whatever the arguments, an accepted
    configuration satisfies every bound of [config_ok]; and every configuration
    that satisfies them is accepted when it is written out as arguments. *)
Theorem stress_config_spec :
  (forall args c, parse_config args = Value c -> config_ok c) /\
  (forall c, config_ok c -> parse_config (args_of c) = Value c).
Proof.
  split; [exact parse_config_ok |]. intros c Hc. unfold parse_config.
  rewrite (parse_args_of c Hc). by apply check_config_ok.
Qed.

(** C28: No queue constructor throws for an accepted configuration: the capacity
    check of the command line implies the check of every queue that the
    configuration selects, the power-of-two test of [MPMCQueue] included, and
    the products of iterations and producers fit 64 bits. *)
Theorem stress_constructors_succeed args c :
  parse_config args = Value c ->
  (exists q, SPSCQueue_new max_payload_size (capacity c) = returns q) /\
  (exists q, SPMCMulticastQueue_new max_payload_size (capacity c) = returns q) /\
  (exists q, VersionedSPMCQueue_new max_payload_size (capacity c) = returns q) /\
  (exists q, BlockingQueue_new (T := list byte) (capacity c) = returns q) /\
  (should_run c "mpmc" = true -> exists q, MPMCQueue_new max_payload_size (capacity c) = returns q) /\
  producers c * iterations c < u64_modulus.
Proof.
  intros [_ _ _ Hi Hp _ _ Hcap Hm _ _]%parse_config_ok.
  assert (Hz : (capacity c =? 0) = false) by (apply Z.eqb_neq; lia).
  unfold SPSCQueue_new, SPMCMulticastQueue_new, VersionedSPMCQueue_new, VersionedSPMCQueue.validate_capacity,
    BlockingQueue_new. rewrite Hz. unfold returns.
  do 4 (split; [eauto |]). split.
  - intros Hr. destruct (Hm Hr) as (k & Hk & E). unfold MPMCQueue_new.
    assert (Hv : MPMCQueue.validate_capacity (capacity c) = returns (capacity c)).
    { apply validate_capacity_iff; [| exists k; split; [lia | done]].
      split; [lia |]. eapply Z.le_lt_trans; [apply Hcap | by vm_compute]. }
    rewrite Hv. unfold returns. eauto.
  - assert (producers c * iterations c <= 64 * 10000000) by nia.
    eapply Z.le_lt_trans; [eassumption | by vm_compute].
Qed.

(** The generator never writes outside the vector for an accepted size. *)
Lemma make_payload_defined c pid local global :
  payload_header_size <= payload_size c ->
  exists bs, make_payload c pid local global = Some bs /\ span_size bs = payload_size c /\
    take 32 bs = header_bytes (mkHeader global local pid (payload_size c) (mixed_seed (seed c) pid local)).
Proof.
  unfold payload_header_size. intros Hs. unfold make_payload, span_size. rewrite length_replicate.
  rewrite (proj2 (Z.ltb_ge _ _)) by (unfold payload_header_size; lia).
  set (h := mkHeader global local pid (payload_size c) (mixed_seed (seed c) pid local)).
  assert (Hh : length (header_bytes h) = 32%nat) by apply header_bytes_length.
  assert (Hl : length (std_copy (header_bytes h) (replicate (Z.to_nat (payload_size c)) Byte.x00))
    = Z.to_nat (payload_size c)).
  { rewrite std_copy_length; [by rewrite length_replicate |]. rewrite Hh, length_replicate. lia. }
  destruct (fill_random_spec (Z.to_nat (payload_size c) - Z.to_nat payload_header_size)
    (std_copy (header_bytes h) (replicate (Z.to_nat (payload_size c)) Byte.x00))
    (Z.to_nat payload_header_size) (mt_seed (checksum h))) as (bs & E & Hbs & Ht).
  { rewrite Hl. unfold payload_header_size. lia. }
  exists bs. split; [exact E |]. split; [lia |].
  change 32%nat with (Z.to_nat payload_header_size). rewrite Ht.
  change (Z.to_nat payload_header_size) with 32%nat. rewrite <- Hh. apply std_copy_prefix.
Qed.

(** The expected payload passes the check. *)
Lemma validate_payload_match name c payload pid local global operation failures :
  make_payload c pid local global = Some payload ->
  validate_payload name c payload pid local global operation failures = Some (true, failures).
Proof.
  intros E. unfold validate_payload. rewrite E. cbn [mbind option_bind].
  by rewrite Z.eqb_refl, bool_decide_true.
Qed.

(** What the threads of an accepted configuration exchange: the payload of a
    message, and the zeroed vector it is read into. *)
Section expected.

Context (c : Config).
Hypothesis Hc : config_ok c.

Definition expected_payload (pid local global : Z) : list byte := default [] (make_payload c pid local global).

Definition read_buffer : list byte := replicate (Z.to_nat (payload_size c)) Byte.x00.

Lemma expected_payload_made pid local global :
  make_payload c pid local global = Some (expected_payload pid local global) /\
  span_size (expected_payload pid local global) = payload_size c.
Proof using Hc.
  destruct (make_payload_defined c pid local global) as (bs & E & Hb & _); [apply (co_payload c Hc) |].
  unfold expected_payload. by rewrite E.
Qed.

Lemma read_buffer_size : span_size read_buffer = payload_size c.
Proof using Hc.
  pose proof (co_payload c Hc) as H. unfold payload_header_size in H.
  unfold span_size, read_buffer. rewrite length_replicate. lia.
Qed.

Lemma copy_to_read_buffer pid local global :
  std_copy (expected_payload pid local global) read_buffer = expected_payload pid local global.
Proof using Hc.
  pose proof (proj2 (expected_payload_made pid local global)) as H1. pose proof read_buffer_size as H2.
  unfold span_size in *. unfold std_copy. rewrite drop_ge by lia. apply app_nil_r.
Qed.

Lemma expected_payload_valid name pid local global operation failures :
  validate_payload name c (expected_payload pid local global) pid local global operation failures =
  Some (true, failures).
Proof using Hc. apply validate_payload_match, expected_payload_made. Qed.

(** A consumer reads back what the producer wrote in the header. *)
Lemma expected_payload_header pid local global :
  0 <= pid < u32_modulus -> 0 <= local < u64_modulus -> 0 <= global < u64_modulus ->
  read_header (expected_payload pid local global) =
  mkHeader global local pid (payload_size c) (mixed_seed (seed c) pid local).
Proof using Hc.
  intros Hp Hl Hg. pose proof (co_payload c Hc) as Hps.
  destruct (make_payload_defined c pid local global) as (bs & E & Hb & Ht); [lia |].
  unfold expected_payload. rewrite E. change (default [] (Some bs)) with bs. unfold read_header. rewrite Hb, (proj2 (Z.leb_le _ _)) by lia.
  unfold header_of_bytes. rewrite <- (header_of_bytes_take bs 32) by lia. rewrite Ht.
  unfold header_bytes. rewrite <- (app_nil_r (BenchmarkMessage.header_bytes _)), header_roundtrip; [done |].
  unfold payload_header_size, max_payload_size in Hps.
  split; cbn; try done.
  - unfold u32_modulus. lia.
  - apply finalize_word_range. repeat apply lxor_range; try done; [apply (co_seed c Hc) | apply u64_range].
Qed.

End expected.

(** A received payload passes the check exactly when it is the expected one
    byte for byte; the check never fails to run; a mismatch is recorded unless an
    earlier failure already was, and a match leaves the recorder alone. *)
Theorem validate_payload_exact name args c payload pid local global operation failures :
  parse_config args = Value c ->
  exists expected, make_payload c pid local global = Some expected /\
    (payload = expected ->
       validate_payload name c payload pid local global operation failures = Some (true, failures)) /\
    (payload <> expected ->
       exists f, validate_payload name c payload pid local global operation failures =
         Some (false, record failures f) /\
       f_queue f = name /\ f_operation f = operation /\ f_expected_sequence f = global /\
       f_observed_sequence f = global_sequence (read_header payload)).
Proof.
  intros Hc%parse_config_ok. pose proof (co_payload _ Hc) as Hp.
  destruct (make_payload_defined c pid local global) as (expected & E & _); [lia |].
  exists expected. split; [done |]. split; intros Heq; [subst payload; by apply validate_payload_match |].
  - unfold validate_payload. rewrite E. cbn [mbind option_bind]. rewrite (bool_decide_false (payload = expected)) by done. rewrite orb_true_r. eauto 10.
Qed.

(** The report is the first failure recorded. *)
Lemma record_first fs : forall r,
  foldl record r fs = match r with Some _ => r | None => head fs end.
Proof.
  induction fs as [| f fs IH]; intros r; simpl; [by destruct r |]. rewrite IH. by destruct r.
Qed.

(** Runs never clear a recorded failure. *)
Definition keeps_failures (run : string -> FailureRecorder -> bool * FailureRecorder) : Prop :=
  forall name failures, failed failures = true -> failed (run name failures).2 = true.

Lemma verdicts_spec run c names :
  keeps_failures run ->
  let verdicts st := foldl (fun st name => run_selected run c name st) st names in
  (forall st, (verdicts st).1 = true /\ failed (verdicts st).2 = false -> st = (true, None)) /\
  ((verdicts (true, None)).1 = true /\ failed (verdicts (true, None)).2 = false <->
   forall name, name ∈ names -> should_run c name = true -> run name None = (true, None)).
Proof.
  intros Hk. induction names as [| name names [IH1 IH2]]; simpl.
  { split.
    - by intros [[] []] [H1 H2].
    - split; [| done]. intros _ name Hin. by apply not_elem_of_nil in Hin. }
  assert (Hone : forall st, run_selected run c name st = (true, None) ->
    st = (true, None) /\ (should_run c name = true -> run name None = (true, None))).
  { intros [b r] Hs. unfold run_selected in Hs. destruct (should_run c name) eqn:Hsel; [| done].
    simpl in Hs. pose proof (Hk name r) as Hkr. destruct (run name r) as [b1 r1] eqn:Er.
    injection Hs as Hb ->. apply andb_true_iff in Hb as [-> ->].
    destruct r as [f |]; [by specialize (Hkr eq_refl) |]. done. }
  split.
  - intros st Hst. apply IH1, Hone in Hst. tauto.
  - split.
    + intros Hst. pose proof (IH1 _ Hst) as E. rewrite E in Hst. apply Hone in E as [_ Hrun].
      intros nm [-> | Hin]%elem_of_cons; [done |]. by apply IH2.
    + intros Hall. assert (E : run_selected run c name (true, None) = (true, None)).
      { unfold run_selected. destruct (should_run c name) eqn:Hsel; [| done].
        simpl. by rewrite (Hall name ltac:(by left) Hsel). }
      rewrite E. apply IH2. intros nm Hin. apply Hall. by right.
Qed.

(** The exit status: with an accepted command line the tester exits with
    success exactly when every selected run, started with an empty recorder,
    returns [true] and leaves it empty. *)
Theorem stress_exit_status run args c :
  keeps_failures run -> parse_config args = Value c ->
  (main_exit run args = EXIT_SUCCESS <->
   forall name, name ∈ ["spsc"; "blocking"; "spmc"; "versioned_spmc"; "mpmc"] ->
     should_run c name = true -> run name None = (true, None)).
Proof.
  intros Hk Hc. unfold main_exit. rewrite Hc.
  rewrite <- (proj2 (verdicts_spec run c ["spsc"; "blocking"; "spmc"; "versioned_spmc"; "mpmc"] Hk)).
  destruct (foldl _ _ _) as [b r]. cbn [fst snd]. destruct b, (failed r); simpl; split; try done; by intros [].
Qed.

(** ** Witnesses *)

Definition sample_args : list string := ["--queue"; "mpmc"; "--capacity"; "8"; "--payload-size"; "40"; "--verbose"].

Definition sample_config : Config := mkConfig 0x4f52424954515545 250 10000 "mpmc" 3 3 40 8 true.

Lemma stress_constructors_succeed_witness :
  exists q, MPMCQueue_new max_payload_size 8 = returns q.
Proof.
  apply (stress_constructors_succeed sample_args sample_config); vm_compute; reflexivity.
Defined.

Lemma validate_payload_exact_witness :
  exists expected, make_payload sample_config 1 2 3 = Some expected /\
    validate_payload "mpmc" sample_config expected 1 2 3 0 None = Some (true, None).
Proof.
  destruct (validate_payload_exact "mpmc" sample_args sample_config
    (default [] (make_payload sample_config 1 2 3)) 1 2 3 0 None) as (e & H1 & H2 & _);
    [vm_compute; reflexivity |].
  exists e. split; [exact H1 |]. rewrite H1 in H2. exact (H2 eq_refl).
Defined.

Lemma stress_exit_status_witness :
  main_exit (fun _ r => (true, r)) sample_args = EXIT_SUCCESS.
Proof.
  apply (stress_exit_status (fun _ r => (true, r)) sample_args sample_config); [| vm_compute; reflexivity |].
  - intros name failures H. exact H.
  - intros name _ _. reflexivity.
Defined.
