(* ===== verification/BenchmarkDriver.v ===== *)
(** * The benchmark driver ([benchmarks/queue_benchmark.cpp])

    The command line, the list of scenarios it selects, and the accounting that
    decides whether a run was correct.  The macros that say which third-party
    baselines were found at build time are parameters ([baselines]).  Theorems:
    accepted configurations and the scenarios made from them are within the
    bounds the queues need; consumer lists are read back; and a run without
    validation errors delivered every published message exactly once.  The
    threads of the runs are in [SPSCBenchmark], [BenchmarkWork] and
    [BenchmarkMulticast], the rest of [make_result] and the report in
    [BenchmarkReport]; clocks are not modelled. *)

From Stdlib Require Import Ascii.
From stdpp Require Import gmap fin_sets sorting.
From S2P Require Import Prelude Bytes CommandLine SequenceTracker MPMCQueue BenchmarkMessage.

Definition default_capacity : Z := 1024.
Definition default_consumer_matrix : list Z := [1; 3; 10].

Record Config : Type := mkConfig {
  duration_ms : Z;
  warmup_ms : Z;
  trials : Z;
  capacity : Z;
  payload_size : Z;
  producers : Z;
  consumers : list Z;
  queue : string;
  custom_producers : bool;
  custom_consumers : bool;
}.

Definition default_config : Config :=
  mkConfig 250 50 3 default_capacity 64 1 default_consumer_matrix "all" false false.

(** ** [std::sort] and [std::unique] on integers *)

Definition sort_values (values : list Z) : list Z := merge_sort Z.le values.

(** Keep the first of each run of equal values. *)
Fixpoint unique (values : list Z) : list Z :=
  match values with
  | [] => []
  | x :: rest =>
      match rest with
      | y :: _ => if x =? y then unique rest else x :: unique rest
      | [] => [x]
      end
  end.

(** ** Consumer lists *)

Definition parse_count (segment : string) : outcome Z :=
  parsed ← parse_unsigned "--consumers" segment;
  _ ← throw_if ((parsed =? 0) || (64 <? parsed)) "consumer counts must be between 1 and 64";
  Value parsed.

(** The [while] loop over the text, character by character: [segment] is the text
    since the last comma.  A trailing comma ends the loop. *)
Fixpoint parse_list (text segment : string) (values : list Z) : outcome (list Z) :=
  match text with
  | EmptyString => v ← parse_count segment; Value (values ++ [v])
  | String c rest =>
      if Ascii.eqb c ","%char then
        v ← parse_count segment;
        match rest with
        | EmptyString => Value (values ++ [v])
        | _ => parse_list rest "" (values ++ [v])
        end
      else parse_list rest (segment +:+ String c "") values
  end.

Definition parse_consumers (text : string) : outcome (list Z) :=
  if streq text "default" || streq text "legacy" then Value default_consumer_matrix
  else if streq text "single" then Value [1]
  else
    values ← match text with EmptyString => Value [] | _ => parse_list text "" [] end;
    _ ← throw_if (bool_decide (values = [])) "--consumers requires a list or preset";
    Value (unique (sort_values values)).

(** ** Command line *)

Definition set_option (c : Config) (option value : string) : outcome Config :=
  let '(mkConfig du wa tr ca pa pr co qu cp cc) := c in
  if streq option "--duration-ms" then
    v ← parse_unsigned option value; Value (mkConfig v wa tr ca pa pr co qu cp cc)
  else if streq option "--warmup-ms" then
    v ← parse_unsigned option value; Value (mkConfig du v tr ca pa pr co qu cp cc)
  else if streq option "--trials" then
    v ← parse_u32 option value; Value (mkConfig du wa v ca pa pr co qu cp cc)
  else if streq option "--capacity" then
    v ← parse_u32 option value; Value (mkConfig du wa tr v pa pr co qu cp cc)
  else if streq option "--payload-size" then
    v ← parse_u32 option value; Value (mkConfig du wa tr ca v pr co qu cp cc)
  else if streq option "--producers" then
    v ← parse_u32 option value; Value (mkConfig du wa tr ca pa v co qu true cc)
  else if streq option "--consumers" then
    v ← parse_consumers value; Value (mkConfig du wa tr ca pa pr v qu cp true)
  else if streq option "--queue" then
    Value (mkConfig du wa tr ca pa pr co value cp cc)
  else Throws (invalid_argument ("unknown option: " +:+ option)).

Fixpoint parse_options (c : Config) (args : list string) : outcome Config :=
  match args with
  | [] => Value c
  | option :: rest =>
      if streq option "--help" then ExitSuccess
      else match rest with
           | [] => Throws (invalid_argument (option +:+ " requires a value"))
           | value :: rest => c' ← set_option c option value; parse_options c' rest
           end
  end.

Definition queues : list string :=
  ["all"; "spsc"; "blocking"; "spmc"; "versioned_spmc"; "mpmc"; "boost"; "boost_spsc"; "boost_mpmc";
   "moodycamel_mpmc"; "rigtorp_spsc"; "atomic_queue_mpmc"].

(** The selections that run a queue with a power-of-two ring. *)
Definition power_of_two_queues : list string :=
  ["all"; "mpmc"; "boost"; "boost_mpmc"; "moodycamel_mpmc"; "atomic_queue_mpmc"].

Definition i64_max : Z := 2 ^ 63 - 1.

Definition check_config (c : Config) : outcome Config :=
  let chosen name := streq (queue c) name in
  _ ← throw_if (negb (existsb chosen queues)) "invalid --queue value";
  _ ← throw_if ((duration_ms c =? 0) || (i64_max <? duration_ms c))
        "--duration-ms must fit a positive int64";
  _ ← throw_if (i64_max <? warmup_ms c) "--warmup-ms must fit int64";
  _ ← throw_if ((trials c =? 0) || (1000 <? trials c)) "--trials must be between 1 and 1000";
  _ ← throw_if ((capacity c =? 0) || (1000000 <? capacity c)) "--capacity must be between 1 and 1000000";
  _ ← throw_if (existsb chosen power_of_two_queues &&
                ((capacity c <? 2) || negb (Z.land (capacity c) (capacity c - 1) =? 0)))
        "MPMC benchmark capacity must be a power of two greater than one";
  _ ← throw_if ((payload_size c <? payload_header_size) || (max_payload_size <? payload_size c))
        "--payload-size must be between 32 and 256";
  _ ← throw_if ((producers c =? 0) || (64 <? producers c)) "--producers must be between 1 and 64";
  Value c.

Definition parse_config (args : list string) : outcome Config :=
  c ← parse_options default_config args;
  check_config c.

(** ** Scenarios *)

Inductive ScenarioKind : Type :=
| line64_spsc | boost_spsc | rigtorp_spsc | line64_blocking | spmc | versioned_spmc
| line64_mpmc | boost_mpmc | moodycamel_mpmc | atomic_queue_mpmc.

#[export] Instance ScenarioKind_eq_dec : EqDecision ScenarioKind.
Proof. solve_decision. Defined.

Record Scenario : Type := mkScenario {
  kind : ScenarioKind;
  s_name : string;
  benchmark_group : string;
  delivery_semantics : string;
  s_producers : Z;
  s_consumers : Z;
  notes : string;
}.

(** [ORBITQUEUE_HAVE_*]: which baselines the build found. *)
Record baselines : Type := mkBaselines {
  have_boost_spsc : bool;
  have_rigtorp_spsc : bool;
  have_boost_queue : bool;
  have_moodycamel : bool;
  have_atomic_queue : bool;
}.

Definition mpmc_matrix : list (Z * Z) := [(1, 1); (2, 2); (4, 4); (8, 8)].

Section scenarios.

Context (have : baselines) (c : Config).

Definition selected (name : string) : bool := streq (queue c) "all" || streq (queue c) name.

Definition selected_any (names : list string) : bool := existsb selected names.

(** What [add_mpmc_scenarios] appends. *)
Definition mpmc_scenarios (k : ScenarioKind) (name note : string) : list Scenario :=
  if negb (custom_producers c) && negb (custom_consumers c)
  then (fun x => mkScenario k name "mpmc_work_sharing" "exclusive_pop" x.1 x.2 note) <$> mpmc_matrix
  else (fun consumers => mkScenario k name "mpmc_work_sharing" "exclusive_pop" (producers c) consumers note)
         <$> consumers c.

Definition spsc_scenario (k : ScenarioKind) (name note : string) : list Scenario :=
  [mkScenario k name "spsc_exclusive_handoff" "exclusive_handoff" 1 1 note].

Definition multicast_scenarios (k : ScenarioKind) (name note : string) : list Scenario :=
  (fun consumers => mkScenario k name "spmc_multicast_retained_history" "multicast_retained_history"
     1 consumers note) <$> consumers c.

(** A block of the form [if (selected) { #if have ... #else throw when asked for by
    name #endif }]. *)
Definition optional_baseline (wanted have : bool) (exact_name : string) (scenarios : list Scenario)
    (message : string) : outcome (list Scenario) :=
  if wanted then
    if have then Value scenarios
    else if streq (queue c) exact_name then Throws (invalid_argument message) else Value []
  else Value [].

Definition when (wanted : bool) (scenarios : list Scenario) : list Scenario :=
  if wanted then scenarios else [].

Definition scenarios_for : outcome (list Scenario) :=
  let s1 := when (selected "spsc")
    (spsc_scenario line64_spsc "Line64::SPSCQueue" "Line64 SPSC exclusive handoff") in
  s2 ← optional_baseline (selected_any ["boost"; "boost_spsc"]) (have_boost_spsc have) "boost_spsc"
    (spsc_scenario boost_spsc "boost::lockfree::spsc_queue" "optional Boost SPSC exclusive handoff baseline")
    "Boost SPSC benchmark requested but boost/lockfree/spsc_queue.hpp was unavailable at build time";
  s3 ← optional_baseline (selected "rigtorp_spsc") (have_rigtorp_spsc have) "rigtorp_spsc"
    (spsc_scenario rigtorp_spsc "rigtorp::SPSCQueue" "optional rigtorp SPSC exclusive handoff baseline")
    "rigtorp SPSC benchmark requested but rigtorp/SPSCQueue.h was unavailable at build time";
  let s4 := when (selected "spmc")
    (multicast_scenarios spmc "Line64::SPMCMulticastQueue"
       "SPMC multicast aggregate observations are reported separately") in
  let s5 := when (selected "versioned_spmc")
    (multicast_scenarios versioned_spmc "Line64::VersionedSPMCQueue"
       "atomic-versioned mutex-free SPMC multicast; aggregate observations are reported separately") in
  let s6 := when (selected "blocking")
    (mpmc_scenarios line64_blocking "Line64::BlockingQueue"
       "Line64 blocking MPMC exclusive-pop work-sharing baseline") in
  let s7 := when (selected "mpmc")
    (mpmc_scenarios line64_mpmc "Line64::MPMCQueue" "Line64 mutex-free bounded sequence-cell MPMC") in
  s8 ← optional_baseline (selected_any ["boost"; "boost_mpmc"]) (have_boost_queue have) "boost_mpmc"
    (mpmc_scenarios boost_mpmc "boost::lockfree::queue" "optional Boost.Lockfree exclusive-pop MPMC baseline")
    "Boost benchmark requested but boost/lockfree/queue.hpp was unavailable at build time";
  s9 ← optional_baseline (selected "moodycamel_mpmc") (have_moodycamel have) "moodycamel_mpmc"
    (mpmc_scenarios moodycamel_mpmc "moodycamel::ConcurrentQueue" "optional moodycamel exclusive-pop MPMC baseline")
    "moodycamel benchmark requested but concurrentqueue.h was unavailable at build time";
  s10 ← optional_baseline (selected "atomic_queue_mpmc") (have_atomic_queue have) "atomic_queue_mpmc"
    (mpmc_scenarios atomic_queue_mpmc "atomic_queue::AtomicQueueB2" "optional atomic_queue exclusive-pop MPMC baseline")
    "atomic_queue benchmark requested but atomic_queue/atomic_queue.h was unavailable at build time";
  let scenarios := s1 ++ s2 ++ s3 ++ s4 ++ s5 ++ s6 ++ s7 ++ s8 ++ s9 ++ s10 in
  _ ← throw_if (bool_decide (length scenarios = 0%nat))
        ("no benchmark scenarios were selected or compiled for --queue " +:+ queue c);
  Value scenarios.

End scenarios.

(** The function template, and its argument, that runs a scenario. *)
Inductive Runner : Type :=
| run_spsc_adapter (adapter : string)
| run_spmc_multicast (queue : string)
| run_exclusive_pop_adapter (adapter : string).

Definition run_scenario (have : baselines) (k : ScenarioKind) : outcome Runner :=
  let when_built (built : bool) (runner : Runner) (message : string) :=
    if built then Value runner else Throws (logic_error message) in
  match k with
  | line64_spsc => Value (run_spsc_adapter "Line64SPSCAdapter")
  | boost_spsc => when_built (have_boost_spsc have) (run_spsc_adapter "BoostLockfreeSPSCAdapter")
                    "Boost SPSC scenario was not compiled"
  | rigtorp_spsc => when_built (have_rigtorp_spsc have) (run_spsc_adapter "RigtorpSPSCAdapter")
                      "rigtorp SPSC scenario was not compiled"
  | line64_blocking => Value (run_exclusive_pop_adapter "Line64BlockingQueueAdapter")
  | spmc => Value (run_spmc_multicast "SPMCMulticastQueue")
  | versioned_spmc => Value (run_spmc_multicast "VersionedSPMCQueue")
  | line64_mpmc => Value (run_exclusive_pop_adapter "Line64MPMCAdapter")
  | boost_mpmc => when_built (have_boost_queue have) (run_exclusive_pop_adapter "BoostLockfreeMPMCAdapter")
                    "Boost MPMC scenario was not compiled"
  | moodycamel_mpmc => when_built (have_moodycamel have) (run_exclusive_pop_adapter "MoodycamelMPMCAdapter")
                         "moodycamel MPMC scenario was not compiled"
  | atomic_queue_mpmc => when_built (have_atomic_queue have) (run_exclusive_pop_adapter "AtomicQueueMPMCAdapter")
                           "atomic_queue MPMC scenario was not compiled"
  end.

(** ** The main loop *)

Section main.

(** [errors index trial]: the [validation_errors] of the run of the scenario at
    [index]; trial 0 is the warm-up. *)
Context (have : baselines) (errors : nat -> nat -> Z).

(** The trials [first, first + 1, ...] of one scenario. *)
Fixpoint run_trials (index first count : nat) (k : ScenarioKind) (valid : bool) : outcome bool :=
  match count with
  | O => Value valid
  | S count =>
      _ ← run_scenario have k;
      run_trials index (S first) count k ((errors index first =? 0) && valid)
  end.

(** Whether the warm-up, if there is one, was valid. *)
Definition run_warmup (c : Config) (index : nat) (k : ScenarioKind) : outcome bool :=
  if warmup_ms c =? 0 then Value true
  else _ ← run_scenario have k; Value (errors index 0%nat =? 0).

Fixpoint run_all (c : Config) (index : nat) (scenarios : list Scenario) (valid : bool) : outcome bool :=
  match scenarios with
  | [] => Value valid
  | s :: rest =>
      warm ← run_warmup c index (kind s);
      valid ← (if (warm : bool) then run_trials index 1 (Z.to_nat (trials c)) (kind s) valid else Value false);
      run_all c (S index) rest valid
  end.

Definition main_exit (args : list string) : exit_status :=
  match c ← parse_config args; scenarios ← scenarios_for have c; run_all c 0 scenarios true with
  | Value true => EXIT_SUCCESS
  | Value false => EXIT_FAILURE
  | Throws _ => EXIT_FAILURE
  | ExitSuccess => EXIT_SUCCESS
  end.

End main.

(** ** Accounting *)

Record ConsumerMetrics : Type := mkMetrics {
  reads : Z;
  lag_events : Z;
  empty_retries : Z;
  invalid_payloads : Z;
  validation_errors : Z;
  payload_ids : list Z;
  queue_sequences : SequenceTracker;
}.

Definition fresh_metrics : ConsumerMetrics := mkMetrics 0 0 0 0 0 [] (mkTracker []).

Definition record_payload (m : ConsumerMetrics) (payload : Payload) (expected_size queue_sequence : Z)
    : option ConsumerMetrics :=
  valid ← valid_payload payload expected_size;
  Some (
    if negb valid then
      mkMetrics (reads m +u 1) (lag_events m) (empty_retries m) (invalid_payloads m +u 1)
        (validation_errors m +u 1) (payload_ids m) (queue_sequences m)
    else
      let ids := payload_ids m ++ [global_id (read_header payload)] in
      if queue_sequence =? 0 then
        mkMetrics (reads m +u 1) (lag_events m) (empty_retries m) (invalid_payloads m)
          (validation_errors m) ids (queue_sequences m)
      else
        let '(accepted, tracker) := record (queue_sequences m) queue_sequence in
        mkMetrics (reads m +u 1) (lag_events m) (empty_retries m) (invalid_payloads m)
          (if accepted then validation_errors m else validation_errors m +u 1) ids tracker).

Definition collect_payload_ids (metrics : list ConsumerMetrics) : list Z := concat (payload_ids <$> metrics).

(** The number of distinct identifiers, and [duplicate_count]. *)
Definition count_unique_ids (ids : list Z) : Z * Z :=
  match ids with
  | [] => (0, 0)
  | _ =>
      let distinct := span_size (unique (sort_values ids)) in
      (distinct, span_size ids -u distinct)
  end.

Definition has_same_ids (observed expected : list Z) : bool :=
  bool_decide (sort_values observed = sort_values expected).

(** The sums and checks of [make_result] (its other statements copy fields and
    compute throughput: [make_report] of [BenchmarkReport]). *)
Record Verdict : Type := mkVerdict {
  aggregate_reads : Z;
  dropped_or_lagged : Z;
  total_empty_retries : Z;
  total_invalid_payloads : Z;
  unique_sequences_verified : Z;
  total_validation_errors : Z;
  consumer_reads : list Z;
}.

Definition sum_u64 (f : ConsumerMetrics -> Z) (metrics : list ConsumerMetrics) : Z :=
  foldl (fun acc m => acc +u f m) 0 metrics.

Definition make_result (published : Z) (published_ids : list Z) (metrics : list ConsumerMetrics)
    (producer_errors : Z) (require_complete_work_sharing : bool) : Verdict :=
  let aggregate := sum_u64 reads metrics in
  let errors := sum_u64 validation_errors metrics +u producer_errors in
  let observed := collect_payload_ids metrics in
  let '(distinct, duplicates) := count_unique_ids observed in
  let errors :=
    if require_complete_work_sharing then
      let errors := errors +u duplicates in
      if negb (aggregate =? published) || negb (distinct =? published) ||
         negb (span_size published_ids =? published) || negb (has_same_ids observed published_ids)
      then errors +u 1 else errors
    else errors in
  mkVerdict aggregate (sum_u64 lag_events metrics) (sum_u64 empty_retries metrics)
    (sum_u64 invalid_payloads metrics) distinct errors (reads <$> metrics).

(** ** Sorting *)

Lemma sort_values_perm xs : sort_values xs ≡ₚ xs.
Proof. apply merge_sort_Permutation. Qed.

Lemma sort_values_sorted xs : StronglySorted Z.le (sort_values xs).
Proof. apply StronglySorted_merge_sort; typeclasses eauto. Qed.

(** Two lists sort to the same list exactly when one is a permutation of the other. *)
Lemma sort_values_eq xs ys : sort_values xs = sort_values ys <-> xs ≡ₚ ys.
Proof.
  split.
  - intros E. by rewrite <- (sort_values_perm xs), E, sort_values_perm.
  - intros H. apply (StronglySorted_unique Z.le); [apply sort_values_sorted.. |].
    by rewrite !sort_values_perm.
Qed.

Lemma sort_values_id xs : StronglySorted Z.lt xs -> sort_values xs = xs.
Proof.
  intros H. apply (StronglySorted_unique Z.le); [apply sort_values_sorted | | apply sort_values_perm].
  induction H as [| x xs _ IH Hx]; constructor; [done |].
  eapply Forall_impl; [exact Hx |]. simpl. lia.
Qed.

Lemma elem_of_unique xs x : x ∈ unique xs <-> x ∈ xs.
Proof.
  induction xs as [| a [| b xs] IH]; [done | done |].
  change (unique (a :: b :: xs)) with (if a =? b then unique (b :: xs) else a :: unique (b :: xs)).
  destruct (Z.eqb_spec a b) as [-> |].
  - rewrite IH, (elem_of_cons (b :: xs)), elem_of_cons. tauto.
  - by rewrite !(elem_of_cons _ x a), IH.
Qed.

Lemma unique_sorted xs : StronglySorted Z.le xs -> StronglySorted Z.lt (unique xs).
Proof.
  induction 1 as [| a xs Hs IH Ha]; [constructor |].
  destruct xs as [| b xs]; [repeat constructor |].
  change (unique (a :: b :: xs)) with (if a =? b then unique (b :: xs) else a :: unique (b :: xs)).
  destruct (Z.eqb_spec a b) as [-> | Hne]; [done |]. constructor; [done |].
  apply Forall_forall. intros x Hx. rewrite elem_of_unique in Hx.
  inversion Ha as [| ? ? Hab _]; subst. inversion Hs as [| ? ? _ Hb]; subst.
  apply elem_of_cons in Hx as [-> | Hx]; [lia |].
  rewrite Forall_forall in Hb. apply Hb in Hx. lia.
Qed.

Lemma unique_id xs : StronglySorted Z.lt xs -> unique xs = xs.
Proof.
  induction 1 as [| a xs Hs IH Ha]; [done |]. destruct xs as [| b xs]; [done |].
  change (unique (a :: b :: xs)) with (if a =? b then unique (b :: xs) else a :: unique (b :: xs)).
  inversion Ha; subst. rewrite (proj2 (Z.eqb_neq _ _)) by lia. by rewrite IH.
Qed.

Lemma sorted_lt_NoDup xs : StronglySorted Z.lt xs -> NoDup xs.
Proof.
  induction 1 as [| a xs Hs IH Ha]; constructor; [| done].
  rewrite Forall_forall in Ha. intros Hin%Ha. lia.
Qed.

(** [std::sort] followed by [std::unique] lists the set of values. *)
Lemma unique_sort_set xs : unique (sort_values xs) ≡ₚ elements (list_to_set xs : gset Z).
Proof.
  apply NoDup_Permutation; [apply sorted_lt_NoDup, unique_sorted, sort_values_sorted | apply NoDup_elements |].
  intros x. by rewrite elem_of_unique, sort_values_perm, elem_of_elements, elem_of_list_to_set.
Qed.

Lemma unique_length xs : (length (unique xs) <= length xs)%nat.
Proof.
  induction xs as [| a [| b xs] IH]; [done | done |].
  change (unique (a :: b :: xs)) with (if a =? b then unique (b :: xs) else a :: unique (b :: xs)).
  destruct (_ =? _); simpl in *; lia.
Qed.

(** ** Consumer lists are read back *)

Definition count_ok (v : Z) : Prop := 1 <= v <= 64.

Lemma parse_count_ok segment v : parse_count segment = Value v -> count_ok v.
Proof.
  unfold parse_count. destruct (parse_unsigned _ segment) as [p | |] eqn:E; try done.
  apply parse_unsigned_range in E. cbn [mbind outcome_bind]. rewrite throw_if_value.
  intros [H [= <-]]. reflect_bools. unfold count_ok. lia.
Qed.

Lemma parse_count_print v : count_ok v -> parse_count (print_unsigned v) = Value v.
Proof.
  intros Hv. unfold parse_count. rewrite parse_print_unsigned.
  - cbn [mbind outcome_bind]. apply throw_if_value. split; [| done].
    unfold count_ok in Hv. apply orb_false_iff. rewrite Z.eqb_neq, Z.ltb_ge. lia.
  - unfold count_ok in Hv. apply (u64_bound _ 64); [lia | done].
Qed.

Lemma parse_list_ok text : forall segment values vs,
  parse_list text segment values = Value vs -> Forall count_ok values -> vs <> [] /\ Forall count_ok vs.
Proof.
  assert (Hone : forall segment values vs,
    (v ← parse_count segment; Value (values ++ [v])) = Value vs ->
    Forall count_ok values -> vs <> [] /\ Forall count_ok vs).
  { intros segment values vs. destruct (parse_count segment) as [v | |] eqn:E; try done.
    intros [= <-] Hv. split; [by destruct values |]. apply Forall_app. split; [done |].
    constructor; [by eapply parse_count_ok | constructor]. }
  induction text as [| ch text IH]; intros segment values vs; cbn [parse_list]; [apply Hone |].
  destruct (Ascii.eqb ch _); [| apply IH].
  destruct text as [| ch' text]; [apply Hone |].
  destruct (parse_count segment) as [v | |] eqn:E; try done. cbn [mbind outcome_bind].
  intros H Hv. eapply IH; [exact H |]. apply Forall_app. split; [done |].
  constructor; [by eapply parse_count_ok | constructor].
Qed.

Lemma comma_not_digit ch d : digit_value ch = Some d -> Ascii.eqb ch ","%char = false.
Proof. intros H. apply Ascii.eqb_neq. intros ->. done. Qed.

(** Digits are added to the current segment. *)
Lemma parse_list_digits ds : forall rest segment values,
  all_digits ds = true ->
  parse_list (ds +:+ rest) segment values = parse_list rest (segment +:+ ds) values.
Proof.
  induction ds as [| ch ds IH]; intros rest segment values H.
  - by rewrite str_app_nil_r.
  - cbn [all_digits] in H. destruct (digit_value ch) eqn:E; [| done].
    rewrite str_app_cons. cbn [parse_list]. rewrite (comma_not_digit _ _ E), IH by done.
    by rewrite str_app_assoc.
Qed.

(** The list as a user writes it. *)
Definition print_list (vs : list Z) : string := String.concat "," (print_unsigned <$> vs).

Lemma print_list_cons v v' vs : print_list (v :: v' :: vs) = print_unsigned v +:+ ("," +:+ print_list (v' :: vs)).
Proof. done. Qed.

Lemma print_list_nonempty v vs : count_ok v -> print_list (v :: vs) <> "".
Proof.
  intros Hv. destruct (print_unsigned_digits v) as [_ Hne].
  { unfold count_ok in Hv. apply (u64_bound _ 64); [lia | done]. }
  unfold print_list. destruct vs as [| v' vs]; [done |]. cbn [fmap list_fmap String.concat].
  by destruct (print_unsigned v).
Qed.

Lemma parse_print_list vs : forall values,
  vs <> [] -> Forall count_ok vs -> parse_list (print_list vs) "" values = Value (values ++ vs).
Proof.
  induction vs as [| v vs IH]; intros values Hne Hok; [done |].
  inversion Hok as [| ? ? Hv Hvs]; subst.
  assert (Hd : all_digits (print_unsigned v) = true).
  { apply print_unsigned_digits. unfold count_ok in Hv. apply (u64_bound _ 64); [lia | done]. }
  destruct vs as [| v' vs].
  - change (print_list [v]) with (print_unsigned v). rewrite <- (str_app_nil_r (print_unsigned v)).
    rewrite parse_list_digits by done. cbn [parse_list]. by rewrite str_app_nil_l, parse_count_print.
  - rewrite print_list_cons, parse_list_digits by done.
    rewrite str_app_cons. cbn [parse_list]. rewrite !str_app_nil_l, Ascii.eqb_refl, parse_count_print by done. cbn [mbind outcome_bind].
    specialize (IH (values ++ [v]) ltac:(done) Hvs). inversion Hvs as [| ? ? Hv' _]; subst.
    pose proof (print_list_nonempty v' vs Hv') as Hp.
    destruct (print_list (v' :: vs)); [done |]. by rewrite IH, <- app_assoc.
Qed.

Lemma parse_consumers_ok text vs :
  parse_consumers text = Value vs -> vs <> [] /\ StronglySorted Z.lt vs /\ Forall count_ok vs.
Proof.
  unfold parse_consumers, count_ok. destruct (_ || _).
  { intros [= <-]. split; [done |]. split; repeat constructor; lia. }
  destruct (streq text "single").
  { intros [= <-]. split; [done |]. split; repeat constructor; lia. }
  destruct text as [| ch text]; [done |].
  destruct (parse_list _ _ _) as [values | |] eqn:E; try done. cbn [mbind outcome_bind].
  rewrite throw_if_value. intros [_ [= <-]]. apply parse_list_ok in E as [Hne Hok]; [| constructor].
  split; [| split; [apply unique_sorted, sort_values_sorted |]].
  - destruct values as [| v values]; [done |]. intros E.
    apply (not_elem_of_nil v). rewrite <- E, elem_of_unique, sort_values_perm. by left.
  - apply Forall_forall. intros x. rewrite elem_of_unique, sort_values_perm.
    intros Hx. by apply (proj1 (Forall_forall _ _) Hok).
Qed.


(** ** Accepted configurations *)

Record config_ok (c : Config) : Prop := {
  co_duration : 1 <= duration_ms c <= i64_max;
  co_warmup : 0 <= warmup_ms c <= i64_max;
  co_trials : 1 <= trials c <= 1000;
  co_capacity : 1 <= capacity c <= 1000000;
  co_payload : payload_header_size <= payload_size c <= max_payload_size;
  co_producers : 1 <= producers c <= 64;
  co_consumers : consumers c <> [] /\ StronglySorted Z.lt (consumers c) /\ Forall count_ok (consumers c);
  co_queue : queue c ∈ queues;
  co_ring : queue c ∈ power_of_two_queues -> exists k, 1 <= k <= 31 /\ capacity c = 2 ^ k;
}.

Record config_typed (c : Config) : Prop := {
  ct_duration : 0 <= duration_ms c;
  ct_warmup : 0 <= warmup_ms c;
  ct_trials : 0 <= trials c;
  ct_capacity : 0 <= capacity c <= u32_max;
  ct_payload : 0 <= payload_size c;
  ct_producers : 0 <= producers c;
  ct_consumers : consumers c <> [] /\ StronglySorted Z.lt (consumers c) /\ Forall count_ok (consumers c);
}.

Lemma benchmark_default_typed : config_typed default_config.
Proof.
  split; try (vm_compute; done).
  split; [done |]. unfold count_ok. split; repeat constructor; simpl; lia.
Qed.

Lemma benchmark_set_option_typed c option value c' :
  config_typed c -> set_option c option value = Value c' -> config_typed c'.
Proof.
  intros [H1 H2 H3 H4 H5 H6 H7] H. destruct c as [du wa tr ca pa pr co qu cp cc]. simpl in *.
  unfold set_option in H.
  repeat match type of H with
  | (if ?b then _ else _) = _ => destruct b
  | (parse_unsigned ?o ?t ≫= _) = _ =>
      destruct (parse_unsigned o t) as [v | |] eqn:E; try done; apply parse_unsigned_range in E
  | (parse_u32 ?o ?t ≫= _) = _ =>
      destruct (parse_u32 o t) as [v | |] eqn:E; try done; apply parse_u32_range in E
  | (parse_consumers ?t ≫= _) = _ =>
      destruct (parse_consumers t) as [v | |] eqn:E; try done; apply parse_consumers_ok in E
  end; try done; injection H as <-; split; simpl; try lia; try done.
Qed.

Lemma benchmark_parse_options_typed n : forall c args c',
  (length args <= n)%nat -> config_typed c -> parse_options c args = Value c' -> config_typed c'.
Proof.
  induction n as [| n IH]; intros c [| option rest] c' Hn Hc H; simpl in *; try (by simplify_eq); [lia |].
  destruct (streq option "--help"); [done |]. destruct rest as [| value rest]; [done |].
  destruct (set_option c option value) as [c1 | |] eqn:E; try done.
  eapply (IH c1 rest); [simpl in Hn; lia | by eapply benchmark_set_option_typed | exact H].
Qed.

Lemma benchmark_check_config_value c c' : check_config c = Value c' -> c' = c /\ (config_typed c -> config_ok c).
Proof.
  unfold check_config. rewrite !throw_if_value. intros (Q & D & W & T & C & M & P & Pr & [= <-]).
  split; [done |]. intros [T1 T2 T3 T4 T5 T6 T7].
  apply negb_false_iff, existsb_exists in Q as (name & Hin & Hq). apply streq_eq in Hq.
  reflect_bools. split; try lia; try done.
  - rewrite Hq. by apply list_elem_of_In.
  - intros Hr. assert (E : existsb (streq (queue c)) power_of_two_queues = true).
    { apply existsb_exists. exists (queue c). split; [by apply list_elem_of_In | apply streq_refl]. }
    apply pow2_u32; [lia |]. unfold power_of_two_queues in E. revert M. simpl in E |- *. rewrite E. done.
Qed.

Lemma benchmark_parse_config_ok args c : parse_config args = Value c -> config_ok c.
Proof.
  unfold parse_config. intros H. destruct (parse_options default_config args) as [c0 | |] eqn:E; try done.
  simpl in H. apply benchmark_check_config_value in H as [-> Hok]. apply Hok.
  eapply benchmark_parse_options_typed; [reflexivity | apply benchmark_default_typed | exact E].
Qed.

(** ** Scenarios are well formed *)

Definition spsc_kinds : list ScenarioKind := [line64_spsc; boost_spsc; rigtorp_spsc].
Definition multicast_kinds : list ScenarioKind := [spmc; versioned_spmc].
Definition ring_kinds : list ScenarioKind := [line64_mpmc; boost_mpmc; moodycamel_mpmc; atomic_queue_mpmc].

Record scenario_ok (have : baselines) (c : Config) (s : Scenario) : Prop := {
  so_producers : count_ok (s_producers s);
  so_consumers : count_ok (s_consumers s);
  so_spsc : kind s ∈ spsc_kinds -> s_producers s = 1 /\ s_consumers s = 1;
  so_multicast : kind s ∈ multicast_kinds -> s_producers s = 1;
  so_ring : kind s ∈ ring_kinds -> exists k, 1 <= k <= 31 /\ capacity c = 2 ^ k;
  so_built : exists r, run_scenario have (kind s) = Value r;
}.

(** Membership and inclusion of closed lists, by evaluation. *)
Ltac by_decision := apply (bool_decide_unpack _); vm_compute; exact I.

Lemma kinds_disjoint (ks1 ks2 : list ScenarioKind) k :
  bool_decide (Forall (fun k : ScenarioKind => k ∉ ks2) ks1) = true -> k ∈ ks1 -> k ∉ ks2.
Proof. intros H%bool_decide_eq_true. exact (proj1 (Forall_forall _ _) H k). Qed.

Section scenario_lemmas.

Context (have : baselines) (c : Config) (Hc : config_ok c).

Definition built (k : ScenarioKind) : Prop := exists r, run_scenario have k = Value r.

Lemma one_count_ok : count_ok 1.
Proof. unfold count_ok. lia. Qed.

Lemma spsc_scenario_ok k name note :
  k ∈ spsc_kinds -> built k -> Forall (scenario_ok have c) (spsc_scenario k name note).
Proof.
  intros Hk Hb. constructor; [| constructor]. split; simpl; try apply one_count_ok; try done.
  intros Hr. by destruct (kinds_disjoint spsc_kinds ring_kinds k).
Qed.

Lemma multicast_scenarios_ok k name note :
  k ∈ multicast_kinds -> built k -> Forall (scenario_ok have c) (multicast_scenarios c k name note).
Proof.
  intros Hk Hb. unfold multicast_scenarios. apply Forall_fmap. destruct (co_consumers c Hc) as (_ & _ & Hall).
  eapply Forall_impl; [exact Hall |]. intros n Hn. split; simpl; try apply one_count_ok; try done; intros Hr.
  - by destruct (kinds_disjoint multicast_kinds spsc_kinds k).
  - by destruct (kinds_disjoint multicast_kinds ring_kinds k).
Qed.

Lemma mpmc_scenarios_ok k name note :
  k ∉ spsc_kinds -> k ∉ multicast_kinds -> built k ->
  (k ∈ ring_kinds -> queue c ∈ power_of_two_queues) ->
  Forall (scenario_ok have c) (mpmc_scenarios c k name note).
Proof.
  intros Hs Hm Hb Hr.
  assert (Hok : forall p n, count_ok p -> count_ok n ->
    scenario_ok have c (mkScenario k name "mpmc_work_sharing" "exclusive_pop" p n note)).
  { intros p n Hp Hn. split; simpl; try done. intros Hk. by apply (co_ring c Hc), Hr. }
  unfold mpmc_scenarios. destruct (_ && _); apply Forall_fmap.
  - unfold mpmc_matrix. rewrite !Forall_cons, Forall_nil.
    split_and!; try done; apply Hok; unfold count_ok; simpl; lia.
  - destruct (co_consumers c Hc) as (_ & _ & Hall). eapply Forall_impl; [exact Hall |].
    intros n Hn. apply Hok; [| done]. exact (co_producers c Hc).
Qed.

Lemma when_ok wanted scenarios :
  (wanted = true -> Forall (scenario_ok have c) scenarios) -> Forall (scenario_ok have c) (when wanted scenarios).
Proof. destruct wanted; simpl; [auto | constructor]. Qed.

Lemma optional_baseline_ok wanted present name scenarios message ss :
  optional_baseline c wanted present name scenarios message = Value ss ->
  (wanted = true -> present = true -> Forall (scenario_ok have c) scenarios) ->
  Forall (scenario_ok have c) ss.
Proof.
  unfold optional_baseline. destruct wanted; [| intros [= <-]; constructor].
  destruct present; [intros [= <-]; auto |]. destruct (streq _ _); [done |]. intros [= <-]. constructor.
Qed.

Lemma selected_ring name : name ∈ power_of_two_queues -> selected c name = true -> queue c ∈ power_of_two_queues.
Proof.
  intros Hn. unfold selected. rewrite orb_true_iff, !streq_eq. intros [-> | ->]; [| done].
  by_decision.
Qed.

Lemma selected_any_ring names :
  names ⊆ power_of_two_queues -> selected_any c names = true -> queue c ∈ power_of_two_queues.
Proof.
  intros Hn (name & Hin & Hs)%existsb_exists. apply (selected_ring name); [| done].
  apply Hn. by apply list_elem_of_In.
Qed.

Lemma mpmc_baseline_ok k present names exact_name name note message ss :
  k ∈ [boost_mpmc; moodycamel_mpmc; atomic_queue_mpmc] -> names ⊆ power_of_two_queues ->
  (present = true -> built k) ->
  optional_baseline c (selected_any c names) present exact_name (mpmc_scenarios c k name note) message = Value ss ->
  Forall (scenario_ok have c) ss.
Proof.
  intros Hk Hn Hb H. eapply optional_baseline_ok; [exact H |]. intros Hw Hp.
  apply mpmc_scenarios_ok; [| | by apply Hb | intros _; by apply (selected_any_ring names)];
    intros Hk'; by eapply (kinds_disjoint [boost_mpmc; moodycamel_mpmc; atomic_queue_mpmc]), Hk'.
Qed.

Lemma spsc_baseline_ok k wanted present exact_name name note message ss :
  k ∈ spsc_kinds -> (present = true -> built k) ->
  optional_baseline c wanted present exact_name (spsc_scenario k name note) message = Value ss ->
  Forall (scenario_ok have c) ss.
Proof.
  intros Hk Hb H. eapply optional_baseline_ok; [exact H |]. intros _ Hp. apply spsc_scenario_ok; auto.
Qed.

Lemma selected_any_one name : selected_any c [name] = selected c name.
Proof. unfold selected_any. simpl. apply orb_false_r. Qed.

(** A scenario of a baseline that was found can be run. *)
Ltac by_build := intros Hp; unfold built; simpl; rewrite Hp; eauto.

Lemma scenarios_for_ok ss : scenarios_for have c = Value ss -> ss <> [] /\ Forall (scenario_ok have c) ss.
Proof.
  unfold scenarios_for. rewrite <- (selected_any_one "moodycamel_mpmc"), <- (selected_any_one "atomic_queue_mpmc").
  destruct (optional_baseline c _ (have_boost_spsc have) _ _ _) as [s2 | |] eqn:E2; try done. cbn [mbind outcome_bind].
  destruct (optional_baseline c _ (have_rigtorp_spsc have) _ _ _) as [s3 | |] eqn:E3; try done. cbn [mbind outcome_bind].
  destruct (optional_baseline c _ (have_boost_queue have) _ _ _) as [s8 | |] eqn:E8; try done. cbn [mbind outcome_bind].
  destruct (optional_baseline c _ (have_moodycamel have) _ _ _) as [s9 | |] eqn:E9; try done. cbn [mbind outcome_bind].
  destruct (optional_baseline c _ (have_atomic_queue have) _ _ _) as [s10 | |] eqn:E10; try done. cbn [mbind outcome_bind].
  rewrite throw_if_value. intros [Hne%bool_decide_eq_false [= <-]]. split; [by intros E; rewrite E in Hne |].
  rewrite !Forall_app.
  split; [| split; [| split; [| split; [| split; [| split; [| split; [| split; [| split]]]]]]]].
  - apply when_ok. intros _. apply spsc_scenario_ok; [by_decision | by eexists].
  - eapply spsc_baseline_ok, E2; [by_decision |]. by_build.
  - eapply spsc_baseline_ok, E3; [by_decision |]. by_build.
  - apply when_ok. intros _. apply multicast_scenarios_ok; [by_decision | by eexists].
  - apply when_ok. intros _. apply multicast_scenarios_ok; [by_decision | by eexists].
  - apply when_ok. intros _. apply mpmc_scenarios_ok; [by_decision | by_decision | by eexists |].
    intros Hr. exfalso. revert Hr. by_decision.
  - apply when_ok. intros Hw. apply mpmc_scenarios_ok; [by_decision | by_decision | by eexists |].
    intros _. apply (selected_ring "mpmc"); [by_decision | exact Hw].
  - eapply mpmc_baseline_ok, E8; [by_decision | by_decision |]. by_build.
  - eapply mpmc_baseline_ok, E9; [by_decision | by_decision |]. by_build.
  - eapply mpmc_baseline_ok, E10; [by_decision | by_decision |]. by_build.
Qed.

End scenario_lemmas.

(** ** The main loop *)

Lemma run_trials_spec have errors index k valid : forall count first,
  built have k ->
  run_trials have errors index first count k valid = Value true <->
  valid = true /\ forall t, (first <= t < first + count)%nat -> errors index t = 0.
Proof.
  intros count. revert valid. induction count as [| count IH]; intros valid first [r Hr]; cbn [run_trials].
  - split; [intros [= ->]; split; [done | lia] | by intros [-> _]].
  - rewrite Hr. cbn [mbind outcome_bind]. rewrite IH by (by exists r). rewrite andb_true_iff, Z.eqb_eq. split.
    + intros [[H0 Hv] H]. split; [done |]. intros t Ht.
      destruct (decide (t = first)) as [-> |]; [done |]. apply H. lia.
    + intros [Hv H]. split; [split; [apply H; lia | done] |]. intros t Ht. apply H. lia.
Qed.

Lemma run_trials_value have errors index k : forall count first valid,
  built have k -> exists b, run_trials have errors index first count k valid = Value b.
Proof.
  induction count as [| count IH]; intros first valid Hb; cbn [run_trials]; [eauto |].
  pose proof Hb as [r ->]. cbn [mbind outcome_bind]. by apply IH.
Qed.

(** All runs of one scenario were valid. *)
Definition scenario_valid (c : Config) (errors : nat -> nat -> Z) (index : nat) : Prop :=
  (warmup_ms c <> 0 -> errors index 0%nat = 0) /\
  forall t, (1 <= t <= Z.to_nat (trials c))%nat -> errors index t = 0.

(** [continue] after an invalid warm-up leaves [valid] false for good. *)
Lemma run_all_spec have errors c : forall ss index valid,
  Forall (fun s => built have (kind s)) ss ->
  exists b, run_all have errors c index ss valid = Value b /\
    (b = true <-> valid = true /\ forall i, (i < length ss)%nat -> scenario_valid c errors (index + i)).
Proof.
  induction ss as [| s ss IH]; intros index valid Hss; cbn [run_all].
  { exists valid. split; [done |]. split; [intros ->; split; [done | simpl; lia] | by intros []]. }
  inversion Hss as [| ? ? Hs Hrest]; subst.
  assert (exists w, run_warmup have errors c index (kind s) = Value w /\
    (w = true <-> (warmup_ms c <> 0 -> errors index 0%nat = 0))) as (w & -> & Hw).
  { unfold run_warmup. destruct (Z.eqb_spec (warmup_ms c) 0) as [E | E]; [exists true; split; [done |]; tauto |].
    destruct Hs as [r ->]. eexists. split; [reflexivity |]. rewrite Z.eqb_eq. tauto. }
  cbn [mbind outcome_bind].
  assert (exists b, (if w then run_trials have errors index 1 (Z.to_nat (trials c)) (kind s) valid
                     else Value false) = Value b /\
    (b = true <-> valid = true /\ scenario_valid c errors index)) as (b & -> & Hb).
  { unfold scenario_valid. destruct w; [| exists false; split; [done |]; split; [done |]; tauto].
    destruct (run_trials_value have errors index (kind s) (Z.to_nat (trials c)) 1 valid Hs) as [b Eb].
    exists b. split; [done |]. pose proof (run_trials_spec have errors index (kind s) valid (Z.to_nat (trials c)) 1 Hs) as Ht.
    rewrite Eb in Ht. split.
    - intros ->. destruct Ht as [Ht _]. destruct (Ht eq_refl) as [Hv H]. split; [done |].
      split; [by apply Hw |]. intros t Ht'. apply H. lia.
    - intros [Hv [_ H]]. destruct Ht as [_ Ht]. assert (E : @Value bool b = Value true); [| by injection E].
      apply Ht. split; [done |]. intros t Ht'. apply H. lia. }
  cbn [mbind outcome_bind]. destruct (IH (S index) b Hrest) as (b' & -> & Hb'). exists b'. split; [done |].
  rewrite Hb', Hb. split.
  - intros [[Hv H0] H]. split; [done |]. intros [| i] Hi; [by rewrite Nat.add_0_r |].
    rewrite Nat.add_succ_r. apply H. simpl in Hi. lia.
  - intros [Hv H]. split; [split; [done |] |].
    + specialize (H 0%nat). rewrite Nat.add_0_r in H. apply H. simpl. lia.
    + intros i Hi. replace (S index + i)%nat with (index + S i)%nat by lia. apply H. simpl. lia.
Qed.

(** ** Accounting *)

Lemma has_same_ids_spec observed expected : has_same_ids observed expected = true <-> observed ≡ₚ expected.
Proof. unfold has_same_ids. rewrite bool_decide_eq_true. apply sort_values_eq. Qed.

Lemma unique_sort_length (ids : list Z) :
  length (unique (sort_values ids)) = base.size (list_to_set ids : gset Z).
Proof. unfold base.size, set_size. simpl. by rewrite <- (unique_sort_set ids). Qed.

Lemma size_list_to_set_le (ids : list Z) : (base.size (list_to_set ids : gset Z) <= length ids)%nat.
Proof. by rewrite <- unique_sort_length, unique_length, sort_values_perm. Qed.

Lemma count_unique_ids_spec ids :
  span_size ids < u64_modulus ->
  count_unique_ids ids =
    (Z.of_nat (base.size (list_to_set ids : gset Z)),
     span_size ids - Z.of_nat (base.size (list_to_set ids : gset Z))).
Proof.
  intros Hlen. pose proof (size_list_to_set_le ids) as Hle. unfold count_unique_ids.
  destruct ids as [| x ids]; [done |].
  assert (E : span_size (unique (sort_values (x :: ids))) = Z.of_nat (base.size (list_to_set (x :: ids) : gset Z))).
  { unfold span_size. by rewrite unique_sort_length. }
  rewrite E. unfold span_size in *. by rewrite u64_small by lia.
Qed.

Lemma unique_ids_NoDup (ids : list Z) :
  Z.of_nat (base.size (list_to_set ids : gset Z)) = span_size ids <-> NoDup ids.
Proof.
  unfold span_size. split.
  - induction ids as [| x ids IH]; [constructor |]. intros E%Nat2Z.inj. cbn [list_to_set length] in E.
    pose proof (size_list_to_set_le ids) as Hle.
    destruct (decide (x ∈ ids)) as [Hin | Hin].
    + rewrite (subseteq_union_1_L {[x]}) in E by (apply singleton_subseteq_l; by apply elem_of_list_to_set). lia.
    + rewrite size_union in E by (apply disjoint_singleton_l; by rewrite elem_of_list_to_set).
      rewrite size_singleton in E. constructor; [done |]. apply IH. lia.
  - intros H. f_equal. by apply size_list_to_set.
Qed.

(** The sum of a counter without wrap-around. *)
Definition exact_sum (f : ConsumerMetrics -> Z) (metrics : list ConsumerMetrics) : Z :=
  foldr (fun m acc => f m + acc) 0 metrics.

Lemma exact_sum_nonneg f metrics : Forall (fun m => 0 <= f m) metrics -> 0 <= exact_sum f metrics.
Proof. induction 1; simpl; lia. Qed.

Lemma sum_u64_exact f metrics : sum_u64 f metrics = u64 (exact_sum f metrics).
Proof.
  assert (H : forall acc, foldl (fun acc m => acc +u f m) (u64 acc) metrics = u64 (acc + exact_sum f metrics)).
  { induction metrics as [| m metrics IH]; intros acc; simpl; [by rewrite Z.add_0_r |].
    rewrite u64_add_l, IH. u64_eq. }
  unfold sum_u64. change 0 with (u64 0) at 1. by rewrite H.
Qed.

Lemma exact_sum_zero f metrics :
  Forall (fun m => 0 <= f m) metrics ->
  (exact_sum f metrics = 0 <-> Forall (fun m => f m = 0) metrics).
Proof.
  induction 1 as [| m metrics Hm Hms IH]; [split; constructor |]. cbn [exact_sum foldr].
  pose proof (exact_sum_nonneg f metrics Hms). fold (exact_sum f metrics). rewrite Forall_cons, <- IH. lia.
Qed.

(** The counters of a run are far from wrapping around. *)
Definition counters_fit (metrics : list ConsumerMetrics) (published_ids : list Z) (producer_errors : Z) : Prop :=
  Forall (fun m => 0 <= reads m /\ 0 <= validation_errors m) metrics /\ 0 <= producer_errors /\
  span_size published_ids < u64_modulus /\ exact_sum reads metrics < u64_modulus /\
  exact_sum validation_errors metrics + producer_errors + span_size (collect_payload_ids metrics) + 1 < u64_modulus.

Lemma make_result_errors published published_ids metrics producer_errors :
  counters_fit metrics published_ids producer_errors ->
  let observed := collect_payload_ids metrics in
  let v := make_result published published_ids metrics producer_errors true in
  aggregate_reads v = exact_sum reads metrics /\
  total_validation_errors v =
    exact_sum validation_errors metrics + producer_errors +
    (span_size observed - Z.of_nat (base.size (list_to_set observed : gset Z))) +
    (if (exact_sum reads metrics =? published) &&
        (Z.of_nat (base.size (list_to_set observed : gset Z)) =? published) &&
        (span_size published_ids =? published) && has_same_ids observed published_ids then 0 else 1).
Proof.
  intros (Hm & Hp & Hids & Hr & He) observed. pose proof (span_size_nonneg observed) as Ho.
  fold observed in He. pose proof (size_list_to_set_le observed) as Hle.
  assert (Hv0 : 0 <= exact_sum validation_errors metrics).
  { apply exact_sum_nonneg. eapply Forall_impl; [exact Hm |]. simpl. tauto. }
  assert (Hr0 : 0 <= exact_sum reads metrics).
  { apply exact_sum_nonneg. eapply Forall_impl; [exact Hm |]. simpl. tauto. }
  unfold make_result. fold observed. rewrite (count_unique_ids_spec observed) by lia.
  rewrite !sum_u64_exact, (u64_small (exact_sum reads metrics)), (u64_small (exact_sum validation_errors metrics)) by lia.
  cbn [aggregate_reads total_validation_errors]. split; [done |]. unfold span_size in *.
  rewrite !(u64_small (exact_sum validation_errors metrics + _)) by lia.
  rewrite <- !negb_andb. destruct (_ && has_same_ids observed published_ids); cbn [negb];
    rewrite ?u64_add_l, u64_small; lia.
Qed.

(** ** Theorems *)

(** C25: a run that requires complete work sharing reports no validation error
    exactly when no consumer and no producer counted one, every published
    identifier was observed exactly once and nothing else was, and the counts of
    publications, of reads and of published identifiers agree. *)
Theorem benchmark_verdict_exactly_once published published_ids metrics producer_errors :
  counters_fit metrics published_ids producer_errors ->
  let v := make_result published published_ids metrics producer_errors true in
  total_validation_errors v = 0 <->
  Forall (fun m => validation_errors m = 0) metrics /\ producer_errors = 0 /\
  NoDup published_ids /\ collect_payload_ids metrics ≡ₚ published_ids /\
  published = span_size published_ids /\ aggregate_reads v = published.
Proof.
  intros Hfit v. destruct (make_result_errors published published_ids metrics producer_errors Hfit) as [Ea Ee].
  fold v in Ea, Ee. rewrite Ea, Ee. set (observed := collect_payload_ids metrics) in *.
  pose proof (size_list_to_set_le observed) as Hle. destruct Hfit as (Hm & Hp & _).
  assert (Hm' : Forall (fun m => 0 <= validation_errors m) metrics).
  { eapply Forall_impl; [exact Hm |]. simpl. tauto. }
  pose proof (exact_sum_nonneg _ _ Hm'). rewrite <- (exact_sum_zero _ _ Hm'), <- has_same_ids_spec.
  pose proof (unique_ids_NoDup observed) as Hnd. split.
  - intros E. unfold span_size in *. destruct (_ && has_same_ids observed published_ids) eqn:Eb; [| lia].
    apply andb_true_iff in Eb as [Eb Hsame]. reflect_bools. split; [lia |]. split; [lia |].
    split; [| split; [done |]; lia]. apply has_same_ids_spec in Hsame. rewrite <- Hsame. apply Hnd. lia.
  - intros (E1 & -> & Hdup & Hsame & Hpub & Hread). rewrite Hsame, <- Hpub, Hread, E1, !Z.eqb_refl, andb_true_r.
    apply has_same_ids_spec in Hsame.
    assert (Hlen : span_size observed = span_size published_ids) by (unfold span_size; by rewrite Hsame).
    rewrite <- Hsame in Hdup. apply Hnd in Hdup. rewrite Hdup, Hlen, <- Hpub, Z.eqb_refl. simpl. lia.
Qed.

(** The [--consumers] list: whatever the text, an accepted list is not empty,
    strictly increasing and within 1 to 64; and such a list, written with commas
    between its values, is read back unchanged. *)
Theorem consumers_list_roundtrip :
  (forall text vs, parse_consumers text = Value vs ->
     vs <> [] /\ StronglySorted Z.lt vs /\ Forall count_ok vs) /\
  (forall vs, vs <> [] -> StronglySorted Z.lt vs -> Forall count_ok vs ->
     parse_consumers (print_list vs) = Value vs).
Proof.
  split; [exact parse_consumers_ok |]. intros vs Hne Hs Hok. pose proof (parse_print_list vs [] Hne Hok) as E.
  unfold parse_consumers. unfold streq.
  rewrite !bool_decide_eq_false_2; [| by intros Et; rewrite Et in E..].
  destruct vs as [| v vs]; [done |]. inversion Hok as [| ? ? Hv _]; subst.
  pose proof (print_list_nonempty v vs Hv) as Hp. destruct (print_list (v :: vs)); [done |].
  rewrite E. cbn [orb mbind outcome_bind]. apply throw_if_value.
  split; [by apply bool_decide_eq_false |]. by rewrite app_nil_l, sort_values_id, unique_id.
Qed.

(** The scenarios of an accepted command line are never empty and every one
    can be run: between 1 and 64 producers and consumers, one of each for the SPSC
    queues, one producer for the multicast queues, a baseline only if it was found
    at build time, and a capacity that [MPMCQueue]'s constructor accepts. *)
Theorem benchmark_scenarios_runnable have args c ss :
  parse_config args = Value c -> scenarios_for have c = Value ss ->
  ss <> [] /\ Forall (scenario_ok have c) ss /\
  forall s, s ∈ ss -> kind s = line64_mpmc -> exists q, MPMCQueue_new max_payload_size (capacity c) = returns q.
Proof.
  intros Hc%benchmark_parse_config_ok [Hne Hok]%(scenarios_for_ok have c Hc). split; [done |]. split; [done |].
  intros s Hin Hk. rewrite Forall_forall in Hok. destruct (so_ring have c s (Hok s Hin)) as (k & Hb & E).
  { rewrite Hk. by_decision. }
  assert (Hv : MPMCQueue.validate_capacity (capacity c) = returns (capacity c)).
  { apply validate_capacity_iff; [| exists k; split; [lia | done]].
    apply (u64_bound _ 1000000); [| done]. pose proof (co_capacity c Hc). lia. }
  unfold MPMCQueue_new. rewrite Hv. unfold returns. eauto.
Qed.

(** For an accepted command line with scenarios, the benchmark exits with
    success exactly when the warm-up (if any) and every trial of every scenario
    reported no validation error. *)
Theorem benchmark_exit_status have errors args c ss :
  parse_config args = Value c -> scenarios_for have c = Value ss ->
  (main_exit have errors args = EXIT_SUCCESS <->
   forall i, (i < length ss)%nat -> scenario_valid c errors i).
Proof.
  intros Ec Es. pose proof (benchmark_parse_config_ok _ _ Ec) as Hc.
  destruct (scenarios_for_ok have c Hc ss Es) as [_ Hok].
  assert (Hb : Forall (fun s => built have (kind s)) ss).
  { eapply Forall_impl; [exact Hok |]. intros s Hs. exact (so_built have c s Hs). }
  destruct (run_all_spec have errors c ss 0 true Hb) as (b & Eb & Hiff).
  unfold main_exit. rewrite Ec. cbn [mbind outcome_bind]. rewrite Es. cbn [mbind outcome_bind]. rewrite Eb.
  simpl in Hiff. destruct b; split; try done; [intros _; by apply Hiff |].
  intros H. discriminate (proj2 Hiff (conj eq_refl H)).
Qed.

(** ** Witnesses *)

Definition sample_args : list string :=
  ["--queue"; "mpmc"; "--consumers"; "2,1"; "--capacity"; "8"; "--warmup-ms"; "0"; "--trials"; "2"].

Definition sample_have : baselines := mkBaselines false false false false false.

Definition sample_config : Config := mkConfig 250 0 2 8 64 1 [1; 2] "mpmc" false true.

Definition sample_scenarios : list Scenario :=
  [mkScenario line64_mpmc "Line64::MPMCQueue" "mpmc_work_sharing" "exclusive_pop" 1 1
     "Line64 mutex-free bounded sequence-cell MPMC";
   mkScenario line64_mpmc "Line64::MPMCQueue" "mpmc_work_sharing" "exclusive_pop" 1 2
     "Line64 mutex-free bounded sequence-cell MPMC"].

Lemma benchmark_verdict_exactly_once_witness :
  total_validation_errors
    (make_result 3 [1; 2; 3] [mkMetrics 2 0 0 0 0 [3; 1] (mkTracker []); mkMetrics 1 0 5 0 0 [2] (mkTracker [])] 0 true) = 0.
Proof.
  apply (benchmark_verdict_exactly_once 3 [1; 2; 3]).
  - split; [repeat constructor; simpl; lia |]. split; [lia |]. repeat split; vm_compute; reflexivity.
  - split; [repeat constructor |]. split; [done |]. split; [apply (bool_decide_unpack _); vm_compute; exact I |].
    split; [apply has_same_ids_spec; vm_compute; reflexivity |]. split; reflexivity.
Defined.

Lemma benchmark_scenarios_runnable_witness : exists q, MPMCQueue_new max_payload_size 8 = returns q.
Proof.
  destruct (benchmark_scenarios_runnable sample_have sample_args sample_config sample_scenarios) as (_ & _ & H);
    [vm_compute; reflexivity | vm_compute; reflexivity |].
  eapply H; [left | reflexivity].
Defined.

Lemma benchmark_exit_status_witness :
  main_exit sample_have (fun _ _ => 0) sample_args = EXIT_SUCCESS.
Proof.
  apply (benchmark_exit_status sample_have (fun _ _ => 0) sample_args sample_config sample_scenarios);
    [vm_compute; reflexivity | vm_compute; reflexivity |].
  intros i _. split; [intros _; reflexivity | intros t _; reflexivity].
Defined.
