(* ===== verification/Doubles.v ===== *)
(** * Doubles

    What the benchmark uses of [double]: conversion from an unsigned integer,
    division, and [operator<<] with [std::setprecision(12)].  Values are those of
    [SpecFloat] with the precision and the exponents of binary64; printing is that of
    the conversion [%.12g]: the exact value rounded to twelve decimal digits, ties to
    even, in fixed notation when the decimal exponent is from -4 to 11 and in
    scientific notation otherwise, without trailing zeros.

    Lemmas: the decimal exponent found is the right one, twelve digits are printed and
    the first is not zero; so what is printed for a finite value is a number of the
    JSON grammar ([json_number]). *)

From Stdlib Require Import Ascii SpecFloat.
From stdpp Require Import pretty.
From S2P Require Import Prelude CommandLine.

Definition double : Type := spec_float.

(** [static_cast<double>(n)] and [x / y] *)
Definition double_of (n : Z) : double := binary_normalize 53 1024 n 0 false.
Definition double_div (x y : double) : double := SFdiv 53 1024 x y.

Definition finite (x : double) : bool :=
  match x with S754_zero _ | S754_finite _ _ _ => true | _ => false end.

(** ** Decimal exponents *)

(** The largest [k] with [10 ^ k * d <= n], for [d <= n]. *)
Fixpoint exponent_up (fuel : nat) (n d : Z) : nat :=
  match fuel with
  | O => 0
  | S fuel => if 10 * d <=? n then S (exponent_up fuel n (10 * d)) else 0
  end.

(** The smallest [k] with [d <= 10 ^ k * n]. *)
Fixpoint exponent_down (fuel : nat) (n d : Z) : nat :=
  match fuel with
  | O => 0
  | S fuel => if d <=? n then 0 else S (exponent_down fuel (10 * n) d)
  end.

(** The [X] with [10 ^ X <= n / d < 10 ^ (X + 1)]. *)
Definition decimal_exponent (n d : Z) : Z :=
  if d <=? n then Z.of_nat (exponent_up (S (Z.to_nat (Z.log2 n))) n d)
  else - Z.of_nat (exponent_down (S (Z.to_nat (Z.log2 d))) n d).

(** ** Rounding to twelve digits *)

Definition round_half_even (n d : Z) : Z :=
  let q := n / d in
  let r := n mod d in
  if (2 * r <? d) || ((2 * r =? d) && Z.even q) then q else q + 1.

(** Digits and exponent of [n / d]. *)
Definition twelve_digits (n d : Z) : Z * Z :=
  let x := decimal_exponent n d in
  let digits := round_half_even (n * 10 ^ Z.max (11 - x) 0) (d * 10 ^ Z.max (x - 11) 0) in
  if digits =? 10 ^ 12 then (10 ^ 11, x + 1) else (digits, x).

(** ** Text *)

Fixpoint zeros (n : nat) : string := match n with O => "" | S n => String "0" (zeros n) end.

(** The last digits of a text without the zeros at its end. *)
Fixpoint strip_zeros (s : string) : string :=
  match s with
  | EmptyString => ""
  | String c s => let s := strip_zeros s in if Ascii.eqb c "0" && streq s "" then "" else String c s
  end.

Fixpoint str_take (n : nat) (s : string) : string :=
  match n, s with S n, String c s => String c (str_take n s) | _, _ => "" end.

Fixpoint str_drop (n : nat) (s : string) : string :=
  match n, s with S n, String _ s => str_drop n s | _, _ => s end.

Definition with_fraction (whole fraction : string) : string :=
  let fraction := strip_zeros fraction in
  if streq fraction "" then whole else whole +:+ "." +:+ fraction.

(** At least two digits, with a sign. *)
Definition print_exponent (x : Z) : string :=
  "e" +:+ (if x <? 0 then "-" else "+") +:+ (if Z.abs x <? 10 then "0" else "") +:+ print_unsigned (Z.abs x).

Definition print_digits (digits x : Z) : string :=
  let text := print_unsigned digits in
  if (x <? -4) || (11 <? x) then with_fraction (str_take 1 text) (str_drop 1 text) +:+ print_exponent x
  else if x <? 0 then with_fraction "0" (zeros (Z.to_nat (- x - 1)) +:+ text)
  else with_fraction (str_take (S (Z.to_nat x)) text) (str_drop (S (Z.to_nat x)) text).

(** [output << std::setprecision(12) << x] *)
Definition print_double (x : double) : string :=
  let sign s := if s : bool then "-" else "" in
  match x with
  | S754_zero s => sign s +:+ "0"
  | S754_infinity s => sign s +:+ "inf"
  | S754_nan => "nan"
  | S754_finite s m e =>
      let '(digits, x) := twelve_digits (Z.pos m * 2 ^ Z.max e 0) (2 ^ Z.max (- e) 0) in
      sign s +:+ print_digits digits x
  end.

Example print_quarter : print_double (double_div (double_of 250) (double_of 1000)) = "0.25".
Proof. vm_compute. reflexivity. Qed.

Example print_third : print_double (double_div (double_of 1000000) (double_of 3)) = "333333.333333".
Proof. vm_compute. reflexivity. Qed.

Example print_large : print_double (double_of (2 ^ 64 - 1)) = "1.84467440737e+19".
Proof. vm_compute. reflexivity. Qed.

Example print_small : print_double (double_div (double_of 1) (double_of 30000)) = "3.33333333333e-05".
Proof. vm_compute. reflexivity. Qed.

(** ** The grammar of JSON numbers *)

Definition is_digit (c : ascii) : bool := match digit_value c with Some _ => true | None => false end.

Fixpoint skip_digits (s : string) : string :=
  match s with String c s' => if is_digit c then skip_digits s' else s | EmptyString => "" end.

(** [exp]: nothing, or an exponent with at least one digit. *)
Definition exponent_ok (s : string) : bool :=
  match s with
  | EmptyString => true
  | String e s =>
      (Ascii.eqb e "e" || Ascii.eqb e "E") &&
      match s with
      | String c s' =>
          let s := if Ascii.eqb c "+" || Ascii.eqb c "-" then s' else s in
          match s with String c s => is_digit c && streq (skip_digits s) "" | EmptyString => false end
      | EmptyString => false
      end
  end.

(** [frac exp] *)
Definition fraction_ok (s : string) : bool :=
  match s with
  | String p s' =>
      if Ascii.eqb p "." then
        match s' with String c s => is_digit c && exponent_ok (skip_digits s) | EmptyString => false end
      else exponent_ok s
  | EmptyString => true
  end.

(** [int frac exp]: no leading zero. *)
Definition unsigned_ok (s : string) : bool :=
  match s with
  | String c s => is_digit c && fraction_ok (if Ascii.eqb c "0" then s else skip_digits s)
  | EmptyString => false
  end.

Definition json_number (s : string) : bool :=
  match s with String c s' => if Ascii.eqb c "-" then unsigned_ok s' else unsigned_ok s | EmptyString => false end.

(** ** Exponents and digits are right *)

Lemma exponent_up_spec fuel : forall n d,
  0 < d <= n -> n < 10 ^ Z.of_nat fuel * d ->
  10 ^ Z.of_nat (exponent_up fuel n d) * d <= n < 10 ^ (Z.of_nat (exponent_up fuel n d) + 1) * d.
Proof.
  induction fuel as [| fuel IH]; intros n d Hd Hf; cbn [exponent_up]; [simpl in Hf; lia |].
  destruct (Z.leb_spec (10 * d) n); [| change (10 ^ (Z.of_nat 0 + 1)) with 10; change (10 ^ Z.of_nat 0) with 1; lia].
  rewrite Nat2Z.inj_succ, Z.pow_succ_r in Hf by lia. specialize (IH n (10 * d) ltac:(lia) ltac:(lia)).
  rewrite Nat2Z.inj_succ. set (k := Z.of_nat (exponent_up fuel n (10 * d))) in *. unfold Z.succ. rewrite !Z.pow_add_r in * by lia. change (10 ^ 1) with 10 in *. lia.
Qed.

Lemma exponent_down_spec fuel : forall n d,
  0 < n -> d <= 10 ^ Z.of_nat fuel * n ->
  let k := Z.of_nat (exponent_down fuel n d) in
  d <= 10 ^ k * n /\ (0 < k -> 10 ^ (k - 1) * n < d).
Proof.
  induction fuel as [| fuel IH]; intros n d Hn Hf k; unfold k; clear k; cbn [exponent_down];
    [change (10 ^ Z.of_nat 0) with 1 in *; lia |].
  destruct (Z.leb_spec d n); [simpl; lia |]. rewrite Nat2Z.inj_succ, Z.pow_succ_r in Hf by lia.
  destruct (IH (10 * n) d ltac:(lia) ltac:(lia)) as [H1 H2]. rewrite Nat2Z.inj_succ. set (k := Z.of_nat (exponent_down fuel (10 * n) d)) in *.
  unfold Z.succ. rewrite Z.pow_add_r by lia. change (10 ^ 1) with 10. split; [lia |]. intros _. replace (k + 1 - 1) with k by lia.
  destruct (Z.eq_dec k 0) as [-> |]; [simpl; lia |]. specialize (H2 ltac:(lia)).
  replace k with (k - 1 + 1) by lia. rewrite Z.pow_add_r by lia. change (10 ^ 1) with 10. lia.
Qed.

Lemma pow2_lt_pow10 x : 0 < x -> x < 10 ^ Z.of_nat (S (Z.to_nat (Z.log2 x))).
Proof.
  intros Hx. pose proof (Z.log2_spec x Hx) as [_ H]. pose proof (Z.log2_nonneg x).
  rewrite Nat2Z.inj_succ, Z2Nat.id by lia. eapply Z.lt_le_trans; [exact H |]. apply Z.pow_le_mono_l. lia.
Qed.

(** [10 ^ x <= n / d < 10 ^ (x + 1)], without negative exponents. *)
Lemma decimal_exponent_spec n d :
  0 < n -> 0 < d ->
  let x := decimal_exponent n d in
  d * 10 ^ Z.max x 0 <= n * 10 ^ Z.max (- x) 0 /\ n * 10 ^ Z.max (- (x + 1)) 0 < d * 10 ^ Z.max (x + 1) 0.
Proof.
  intros Hn Hd x. unfold x, decimal_exponent. clear x. destruct (Z.leb_spec d n) as [Hle | Hlt].
  - destruct (exponent_up_spec (S (Z.to_nat (Z.log2 n))) n d) as [H1 H2]; [lia | pose proof (pow2_lt_pow10 n Hn); nia |].
    set (k := Z.of_nat (exponent_up _ n d)) in *. rewrite (Z.max_l k), (Z.max_r (- k)), (Z.max_l (k + 1)), (Z.max_r (- (k + 1))) by lia.
    change (10 ^ 0) with 1. lia.
  - destruct (exponent_down_spec (S (Z.to_nat (Z.log2 d))) n d Hn) as [H1 H2]; [pose proof (pow2_lt_pow10 d Hd); nia |].
    set (k := Z.of_nat (exponent_down _ n d)) in *. assert (0 < k) by (destruct (Z.eq_dec k 0) as [E |]; [rewrite E in H1; simpl in H1; lia | lia]).
    specialize (H2 ltac:(lia)). rewrite (Z.max_r (- k)), (Z.max_l (- - k)), (Z.max_r (- k + 1)), (Z.max_l (- (- k + 1))) by lia.
    replace (- - k) with k by lia. replace (- (- k + 1)) with (k - 1) by lia. change (10 ^ 0) with 1. lia.
Qed.

Lemma round_half_even_bounds n d : 0 < d -> 0 <= n -> n / d <= round_half_even n d <= n / d + 1.
Proof. intros Hd Hn. unfold round_half_even. destruct (_ || _); lia. Qed.

(** The value with its decimal point after the twelfth digit is a twelve-digit number
    and a fraction. *)
Lemma scaled_range n d :
  0 < n -> 0 < d ->
  let x := decimal_exponent n d in
  let a := n * 10 ^ Z.max (11 - x) 0 in
  let b := d * 10 ^ Z.max (x - 11) 0 in
  0 < b /\ 10 ^ 11 * b <= a < 10 ^ 12 * b.
Proof.
  intros Hn Hd x a b. destruct (decimal_exponent_spec n d Hn Hd) as [H1 H2]. fold x in H1, H2.
  split; [unfold b; pose proof (Z.pow_pos_nonneg 10 (Z.max (x - 11) 0)); nia |].
  unfold a, b. destruct (Z.le_gt_cases 11 x) as [Hx | Hx].
  - rewrite (Z.max_l (x - 11)), (Z.max_r (11 - x)) by lia. rewrite (Z.max_l x), (Z.max_r (- x)) in H1 by lia.
    rewrite (Z.max_l (x + 1)), (Z.max_r (- (x + 1))) in H2 by lia.
    replace (10 ^ x) with (10 ^ (x - 11) * 10 ^ 11) in H1 by (rewrite <- Z.pow_add_r by lia; f_equal; lia).
    replace (10 ^ (x + 1)) with (10 ^ (x - 11) * 10 ^ 12) in H2 by (rewrite <- Z.pow_add_r by lia; f_equal; lia).
    change (10 ^ 0) with 1 in *. lia.
  - rewrite (Z.max_r (x - 11)), (Z.max_l (11 - x)) by lia. change (10 ^ 0) with 1.
    assert (E1 : 10 ^ 11 * 10 ^ Z.max (- x) 0 = 10 ^ Z.max x 0 * 10 ^ (11 - x)).
    { rewrite <- !Z.pow_add_r by lia. f_equal. lia. }
    assert (E2 : 10 ^ 12 * 10 ^ Z.max (- (x + 1)) 0 = 10 ^ Z.max (x + 1) 0 * 10 ^ (11 - x)).
    { rewrite <- !Z.pow_add_r by lia. f_equal. lia. }
    pose proof (Z.pow_pos_nonneg 10 (11 - x) ltac:(lia) ltac:(lia)).
    pose proof (Z.pow_pos_nonneg 10 (Z.max x 0) ltac:(lia) ltac:(lia)).
    pose proof (Z.pow_pos_nonneg 10 (Z.max (x + 1) 0) ltac:(lia) ltac:(lia)). nia.
Qed.

(** Twelve digits, the first of them not zero. *)
Lemma twelve_digits_range n d :
  0 < n -> 0 < d -> 10 ^ 11 <= (twelve_digits n d).1 < 10 ^ 12.
Proof.
  intros Hn Hd. destruct (scaled_range n d Hn Hd) as (Hb & Hlo & Hhi). unfold twelve_digits.
  set (a := n * _) in *. set (b := d * _) in *. pose proof (round_half_even_bounds a b Hb ltac:(lia)) as Hr.
  assert (10 ^ 11 <= a / b) by (apply Z.div_le_lower_bound; lia).
  assert (a / b < 10 ^ 12) by (apply Z.div_lt_upper_bound; lia).
  destruct (Z.eqb_spec (round_half_even a b) (10 ^ 12)); cbn [fst]; lia.
Qed.

(** ** What is printed is a number of the grammar *)

Lemma all_digits_app s1 s2 : all_digits (s1 +:+ s2) = all_digits s1 && all_digits s2.
Proof. induction s1 as [| c s1 IH]; [done |]. rewrite str_app_cons. cbn. by destruct (digit_value c). Qed.

Lemma pretty_go_head x : forall s, (0 < x)%N ->
  exists c r, pretty_N_go x s = String c (r +:+ s) /\ is_digit c = true /\ c <> "0"%char /\ all_digits r = true.
Proof.
  induction (N.lt_wf_0 x) as [x _ IH]. intros s Hx. rewrite pretty_N_go_step by done.
  pose proof (N.mod_lt x 10 ltac:(lia)) as Hm.
  pose proof (digit_value_pretty (x `mod` 10) Hm) as Hc. set (c := pretty_N_char (x `mod` 10)) in *. clearbody c.
  destruct (decide (0 < x `div` 10)%N) as [Hd | Hd].
  - destruct (IH (x `div` 10)%N (N.div_lt x 10 Hx eq_refl) (String c s) Hd) as (c' & r & -> & H1 & H2 & H3).
    exists c', (r +:+ String c ""). rewrite str_app_assoc. split_and!; try done.
    rewrite all_digits_app, H3. cbn [all_digits andb]. by rewrite Hc.
  - assert (Hz : (x `div` 10 = 0)%N) by (apply N.le_0_r, N.nlt_ge; exact Hd). rewrite Hz, pretty_N_go_0. exists c, "".
    split_and!; [done | unfold is_digit; by rewrite Hc | | done].
    intros E. rewrite E in Hc. change (Some 0 = Some (Z.of_N (x `mod` 10))) in Hc. injection Hc as Hc.
    pose proof (N.div_mod x 10 ltac:(lia)). lia.
Qed.

Lemma print_unsigned_head v :
  0 < v -> exists c r, print_unsigned v = String c r /\ is_digit c = true /\ c <> "0"%char /\ all_digits r = true.
Proof.
  intros Hv. unfold print_unsigned, pretty, pretty_N. destruct (decide _); [lia |].
  destruct (pretty_go_head (Z.to_N v) "") as (c & r & -> & H1 & H2 & H3); [lia |].
  exists c, r. by rewrite str_app_nil_r.
Qed.

Lemma skip_digits_app s1 s2 : all_digits s1 = true -> skip_digits (s1 +:+ s2) = skip_digits s2.
Proof.
  induction s1 as [| c s1 IH]; [done |]. rewrite str_app_cons. cbn. unfold is_digit. destruct (digit_value c); [done | done].
Qed.

Lemma skip_digits_all s : all_digits s = true -> skip_digits s = "".
Proof. intros H. rewrite <- (str_app_nil_r s), skip_digits_app by done. done. Qed.

Lemma all_digits_take n s : all_digits s = true -> all_digits (str_take n s) = true.
Proof. revert s. induction n as [| n IH]; intros [| c s]; cbn; try done. destruct (digit_value c); [apply IH | done]. Qed.

Lemma all_digits_drop n s : all_digits s = true -> all_digits (str_drop n s) = true.
Proof. revert s. induction n as [| n IH]; intros [| c s]; cbn; try done. destruct (digit_value c); [apply IH | done]. Qed.

Lemma all_digits_strip s : all_digits s = true -> all_digits (strip_zeros s) = true.
Proof.
  induction s as [| c s IH]; [done |]. cbn. destruct (digit_value c) eqn:E; [| done]. intros H.
  destruct (_ && _); [done |]. cbn. rewrite E. by apply IH.
Qed.

Lemma all_digits_zeros n : all_digits (zeros n) = true.
Proof. induction n as [| n IH]; [done |]. by cbn. Qed.

(** What may follow the digits: nothing, or an exponent. *)
Definition tail_ok (s : string) : Prop := s = "" \/ exists x, s = print_exponent x.

Lemma exponent_ok_digits c s : is_digit c = true -> all_digits s = true -> forall sign, sign = "+"%char \/ sign = "-"%char ->
  exponent_ok (String "e" (String sign (String c s))) = true.
Proof. intros Hc Hs sign [-> | ->]; cbn; rewrite Hc, skip_digits_all by done; done. Qed.

Lemma digit_string s : all_digits s = true -> s <> "" -> exists c r, s = String c r /\ is_digit c = true /\ all_digits r = true.
Proof.
  destruct s as [| c s]; [done |]. cbn. unfold is_digit. destruct (digit_value c) eqn:E; [| done].
  intros H _. exists c, s. by rewrite E.
Qed.

Lemma tail_ok_exponent s : tail_ok s -> exponent_ok s = true /\ skip_digits s = s.
Proof.
  intros [-> | [x ->]]; [done |].
  assert (Hd : exists c r, (if Z.abs x <? 10 then "0" else "") +:+ print_unsigned (Z.abs x) = String c r /\
    is_digit c = true /\ all_digits r = true).
  { destruct (Z.eq_dec (Z.abs x) 0) as [-> |]; [by exists "0"%char, "0" |].
    destruct (print_unsigned_head (Z.abs x)) as (c & r & -> & H1 & _ & H2); [lia |].
    apply digit_string; [| by destruct (_ <? _)]. rewrite all_digits_app. cbn. unfold is_digit in H1.
    destruct (digit_value c); [| done]. rewrite H2. by destruct (_ <? _). }
  destruct Hd as (c & r & E & Hc & Hr). unfold print_exponent. rewrite E.
  split; [| by destruct (x <? 0)]. destruct (x <? 0); apply exponent_ok_digits; auto.
Qed.

Lemma fraction_ok_tail s : tail_ok s -> fraction_ok s = true.
Proof.
  intros H. destruct (tail_ok_exponent s H) as [He _]. destruct H as [-> | [x ->]]; [done |]. exact He.
Qed.

Lemma with_fraction_ok c w f tail :
  is_digit c = true -> (c = "0"%char -> w = "") -> all_digits w = true -> all_digits f = true -> tail_ok tail ->
  unsigned_ok (with_fraction (String c w) f +:+ tail) = true.
Proof.
  intros Hc H0 Hw Hf Ht. destruct (tail_ok_exponent tail Ht) as [He Hs]. apply all_digits_strip in Hf.
  assert (Hskip : forall t, skip_digits t = t -> fraction_ok t = true -> unsigned_ok (String c (w +:+ t)) = true).
  { intros t Hst Hft. cbn. rewrite Hc. destruct (Ascii.eqb_spec c "0") as [E | E]; [by rewrite (H0 E) |].
    by rewrite skip_digits_app, Hst by done. }
  unfold with_fraction. destruct (streq (strip_zeros f) "") eqn:E.
  - rewrite str_app_cons. apply Hskip; [done | by apply fraction_ok_tail].
  - destruct (digit_string (strip_zeros f) Hf) as (a & r & Ef & Ha & Hr).
    { intros E'. by rewrite E', streq_refl in E. }
    rewrite Ef, str_app_assoc, str_app_cons. apply Hskip; [done |].
    change (is_digit a && exponent_ok (skip_digits (r +:+ tail)) = true). by rewrite Ha, skip_digits_app, Hs.
Qed.

Lemma print_digits_ok digits x : 10 ^ 11 <= digits -> unsigned_ok (print_digits digits x) = true.
Proof.
  intros Hd. destruct (print_unsigned_head digits) as (c & r & E & Hc & H0 & Hr); [lia |].
  assert (Hall : all_digits (String c r) = true) by (cbn; unfold is_digit in Hc; by destruct (digit_value c)).
  unfold print_digits. rewrite E. destruct (_ || _).
  - cbn [str_take str_drop]. apply with_fraction_ok; try done. right. by exists x.
  - destruct (x <? 0).
    + rewrite <- (str_app_nil_r (with_fraction _ _)). apply with_fraction_ok; try done; [| by left].
      by rewrite all_digits_app, all_digits_zeros.
    + rewrite <- (str_app_nil_r (with_fraction _ _)). cbn [str_take str_drop].
      apply with_fraction_ok; try done; [by apply all_digits_take | by apply all_digits_drop | by left].
Qed.

Lemma unsigned_ok_number s : unsigned_ok s = true -> json_number s = true.
Proof. destruct s as [| c s]; [done |]. cbn [json_number]. destruct (Ascii.eqb_spec c "-") as [-> |]; done. Qed.

Lemma print_double_number x : finite x = true -> json_number (print_double x) = true.
Proof.
  destruct x as [s | s | | s m e]; try done; [by destruct s |]. intros _. cbn [print_double].
  pose proof (twelve_digits_range (Z.pos m * 2 ^ Z.max e 0) (2 ^ Z.max (- e) 0)) as H.
  pose proof (Z.pow_pos_nonneg 2 (Z.max e 0)). pose proof (Z.pow_pos_nonneg 2 (Z.max (- e) 0)).
  destruct (twelve_digits _ _) as [digits y]. specialize (H ltac:(lia) ltac:(lia)). cbn [fst] in H.
  pose proof (print_digits_ok digits y (proj1 H)) as Hok. destruct s; [exact Hok | by apply unsigned_ok_number].
Qed.

Lemma print_unsigned_number v : 0 <= v -> json_number (print_unsigned v) = true.
Proof.
  intros Hv. destruct (Z.eq_dec v 0) as [-> |]; [done |].
  destruct (print_unsigned_head v) as (c & r & -> & Hc & H0 & Hr); [lia |]. apply unsigned_ok_number. cbn.
  rewrite Hc, skip_digits_all by done. by destruct (Ascii.eqb_spec c "0").
Qed.

(** ** Quotients of integers of the program's range are finite *)

Lemma digits2_bounds p : 2 ^ (Z.pos (digits2_pos p) - 1) <= Z.pos p < 2 ^ Z.pos (digits2_pos p).
Proof.
  induction p as [p IH | p IH |]; cbn [digits2_pos]; [| | simpl; lia];
    rewrite Pos2Z.inj_succ; set (d := Z.pos (digits2_pos p)) in *;
    assert (E : Z.succ d - 1 = (d - 1) + 1) by lia; rewrite E, (Z.pow_succ_r 2 d), (Z.pow_add_r 2 (d - 1) 1) by lia;
    change (2 ^ 1) with 2; lia.
Qed.

Lemma shr_1_half mrs : 0 <= shr_m mrs -> shr_m (shr_1 mrs) = shr_m mrs / 2.
Proof. rewrite <- Z.div2_div. destruct mrs as [[| [p | p |] | p] r s]; cbn [shr_m shr_1]; intros H; try done; lia. Qed.

Lemma iter_shr p : forall mrs, 0 <= shr_m mrs -> shr_m (SpecFloat.iter_pos shr_1 p mrs) = shr_m mrs / 2 ^ Z.pos p.
Proof.
  assert (Hpos : forall x q, 0 <= x -> 0 <= x / 2 ^ Z.pos q) by (intros; apply Z.div_pos; lia).
  induction p as [p IH | p IH |]; intros mrs H; cbn [SpecFloat.iter_pos]; [| | by rewrite shr_1_half].
  - assert (H1 : 0 <= shr_m (shr_1 mrs)) by (rewrite shr_1_half by done; apply Z.div_pos; lia).
    rewrite IH, (IH (shr_1 mrs)), shr_1_half by (done || rewrite IH by done; by apply Hpos).
    rewrite !Z.div_div by lia. f_equal. replace (Z.pos p~1) with (1 + Z.pos p + Z.pos p) by lia.
    rewrite !Z.pow_add_r by lia. change (2 ^ 1) with 2. lia.
  - rewrite IH, (IH mrs) by (done || rewrite IH by done; by apply Hpos).
    rewrite Z.div_div by lia. f_equal. replace (Z.pos p~0) with (Z.pos p + Z.pos p) by lia. by rewrite Z.pow_add_r by lia.
Qed.

(** The bits beyond the fifty-third are shifted out. *)
Lemma shr_fexp_spec p e l :
  -1074 <= e ->
  let n := Z.max 0 (Z.pos (digits2_pos p) - 53) in
  shr_m (shr_fexp 53 1024 (Z.pos p) e l).1 = Z.pos p / 2 ^ n /\ (shr_fexp 53 1024 (Z.pos p) e l).2 = e + n.
Proof.
  intros He n. unfold shr_fexp, fexp, Zdigits2. change (emin 53 1024) with (-1074).
  assert (Hm : shr_m (shr_record_of_loc (Z.pos p) l) = Z.pos p) by (by destruct l as [| []]).
  set (d := Z.pos (digits2_pos p)) in *. destruct (Z.max (d + e - 53) (-1074) - e) as [| q | q] eqn:E; cbn [shr fst snd].
  - assert (n = 0) as -> by lia. rewrite Hm, Z.div_1_r. lia.
  - assert (n = Z.pos q) as -> by lia. rewrite iter_shr, Hm by lia. lia.
  - assert (n = 0) as -> by lia. rewrite Hm, Z.div_1_r. lia.
Qed.

Lemma shifted_bounds p :
  1 <= Z.pos p / 2 ^ Z.max 0 (Z.pos (digits2_pos p) - 53) < 2 ^ 53.
Proof.
  pose proof (digits2_bounds p) as [H1 H2]. set (d := Z.pos (digits2_pos p)) in *.
  destruct (Z.le_gt_cases d 53) as [Hd | Hd].
  - rewrite Z.max_l, Z.div_1_r by lia. pose proof (Z.pow_le_mono_r 2 d 53). lia.
  - rewrite Z.max_r by lia. split; [apply Z.div_le_lower_bound | apply Z.div_lt_upper_bound]; try lia.
    + rewrite Z.mul_1_r. etransitivity; [| exact H1]. apply Z.pow_le_mono_r; lia.
    + rewrite <- Z.pow_add_r by lia. by replace (d - 53 + 53) with d by lia.
Qed.

Lemma round_nearest_bounds m l : m <= round_nearest_even m l <= m + 1.
Proof. destruct l as [| []]; cbn [round_nearest_even]; try lia. destruct (Z.even m); lia. Qed.

(** Rounding gives a mantissa of at most fifty-three bits, does not leave the range, and
    is one of the two neighbours of the value with the last [n] bits cut off. *)
Lemma round_finite s p e l D :
  Z.pos p < 2 ^ D -> 53 <= D -> -1074 <= e -> e + D <= 900 ->
  exists m e' n, binary_round_aux 53 1024 s (Z.pos p) e l = S754_finite s m e' /\
    Z.pos m < 2 ^ 53 /\ e <= e' <= e + D - 52 /\
    0 <= n /\ e + n <= e' /\ Z.pos p / 2 ^ n <= Z.pos m * 2 ^ (e' - (e + n)) <= Z.pos p / 2 ^ n + 1 /\
    (2 ^ 52 <= Z.pos p -> 2 ^ 52 <= Z.pos p / 2 ^ n).
Proof.
  intros Hp HD He Hmax. unfold binary_round_aux. destruct (shr_fexp_spec p e l He) as [Hm1 He1].
  destruct (shr_fexp 53 1024 (Z.pos p) e l) as [mrs e1]. cbn [fst snd] in *. pose proof (shifted_bounds p) as Hq.
  pose proof (digits2_bounds p) as Hdp. set (n := Z.max 0 (Z.pos (digits2_pos p) - 53)) in *.
  rewrite Hm1. set (q := Z.pos p / _) in *. pose proof (round_nearest_bounds q (loc_of_shr_record mrs)) as Hr.
  assert (Hd : Z.pos (digits2_pos p) <= D).
  { assert (Z.pos (digits2_pos p) - 1 < D); [| lia]. apply (Z.pow_lt_mono_r_iff 2); lia. }
  assert (Hbig : 2 ^ 52 <= Z.pos p -> 2 ^ 52 <= q).
  { intros Hp52. unfold q, n. destruct (Z.le_gt_cases (Z.pos (digits2_pos p)) 53) as [H | H].
    - rewrite Z.max_l, Z.div_1_r by lia. done.
    - rewrite Z.max_r by lia. apply Z.div_le_lower_bound; [lia |]. rewrite <- Z.pow_add_r by lia.
      etransitivity; [| exact (proj1 Hdp)]. apply Z.pow_le_mono_r; lia. }
  destruct (round_nearest_even q _) as [| p2 | p2]; try lia.
  destruct (shr_fexp_spec p2 e1 loc_Exact ltac:(lia)) as [Hm2 He2].
  destruct (shr_fexp 53 1024 (Z.pos p2) e1 loc_Exact) as [mrs2 e2]. cbn [fst snd] in *. rewrite Hm2.
  pose proof (shifted_bounds p2) as Hq2. pose proof (digits2_bounds p2) as Hdp2.
  assert (Hd2 : Z.pos (digits2_pos p2) <= 54).
  { assert (Z.pos (digits2_pos p2) - 1 < 54); [| lia]. apply (Z.pow_lt_mono_r_iff 2); lia. }
  set (n2 := Z.max 0 (Z.pos (digits2_pos p2) - 53)) in *.
  assert (Hexact : Z.pos p2 / 2 ^ n2 * 2 ^ n2 = Z.pos p2).
  { unfold n2. destruct (Z.le_gt_cases (Z.pos (digits2_pos p2)) 53) as [H | H].
    - rewrite Z.max_l, Z.div_1_r by lia. lia.
    - assert (E : Z.pos (digits2_pos p2) = 54) by lia. rewrite E in *. change (54 - 1) with 53 in Hdp2.
      assert (Z.pos p2 = 2 ^ 53) as -> by lia. done. }
  set (q2 := Z.pos p2 / _) in *. destruct q2 as [| m | m]; try lia.
  destruct (Z.leb_spec e2 (1024 - 53)); [| lia]. exists m, e2, n. split; [done |].
  replace (e2 - (e + n)) with n2 by lia. rewrite Hexact. split_and!; (done || lia).
Qed.

(** Finite, not zero, with a moderate exponent. *)
Definition moderate (E : Z) (x : double) : Prop :=
  exists s m e, x = S754_finite s m e /\ Z.pos m < 2 ^ 53 /\ - E <= e <= E.

Lemma moderate_finite E x : moderate E x -> finite x = true.
Proof. by intros (s & m & e & -> & _). Qed.

Lemma shift_left_pos p d : Z.pos (Pos.iter xO p d) = Z.pos p * 2 ^ Z.pos d.
Proof.
  induction d as [| d IH] using Pos.peano_ind; [simpl; lia |].
  rewrite Pos.iter_succ, Pos2Z.inj_succ, Z.pow_succ_r by lia. lia.
Qed.

Lemma double_of_moderate n : 0 < n < u64_modulus -> moderate 60 (double_of n).
Proof.
  intros Hn. destruct n as [| p | p]; try lia. unfold double_of, binary_normalize, binary_round, fexp.
  change (emin 53 1024) with (-1074). pose proof (digits2_bounds p) as Hd. set (d := Z.pos (digits2_pos p)) in *.
  assert (Hd64 : d <= 64).
  { assert (d - 1 < 64); [| lia]. apply (Z.pow_lt_mono_r_iff 2); [lia | lia |]. unfold u64_modulus in Hn. lia. }
  rewrite Z.max_l by lia. unfold shl_align. destruct (d + 0 - 53 - 0) as [| k | k] eqn:E.
  - destruct (round_finite false p 0 loc_Exact 64) as (m & e & n0 & -> & Hm & He & _); [unfold u64_modulus in Hn; lia .. |].
    exists false, m, e. split_and!; (done || lia).
  - destruct (round_finite false p 0 loc_Exact 64) as (m & e & n0 & -> & Hm & He & _); [unfold u64_modulus in Hn; lia .. |].
    exists false, m, e. split_and!; (done || lia).
  - destruct (round_finite false (Pos.iter xO p k) (d + 0 - 53) loc_Exact 53) as (m & e & n0 & -> & Hm & He & _); try lia.
    { rewrite shift_left_pos. replace (2 ^ 53) with (2 ^ d * 2 ^ Z.pos k) by (rewrite <- Z.pow_add_r by lia; f_equal; lia). nia. }
    exists false, m, e. split_and!; (done || lia).
Qed.

Lemma div_core_spec mx ex my ey :
  Z.pos mx < 2 ^ 53 -> Z.pos my < 2 ^ 53 -> -300 <= ex <= 300 -> -300 <= ey <= 300 ->
  exists p e l, SFdiv_core_binary 53 1024 (Z.pos mx) ex (Z.pos my) ey = (Z.pos p, e, l) /\
    2 ^ 52 <= Z.pos p < 2 ^ 158 /\ ex - ey - 105 <= e <= ex - ey /\ Z.pos p = Z.pos mx * 2 ^ (ex - ey - e) / Z.pos my.
Proof.
  intros Hx Hy Hex Hey. unfold SFdiv_core_binary, fexp, Zdigits2. change (emin 53 1024) with (-1074).
  pose proof (digits2_bounds mx) as H1. pose proof (digits2_bounds my) as H2.
  set (d1 := Z.pos (digits2_pos mx)) in *. set (d2 := Z.pos (digits2_pos my)) in *.
  assert (d1 <= 53 /\ d2 <= 53).
  { split; [assert (d1 - 1 < 53) | assert (d2 - 1 < 53)]; try lia; apply (Z.pow_lt_mono_r_iff 2); lia. }
  assert (1 <= d1 /\ 1 <= d2) by (unfold d1, d2; lia). set (e := Z.min _ _).
  assert (He : e = ex - ey - (d2 - d1 + 53)) by (unfold e; lia). clearbody e.
  replace (ex - ey - e) with (d2 - d1 + 53) by lia. destruct (d2 - d1 + 53) as [| k | k] eqn:Ek; try lia.
  rewrite Z.shiftl_mul_pow2 by lia. set (a := Z.pos mx * 2 ^ Z.pos k).
  assert (Ha1 : Z.pos my * 2 ^ 52 <= a).
  { unfold a. transitivity (2 ^ (d1 - 1) * 2 ^ Z.pos k); [| nia]. rewrite <- Z.pow_add_r by lia.
    transitivity (2 ^ d2 * 2 ^ 52); [nia |]. rewrite <- Z.pow_add_r by lia. apply Z.pow_le_mono_r; lia. }
  assert (Ha2 : a < 2 ^ 158).
  { unfold a. replace (2 ^ 158) with (2 ^ 53 * 2 ^ 105) by (by rewrite <- Z.pow_add_r).
    pose proof (Z.pow_le_mono_r 2 (Z.pos k) 105). nia. }
  assert (Hq1 : 2 ^ 52 <= a / Z.pos my) by (apply Z.div_le_lower_bound; lia).
  assert (Hq2 : a / Z.pos my <= a) by (apply Z.div_le_upper_bound; nia).
  assert (Hdef : Z.pos mx * 2 ^ (ex - ey - e) = a) by (unfold a; f_equal; f_equal; lia). unfold Z.div in Hq1, Hq2.
  destruct (Z.div_eucl a (Z.pos my)) as [q r] eqn:Eq. destruct q as [| p | p]; try lia.
  eexists p, e, _. split; [done |]. split; [lia |]. split; [lia |]. rewrite Hdef. unfold Z.div. by rewrite Eq.
Qed.

Lemma double_div_moderate E x y : 0 <= E <= 300 -> moderate E x -> moderate E y -> moderate (2 * E + 110) (double_div x y).
Proof.
  intros HE (sx & mx & ex & -> & Hmx & Hex) (sy & my & ey & -> & Hmy & Hey). unfold double_div, SFdiv.
  destruct (div_core_spec mx ex my ey) as (p & e & l & -> & Hp & He & _); [lia .. |].
  destruct (round_finite (xorb sx sy) p e l 158) as (m & e' & n0 & -> & Hm & He' & _); [lia .. |].
  exists (xorb sx sy), m, e'. split_and!; (done || lia).
Qed.

Lemma moderate_mono E E' x : E <= E' -> moderate E x -> moderate E' x.
Proof. intros HE (s & m & e & -> & Hm & He). exists s, m, e. split_and!; (done || lia). Qed.
