(* ===== verification/DoubleValues.v ===== *)
(** * What the printed doubles stand for

    The rational value of a double, the relative error of the operations of [Doubles]
    (conversion, division, printing with twelve digits), and a reader of JSON numbers
    ([number_value]) written from their grammar.  Main lemma: what is printed for the
    quotient of two integers of the program, computed in doubles, is read back as a
    rational within [10 ^ -11] of the exact quotient ([rate_reads_close]). *)

From Stdlib Require Import Ascii SpecFloat QArith Qabs Qpower Lqa.
From stdpp Require Import pretty.
From S2P Require Import Prelude CommandLine Doubles.

#[local] Open Scope Z_scope.

Definition double_value (x : double) : Q :=
  match x with
  | S754_finite s m e => ((if s then -1 else 1) * inject_Z (Z.pos m) * 2 ^ e)%Q
  | _ => 0%Q
  end.

(** [x] is [y] up to a relative error of [eps]. *)
Definition close (eps x y : Q) : Prop := (y * (1 - eps) <= x /\ x <= y * (1 + eps))%Q.

#[export] Instance close_proper : Proper (Qeq ==> Qeq ==> Qeq ==> iff) close.
Proof. intros e e' He x x' Hx y y' Hy. unfold close. by rewrite He, Hx, Hy. Qed.

(** ** Rationals *)

Lemma pow2_pos e : (0 < 2 ^ e)%Q.
Proof. by apply Qpower_0_lt. Qed.

Lemma pow2_add a b : (2 ^ (a + b) == 2 ^ a * 2 ^ b)%Q.
Proof. by apply Qpower_plus. Qed.

Lemma inject_pow2 n : 0 <= n -> (inject_Z (2 ^ n) == 2 ^ n)%Q.
Proof. intros Hn. by rewrite Zpower_Qpower. Qed.

Lemma close_trans a b x y z :
  (0 <= a <= 1 -> 0 <= b <= 1 -> 0 <= z -> close a x y -> close b y z -> close (a + 2 * b) x z)%Q.
Proof. unfold close. intros Ha Hb Hz [H1 H2] [H3 H4]. split; nra. Qed.

Lemma Qmult_le_l' x y z : (0 <= z -> x <= y -> z * x <= z * y)%Q.
Proof. intros Hz H. nra. Qed.

Lemma close_div a b x y x0 y0 :
  (0 <= a -> 0 <= b -> a + 2 * b <= 1 -> b <= 1 # 4 -> 0 <= x0 -> 0 < y0 -> close a x x0 -> close b y y0 ->
   close (a + 2 * b) (x / y) (x0 / y0))%Q.
Proof.
  unfold close. intros Ha Hb Hab Hb4 Hx Hy [H1 H2] [H3 H4]. assert (Hyp : (0 < y)%Q) by nra.
  set (r := (x0 / y0)%Q). assert (Hr : (x0 == r * y0)%Q) by (unfold r; field; lra).
  assert (Hr0 : (0 <= r)%Q) by (unfold r; apply Qle_shift_div_l; lra). clearbody r. rewrite Hr in H1, H2. split.
  - apply Qle_shift_div_l; [done |]. assert (H5 : (r * (1 - (a + 2 * b)) * y <= r * (1 - (a + 2 * b)) * (y0 * (1 + b)))%Q).
    { apply Qmult_le_l'; [nra | done]. }
    assert (H6 : (0 <= r * y0)%Q) by nra. assert (H7 : ((1 - (a + 2 * b)) * (1 + b) <= 1 - a)%Q) by nra. nra.
  - apply Qle_shift_div_r; [done |]. assert (H5 : (r * (1 + (a + 2 * b)) * (y0 * (1 - b)) <= r * (1 + (a + 2 * b)) * y)%Q).
    { apply Qmult_le_l'; [nra | done]. }
    assert (H6 : (0 <= r * y0)%Q) by nra. assert (H7 : (1 + a <= (1 + (a + 2 * b)) * (1 - b))%Q) by nra. nra.
Qed.

(** ** Rounding to fifty-three bits *)

Definition ulp : Q := 1 # (2 ^ 52).

Lemma inject_le a b : a <= b -> (inject_Z a <= inject_Z b)%Q.
Proof. by rewrite <- Zle_Qle. Qed.

Lemma inject_pos a : 0 < a -> (0 < inject_Z a)%Q.
Proof. intros H. change 0%Q with (inject_Z 0). by rewrite <- Zlt_Qlt. Qed.

Lemma scaled_le a b w : a <= b -> (0 < w)%Q -> (inject_Z a * w <= inject_Z b * w)%Q.
Proof. intros H%inject_le Hw. nra. Qed.

(** A value between [p] and [p + 1] units of [2 ^ e] is rounded to one close to it. *)
Lemma round_close s p e l D V :
  2 ^ 52 <= Z.pos p < 2 ^ D -> 53 <= D -> -1074 <= e -> e + D <= 900 ->
  (inject_Z (Z.pos p) * 2 ^ e <= V)%Q -> (V <= inject_Z (Z.pos p + 1) * 2 ^ e)%Q ->
  exists m e', binary_round_aux 53 1024 s (Z.pos p) e l = S754_finite s m e' /\
    Z.pos m < 2 ^ 53 /\ e <= e' <= e + D - 52 /\ close ulp (inject_Z (Z.pos m) * 2 ^ e') V.
Proof.
  intros Hp HD He Hmax HV1 HV2.
  destruct (round_finite s p e l D) as (m & e' & n & E & Hm & He' & Hn & Hen & HM & Hq); [lia .. |].
  exists m, e'. split; [done |]. split; [done |]. split; [done |]. specialize (Hq ltac:(lia)).
  set (q := Z.pos p / 2 ^ n) in *. set (M := Z.pos m * 2 ^ (e' - (e + n))) in *. set (w := (2 ^ (e + n))%Q).
  assert (Hw : (0 < w)%Q) by apply pow2_pos.
  assert (EM : (inject_Z (Z.pos m) * 2 ^ e' == inject_Z M * w)%Q).
  { unfold M, w. rewrite inject_Z_mult, inject_pow2 by lia. rewrite <- Qmult_assoc, <- pow2_add.
    by replace (e' - (e + n) + (e + n)) with e' by lia. }
  assert (Hpow : forall x, (inject_Z (x * 2 ^ n) * 2 ^ e == inject_Z x * w)%Q).
  { intros x. unfold w. rewrite inject_Z_mult, inject_pow2, pow2_add by lia. ring. }
  pose proof (Z.pow_pos_nonneg 2 n ltac:(lia) ltac:(lia)) as Hpn.
  pose proof (Z.mul_div_le (Z.pos p) (2 ^ n) Hpn) as Hlo. pose proof (Z.mul_succ_div_gt (Z.pos p) (2 ^ n) Hpn) as Hhi.
  fold q in Hlo, Hhi.
  pose proof (scaled_le (q * 2 ^ n) (Z.pos p) (2 ^ e)%Q ltac:(lia) (pow2_pos e)) as H1. rewrite Hpow in H1.
  pose proof (scaled_le (Z.pos p + 1) ((q + 1) * 2 ^ n) (2 ^ e)%Q ltac:(lia) (pow2_pos e)) as H2. rewrite Hpow in H2.
  pose proof (scaled_le _ _ w (proj1 HM) Hw) as H3. pose proof (scaled_le _ _ w (proj2 HM) Hw) as H4.
  pose proof (scaled_le _ _ w Hq Hw) as H5. rewrite (inject_Z_plus q 1) in H2, H4. change (inject_Z 1) with 1%Q in H2, H4.
  change (inject_Z (2 ^ 52)) with (inject_Z 4503599627370496) in H5.
  unfold close, ulp. rewrite EM. change (2 ^ 52)%positive with 4503599627370496%positive. unfold inject_Z at 1 in H5.
  set (A := (inject_Z q * w)%Q) in *. set (B := (inject_Z M * w)%Q) in *.
  assert (Eq : ((inject_Z q + 1) * w == A + w)%Q) by (unfold A; ring). rewrite Eq in H2, H4. clearbody A B w.
  split; lra.
Qed.

Lemma double_of_close n :
  0 < n < u64_modulus -> exists m e, double_of n = S754_finite false m e /\ Z.pos m < 2 ^ 53 /\ -60 <= e <= 60 /\
    close ulp (inject_Z (Z.pos m) * 2 ^ e) (inject_Z n).
Proof.
  intros Hn. destruct n as [| p | p]; try lia. unfold double_of, binary_normalize, binary_round, fexp.
  change (emin 53 1024) with (-1074). pose proof (digits2_bounds p) as Hd. set (d := Z.pos (digits2_pos p)) in *.
  assert (Hd64 : d <= 64).
  { assert (d - 1 < 64); [| lia]. apply (Z.pow_lt_mono_r_iff 2); [lia | lia |]. unfold u64_modulus in Hn. lia. }
  assert (Hd1 : 1 <= d) by (unfold d; lia).
  assert (Hexact : forall p' e, 2 ^ 52 <= Z.pos p' < 2 ^ 64 -> -60 <= e <= 0 -> (inject_Z (Z.pos p') * 2 ^ e == inject_Z (Z.pos p))%Q ->
    exists m e', binary_round_aux 53 1024 false (Z.pos p') e loc_Exact = S754_finite false m e' /\ Z.pos m < 2 ^ 53 /\ -60 <= e' <= 60 /\
    close ulp (inject_Z (Z.pos m) * 2 ^ e') (inject_Z (Z.pos p))).
  { intros p' e Hp' He E. destruct (round_close false p' e loc_Exact 64 (inject_Z (Z.pos p))) as (m & e' & H1 & H2 & H3 & H4); try lia.
    - rewrite E. apply Qle_refl.
    - rewrite <- E. apply scaled_le; [lia | apply pow2_pos].
    - exists m, e'. split_and!; (done || lia). }
  rewrite Z.max_l by lia. unfold shl_align. destruct (d + 0 - 53 - 0) as [| k | k] eqn:E.
  - apply Hexact; [| lia | rewrite Qmult_1_r; done]. split; [| unfold u64_modulus in Hn; lia].
    etransitivity; [| exact (proj1 Hd)]. apply Z.pow_le_mono_r; lia.
  - apply Hexact; [| lia | rewrite Qmult_1_r; done]. split; [| unfold u64_modulus in Hn; lia].
    etransitivity; [| exact (proj1 Hd)]. apply Z.pow_le_mono_r; lia.
  - apply Hexact; [| lia |]; rewrite shift_left_pos.
    + split.
      * replace (2 ^ 52) with (2 ^ (d - 1) * 2 ^ Z.pos k) by (rewrite <- Z.pow_add_r by lia; f_equal; lia). nia.
      * apply Z.lt_trans with (2 ^ 53); [| lia].
        replace (2 ^ 53) with (2 ^ d * 2 ^ Z.pos k) by (rewrite <- Z.pow_add_r by lia; f_equal; lia). nia.
    + rewrite inject_Z_mult, inject_pow2, <- Qmult_assoc, <- pow2_add by lia. replace (Z.pos k + (d + 0 - 53)) with 0 by lia. apply Qmult_1_r.
Qed.

(** The quotient of two finite positive doubles. *)
Lemma double_div_close mx ex my ey :
  Z.pos mx < 2 ^ 53 -> Z.pos my < 2 ^ 53 -> -300 <= ex <= 300 -> -300 <= ey <= 300 ->
  exists m e, double_div (S754_finite false mx ex) (S754_finite false my ey) = S754_finite false m e /\
    Z.pos m < 2 ^ 53 /\ ex - ey - 105 <= e <= ex - ey + 106 /\
    close ulp (inject_Z (Z.pos m) * 2 ^ e) ((inject_Z (Z.pos mx) * 2 ^ ex) / (inject_Z (Z.pos my) * 2 ^ ey)).
Proof.
  intros Hx Hy Hex Hey. unfold double_div, SFdiv. destruct (div_core_spec mx ex my ey) as (p & e & l & -> & Hp & He & Ep); [lia .. |].
  set (V := (_ / _)%Q). set (k := ex - ey - e) in *. assert (Hk : 0 <= k) by (unfold k; lia).
  assert (Hmy : (0 < inject_Z (Z.pos my))%Q) by done.
  assert (EV : (V * inject_Z (Z.pos my) == inject_Z (Z.pos mx * 2 ^ k) * 2 ^ e)%Q).
  { unfold V. rewrite inject_Z_mult, inject_pow2, <- Qmult_assoc, <- pow2_add by done.
    replace (k + e) with (ex + (- ey)) by (unfold k; lia). rewrite pow2_add, Qpower_opp.
    pose proof (pow2_pos ey). field. split; lra. }
  pose proof (Z.mul_div_le (Z.pos mx * 2 ^ k) (Z.pos my) ltac:(lia)) as Hlo.
  pose proof (Z.mul_succ_div_gt (Z.pos mx * 2 ^ k) (Z.pos my) ltac:(lia)) as Hhi. rewrite <- Ep in Hlo, Hhi.
  assert (Hscale : forall x, (inject_Z x * 2 ^ e * inject_Z (Z.pos my) == inject_Z (Z.pos my * x) * 2 ^ e)%Q).
  { intros x. rewrite inject_Z_mult. ring. }
  destruct (round_close false p e l 158 V) as (m & e' & H1 & H2 & H3 & H4); try lia.
  - apply (Qmult_lt_0_le_reg_r _ _ (inject_Z (Z.pos my)) Hmy). rewrite EV.
    rewrite Hscale. apply scaled_le; [lia | apply pow2_pos].
  - apply (Qmult_lt_0_le_reg_r _ _ (inject_Z (Z.pos my)) Hmy). rewrite EV.
    rewrite Hscale. apply scaled_le; [lia | apply pow2_pos].
  - exists m, e'. split_and!; (done || lia).
Qed.

(** ** Rounding to twelve digits *)

Lemma round_half_even_error n d : 0 < d -> -d <= 2 * (round_half_even n d * d - n) <= d.
Proof.
  intros Hd. pose proof (Z.div_mod n d ltac:(lia)) as E. pose proof (Z.mod_pos_bound n d Hd) as Hr.
  unfold round_half_even. set (q := n / d) in *. set (r := n mod d) in *.
  destruct (Z.ltb_spec (2 * r) d); [cbn [orb]; nia |]. cbn [orb].
  destruct (Z.eqb_spec (2 * r) d); [destruct (Z.even q); cbn [andb]; nia | cbn [andb]; nia].
Qed.

Lemma pow10_add a b : (10 ^ (a + b) == 10 ^ a * 10 ^ b)%Q.
Proof. by apply Qpower_plus. Qed.

Lemma pow10_pos e : (0 < 10 ^ e)%Q.
Proof. by apply Qpower_0_lt. Qed.

Lemma inject_pow10 n : 0 <= n -> (inject_Z (10 ^ n) == 10 ^ n)%Q.
Proof. intros Hn. by rewrite Zpower_Qpower. Qed.

(** Half a unit of the twelfth digit. *)
Definition half_unit : Q := 1 # 200000000000.

Lemma twelve_digits_close n d :
  0 < n -> 0 < d ->
  close half_unit (inject_Z (twelve_digits n d).1 * 10 ^ ((twelve_digits n d).2 - 11)) (inject_Z n / inject_Z d).
Proof.
  intros Hn Hd. destruct (scaled_range n d Hn Hd) as (Hb & Hlo & _). unfold twelve_digits.
  set (x := decimal_exponent n d) in *. set (a := n * _) in *. set (b := d * _) in *.
  pose proof (round_half_even_error a b Hb) as He. set (ds := round_half_even a b) in *. set (w := (10 ^ (x - 11))%Q).
  assert (Hcarry : forall y, (if ds =? 10 ^ 12 then (10 ^ 11, x + 1) else (ds, x)) = y -> (inject_Z y.1 * 10 ^ (y.2 - 11) == inject_Z ds * w)%Q).
  { intros y <-. destruct (Z.eqb_spec ds (10 ^ 12)) as [-> |]; cbn [fst snd]; [| done]. unfold w.
    replace (x + 1 - 11) with (1 + (x - 11)) by lia. rewrite pow10_add. change (inject_Z (10 ^ 12)) with (inject_Z (10 ^ 11) * 10 ^ 1)%Q. ring. }
  rewrite (Hcarry _ eq_refl). clear Hcarry. assert (Hw : (0 < w)%Q) by apply pow10_pos.
  assert (Hbq : (0 < inject_Z b)%Q) by (by apply inject_pos). assert (Hdq : (0 < inject_Z d)%Q) by (by apply inject_pos).
  set (W := (inject_Z a / inject_Z b)%Q). assert (EW : (inject_Z n / inject_Z d == W * w)%Q).
  { unfold W, w, a, b. assert (Ex : x - 11 = Z.max (x - 11) 0 + - Z.max (11 - x) 0) by lia.
    set (u := Z.max (x - 11) 0) in *. set (v := Z.max (11 - x) 0) in *. rewrite Ex, !inject_Z_mult, !inject_pow10 by lia.
    rewrite pow10_add, Qpower_opp. pose proof (pow10_pos u). pose proof (pow10_pos v). field. lra. }
  rewrite EW. assert (H1 : (100000000000 <= W)%Q).
  { unfold W. apply Qle_shift_div_l; [done |]. change 100000000000%Q with (inject_Z (10 ^ 11)). rewrite <- inject_Z_mult. by apply inject_le. }
  assert (H2 : (W - (1 # 2) <= inject_Z ds /\ inject_Z ds <= W + (1 # 2))%Q).
  { assert (EWb : (W * inject_Z b == inject_Z a)%Q) by (unfold W; field; lra).
    destruct He as [He1 He2]. apply inject_le in He1, He2. unfold Z.sub in He1, He2.
    rewrite inject_Z_opp, inject_Z_mult, inject_Z_plus, inject_Z_mult, inject_Z_opp, <- EWb in He1.
    rewrite inject_Z_mult, inject_Z_plus, inject_Z_mult, inject_Z_opp, <- EWb in He2. change (inject_Z 2) with 2%Q in He1, He2.
    split; apply (Qmult_lt_0_le_reg_r _ _ (inject_Z b) Hbq); nra. }
  unfold close, half_unit. clearbody W w. clear -H1 H2 Hw. destruct H2 as [H2 H3].
  assert (Hs : (0 <= W * (1 # 200000000000) - (1 # 2))%Q) by lra. split; nra.
Qed.

(** ** Reading numbers *)

Definition exponent_value (s : string) : Z :=
  match s with
  | String _ (String c s) =>
      if Ascii.eqb c "-" then - decimal (digits s)
      else if Ascii.eqb c "+" then decimal (digits s)
      else decimal (digits (String c s))
  | _ => 0
  end.

(** The digits after the point, and what follows them. *)
Definition split_fraction (s : string) : list Z * string :=
  match s with
  | String c s' => if Ascii.eqb c "." then (digits s', skip_digits s') else ([], s)
  | EmptyString => ([], s)
  end.

Definition unsigned_value (s : string) : Q :=
  let whole := digits s in
  let '(fraction, tail) := split_fraction (skip_digits s) in
  (inject_Z (decimal (whole ++ fraction)) * 10 ^ (exponent_value tail - Z.of_nat (length fraction)))%Q.

(** The value of a text of the grammar. *)
Definition number_value (s : string) : option Q :=
  if json_number s then
    Some (match s with String c s' => if Ascii.eqb c "-" then - unsigned_value s' else unsigned_value s | EmptyString => 0 end)%Q
  else None.

Example number_value_sample : number_value "-12.50e+01" = Some (- (inject_Z 1250 * 10 ^ (1 - 2)))%Q.
Proof. vm_compute. reflexivity. Qed.

(** ** Digits *)

Lemma digits_app s1 s2 : all_digits s1 = true -> digits (s1 +:+ s2) = digits s1 ++ digits s2.
Proof.
  induction s1 as [| c s1 IH]; [done |]. rewrite str_app_cons. cbn [all_digits digits]. destruct (digit_value c); [| done].
  intros H. cbn [app]. by rewrite IH.
Qed.

Lemma digits_size s : all_digits s = true -> length (digits s) = String.length s.
Proof. rewrite <- digits_length. apply Nat.eqb_eq. Qed.

Lemma decimal_app a b : decimal (a ++ b) = decimal a * 10 ^ Z.of_nat (length b) + decimal b.
Proof. unfold decimal at 1. by rewrite foldl_app, decimal_foldl. Qed.

Lemma decimal_zeros n : decimal (replicate n 0) = 0.
Proof. induction n as [| n IH]; [done |]. cbn [replicate]. rewrite decimal_cons, IH. lia. Qed.

Lemma digits_zeros n : digits (zeros n) = replicate n 0.
Proof. induction n as [| n IH]; [done |]. cbn [zeros digits]. change (digit_value "0") with (Some 0). by rewrite IH. Qed.

(** The digits that are not printed are zeros. *)
Lemma digits_strip s :
  all_digits s = true -> exists k, digits s = digits (strip_zeros s) ++ replicate k 0.
Proof.
  induction s as [| c s IH]; [by exists 0%nat |]. cbn [all_digits digits strip_zeros].
  destruct (digit_value c) as [d |] eqn:Ed; [| done]. intros [k Ek]%IH.
  destruct (Ascii.eqb_spec c "0") as [-> |]; cbn [andb]; [destruct (streq (strip_zeros s) "") eqn:E |].
  - exists (S k). apply streq_eq in E. rewrite E in Ek. change (Some 0 = Some d) in Ed. injection Ed as <-. by rewrite Ek.
  - exists k. cbn [digits]. by rewrite Ed, Ek.
  - exists k. cbn [digits]. by rewrite Ed, Ek.
Qed.

Lemma tail_digits tail : tail_ok tail -> digits tail = [] /\ skip_digits tail = tail /\ split_fraction tail = ([], tail).
Proof. by intros [-> | [x ->]]. Qed.

(** Stripping zeros and printing the point do not change the value. *)
Lemma with_fraction_value w f tail :
  all_digits w = true -> all_digits f = true -> tail_ok tail ->
  (unsigned_value (with_fraction w f +:+ tail) ==
   inject_Z (decimal (digits w ++ digits f)) * 10 ^ (exponent_value tail - Z.of_nat (length (digits f))))%Q.
Proof.
  intros Hw Hf Ht. destruct (tail_digits tail Ht) as (Hd & Hs & Hsplit). destruct (digits_strip f Hf) as [k Ek].
  pose proof (all_digits_strip f Hf) as Hst. set (g := strip_zeros f) in *.
  assert (Hval : (unsigned_value (with_fraction w f +:+ tail) ==
    inject_Z (decimal (digits w ++ digits g)) * 10 ^ (exponent_value tail - Z.of_nat (length (digits g))))%Q).
  { unfold with_fraction. fold g. unfold unsigned_value. destruct (streq g "") eqn:Eg.
    - apply streq_eq in Eg. rewrite Eg, skip_digits_app, digits_app, Hs, Hd, Hsplit by done. cbn [digits length]. by rewrite !app_nil_r.
    - rewrite !str_app_assoc, skip_digits_app, digits_app by done.
      change ("." +:+ g +:+ tail) with (String "." (g +:+ tail)). cbn [skip_digits digits split_fraction].
      change (is_digit ".") with false. change (digit_value ".") with (@None Z). cbn match. cbn [split_fraction].
      change (Ascii.eqb "." ".") with true. cbn match. rewrite digits_app, skip_digits_app, Hd, Hs, !app_nil_r by done. done. }
  rewrite Hval, Ek, length_app, length_replicate, app_assoc, (decimal_app _ (replicate k 0)), decimal_zeros, length_replicate, Z.add_0_r.
  rewrite inject_Z_mult, inject_pow10, <- Qmult_assoc, <- pow10_add by lia.
  by replace (Z.of_nat k + (exponent_value tail - Z.of_nat (length (digits g) + k))) with (exponent_value tail - Z.of_nat (length (digits g))) by lia.
Qed.

Lemma print_unsigned_value v : 0 <= v -> all_digits (print_unsigned v) = true /\ decimal (digits (print_unsigned v)) = v.
Proof.
  intros Hv. unfold print_unsigned, pretty, pretty_N. destruct (decide (Z.to_N v = 0%N)); [assert (v = 0) as -> by lia; done |].
  destruct (pretty_go_decimal (Z.to_N v) "" eq_refl) as [H1 H2]. split; [done |]. rewrite H2. cbn. lia.
Qed.

Lemma exponent_value_print x : exponent_value (print_exponent x) = x.
Proof.
  destruct (print_unsigned_value (Z.abs x)) as [H1 H2]; [lia |]. unfold print_exponent.
  assert (Hd : decimal (digits ((if Z.abs x <? 10 then "0" else "") +:+ print_unsigned (Z.abs x))) = Z.abs x).
  { destruct (Z.abs x <? 10); rewrite digits_app by done; [| done]. change (digits "0") with [0]. rewrite decimal_app, H2. done. }
  change ("e" +:+ ?a +:+ ?b) with (String "e" (a +:+ b)).
  destruct (Z.ltb_spec x 0); [change ("-" +:+ ?a) with (String "-" a) | change ("+" +:+ ?a) with (String "+" a)];
    cbn [exponent_value]; [change (Ascii.eqb "-" "-") with true | change (Ascii.eqb "+" "-") with false;
    change (Ascii.eqb "+" "+") with true]; cbn match; rewrite Hd; lia.
Qed.

Lemma decimal_bounds s : all_digits s = true -> 0 <= decimal (digits s) < 10 ^ Z.of_nat (String.length s).
Proof.
  induction s as [| c s IH]; [done |]. intros H. pose proof (digits_size _ H) as Hl. cbn [all_digits digits String.length] in *.
  destruct (digit_value c) as [d |] eqn:Ed; [| done]. rewrite decimal_cons. cbn [length] in Hl. injection Hl as ->.
  assert (0 <= d <= 9) by (unfold digit_value in Ed; destruct (_ && _) eqn:E; [| done]; reflect_bools; simplify_eq; lia).
  rewrite Nat2Z.inj_succ, Z.pow_succ_r by lia. specialize (IH H). nia.
Qed.

Lemma twelve_digits_length ds : 10 ^ 11 <= ds < 10 ^ 12 -> String.length (print_unsigned ds) = 12%nat.
Proof.
  intros Hds. destruct (print_unsigned_value ds) as [Ha Hv]; [lia |]. destruct (print_unsigned_head ds) as (c & r & E & Hc & H0 & Hr); [lia |].
  rewrite E in *. pose proof (decimal_bounds _ Ha) as Hb. rewrite Hv in Hb. cbn [String.length] in *.
  assert (Hlow : 10 ^ Z.of_nat (String.length r) <= ds).
  { rewrite <- Hv. cbn [digits]. unfold is_digit in Hc. destruct (digit_value c) as [d |] eqn:Ed; [| done].
    rewrite decimal_cons, digits_size by done. pose proof (decimal_bounds r Hr). assert (1 <= d).
    { unfold digit_value in Ed. destruct (_ && _) eqn:E1; [| done]. reflect_bools. simplify_eq.
      destruct (decide (nat_of_ascii c = 48)%nat) as [E48 |]; [| lia]. exfalso. apply H0.
      rewrite <- (ascii_nat_embedding c), E48. done. }
    pose proof (Z.pow_pos_nonneg 10 (Z.of_nat (String.length r))). nia. }
  assert (Z.of_nat (String.length r) < 12) by (apply (Z.pow_lt_mono_r_iff 10); lia).
  assert (11 < Z.of_nat (S (String.length r))) by (apply (Z.pow_lt_mono_r_iff 10); lia). lia.
Qed.

(** ** What is printed is read back *)

Lemma str_take_drop n s : str_take n s +:+ str_drop n s = s.
Proof. revert s. induction n as [| n IH]; intros [| c s]; [done .. |]. cbn [str_take str_drop]. by rewrite str_app_cons, IH. Qed.

Lemma str_drop_length n s : String.length (str_drop n s) = (String.length s - n)%nat.
Proof. revert s. induction n as [| n IH]; intros [| c s]; cbn; done. Qed.

Lemma print_digits_value ds x :
  10 ^ 11 <= ds < 10 ^ 12 -> (unsigned_value (print_digits ds x) == inject_Z ds * 10 ^ (x - 11))%Q.
Proof.
  intros Hds. destruct (print_unsigned_value ds) as [Ha Hv]; [lia |]. pose proof (twelve_digits_length ds Hds) as Hl.
  unfold print_digits. set (text := print_unsigned ds) in *.
  assert (Hsplit : forall n tail, tail_ok tail -> (n <= 12)%nat ->
    (unsigned_value (with_fraction (str_take n text) (str_drop n text) +:+ tail) ==
     inject_Z ds * 10 ^ (exponent_value tail - (12 - Z.of_nat n)))%Q).
  { intros n tail Ht Hn. rewrite with_fraction_value by (done || by apply all_digits_take || by apply all_digits_drop).
    rewrite <- digits_app, str_take_drop, Hv by (by apply all_digits_take).
    rewrite digits_size, str_drop_length, Hl by (by apply all_digits_drop). by replace (Z.of_nat (12 - n)) with (12 - Z.of_nat n) by lia. }
  destruct (Z.ltb_spec x (-4)) as [Hx | Hx]; [cbn [orb] | destruct (Z.ltb_spec 11 x) as [Hx' | Hx']; cbn [orb]].
  - rewrite Hsplit by (lia || by right; exists x). rewrite exponent_value_print. by replace (x - (12 - Z.of_nat 1)) with (x - 11) by lia.
  - rewrite Hsplit by (lia || by right; exists x). rewrite exponent_value_print. by replace (x - (12 - Z.of_nat 1)) with (x - 11) by lia.
  - destruct (Z.ltb_spec x 0) as [Hn | Hn].
    + rewrite <- (str_app_nil_r (with_fraction _ _)). rewrite with_fraction_value;
        [| done | by rewrite all_digits_app, all_digits_zeros | by left].
      rewrite digits_app, digits_zeros by apply all_digits_zeros. change (digits "0") with [0].
      rewrite app_assoc, decimal_app, Hv. change ([0] ++ replicate ?k 0) with (replicate (S k) 0). rewrite decimal_zeros.
      rewrite length_app, length_replicate, digits_size, Hl by done. cbn [exponent_value].
      replace (0 * 10 ^ _ + ds) with ds by lia. by replace (0 - Z.of_nat (Z.to_nat (- x - 1) + 12)) with (x - 11) by lia.
    + rewrite <- (str_app_nil_r (with_fraction _ _)). rewrite Hsplit by (lia || by left). cbn [exponent_value].
      by replace (0 - (12 - Z.of_nat (S (Z.to_nat x)))) with (x - 11) by lia.
Qed.

Lemma number_value_unsigned s : unsigned_ok s = true -> number_value s = Some (unsigned_value s).
Proof.
  intros H. unfold number_value. rewrite (unsigned_ok_number s H). destruct s as [| c s]; [done |].
  destruct (Ascii.eqb_spec c "-") as [-> |]; done.
Qed.

(** A positive double is read back up to half a unit of its twelfth digit. *)
Lemma print_double_close m e :
  exists v, number_value (print_double (S754_finite false m e)) = Some v /\ close half_unit v (inject_Z (Z.pos m) * 2 ^ e).
Proof.
  cbn [print_double]. set (n := Z.pos m * 2 ^ Z.max e 0). set (d := 2 ^ Z.max (- e) 0).
  assert (Hn : 0 < n) by (unfold n; pose proof (Z.pow_pos_nonneg 2 (Z.max e 0)); lia).
  assert (Hd : 0 < d) by (unfold d; apply Z.pow_pos_nonneg; lia).
  pose proof (twelve_digits_range n d Hn Hd) as Hr. pose proof (twelve_digits_close n d Hn Hd) as Hc.
  destruct (twelve_digits n d) as [ds x]. cbn [fst snd] in *.
  exists (unsigned_value (print_digits ds x)). rewrite str_app_nil_l. split; [apply number_value_unsigned, print_digits_ok; lia |].
  rewrite print_digits_value by done.
  assert (E : (inject_Z (Z.pos m) * 2 ^ e == inject_Z n / inject_Z d)%Q); [| by rewrite E].
  unfold n, d. rewrite inject_Z_mult, !inject_pow2 by lia. assert (Ee : e = Z.max e 0 + - Z.max (- e) 0) by lia.
  rewrite Ee at 1. rewrite pow2_add, Qpower_opp. pose proof (pow2_pos (Z.max (- e) 0)). field. lra.
Qed.

(** ** The figures of the program *)

Lemma close_mono a b x y : (a <= b -> 0 <= y -> close a x y -> close b x y)%Q.
Proof. unfold close. intros Hab Hy [H1 H2]. split; nra. Qed.

(** Eleven digits. *)
Definition report_precision : Q := 1 # 100000000000.

(** A computed quotient [x / y] and its printed text. *)
Lemma quotient_close a b mx ex my ey x y :
  Z.pos mx < 2 ^ 53 -> Z.pos my < 2 ^ 53 -> -300 <= ex <= 300 -> -300 <= ey <= 300 ->
  (0 <= a <= 1 # 1000)%Q -> (0 <= b <= 1 # 1000)%Q -> (0 < x)%Q -> (0 < y)%Q ->
  close a (inject_Z (Z.pos mx) * 2 ^ ex) x -> close b (inject_Z (Z.pos my) * 2 ^ ey) y ->
  exists m e, double_div (S754_finite false mx ex) (S754_finite false my ey) = S754_finite false m e /\
    Z.pos m < 2 ^ 53 /\ ex - ey - 105 <= e <= ex - ey + 106 /\
    close (ulp + 2 * (a + 2 * b)) (inject_Z (Z.pos m) * 2 ^ e) (x / y).
Proof.
  intros Hmx Hmy Hex Hey Ha Hb Hx Hy Hcx Hcy.
  destruct (double_div_close mx ex my ey Hmx Hmy Hex Hey) as (m & e & E & Hm & He & Hc). exists m, e. split_and!; try done; try lia.
  eapply close_trans; [| | | exact Hc |].
  - unfold ulp. split; lra || done.
  - lra.
  - apply Qle_shift_div_l; lra.
  - apply close_div; (done || lra).
Qed.

Lemma seconds_close d :
  1 <= d < u64_modulus ->
  exists m e, double_div (double_of d) (double_of 1000) = S754_finite false m e /\ Z.pos m < 2 ^ 53 /\ -230 <= e <= 230 /\
    close (7 * ulp) (inject_Z (Z.pos m) * 2 ^ e) (inject_Z d / 1000).
Proof.
  intros Hd. destruct (double_of_close d) as (m1 & e1 & -> & Hm1 & He1 & Hc1); [lia |].
  destruct (double_of_close 1000) as (m2 & e2 & -> & Hm2 & He2 & Hc2); [done |].
  destruct (quotient_close ulp ulp m1 e1 m2 e2 (inject_Z d) 1000) as (m & e & -> & Hm & He & Hc); try done; try lia;
    try (split; vm_compute; congruence); [by apply inject_pos; lia |].
  exists m, e. split_and!; (done || lia || idtac). eapply close_mono; [| | exact Hc].
  - vm_compute. congruence.
  - apply Qle_shift_div_l; [done |]. pose proof (inject_pos d ltac:(lia)). lra.
Qed.

(** [n] per [d] milliseconds, as a rate per second. *)
Lemma rate_reads_close n d :
  0 <= n < u64_modulus -> 1 <= d < u64_modulus ->
  exists v, number_value (print_double (double_div (double_of n) (double_div (double_of d) (double_of 1000)))) = Some v /\
    close report_precision v (inject_Z n / (inject_Z d / 1000)).
Proof.
  intros Hn Hd. destruct (seconds_close d Hd) as (m2 & e2 & -> & Hm2 & He2 & Hc2).
  pose proof (inject_pos d ltac:(lia)) as Hdq.
  assert (Hy : (0 < inject_Z d / 1000)%Q) by (apply Qlt_shift_div_l; [done | lra]).
  destruct (Z.eq_dec n 0) as [-> | Hne].
  { exists (inject_Z 0 * 10 ^ 0)%Q. split; [reflexivity |]. assert (E : (inject_Z 0 / (inject_Z d / 1000) == 0)%Q) by (field; lra).
    rewrite E. vm_compute. split; congruence. }
  destruct (double_of_close n) as (m1 & e1 & -> & Hm1 & He1 & Hc1); [lia |].
  pose proof (inject_pos n ltac:(lia)) as Hnq.
  destruct (quotient_close ulp (7 * ulp) m1 e1 m2 e2 (inject_Z n) (inject_Z d / 1000)) as (m & e & -> & Hm & He & Hc); try done; try lia;
    try (split; vm_compute; congruence).
  destruct (print_double_close m e) as (v & Ev & Hv). exists v. split; [done |].
  assert (Hr : (0 <= inject_Z n / (inject_Z d / 1000))%Q) by (apply Qle_shift_div_l; lra).
  eapply close_mono; [| done | eapply close_trans; [| | done | exact Hv | exact Hc]]; try (split; vm_compute; congruence).
  vm_compute. congruence.
Qed.

Lemma duration_reads_close d :
  1 <= d < u64_modulus ->
  exists v, number_value (print_double (double_div (double_of d) (double_of 1000))) = Some v /\
    close report_precision v (inject_Z d / 1000).
Proof.
  intros Hd. destruct (seconds_close d Hd) as (m & e & -> & Hm & He & Hc). destruct (print_double_close m e) as (v & Ev & Hv).
  exists v. split; [done |]. assert (Hr : (0 <= inject_Z d / 1000)%Q) by (apply Qle_shift_div_l; [done |]; pose proof (inject_pos d ltac:(lia)); lra).
  eapply close_mono; [| done | eapply close_trans; [| | done | exact Hv | exact Hc]]; try (split; vm_compute; congruence).
  vm_compute. congruence.
Qed.
