(* ===== verification/BenchmarkReport.v ===== *)
(** * The benchmark's report ([benchmarks/benchmark_support.h])

    [json_escape], [append_json_array], the record [Result], [to_json], and the whole
    of [make_result] of [queue_benchmark.cpp]: the copied fields, the sums and checks
    ([BenchmarkDriver.make_result]) and the throughput figures, which are doubles
    ([Doubles]).

    The specification is a reader of flat JSON objects ([parse_object]) written from
    the grammar of JSON, with nothing of the writer in it, and one of numbers
    ([number_value] of [DoubleValues]).  Theorem: what [to_json] prints for a result of
    [make_result] is read back as an object with exactly the reported names, the strings
    and integers unchanged, the duration and the rates within [10 ^ -11] of the exact
    quotients. *)

From Stdlib Require Import Ascii QArith.
From stdpp Require Import pretty.
From S2P Require Import Prelude Bytes CommandLine SequenceTracker BenchmarkMessage BenchmarkDriver Doubles DoubleValues.

#[local] Open Scope Z_scope.

(** ** Text *)

Definition dquote : ascii := "034"%char.

(** A literal of the source, an apostrophe standing for a double quote (no literal
    of [to_json] has an apostrophe). *)
Fixpoint lit (s : string) : string :=
  match s with
  | EmptyString => ""
  | String c s => String (if Ascii.eqb c "'" then dquote else c) (lit s)
  end.

Definition hex_digit (n : Z) : ascii :=
  ascii_of_nat (Z.to_nat (if n <? 10 then 48 + n else 87 + n)).

(** [std::hex << std::setw(4) << std::setfill('0')], for a code below [2 ^ 16]. *)
Definition hex4 (n : Z) : string :=
  String (hex_digit (n / 4096)) (String (hex_digit (n / 256 mod 16))
    (String (hex_digit (n / 16 mod 16)) (String (hex_digit (n mod 16)) ""))).

Definition code (c : ascii) : Z := Z.of_nat (nat_of_ascii c).

Definition escape_char (c : ascii) : string :=
  if Ascii.eqb c dquote then String "\" (String dquote "")
  else if Ascii.eqb c "\" then "\\"
  else if code c =? 8 then "\b"
  else if code c =? 12 then "\f"
  else if code c =? 10 then "\n"
  else if code c =? 13 then "\r"
  else if code c =? 9 then "\t"
  else if code c <? 32 then "\u" +:+ hex4 (code c)
  else String c "".

Fixpoint json_escape (value : string) : string :=
  match value with
  | EmptyString => ""
  | String c value => escape_char c +:+ json_escape value
  end.

(** The elements after the first. *)
Fixpoint append_rest (values : list string) : string :=
  match values with [] => "" | v :: values => "," +:+ v +:+ append_rest values end.

(** [append_json_array]; the elements are given as [operator<<] prints them. *)
Definition append_json_array (values : list string) : string :=
  "[" +:+ match values with [] => "" | v :: values => v +:+ append_rest values end +:+ "]".

(** ** Results *)

Module Report.

Record Result : Type := mkResult {
  benchmark_group : string;
  queue : string;
  delivery_semantics : string;
  trial : Z;
  capacity : Z;
  payload_size : Z;
  producer_count : Z;
  consumer_count : Z;
  duration_ms : Z;
  warmup_ms : Z;
  messages_published : Z;
  aggregate_reads : Z;
  unique_sequences_verified : Z;
  dropped_or_lagged : Z;
  invalid_payloads : Z;
  full_retries : Z;
  empty_retries : Z;
  validation_errors : Z;
  throughput_messages_per_second : double;
  throughput_reads_per_second : double;
  throughput_bytes_per_second : double;
  consumer_reads : list Z;
  consumer_reads_per_second : list double;
  build_type : string;
  compiler : string;
  git_commit : string;
  timestamp : string;
  notes : string;
}.

Record Metadata : Type := mkMetadata {
  md_build_type : string;
  md_compiler : string;
  md_git_commit : string;
  md_timestamp : string;
}.

End Report.

Definition seconds (duration_ms : Z) : double := double_div (double_of duration_ms) (double_of 1000).

(** [to_json] *)
Definition to_json (r : Report.Result) : string :=
  lit "{'benchmark_group':'" +:+ json_escape (Report.benchmark_group r) +:+
  lit "','queue':'" +:+ json_escape (Report.queue r) +:+
  lit "','delivery_semantics':'" +:+ json_escape (Report.delivery_semantics r) +:+
  lit "','trial':" +:+ print_unsigned (Report.trial r) +:+
  lit ",'capacity':" +:+ print_unsigned (Report.capacity r) +:+
  lit ",'payload_size':" +:+ print_unsigned (Report.payload_size r) +:+
  lit ",'payload_bytes':" +:+ print_unsigned (Report.payload_size r) +:+
  lit ",'producer_count':" +:+ print_unsigned (Report.producer_count r) +:+
  lit ",'producers':" +:+ print_unsigned (Report.producer_count r) +:+
  lit ",'consumer_count':" +:+ print_unsigned (Report.consumer_count r) +:+
  lit ",'consumers':" +:+ print_unsigned (Report.consumer_count r) +:+
  lit ",'duration_ms':" +:+ print_unsigned (Report.duration_ms r) +:+
  lit ",'duration_seconds':" +:+ print_double (seconds (Report.duration_ms r)) +:+
  lit ",'warmup_ms':" +:+ print_unsigned (Report.warmup_ms r) +:+
  lit ",'messages_published':" +:+ print_unsigned (Report.messages_published r) +:+
  lit ",'messages_produced':" +:+ print_unsigned (Report.messages_published r) +:+
  lit ",'aggregate_reads':" +:+ print_unsigned (Report.aggregate_reads r) +:+
  lit ",'messages_consumed':" +:+ print_unsigned (Report.aggregate_reads r) +:+
  lit ",'unique_sequences_verified':" +:+ print_unsigned (Report.unique_sequences_verified r) +:+
  lit ",'dropped_or_lagged':" +:+ print_unsigned (Report.dropped_or_lagged r) +:+
  lit ",'invalid_payloads':" +:+ print_unsigned (Report.invalid_payloads r) +:+
  lit ",'full_retries':" +:+ print_unsigned (Report.full_retries r) +:+
  lit ",'producer_failed_tries':" +:+ print_unsigned (Report.full_retries r) +:+
  lit ",'empty_retries':" +:+ print_unsigned (Report.empty_retries r) +:+
  lit ",'consumer_failed_tries':" +:+ print_unsigned (Report.empty_retries r) +:+
  lit ",'consumer_lagged_count':" +:+ print_unsigned (Report.dropped_or_lagged r) +:+
  lit ",'validation_errors':" +:+ print_unsigned (Report.validation_errors r) +:+
  lit ",'validation':'" +:+ (if Report.validation_errors r =? 0 then "passed" else "failed") +:+ lit "'" +:+
  lit ",'throughput_messages_per_second':" +:+ print_double (Report.throughput_messages_per_second r) +:+
  lit ",'messages_per_second':" +:+ print_double (Report.throughput_messages_per_second r) +:+
  lit ",'throughput_reads_per_second':" +:+ print_double (Report.throughput_reads_per_second r) +:+
  lit ",'bytes_per_second':" +:+ print_double (Report.throughput_bytes_per_second r) +:+
  lit ",'consumer_reads':" +:+ append_json_array (print_unsigned <$> Report.consumer_reads r) +:+
  lit ",'consumer_reads_per_second':" +:+ append_json_array (print_double <$> Report.consumer_reads_per_second r) +:+
  lit ",'build_type':'" +:+ json_escape (Report.build_type r) +:+
  lit "','compiler':'" +:+ json_escape (Report.compiler r) +:+
  lit "','git_commit':'" +:+ json_escape (Report.git_commit r) +:+
  lit "','timestamp':'" +:+ json_escape (Report.timestamp r) +:+
  lit "','notes':'" +:+ json_escape (Report.notes r) +:+ lit "'}".

(** [make_result], all of it. *)
Definition make_report (s : Scenario) (c : Config) (metadata : Report.Metadata) (trial published : Z)
    (published_ids : list Z) (metrics : list ConsumerMetrics) (full_retries producer_errors : Z)
    (require_complete_work_sharing : bool) : Report.Result :=
  let v := make_result published published_ids metrics producer_errors require_complete_work_sharing in
  let seconds := seconds (duration_ms c) in
  Report.mkResult (benchmark_group s) (s_name s) (delivery_semantics s) trial (capacity c) (payload_size c)
    (s_producers s) (s_consumers s) (duration_ms c) (warmup_ms c) published (aggregate_reads v)
    (unique_sequences_verified v) (dropped_or_lagged v) (total_invalid_payloads v) full_retries
    (total_empty_retries v) (total_validation_errors v)
    (double_div (double_of published) seconds)
    (double_div (double_of (aggregate_reads v)) seconds)
    (double_div (double_of (u64 (aggregate_reads v * payload_size c))) seconds)
    (consumer_reads v)
    ((fun reads => double_div (double_of reads) seconds) <$> consumer_reads v)
    (Report.md_build_type metadata) (Report.md_compiler metadata) (Report.md_git_commit metadata)
    (Report.md_timestamp metadata) (notes s).

(** ** A reader of flat JSON objects *)

Inductive json : Type :=
| JString (text : string)
| JNumber (text : string)
| JNumbers (texts : list string).

Definition hex_value (c : ascii) : option Z :=
  let n := code c in
  if (48 <=? n) && (n <=? 57) then Some (n - 48)
  else if (97 <=? n) && (n <=? 102) then Some (n - 87)
  else if (65 <=? n) && (n <=? 70) then Some (n - 55)
  else None.

(** The character of [\uXXXX]; only those that are one byte of UTF-8. *)
Definition unicode_char (a b c d : ascii) : option ascii :=
  a ← hex_value a; b ← hex_value b; c ← hex_value c; d ← hex_value d;
  let n := 4096 * a + 256 * b + 16 * c + d in
  if n <? 128 then Some (ascii_of_nat (Z.to_nat n)) else None.

(** The character of a two-character escape. *)
Definition unescape (c : ascii) : option ascii :=
  if Ascii.eqb c dquote || Ascii.eqb c "\" || Ascii.eqb c "/" then Some c
  else if Ascii.eqb c "b" then Some (ascii_of_nat 8)
  else if Ascii.eqb c "f" then Some (ascii_of_nat 12)
  else if Ascii.eqb c "n" then Some (ascii_of_nat 10)
  else if Ascii.eqb c "r" then Some (ascii_of_nat 13)
  else if Ascii.eqb c "t" then Some (ascii_of_nat 9)
  else None.

Definition push_char (c : option ascii) (r : option (string * string)) : option (string * string) :=
  c ← c; '(text, rest) ← r; Some (String c text, rest).

(** The rest of a string after its opening quote, and what follows it. *)
Fixpoint parse_chars (s : string) : option (string * string) :=
  match s with
  | EmptyString => None
  | String c s =>
      if Ascii.eqb c dquote then Some ("", s)
      else if Ascii.eqb c "\" then
        match s with
        | EmptyString => None
        | String e s =>
            if Ascii.eqb e "u" then
              match s with
              | String x1 (String x2 (String x3 (String x4 s))) => push_char (unicode_char x1 x2 x3 x4) (parse_chars s)
              | _ => None
              end
            else push_char (unescape e) (parse_chars s)
        end
      else if code c <? 32 then None
      else push_char (Some c) (parse_chars s)
  end.

Definition number_char (c : ascii) : bool :=
  is_digit c || Ascii.eqb c "+" || Ascii.eqb c "-" || Ascii.eqb c "." || Ascii.eqb c "e" || Ascii.eqb c "E".

(** The longest prefix of characters of numbers. *)
Fixpoint number_prefix (s : string) : string * string :=
  match s with
  | EmptyString => ("", "")
  | String c s' => if number_char c then let '(text, rest) := number_prefix s' in (String c text, rest) else ("", s)
  end.

Definition parse_number (s : string) : option (string * string) :=
  let '(text, rest) := number_prefix s in if json_number text then Some (text, rest) else None.

Definition expect (c : ascii) (s : string) : option string :=
  match s with String c' s => if Ascii.eqb c' c then Some s else None | EmptyString => None end.

(** The elements of an array, up to the closing bracket. *)
Fixpoint parse_numbers (fuel : nat) (s : string) : option (list string * string) :=
  match fuel with
  | O => None
  | S fuel =>
      '(text, rest) ← parse_number s;
      match expect "," rest with
      | Some rest => '(texts, rest) ← parse_numbers fuel rest; Some (text :: texts, rest)
      | None => rest ← expect "]" rest; Some ([text], rest)
      end
  end.

Definition parse_array (s : string) : option (list string * string) :=
  match expect "]" s with Some rest => Some ([], rest) | None => parse_numbers (S (String.length s)) s end.

Definition parse_value (s : string) : option (json * string) :=
  match expect dquote s with
  | Some s => '(text, rest) ← parse_chars s; Some (JString text, rest)
  | None =>
      match expect "[" s with
      | Some s => '(texts, rest) ← parse_array s; Some (JNumbers texts, rest)
      | None => '(text, rest) ← parse_number s; Some (JNumber text, rest)
      end
  end.

Definition parse_member (s : string) : option (string * json * string) :=
  s ← expect dquote s; '(name, s) ← parse_chars s; s ← expect ":" s; '(v, s) ← parse_value s; Some (name, v, s).

Fixpoint parse_members (fuel : nat) (s : string) : option (list (string * json) * string) :=
  match fuel with
  | O => None
  | S fuel =>
      '(member, rest) ← parse_member s;
      match expect "," rest with
      | Some rest => '(members, rest) ← parse_members fuel rest; Some (member :: members, rest)
      | None => rest ← expect "}" rest; Some ([member], rest)
      end
  end.

(** The members of an object that is the whole text. *)
Definition parse_object (s : string) : option (list (string * json)) :=
  s ← expect "{" s;
  match expect "}" s with
  | Some rest => if streq rest "" then Some [] else None
  | None => '(members, rest) ← parse_members (S (String.length s)) s; if streq rest "" then Some members else None
  end.

(** ** The fields of a report *)

Definition JUnsigned (v : Z) : json := JNumber (print_unsigned v).
Definition JDouble (x : double) : json := JNumber (print_double x).

Definition fields (r : Report.Result) : list (string * json) :=
  [("benchmark_group", JString (Report.benchmark_group r));
   ("queue", JString (Report.queue r));
   ("delivery_semantics", JString (Report.delivery_semantics r));
   ("trial", JUnsigned (Report.trial r));
   ("capacity", JUnsigned (Report.capacity r));
   ("payload_size", JUnsigned (Report.payload_size r));
   ("payload_bytes", JUnsigned (Report.payload_size r));
   ("producer_count", JUnsigned (Report.producer_count r));
   ("producers", JUnsigned (Report.producer_count r));
   ("consumer_count", JUnsigned (Report.consumer_count r));
   ("consumers", JUnsigned (Report.consumer_count r));
   ("duration_ms", JUnsigned (Report.duration_ms r));
   ("duration_seconds", JDouble (seconds (Report.duration_ms r)));
   ("warmup_ms", JUnsigned (Report.warmup_ms r));
   ("messages_published", JUnsigned (Report.messages_published r));
   ("messages_produced", JUnsigned (Report.messages_published r));
   ("aggregate_reads", JUnsigned (Report.aggregate_reads r));
   ("messages_consumed", JUnsigned (Report.aggregate_reads r));
   ("unique_sequences_verified", JUnsigned (Report.unique_sequences_verified r));
   ("dropped_or_lagged", JUnsigned (Report.dropped_or_lagged r));
   ("invalid_payloads", JUnsigned (Report.invalid_payloads r));
   ("full_retries", JUnsigned (Report.full_retries r));
   ("producer_failed_tries", JUnsigned (Report.full_retries r));
   ("empty_retries", JUnsigned (Report.empty_retries r));
   ("consumer_failed_tries", JUnsigned (Report.empty_retries r));
   ("consumer_lagged_count", JUnsigned (Report.dropped_or_lagged r));
   ("validation_errors", JUnsigned (Report.validation_errors r));
   ("validation", JString (if Report.validation_errors r =? 0 then "passed" else "failed"));
   ("throughput_messages_per_second", JDouble (Report.throughput_messages_per_second r));
   ("messages_per_second", JDouble (Report.throughput_messages_per_second r));
   ("throughput_reads_per_second", JDouble (Report.throughput_reads_per_second r));
   ("bytes_per_second", JDouble (Report.throughput_bytes_per_second r));
   ("consumer_reads", JNumbers (print_unsigned <$> Report.consumer_reads r));
   ("consumer_reads_per_second", JNumbers (print_double <$> Report.consumer_reads_per_second r));
   ("build_type", JString (Report.build_type r));
   ("compiler", JString (Report.compiler r));
   ("git_commit", JString (Report.git_commit r));
   ("timestamp", JString (Report.timestamp r));
   ("notes", JString (Report.notes r))].

(** ** Strings, numbers and arrays are read back *)

Lemma parse_escape_char c t : parse_chars (escape_char c +:+ t) = push_char (Some c) (parse_chars t).
Proof. destruct c as [[] [] [] [] [] [] [] []]; reflexivity. Qed.

Lemma parse_json_escape s rest : parse_chars (json_escape s +:+ String dquote rest) = Some (s, rest).
Proof.
  induction s as [| c s IH]; [done |]. cbn [json_escape]. by rewrite str_app_assoc, parse_escape_char, IH.
Qed.

Fixpoint all_number (s : string) : bool :=
  match s with EmptyString => true | String c s => number_char c && all_number s end.

Lemma is_digit_number c : is_digit c = true -> number_char c = true.
Proof. intros H. unfold number_char. by rewrite H. Qed.

Lemma all_number_skip s : all_number (skip_digits s) = true -> all_number s = true.
Proof.
  induction s as [| c s IH]; [done |]. cbn [skip_digits]. destruct (is_digit c) eqn:E; [| done].
  intros H. cbn [all_number]. by rewrite is_digit_number, IH.
Qed.

Lemma skip_digits_empty s : streq (skip_digits s) "" = true -> all_number s = true.
Proof. intros H%streq_eq. apply all_number_skip. by rewrite H. Qed.

Lemma digits_number c s : is_digit c && streq (skip_digits s) "" = true -> all_number (String c s) = true.
Proof. intros [Hc Hs]%andb_true_iff. cbn [all_number]. by rewrite is_digit_number, skip_digits_empty. Qed.

Lemma exponent_ok_number s : exponent_ok s = true -> all_number s = true.
Proof.
  destruct s as [| e [| c s]]; [done | cbn; by rewrite andb_false_r |]. cbn [exponent_ok]. intros [He H]%andb_true_iff.
  assert (Hn : number_char e = true) by (unfold number_char; destruct (Ascii.eqb_spec e "e"), (Ascii.eqb_spec e "E"); subst; done).
  cbn [all_number]. rewrite Hn. cbn [andb]. destruct (_ || _) eqn:Es in H; [| destruct s; by apply digits_number].
  destruct s as [| d s]; [done |]. apply digits_number in H. rewrite H, andb_true_r.
  unfold number_char. apply orb_true_iff in Es as [-> | ->]; by rewrite ?orb_true_r.
Qed.

Lemma fraction_ok_number s : fraction_ok s = true -> all_number s = true.
Proof.
  destruct s as [| p s]; [done |]. cbn [fraction_ok]. destruct (Ascii.eqb_spec p ".") as [-> |]; [| apply exponent_ok_number].
  destruct s as [| c s]; [done |]. intros [Hc H]%andb_true_iff. apply exponent_ok_number, all_number_skip in H.
  cbn [all_number]. by rewrite (is_digit_number c Hc), H.
Qed.

Lemma unsigned_ok_all_number s : unsigned_ok s = true -> all_number s = true.
Proof.
  destruct s as [| c s]; [done |]. cbn [unsigned_ok all_number]. intros [Hc H]%andb_true_iff.
  rewrite is_digit_number by done. apply fraction_ok_number in H. destruct (Ascii.eqb c "0"); [done |].
  by apply all_number_skip in H.
Qed.

Lemma json_number_all s : json_number s = true -> all_number s = true.
Proof.
  destruct s as [| c s]; [done |]. cbn [json_number]. destruct (Ascii.eqb_spec c "-") as [-> |];
    [exact (unsigned_ok_all_number s) | apply (unsigned_ok_all_number (String c s))].
Qed.

(** What follows is not part of a number. *)
Definition stops (s : string) : Prop := match s with EmptyString => True | String c _ => number_char c = false end.

Lemma number_prefix_app text rest :
  all_number text = true -> stops rest -> number_prefix (text +:+ rest) = (text, rest).
Proof.
  intros H Hs. induction text as [| c text IH].
  - rewrite str_app_nil_l. destruct rest as [| c rest]; [done |]. cbn in *. by rewrite Hs.
  - cbn [all_number] in H. apply andb_true_iff in H as [Hc H]. rewrite str_app_cons. cbn [number_prefix].
    by rewrite Hc, IH.
Qed.

Lemma parse_number_app text rest : json_number text = true -> stops rest -> parse_number (text +:+ rest) = Some (text, rest).
Proof. intros H Hs. unfold parse_number. rewrite number_prefix_app by (done || by apply json_number_all). by rewrite H. Qed.

Lemma parse_numbers_app texts : forall fuel text rest,
  (length texts < fuel)%nat -> Forall (fun t => json_number t = true) (text :: texts) ->
  parse_numbers fuel (text +:+ append_rest texts +:+ String "]" rest) = Some (text :: texts, rest).
Proof.
  induction texts as [| t texts IH]; intros [| fuel] text rest Hf Hok; try (simpl in Hf; lia);
    inversion Hok; subst; cbn [parse_numbers append_rest].
  - by rewrite str_app_nil_l, parse_number_app.
  - rewrite !str_app_assoc, parse_number_app by done. cbn [mbind option_bind].
    change (expect "," _) with (Some (t +:+ append_rest texts +:+ String "]" rest)). cbn [mbind option_bind].
    rewrite IH; [done | simpl in Hf; lia | done].
Qed.

Lemma str_length_suffix s1 s2 : (String.length s2 <= String.length (s1 +:+ s2))%nat.
Proof. induction s1 as [| c s1 IH]; [done |]. rewrite str_app_cons. cbn [String.length]. lia. Qed.

Lemma append_rest_length texts rest :
  (length texts <= String.length (append_rest texts +:+ rest))%nat.
Proof.
  induction texts as [| t texts IH]; cbn [length append_rest]; [lia |]. rewrite !str_app_assoc.
  change ("," +:+ ?s) with (String "," s). cbn [String.length].
  pose proof (str_length_suffix t (append_rest texts +:+ rest)). lia.
Qed.

(** ** Objects are read back *)

Definition print_value (v : json) : string :=
  match v with
  | JString text => String dquote (json_escape text) +:+ String dquote ""
  | JNumber text => text
  | JNumbers texts => append_json_array texts
  end.

Definition print_member (m : string * json) : string :=
  String dquote (json_escape m.1) +:+ String dquote (String ":" (print_value m.2)).

Fixpoint print_more (members : list (string * json)) : string :=
  match members with [] => "" | m :: members => String "," (print_member m +:+ print_more members) end.

Definition print_object (members : list (string * json)) : string :=
  "{" +:+ match members with [] => "" | m :: members => print_member m +:+ print_more members end +:+ "}".

Definition value_ok (v : json) : Prop :=
  match v with
  | JString _ => True
  | JNumber text => json_number text = true
  | JNumbers texts => Forall (fun t => json_number t = true) texts
  end.

Lemma number_head text : json_number text = true -> exists c s, text = String c s /\ number_char c = true.
Proof.
  destruct text as [| c s]; [done |]. intros [H _]%json_number_all%andb_true_iff. by exists c, s.
Qed.

Lemma expect_number d text rest :
  json_number text = true -> number_char d = false -> expect d (text +:+ rest) = None.
Proof.
  intros H Hd. destruct (number_head text H) as (c & s & -> & Hc). rewrite str_app_cons. cbn [expect].
  destruct (Ascii.eqb_spec c d) as [-> |]; [congruence | done].
Qed.

Lemma parse_array_app texts rest :
  Forall (fun t => json_number t = true) texts ->
  exists s, append_json_array texts +:+ rest = String "[" s /\ parse_array s = Some (texts, rest).
Proof.
  intros Hok. unfold append_json_array. destruct texts as [| text texts]; [by exists (String "]" rest) |].
  exists (text +:+ append_rest texts +:+ String "]" rest). rewrite !str_app_assoc. split; [done |].
  unfold parse_array. rewrite expect_number by (done || by inversion Hok). apply parse_numbers_app; [| done].
  pose proof (append_rest_length texts (String "]" rest)).
  pose proof (str_length_suffix text (append_rest texts +:+ String "]" rest)). lia.
Qed.

Lemma parse_value_app v rest : value_ok v -> stops rest -> parse_value (print_value v +:+ rest) = Some (v, rest).
Proof.
  intros Hv Hs. unfold parse_value. destruct v as [text | text | texts]; cbn [print_value value_ok] in *.
  - rewrite str_app_assoc, str_app_cons. cbn [expect]. change (Ascii.eqb dquote dquote) with true. cbn [andb].
    change (String dquote "" +:+ rest) with (String dquote rest). by rewrite parse_json_escape.
  - rewrite !expect_number by done. by rewrite parse_number_app.
  - destruct (parse_array_app texts rest Hv) as (s & -> & E). change (expect dquote (String "[" s)) with (@None string).
    change (expect "[" (String "[" s)) with (Some s). cbv iota. by rewrite E.
Qed.

Lemma parse_member_app m rest :
  value_ok m.2 -> stops rest -> parse_member (print_member m +:+ rest) = Some (m, rest).
Proof.
  intros Hv Hs. destruct m as [name v]. unfold parse_member, print_member. cbn [fst snd] in *.
  rewrite str_app_assoc, str_app_cons. change (expect dquote (String dquote ?s)) with (Some s). cbn [mbind option_bind].
  rewrite !str_app_cons, parse_json_escape. cbn [mbind option_bind]. change (expect ":" (String ":" ?s)) with (Some s).
  cbn [mbind option_bind]. by rewrite parse_value_app.
Qed.

Lemma parse_members_app members : forall fuel m rest,
  (length members < fuel)%nat -> Forall (fun m => value_ok m.2) (m :: members) ->
  parse_members fuel (print_member m +:+ print_more members +:+ String "}" rest) = Some (m :: members, rest).
Proof.
  induction members as [| m' members IH]; intros [| fuel] m rest Hf Hok; try (simpl in Hf; lia);
    inversion Hok; subst; cbn [parse_members print_more].
  - by rewrite str_app_nil_l, parse_member_app.
  - rewrite str_app_cons, str_app_assoc, parse_member_app by done. cbn [mbind option_bind].
    change (expect "," (String "," ?s)) with (Some s). cbv iota. rewrite IH; [done | simpl in Hf; lia | done].
Qed.

Lemma print_more_length members rest : (length members <= String.length (print_more members +:+ rest))%nat.
Proof.
  induction members as [| m members IH]; cbn [length print_more]; [lia |]. rewrite str_app_cons, str_app_assoc.
  cbn [String.length]. pose proof (str_length_suffix (print_member m) (print_more members +:+ rest)). lia.
Qed.

Lemma parse_print_object members : Forall (fun m => value_ok m.2) members -> parse_object (print_object members) = Some members.
Proof.
  intros Hok. unfold parse_object, print_object. change (expect "{" ("{" +:+ ?s)) with (Some s). cbn [mbind option_bind].
  destruct members as [| m members]; [done |]. rewrite str_app_assoc.
  change (expect "}" (print_member m +:+ print_more members +:+ "}")) with (@None string).
  cbv iota. pose proof (str_length_suffix (print_member m) (print_more members +:+ "}")) as H1.
  pose proof (print_more_length members "}") as H2. by rewrite parse_members_app by (lia || done).
Qed.

(** ** What [to_json] prints *)

(** Values, members and objects with what follows them. *)
Definition value_then (v : json) (rest : string) : string :=
  match v with
  | JString text => String dquote (json_escape text +:+ String dquote rest)
  | JNumber text => text +:+ rest
  | JNumbers texts => append_json_array texts +:+ rest
  end.

Definition member_then (m : string * json) (rest : string) : string :=
  String dquote (json_escape m.1 +:+ String dquote (String ":" (value_then m.2 rest))).

Fixpoint more_then (members : list (string * json)) (rest : string) : string :=
  match members with [] => rest | m :: members => String "," (member_then m (more_then members rest)) end.

Lemma value_then_app v rest : print_value v +:+ rest = value_then v rest.
Proof. destruct v; cbn [print_value value_then]; [| done | done]. by rewrite str_app_assoc. Qed.

Lemma member_then_app m rest : print_member m +:+ rest = member_then m rest.
Proof. unfold print_member, member_then. by rewrite str_app_assoc, !str_app_cons, value_then_app. Qed.

Lemma more_then_app members rest : print_more members +:+ rest = more_then members rest.
Proof.
  induction members as [| m members IH]; [done |]. cbn [print_more more_then].
  by rewrite str_app_cons, str_app_assoc, IH, member_then_app.
Qed.

Lemma to_json_fields r : to_json r = print_object (fields r).
Proof.
  unfold print_object, fields. rewrite str_app_assoc, more_then_app, member_then_app.
  unfold to_json, JUnsigned, JDouble. by destruct (Report.validation_errors r =? 0).
Qed.

(** ** What a reader finds in a report *)

Fixpoint member (name : string) (members : list (string * json)) : option json :=
  match members with
  | [] => None
  | (n, v) :: members => if streq n name then Some v else member name members
  end.

Definition read_unsigned (text : string) : option Z :=
  match parse_unsigned "" text with Value v => Some v | _ => None end.

Definition string_field (name : string) (members : list (string * json)) : option string :=
  match member name members with Some (JString text) => Some text | _ => None end.

Definition unsigned_field (name : string) (members : list (string * json)) : option Z :=
  match member name members with Some (JNumber text) => read_unsigned text | _ => None end.

Definition unsigned_list_field (name : string) (members : list (string * json)) : option (list Z) :=
  match member name members with Some (JNumbers texts) => mapM read_unsigned texts | _ => None end.

Definition number_field (name : string) (members : list (string * json)) : option Q :=
  match member name members with Some (JNumber text) => number_value text | _ => None end.

Definition number_list_field (name : string) (members : list (string * json)) : option (list Q) :=
  match member name members with Some (JNumbers texts) => mapM number_value texts | _ => None end.

(** The strings and the integers of a result, by the names under which they are reported. *)
Definition texts (r : Report.Result) : list (string * string) :=
  [("benchmark_group", Report.benchmark_group r); ("queue", Report.queue r);
   ("delivery_semantics", Report.delivery_semantics r); ("build_type", Report.build_type r);
   ("compiler", Report.compiler r); ("git_commit", Report.git_commit r); ("timestamp", Report.timestamp r);
   ("notes", Report.notes r); ("validation", if Report.validation_errors r =? 0 then "passed" else "failed")].

Definition counts (r : Report.Result) : list (string * Z) :=
  [("trial", Report.trial r); ("capacity", Report.capacity r); ("payload_size", Report.payload_size r);
   ("payload_bytes", Report.payload_size r); ("producer_count", Report.producer_count r);
   ("producers", Report.producer_count r); ("consumer_count", Report.consumer_count r);
   ("consumers", Report.consumer_count r); ("duration_ms", Report.duration_ms r); ("warmup_ms", Report.warmup_ms r);
   ("messages_published", Report.messages_published r); ("messages_produced", Report.messages_published r);
   ("aggregate_reads", Report.aggregate_reads r); ("messages_consumed", Report.aggregate_reads r);
   ("unique_sequences_verified", Report.unique_sequences_verified r);
   ("dropped_or_lagged", Report.dropped_or_lagged r); ("consumer_lagged_count", Report.dropped_or_lagged r);
   ("invalid_payloads", Report.invalid_payloads r); ("full_retries", Report.full_retries r);
   ("producer_failed_tries", Report.full_retries r); ("empty_retries", Report.empty_retries r);
   ("consumer_failed_tries", Report.empty_retries r); ("validation_errors", Report.validation_errors r)].

Definition is_u64 (v : Z) : Prop := 0 <= v < u64_modulus.

(** The integers are of their types, the doubles are finite. *)
Record report_ok (r : Report.Result) : Prop := {
  ro_counts : Forall (fun nv => is_u64 nv.2) (counts r);
  ro_reads : Forall is_u64 (Report.consumer_reads r);
  ro_doubles : Forall (fun x => finite x = true)
    (seconds (Report.duration_ms r) :: Report.throughput_messages_per_second r :: Report.throughput_reads_per_second r ::
     Report.throughput_bytes_per_second r :: Report.consumer_reads_per_second r);
}.

Lemma read_print_unsigned v : is_u64 v -> read_unsigned (print_unsigned v) = Some v.
Proof. intros Hv. unfold read_unsigned. by rewrite parse_print_unsigned. Qed.

Lemma counts_read r : Forall (fun nv => is_u64 nv.2) (counts r) ->
  Forall (fun nv => unsigned_field nv.1 (fields r) = Some nv.2) (counts r).
Proof.
  intros H. assert (Hm : Forall (fun nv => member nv.1 (fields r) = Some (JUnsigned nv.2)) (counts r)) by repeat constructor.
  apply Forall_forall. intros nv Hin. rewrite Forall_forall in H, Hm. unfold unsigned_field. rewrite Hm by done.
  by apply read_print_unsigned, H.
Qed.

Lemma texts_read r : Forall (fun nt => string_field nt.1 (fields r) = Some nt.2) (texts r).
Proof. repeat constructor. Qed.

Lemma reads_read r : Forall is_u64 (Report.consumer_reads r) ->
  unsigned_list_field "consumer_reads" (fields r) = Some (Report.consumer_reads r).
Proof.
  intros H. change (mapM read_unsigned (print_unsigned <$> Report.consumer_reads r) = Some (Report.consumer_reads r)).
  induction H as [| v vs Hv _ IH]; [done |]. cbn [fmap list_fmap mapM]. rewrite read_print_unsigned by done. cbn. by rewrite IH.
Qed.

Lemma unsigned_value_ok v : is_u64 v -> value_ok (JUnsigned v).
Proof. intros [H _]. by apply print_unsigned_number. Qed.

Lemma fields_ok r : report_ok r -> Forall (fun m => value_ok m.2) (fields r).
Proof.
  intros [Hc Hr Hd]. unfold counts in Hc. rewrite !Forall_cons in Hc. rewrite !Forall_cons in Hd. destruct_and!. unfold fields.
  repeat apply Forall_cons_2; try apply Forall_nil_2; cbn [snd]; try exact I; try (by apply unsigned_value_ok);
    try (by apply print_double_number); cbn [value_ok].
  - apply Forall_fmap. eapply Forall_impl; [exact Hr |]. intros v [Hv _]. by apply print_unsigned_number.
  - apply Forall_fmap. eapply Forall_impl; [eassumption |]. intros x. apply print_double_number.
Qed.

(** The names of the members, in the order of the report. *)
Definition report_names : list string :=
  ["benchmark_group"; "queue"; "delivery_semantics"; "trial"; "capacity"; "payload_size"; "payload_bytes"; "producer_count";
   "producers"; "consumer_count"; "consumers"; "duration_ms"; "duration_seconds"; "warmup_ms"; "messages_published";
   "messages_produced"; "aggregate_reads"; "messages_consumed"; "unique_sequences_verified"; "dropped_or_lagged";
   "invalid_payloads"; "full_retries"; "producer_failed_tries"; "empty_retries"; "consumer_failed_tries";
   "consumer_lagged_count"; "validation_errors"; "validation"; "throughput_messages_per_second"; "messages_per_second";
   "throughput_reads_per_second"; "bytes_per_second"; "consumer_reads"; "consumer_reads_per_second"; "build_type";
   "compiler"; "git_commit"; "timestamp"; "notes"].

Lemma report_names_distinct : NoDup report_names.
Proof. apply (bool_decide_unpack _). vm_compute. exact I. Qed.

(** ** Reports of the program *)

Lemma seconds_moderate d : 1 <= d <= i64_max -> moderate 230 (seconds d).
Proof.
  intros Hd. apply (double_div_moderate 60); [lia | |]; apply double_of_moderate; unfold i64_max, u64_modulus in *; lia.
Qed.

Lemma rate_finite n d : is_u64 n -> 1 <= d <= i64_max -> finite (double_div (double_of n) (seconds d)) = true.
Proof.
  intros Hn Hd. pose proof (seconds_moderate d Hd) as Hs. destruct (Z.eq_dec n 0) as [-> |].
  - destruct Hs as (s & m & e & -> & _). done.
  - apply (moderate_finite (2 * 230 + 110)). apply double_div_moderate; [lia | | done].
    apply (moderate_mono 60); [lia |]. apply double_of_moderate. unfold is_u64 in Hn. lia.
Qed.

Lemma sum_u64_is_u64 f metrics : is_u64 (sum_u64 f metrics).
Proof. rewrite sum_u64_exact. apply u64_range. Qed.

Lemma make_report_ok have c s metadata trial published ids metrics retries errors complete :
  config_ok c -> scenario_ok have c s -> is_u64 trial -> is_u64 published -> is_u64 retries ->
  Forall (fun m => is_u64 (reads m)) metrics -> span_size (collect_payload_ids metrics) < u64_modulus ->
  report_ok (make_report s c metadata trial published ids metrics retries errors complete).
Proof.
  intros Hc Hs Ht Hp Hr Hm Hl. destruct Hc, Hs. unfold count_ok, i64_max, payload_header_size, max_payload_size, u64_modulus in *.
  assert (Ha : is_u64 (sum_u64 reads metrics)) by apply sum_u64_is_u64.
  unfold make_report, make_result. rewrite (count_unique_ids_spec (collect_payload_ids metrics)) by (unfold u64_modulus; lia).
  pose proof (size_list_to_set_le (collect_payload_ids metrics)). unfold span_size in *.
  split.
  - unfold counts. cbn. repeat apply Forall_cons_2; try apply Forall_nil_2; cbn [snd]; try done; try apply sum_u64_is_u64;
      try (unfold is_u64, u64_modulus; lia).
    repeat case_match; apply u64_range.
  - cbn. by apply Forall_fmap.
  - cbn. repeat apply Forall_cons_2; try (apply rate_finite; [try done; apply u64_range | unfold i64_max; lia]).
    + apply (moderate_finite 230), seconds_moderate. unfold i64_max. lia.
    + apply Forall_fmap, Forall_fmap. eapply Forall_impl; [exact Hm |]. intros m Hrm. apply rate_finite; [done | unfold i64_max; lia].
Qed.

(** What the report of a run says, from what the run was given and what it counted. *)
Section contents.

Context (s : Scenario) (c : Config) (metadata : Report.Metadata) (trial published retries : Z) (v : Verdict).

Definition report_texts : list (string * string) :=
  [("benchmark_group", benchmark_group s); ("queue", s_name s); ("delivery_semantics", delivery_semantics s);
   ("build_type", Report.md_build_type metadata); ("compiler", Report.md_compiler metadata);
   ("git_commit", Report.md_git_commit metadata); ("timestamp", Report.md_timestamp metadata); ("notes", notes s);
   ("validation", if total_validation_errors v =? 0 then "passed" else "failed")].

Definition report_counts : list (string * Z) :=
  [("trial", trial); ("capacity", capacity c); ("payload_size", payload_size c); ("payload_bytes", payload_size c);
   ("producer_count", s_producers s); ("producers", s_producers s); ("consumer_count", s_consumers s);
   ("consumers", s_consumers s); ("duration_ms", duration_ms c); ("warmup_ms", warmup_ms c);
   ("messages_published", published); ("messages_produced", published); ("aggregate_reads", aggregate_reads v);
   ("messages_consumed", aggregate_reads v); ("unique_sequences_verified", unique_sequences_verified v);
   ("dropped_or_lagged", dropped_or_lagged v); ("consumer_lagged_count", dropped_or_lagged v);
   ("invalid_payloads", total_invalid_payloads v); ("full_retries", retries); ("producer_failed_tries", retries);
   ("empty_retries", total_empty_retries v); ("consumer_failed_tries", total_empty_retries v);
   ("validation_errors", total_validation_errors v)].

(** The exact rate of [n] events in the measured time. *)
Definition per_second (n : Z) : Q := (inject_Z n / (inject_Z (duration_ms c) / 1000))%Q.

Definition report_figures : list (string * Q) :=
  [("duration_seconds", inject_Z (duration_ms c) / 1000);
   ("throughput_messages_per_second", per_second published); ("messages_per_second", per_second published);
   ("throughput_reads_per_second", per_second (aggregate_reads v));
   ("bytes_per_second", per_second (u64 (aggregate_reads v * payload_size c)))]%Q.

End contents.

Lemma figures_read s c metadata trial published ids metrics retries errors complete :
  is_u64 published -> 1 <= duration_ms c <= i64_max ->
  let v := make_result published ids metrics errors complete in
  let r := make_report s c metadata trial published ids metrics retries errors complete in
  is_u64 (aggregate_reads v) ->
  Forall (fun nx => exists q, number_field nx.1 (fields r) = Some q /\ close report_precision q nx.2)
    (report_figures c published v).
Proof.
  intros Hp Hd v r Ha. assert (Hd' : 1 <= duration_ms c < u64_modulus) by (unfold i64_max, u64_modulus in *; lia).
  repeat apply Forall_cons_2; try apply Forall_nil_2; cbn [fst snd].
  - by apply duration_reads_close.
  - by apply rate_reads_close.
  - by apply rate_reads_close.
  - by apply rate_reads_close.
  - apply rate_reads_close; [apply u64_range | done].
Qed.

Lemma rates_read c metrics :
  Forall (fun m => is_u64 (reads m)) metrics -> 1 <= duration_ms c <= i64_max ->
  exists rates, mapM number_value (print_double <$> ((fun n => double_div (double_of n) (seconds (duration_ms c))) <$> (reads <$> metrics))) = Some rates /\
    Forall2 (fun q m => close report_precision q (per_second c (reads m))) rates metrics.
Proof.
  intros Hm Hd. assert (Hd' : 1 <= duration_ms c < u64_modulus) by (unfold i64_max, u64_modulus in *; lia).
  induction Hm as [| m metrics Hr _ (rates & E & IH)]; [by exists [] |].
  destruct (rate_reads_close (reads m) (duration_ms c) Hr Hd') as (q & Eq & Hq). exists (q :: rates).
  cbn [fmap list_fmap mapM]. fold (seconds (duration_ms c)) in Eq. rewrite Eq. cbn. rewrite E. split; [done | by constructor].
Qed.

(** ** Theorems *)

(** C40: Every report of the benchmark is one JSON object: for an accepted command line
    and a scenario it selects, what [to_json] prints for the result of [make_result]
    is read back by the reader as an object with exactly the reported names, which are
    distinct.  The reader finds every string and every integer unchanged, the reads of
    each consumer, [passed] exactly when there were no validation errors, and for the
    duration and every rate, each consumer's too, a number within a relative error of
    [10 ^ -11] of the exact quotient of what was counted and the measured time. *)
Theorem benchmark_report_roundtrip have args c ss s metadata trial published ids metrics retries errors complete :
  parse_config args = Value c -> scenarios_for have c = Value ss -> s ∈ ss ->
  is_u64 trial -> is_u64 published -> is_u64 retries ->
  Forall (fun m => is_u64 (reads m)) metrics -> span_size (collect_payload_ids metrics) < u64_modulus ->
  let v := make_result published ids metrics errors complete in
  let r := make_report s c metadata trial published ids metrics retries errors complete in
  exists members, parse_object (to_json r) = Some members /\ members.*1 = report_names /\ NoDup members.*1 /\
    Forall (fun nt => string_field nt.1 members = Some nt.2) (report_texts s metadata v) /\
    Forall (fun nv => unsigned_field nv.1 members = Some nv.2) (report_counts s c trial published retries v) /\
    unsigned_list_field "consumer_reads" members = Some (reads <$> metrics) /\
    (string_field "validation" members = Some "passed" <-> total_validation_errors v = 0) /\
    Forall (fun nx => exists q, number_field nx.1 members = Some q /\ close report_precision q nx.2)
      (report_figures c published v) /\
    exists rates, number_list_field "consumer_reads_per_second" members = Some rates /\
      Forall2 (fun q m => close report_precision q (per_second c (reads m))) rates metrics.
Proof.
  intros Hargs Hss Hin Ht Hp Hr Hm Hl v r. apply scenarios_for_ok in Hss as [_ Hok]; [| by eapply benchmark_parse_config_ok].
  rewrite Forall_forall in Hok. apply benchmark_parse_config_ok in Hargs. pose proof (co_duration c Hargs) as Hd.
  assert (Hrep : report_ok r) by (by eapply make_report_ok; eauto). pose proof (ro_counts r Hrep) as Hcounts.
  assert (Eread : consumer_reads v = reads <$> metrics) by (unfold v, make_result; by destruct (count_unique_ids _)).
  assert (Hagg : is_u64 (aggregate_reads v)).
  { rewrite Forall_forall in Hcounts. apply (Hcounts ("aggregate_reads", aggregate_reads v)). unfold counts. cbn. set_solver. }
  exists (fields r). rewrite to_json_fields, parse_print_object by (by apply fields_ok).
  split_and!; [done | done | apply report_names_distinct | apply (texts_read r) | by apply (counts_read r) | | | |].
  - rewrite reads_read by apply Hrep. by rewrite <- Eread.
  - change (string_field "validation" (fields r)) with (Some (if total_validation_errors v =? 0 then "passed" else "failed")).
    destruct (Z.eqb_spec (total_validation_errors v) 0); by split.
  - by apply figures_read.
  - destruct (rates_read c metrics Hm Hd) as (rates & E & Hrates). exists rates. split; [| done]. rewrite <- Eread in E. exact E.
Qed.

(** ** Witness *)

Definition sample_metadata : Report.Metadata :=
  Report.mkMetadata "Release" "GNU 13" "0123456" "2024-01-01T00:00:00Z".

Definition sample_metrics : list ConsumerMetrics :=
  [mkMetrics 2 0 1 0 0 [3; 1] (mkTracker []); mkMetrics 1 0 5 0 0 [2] (mkTracker [])].

Definition sample_scenario : Scenario :=
  mkScenario line64_mpmc "Line64::MPMCQueue" "mpmc_work_sharing" "exclusive_pop" 1 2
    "Line64 mutex-free bounded sequence-cell MPMC".

Definition sample_report : Report.Result :=
  make_report sample_scenario sample_config sample_metadata 1 3 [1; 2; 3] sample_metrics 7 0 true.

Example sample_report_rates :
  member "messages_per_second" (fields sample_report) = Some (JNumber "12") /\
  member "bytes_per_second" (fields sample_report) = Some (JNumber "768") /\
  member "consumer_reads_per_second" (fields sample_report) = Some (JNumbers ["8"; "4"]).
Proof. vm_compute. done. Qed.

Lemma benchmark_report_roundtrip_witness :
  exists members, parse_object (to_json sample_report) = Some members /\
    string_field "validation" members = Some "passed" /\ unsigned_field "messages_published" members = Some 3 /\
    exists q, number_field "messages_per_second" members = Some q /\ close report_precision q (per_second sample_config 3).
Proof.
  destruct (benchmark_report_roundtrip sample_have sample_args sample_config sample_scenarios sample_scenario sample_metadata
    1 3 [1; 2; 3] sample_metrics 7 0 true) as (members & E & _ & _ & _ & Hc & _ & Hv & Hf & _).
  - vm_compute. reflexivity.
  - vm_compute. reflexivity.
  - right. left.
  - vm_compute. split; congruence.
  - vm_compute. split; congruence.
  - vm_compute. split; congruence.
  - repeat constructor; vm_compute; congruence.
  - vm_compute. reflexivity.
  - exists members. split; [exact E |]. split; [apply Hv; vm_compute; reflexivity |].
    rewrite Forall_forall in Hc. rewrite Forall_forall in Hf. split; [apply (Hc ("messages_published", 3)); do 10 right; left |].
    apply (Hf ("messages_per_second", per_second sample_config 3)). do 2 right. left.
Defined.
