(* ===== verification/SPSCBenchmark.v ===== *)
(** * The SPSC benchmark run ([run_spsc_adapter] in [benchmarks/queue_benchmark.cpp])

    A producer publishes numbered payloads until the main thread clears
    [running]; a consumer pops and checks them until it finds the queue empty and
    [producer_done] set; the main thread then computes the verdict.  The run is a
    client of the queue: its own steps are the accesses to the two flags and the
    calls, the queue's steps are those of [SPSCConcurrent].

    Theorems: over [SPSCQueue] the run observes the payloads 1, 2, ... unchanged
    and in order and counts no error of its own, and when both threads have ended
    its verdict is zero exactly if nothing was left in the queue.  Something can be
    left: the consumer looks at [producer_done] only after a pop has come back
    empty, and does not pop again before it leaves ([spsc_run_false_alarm]). *)

From stdpp Require Import gmap fin_sets sorting.
From S2P Require Import Prelude Result FixedMessage Concurrency Clients BoundedFifo SPSCQueue SPSCConcurrent StreamClients.
From S2P Require Import SequenceTracker BenchmarkMessage BenchmarkDriver.

Inductive producer_pc : Type :=
| PCheck (id : Z)
| PPush (id : Z) (payload : Payload)
| PPushing (id : Z)
| PFinish
| PEnded
| PUndefined.

Inductive consumer_pc : Type :=
| CPop
| CPopping (payload : Payload)
| CCheckDone
| CEnded
| CUndefined.

Record spsc_run : Type := mkRun {
  running : bool;
  producer_done : bool;
  published : Z;
  full_retries : Z;
  producer_errors : Z;
  published_ids : list Z;
  metrics : ConsumerMetrics;
  producer : producer_pc;
  consumer : consumer_pc;
}.

Definition run_init : spsc_run := mkRun true false 0 0 0 [] fresh_metrics (PCheck 1) CPop.

Section run.

(** [Adapter::has_queue_sequences], and [config.payload_size]. *)
Context (has_queue_sequences : bool) (payload_size : Z).

(** [Payload payload; payload.size = config.payload_size;] *)
Definition fresh_payload : Payload := mkPayload (replicate (Z.to_nat max_payload_size) Byte.x00) payload_size.

Definition producer_goes (c : spsc_run) (pc : producer_pc) : spsc_run :=
  mkRun (running c) (producer_done c) (published c) (full_retries c) (producer_errors c)
    (published_ids c) (metrics c) pc (consumer c).

Definition consumer_goes (c : spsc_run) (m : ConsumerMetrics) (pc : consumer_pc) : spsc_run :=
  mkRun (running c) (producer_done c) (published c) (full_retries c) (producer_errors c)
    (published_ids c) m (producer c) pc.

Definition count_empty_retry (m : ConsumerMetrics) : ConsumerMetrics :=
  mkMetrics (reads m) (lag_events m) (empty_retries m +u 1) (invalid_payloads m) (validation_errors m)
    (payload_ids m) (queue_sequences m).

Definition count_validation_error (m : ConsumerMetrics) : ConsumerMetrics :=
  mkMetrics (reads m) (lag_events m) (empty_retries m) (invalid_payloads m) (validation_errors m +u 1)
    (payload_ids m) (queue_sequences m).

(** The producer's thread up to its next access to a flag, or its next call. *)
Definition producer_advance (c : spsc_run) : option (option QueueOp * spsc_run) :=
  match producer c with
  | PCheck id =>
      Some (None, producer_goes c
        (if running c then
           match make_payload payload_size 0 id id with
           | Some payload => PPush id payload
           | None => PUndefined
           end
         else PFinish))
  | PPush id payload => Some (Some (TryPush (readable payload)), producer_goes c (PPushing id))
  | PFinish =>
      Some (None, mkRun (running c) true (published c) (full_retries c) (producer_errors c)
                    (published_ids c) (metrics c) PEnded (consumer c))
  | PPushing _ | PEnded | PUndefined => None
  end.

Definition consumer_advance (c : spsc_run) : option (option QueueOp * spsc_run) :=
  match consumer c with
  | CPop => Some (Some (TryPop (writable fresh_payload)), consumer_goes c (metrics c) (CPopping fresh_payload))
  | CCheckDone =>
      Some (None, if producer_done c then consumer_goes c (metrics c) CEnded
                  else consumer_goes c (count_empty_retry (metrics c)) CPop)
  | CPopping _ | CEnded | CUndefined => None
  end.

(** The main thread clears [running] after the measured time. *)
Definition main_advance (c : spsc_run) : option (option QueueOp * spsc_run) :=
  if running c
  then Some (None, mkRun false (producer_done c) (published c) (full_retries c) (producer_errors c)
                     (published_ids c) (metrics c) (producer c) (consumer c))
  else None.

Definition run_advance (c : spsc_run) (t : nat) : option (option QueueOp * spsc_run) :=
  match t with
  | 0%nat => producer_advance c
  | 1%nat => consumer_advance c
  | 2%nat => main_advance c
  | _ => None
  end.

(** The code after [queue.try_push(payload)]. *)
Definition producer_receive (c : spsc_run) (id : Z) (r : WriteResult) : spsc_run :=
  match w_status r with
  | success =>
      let errors :=
        if has_queue_sequences && negb (w_sequence r =? id)
        then producer_errors c +u 1 else producer_errors c in
      let errors :=
        if negb has_queue_sequences && negb (w_sequence r =? 0) then errors +u 1 else errors in
      mkRun (running c) (producer_done c) id (full_retries c) errors (published_ids c ++ [id])
        (metrics c) (PCheck (id +u 1)) (consumer c)
  | full =>
      mkRun (running c) (producer_done c) (published c) (full_retries c +u 1) (producer_errors c)
        (published_ids c) (metrics c) (PCheck id) (consumer c)
  | _ =>
      mkRun (running c) (producer_done c) (published c) (full_retries c) (producer_errors c +u 1)
        (published_ids c) (metrics c) PFinish (consumer c)
  end.

(** The code after [queue.try_pop(payload)], which left [destination] in the payload. *)
Definition consumer_receive (c : spsc_run) (payload : Payload) (r : ReadResult) (destination : list byte)
    : spsc_run :=
  match r_status r with
  | success =>
      match record_payload (metrics c) (write_payload payload destination) payload_size
              (if has_queue_sequences then r_sequence r else 0) with
      | Some m => consumer_goes c m CPop
      | None => consumer_goes c (metrics c) CUndefined
      end
  | empty => consumer_goes c (metrics c) CCheckDone
  | _ => consumer_goes c (count_validation_error (metrics c)) CEnded
  end.

Definition run_receive (c : spsc_run) (t : nat) (r : QueueRes) : option spsc_run :=
  match t, r with
  | 0%nat, Pushed r => match producer c with PPushing id => Some (producer_receive c id r) | _ => None end
  | 1%nat, Popped r destination =>
      match consumer c with
      | CPopping payload => Some (consumer_receive c payload r destination)
      | _ => None
      end
  | _, _ => None
  end.

#[local] Instance run_client : Client QueueOp QueueRes spsc_run := {|
  advance := run_advance; receive := run_receive;
|}.

(** What [make_result] is called with after the threads were joined. *)
Definition run_verdict (c : spsc_run) : Verdict :=
  make_result (published c) (published_ids c) [metrics c] (producer_errors c) true.

End run.

#[export] Existing Instance run_client.

(** ** Payloads that pass through the queue *)

Section proofs.

Context (psize cap : Z).
Hypothesis Hsize : payload_header_size <= psize <= max_payload_size.

(** The bytes of the payload with number [i]. *)
Definition image (i : Z) : list byte :=
  match make_payload psize 0 i i with Some p => readable p | None => [] end.

Definition valid_id (i : Z) : Prop := 0 < i < u64_modulus.

Lemma generated i :
  valid_id i ->
  exists p, make_payload psize 0 i i = Some p /\ image i = readable p /\ size p = psize /\
    length (image i) = Z.to_nat psize /\ valid_payload p psize = Some true /\ global_id (read_header p) = i.
Proof using Hsize.
  intros Hi. destruct (make_payload_spec psize 0 i i) as (p & E & Es & El & Eh); [done | done | done | done |].
  exists p. split; [exact E |]. unfold image. rewrite E. split; [done |]. split; [exact Es |].
  split. { unfold readable. rewrite length_take, El, Es. unfold max_payload_size in Hsize. lia. }
  split; [| by rewrite Eh]. unfold valid_id in Hi.
  apply (sealed_payload_valid psize 0 i i); [lia | lia | lia | exact E | exact Es | exact Eh].
Qed.

Lemma bench_image_size i : valid_id i -> span_size (image i) = psize.
Proof using Hsize.
  intros (p & _ & _ & _ & El & _)%generated. unfold span_size. rewrite El.
  unfold payload_header_size in Hsize. lia.
Qed.

Lemma fresh_payload_size : span_size (writable (fresh_payload psize)) = psize.
Proof using Hsize.
  unfold writable, fresh_payload, span_size, payload_header_size, max_payload_size in *. cbn [bytes size].
  rewrite length_take, length_replicate. lia.
Qed.

(** What the consumer finds in its payload after a successful pop. *)
Definition copied (i : Z) : Payload :=
  write_payload (fresh_payload psize) (std_copy (image i) (writable (fresh_payload psize))).

Lemma copied_valid i :
  valid_id i -> valid_payload (copied i) psize = Some true /\ global_id (read_header (copied i)) = i.
Proof using Hsize.
  intros Hi. destruct (generated i Hi) as (p & _ & Ei & Es & El & Hv & Hg).
  pose proof fresh_payload_size as Hf. unfold span_size in Hf.
  assert (Hr : readable (copied i) = readable p).
  { rewrite <- Ei. unfold copied, readable, write_payload. cbn [bytes size fresh_payload].
    unfold std_copy at 1. rewrite take_app_le; [| rewrite std_copy_length; lia].
    rewrite <- El. apply std_copy_prefix. }
  destruct (readable_ext (copied i) p psize) as [E1 E2]; [by rewrite Es | exact Hr | simpl; lia |].
  rewrite E1, E2. done.
Qed.

(** ** Metrics of a consumer that has read 1, ..., r *)

Definition tracker_upto (r : Z) : SequenceTracker := mkTracker (if r =? 0 then [] else [mkRange 1 r]).

Definition metrics_ok (r : Z) (m : ConsumerMetrics) : Prop :=
  reads m = r /\ validation_errors m = 0 /\ payload_ids m = seqZ 1 r /\ queue_sequences m = tracker_upto r.

Lemma metrics_ok_fresh : metrics_ok 0 fresh_metrics.
Proof. done. Qed.

Lemma metrics_ok_retry r m : metrics_ok r m -> metrics_ok r (count_empty_retry m).
Proof. done. Qed.

Lemma tracker_next r :
  0 <= r -> r + 1 < u64_modulus -> record (tracker_upto r) (r + 1) = (true, tracker_upto (r + 1)).
Proof.
  intros H0 Hr. unfold tracker_upto. rewrite (proj2 (Z.eqb_neq (r + 1) 0)) by lia.
  unfold record. rewrite (proj2 (Z.eqb_neq (r + 1) 0)) by lia.
  destruct (Z.eqb_spec r 0) as [-> | Hne]; [done |]. cbn [ranges_ last last_].
  unfold u64_max. rewrite (proj2 (Z.eqb_neq r _)), u64_small by lia. cbn [negb andb].
  by rewrite Z.ltb_irrefl, Z.eqb_refl.
Qed.

Lemma record_payload_next r m :
  0 <= r -> r + 1 < u64_modulus -> metrics_ok r m ->
  exists m', record_payload m (copied (r + 1)) psize (r + 1) = Some m' /\ metrics_ok (r + 1) m'.
Proof using Hsize.
  intros H0 Hr (Hreads & Herr & Hids & Htr). destruct (copied_valid (r + 1)) as [Hv Hg]; [split; lia |].
  unfold record_payload. rewrite Hv. cbn [mbind option_bind negb].
  rewrite (proj2 (Z.eqb_neq (r + 1) 0)) by lia. rewrite Htr, tracker_next, Hg by done.
  eexists. split; [done |]. unfold metrics_ok. cbn [reads validation_errors payload_ids queue_sequences].
  rewrite Hreads, u64_small by lia. split; [done |]. split; [done |]. split; [| done].
  rewrite Hids, seqZ_snoc by lia. by rewrite (Z.add_comm 1).
Qed.

(** ** The run over the atomic queue *)

(** What the producer knows when [n] messages have been accepted; [L] bounds the
    number of calls made so far. *)
Definition producer_ok (L n : Z) (st : status QueueOp QueueRes) (c : spsc_run) : Prop :=
  producer_errors c = 0 /\ published_ids c = seqZ 1 (published c) /\ 0 <= published c /\
  match producer c with
  | PCheck id => st = Idle /\ id = n + 1 /\ published c = n
  | PPush id p => st = Idle /\ id = n + 1 /\ published c = n /\ readable p = image id
  | PPushing id =>
      published c = id - 1 /\
      match st with
      | Called o => o = TryPush (image id) /\ id = n + 1 /\ n + 1 <= L
      | Finished (Pushed r) => (r = mkWrite success id /\ id = n) \/ (r = mkWrite full 0 /\ id = n + 1)
      | _ => False
      end
  | PFinish | PEnded => st = Idle /\ published c = n
  | PUndefined => False
  end.

(** What the consumer knows when [k] messages have been taken. *)
Definition consumer_ok (k : Z) (st : status QueueOp QueueRes) (c : spsc_run) : Prop :=
  match consumer c with
  | CPop | CCheckDone | CEnded => st = Idle /\ metrics_ok k (metrics c)
  | CPopping p =>
      p = fresh_payload psize /\
      match st with
      | Called o => o = TryPop (writable (fresh_payload psize)) /\ metrics_ok k (metrics c)
      | Finished (Popped r d) =>
          (r = mkRead success psize k /\ d = std_copy (image k) (writable (fresh_payload psize)) /\
           0 < k /\ metrics_ok (k - 1) (metrics c)) \/
          (r = mkRead empty 0 0 /\ metrics_ok k (metrics c))
      | _ => False
      end
  | CUndefined => False
  end.

Lemma producer_ok_weaken L L' n st c : L <= L' -> producer_ok L n st c -> producer_ok L' n st c.
Proof.
  intros HL (H1 & H2 & H3 & H). split; [done |]. split; [done |]. split; [done |].
  destruct (producer c); try done. destruct H as [H4 H]. split; [done |].
  destruct st; try done. destruct H as (? & ? & ?). split; [done |]. split; [done | lia].
Qed.

(** *** Linearization points *)

Lemma bench_producer_lin L a k st c o r a' :
  stream cap image a k -> L + 1 < u64_modulus -> pushed a <= L -> producer_ok L (pushed a) st c -> st = Called o ->
  fifo_spec max_payload_size cap false a o r a' ->
  stream cap image a' k /\ pushed a' <= L /\ producer_ok L (pushed a') (Finished r) c.
Proof using Hsize.
  intros Hs HL Hn (H1 & H2 & H3 & H) -> Hspec.
  destruct (producer c) as [id | id p | id | | |] eqn:Ep; try (destruct H; done); try done.
  destruct H as (H4 & -> & -> & H6). inversion Hspec as [a0 payload r0 a0' Hp | |]; subst; simplify_eq.
  pose proof (stream_taken _ _ _ _ Hs) as Hk.
  assert (Hid : valid_id (pushed a + 1)) by (split; lia).
  destruct (stream_push max_payload_size cap image a k r0 a' Hs) as [(-> & Hn' & Hs') | (-> & ->)];
    [lia | rewrite bench_image_size by done; apply Hsize | exact Hp | |].
  - split; [exact Hs' |]. rewrite Hn'. split; [lia |]. unfold producer_ok. rewrite Ep.
    split_and!; try done. by left.
  - split; [exact Hs |]. split; [lia |]. unfold producer_ok. rewrite Ep. split_and!; try done. by right.
Qed.

Lemma bench_consumer_lin L a k st c o r a' :
  stream cap image a k -> L + 1 < u64_modulus -> pushed a <= L -> consumer_ok k st c -> st = Called o ->
  fifo_spec max_payload_size cap false a o r a' ->
  exists k', stream cap image a' k' /\ pushed a' = pushed a /\ consumer_ok k' (Finished r) c.
Proof using Hsize.
  intros Hs HL Hn H -> Hspec. unfold consumer_ok in *.
  destruct (consumer c) as [| p | | |] eqn:Ec; try (destruct H; done); try done.
  destruct H as (-> & -> & Hm). inversion Hspec as [| a0 d r0 d' a0' Hp |]; subst; simplify_eq.
  pose proof (stream_taken _ _ _ _ Hs) as Hk.
  assert (Hid : valid_id (k + 1)) by (split; lia).
  destruct (stream_pop cap image false a k (writable (fresh_payload psize)) r0 d' a' Hs)
    as [(-> & -> & -> & ->) | (Hlt & -> & -> & Hn' & Hs')].
  - rewrite bench_image_size, fresh_payload_size by done. lia.
  - exact Hp.
  - exists (pushed a). split; [done |]. split; [done |]. split; [done |]. by right.
  - exists (k + 1). split; [done |]. split; [done |]. split; [done |]. left.
    rewrite bench_image_size by done. split_and!; [done | done | lia |]. by replace (k + 1 - 1) with k by lia.
Qed.

(** *** Steps of the client *)

Lemma bench_producer_local L n st c o c' k sc :
  producer_ok L n st c -> consumer_ok k sc c -> n <= L -> L + 1 < u64_modulus -> 0 <= n ->
  producer_advance psize c = Some (o, c') ->
  consumer_ok k sc c' /\
  match o with
  | None => producer_ok L n st c'
  | Some o => st = Idle -> producer_ok (L + 1) n (Called o) c'
  end.
Proof using Hsize.
  intros (H1 & H2 & H3 & H) HC Hn HL Hn0 Hadv. unfold producer_advance in Hadv.
  destruct (producer c) as [id | id p | id | | |] eqn:Ep; try done; simplify_eq.
  - split; [exact HC |]. destruct H as (-> & -> & Hp). unfold producer_ok, producer_goes. cbn [producer producer_errors published_ids published].
    split; [done |]. split; [done |]. split; [done |].
    destruct (running c); [| done]. destruct (generated (n + 1)) as (p & E & Ei & _); [split; lia |].
    rewrite E. done.
  - split; [exact HC |]. destruct H as (_ & -> & Hp & Hr). intros _. unfold producer_ok, producer_goes.
    cbn [producer producer_errors published_ids published]. rewrite Hr. split_and!; try done; lia.
  - split; [exact HC |]. unfold producer_ok. cbn [producer producer_errors published_ids published]. done.
Qed.

Lemma bench_consumer_local k sc c o c' L n st :
  consumer_ok k sc c -> producer_ok L n st c -> consumer_advance psize c = Some (o, c') ->
  producer_ok L n st c' /\
  match o with
  | None => consumer_ok k sc c'
  | Some o => sc = Idle -> consumer_ok k (Called o) c'
  end.
Proof.
  intros HC HP Hadv. unfold consumer_advance in Hadv. unfold consumer_ok in HC.
  destruct (consumer c) as [| p | | |] eqn:Ec; try done; simplify_eq.
  - split; [exact HP |]. intros _. unfold consumer_ok, consumer_goes. cbn [consumer metrics]. by destruct HC.
  - destruct HC as [-> Hm]. destruct (producer_done c); (split; [exact HP |]);
      unfold consumer_ok, consumer_goes; cbn [consumer metrics]; done.
Qed.

Lemma bench_producer_return L n c r c' k sc :
  producer_ok L n (Finished r) c -> consumer_ok k sc c -> n <= L -> L + 1 < u64_modulus ->
  run_receive true psize c 0 r = Some c' -> producer_ok L n Idle c' /\ consumer_ok k sc c'.
Proof.
  intros (H1 & H2 & H3 & H) HC Hn HL Hrec. unfold run_receive in Hrec. destruct r as [r | |]; try done.
  destruct (producer c) as [id | id p | id | | |] eqn:Ep; try done. simplify_eq.
  destruct H as [H4 [[-> ->] | [-> ->]]]; unfold producer_receive; cbn [w_status w_sequence andb negb].
  - split; [| exact HC]. rewrite Z.eqb_refl. unfold producer_ok. cbn [producer producer_errors published_ids published].
    split; [done |]. split; [| split_and!; try done; [lia |]; rewrite u64_small; lia].
    rewrite H2, H4. replace n with (n - 1 + 1) at 3 by lia. rewrite seqZ_snoc by lia. f_equal. f_equal. lia.
  - split; [| exact HC]. unfold producer_ok. cbn [producer producer_errors published_ids published].
    split_and!; try done. lia.
Qed.

Lemma bench_consumer_return k c r c' L n st :
  consumer_ok k (Finished r) c -> producer_ok L n st c -> k <= n -> n <= L -> L + 1 < u64_modulus ->
  run_receive true psize c 1 r = Some c' -> consumer_ok k Idle c' /\ producer_ok L n st c'.
Proof using Hsize.
  intros HC HP Hk Hn HL Hrec. unfold run_receive in Hrec. destruct r as [| r d |]; try done. unfold consumer_ok in HC.
  destruct (consumer c) as [| p | | |] eqn:Ec; try done. simplify_eq.
  destruct HC as [-> [(-> & -> & Hk0 & Hm) | [-> Hm]]]; unfold consumer_receive; cbn [r_status r_sequence].
  - fold (copied k). destruct (record_payload_next (k - 1) (metrics c)) as (m' & E & Hm'); [lia | lia | done |].
    replace (k - 1 + 1) with k in E, Hm' by lia. rewrite E. split; [| exact HP]. done.
  - split; [| exact HP]. done.
Qed.

Lemma spsc_run_stream_client :
  stream_client (Client0 := run_client true psize) max_payload_size cap image run_init
    producer_ok (fun _ => consumer_ok).
Proof using Hsize.
  split.
  - done.
  - intros L L' n st c. apply producer_ok_weaken.
  - intros L a k sc c o r a' Hs HL Hn HP HC Hspec.
    destruct (bench_producer_lin L a k (Called o) c o r a' Hs HL Hn HP eq_refl Hspec) as (Hs' & Hn' & HP'). done.
  - intros L a k c o r a' Hs HL Hn HC Hspec. exact (bench_consumer_lin L a k (Called o) c o r a' Hs HL Hn HC eq_refl Hspec).
  - intros L n k sp sc c t c' HP HC Hk Hn HL Hadv. destruct t as [| [| [| t]]]; simpl in Hadv; [| | | done].
    + destruct (bench_producer_local L n sp c None c' k sc HP HC Hn HL) as [HC' HP']; [lia | done | done].
    + by destruct (bench_consumer_local k sc c None c' L n sp HC HP Hadv) as [HP' HC'].
    + unfold main_advance in Hadv. destruct (running c); by simplify_eq.
  - intros L n k sc c o c' HP HC Hk Hn HL Hadv.
    destruct (bench_producer_local L n Idle c (Some o) c' k sc HP HC Hn HL) as [HC' HP']; [lia | done |]. auto.
  - intros L n k sp c o c' HP HC Hk Hn HL Hadv.
    destruct (bench_consumer_local k Idle c (Some o) c' L n sp HC HP Hadv) as [HP' HC']. auto.
  - intros L n k sc c r c' HP HC Hk Hn HL Hrec. by apply (bench_producer_return L n c r c' k sc).
  - intros L n k sp c r c' HP HC Hk Hn HL Hrec.
    destruct (bench_consumer_return k c r c' L n sp HC HP) as [HC' HP']; [lia | done | done | done | done].
Qed.

(** The verdict of a finished run in which [k] of [n] messages were read. *)
Lemma finished_verdict c n k :
  0 <= k <= n -> n + 1 < u64_modulus -> producer_errors c = 0 -> published c = n ->
  published_ids c = seqZ 1 n -> metrics_ok k (metrics c) ->
  total_validation_errors (run_verdict c) = if k =? n then 0 else 1.
Proof.
  intros Hk Hn He Hp Hids (Hr & Hv & Hpi & _). unfold run_verdict.
  assert (Hobs : collect_payload_ids [metrics c] = seqZ 1 k) by (cbn; by rewrite app_nil_r).
  assert (Hlen : forall m, 0 <= m -> span_size (seqZ 1 m) = m)
    by (intros m Hm; unfold span_size; rewrite length_seqZ; lia).
  destruct (make_result_errors (published c) (published_ids c) [metrics c] (producer_errors c)) as [_ E].
  { unfold counters_fit. rewrite Hobs, Hids, He, !Hlen by lia. cbn [exact_sum foldr]. rewrite Hr, Hv.
    split; [repeat constructor; lia |]. lia. }
  rewrite E, Hobs, Hids, He, Hp. cbn [exact_sum foldr]. rewrite Hr, Hv.
  rewrite (proj2 (unique_ids_NoDup (seqZ 1 k)) (NoDup_seqZ 1 k)), !Hlen by lia.
  rewrite !Z.add_0_r, Z.eqb_refl, andb_true_r. destruct (Z.eqb_spec k n) as [-> |]; simpl; [| lia].
  rewrite (proj2 (has_same_ids_spec _ _)) by done. simpl. lia.
Qed.

End proofs.

(** ** Theorems *)

(** C34: over [SPSCQueue], in every state of the benchmark run the producer has
    counted no error and the consumer has read the payloads 1, 2, ..., r
    unmodified and in order; no payload is generated or checked out of bounds; and
    when both threads have ended, between 0 and [capacity] of the [n] published
    messages were not read, and the run reports an error exactly if there is one. *)
Theorem spsc_benchmark_run_sound cap psize q n h p c :
  payload_header_size <= psize <= max_payload_size -> 0 <= cap < u64_modulus ->
  SPSCQueue_new max_payload_size cap = returns q -> Z.of_nat n + 1 < u64_modulus ->
  exec (system_step (client_step (Client0 := run_client true psize))
          (pool_step (ConcurrentObject0 := spsc_object max_payload_size))) n (spsc_init q, run_init) h (p, c) ->
  producer c <> PUndefined /\ consumer c <> CUndefined /\
  producer_errors c = 0 /\ validation_errors (metrics c) = 0 /\
  (exists r, payload_ids (metrics c) = seqZ 1 r /\ reads (metrics c) = r) /\
  (producer c = PEnded -> consumer c = CEnded ->
   let n := published c in let k := reads (metrics c) in
   published_ids c = seqZ 1 n /\ payload_ids (metrics c) = seqZ 1 k /\ 0 <= k <= n /\ n - k <= cap /\
   total_validation_errors (run_verdict c) = if k =? n then 0 else 1).
Proof.
  intros Hs Hc Hq Hn Hex.
  destruct (stream_client_sound max_payload_size cap (image psize) run_init _ _ (spsc_run_stream_client psize cap Hs)
    q n h p c) as (L & N & k & sp & sc & Hk & Hb & HN & HL & HP & HC); [done | done | done | done | done |].
  destruct HP as (He & Hids & Hp0 & HP). unfold consumer_ok in HC.
  assert (Hok : exists r, metrics_ok r (metrics c)).
  { destruct (consumer c); try done; try (destruct HC; eauto; done).
    destruct HC as [_ HC]. destruct sc as [| | []]; try done; [destruct HC; eauto |].
    destruct HC as [(_ & _ & _ & H) | [_ H]]; eauto. }
  destruct Hok as [r (Hr & Hv & Hpi & _)].
  split; [by intros E; rewrite E in HP |]. split; [by intros E; rewrite E in HC |].
  split; [done |]. split; [done |]. split; [by exists r |].
  intros Ep Ec. rewrite Ep in HP. rewrite Ec in HC. destruct HP as [_ Hpub], HC as [_ Hmk].
  destruct Hmk as (Hk1 & Hk2 & Hk3 & Hk4). cbv zeta. rewrite Hk1, Hpub.
  split; [by rewrite Hids, Hpub |]. split; [done |]. split; [lia |]. split; [lia |].
  apply finished_verdict; try done; [lia | by rewrite Hids, Hpub].
Qed.

(** ** Witnesses *)

Definition one_slot : SPSCQueue := mkSPSC 1 [fresh_message 256] 0 0.

(** The consumer finds the queue empty; then the producer publishes its last
    message and ends; then the consumer sees [producer_done] and leaves. *)
Definition late_message_schedule : list system_choice :=
  [Advance 1; Inside 1 0; Inside 1 0; Return 1;
   Advance 0; Advance 0; Inside 0 0; Inside 0 0; Inside 0 0; Inside 0 0; Return 0;
   Advance 2; Advance 0; Advance 0;
   Advance 1].

(** C35: the run can report an error although the queue is correct and nothing went
    wrong: [late_message_schedule] ends with both threads finished, the only
    published message still in the queue, and one validation error. *)
Theorem spsc_run_false_alarm :
  exists h p c,
    exec (system_step (client_step (Client0 := run_client true 32))
            (pool_step (ConcurrentObject0 := spsc_object 256))) (length late_message_schedule)
      (spsc_init one_slot, run_init) h (p, c) /\
    producer c = PEnded /\ consumer c = CEnded /\ producer_errors c = 0 /\ validation_errors (metrics c) = 0 /\
    published_ids c = [1] /\ payload_ids (metrics c) = [] /\ is_empty (shared p) = false /\
    total_validation_errors (run_verdict c) = 1.
Proof.
  eexists _, _, _. split.
  { apply (run_system_exec (ConcurrentObject0 := spsc_object 256) (Client0 := run_client true 32)).
    vm_compute. reflexivity. }
  vm_compute. repeat split; reflexivity.
Qed.

(** The same schedule in which the consumer pops once more before it looks at the flag. *)
Definition clean_schedule : list system_choice :=
  [Advance 0; Advance 0; Inside 0 0; Inside 0 0; Inside 0 0; Inside 0 0; Return 0;
   Advance 1; Inside 1 0; Inside 1 0; Inside 1 0; Inside 1 0; Return 1;
   Advance 2; Advance 0; Advance 0;
   Advance 1; Inside 1 0; Inside 1 0; Return 1; Advance 1].

Lemma spsc_benchmark_run_sound_witness :
  exists h p c,
    exec (system_step (client_step (Client0 := run_client true 32))
            (pool_step (ConcurrentObject0 := spsc_object 256))) (length clean_schedule)
      (spsc_init one_slot, run_init) h (p, c) /\ total_validation_errors (run_verdict c) = 0.
Proof.
  eexists _, _, _.
  match goal with |- ?A /\ _ => assert (Hex : A) end.
  { apply (run_system_exec (ConcurrentObject0 := spsc_object 256) (Client0 := run_client true 32)).
    vm_compute. reflexivity. }
  split; [exact Hex |].
  destruct (spsc_benchmark_run_sound 1 32 one_slot (length clean_schedule) _ _ _ ltac:(by vm_compute)
    ltac:(by vm_compute) eq_refl ltac:(by vm_compute) Hex) as (_ & _ & _ & _ & _ & H).
  destruct (H eq_refl eq_refl) as (_ & _ & _ & _ & E). exact E.
Defined.
