(* ===== verification/BenchmarkWork.v ===== *)
(** * The work-sharing benchmark runs ([run_work_sharing], [run_exclusive_pop_adapter])

    Producers take identifiers from a shared counter and push payloads until the main
    thread clears [running]; consumers pop and check payloads until the queue reports
    that it is closed, or is found empty when [producers_done] is set.  The queue is
    reached through an adapter, as in the code: what it calls, and how it turns what
    the queue returns into a result ([Adapter]).  Every access to a shared variable is
    a step of its own, and so is the section under [published_ids_mutex].

    What the run needs of a queue is the class [WorkQueue]: a relation between the
    state of its atomic object and the payloads that were accepted and not taken, with
    a law per call.  From it follows [work_run_sound]: in every state no error has been
    counted and no payload is accessed out of bounds; when all threads have ended,
    every accepted payload was read once or is still in the atomic queue, and the verdict of
    [make_result] is zero exactly if nothing was left.  [BenchmarkWorkRuns] has the two
    queues of the library. *)

From stdpp Require Import gmap fin_sets sorting.
From S2P Require Import Prelude Result FixedMessage Concurrency Clients BoundedFifo.
From S2P Require Import Bytes SequenceTracker BenchmarkMessage BenchmarkDriver SPSCBenchmark.

(** ** The program *)

(** What [Adapter] of the template has: [try_push], [try_pop] and, if it has one,
    [close]. *)
Record Adapter (Op Res : Type) : Type := mkAdapter {
  has_queue_sequences : bool;
  push_call : Payload -> Op;
  push_result : Res -> option WriteResult;
  pop_call : Payload -> Op;
  pop_result : Payload -> Res -> option (ReadResult * Payload);
  close_call : option Op;
  close_result : Res -> bool;
}.
Arguments mkAdapter {_ _} _ _ _ _ _ _ _.
Arguments has_queue_sequences {_ _} _.
Arguments push_call {_ _} _ _.
Arguments push_result {_ _} _ _.
Arguments pop_call {_ _} _ _.
Arguments pop_result {_ _} _ _ _.
Arguments close_call {_ _} _.
Arguments close_result {_ _} _ _.

(** A producer; [local] and [id] are its variables. *)
Inductive maker_pc : Type :=
| MCheck (local : Z)
| MTake (local : Z)
| MPush (local id : Z) (payload : Payload)
| MPushing (local id : Z) (payload : Payload)
| MRecord (local id : Z)
| MCount (local : Z)
| MError (local : Z)
| MRetry (local id : Z) (payload : Payload)
| MRecheck (local id : Z) (payload : Payload)
| MLeave
| MFlag
| MClose
| MClosing
| MEnded
| MUndefined.

(** A consumer. *)
Inductive taker_pc : Type :=
| TPop
| TPopping (payload : Payload)
| TCheckDone
| TEnded
| TUndefined.

Record work_run : Type := mkWorkRun {
  w_running : bool;
  next_id : Z;
  w_published : Z;
  w_full_retries : Z;
  w_producer_errors : Z;
  remaining : Z;
  producers_done : bool;
  w_published_ids : list Z;
  w_metrics : list ConsumerMetrics;
  makers : list maker_pc;
  takers : list taker_pc;
}.

Section setters.

Implicit Type s : work_run.

Definition stop_running s : work_run :=
  mkWorkRun false (next_id s) (w_published s) (w_full_retries s) (w_producer_errors s) (remaining s)
    (producers_done s) (w_published_ids s) (w_metrics s) (makers s) (takers s).

Definition set_next_id s (id : Z) : work_run :=
  mkWorkRun (w_running s) id (w_published s) (w_full_retries s) (w_producer_errors s) (remaining s)
    (producers_done s) (w_published_ids s) (w_metrics s) (makers s) (takers s).

Definition add_published s : work_run :=
  mkWorkRun (w_running s) (next_id s) (w_published s +u 1) (w_full_retries s) (w_producer_errors s) (remaining s)
    (producers_done s) (w_published_ids s) (w_metrics s) (makers s) (takers s).

Definition add_full_retry s : work_run :=
  mkWorkRun (w_running s) (next_id s) (w_published s) (w_full_retries s +u 1) (w_producer_errors s) (remaining s)
    (producers_done s) (w_published_ids s) (w_metrics s) (makers s) (takers s).

Definition add_producer_error s : work_run :=
  mkWorkRun (w_running s) (next_id s) (w_published s) (w_full_retries s) (w_producer_errors s +u 1) (remaining s)
    (producers_done s) (w_published_ids s) (w_metrics s) (makers s) (takers s).

Definition set_remaining s (n : Z) : work_run :=
  mkWorkRun (w_running s) (next_id s) (w_published s) (w_full_retries s) (w_producer_errors s) n
    (producers_done s) (w_published_ids s) (w_metrics s) (makers s) (takers s).

Definition set_producers_done s : work_run :=
  mkWorkRun (w_running s) (next_id s) (w_published s) (w_full_retries s) (w_producer_errors s) (remaining s)
    true (w_published_ids s) (w_metrics s) (makers s) (takers s).

Definition push_published_id s (id : Z) : work_run :=
  mkWorkRun (w_running s) (next_id s) (w_published s) (w_full_retries s) (w_producer_errors s) (remaining s)
    (producers_done s) (w_published_ids s ++ [id]) (w_metrics s) (makers s) (takers s).

Definition set_maker s (i : nat) (pc : maker_pc) : work_run :=
  mkWorkRun (w_running s) (next_id s) (w_published s) (w_full_retries s) (w_producer_errors s) (remaining s)
    (producers_done s) (w_published_ids s) (w_metrics s) (<[i := pc]> (makers s)) (takers s).

Definition set_taker s (i : nat) (m : ConsumerMetrics) (pc : taker_pc) : work_run :=
  mkWorkRun (w_running s) (next_id s) (w_published s) (w_full_retries s) (w_producer_errors s) (remaining s)
    (producers_done s) (w_published_ids s) (<[i := m]> (w_metrics s)) (makers s) (<[i := pc]> (takers s)).

End setters.

Section program.

(** [config.payload_size], [scenario.producers] and [scenario.consumers]. *)
Context {Op Res : Type} (A : Adapter Op Res) (psize : Z) (nproducers nconsumers : nat).

Definition work_init : work_run :=
  mkWorkRun true 1 0 0 0 (Z.of_nat nproducers) false [] (replicate nconsumers fresh_metrics)
    (replicate nproducers (MCheck 1)) (replicate nconsumers TPop).

(** Producer [i], up to its next access to a shared variable or its next call. *)
Definition maker_advance (s : work_run) (i : nat) : option (option Op * work_run) :=
  let go s pc := Some (None, set_maker s i pc) in
  match makers s !! i with
  | Some (MCheck local) => go s (if w_running s then MTake local else MLeave)
  | Some (MTake local) =>
      let id := next_id s in
      go (set_next_id s (id +u 1))
        (match make_payload psize (Z.of_nat i mod u32_modulus) local id with
         | Some payload => MPush (local +u 1) id payload
         | None => MUndefined
         end)
  | Some (MPush local id payload) => Some (Some (push_call A payload), set_maker s i (MPushing local id payload))
  | Some (MRecord local id) => go (push_published_id s id) (MCount local)
  | Some (MCount local) => go (add_published s) (MCheck local)
  | Some (MError local) => go (add_producer_error s) (MCheck local)
  | Some (MRetry local id payload) => go (add_full_retry s) (MRecheck local id payload)
  | Some (MRecheck local id payload) => go s (if w_running s then MPush local id payload else MCheck local)
  | Some MLeave =>
      let old := remaining s in
      go (set_remaining s (old -u 1)) (if old =? 1 then MFlag else MEnded)
  | Some MFlag =>
      go (set_producers_done s) (match close_call A with Some _ => MClose | None => MEnded end)
  | Some MClose =>
      match close_call A with Some o => Some (Some o, set_maker s i MClosing) | None => None end
  | _ => None
  end.

(** After [push(payload)]. *)
Definition maker_receive (s : work_run) (i : nat) (local id : Z) (payload : Payload) (r : WriteResult) : work_run :=
  set_maker s i
    (match w_status r with
     | success => MRecord local id
     | full => MRetry local id payload
     | _ => MError local
     end).

(** Consumer [i] with its metrics; [pop] reads [producers_done] when [try_pop] found
    the queue empty. *)
Definition taker_advance (s : work_run) (i : nat) : option (option Op * work_run) :=
  match takers s !! i, w_metrics s !! i with
  | Some TPop, Some m =>
      Some (Some (pop_call A (fresh_payload psize)), set_taker s i m (TPopping (fresh_payload psize)))
  | Some TCheckDone, Some m =>
      Some (None, if producers_done s then set_taker s i m TEnded else set_taker s i (count_empty_retry m) TPop)
  | _, _ => None
  end.

(** After [queue.try_pop(payload)]. *)
Definition taker_receive (s : work_run) (i : nat) (m : ConsumerMetrics) (r : ReadResult) (payload : Payload) : work_run :=
  match r_status r with
  | success =>
      match record_payload m payload psize (if has_queue_sequences A then r_sequence r else 0) with
      | Some m => set_taker s i m TPop
      | None => set_taker s i m TUndefined
      end
  | empty => set_taker s i m TCheckDone
  | closed => set_taker s i m TEnded
  | _ => set_taker s i (count_validation_error m) TEnded
  end.

(** Producers, consumers, and the main thread. *)
Definition work_advance (s : work_run) (t : nat) : option (option Op * work_run) :=
  let i := (t - nproducers)%nat in
  if decide (t < nproducers)%nat then maker_advance s t
  else if decide (i < nconsumers)%nat then taker_advance s i
  else if w_running s then Some (None, stop_running s) else None.

Definition work_receive (s : work_run) (t : nat) (r : Res) : option work_run :=
  let i := (t - nproducers)%nat in
  if decide (t < nproducers)%nat then
    match makers s !! t with
    | Some (MPushing local id payload) => r ← push_result A r; Some (maker_receive s t local id payload r)
    | Some MClosing => if close_result A r then Some (set_maker s t MEnded) else None
    | _ => None
    end
  else
    match takers s !! i, w_metrics s !! i with
    | Some (TPopping payload), Some m => '(r, payload) ← pop_result A payload r; Some (taker_receive s i m r payload)
    | _, _ => None
    end.

#[local] Instance work_client : Client Op Res work_run := {|
  advance := work_advance; receive := work_receive;
|}.

(** What [make_result] is called with after the threads were joined. *)
Definition work_verdict (s : work_run) : Verdict :=
  make_result (w_published s) (w_published_ids s) (w_metrics s) (w_producer_errors s) true.

End program.

#[export] Existing Instance work_client.

(** ** What the run needs of a queue *)

(** A payload of the configured size, its array of the declared length. *)
Definition fits (psize : Z) (p : Payload) : Prop := size p = psize /\ length (bytes p) = 256%nat.

(** The same bytes for the program: only the first [size] of them are looked at. *)
Definition same_payload (p q : Payload) : Prop := size p = size q /\ readable p = readable q.

(** [represents qs k b a]: [qs] was accepted and not taken, [k] payloads were taken,
    [b] says whether the queue was closed. *)
Class WorkQueue {Op Res St : Type} (A : Adapter Op Res)
    (spec : list (status Op Res) -> St -> Op -> Res -> St -> Prop) (psize : Z) (a0 : St) : Type := {
  represents : list Payload -> Z -> bool -> St -> Prop;
  never_empty : bool;
  wq_init : represents [] 0 false a0;
  wq_push cs a p r a' qs k :
    represents qs k false a -> 0 <= k -> k + Z.of_nat (length qs) + 1 < u64_modulus ->
    fits psize p -> spec cs a (push_call A p) r a' ->
    exists w, push_result A r = Some w /\
      ((w_status w = success /\ represents (qs ++ [p]) k false a') \/
       (w_status w = full /\ represents qs k false a'));
  wq_pop cs a r a' qs k b :
    represents qs k b a -> 0 <= k -> k + Z.of_nat (length qs) < u64_modulus -> Forall (fits psize) qs ->
    spec cs a (pop_call A (fresh_payload psize)) r a' ->
    exists res p, pop_result A (fresh_payload psize) r = Some (res, p) /\
      ((exists q qs', qs = q :: qs' /\ r_status res = success /\ same_payload p q /\
          (has_queue_sequences A = true -> r_sequence res = k + 1) /\ represents qs' (k + 1) b a') \/
       (r_status res = empty /\ never_empty = false /\ represents qs k b a') \/
       (r_status res = closed /\ b = true /\ qs = [] /\ represents qs k b a'));
  wq_close cs a o r a' qs k b :
    close_call A = Some o -> represents qs k b a -> spec cs a o r a' ->
    close_result A r = true /\ represents qs k true a';
}.

(** ** Lists of optional entries *)

Section entries.

Context {X Y : Type} (f : X -> Y).

Definition entries (xs : list (option X)) : list Y := f <$> omap id xs.

Lemma entries_cons_None xs : entries (None :: xs) = entries xs.
Proof. done. Qed.

Lemma entries_cons_Some x xs : entries (Some x :: xs) = f x :: entries xs.
Proof. done. Qed.

Lemma entries_put xs i x :
  xs !! i = Some None -> entries (<[i := Some x]> xs) ≡ₚ f x :: entries xs.
Proof.
  revert i. induction xs as [| [y |] xs IH]; intros [| i] Hi; simplify_eq/=; [| done |].
  - rewrite !entries_cons_Some, IH by done. apply Permutation_swap.
  - rewrite !entries_cons_None. by apply IH.
Qed.

Lemma entries_remove xs i x :
  xs !! i = Some (Some x) -> entries xs ≡ₚ f x :: entries (<[i := None]> xs).
Proof.
  revert i. induction xs as [| [y |] xs IH]; intros [| i] Hi; simplify_eq/=; [done | |].
  - rewrite !entries_cons_Some, IH by done. apply Permutation_swap.
  - rewrite !entries_cons_None. by apply IH.
Qed.

Lemma entries_None xs : Forall (fun x => x = None) xs -> entries xs = [].
Proof. induction 1 as [| x xs -> _ IH]; done. Qed.

End entries.

Lemma NoDup_range_length (xs : list Z) N :
  NoDup xs -> Forall (fun x => 1 <= x < N) xs -> 1 <= N -> Z.of_nat (length xs) < N.
Proof.
  intros Hnd Hb HN. assert (Hsub : xs ⊆+ seqZ 1 (N - 1)).
  { apply NoDup_submseteq; [done |]. intros x Hx. rewrite Forall_forall in Hb. specialize (Hb x Hx).
    apply elem_of_seqZ. lia. }
  apply submseteq_length in Hsub. rewrite length_seqZ in Hsub. lia.
Qed.

Lemma collect_payload_ids_app metrics i m m' id :
  metrics !! i = Some m -> payload_ids m' = payload_ids m ++ [id] ->
  collect_payload_ids (<[i := m']> metrics) ≡ₚ id :: collect_payload_ids metrics.
Proof.
  unfold collect_payload_ids. revert i. induction metrics as [| m0 ms IH]; intros [| i] Hi E; simplify_eq/=.
  - rewrite E. rewrite <- app_assoc. symmetry. apply Permutation_middle.
  - rewrite IH by done. symmetry. apply Permutation_middle.
Qed.

Lemma collect_payload_ids_same metrics i m m' :
  metrics !! i = Some m -> payload_ids m' = payload_ids m ->
  collect_payload_ids (<[i := m']> metrics) = collect_payload_ids metrics.
Proof.
  unfold collect_payload_ids. revert i. induction metrics as [| m0 ms IH]; intros [| i] Hi E; simplify_eq/=.
  - by rewrite E.
  - by rewrite IH.
Qed.

Lemma collect_payload_ids_length metrics i m :
  metrics !! i = Some m -> (length (payload_ids m) <= length (collect_payload_ids metrics))%nat.
Proof.
  unfold collect_payload_ids. revert i. induction metrics as [| m0 ms IH]; intros [| i] Hi; simplify_eq/=; rewrite length_app; [lia |].
  specialize (IH i Hi). lia.
Qed.

(** ** Counts and the verdict *)

Lemma exact_sum_reads metrics :
  Forall (fun m => reads m = span_size (payload_ids m)) metrics ->
  exact_sum reads metrics = span_size (collect_payload_ids metrics).
Proof.
  unfold span_size, collect_payload_ids. induction 1 as [| m ms Hm _ IH]; [done |].
  cbn [exact_sum foldr fmap list_fmap concat]. rewrite length_app. fold (exact_sum reads ms). lia.
Qed.

(** The verdict when every consumer's count is right and [rest] was not read. *)
Lemma verdict_of_rest published ids metrics rest :
  Forall (fun m => validation_errors m = 0 /\ reads m = span_size (payload_ids m)) metrics ->
  published = span_size ids -> NoDup ids -> ids ≡ₚ collect_payload_ids metrics ++ rest -> span_size ids + 1 < u64_modulus ->
  total_validation_errors (make_result published ids metrics 0 true) = if decide (rest = []) then 0 else 1.
Proof.
  intros Hm -> Hnd Hperm Hlen. assert (Hr : Forall (fun m => reads m = span_size (payload_ids m)) metrics)
    by (eapply Forall_impl; [exact Hm |]; by intros m [_ ?]).
  assert (Hv : exact_sum validation_errors metrics = 0).
  { apply exact_sum_zero; eapply Forall_impl; [exact Hm | | exact Hm |]; intros m [E _]; lia. }
  pose proof (Permutation_length Hperm) as Hpl. rewrite length_app in Hpl. pose proof (exact_sum_reads metrics Hr) as Hs.
  destruct (make_result_errors (span_size ids) ids metrics 0) as [_ E].
  { unfold counters_fit. rewrite Hv, Hs. split.
    - eapply Forall_impl; [exact Hm |]. intros m [-> ->]. split; [apply span_size_nonneg | lia].
    - unfold span_size in *. lia. }
  rewrite E, Hv, Hs. rewrite Hperm in Hnd. apply NoDup_app in Hnd as (Hobs & _ & _).
  rewrite (proj2 (unique_ids_NoDup _) Hobs), Z.eqb_refl, andb_true_r. destruct (decide (rest = [])) as [-> | Hne].
  - rewrite app_nil_r in Hperm. rewrite (proj2 (has_same_ids_spec _ _)) by done. rewrite length_nil in Hpl.
    unfold span_size in *. rewrite (proj2 (Z.eqb_eq _ _)) by lia. simpl. lia.
  - destruct rest as [| x rest]; [done |]. unfold span_size in *. cbn [length] in Hpl. rewrite (proj2 (Z.eqb_neq _ _)) by lia. simpl. lia.
Qed.

Lemma all_none {X} (xs : list (option X)) k :
  length xs = k -> (forall i x, (i < k)%nat -> xs !! i = Some x -> x = None) -> Forall (fun x => x = None) xs.
Proof. intros Hl H. apply Forall_lookup. intros i x Hx. apply (H i); [| done]. rewrite <- Hl. by eapply lookup_lt_Some. Qed.

(** ** The ledger *)

Record ledger : Type := mkLedger {
  accepted : list Z;               (** the identifiers the queue has accepted *)
  pending : list (option Z);       (** per producer: taken from the counter, not accepted *)
  unrecorded : list (option Z);    (** per producer: accepted, not in [published_ids] *)
  queued : list Payload;           (** accepted and not taken *)
  taken : Z;
  was_closed : bool;
  held : list (option (Z * Z));    (** per consumer: identifier and number of a payload taken, not recorded *)
}.

Definition id_of (p : Payload) : Z := global_id (read_header p).

(** Producers that have not left, that are about to push, and that have yet to count. *)
Definition active (pc : maker_pc) : Z := match pc with MFlag | MClose | MClosing | MEnded => 0 | _ => 1 end.
Definition awaiting (pc : maker_pc) : Z := match pc with MPush _ _ _ => 1 | _ => 0 end.
Definition counting (pc : maker_pc) : Z := match pc with MCount _ => 1 | _ => 0 end.

Section proofs.

Context {Op Res St : Type} {A : Adapter Op Res} {spec : list (status Op Res) -> St -> Op -> Res -> St -> Prop}.
Context {psize : Z} {a0 : St} {WQ : WorkQueue A spec psize a0} (np nc : nat).
Hypothesis Hsize : payload_header_size <= psize <= max_payload_size.
Hypothesis Hnp : (np <= 64)%nat.

Abbreviation thread_status := (status Op Res).

(** A payload made for the identifier [id]. *)
Definition sent (id : Z) (p : Payload) : Prop :=
  fits psize p /\ valid_payload p psize = Some true /\ id_of p = id.

(** The ledger and the shared variables after [n] calls and returns. *)
Record books (n : Z) (G : ledger) (s : work_run) : Prop := {
  bk_ids : NoDup (accepted G ++ entries id (pending G));
  bk_bound : Forall (fun x => 1 <= x < next_id s) (accepted G ++ entries id (pending G));
  bk_next : 1 <= next_id s <= 1 + n + sumZ (awaiting <$> makers s);
  bk_published : accepted G ≡ₚ w_published_ids s ++ entries id (unrecorded G);
  bk_taken : accepted G ≡ₚ collect_payload_ids (w_metrics s) ++ entries fst (held G) ++ (id_of <$> queued G);
  bk_count : 0 <= w_published s /\ w_published s + sumZ (counting <$> makers s) = span_size (w_published_ids s);
  bk_number : 0 <= taken G /\ taken G + span_size (queued G) = span_size (accepted G);
  bk_errors : w_producer_errors s = 0;
  bk_queued : Forall (fun p => sent (id_of p) p) (queued G);
}.

Definition maker_ok (s : work_run) (st : thread_status) (p u : option Z) (pc : maker_pc) : Prop :=
  match pc with
  | MCheck local | MTake local | MCount local => st = Idle /\ p = None /\ u = None /\ 1 <= local <= next_id s
  | MPush local id payload | MRetry local id payload | MRecheck local id payload =>
      st = Idle /\ p = Some id /\ u = None /\ sent id payload /\ 1 <= local <= next_id s
  | MPushing local id payload =>
      sent id payload /\ 1 <= local <= next_id s /\
      match st with
      | Idle => False
      | Called o => o = push_call A payload /\ p = Some id /\ u = None
      | Finished r => exists w, push_result A r = Some w /\
          ((w_status w = success /\ p = None /\ u = Some id) \/ (w_status w = full /\ p = Some id /\ u = None))
      end
  | MRecord local id => st = Idle /\ p = None /\ u = Some id /\ 1 <= local <= next_id s
  | MLeave | MEnded => st = Idle /\ p = None /\ u = None
  | MFlag => st = Idle /\ p = None /\ u = None /\ remaining s = 0
  | MClose => st = Idle /\ p = None /\ u = None /\ remaining s = 0 /\ exists o, close_call A = Some o
  | MClosing =>
      p = None /\ u = None /\ remaining s = 0 /\
      match st with
      | Idle => False
      | Called o => close_call A = Some o
      | Finished r => close_result A r = true
      end
  | MError _ | MUndefined => False
  end.

(** The metrics of a consumer that holds [h]. *)
Definition metrics_fine (G : ledger) (h : option (Z * Z)) (m : ConsumerMetrics) : Prop :=
  validation_errors m = 0 /\ reads m = span_size (payload_ids m) /\ tracker_ok (queue_sequences m) /\
  match h with
  | None => 0 <= highest (queue_sequences m) <= taken G
  | Some (_, q) => 0 <= highest (queue_sequences m) < q /\ q <= taken G
  end.

(** Nothing is queued and nothing will be. *)
Definition over (G : ledger) : Prop := was_closed G = true /\ queued G = [].

Definition taker_ok (G : ledger) (m : ConsumerMetrics) (st : thread_status) (h : option (Z * Z)) (pc : taker_pc) : Prop :=
  metrics_fine G h m /\
  match pc with
  | TPop => st = Idle /\ h = None
  | TCheckDone => st = Idle /\ h = None /\ never_empty = false
  | TPopping payload =>
      payload = fresh_payload psize /\
      match st with
      | Idle => False
      | Called o => o = pop_call A (fresh_payload psize) /\ h = None
      | Finished r => exists res p, pop_result A (fresh_payload psize) r = Some (res, p) /\
          ((exists id q, r_status res = success /\ h = Some (id, q) /\ valid_payload p psize = Some true /\ id_of p = id /\
              (has_queue_sequences A = true -> r_sequence res = q)) \/
           (r_status res = empty /\ h = None /\ never_empty = false) \/
           (r_status res = closed /\ h = None /\ over G))
      end
  | TEnded => st = Idle /\ h = None /\ (never_empty = true -> over G)
  | TUndefined => False
  end.

Record work_inv (n : Z) (G : ledger) (cs : list thread_status) (s : work_run) : Prop := {
  wi_makers_length : length (makers s) = np;
  wi_takers_length : length (takers s) = nc;
  wi_metrics_length : length (w_metrics s) = nc;
  wi_threads : length cs = (np + nc)%nat;
  wi_pending : length (pending G) = np;
  wi_unrecorded : length (unrecorded G) = np;
  wi_held : length (held G) = nc;
  wi_books : books n G s;
  wi_remaining : remaining s = sumZ (active <$> makers s);
  wi_closed : was_closed G = true -> remaining s = 0;
  wi_makers : forall i pc st p u, makers s !! i = Some pc -> cs !! i = Some st ->
    pending G !! i = Some p -> unrecorded G !! i = Some u -> maker_ok s st p u pc;
  wi_takers : forall i pc st m h, takers s !! i = Some pc -> cs !! (np + i)%nat = Some st ->
    w_metrics s !! i = Some m -> held G !! i = Some h -> taker_ok G m st h pc;
}.

(** ** Steps of one thread *)

Ltac same_entry H := rewrite list_lookup_insert_eq in H by lia.
Ltac other_entry H := rewrite list_lookup_insert_ne in H by lia.

Record evolves (G : ledger) (s : work_run) (G' : ledger) (s' : work_run) : Prop := {
  ev_taken : taken G <= taken G';
  ev_next : next_id s <= next_id s';
  ev_remaining : remaining s = 0 -> remaining s' = 0;
  ev_over : over G -> over G';
}.

Lemma maker_stable G s G' s' st p u pc : evolves G s G' s' -> maker_ok s st p u pc -> maker_ok s' st p u pc.
Proof.
  intros [_ Hn Hr _]. destruct pc; cbn [maker_ok]; try exact (fun H => H).
  all: try (intros (H1 & H2 & H3 & H4); split; [exact H1 |]; split; [exact H2 |]; split; [exact H3 | lia]).
  all: try (intros (H1 & H2 & H3 & H4 & H5); split; [exact H1 |]; split; [exact H2 |]; split; [exact H3 |];
    split; [exact H4 | lia]).
  - intros (H1 & H2 & H3). split; [exact H1 |]. split; [lia | exact H3].
  - intros (H1 & H2 & H3 & H4 & H5). split; [exact H1 |]. split; [exact H2 |]. split; [exact H3 |].
    split; [by apply Hr | exact H5].
  - intros (H1 & H2 & H3 & H4). split; [exact H1 |]. split; [exact H2 |]. split; [by apply Hr | exact H4].
Qed.

Lemma metrics_stable G G' h m : taken G <= taken G' -> metrics_fine G h m -> metrics_fine G' h m.
Proof.
  intros Ht (H1 & H2 & H3 & H4). split_and!; try done. destruct h as [[id q] |]; lia.
Qed.

Lemma taker_stable G s G' s' m st h pc : evolves G s G' s' -> taker_ok G m st h pc -> taker_ok G' m st h pc.
Proof.
  intros [Ht _ _ Ho] [Hm H]. split; [by eapply metrics_stable |]. destruct pc as [| payload | | |]; try done.
  - destruct H as [-> H]. split; [done |]. destruct st as [| | r]; try done. destruct H as (res & p & E & H).
    exists res, p. split; [done |]. destruct H as [H | [H | (H1 & H2 & H3)]]; [by left | by right; left |].
    right. right. split; [done |]. split; [done | by apply Ho].
  - destruct H as (H1 & H2 & H3). auto.
Qed.

Lemma maker_moves n n' G G' cs s s' i pc pc' st' p' u' :
  work_inv n G cs s -> (i < np)%nat -> makers s !! i = Some pc -> evolves G s G' s' ->
  makers s' = <[i := pc']> (makers s) -> takers s' = takers s -> w_metrics s' = w_metrics s ->
  pending G' = <[i := p']> (pending G) -> unrecorded G' = <[i := u']> (unrecorded G) -> held G' = held G ->
  books n' G' s' -> remaining s' = remaining s - active pc + active pc' ->
  (was_closed G' = true -> remaining s' = 0) -> maker_ok s' st' p' u' pc' ->
  work_inv n' G' (<[i := st']> cs) s'.
Proof.
  intros Hinv Hi Hpc Hev Em Et Emt Ep Eu Eh HB Hr Hcl Hok. destruct Hinv.
  split; rewrite ?Em, ?Et, ?Emt, ?Ep, ?Eu, ?Eh, ?length_insert; try done.
  - rewrite (sumZ_fmap_insert _ _ _ pc) by done. lia.
  - intros j pcj st p u H1 H2 H3 H4. destruct (decide (j = i)) as [-> | Hne].
    + same_entry H1. same_entry H2. same_entry H3. same_entry H4. by simplify_eq.
    + other_entry H1. other_entry H2. other_entry H3. other_entry H4. eapply maker_stable; [exact Hev |]. by eapply wi_makers0.
  - intros j pcj st m h H1 H2 H3 H4. rewrite list_lookup_insert_ne in H2 by lia.
    eapply taker_stable; [exact Hev |]. by eapply wi_takers0.
Qed.

Lemma taker_moves n n' G G' cs s s' i pc' m' st' h' :
  work_inv n G cs s -> (i < nc)%nat -> evolves G s G' s' ->
  makers s' = makers s -> takers s' = <[i := pc']> (takers s) -> w_metrics s' = <[i := m']> (w_metrics s) ->
  pending G' = pending G -> unrecorded G' = unrecorded G -> held G' = <[i := h']> (held G) ->
  books n' G' s' -> remaining s' = remaining s -> was_closed G' = was_closed G ->
  taker_ok G' m' st' h' pc' -> work_inv n' G' (<[(np + i)%nat := st']> cs) s'.
Proof.
  intros Hinv Hi Hev Em Et Emt Ep Eu Eh HB Hr Hcl Hok. destruct Hinv.
  split; rewrite ?Em, ?Et, ?Emt, ?Ep, ?Eu, ?Eh, ?length_insert; try done; try lia.
  - rewrite Hcl, Hr. done.
  - intros j pcj st p u H1 H2 H3 H4. assert (j < np)%nat by (rewrite <- wi_makers_length0; by eapply lookup_lt_Some).
    rewrite list_lookup_insert_ne in H2 by lia. eapply maker_stable; [exact Hev |]. by eapply wi_makers0.
  - intros j pcj st m h H1 H2 H3 H4. destruct (decide (j = i)) as [-> | Hne].
    + same_entry H1. same_entry H2. same_entry H3. same_entry H4. by simplify_eq.
    + other_entry H1. other_entry H2. other_entry H3. other_entry H4. eapply taker_stable; [exact Hev |]. by eapply wi_takers0.
Qed.


(** *** Bounds *)

Lemma books_bounds n G s :
  books n G s -> length (makers s) = np ->
  span_size (accepted G) < next_id s /\ next_id s <= 1 + n + 64 /\
  0 <= w_published s <= span_size (w_published_ids s) /\ span_size (w_published_ids s) <= span_size (accepted G).
Proof using Hnp.
  intros HB Hl. destruct HB. pose proof (NoDup_range_length _ _ bk_ids0 bk_bound0 ltac:(lia)) as H.
  rewrite length_app in H. assert (Haw : 0 <= sumZ (awaiting <$> makers s) <= 1 * Z.of_nat (length (awaiting <$> makers s))).
  { pose proof (sumZ_range 0 1 (awaiting <$> makers s)) as Hs. rewrite Z.mul_0_l in Hs. apply Hs, Forall_fmap, Forall_true.
    intros pc. unfold compose. destruct pc; simpl; lia. }
  assert (Hco : 0 <= sumZ (counting <$> makers s)).
  { apply sumZ_nonneg, Forall_fmap, Forall_true. intros pc. unfold compose. destruct pc; simpl; lia. }
  rewrite length_fmap in Haw. apply Permutation_length in bk_published0. rewrite length_app in bk_published0.
  unfold span_size in *. split; [lia |]. split; [lia |]. lia.
Qed.

(** *** Producers *)

Lemma maker_state n G cs s i :
  work_inv n G cs s -> (i < np)%nat ->
  exists pc st p u, makers s !! i = Some pc /\ cs !! i = Some st /\ pending G !! i = Some p /\
    unrecorded G !! i = Some u /\ maker_ok s st p u pc.
Proof.
  intros Hinv Hi.
  destruct (lookup_lt_is_Some_2 (makers s) i) as [pc Hpc]; [by rewrite (wi_makers_length _ _ _ _ Hinv) |].
  destruct (lookup_lt_is_Some_2 cs i) as [st Hst]; [rewrite (wi_threads _ _ _ _ Hinv); lia |].
  destruct (lookup_lt_is_Some_2 (pending G) i) as [p Hp]; [by rewrite (wi_pending _ _ _ _ Hinv) |].
  destruct (lookup_lt_is_Some_2 (unrecorded G) i) as [u Hu]; [by rewrite (wi_unrecorded _ _ _ _ Hinv) |].
  exists pc, st, p, u. split_and!; try done. by eapply (wi_makers _ _ _ _ Hinv).
Qed.

Lemma taker_state n G cs s i :
  work_inv n G cs s -> (i < nc)%nat ->
  exists pc st m h, takers s !! i = Some pc /\ cs !! (np + i)%nat = Some st /\ w_metrics s !! i = Some m /\
    held G !! i = Some h /\ taker_ok G m st h pc.
Proof.
  intros Hinv Hi.
  destruct (lookup_lt_is_Some_2 (takers s) i) as [pc Hpc]; [by rewrite (wi_takers_length _ _ _ _ Hinv) |].
  destruct (lookup_lt_is_Some_2 cs (np + i)) as [st Hst]; [rewrite (wi_threads _ _ _ _ Hinv); lia |].
  destruct (lookup_lt_is_Some_2 (w_metrics s) i) as [m Hm]; [by rewrite (wi_metrics_length _ _ _ _ Hinv) |].
  destruct (lookup_lt_is_Some_2 (held G) i) as [h Hh]; [by rewrite (wi_held _ _ _ _ Hinv) |].
  exists pc, st, m, h. split_and!; try done. by eapply (wi_takers _ _ _ _ Hinv).
Qed.

(** No producer is left when [remaining] is zero. *)
Lemma makers_left n G cs s i pc : work_inv n G cs s -> remaining s = 0 -> makers s !! i = Some pc -> active pc = 0.
Proof.
  intros Hinv Hr Hpc. rewrite (wi_remaining _ _ _ _ Hinv) in Hr.
  assert (active pc <= 0); [| destruct pc; simpl in *; lia]. rewrite <- Hr. apply sumZ_member.
  - apply Forall_fmap, Forall_true. intros x. unfold compose. destruct x; simpl; lia.
  - apply list_elem_of_fmap. exists pc. split; [done |]. by eapply list_elem_of_lookup_2.
Qed.

(** The variables the books and the threads look at, the producers apart. *)
Definition same_vars (s s' : work_run) : Prop :=
  next_id s' = next_id s /\ w_published s' = w_published s /\ w_producer_errors s' = w_producer_errors s /\
  remaining s' = remaining s /\ w_published_ids s' = w_published_ids s /\ w_metrics s' = w_metrics s /\ takers s' = takers s.

Lemma same_vars_evolves G s s' : same_vars s s' -> evolves G s G s'.
Proof. intros (E1 & _ & _ & E4 & _). split; try done; [lia | by rewrite E4]. Qed.

Lemma maker_ok_vars s s' st p u pc : same_vars s s' -> maker_ok s st p u pc -> maker_ok s' st p u pc.
Proof. intros Hs. eapply (maker_stable (mkLedger [] [] [] [] 0 false [])), same_vars_evolves, Hs. Qed.

(** Producer [i] moves on without an entry in the ledger. *)
Lemma maker_proceeds n n' G cs s s' i pc pc' st' p u :
  work_inv n G cs s -> (i < np)%nat -> makers s !! i = Some pc -> pending G !! i = Some p -> unrecorded G !! i = Some u ->
  same_vars s s' -> makers s' = <[i := pc']> (makers s) ->
  active pc' = active pc -> counting pc' = counting pc -> n + awaiting pc <= n' + awaiting pc' ->
  maker_ok s st' p u pc' -> work_inv n' G (<[i := st']> cs) s'.
Proof.
  intros Hinv Hi Hpc Hp Hu Hs Em Ha Hc Hn Hok. pose proof Hs as (E1 & E2 & E3 & E4 & E5 & E6 & E7).
  eapply (maker_moves n n' G G cs s s' i pc pc' st' p u); try done.
  - by apply same_vars_evolves.
  - by rewrite list_insert_id.
  - by rewrite list_insert_id.
  - destruct (wi_books _ _ _ _ Hinv). split; rewrite ?E1, ?E2, ?E3, ?E5, ?E6, ?Em; try done;
      rewrite (sumZ_fmap_insert _ _ _ pc) by done; lia.
  - lia.
  - rewrite E4. apply (wi_closed _ _ _ _ Hinv).
  - by eapply maker_ok_vars.
Qed.

Lemma sent_make i local id :
  (i < np)%nat -> 0 < local < u64_modulus -> 0 < id < u64_modulus ->
  exists p, make_payload psize (Z.of_nat i mod u32_modulus) local id = Some p /\ sent id p.
Proof using Hsize Hnp.
  intros Hi Hl Hid. destruct (make_payload_spec psize (Z.of_nat i mod u32_modulus) local id) as (p & E & Es & El & Eh);
    [done | by apply Z.mod_pos_bound | done | done |].
  exists p. split; [done |]. unfold sent, fits, id_of. rewrite Eh. split_and!; try done.
  eapply sealed_payload_valid; [apply Hsize | | | exact E | done | done]; lia.
Qed.

(** The parts of the ledger that describe the queue. *)
Definition same_queue (G G' : ledger) : Prop :=
  queued G' = queued G /\ taken G' = taken G /\ was_closed G' = was_closed G.

Lemma maker_takes n G cs s i local st :
  work_inv n G cs s -> (i < np)%nat -> n + 70 < u64_modulus -> makers s !! i = Some (MTake local) -> cs !! i = Some st ->
  exists G' payload, make_payload psize (Z.of_nat i mod u32_modulus) local (next_id s) = Some payload /\ same_queue G G' /\
    work_inv n G' cs (set_maker (set_next_id s (next_id s +u 1)) i (MPush (local +u 1) (next_id s) payload)).
Proof using Hsize Hnp.
  intros Hinv Hi Hn Hpc Hst. destruct (maker_state n G cs s i Hinv Hi) as (pc & st' & p & u & Hpc' & Hst' & Hp & Hu & Hok).
  simplify_eq. destruct Hok as (-> & -> & -> & Hl). pose proof (wi_books _ _ _ _ Hinv) as HB.
  destruct (books_bounds n G s HB (wi_makers_length _ _ _ _ Hinv)) as (Hb1 & Hb2 & _).
  pose proof (span_size_nonneg (accepted G)) as Hb0.
  destruct (sent_make i local (next_id s)) as (payload & E & Hsent); [done | lia | lia |].
  exists (mkLedger (accepted G) (<[i := Some (next_id s)]> (pending G)) (unrecorded G) (queued G) (taken G) (was_closed G) (held G)), payload.
  split; [done |]. split; [done |]. rewrite <- (list_insert_id cs i Idle Hst).
  eapply (maker_moves n n G _ cs s _ i (MTake local) _ _ (Some (next_id s)) None); try done.
  - split; cbn; try done; [rewrite u64_small; lia].
  - symmetry. by apply list_insert_id.
  - assert (Hperm : accepted G ++ entries id (<[i := Some (next_id s)]> (pending G)) ≡ₚ
      next_id s :: accepted G ++ entries id (pending G)).
    { rewrite (entries_put id) by done. symmetry. apply Permutation_middle. }
    destruct HB. split; cbn [accepted pending unrecorded queued taken was_closed held set_maker set_next_id next_id
      w_published w_producer_errors w_published_ids w_metrics makers]; try done.
    + rewrite Hperm. constructor; [| done]. rewrite Forall_forall in bk_bound0. intros Hin. specialize (bk_bound0 _ Hin). lia.
    + rewrite Hperm, u64_small by lia. constructor; [lia |]. eapply Forall_impl; [exact bk_bound0 |]. simpl. lia.
    + rewrite (sumZ_fmap_insert _ _ _ (MTake local)), u64_small by (done || lia). simpl. lia.
    + rewrite (sumZ_fmap_insert _ _ _ (MTake local)) by done. simpl. lia.
  - cbn. lia.
  - cbn. apply (wi_closed _ _ _ _ Hinv).
  - cbn. split_and!; try done; rewrite !u64_small; lia.
Qed.

Lemma maker_records n G cs s i local id st :
  work_inv n G cs s -> (i < np)%nat -> makers s !! i = Some (MRecord local id) -> cs !! i = Some st ->
  exists G', same_queue G G' /\ work_inv n G' cs (set_maker (push_published_id s id) i (MCount local)).
Proof.
  intros Hinv Hi Hpc Hst. destruct (maker_state n G cs s i Hinv Hi) as (pc & st' & p & u & Hpc' & Hst' & Hp & Hu & Hok).
  simplify_eq. destruct Hok as (-> & -> & -> & Hl). pose proof (wi_books _ _ _ _ Hinv) as HB.
  exists (mkLedger (accepted G) (pending G) (<[i := None]> (unrecorded G)) (queued G) (taken G) (was_closed G) (held G)).
  split; [done |]. rewrite <- (list_insert_id cs i Idle Hst).
  eapply (maker_moves n n G _ cs s _ i (MRecord local id) _ _ None None); try done.
  - symmetry. by apply list_insert_id.
  - destruct HB. split; cbn [accepted pending unrecorded queued taken was_closed held set_maker push_published_id next_id
      w_published w_producer_errors w_published_ids w_metrics makers]; try done.
    + rewrite (sumZ_fmap_insert _ _ _ (MRecord local id)) by done. simpl. lia.
    + rewrite bk_published0, (entries_remove Datatypes.id) by done. by rewrite <- app_assoc.
    + rewrite (sumZ_fmap_insert _ _ _ (MRecord local id)) by done. unfold span_size in *. rewrite length_app. simpl. lia.
  - cbn. lia.
  - cbn. apply (wi_closed _ _ _ _ Hinv).
Qed.

Lemma maker_counts n G cs s i local st :
  work_inv n G cs s -> (i < np)%nat -> n + 70 < u64_modulus -> makers s !! i = Some (MCount local) -> cs !! i = Some st ->
  work_inv n G cs (set_maker (add_published s) i (MCheck local)).
Proof using Hnp.
  intros Hinv Hi Hn Hpc Hst. destruct (maker_state n G cs s i Hinv Hi) as (pc & st' & p & u & Hpc' & Hst' & Hp & Hu & Hok).
  simplify_eq. destruct Hok as (-> & -> & -> & Hl). pose proof (wi_books _ _ _ _ Hinv) as HB.
  destruct (books_bounds n G s HB (wi_makers_length _ _ _ _ Hinv)) as (Hb1 & Hb2 & Hb3 & Hb4).
  rewrite <- (list_insert_id cs i Idle Hst).
  eapply (maker_moves n n G G cs s _ i (MCount local) _ _ None None); try done.
  - symmetry. by apply list_insert_id.
  - symmetry. by apply list_insert_id.
  - destruct HB. split; cbn [set_maker add_published next_id
      w_published w_producer_errors w_published_ids w_metrics makers]; try done.
    + rewrite (sumZ_fmap_insert _ _ _ (MCount local)) by done. simpl. lia.
    + rewrite (sumZ_fmap_insert _ _ _ (MCount local)), u64_small by (done || lia). simpl. lia.
  - cbn. lia.
  - cbn. apply (wi_closed _ _ _ _ Hinv).
Qed.

Lemma maker_drops n G cs s i local id payload st :
  work_inv n G cs s -> (i < np)%nat -> makers s !! i = Some (MRecheck local id payload) -> cs !! i = Some st ->
  exists G', same_queue G G' /\ work_inv n G' cs (set_maker s i (MCheck local)).
Proof.
  intros Hinv Hi Hpc Hst. destruct (maker_state n G cs s i Hinv Hi) as (pc & st' & p & u & Hpc' & Hst' & Hp & Hu & Hok).
  simplify_eq. destruct Hok as (-> & -> & -> & Hsent & Hl). pose proof (wi_books _ _ _ _ Hinv) as HB.
  exists (mkLedger (accepted G) (<[i := None]> (pending G)) (unrecorded G) (queued G) (taken G) (was_closed G) (held G)).
  split; [done |]. rewrite <- (list_insert_id cs i Idle Hst).
  eapply (maker_moves n n G _ cs s _ i (MRecheck local id payload) _ _ None None); try done.
  - symmetry. by apply list_insert_id.
  - assert (Hperm : accepted G ++ entries Datatypes.id (pending G) ≡ₚ
      id :: accepted G ++ entries Datatypes.id (<[i := None]> (pending G))).
    { rewrite (entries_remove Datatypes.id) by done. symmetry. apply Permutation_middle. }
    destruct HB. split; cbn [accepted pending unrecorded queued taken was_closed held set_maker next_id
      w_published w_producer_errors w_published_ids w_metrics makers]; try done.
    + rewrite Hperm in bk_ids0. by inversion bk_ids0.
    + rewrite Hperm in bk_bound0. by inversion bk_bound0.
    + rewrite (sumZ_fmap_insert _ _ _ (MRecheck local id payload)) by done. simpl. lia.
    + rewrite (sumZ_fmap_insert _ _ _ (MRecheck local id payload)) by done. simpl. lia.
  - cbn. lia.
  - cbn. apply (wi_closed _ _ _ _ Hinv).
Qed.

Lemma remaining_bounds n G cs s : work_inv n G cs s -> 0 <= remaining s <= 64.
Proof using Hnp.
  intros Hinv. rewrite (wi_remaining _ _ _ _ Hinv). pose proof (sumZ_range 0 1 (active <$> makers s)) as Hs.
  rewrite length_fmap, (wi_makers_length _ _ _ _ Hinv) in Hs. destruct Hs; [| lia].
  apply Forall_fmap, Forall_true. intros pc. unfold compose. destruct pc; simpl; lia.
Qed.

Lemma maker_leaves n G cs s i st :
  work_inv n G cs s -> (i < np)%nat -> makers s !! i = Some MLeave -> cs !! i = Some st ->
  work_inv n G cs (set_maker (set_remaining s (remaining s -u 1)) i (if remaining s =? 1 then MFlag else MEnded)).
Proof using Hnp.
  intros Hinv Hi Hpc Hst. destruct (maker_state n G cs s i Hinv Hi) as (pc & st' & p & u & Hpc' & Hst' & Hp & Hu & Hok).
  simplify_eq. destruct Hok as (-> & -> & ->). pose proof (remaining_bounds n G cs s Hinv) as Hr.
  assert (Hne : remaining s <> 0).
  { intros E. by pose proof (makers_left n G cs s i MLeave Hinv E Hpc). }
  assert (Ha : active (if remaining s =? 1 then MFlag else MEnded) = 0) by (by destruct (_ =? _)).
  rewrite <- (list_insert_id cs i Idle Hst).
  eapply (maker_moves n n G G cs s _ i MLeave _ _ None None); try done.
  - symmetry. by apply list_insert_id.
  - symmetry. by apply list_insert_id.
  - destruct (wi_books _ _ _ _ Hinv). split; cbn [set_maker set_remaining next_id
      w_published w_producer_errors w_published_ids w_metrics makers]; try done;
      rewrite (sumZ_fmap_insert _ _ _ MLeave) by done; destruct (_ =? _); simpl; lia.
  - cbn [set_maker set_remaining remaining]. rewrite Ha, u64_small by (unfold u64_modulus; lia). simpl. lia.
  - intros Hcl%(wi_closed _ _ _ _ Hinv). done.
  - destruct (Z.eqb_spec (remaining s) 1) as [E | E]; cbn; [by rewrite E | done].
Qed.

Lemma maker_local n G cs s i s' :
  work_inv n G cs s -> (i < np)%nat -> n + 70 < u64_modulus -> maker_advance A psize s i = Some (None, s') ->
  exists G', same_queue G G' /\ work_inv n G' cs s'.
Proof using Hsize Hnp.
  intros Hinv Hi Hn Hadv. destruct (maker_state n G cs s i Hinv Hi) as (pc & st & p & u & Hpc & Hst & Hp & Hu & Hok).
  unfold maker_advance in Hadv. rewrite Hpc in Hadv.
  assert (Hgo : forall s1 pc', s' = set_maker s1 i pc' -> same_vars s s1 -> makers s1 = makers s ->
    active pc' = active pc -> counting pc' = counting pc -> awaiting pc <= awaiting pc' ->
    maker_ok s st p u pc' -> exists G', same_queue G G' /\ work_inv n G' cs s').
  { intros s1 pc' -> Hs Em Ha Hc Hw Hok'. exists G. split; [done |]. rewrite <- (list_insert_id cs i st Hst).
    eapply (maker_proceeds n n G cs s _ i pc pc'); try done; [| lia]. unfold set_maker. cbn. by rewrite Em. }
  destruct pc as [l | l | l id d | l id d | l id | l | l | l id d | l id d | | | | | |]; try done.
  - injection Hadv as <-. destruct Hok as (-> & -> & -> & Hl).
    by destruct (w_running s); eapply Hgo; try reflexivity.
  - injection Hadv as <-. destruct (maker_takes n G cs s i l st Hinv Hi Hn Hpc Hst) as (G' & payload & E & Hq & Hinv').
    exists G'. by rewrite E.
  - injection Hadv as <-. by apply (maker_records n G cs s i l id st).
  - injection Hadv as <-. exists G. split; [done |]. by apply (maker_counts n G cs s i l st).
  - injection Hadv as <-. by eapply (Hgo (add_full_retry s) (MRecheck l id d)).
  - injection Hadv as <-. destruct (w_running s); [by eapply (Hgo s (MPush l id d)) |].
    by apply (maker_drops n G cs s i l id d st).
  - injection Hadv as <-. exists G. split; [done |]. by apply (maker_leaves n G cs s i st).
  - injection Hadv as <-. destruct Hok as (-> & -> & -> & Hr).
    destruct (close_call A) as [o |] eqn:Ec; eapply (Hgo (set_producers_done s)); try reflexivity; try done.
    split_and!; try done. by exists o.
  - by destruct (close_call A).
Qed.

Lemma maker_calls n G cs s i o s' :
  work_inv n G cs s -> (i < np)%nat -> maker_advance A psize s i = Some (Some o, s') ->
  work_inv (n + 1) G (<[i := Called o]> cs) s'.
Proof.
  intros Hinv Hi Hadv. destruct (maker_state n G cs s i Hinv Hi) as (pc & st & p & u & Hpc & Hst & Hp & Hu & Hok).
  unfold maker_advance in Hadv. rewrite Hpc in Hadv.
  destruct pc as [l | l | l id d | l id d | l id | l | l | l id d | l id d | | | | | |]; try done.
  - injection Hadv as <- <-. destruct Hok as (-> & -> & -> & Hsent & Hl).
    eapply (maker_proceeds n (n + 1) G cs s _ i (MPush l id d) (MPushing l id d)); try done. cbn. lia.
  - destruct Hok as (-> & -> & -> & Hr & o' & Ec). rewrite Ec in Hadv. injection Hadv as <- <-.
    eapply (maker_proceeds n (n + 1) G cs s _ i MClose MClosing); try done. cbn. lia.
Qed.

Lemma maker_returns n G cs s i r s' :
  work_inv n G cs s -> (i < np)%nat -> cs !! i = Some (Finished r) -> work_receive A psize np s i r = Some s' ->
  work_inv (n + 1) G (<[i := Idle]> cs) s'.
Proof.
  intros Hinv Hi Hfin Hrec. destruct (maker_state n G cs s i Hinv Hi) as (pc & st & p & u & Hpc & Hst & Hp & Hu & Hok).
  rewrite Hfin in Hst. injection Hst as <-. unfold work_receive in Hrec. rewrite decide_True, Hpc in Hrec by done.
  destruct pc as [l | l | l id d | l id d | l id | l | l | l id d | l id d | | | | | |]; try done.
  - destruct Hok as (Hsent & Hl & w & E & Hw). rewrite E in Hrec. cbn [mbind option_bind] in Hrec. injection Hrec as <-.
    unfold maker_receive. destruct Hw as [(-> & -> & ->) | (-> & -> & ->)].
    + eapply (maker_proceeds n (n + 1) G cs s _ i (MPushing l id d) (MRecord l id)); try done. cbn. lia.
    + eapply (maker_proceeds n (n + 1) G cs s _ i (MPushing l id d) (MRetry l id d)); try done. cbn. lia.
  - destruct Hok as (-> & -> & Hr & E). rewrite E in Hrec. injection Hrec as <-.
    eapply (maker_proceeds n (n + 1) G cs s _ i MClosing MEnded); try done. cbn. lia.
Qed.

(** The queue accepts the payload of producer [i]. *)
Lemma maker_accepted n G cs s i local id payload r w :
  work_inv n G cs s -> (i < np)%nat -> makers s !! i = Some (MPushing local id payload) ->
  cs !! i = Some (Called (push_call A payload)) -> push_result A r = Some w -> w_status w = success ->
  work_inv n (mkLedger (accepted G ++ [id]) (<[i := None]> (pending G)) (<[i := Some id]> (unrecorded G))
      (queued G ++ [payload]) (taken G) (was_closed G) (held G)) (<[i := Finished r]> cs) s.
Proof.
  intros Hinv Hi Hpc Hst Ew Hw. destruct (maker_state n G cs s i Hinv Hi) as (pc & st & p & u & Hpc' & Hst' & Hp & Hu & Hok).
  simplify_eq. destruct Hok as (Hsent & Hl & _ & -> & ->). pose proof (wi_books _ _ _ _ Hinv) as HB.
  eapply (maker_moves n n G _ cs s s i (MPushing local id payload) (MPushing local id payload)); try done.
  - split; try done. intros [Hcl _]. pose proof (makers_left n G cs s i _ Hinv (wi_closed _ _ _ _ Hinv Hcl) Hpc). done.
  - symmetry. by apply list_insert_id.
  - assert (Hperm : (accepted G ++ [id]) ++ entries Datatypes.id (<[i := None]> (pending G)) ≡ₚ
      accepted G ++ entries Datatypes.id (pending G)).
    { rewrite <- app_assoc. f_equiv. symmetry. by apply (entries_remove Datatypes.id). }
    destruct HB. split; cbn [accepted pending unrecorded queued taken was_closed held]; try done.
    + by rewrite Hperm.
    + by rewrite Hperm.
    + rewrite (entries_put Datatypes.id) by done. rewrite bk_published0 at 1. rewrite <- app_assoc. f_equiv.
      symmetry. apply Permutation_cons_append.
    + rewrite fmap_app. cbn [fmap list_fmap]. rewrite (proj2 (proj2 Hsent)). rewrite bk_taken0 at 1. by rewrite <- !app_assoc.
    + unfold span_size in *. rewrite !length_app. simpl. lia.
    + apply Forall_app. split; [done |]. constructor; [| done]. destruct Hsent as (H1 & H2 & _). by split_and!.
  - lia.
  - cbn. apply (wi_closed _ _ _ _ Hinv).
  - cbn. split_and!; try done; try lia. exists w. split; [done |]. by left.
Qed.

(** The atomic object and the ledger. *)
Definition in_step (G : ledger) (a : St) : Prop := represents (queued G) (taken G) (was_closed G) a.

Lemma maker_lin n G cs cs' s i a o r a' :
  work_inv n G cs s -> in_step G a -> (i < np)%nat -> n + 70 < u64_modulus -> cs !! i = Some (Called o) -> spec cs' a o r a' ->
  exists G', work_inv n G' (<[i := Finished r]> cs) s /\ in_step G' a'.
Proof using Hnp.
  intros Hinv Ha Hi Hn Hcall Hs. destruct (maker_state n G cs s i Hinv Hi) as (pc & st & p & u & Hpc & Hst & Hp & Hu & Hok).
  rewrite Hcall in Hst. injection Hst as <-. pose proof (wi_books _ _ _ _ Hinv) as HB. unfold in_step in *.
  destruct (books_bounds n G s HB (wi_makers_length _ _ _ _ Hinv)) as (Hb1 & Hb2 & _). pose proof (bk_number _ _ _ HB) as [Hk1 Hk2].
  destruct pc as [l | l | l id d | l id d | l id | l | l | l id d | l id d | | | | | |]; try (by destruct Hok); try done.
  - destruct Hok as (Hsent & Hl & -> & -> & ->). destruct (was_closed G) eqn:Ecl.
    { pose proof (makers_left n G cs s i _ Hinv (wi_closed _ _ _ _ Hinv Ecl) Hpc). done. }
    unfold span_size in *.
    destruct (wq_push cs' a d r a' (queued G) (taken G)) as (w & Ew & [(Hw & Ha') | (Hw & Ha')]); [done | lia | lia | apply Hsent | done | |].
    + eexists. split; [by eapply (maker_accepted n G cs s i l id d r w) |]. cbn. by rewrite Ecl.
    + exists G. split; [| by rewrite Ecl]. eapply (maker_proceeds n n G cs s s i (MPushing l id d) (MPushing l id d)); try done.
      * symmetry. by apply list_insert_id.
      * cbn. split_and!; try done; try lia. exists w. split; [done |]. by right.
  - destruct Hok as (-> & -> & Hr & Ec). destruct (wq_close cs' a o r a' _ _ _ Ec Ha Hs) as [Ecr Ha'].
    exists (mkLedger (accepted G) (pending G) (unrecorded G) (queued G) (taken G) true (held G)). split; [| done].
    eapply (maker_moves n n G _ cs s s i MClosing MClosing); try done.
    + split; try done. by intros [_ Hq].
    + symmetry. by apply list_insert_id.
    + symmetry. by apply list_insert_id.
    + symmetry. by apply list_insert_id.
    + by destruct HB.
    + lia.
Qed.

(** *** Consumers *)

(** Consumer [i] moves on without an entry in the ledger. *)
Lemma taker_proceeds n n' G cs s i m m' pc' st' h :
  work_inv n G cs s -> (i < nc)%nat -> w_metrics s !! i = Some m -> held G !! i = Some h ->
  payload_ids m' = payload_ids m -> n <= n' -> taker_ok G m' st' h pc' ->
  work_inv n' G (<[(np + i)%nat := st']> cs) (set_taker s i m' pc').
Proof.
  intros Hinv Hi Hm Hh Eids Hn Hok. eapply (taker_moves n n' G G cs s _ i pc' m' st' h); try done.
  - symmetry. by apply list_insert_id.
  - destruct (wi_books _ _ _ _ Hinv). split; cbn [set_taker next_id w_published w_producer_errors w_published_ids w_metrics makers];
      try done; [lia |]. by rewrite (collect_payload_ids_same _ _ m).
Qed.

Lemma taker_local n G cs s i s' :
  work_inv n G cs s -> (i < nc)%nat -> taker_advance A psize s i = Some (None, s') -> work_inv n G cs s'.
Proof.
  intros Hinv Hi Hadv. destruct (taker_state n G cs s i Hinv Hi) as (pc & st & m & h & Hpc & Hst & Hm & Hh & Hok).
  unfold taker_advance in Hadv. rewrite Hpc, Hm in Hadv. destruct pc; try done. injection Hadv as <-.
  rewrite <- (list_insert_id cs (np + i) st Hst). destruct Hok as (Hf & -> & -> & Hne).
  destruct (producers_done s); eapply taker_proceeds; try done.
  - split; [done |]. split_and!; try done. congruence.
Qed.

Lemma taker_calls n G cs s i o s' :
  work_inv n G cs s -> (i < nc)%nat -> taker_advance A psize s i = Some (Some o, s') ->
  work_inv (n + 1) G (<[(np + i)%nat := Called o]> cs) s'.
Proof.
  intros Hinv Hi Hadv. destruct (taker_state n G cs s i Hinv Hi) as (pc & st & m & h & Hpc & Hst & Hm & Hh & Hok).
  unfold taker_advance in Hadv. rewrite Hpc, Hm in Hadv. destruct pc; try done. injection Hadv as <- <-.
  destruct Hok as (Hf & -> & ->). eapply taker_proceeds; try done; lia.
Qed.

(** What a consumer records of a payload it holds. *)
Lemma record_held G m id q p seq :
  metrics_fine G (Some (id, q)) m -> valid_payload p psize = Some true -> id_of p = id ->
  taken G < u64_modulus -> span_size (payload_ids m) + 1 < u64_modulus -> seq = q \/ seq = 0 ->
  exists m', record_payload m p psize seq = Some m' /\ payload_ids m' = payload_ids m ++ [id] /\ metrics_fine G None m'.
Proof.
  intros (Hv & Hr & Ht & Hq1 & Hq2) Hval Hid Htk Hlen Hseq. unfold record_payload. rewrite Hval. cbn [mbind option_bind negb].
  fold (id_of p). rewrite Hid. pose proof (span_size_nonneg (payload_ids m)) as Hnn.
  assert (Hnew : span_size (payload_ids m ++ [id]) = reads m +u 1).
  { rewrite u64_small by lia. unfold span_size in *. rewrite length_app. simpl. lia. }
  destruct (Z.eqb_spec seq 0) as [E | E].
  - eexists. split; [done |]. split; [done |]. unfold metrics_fine. cbn. split_and!; (done || lia).
  - destruct Hseq as [-> |]; [| done]. pose proof (record_spec (queue_sequences m) q Ht) as Hrec.
    destruct (record (queue_sequences m) q) as [b t']. destruct Hrec as (Ht' & -> & _ & Hh); [unfold u64_max; lia |].
    rewrite (proj2 (Z.ltb_lt _ _)) in * by lia. eexists. split; [done |]. split; [done |].
    unfold metrics_fine. cbn. rewrite Hh. split_and!; (done || lia).
Qed.

Lemma taker_returns n G cs s i r s' :
  work_inv n G cs s -> (i < nc)%nat -> n + 70 < u64_modulus -> cs !! (np + i)%nat = Some (Finished r) ->
  work_receive A psize np s (np + i) r = Some s' ->
  exists G', same_queue G G' /\ work_inv (n + 1) G' (<[(np + i)%nat := Idle]> cs) s'.
Proof using Hnp.
  intros Hinv Hi Hn Hfin Hrec. destruct (taker_state n G cs s i Hinv Hi) as (pc & st & m & h & Hpc & Hst & Hm & Hh & Hok).
  rewrite Hfin in Hst. injection Hst as <-. unfold work_receive in Hrec.
  rewrite decide_False, Nat.add_comm, Nat.add_sub, Hpc, Hm in Hrec by lia.
  destruct Hok as [Hf Hok]. destruct pc as [| d | | |]; try (by destruct Hok); try done.
  destruct Hok as (-> & res & p & E & Hres). rewrite E in Hrec. cbn [mbind option_bind] in Hrec. injection Hrec as <-.
  unfold taker_receive. destruct Hres as [(id & q & Hs & -> & Hval & Hid & Hseq) | [(Hs & -> & Hne) | (Hs & -> & Hov)]]; rewrite Hs.
  2: { exists G. split; [done |]. eapply taker_proceeds; try done. lia. }
  2: { exists G. split; [done |]. eapply taker_proceeds; try done; lia. }
  pose proof (wi_books _ _ _ _ Hinv) as HB.
  destruct (books_bounds n G s HB (wi_makers_length _ _ _ _ Hinv)) as (Hb1 & Hb2 & _). pose proof (bk_number _ _ _ HB) as [Hk1 Hk2].
  pose proof (collect_payload_ids_length _ _ _ Hm) as Hlen. pose proof (Permutation_length (bk_taken _ _ _ HB)) as Hpl.
  rewrite !length_app in Hpl. unfold span_size in *.
  destruct (record_held G m id q p (if has_queue_sequences A then r_sequence res else 0)) as (m' & -> & Hids & Hf'); try done.
  { lia. }
  { unfold span_size. lia. }
  { destruct (has_queue_sequences A); [left; by apply Hseq | by right]. }
  exists (mkLedger (accepted G) (pending G) (unrecorded G) (queued G) (taken G) (was_closed G) (<[i := None]> (held G))).
  split; [done |]. eapply (taker_moves n (n + 1) G _ cs s _ i TPop m' Idle None); try done.
  destruct HB. split; cbn [accepted pending unrecorded queued taken was_closed held set_taker next_id w_published
    w_producer_errors w_published_ids w_metrics makers]; try done; [lia |].
  rewrite (collect_payload_ids_app _ _ m _ id) by done. rewrite bk_taken0, (entries_remove fst) by done. cbn [fst].
  symmetry. apply Permutation_middle.
Qed.

Lemma taker_lin n G cs cs' s i a o r a' :
  work_inv n G cs s -> in_step G a -> (i < nc)%nat -> n + 70 < u64_modulus ->
  cs !! (np + i)%nat = Some (Called o) -> spec cs' a o r a' ->
  exists G', work_inv n G' (<[(np + i)%nat := Finished r]> cs) s /\ in_step G' a'.
Proof using Hnp Hsize.
  intros Hinv Ha Hi Hn Hcall Hs. destruct (taker_state n G cs s i Hinv Hi) as (pc & st & m & h & Hpc & Hst & Hm & Hh & Hok).
  rewrite Hcall in Hst. injection Hst as <-. pose proof (wi_books _ _ _ _ Hinv) as HB. unfold in_step in *.
  destruct (books_bounds n G s HB (wi_makers_length _ _ _ _ Hinv)) as (Hb1 & Hb2 & _). pose proof (bk_number _ _ _ HB) as [Hk1 Hk2].
  pose proof (bk_queued _ _ _ HB) as Hq. destruct Hok as [Hf Hok]. destruct pc as [| d | | |]; try (by destruct Hok); try done.
  destruct Hok as (-> & -> & ->). unfold span_size in *.
  assert (Hstay : forall st', taker_ok G m st' None (TPopping (fresh_payload psize)) -> work_inv n G (<[(np + i)%nat := st']> cs) s).
  { intros st' Hok. eapply (taker_moves n n G G cs s s i (TPopping (fresh_payload psize)) m); try done;
      try (symmetry; by apply list_insert_id). }
  destruct (wq_pop cs' a r a' (queued G) (taken G) (was_closed G)) as (res & p & E & Hres); [done | lia | lia | | done |].
  { eapply Forall_impl; [exact Hq |]. by intros x (Hx & _). }
  destruct Hres as [(q & qs & Eq & Hsu & Hsame & Hseq & Ha') | [(Hsu & Hne & Ha') | (Hsu & Hcl & Hnil & Ha')]].
  - exists (mkLedger (accepted G) (pending G) (unrecorded G) qs (taken G + 1) (was_closed G) (<[i := Some (id_of q, taken G + 1)]> (held G))).
    split; [| done]. rewrite Eq in Hq. inversion Hq as [| ? ? (Hfit & Hval & _) Hqs]; subst.
    destruct Hsame as [Hsz Hrd]. destruct Hfit as [Hps _].
    destruct (readable_ext p q psize Hsz Hrd) as [Eh Ev]; [rewrite Hsz, Hps; apply Hsize |].
    eapply (taker_moves n n G _ cs s s i (TPopping (fresh_payload psize)) m); try done; try (symmetry; by apply list_insert_id).
    + split; try done; [cbn; lia |]. intros [_ Hnil]. congruence.
    + destruct HB. split; cbn [accepted pending unrecorded queued taken was_closed held]; try done.
      * rewrite (entries_put fst) by done. rewrite bk_taken0, Eq. cbn [fmap list_fmap fst]. f_equiv.
        symmetry. apply Permutation_middle.
      * rewrite Eq in Hk2. unfold span_size. simpl in Hk2. lia.
    + destruct Hf as (F1 & F2 & F3 & F4). split; [unfold metrics_fine; cbn; split_and!; (done || lia) |]. split; [done |].
      exists res, p. split; [done |]. left. exists (id_of q), (taken G + 1). unfold id_of. rewrite Eh, Ev. by split_and!.
  - exists G. split; [| done]. apply Hstay. split; [done |]. split; [done |]. exists res, p. split; [done |]. right. by left.
  - exists G. split; [| done]. apply Hstay. split; [done |]. split; [done |]. exists res, p. split; [done |]. right. right. by split_and!.
Qed.

(** *** Executions *)

Definition system_inv (n : nat) (s : pool St thread_status * work_run) : Prop :=
  exists G, work_inv (Z.of_nat n) G (threads s.1) s.2 /\ in_step G (shared s.1).

Lemma stop_running_inv n G cs s : work_inv n G cs s -> work_inv n G cs (stop_running s).
Proof. intros []. split; try done. by destruct wi_books0. Qed.

Lemma work_local_step n G cs s t s' a :
  work_inv n G cs s -> in_step G a -> n + 70 < u64_modulus -> work_advance A psize np nc s t = Some (None, s') ->
  exists G', work_inv n G' cs s' /\ in_step G' a.
Proof using Hsize Hnp.
  intros Hinv Ha Hn Hadv. unfold work_advance in Hadv. case_decide as Hp; [| case_decide as Hi].
  - destruct (maker_local n G cs s t s' Hinv Hp Hn Hadv) as (G' & (E1 & E2 & E3) & Hinv').
    exists G'. split; [done |]. unfold in_step. by rewrite E1, E2, E3.
  - exists G. split; [| done]. by eapply taker_local.
  - destruct (w_running s); [| done]. injection Hadv as <-. exists G. split; [by apply stop_running_inv | done].
Qed.

Lemma work_call_step n G cs s t o s' :
  work_inv n G cs s -> cs !! t = Some Idle -> work_advance A psize np nc s t = Some (Some o, s') ->
  work_inv (n + 1) G (<[t := Called o]> cs) s'.
Proof.
  intros Hinv Hst Hadv. unfold work_advance in Hadv. case_decide as Hp; [| case_decide as Hi].
  - by eapply maker_calls.
  - replace t with (np + (t - np))%nat by lia. by eapply taker_calls.
  - by destruct (w_running s).
Qed.

Lemma work_return_step n G cs s t r s' a :
  work_inv n G cs s -> in_step G a -> n + 70 < u64_modulus -> cs !! t = Some (Finished r) ->
  work_receive A psize np s t r = Some s' ->
  exists G', work_inv (n + 1) G' (<[t := Idle]> cs) s' /\ in_step G' a.
Proof using Hnp.
  intros Hinv Ha Hn Hst Hrec. pose proof (lookup_lt_Some _ _ _ Hst) as Hlt. rewrite (wi_threads _ _ _ _ Hinv) in Hlt.
  destruct (decide (t < np)%nat) as [Hp | Hp].
  - exists G. split; [by eapply maker_returns | done].
  - replace t with (np + (t - np))%nat in * by lia.
    destruct (taker_returns n G cs s (t - np) r s' Hinv ltac:(lia) Hn Hst Hrec) as (G' & (E1 & E2 & E3) & Hinv').
    exists G'. split; [done |]. unfold in_step. by rewrite E1, E2, E3.
Qed.

Lemma work_system_step n s1 l s2 :
  Z.of_nat (n + length (trace_of l)) + 70 < u64_modulus -> system_inv n s1 ->
  system_step (client_step (Client0 := work_client A psize np nc)) (canon_step spec) s1 l s2 ->
  system_inv (n + length (trace_of l)) s2.
Proof using Hsize Hnp.
  intros Hn (G & Hinv & Ha) Hstep.
  destruct Hstep as [p p' s Ho | p s s' Hs | p p' s s' e Ho Hs]; cbn [fst snd] in Hinv, Ha; cbn [trace_of length] in *;
    rewrite ?Nat.add_0_r in *.
  - inversion Ho as [| a cs t o r a' Hst Hsp |]; subst. cbn [threads shared] in *.
    pose proof (lookup_lt_Some _ _ _ Hst) as Hlt. rewrite (wi_threads _ _ _ _ Hinv) in Hlt.
    destruct (decide (t < np)%nat) as [Hp | Hp].
    + by apply (maker_lin _ G cs cs s t a o r a').
    + replace t with (np + (t - np))%nat in * by lia.
      apply (taker_lin _ G cs cs s (t - np) a o r a'); try done. lia.
  - inversion Hs as [s0 t s0' Hadv | |]; subst. by apply (work_local_step _ G _ s t s').
  - rewrite Nat.add_1_r in *. unfold system_inv. rewrite Nat2Z.inj_succ in *. unfold Z.succ in *.
    inversion Ho as [a cs t o Hst | | a cs t r Hst]; subst; cbn [threads shared] in *;
      inversion Hs as [| s0 t0 o0 s0' Hadv | s0 t0 r0 s0' Hrec]; subst.
    + exists G. split; [by eapply work_call_step | done].
    + eapply (work_return_step _ G cs s t r s'); try done. lia.
Qed.

Lemma system_init : system_inv 0 (mkPool a0 (replicate (np + nc) Idle), work_init np nc).
Proof.
  assert (Hents : forall {X Y} (f : X -> Y) k, entries f (replicate k None) = []).
  { intros X Y f k. apply entries_None, Forall_replicate. done. }
  assert (Hcol : forall k, collect_payload_ids (replicate k fresh_metrics) = []) by (induction k; done).
  assert (Hsum : forall (f : maker_pc -> Z) k, sumZ (f <$> replicate k (MCheck 1)) = f (MCheck 1) * Z.of_nat k).
  { intros f k. induction k as [| k IH]; [simpl; lia |]. cbn [replicate fmap list_fmap]. rewrite sumZ_cons.
    fold (fmap (M := list) f (replicate k (MCheck 1))). rewrite IH. lia. }
  exists (mkLedger [] (replicate np None) (replicate np None) [] 0 false (replicate nc None)). split; [| apply wq_init].
  split; cbn [fst snd threads work_init pending unrecorded held makers takers w_metrics remaining]; rewrite ?length_replicate; try done.
  - split; cbn [work_init accepted pending unrecorded queued taken held next_id w_published w_published_ids
      w_metrics w_producer_errors makers app]; rewrite ?Hents, ?Hcol, ?Hsum; try done; try constructor; simpl; lia.
  - rewrite Hsum. simpl. lia.
  - intros i pc st p u H1 H2 H3 H4.
    apply lookup_replicate in H1 as [-> _], H2 as [-> _], H3 as [-> _], H4 as [-> _]. cbn. split_and!; (done || lia).
  - intros i pc st m h H1 H2 H3 H4.
    apply lookup_replicate in H1 as [-> _], H2 as [-> _], H3 as [-> _], H4 as [-> _].
    split; [| done]. unfold metrics_fine. cbn. split_and!; try done. apply tracker_ok_fresh.
Qed.

(** *** The end of a run *)

Lemma work_inv_ended n G cs s :
  work_inv n G cs s -> n + 70 < u64_modulus ->
  Forall (fun pc => pc = MEnded) (makers s) -> Forall (fun pc => pc = TEnded) (takers s) ->
  NoDup (w_published_ids s) /\ w_published_ids s ≡ₚ collect_payload_ids (w_metrics s) ++ (id_of <$> queued G) /\
  w_published s = span_size (w_published_ids s) /\
  total_validation_errors (work_verdict s) = (if decide (queued G = []) then 0 else 1) /\
  (never_empty = true -> (0 < nc)%nat -> queued G = []).
Proof using Hnp.
  intros Hinv Hn Hme Hte. pose proof (wi_books _ _ _ _ Hinv) as HB.
  assert (Hmk : forall i x y, (i < np)%nat -> pending G !! i = Some x -> unrecorded G !! i = Some y -> x = None /\ y = None).
  { intros i x y Hi Hx Hy. destruct (maker_state n G cs s i Hinv Hi) as (pc & st & p & u & Hpc & _ & Hp & Hu & Hok).
    apply (Forall_lookup_1 _ _ _ _ Hme) in Hpc as ->. simplify_eq. by destruct Hok as (_ & -> & ->). }
  assert (Hun : entries Datatypes.id (unrecorded G) = []).
  { apply entries_None, (all_none _ np); [by rewrite (wi_unrecorded _ _ _ _ Hinv) |]. intros i x Hi Hx.
    destruct (lookup_lt_is_Some_2 (pending G) i) as [y Hy]; [by rewrite (wi_pending _ _ _ _ Hinv) |]. by destruct (Hmk i y x). }
  assert (Htk : forall i, (i < nc)%nat -> held G !! i = Some None /\ (never_empty = true -> queued G = [])).
  { intros i Hi. destruct (taker_state n G cs s i Hinv Hi) as (pc & st & m & h & Hpc & _ & _ & Hh & Hok).
    apply (Forall_lookup_1 _ _ _ _ Hte) in Hpc as ->. destruct Hok as (_ & _ & -> & Ho). split; [done |]. intros H. by apply Ho. }
  assert (Hhe : entries fst (held G) = []).
  { apply entries_None, (all_none _ nc); [by rewrite (wi_held _ _ _ _ Hinv) |]. intros i x Hi Hx.
    destruct (Htk i Hi) as [H _]. congruence. }
  assert (Hmet : Forall (fun m => validation_errors m = 0 /\ reads m = span_size (payload_ids m)) (w_metrics s)).
  { apply Forall_lookup. intros i m Hm. assert (Hi : (i < nc)%nat) by (rewrite <- (wi_metrics_length _ _ _ _ Hinv); by eapply lookup_lt_Some).
    destruct (taker_state n G cs s i Hinv Hi) as (pc & st & m' & h & _ & _ & Hm' & _ & (Hv & Hr & _) & _). simplify_eq. done. }
  destruct (books_bounds n G s HB (wi_makers_length _ _ _ _ Hinv)) as (Hb1 & Hb2 & Hb3 & Hb4).
  assert (Hco : sumZ (counting <$> makers s) = 0).
  { apply sumZ_zeros, Forall_fmap. eapply Forall_impl; [exact Hme |]. by intros pc ->. }
  destruct HB. rewrite Hun, app_nil_r in bk_published0. rewrite Hhe in bk_taken0. cbn [app] in bk_taken0.
  assert (Hids : w_published_ids s ≡ₚ collect_payload_ids (w_metrics s) ++ (id_of <$> queued G)) by (by rewrite <- bk_published0).
  assert (Hnd : NoDup (w_published_ids s)) by (rewrite <- bk_published0; by apply NoDup_app in bk_ids0 as [? _]).
  split; [done |]. split; [done |]. split; [lia |]. split; [| intros H Hc; by apply (Htk 0%nat)].
  unfold work_verdict. rewrite bk_errors0, (verdict_of_rest _ _ _ (id_of <$> queued G)); try done; [| lia | lia].
  destruct (queued G); repeat case_decide; done.
Qed.

(** Threads that have ended are not inside a call. *)
Lemma threads_ended n G cs s :
  work_inv n G cs s -> Forall (fun pc => pc = MEnded) (makers s) -> Forall (fun pc => pc = TEnded) (takers s) ->
  Forall (fun st => st = Idle) cs.
Proof.
  intros Hinv Hme Hte. apply Forall_lookup. intros t st Hst. pose proof (lookup_lt_Some _ _ _ Hst) as Hlt.
  rewrite (wi_threads _ _ _ _ Hinv) in Hlt. destruct (decide (t < np)%nat) as [Hp | Hp].
  - destruct (maker_state n G cs s t Hinv Hp) as (pc & st' & p & u & Hpc & Hst' & _ & _ & Hok).
    apply (Forall_lookup_1 _ _ _ _ Hme) in Hpc as ->. simplify_eq. by destruct Hok.
  - replace t with (np + (t - np))%nat in Hst by lia.
    destruct (taker_state n G cs s (t - np) Hinv ltac:(lia)) as (pc & st' & m & h & Hpc & Hst' & _ & _ & Hok).
    apply (Forall_lookup_1 _ _ _ _ Hte) in Hpc as ->. simplify_eq. by destruct Hok as (_ & -> & _).
Qed.

(** The run over the atomic queue. *)
Lemma work_run_sound n h p s :
  exec (system_step (client_step (Client0 := work_client A psize np nc)) (canon_step spec)) n
    (mkPool a0 (replicate (np + nc) Idle), work_init np nc) h (p, s) ->
  Z.of_nat (length h) + 70 < u64_modulus ->
  (MUndefined ∉ makers s) /\ (TUndefined ∉ takers s) /\ w_producer_errors s = 0 /\
  Forall (fun m => validation_errors m = 0) (w_metrics s) /\
  (Forall (fun pc => pc = MEnded) (makers s) -> Forall (fun pc => pc = TEnded) (takers s) ->
   Forall (fun st => st = Idle) (threads p) /\
   exists qs k b, represents qs k b (shared p) /\ Forall (fits psize) qs /\ NoDup (w_published_ids s) /\
     w_published_ids s ≡ₚ collect_payload_ids (w_metrics s) ++ (id_of <$> qs) /\
     w_published s = span_size (w_published_ids s) /\
     total_validation_errors (work_verdict s) = (if decide (qs = []) then 0 else 1) /\
     (never_empty = true -> (0 < nc)%nat -> qs = [])).
Proof using Hsize Hnp WQ.
  intros Hex Hn.
  assert (Hinv : system_inv (length h) (p, s)).
  { eapply (exec_history_invariant _ system_inv _ (length h)); [apply system_init | | exact Hex | done].
    intros m s1 l s2 Hm. apply work_system_step. lia. }
  destruct Hinv as (G & Hinv & Hrep). cbn [fst snd] in Hinv, Hrep.
  split. { intros (i & Hi)%list_elem_of_lookup. assert (Hlt : (i < np)%nat)
      by (rewrite <- (wi_makers_length _ _ _ _ Hinv); by eapply lookup_lt_Some).
    destruct (maker_state _ G _ s i Hinv Hlt) as (pc & st & q & u & Hpc & _ & _ & _ & Hok). by simplify_eq. }
  split. { intros (i & Hi)%list_elem_of_lookup. assert (Hlt : (i < nc)%nat)
      by (rewrite <- (wi_takers_length _ _ _ _ Hinv); by eapply lookup_lt_Some).
    destruct (taker_state _ G _ s i Hinv Hlt) as (pc & st & m & h0 & Hpc & _ & _ & _ & _ & Hok). by simplify_eq. }
  split; [apply (wi_books _ _ _ _ Hinv) |]. split.
  { apply Forall_lookup. intros i m Hm. assert (Hlt : (i < nc)%nat)
      by (rewrite <- (wi_metrics_length _ _ _ _ Hinv); by eapply lookup_lt_Some).
    destruct (taker_state _ G _ s i Hinv Hlt) as (pc & st & m' & h0 & _ & _ & Hm' & _ & (Hv & _) & _). by simplify_eq. }
  intros Hme Hte. split; [by eapply threads_ended |].
  destruct (work_inv_ended _ G _ s Hinv Hn Hme Hte) as (H1 & H2 & H3 & H4 & H5).
  exists (queued G), (taken G), (was_closed G). split_and!; try done.
  eapply Forall_impl; [apply (wi_books _ _ _ _ Hinv) |]. by intros q [Hq _].
Qed.

End proofs.
