(* ===== verification/BenchmarkWorkRuns.v ===== *)
(** * The work-sharing benchmark over the queues of the library

    The adapters of [benchmarks/external_baselines/line64_mpmc_adapter.h] and
    [blocking_queue_adapter.h], and the proofs that the contracts of [MPMCQueue] and of
    [BlockingQueue] are what the run needs ([WorkQueue]).  Theorems: over either queue
    the run counts no error of its own and no payload is lost, duplicated or changed;
    over [BlockingQueue] it ends with everything read and reports no error.  Over
    [MPMCQueue] it reports one exactly if something was left in the queue, which can
    happen although the queue is correct ([mpmc_run_false_alarm]): [pop] looks at
    [producers_done] only after [try_pop] has come back empty. *)

From stdpp Require Import gmap fin_sets sorting.
From S2P Require Import Prelude Result FixedMessage Concurrency Clients BlockingQueue BlockingConcurrent.
From S2P Require Import BoundedFifo MPMCQueue MPMCConcurrent.
From S2P Require Import Bytes CommandLine SequenceTracker BenchmarkMessage BenchmarkDriver SPSCBenchmark BenchmarkWork.

(** ** [Line64MPMCAdapter] *)

Definition Line64MPMCAdapter : Adapter QueueOp QueueRes :=
  mkAdapter true
    (fun payload => TryPush (readable payload))
    (fun r => match r with Pushed w => Some w | _ => None end)
    (fun payload => TryPop (writable payload))
    (fun payload r => match r with Popped r d => Some (r, write_payload payload d) | _ => None end)
    None (fun _ => false).

(** Messages with the sequences [q], [q + 1], ... *)
Fixpoint numbered_tail (q : Z) (ps : list Payload) : list message :=
  match ps with
  | [] => []
  | p :: ps => (q, readable p) :: numbered_tail (q + 1) ps
  end.

Lemma numbered_tail_snoc q ps p :
  numbered_tail q (ps ++ [p]) = numbered_tail q ps ++ [(q + Z.of_nat (length ps), readable p)].
Proof.
  revert q. induction ps as [| p' ps IH]; intros q; cbn [app numbered_tail length]; [by rewrite Z.add_0_r |].
  rewrite IH. by replace (q + 1 + Z.of_nat (length ps)) with (q + Z.of_nat (S (length ps))) by lia.
Qed.

Lemma numbered_tail_length q ps : span_size (numbered_tail q ps) = Z.of_nat (length ps).
Proof.
  revert q. unfold span_size. induction ps as [| p ps IH]; intros q; simpl; [done |]. specialize (IH (q + 1)). lia.
Qed.

Definition fifo_represents (qs : list Payload) (k : Z) (b : bool) (a : fifo) : Prop :=
  items a = numbered_tail (k + 1) qs /\ BoundedFifo.pushed a = k + Z.of_nat (length qs).

Section mpmc.

Context (psize cap : Z).
Hypothesis Hsize : payload_header_size <= psize <= max_payload_size.

Lemma readable_length p : fits psize p -> span_size (readable p) = psize.
Proof using Hsize.
  intros [Es El]. unfold readable, span_size, payload_header_size, max_payload_size in *. rewrite length_take, El, Es. lia.
Qed.

(** What a pop leaves in the consumer's payload. *)
Lemma popped_payload p :
  fits psize p -> same_payload (write_payload (fresh_payload psize) (std_copy (readable p) (writable (fresh_payload psize)))) p.
Proof using Hsize.
  intros Hp. pose proof (readable_length p Hp) as Hr. pose proof (fresh_payload_size psize Hsize) as Hf. destruct Hp as [Es El].
  unfold span_size in *. split; [by rewrite Es |].
  assert (Hn : Z.to_nat psize = length (readable p)) by lia.
  unfold readable at 1. unfold write_payload. cbn [bytes size fresh_payload]. unfold std_copy at 1.
  rewrite take_app_le by (rewrite std_copy_length; lia). rewrite Hn. apply std_copy_prefix.
Qed.

#[local] Abbreviation mpmc_contract := (mpmc_spec max_payload_size cap).

Lemma fifo_push_law cs a p r a' qs k :
  fifo_represents qs k false a -> 0 <= k -> k + Z.of_nat (length qs) + 1 < u64_modulus -> fits psize p ->
  mpmc_contract cs a (TryPush (readable p)) r a' ->
  exists w, push_result Line64MPMCAdapter r = Some w /\
    ((w_status w = success /\ fifo_represents (qs ++ [p]) k false a') \/ (w_status w = full /\ fifo_represents qs k false a')).
Proof using Hsize.
  intros [Hi Hp] Hk Hb Hfit Hs. inversion Hs as [a1 o1 r1 a1' Hf | |]; subst; [| by eexists; split; [done |]; right; split].
  inversion Hf as [a1 pl w a1' Hpush | |]; subst. exists w. split; [done |]. unfold fifo_push in Hpush.
  rewrite (readable_length p Hfit), (proj2 (Z.ltb_ge _ _)) in Hpush by apply Hsize.
  destruct (_ =? cap); injection Hpush as <- <-; [by right |]. left. split; [done |]. unfold fifo_represents. cbn.
  rewrite numbered_tail_snoc, Hi, Hp, length_app, u64_small by lia. cbn [length]. split; [| lia].
  by replace (k + 1 + Z.of_nat (length qs)) with (k + Z.of_nat (length qs) + 1) by lia.
Qed.

Lemma fifo_pop_law cs a r a' qs k b :
  fifo_represents qs k b a -> Forall (fits psize) qs ->
  mpmc_contract cs a (TryPop (writable (fresh_payload psize))) r a' ->
  exists res p, pop_result Line64MPMCAdapter (fresh_payload psize) r = Some (res, p) /\
    ((exists q qs', qs = q :: qs' /\ r_status res = success /\ same_payload p q /\ r_sequence res = k + 1 /\
        fifo_represents qs' (k + 1) b a') \/
     (r_status res = empty /\ fifo_represents qs k b a')).
Proof using Hsize.
  intros [Hi Hp] Hfit Hs. inversion Hs as [a1 o1 r1 a1' Hf | |]; subst; [| eexists _, _; split; [done |]; by right].
  inversion Hf as [| a1 d res d' a1' Hpop |]; subst. eexists _, _. split; [done |]. unfold fifo_pop in Hpop. rewrite Hi in Hpop.
  destruct qs as [| q qs]; cbn [numbered_tail] in Hpop; [injection Hpop as <- <- <-; by right |]. left.
  inversion Hfit as [| ? ? Hq Hqs]; subst.
  rewrite deliver_success in Hpop by (cbn [snd]; rewrite (readable_length q Hq), fresh_payload_size by done; lia).
  cbn [ok r_status orb fst snd] in Hpop. injection Hpop as <- <- <-.
  exists q, qs. split_and!; try done; [by apply popped_payload |]. unfold fifo_represents. cbn. rewrite Hp. cbn [length]. split; [done | lia].
Qed.

#[local] Instance mpmc_work_queue : WorkQueue Line64MPMCAdapter mpmc_contract psize fifo_empty.
Proof using Hsize.
  refine {| represents := fifo_represents; never_empty := false |}.
  - done.
  - intros cs a p r a' qs k. apply fifo_push_law.
  - intros cs a r a' qs k b Ha _ _ Hfit Hs. destruct (fifo_pop_law cs a r a' qs k b Ha Hfit Hs) as (res & p & E & H).
    exists res, p. split; [done |]. destruct H as [(q & qs' & -> & H1 & H2 & H3 & H4) | [H1 H2]]; [left; by exists q, qs' | right; by left].
  - done.
Defined.

End mpmc.

(** ** [Line64BlockingQueueAdapter] *)

Definition Line64BlockingQueueAdapter : Adapter (BlockingOp Payload) (BlockingRes Payload) :=
  mkAdapter false
    (fun payload => BlockingQueue.TryPush payload)
    (fun r => match r with PushRes status => Some (mkWrite status 0) | _ => None end)
    (fun _ => Pop)
    (fun payload r =>
       match r with
       | PopRes None => Some (mkRead closed 0 0, payload)
       | PopRes (Some value) => Some (mkRead success (size value) 0, value)
       | _ => None
       end)
    (Some Close) (fun r => match r with CloseRes => true | _ => false end).

#[local] Instance blocking_work_queue psize cap :
  WorkQueue Line64BlockingQueueAdapter (strict (blocking_spec (T := Payload) cap)) psize (mkGuarded [] false).
Proof.
  refine {| represents := fun qs _ b a => a = mkGuarded qs b; never_empty := true |}.
  - done.
  - intros cs a p r a' qs k -> _ _ _ Hs. inversion Hs; subst; eexists; (split; [done |]); [by left | by right].
  - intros cs a r a' qs k b -> _ _ _ Hs. inversion Hs as [| | | | | x its b' | | | | | |]; subst; eexists _, _; (split; [done |]).
    + left. by exists x, its.
    + right. by right.
  - intros cs a o r a' qs k b [= <-] -> Hs. by inversion Hs; subst.
Defined.

(** ** Theorems *)

Section runs.

Context (have : baselines) (args : list string) (c : Config) (ss : list Scenario) (sc : Scenario).
Hypothesis Hargs : parse_config args = Value c.
Hypothesis Hss : scenarios_for have c = Value ss.
Hypothesis Hsc : sc ∈ ss.

Abbreviation np := (Z.to_nat (s_producers sc)).
Abbreviation nc := (Z.to_nat (s_consumers sc)).

Lemma run_bounds :
  payload_header_size <= payload_size c <= max_payload_size /\ (np <= 64)%nat /\ (0 < nc)%nat /\ 1 <= capacity c <= 1000000.
Proof using Hargs Hss Hsc.
  pose proof (benchmark_parse_config_ok args c Hargs) as Hc. destruct (scenarios_for_ok have c Hc ss Hss) as [_ Hok].
  rewrite Forall_forall in Hok. destruct (Hok sc Hsc). destruct Hc. unfold count_ok in *. split_and!; (done || lia).
Qed.

(** A run over [MPMCQueue] is one over the FIFO, and the two queues stay related. *)
Lemma mpmc_run_atomic q n h p s :
  MPMCQueue_new max_payload_size (capacity c) = inr q -> Z.of_nat n + capacity c < u64_modulus ->
  exec (system_step (client_step (Client0 := work_client Line64MPMCAdapter (payload_size c) np nc))
          (pool_step (ConcurrentObject0 := mpmc_object max_payload_size))) n
    (mpmc_init q (np + nc), work_init np nc) h (p, s) ->
  exists j m s1, exec (system_step (client_step (Client0 := work_client Line64MPMCAdapter (payload_size c) np nc))
      (canon_step (mpmc_spec max_payload_size (capacity c)))) j
    (mkPool fifo_empty (replicate (np + nc) Idle), work_init np nc) h (s1, s) /\ (length h <= n)%nat /\
    (m <= n)%nat /\ mpmc_sim max_payload_size (capacity c) m p s1.
Proof using Hargs Hss Hsc.
  intros Hq Hn Hex. destruct run_bounds as (_ & _ & _ & Hcap). unfold u64_modulus in *.
  destruct (client_simulation (client_step (Client0 := work_client Line64MPMCAdapter (payload_size c) np nc))
    (pool_step (ConcurrentObject0 := mpmc_object max_payload_size)) (canon_step (mpmc_spec max_payload_size (capacity c)))
    (mpmc_sim max_payload_size (capacity c)) (mpmc_init q (np + nc)) (mkPool fifo_empty (replicate (np + nc) Idle))
    (work_init np nc) n h p s) as (j & m & s1 & Hm & Hex' & Hsim);
    [| exact Hex |].
  { intros i h' p' Hi Hp. destruct (mpmc_exec_sim max_payload_size (capacity c) q (np + nc) i h' p')
      as (j & s1 & H & Hsim); try done; unfold u64_modulus; [lia | lia |]. by exists j, s1. }
  exists j, m, s1. split; [done |]. split; [by eapply exec_history_length | done].
Qed.

Lemma blocking_run_atomic q n h p s :
  BlockingQueue_new (T := Payload) (capacity c) = returns q ->
  exec (system_step (client_step (Client0 := work_client Line64BlockingQueueAdapter (payload_size c) np nc))
          (pool_step (ConcurrentObject0 := blocking_object (T := Payload)))) n
    (blocking_init q (np + nc), work_init np nc) h (p, s) ->
  exists j s1, exec (system_step (client_step (Client0 := work_client Line64BlockingQueueAdapter (payload_size c) np nc))
      (canon_step (strict (blocking_spec (T := Payload) (capacity c))))) j
    (mkPool (mkGuarded [] false) (replicate (np + nc) Idle), work_init np nc) h (s1, s) /\ (length h <= n)%nat.
Proof using Hargs Hss Hsc.
  intros Hq Hex. destruct run_bounds as (_ & _ & _ & Hcap).
  edestruct (client_over_atomic _ (strict (blocking_spec (capacity c))) _ (mkGuarded [] false) (np + nc) _ _ _ _ _ _ Hex) as (j & s1 & Hex').
  { intros i h' p' Hi Hp. destruct (blocking_exec_sim (capacity c) q (np + nc) i h' p') as (j & s1 & H & _); try done; [lia |].
    by exists j, s1. }
  exists j, s1. split; [done | by eapply exec_history_length].
Qed.

End runs.

(** The identifier in the header of a message. *)
Definition message_id (m : message) : Z := global_id (header_of_bytes m.2).

Lemma numbered_tail_ids psize qs q :
  payload_header_size <= psize <= max_payload_size -> Forall (fits psize) qs ->
  message_id <$> numbered_tail q qs = id_of <$> qs.
Proof.
  intros Hsize Hfit. revert q. induction Hfit as [| p qs [Es El] _ IH]; intros q; [done |].
  cbn [numbered_tail]. rewrite !fmap_cons, IH. f_equal. unfold message_id, id_of, read_header, readable.
  unfold payload_header_size, max_payload_size in *. cbn [snd].
  rewrite Es, (proj2 (Z.leb_le _ _)), header_of_bytes_take by lia. done.
Qed.

(** C36: For an accepted command line and a scenario it selects, the work-sharing run over
    [MPMCQueue]: no producer or consumer ever counts an error or accesses a payload
    out of bounds, and when all threads have ended, the identifiers recorded as
    published are distinct and are those the consumers read together with those of the
    messages that are still in the cells of the queue ([unread]); the run reports an
    error exactly if there are such messages. *)
Theorem mpmc_benchmark_run_sound have args c ss sc q n h p s :
  parse_config args = Value c -> scenarios_for have c = Value ss -> sc ∈ ss ->
  MPMCQueue_new max_payload_size (capacity c) = inr q -> Z.of_nat n + capacity c + 70 < u64_modulus ->
  let np := Z.to_nat (s_producers sc) in let nc := Z.to_nat (s_consumers sc) in
  exec (system_step (client_step (Client0 := work_client Line64MPMCAdapter (payload_size c) np nc))
          (pool_step (ConcurrentObject0 := mpmc_object max_payload_size))) n
    (mpmc_init q (np + nc), work_init np nc) h (p, s) ->
  (MUndefined ∉ makers s) /\ (TUndefined ∉ takers s) /\ w_producer_errors s = 0 /\
  Forall (fun m => validation_errors m = 0) (w_metrics s) /\
  (Forall (fun pc => pc = MEnded) (makers s) -> Forall (fun pc => pc = TEnded) (takers s) ->
   let left := unread (shared p) in
   NoDup (w_published_ids s) /\ w_published_ids s ≡ₚ collect_payload_ids (w_metrics s) ++ (message_id <$> left) /\
   w_published s = span_size (w_published_ids s) /\
   total_validation_errors (work_verdict s) = if decide (left = []) then 0 else 1).
Proof.
  intros Hargs Hss Hsc Hq Hn np nc Hex. destruct (run_bounds have args c ss sc Hargs Hss Hsc) as (Hps & Hnp & Hnc & Hcap).
  destruct (mpmc_run_atomic have args c ss sc Hargs Hss Hsc q n h p s Hq ltac:(lia) Hex) as (j & m & s1 & Hex' & Hl & Hm & Hsim).
  destruct (work_run_sound (WQ := mpmc_work_queue (payload_size c) (capacity c) Hps) np nc Hps Hnp j h s1 s Hex' ltac:(lia))
    as (H1 & H2 & H3 & H4 & H5).
  split_and!; try done. intros Hme Hte left. destruct (H5 Hme Hte) as (Hidle & qs & k & b & [Ei _] & Hfit & E1 & E2 & E3 & E4 & _).
  assert (El : left = numbered_tail (k + 1) qs).
  { unfold left. rewrite <- Ei. eapply (unread_items max_payload_size (capacity c) m); [exact Hsim | | lia].
    by eapply mpmc_all_idle. }
  rewrite El, (numbered_tail_ids (payload_size c)) by done. split_and!; try done. rewrite E4. by destruct qs.
Qed.

(** C38: The same run over [BlockingQueue]: it counts no error, and when all threads have
    ended every published identifier was read exactly once and the run reports no
    error. *)
Theorem blocking_benchmark_run_sound have args c ss sc q n h p s :
  parse_config args = Value c -> scenarios_for have c = Value ss -> sc ∈ ss ->
  BlockingQueue_new (T := Payload) (capacity c) = returns q -> Z.of_nat n + 70 < u64_modulus ->
  let np := Z.to_nat (s_producers sc) in let nc := Z.to_nat (s_consumers sc) in
  exec (system_step (client_step (Client0 := work_client Line64BlockingQueueAdapter (payload_size c) np nc))
          (pool_step (ConcurrentObject0 := blocking_object (T := Payload)))) n
    (blocking_init q (np + nc), work_init np nc) h (p, s) ->
  (MUndefined ∉ makers s) /\ (TUndefined ∉ takers s) /\ w_producer_errors s = 0 /\
  Forall (fun m => validation_errors m = 0) (w_metrics s) /\
  (Forall (fun pc => pc = MEnded) (makers s) -> Forall (fun pc => pc = TEnded) (takers s) ->
   NoDup (w_published_ids s) /\ collect_payload_ids (w_metrics s) ≡ₚ w_published_ids s /\
   w_published s = span_size (w_published_ids s) /\ total_validation_errors (work_verdict s) = 0).
Proof.
  intros Hargs Hss Hsc Hq Hn np nc Hex. destruct (run_bounds have args c ss sc Hargs Hss Hsc) as (Hps & Hnp & Hnc & Hcap).
  destruct (blocking_run_atomic have args c ss sc Hargs Hss Hsc q n h p s Hq Hex) as (j & s1 & Hex' & Hl).
  destruct (work_run_sound (WQ := blocking_work_queue (payload_size c) (capacity c)) np nc Hps Hnp j h s1 s Hex' ltac:(lia))
    as (H1 & H2 & H3 & H4 & H5).
  split_and!; try done. intros Hme Hte. destruct (H5 Hme Hte) as (_ & qs & k & b & _ & _ & E1 & E2 & E3 & E4 & E5).
  rewrite (E5 eq_refl Hnc) in E2, E4. rewrite app_nil_r in E2. by split_and!.
Qed.

(** ** Witnesses *)

Definition run_args (queue : string) : list string :=
  ["--queue"; queue; "--consumers"; "1"; "--producers"; "1"; "--capacity"; "2"; "--payload-size"; "32"; "--warmup-ms"; "0"; "--trials"; "1"].

Definition run_config (queue : string) : Config := mkConfig 250 0 1 2 32 1 [1] queue true true.

Definition mpmc_scenario : Scenario :=
  mkScenario line64_mpmc "Line64::MPMCQueue" "mpmc_work_sharing" "exclusive_pop" 1 1
    "Line64 mutex-free bounded sequence-cell MPMC".

Definition blocking_scenario : Scenario :=
  mkScenario line64_blocking "Line64::BlockingQueue" "mpmc_work_sharing" "exclusive_pop" 1 1
    "Line64 blocking MPMC exclusive-pop work-sharing baseline".

Definition pair_of_cells : MPMCQueue :=
  mkMPMC 2 1 [mkCell 0 (fresh_message 256); mkCell 1 (fresh_message 256)] 0 0.

Definition two_places : BlockingQueue Payload := mkBlocking 2 false [] false (fun _ => ∅).

Definition inside (t n : nat) : list system_choice := replicate n (Inside t 0).

(** The consumer finds the queue empty; then the producer publishes its last payload
    and ends; then the consumer sees [producers_done] and leaves. *)
Definition late_payload_schedule : list system_choice :=
  [Advance 1] ++ inside 1 2 ++ [Return 1] ++
  [Advance 0; Advance 0; Advance 0] ++ inside 0 5 ++ [Return 0; Advance 0; Advance 0; Advance 2; Advance 0; Advance 0; Advance 0] ++
  [Advance 1].

(** C37: The run over [MPMCQueue] can report an error although the queue is correct and no
    thread counted one: [late_payload_schedule] ends with all threads finished, the
    only published payload still in the queue, and one validation error. *)
Theorem mpmc_run_false_alarm :
  exists h p s,
    exec (system_step (client_step (Client0 := work_client Line64MPMCAdapter 32 1 1))
            (pool_step (ConcurrentObject0 := mpmc_object 256))) (length late_payload_schedule)
      (mpmc_init pair_of_cells 2, work_init 1 1) h (p, s) /\
    makers s = [MEnded] /\ takers s = [TEnded] /\ w_producer_errors s = 0 /\ w_published_ids s = [1] /\
    collect_payload_ids (w_metrics s) = [] /\ MPMCQueue.is_empty (shared p) = Some false /\
    total_validation_errors (work_verdict s) = 1.
Proof.
  eexists _, _, _. split.
  { apply (run_system_exec (ConcurrentObject0 := mpmc_object 256) (Client0 := work_client Line64MPMCAdapter 32 1 1)).
    vm_compute. reflexivity. }
  vm_compute. repeat split; reflexivity.
Qed.

(** The queue is closed after the payload was popped; the second pop reports it. *)
Definition blocking_schedule : list system_choice :=
  [Advance 0; Advance 0; Advance 0] ++ inside 0 5 ++ [Return 0; Advance 0; Advance 0; Advance 2; Advance 0; Advance 0; Advance 0] ++
  [Advance 1] ++ inside 1 5 ++ [Return 1; Advance 0] ++ inside 0 6 ++ [Return 0; Advance 1] ++ inside 1 4 ++ [Return 1].

Lemma mpmc_benchmark_run_sound_witness :
  exists h p s,
    exec (system_step (client_step (Client0 := work_client Line64MPMCAdapter 32 1 1))
            (pool_step (ConcurrentObject0 := mpmc_object 256))) (length late_payload_schedule)
      (mpmc_init pair_of_cells 2, work_init 1 1) h (p, s) /\
    [1] ≡ₚ [] ++ (message_id <$> unread (shared p)) /\ total_validation_errors (work_verdict s) = 1.
Proof.
  eexists _, _, _.
  match goal with |- ?A /\ _ => assert (Hex : A) end.
  { apply (run_system_exec (ConcurrentObject0 := mpmc_object 256) (Client0 := work_client Line64MPMCAdapter 32 1 1)).
    vm_compute. reflexivity. }
  split; [exact Hex |].
  destruct (mpmc_benchmark_run_sound sample_have (run_args "mpmc") (run_config "mpmc") [mpmc_scenario] mpmc_scenario
    pair_of_cells (length late_payload_schedule) _ _ _ ltac:(vm_compute; reflexivity) ltac:(vm_compute; reflexivity) ltac:(by left)
    eq_refl ltac:(vm_compute; reflexivity) Hex) as (_ & _ & _ & _ & H).
  destruct H as (_ & E & _ & Ev); [by repeat constructor | by repeat constructor |].
  split; [exact E | exact Ev].
Defined.

Lemma blocking_benchmark_run_sound_witness :
  exists h p s,
    exec (system_step (client_step (Client0 := work_client Line64BlockingQueueAdapter 32 1 1))
            (pool_step (ConcurrentObject0 := blocking_object (T := Payload)))) (length blocking_schedule)
      (blocking_init two_places 2, work_init 1 1) h (p, s) /\
    w_published_ids s = [1] /\ total_validation_errors (work_verdict s) = 0.
Proof.
  eexists _, _, _.
  match goal with |- ?A /\ _ => assert (Hex : A) end.
  { apply (run_system_exec (ConcurrentObject0 := blocking_object) (Client0 := work_client Line64BlockingQueueAdapter 32 1 1)).
    vm_compute. reflexivity. }
  split; [exact Hex |]. split; [reflexivity |].
  destruct (blocking_benchmark_run_sound sample_have (run_args "blocking") (run_config "blocking") [blocking_scenario] blocking_scenario
    two_places (length blocking_schedule) _ _ _ ltac:(vm_compute; reflexivity) ltac:(vm_compute; reflexivity) ltac:(by left)
    eq_refl ltac:(vm_compute; reflexivity) Hex) as (_ & _ & _ & _ & H).
  destruct H as (_ & _ & _ & E); [by repeat constructor | by repeat constructor | exact E].
Defined.
