(* ===== verification/BenchmarkMulticast.v ===== *)
(** * The multicast benchmark run ([run_spmc_multicast] in [benchmarks/queue_benchmark.cpp])

    The main thread registers a consumer handle per consumer thread and starts the
    thread with it, starts the producer, clears [running] after the measured time,
    joins the threads and computes the verdict.  A consumer reads as long as [running]
    is set or something published is ahead of its cursor.  The function is a template
    over the queue: the program is a client of the multicast contract.

    Theorem: over [SPMCMulticastQueue] and [VersionedSPMCQueue] the run counts no
    error whatever messages the consumers lose, every consumer has read payloads
    unchanged, in increasing order and without duplicates, only published ones are
    reported, and the verdict is zero. *)

From stdpp Require Import gmap fin_sets sorting.
From S2P Require Import Prelude Result FixedMessage Concurrency Clients Speculation Mutex MulticastContract.
From S2P Require Import SPMCMulticastQueue VersionedSPMCQueue VersionedConcurrent.
From S2P Require Import Bytes CommandLine SequenceTracker BenchmarkMessage BenchmarkDriver SPSCBenchmark BenchmarkWork.

Inductive publisher_pc : Type :=
| BUnborn
| BCheck (id : Z)
| BPublish (id : Z) (payload : Payload)
| BPublishing (id : Z)
| BEnded
| BUndefined.

(** A consumer thread owns its handle. *)
Inductive reader_pc : Type :=
| RUnborn
| RCheckRunning (consumer : Consumer)
| RCheckPublished (consumer : Consumer)
| RCheckingPublished (consumer : Consumer)
| RRead (consumer : Consumer)
| RReading (consumer : Consumer) (payload : Payload)
| REnded (consumer : Consumer)
| RUndefined.

Inductive main_pc : Type :=
| MainRegister (index : nat)
| MainRegistering (index : nat)
| MainSpawn
| MainSleep
| MainJoin
| MainPublished
| MainPublishing
| MainVerdict (published : Z).

Record multicast_run : Type := mkMulticastRun {
  m_running : bool;
  m_producer_errors : Z;
  m_metrics : list ConsumerMetrics;
  publisher : publisher_pc;
  readers : list reader_pc;
  main_thread : main_pc;
}.

Definition set_publisher (s : multicast_run) (pc : publisher_pc) : multicast_run :=
  mkMulticastRun (m_running s) (m_producer_errors s) (m_metrics s) pc (readers s) (main_thread s).

Definition count_publisher_error (s : multicast_run) : multicast_run :=
  mkMulticastRun (m_running s) (m_producer_errors s +u 1) (m_metrics s) (publisher s) (readers s) (main_thread s).

Definition set_reader (s : multicast_run) (i : nat) (m : ConsumerMetrics) (pc : reader_pc) : multicast_run :=
  mkMulticastRun (m_running s) (m_producer_errors s) (<[i := m]> (m_metrics s)) (publisher s) (<[i := pc]> (readers s)) (main_thread s).

Definition set_main_thread (s : multicast_run) (pc : main_pc) : multicast_run :=
  mkMulticastRun (m_running s) (m_producer_errors s) (m_metrics s) (publisher s) (readers s) pc.

(** [++metrics[index].lag_events] *)
Definition count_lag_event (m : ConsumerMetrics) : ConsumerMetrics :=
  mkMetrics (reads m) (lag_events m +u 1) (empty_retries m) (invalid_payloads m) (validation_errors m)
    (payload_ids m) (queue_sequences m).

Section run.

(** [config.payload_size] and [scenario.consumers]. *)
Context (psize : Z) (nc : nat).

Definition multicast_init : multicast_run :=
  mkMulticastRun true 0 (replicate nc fresh_metrics) BUnborn (replicate nc RUnborn) (MainRegister 0).

Definition publisher_advance (s : multicast_run) : option (option McOp * multicast_run) :=
  match publisher s with
  | BCheck id =>
      Some (None, set_publisher s
        (if m_running s then
           match make_payload psize 0 id id with
           | Some payload => BPublish id payload
           | None => BUndefined
           end
         else BEnded))
  | BPublish id payload => Some (Some (McPublish (readable payload)), set_publisher s (BPublishing id))
  | _ => None
  end.

(** After [queue.try_publish(readable(payload))]. *)
Definition publisher_receive (s : multicast_run) (id : Z) (r : WriteResult) : multicast_run :=
  match w_status r with
  | success =>
      set_publisher (if w_sequence r =? id then s else count_publisher_error s) (BCheck (id +u 1))
  | _ => set_publisher (count_publisher_error s) (BCheck id)
  end.

(** [while (running.load() || consumer.next_sequence() <= queue.published_sequence())] *)
Definition reader_advance (s : multicast_run) (i : nat) : option (option McOp * multicast_run) :=
  match readers s !! i, m_metrics s !! i with
  | Some (RCheckRunning consumer), Some m =>
      Some (None, set_reader s i m (if m_running s then RRead consumer else RCheckPublished consumer))
  | Some (RCheckPublished consumer), Some m => Some (Some McPublished, set_reader s i m (RCheckingPublished consumer))
  | Some (RRead consumer), Some m =>
      Some (Some (McRead consumer (writable (fresh_payload psize))),
            set_reader s i m (RReading consumer (fresh_payload psize)))
  | _, _ => None
  end.

(** After [consumer.try_read(writable(payload))]. *)
Definition read_receive (s : multicast_run) (i : nat) (m : ConsumerMetrics) (r : ReadResult) (consumer : Consumer)
    (payload : Payload) : multicast_run :=
  match r_status r with
  | success =>
      match record_payload m payload psize (r_sequence r) with
      | Some m => set_reader s i m (RCheckRunning consumer)
      | None => set_reader s i m RUndefined
      end
  | consumer_lagged | overwritten => set_reader s i (count_lag_event m) (RCheckRunning consumer)
  | empty => set_reader s i (count_empty_retry m) (RCheckRunning consumer)
  | _ => set_reader s i (count_validation_error m) (REnded consumer)
  end.

Definition reader_receive (s : multicast_run) (i : nat) (r : McRes) : option multicast_run :=
  match readers s !! i, m_metrics s !! i, r with
  | Some (RCheckingPublished consumer), Some m, McPublishedIs n =>
      Some (set_reader s i m (if next_sequence consumer <=? n then RRead consumer else REnded consumer))
  | Some (RReading _ payload), Some m, McReadDone r consumer d =>
      Some (read_receive s i m r consumer (write_payload payload d))
  | _, _, _ => None
  end.

Definition reader_ended (pc : reader_pc) : bool := match pc with REnded _ => true | _ => false end.

Definition main_thread_advance (s : multicast_run) : option (option McOp * multicast_run) :=
  match main_thread s with
  | MainRegister index =>
      if decide (index < nc)%nat then Some (Some McRegister, set_main_thread s (MainRegistering index))
      else Some (None, set_main_thread s MainSpawn)
  | MainSpawn => Some (None, set_main_thread (set_publisher s (BCheck 1)) MainSleep)
  | MainSleep =>
      Some (None, mkMulticastRun false (m_producer_errors s) (m_metrics s) (publisher s) (readers s) MainJoin)
  | MainJoin =>
      match publisher s with
      | BEnded => if forallb reader_ended (readers s) then Some (None, set_main_thread s MainPublished) else None
      | _ => None
      end
  | MainPublished => Some (Some McPublished, set_main_thread s MainPublishing)
  | _ => None
  end.

(** The handle is moved into the closure of the new thread. *)
Definition main_thread_receive (s : multicast_run) (r : McRes) : option multicast_run :=
  match main_thread s, r with
  | MainRegistering index, McRegistered consumer =>
      m ← m_metrics s !! index;
      Some (set_main_thread (set_reader s index m (RCheckRunning (move_construct consumer).1)) (MainRegister (S index)))
  | MainPublishing, McPublishedIs n => Some (set_main_thread s (MainVerdict n))
  | _, _ => None
  end.

(** The producer, the consumers, and the main thread. *)
Definition multicast_advance (s : multicast_run) (t : nat) : option (option McOp * multicast_run) :=
  match t with
  | O => publisher_advance s
  | S i => if decide (i < nc)%nat then reader_advance s i else if decide (i = nc) then main_thread_advance s else None
  end.

Definition multicast_receive (s : multicast_run) (t : nat) (r : McRes) : option multicast_run :=
  match t with
  | O => match publisher s, r with BPublishing id, McWritten r => Some (publisher_receive s id r) | _, _ => None end
  | S i => if decide (i < nc)%nat then reader_receive s i r else main_thread_receive s r
  end.

#[local] Instance multicast_run_client : Client McOp McRes multicast_run := {|
  advance := multicast_advance; receive := multicast_receive;
|}.

(** What [make_result] is called with. *)
Definition multicast_run_verdict (s : multicast_run) (published : Z) : Verdict :=
  make_result published [] (m_metrics s) (m_producer_errors s) false.

End run.

#[export] Existing Instance multicast_run_client.

(** ** The run over the contract *)

Section proofs.

Context (psize cap : Z) (lossy : bool) (nc : nat).
Hypothesis Hsize : payload_header_size <= psize <= max_payload_size.
Hypothesis Hcap : 0 < cap.

Abbreviation thread_status := (status McOp McRes).

#[local] Opaque image.

(** The log when [n] payloads have been published. *)
Definition bench_log (n : Z) : log := image psize <$> seqZ 1 n.

Lemma bench_log_size n : 0 <= n -> span_size (bench_log n) = n.
Proof. intros H. unfold span_size, bench_log. rewrite length_fmap, length_seqZ. lia. Qed.

Lemma bench_log_snoc n : 0 <= n -> bench_log (n + 1) = bench_log n ++ [image psize (n + 1)].
Proof. intros H. unfold bench_log. rewrite seqZ_snoc, fmap_app by done. by rewrite (Z.add_comm 1 n). Qed.

Lemma bench_log_lookup n i payload :
  1 <= i <= n -> bench_log n !! Z.to_nat (i - 1) = Some payload -> payload = image psize i.
Proof.
  intros Hi H. unfold bench_log in H. apply list_lookup_fmap_Some in H as (j & -> & Hj).
  apply lookup_seqZ in Hj as [-> _]. apply (f_equal (image psize)). lia.
Qed.

Definition handle_ok (n : Z) (h : Consumer) : Prop := queue_ h = true /\ 1 <= next_sequence_ h <= n + 1.

(** The metrics of a consumer whose cursor is [next]. *)
Record reader_metrics_ok (next : Z) (m : ConsumerMetrics) : Prop := {
  rm_errors : validation_errors m = 0;
  rm_reads : reads m = span_size (payload_ids m);
  rm_sorted : StronglySorted Z.lt (payload_ids m);
  rm_range : Forall (fun i => 1 <= i < next) (payload_ids m);
  rm_tracker : tracker_ok (queue_sequences m);
  rm_highest : highest (queue_sequences m) < next;
}.

(** What a read can have returned. *)
Inductive read_result (n : Z) (h : Consumer) : ReadResult -> Consumer -> list byte -> Prop :=
| result_delivery h' :
    next_sequence_ h <= n -> queue_ h' = true -> next_sequence_ h' = next_sequence_ h + 1 ->
    read_result n h (mkRead success psize (next_sequence_ h)) h'
      (std_copy (image psize (next_sequence_ h)) (writable (fresh_payload psize)))
| result_loss r h' d :
    reports_loss r -> queue_ h' = true -> next_sequence_ h <= next_sequence_ h' <= n + 1 -> read_result n h r h' d
| result_empty r h' d :
    r_status r = empty -> queue_ h' = true -> next_sequence_ h' = next_sequence_ h -> read_result n h r h' d.

Definition publisher_ok (L n : Z) (st : thread_status) (pc : publisher_pc) : Prop :=
  match pc with
  | BUnborn => st = Idle /\ n = 0
  | BCheck id => st = Idle /\ id = n + 1
  | BPublish id payload => st = Idle /\ id = n + 1 /\ readable payload = image psize id
  | BPublishing id =>
      match st with
      | Called o => o = McPublish (image psize id) /\ id = n + 1 /\ n + 1 <= L
      | Finished (McWritten r) => r = mkWrite success n /\ id = n
      | _ => False
      end
  | BEnded => st = Idle
  | BUndefined => False
  end.

Definition reader_ok (n : Z) (st : thread_status) (m : ConsumerMetrics) (pc : reader_pc) : Prop :=
  match pc with
  | RUnborn => st = Idle /\ m = fresh_metrics
  | RCheckRunning h | RCheckPublished h | RRead h | REnded h =>
      st = Idle /\ handle_ok n h /\ reader_metrics_ok (next_sequence_ h) m
  | RCheckingPublished h =>
      handle_ok n h /\ reader_metrics_ok (next_sequence_ h) m /\
      match st with Called o => o = McPublished | Finished (McPublishedIs _) => True | _ => False end
  | RReading h payload =>
      handle_ok n h /\ reader_metrics_ok (next_sequence_ h) m /\ payload = fresh_payload psize /\
      match st with
      | Called o => o = McRead h (writable (fresh_payload psize))
      | Finished (McReadDone r h' d) => read_result n h r h' d
      | _ => False
      end
  | RUndefined => False
  end.

Definition unborn_from (s : multicast_run) (index : nat) : Prop :=
  forall j pc, (index <= j)%nat -> readers s !! j = Some pc -> pc = RUnborn.

Definition main_ok (n : Z) (st : thread_status) (s : multicast_run) : Prop :=
  match main_thread s with
  | MainRegister index => st = Idle /\ publisher s = BUnborn /\ unborn_from s index
  | MainRegistering index =>
      (index < nc)%nat /\ publisher s = BUnborn /\ unborn_from s index /\
      match st with
      | Called o => o = McRegister
      | Finished (McRegistered h) => handle_ok n h
      | _ => False
      end
  | MainSpawn => st = Idle /\ publisher s = BUnborn
  | MainSleep | MainJoin => st = Idle
  | MainPublished => st = Idle /\ publisher s = BEnded
  | MainPublishing =>
      publisher s = BEnded /\
      match st with Called o => o = McPublished | Finished (McPublishedIs k) => k = n | _ => False end
  | MainVerdict k => st = Idle /\ publisher s = BEnded /\ k = n
  end.

Record run_inv (L n : Z) (cs : list thread_status) (s : multicast_run) : Prop := {
  ri_threads : length cs = S (S nc);
  ri_readers_length : length (readers s) = nc;
  ri_metrics_length : length (m_metrics s) = nc;
  ri_errors : m_producer_errors s = 0;
  ri_published : 0 <= n <= L;
  ri_publisher : forall st, cs !! 0%nat = Some st -> publisher_ok L n st (publisher s);
  ri_readers : forall i pc m st, readers s !! i = Some pc -> m_metrics s !! i = Some m -> cs !! S i = Some st ->
    reader_ok n st m pc;
  ri_main : forall st, cs !! S nc = Some st -> main_ok n st s;
}.


(** *** Frames *)

Lemma reader_metrics_mono next next' m : next <= next' -> reader_metrics_ok next m -> reader_metrics_ok next' m.
Proof. intros H []. split; try done; [| lia]. eapply Forall_impl; [exact rm_range0 |]. simpl. lia. Qed.

Lemma reader_handle_mono n n' h : n <= n' -> handle_ok n h -> handle_ok n' h.
Proof. intros H [? ?]. split; [done | lia]. Qed.

Lemma reader_ok_mono n n' st m pc : n <= n' -> reader_ok n st m pc -> reader_ok n' st m pc.
Proof.
  intros Hn. pose proof (fun h => reader_handle_mono n n' h Hn) as Hh. destruct pc; cbn [reader_ok]; try done.
  all: try (intros (H1 & H2 & H3); split; [done |]; split; [by apply Hh | done]).
  - intros (H1 & H2 & H3). split; [by apply Hh | done].
  - intros (H1 & H2 & H3 & H4). split; [by apply Hh |]. split; [done |]. split; [done |].
    destruct st as [| | []]; try done. destruct H4; [apply result_delivery | apply result_loss | apply result_empty]; try done; lia.
Qed.

Lemma publisher_ok_mono L L' n st pc : L <= L' -> publisher_ok L n st pc -> publisher_ok L' n st pc.
Proof.
  intros HL. destruct pc as [| | | id | |]; try exact (fun H => H). cbn [publisher_ok].
  destruct st as [| o |]; try exact (fun H => H). intros (H1 & H2 & H3). split; [exact H1 |]. split; [exact H2 | lia].
Qed.

Lemma publisher_moves L L' n n' cs s s' st' :
  run_inv L n cs s -> publisher s <> BUnborn -> publisher s <> BEnded -> n <= n' <= L' -> L <= L' ->
  readers s' = readers s -> m_metrics s' = m_metrics s -> main_thread s' = main_thread s -> m_producer_errors s' = 0 ->
  publisher_ok L' n' st' (publisher s') -> run_inv L' n' (<[0%nat := st']> cs) s'.
Proof.
  intros Hinv Hu He Hn HL Er Em Ema Eerr Hok. destruct Hinv. split; rewrite ?length_insert, ?Er, ?Em; try done; [lia | | |].
  - intros st Hst. rewrite list_lookup_insert_eq in Hst by lia. by injection Hst as <-.
  - intros i pc m st H1 H2 H3. rewrite list_lookup_insert_ne in H3 by done.
    eapply (reader_ok_mono n); [lia | by eapply ri_readers0].
  - intros st Hst. rewrite list_lookup_insert_ne in Hst by done. specialize (ri_main0 st Hst).
    unfold main_ok in *. rewrite Ema. destruct (main_thread s); try exact ri_main0; exfalso.
    + by destruct ri_main0 as (_ & ? & _).
    + by destruct ri_main0 as (_ & ? & _).
    + by destruct ri_main0 as (_ & ?).
    + by destruct ri_main0 as (_ & ?).
    + by destruct ri_main0 as (? & _).
    + by destruct ri_main0 as (_ & ? & _).
Qed.

Lemma reader_moves L L' n cs s i pc pc' m' st' :
  run_inv L n cs s -> L <= L' -> (i < nc)%nat -> readers s !! i = Some pc -> pc <> RUnborn -> reader_ok n st' m' pc' ->
  run_inv L' n (<[S i := st']> cs) (set_reader s i m' pc').
Proof.
  intros Hinv HL Hi Hpc Hu Hok. destruct Hinv.
  split; cbn [set_reader readers m_metrics publisher m_producer_errors]; rewrite ?length_insert; try done; [lia | | |].
  - intros st Hst. rewrite list_lookup_insert_ne in Hst by done. eapply publisher_ok_mono; [exact HL | auto].
  - intros j pcj m st H1 H2 H3. destruct (decide (j = i)) as [-> | Hne].
    + rewrite list_lookup_insert_eq in H1 by lia. rewrite list_lookup_insert_eq in H2 by lia.
      rewrite list_lookup_insert_eq in H3 by lia. by simplify_eq.
    + rewrite list_lookup_insert_ne in H1 by done. rewrite list_lookup_insert_ne in H2 by done.
      rewrite list_lookup_insert_ne in H3 by congruence. by eapply ri_readers0.
  - intros st Hst. rewrite list_lookup_insert_ne in Hst by lia. specialize (ri_main0 st Hst).
    assert (Hun : forall k, unborn_from s k -> unborn_from (set_reader s i m' pc') k).
    { intros k Hk j pcj Hj. cbn. destruct (decide (j = i)) as [-> | Hne]; [destruct Hu; by apply (Hk i) |].
      rewrite list_lookup_insert_ne by done. by apply Hk. }
    unfold main_ok in *. cbn [set_reader main_thread publisher]. destruct (main_thread s); try exact ri_main0.
    + destruct ri_main0 as (H1 & H2 & H3). split; [done |]. split; [done | by apply Hun].
    + destruct ri_main0 as (H1 & H2 & H3 & H4). split; [done |]. split; [done |]. split; [by apply Hun | done].
Qed.

Lemma reader_exists L n cs s i :
  run_inv L n cs s -> (i < nc)%nat ->
  exists pc m st, readers s !! i = Some pc /\ m_metrics s !! i = Some m /\ cs !! S i = Some st /\ reader_ok n st m pc.
Proof.
  intros [] Hi. destruct (lookup_lt_is_Some_2 (readers s) i) as [pc Hpc]; [lia |].
  destruct (lookup_lt_is_Some_2 (m_metrics s) i) as [m Hm]; [lia |]. destruct (lookup_lt_is_Some_2 cs (S i)) as [st Hst]; [lia |].
  exists pc, m, st. split_and!; try done. by eapply ri_readers0.
Qed.

(** *** Linearization points *)

Lemma bench_read_lin n h cs r h' d l' :
  0 <= n -> n < u64_modulus -> handle_ok n h ->
  mc_spec max_payload_size cap lossy cs (bench_log n) (McRead h (writable (fresh_payload psize))) (McReadDone r h' d) l' ->
  read_result n h r h' d.
Proof using Hsize Hcap.
  intros Hn Hm [Hq Hr] Hs.
  destruct (mc_spec_read_outcome _ _ Hcap _ _ _ _ _ _ _ _ _ Hs Hq) as [Hq' Ho]; [by rewrite bench_log_size |].
  inversion Ho as [payload H1 H2 H3 | r0 next' H1 H2 H3 | r0 H1]; subst; rewrite ?bench_log_size in * by done.
  - assert (Hp := oldest_pos _ Hcap (bench_log n)). apply bench_log_lookup in H2 as ->; [| lia].
    rewrite (bench_image_size psize Hsize) by (split; lia). apply result_delivery; [lia | done | done].
  - by apply result_loss.
  - destruct H1 as [[H1 _] | [H1 H2]]; [by apply result_empty |]. exfalso.
    inversion Hs as [| | | ? ? ? ? ? ? H | ? ? ? ? ? ? _ _ _ _ H]; subst.
    + unfold mc_read in H. rewrite Hq in H. simpl in H. rewrite bench_log_size in H by done.
      rewrite (proj2 (Z.ltb_ge n _)) in H by lia. destruct (_ <? oldest _ _); [by simplify_eq |].
      rewrite deliver_success in H; [by simplify_eq |].
      rewrite (fresh_payload_size psize Hsize). unfold entry. cbn [snd].
      destruct (bench_log n !! _) as [payload |] eqn:E; simpl.
      * apply bench_log_lookup in E as ->; [| lia]. rewrite (bench_image_size psize Hsize); [lia | split; lia].
      * unfold payload_header_size in Hsize. unfold span_size. simpl. lia.
    + unfold mc_lost in H. by simplify_eq.
Qed.

Lemma bench_inv_lin L n cs cs' s t o r l' :
  run_inv L n cs s -> L < u64_modulus -> cs !! t = Some (Called o) ->
  mc_spec max_payload_size cap lossy cs' (bench_log n) o r l' ->
  exists n', l' = bench_log n' /\ run_inv L n' (<[t := Finished r]> cs) s.
Proof using Hsize Hcap.
  intros Hinv HL Hst Hs. pose proof (ri_published _ _ _ _ Hinv) as Hn. pose proof (lookup_lt_Some _ _ _ Hst) as Hlt.
  rewrite (ri_threads _ _ _ _ Hinv) in Hlt. destruct t as [| i].
  - pose proof (ri_publisher _ _ _ _ Hinv _ Hst) as Hok. unfold publisher_ok in Hok.
    destruct (publisher s) as [| | | id | |] eqn:Ep; try (by destruct Hok); try done. destruct Hok as (-> & -> & Hle).
    inversion Hs as [? ? ? ? H | | | |]; subst. unfold mc_publish in H.
    rewrite (bench_image_size psize Hsize), bench_log_size, (proj2 (Z.ltb_ge _ _)) in H by (done || apply Hsize || lia || (split; lia)).
    injection H as <- <-. exists (n + 1). split; [by rewrite bench_log_snoc by lia |].
    eapply (publisher_moves L L n (n + 1) cs s s); rewrite ?Ep; try done; try lia. apply (ri_errors _ _ _ _ Hinv).
  - exists n. destruct (decide (i < nc)%nat) as [Hi | Hi].
    + destruct (reader_exists L n cs s i Hinv Hi) as (pc & m & st & Hpc & Hm & Hst' & Hok). rewrite Hst in Hst'. injection Hst' as <-.
      assert (Hself : s = set_reader s i m pc).
      { unfold set_reader. rewrite !list_insert_id by done. by destruct s. }
      assert (Hgo : l' = bench_log n -> pc <> RUnborn -> reader_ok n (Finished r) m pc ->
        l' = bench_log n /\ run_inv L n (<[S i := Finished r]> cs) s).
      { intros El Hu Hnew. split; [done |]. rewrite Hself. by eapply (reader_moves L L n cs s i pc). }
      destruct pc as [| h | h | h | h | h d | h |]; cbn [reader_ok] in Hok; try (by destruct Hok); try done.
      * destruct Hok as (H1 & H2 & ->). inversion Hs; subst. by apply Hgo.
      * destruct Hok as (H1 & H2 & -> & ->). destruct (mc_spec_read_shape _ _ _ _ _ _ _ _ _ Hs) as (-> & r0 & h' & d & ->).
        apply Hgo; [done | done |]. cbn. split_and!; try done; try apply H1. apply (bench_read_lin n h cs' r0 h' d (bench_log n)); (done || lia).
    + assert (i = nc) as -> by lia. pose proof (ri_main _ _ _ _ Hinv _ Hst) as Hok.
      assert (Hgo : l' = bench_log n -> main_ok n (Finished r) s -> l' = bench_log n /\ run_inv L n (<[S nc := Finished r]> cs) s).
      { intros El Hnew. split; [done |]. destruct Hinv. split; rewrite ?length_insert; try done.
        - intros st H. rewrite list_lookup_insert_ne in H by done. auto.
        - intros j pc m st H1 H2 H3. assert (j < nc)%nat by (rewrite <- ri_readers_length0; by eapply lookup_lt_Some).
          rewrite list_lookup_insert_ne in H3 by lia. by eapply ri_readers0.
        - intros st H. rewrite list_lookup_insert_eq in H by lia. by injection H as <-. }
      unfold main_ok in Hok, Hgo. destruct (main_thread s); try (by destruct Hok); try done.
      * destruct Hok as (H1 & H2 & H3 & ->). inversion Hs; subst. apply Hgo; [done |]. split_and!; try done.
        split; [done |]. cbn. rewrite bench_log_size; lia.
      * destruct Hok as (H1 & ->). inversion Hs; subst. apply Hgo; [done |]. split; [done |]. rewrite bench_log_size; lia.
Qed.

(** *** Steps of the client *)

Lemma publisher_local L n cs s s' :
  run_inv L n cs s -> L + 1 < u64_modulus -> publisher_advance psize s = Some (None, s') -> run_inv L n cs s'.
Proof using Hsize.
  intros Hinv HL Hadv. pose proof (ri_published _ _ _ _ Hinv) as Hn.
  destruct (lookup_lt_is_Some_2 cs 0) as [st Hst]; [rewrite (ri_threads _ _ _ _ Hinv); lia |].
  pose proof (ri_publisher _ _ _ _ Hinv st Hst) as Hok. unfold publisher_advance in Hadv.
  destruct (publisher s) as [| id | | | |] eqn:Ep; try done. injection Hadv as <-. destruct Hok as [-> ->].
  rewrite <- (list_insert_id cs 0 Idle Hst).
  eapply (publisher_moves L L n n cs s); rewrite ?Ep; try done; try lia; [apply (ri_errors _ _ _ _ Hinv) |].
  cbn [set_publisher publisher]. destruct (m_running s); [| done].
  destruct (generated psize Hsize (n + 1)) as (p & E & Ei & _); [split; lia |]. by rewrite E.
Qed.

Lemma publisher_calls L n cs s o s' :
  run_inv L n cs s -> cs !! 0%nat = Some Idle -> publisher_advance psize s = Some (Some o, s') ->
  run_inv (L + 1) n (<[0%nat := Called o]> cs) s'.
Proof.
  intros Hinv Hst Hadv. pose proof (ri_published _ _ _ _ Hinv) as Hn. pose proof (ri_publisher _ _ _ _ Hinv _ Hst) as Hok.
  unfold publisher_advance in Hadv. destruct (publisher s) as [| id | id p | | |] eqn:Ep; try done. injection Hadv as <- <-.
  destruct Hok as (_ & -> & ->).
  eapply (publisher_moves L (L + 1) n n cs s); rewrite ?Ep; try done; try lia; [apply (ri_errors _ _ _ _ Hinv) |].
  cbn. split_and!; (done || lia).
Qed.

Lemma publisher_returns L n cs s r s' :
  run_inv L n cs s -> L + 1 < u64_modulus -> cs !! 0%nat = Some (Finished r) -> multicast_receive psize nc s 0 r = Some s' ->
  run_inv (L + 1) n (<[0%nat := Idle]> cs) s'.
Proof.
  intros Hinv HL Hst Hrec. pose proof (ri_published _ _ _ _ Hinv) as Hn. pose proof (ri_publisher _ _ _ _ Hinv _ Hst) as Hok.
  cbn [multicast_receive] in Hrec. destruct (publisher s) as [| | | id | |] eqn:Ep; try done. destruct r as [r | | |]; try done.
  destruct Hok as [-> ->]. injection Hrec as <-. unfold publisher_receive. cbn [w_status w_sequence]. rewrite Z.eqb_refl.
  eapply (publisher_moves L (L + 1) n n cs s); rewrite ?Ep; try done; try lia; [apply (ri_errors _ _ _ _ Hinv) |].
  cbn. split; [done |]. by rewrite u64_small by lia.
Qed.

Lemma reader_local L n cs s i s' :
  run_inv L n cs s -> (i < nc)%nat -> reader_advance psize s i = Some (None, s') -> run_inv L n cs s'.
Proof.
  intros Hinv Hi Hadv. destruct (reader_exists L n cs s i Hinv Hi) as (pc & m & st & Hpc & Hm & Hst & Hok).
  unfold reader_advance in Hadv. rewrite Hpc, Hm in Hadv. destruct pc as [| h | | | | | |]; try done. injection Hadv as <-.
  rewrite <- (list_insert_id cs (S i) st Hst). eapply (reader_moves L L n cs s i); try done. by destruct (m_running s).
Qed.

Lemma reader_calls L n cs s i o s' :
  run_inv L n cs s -> (i < nc)%nat -> reader_advance psize s i = Some (Some o, s') ->
  run_inv (L + 1) n (<[S i := Called o]> cs) s'.
Proof.
  intros Hinv Hi Hadv. destruct (reader_exists L n cs s i Hinv Hi) as (pc & m & st & Hpc & Hm & Hst & Hok).
  unfold reader_advance in Hadv. rewrite Hpc, Hm in Hadv.
  destruct pc as [| h | h | h | h | h d | h |]; try done; injection Hadv as <- <-; destruct Hok as (_ & H2 & H3);
    eapply (reader_moves L (L + 1) n cs s i); try done; lia.
Qed.

Lemma reader_records next m :
  1 <= next -> next + 1 < u64_modulus -> reader_metrics_ok next m ->
  exists m', record_payload m (copied psize next) psize next = Some m' /\ reader_metrics_ok (next + 1) m'.
Proof using Hsize.
  intros Hn Hb [He Hr Hs Hra Ht Hh]. destruct (copied_valid psize Hsize next) as [Hv Hg]; [split; lia |].
  unfold record_payload. rewrite Hv. cbn [mbind option_bind negb]. rewrite (proj2 (Z.eqb_neq next 0)), Hg by lia.
  pose proof (record_spec (queue_sequences m) next Ht) as Hrec. destruct (record (queue_sequences m) next) as [b t'].
  destruct Hrec as (Ht' & -> & _ & Hh'); [unfold u64_max; lia |]. rewrite (proj2 (Z.ltb_lt _ _)) in * by lia.
  pose proof (NoDup_range_length _ _ (sorted_lt_NoDup _ Hs) Hra Hn) as Hlen.
  eexists. split; [done |]. split; cbn [validation_errors reads payload_ids queue_sequences]; try done; [| | | lia].
  - unfold span_size in *. rewrite Hr, length_app, u64_small by lia. simpl. lia.
  - apply StronglySorted_app_2; [| done | by repeat constructor]. intros x y Hx ->%list_elem_of_singleton.
    rewrite Forall_forall in Hra. specialize (Hra x Hx). lia.
  - apply Forall_app. split; [| repeat constructor; lia]. eapply Forall_impl; [exact Hra |]. simpl. lia.
Qed.

Lemma reader_returns L n cs s i r s' :
  run_inv L n cs s -> L + 1 < u64_modulus -> (i < nc)%nat -> cs !! S i = Some (Finished r) ->
  reader_receive psize s i r = Some s' -> run_inv (L + 1) n (<[S i := Idle]> cs) s'.
Proof using Hsize.
  intros Hinv HL Hi Hfin Hrec. pose proof (ri_published _ _ _ _ Hinv) as Hn.
  destruct (reader_exists L n cs s i Hinv Hi) as (pc & m & st & Hpc & Hm & Hst & Hok).
  rewrite Hfin in Hst. injection Hst as <-. unfold reader_receive in Hrec. rewrite Hpc, Hm in Hrec.
  destruct pc as [| h | h | h | h | h d | h |]; try done; destruct r as [| | r h' d' | k]; try done; injection Hrec as <-.
  - destruct Hok as (H1 & H2 & _). eapply (reader_moves L (L + 1) n cs s i); try done; [lia |].
    by destruct (_ <=? _).
  - destruct Hok as (Hh & Hmet & -> & Hr). unfold read_receive. destruct Hh as [_ Hnx].
    destruct Hr as [h' Hle Hq' Hnext | r h' d Hloss Hq' Hnext | r h' d He Hq' Hnext]; cbn [r_status r_sequence].
    + destruct (reader_records (next_sequence_ h) m) as (m' & E & Hm'); [lia | lia | done |].
      unfold copied in E. rewrite E. eapply (reader_moves L (L + 1) n cs s i); try done; [lia |].
      split; [done |]. rewrite Hnext. split; [split; [done | lia] | done].
    + assert (Hgo : run_inv (L + 1) n (<[S i := Idle]> cs) (set_reader s i (count_lag_event m) (RCheckRunning h'))).
      { eapply (reader_moves L (L + 1) n cs s i); try done; [lia |]. split; [done |]. split; [split; [done | lia] |].
        eapply reader_metrics_mono; [| by destruct Hmet]. lia. }
      by destruct Hloss as [-> | ->].
    + rewrite He. eapply (reader_moves L (L + 1) n cs s i); try done; [lia |]. split; [done |]. split; [split; [done | lia] |].
      rewrite Hnext. by destruct Hmet.
Qed.

(** The main thread moves, with the consumers as they are. *)
Lemma main_moves L L' n cs s s' st' :
  run_inv L n cs s -> L <= L' -> readers s' = readers s -> m_metrics s' = m_metrics s ->
  m_producer_errors s' = m_producer_errors s ->
  (forall st, publisher_ok L' n st (publisher s) -> publisher_ok L' n st (publisher s')) -> main_ok n st' s' ->
  run_inv L' n (<[S nc := st']> cs) s'.
Proof.
  intros Hinv HL Er Em Ee Hp Hok. destruct Hinv. split; rewrite ?length_insert, ?Er, ?Em, ?Ee; try done; [lia | | |].
  - intros st Hst. rewrite list_lookup_insert_ne in Hst by done. apply Hp. eapply publisher_ok_mono; [exact HL | auto].
  - intros j pc m st H1 H2 H3. assert (j < nc)%nat by (rewrite <- ri_readers_length0; by eapply lookup_lt_Some).
    rewrite list_lookup_insert_ne in H3 by lia. by eapply ri_readers0.
  - intros st H. rewrite list_lookup_insert_eq in H by lia. by injection H as <-.
Qed.

Lemma main_exists L n cs s : run_inv L n cs s -> exists st, cs !! S nc = Some st /\ main_ok n st s.
Proof.
  intros []. destruct (lookup_lt_is_Some_2 cs (S nc)) as [st Hst]; [lia |]. exists st. split; [done | auto].
Qed.

Lemma bench_main_local L n cs s s' :
  run_inv L n cs s -> main_thread_advance nc s = Some (None, s') -> run_inv L n cs s'.
Proof.
  intros Hinv Hadv. destruct (main_exists L n cs s Hinv) as (st & Hst & Hok). rewrite <- (list_insert_id cs (S nc) st Hst).
  unfold main_thread_advance in Hadv. unfold main_ok in Hok. destruct (main_thread s) as [k | k | | | | | |] eqn:Em; try done.
  - case_decide; [done |]. injection Hadv as <-. destruct Hok as (-> & Hp & _). by eapply (main_moves L L n cs s).
  - injection Hadv as <-. destruct Hok as (-> & Hp). eapply (main_moves L L n cs s); try done.
    intros st. rewrite Hp. by intros [-> ->].
  - injection Hadv as <-. subst st. by eapply (main_moves L L n cs s).
  - destruct (publisher s) eqn:Ep; try done. destruct (forallb _ _); [| done]. injection Hadv as <-. subst st.
    by eapply (main_moves L L n cs s).
Qed.

Lemma main_calls L n cs s o s' :
  run_inv L n cs s -> main_thread_advance nc s = Some (Some o, s') -> run_inv (L + 1) n (<[S nc := Called o]> cs) s'.
Proof.
  intros Hinv Hadv. destruct (main_exists L n cs s Hinv) as (st & Hst & Hok).
  unfold main_thread_advance in Hadv. unfold main_ok in Hok. destruct (main_thread s) as [k | k | | | | | |] eqn:Em; try done.
  - case_decide; [| done]. injection Hadv as <- <-. destruct Hok as (-> & Hp & Hu). by eapply (main_moves L (L + 1) n cs s); try lia.
  - destruct (publisher s); try done. by destruct (forallb _ _).
  - injection Hadv as <- <-. destruct Hok as (-> & Hp). by eapply (main_moves L (L + 1) n cs s); try lia.
Qed.

Lemma fresh_metrics_ok next : 1 <= next -> reader_metrics_ok next fresh_metrics.
Proof. intros H. split; cbn; try done; try constructor; try constructor. lia. Qed.

Lemma main_returns L n cs s r s' :
  run_inv L n cs s -> cs !! S nc = Some (Finished r) -> main_thread_receive s r = Some s' ->
  run_inv (L + 1) n (<[S nc := Idle]> cs) s'.
Proof.
  intros Hinv Hst Hrec. destruct (main_exists L n cs s Hinv) as (st & Hst' & Hok). rewrite Hst in Hst'. injection Hst' as <-.
  unfold main_thread_receive in Hrec. unfold main_ok in Hok.
  destruct (main_thread s) as [k | k | | | | | |] eqn:Em; try done; destruct r as [| h | | n']; try done.
  - destruct Hok as (Hk & Hp & Hu & Hh). destruct (reader_exists L n cs s k Hinv Hk) as (pc & m & st & Hpc & Hm & Hsk & Hok).
    pose proof (Hu k pc ltac:(lia) Hpc) as ->. destruct Hok as [-> ->]. rewrite Hm in Hrec. injection Hrec as <-.
    destruct Hinv. split; cbn [set_main_thread set_reader readers m_metrics publisher m_producer_errors];
      rewrite ?length_insert; try done; [lia | | |].
    + intros st H. rewrite list_lookup_insert_ne in H by done. eapply (publisher_ok_mono L); [lia | auto].
    + intros j pc m st H1 H2 H3. assert (Hj : (j < nc)%nat).
      { rewrite <- ri_readers_length0. apply lookup_lt_Some in H1. by rewrite length_insert in H1. }
      rewrite list_lookup_insert_ne in H3 by lia. destruct (decide (j = k)) as [-> | Hne].
      * rewrite list_lookup_insert_eq in H1 by lia. rewrite list_lookup_insert_eq in H2 by lia. simplify_eq.
        destruct h as [b nx]. split; [done |]. split; [done |]. apply fresh_metrics_ok. apply Hh.
      * rewrite list_lookup_insert_ne in H1 by done. rewrite list_lookup_insert_ne in H2 by done. by eapply ri_readers0.
    + intros st H. rewrite list_lookup_insert_eq in H by lia. injection H as <-. unfold main_ok. cbn. split_and!; try done.
      intros j pc Hj. cbn. rewrite list_lookup_insert_ne by lia. apply Hu. lia.
  - injection Hrec as <-. destruct Hok as [Hp ->]. by eapply (main_moves L (L + 1) n cs s); try lia.
Qed.

(** *** Executions *)

Context (spec : list thread_status -> log -> McOp -> McRes -> log -> Prop).
Hypothesis Hspec : forall cs l o r l', spec cs l o r l' -> exists cs', mc_spec max_payload_size cap lossy cs' l o r l'.

Definition system_inv (L : nat) (s : pool log thread_status * multicast_run) : Prop :=
  exists n, shared s.1 = bench_log n /\ run_inv (Z.of_nat L) n (threads s.1) s.2.

Lemma bench_local_step L n cs s t s' :
  run_inv L n cs s -> L + 1 < u64_modulus -> multicast_advance psize nc s t = Some (None, s') -> run_inv L n cs s'.
Proof using Hsize.
  intros Hinv HL Hadv. destruct t as [| i]; cbn [multicast_advance] in Hadv; [by eapply publisher_local |].
  case_decide as Hi; [by eapply reader_local |]. case_decide; [by eapply bench_main_local | done].
Qed.

Lemma bench_call_step L n cs s t o s' :
  run_inv L n cs s -> cs !! t = Some Idle -> multicast_advance psize nc s t = Some (Some o, s') ->
  run_inv (L + 1) n (<[t := Called o]> cs) s'.
Proof.
  intros Hinv Hst Hadv. destruct t as [| i]; cbn [multicast_advance] in Hadv; [by eapply publisher_calls |].
  case_decide as Hi; [by eapply reader_calls |]. case_decide as Hm; [subst i; by eapply main_calls | done].
Qed.

Lemma bench_return_step L n cs s t r s' :
  run_inv L n cs s -> L + 1 < u64_modulus -> cs !! t = Some (Finished r) -> multicast_receive psize nc s t r = Some s' ->
  run_inv (L + 1) n (<[t := Idle]> cs) s'.
Proof using Hsize.
  intros Hinv HL Hst Hrec. pose proof (lookup_lt_Some _ _ _ Hst) as Hlt. rewrite (ri_threads _ _ _ _ Hinv) in Hlt.
  destruct t as [| i]; [by eapply publisher_returns |]. cbn [multicast_receive] in Hrec.
  case_decide as Hi; [by eapply reader_returns |]. assert (i = nc) as -> by lia. by eapply main_returns.
Qed.

Lemma bench_system_step m s1 l s2 :
  Z.of_nat (m + length (trace_of l)) + 1 < u64_modulus -> system_inv m s1 ->
  system_step (client_step (Client0 := multicast_run_client psize nc)) (canon_step spec) s1 l s2 ->
  system_inv (m + length (trace_of l)) s2.
Proof using Hsize Hcap Hspec.
  intros HL (n & Hlog & Hinv) Hstep.
  destruct Hstep as [p p' s Ho | p s s' Hs | p p' s s' e Ho Hs]; cbn [fst snd] in Hlog, Hinv; cbn [trace_of length] in *;
    rewrite ?Nat.add_0_r in *.
  - inversion Ho as [| a cs t o r a' Hst Hsp |]; subst. cbn [threads shared] in *. subst a.
    destruct (Hspec _ _ _ _ _ Hsp) as [cs' Hsp'].
    destruct (bench_inv_lin (Z.of_nat m) n cs cs' s t o r a' Hinv ltac:(lia) Hst Hsp') as (n' & -> & Hinv'). by exists n'.
  - inversion Hs as [s0 t s0' Hadv | |]; subst. exists n. split; [done |].
    eapply (bench_local_step _ n _ s t s'); [exact Hinv | lia | exact Hadv].
  - rewrite Nat.add_1_r in *. exists n. rewrite Nat2Z.inj_succ in *. unfold Z.succ in *.
    inversion Ho as [a cs t o Hst | | a cs t r Hst]; subst; cbn [threads shared] in *;
      inversion Hs as [| s0 t0 o0 s0' Hadv | s0 t0 r0 s0' Hrec]; subst; (split; [done |]).
    + by eapply (bench_call_step _ n cs s t o s').
    + eapply (bench_return_step _ n cs s t r s'); try done. lia.
Qed.

Lemma bench_system_init : system_inv 0 (mkPool [] (replicate (S (S nc)) Idle), multicast_init nc).
Proof.
  exists 0. split; [done |]. split; cbn [fst snd threads multicast_init readers m_metrics m_producer_errors publisher];
    rewrite ?length_replicate; try done.
  - intros st [-> _]%lookup_replicate. done.
  - intros i pc m st [-> _]%lookup_replicate [-> _]%lookup_replicate [-> _]%lookup_replicate. done.
  - intros st [-> _]%lookup_replicate. split_and!; try done. intros j pc _ [-> _]%lookup_replicate. done.
Qed.

(** The verdict does not ask for completeness: it is the sum of what was counted. *)
Lemma multicast_verdict_errors published metrics :
  Forall (fun m => validation_errors m = 0) metrics ->
  total_validation_errors (make_result published [] metrics 0 false) = 0.
Proof.
  intros H. unfold make_result. destruct (count_unique_ids _) as [u d]. cbn [total_validation_errors].
  assert (E : exact_sum validation_errors metrics = 0); [| by rewrite sum_u64_exact, E].
  apply exact_sum_zero; [| done]. eapply Forall_impl; [exact H |]. simpl. lia.
Qed.

(** What the run promises about its state. *)
Record benchmark_multicast_sound (s : multicast_run) : Prop := {
  bm_publisher : publisher s <> BUndefined;
  bm_readers : RUndefined ∉ readers s;
  bm_errors : m_producer_errors s = 0;
  bm_metrics : Forall (fun m => validation_errors m = 0 /\ reads m = span_size (payload_ids m) /\
    StronglySorted Z.lt (payload_ids m)) (m_metrics s);
  bm_verdict : forall published, main_thread s = MainVerdict published ->
    Forall (fun m => Forall (fun i => 1 <= i <= published) (payload_ids m)) (m_metrics s) /\
    total_validation_errors (multicast_run_verdict s published) = 0;
}.

Lemma bench_run_sound m h p s :
  exec (system_step (client_step (Client0 := multicast_run_client psize nc)) (canon_step spec)) m
    (mkPool [] (replicate (S (S nc)) Idle), multicast_init nc) h (p, s) ->
  Z.of_nat (length h) + 1 < u64_modulus -> benchmark_multicast_sound s.
Proof using Hsize Hcap Hspec.
  intros Hex Hn. assert (Hinv : system_inv (length h) (p, s)).
  { eapply (exec_history_invariant _ system_inv _ (length h)); [apply bench_system_init | | exact Hex | done].
    intros i s1 l s2 Hi. apply bench_system_step. lia. }
  destruct Hinv as (n & _ & Hinv). cbn [fst snd] in Hinv.
  assert (Hm : forall i m, m_metrics s !! i = Some m -> reader_metrics_ok (n + 1) m).
  { intros i mi Hi. assert (Hlt : (i < nc)%nat) by (rewrite <- (ri_metrics_length _ _ _ _ Hinv); by eapply lookup_lt_Some).
    destruct (reader_exists _ n _ s i Hinv Hlt) as (pc & m' & st & Hpc & Hm' & _ & Hok). simplify_eq.
    pose proof (ri_published _ _ _ _ Hinv).
    destruct pc as [| h0 | h0 | h0 | h0 | h0 d | h0 |]; cbn [reader_ok] in Hok; try done.
    1: { destruct Hok as [_ ->]. apply fresh_metrics_ok. lia. }
    all: destruct Hok as (H1 & H2 & H3); eapply reader_metrics_mono; [| by first [exact H2 | exact H3]];
      first [destruct H2 as [_ H2]; lia | destruct H1 as [_ H1]; lia]. }
  split.
  - destruct (lookup_lt_is_Some_2 (threads p) 0) as [st Hst]; [rewrite (ri_threads _ _ _ _ Hinv); lia |].
    pose proof (ri_publisher _ _ _ _ Hinv st Hst) as Hok. intros E. by rewrite E in Hok.
  - intros (i & Hi)%list_elem_of_lookup. assert (Hlt : (i < nc)%nat)
      by (rewrite <- (ri_readers_length _ _ _ _ Hinv); by eapply lookup_lt_Some).
    destruct (reader_exists _ n _ s i Hinv Hlt) as (pc & m' & st & Hpc & _ & _ & Hok). by simplify_eq.
  - apply Hinv.
  - apply Forall_lookup. intros i mi Hi. by destruct (Hm i mi Hi).
  - intros k Hk. destruct (main_exists _ n _ s Hinv) as (st & _ & Hok). unfold main_ok in Hok. rewrite Hk in Hok.
    destruct Hok as (_ & _ & ->). split.
    + apply Forall_lookup. intros i mi Hi. destruct (Hm i mi Hi). eapply Forall_impl; [exact rm_range0 |]. simpl. lia.
    + unfold multicast_run_verdict. rewrite (ri_errors _ _ _ _ Hinv). apply multicast_verdict_errors.
      apply Forall_lookup. intros i mi Hi. by destruct (Hm i mi Hi).
Qed.

End proofs.

(** ** Theorems *)

(** C39: For an accepted command line and any number of consumers, the multicast run over
    [SPMCMulticastQueue] and over [VersionedSPMCQueue]: whatever messages are lost, no
    thread ever counts an error or accesses a payload out of bounds; every consumer has
    read valid payloads with increasing identifiers, one per counted read; and at the
    end these were all published and the run reports no error. *)
Theorem benchmark_multicast_run_sound args c nc n h s :
  parse_config args = Value c -> Z.of_nat n + 1 < u64_modulus ->
  (forall q p, SPMCMulticastQueue_new max_payload_size (capacity c) = returns q ->
     exec (system_step (client_step (Client0 := multicast_run_client (payload_size c) nc))
             (pool_step (ConcurrentObject0 := lock_object (mc_early max_payload_size) (mc_body max_payload_size)))) n
       (lock_init q (S (S nc)), multicast_init nc) h (p, s) ->
     benchmark_multicast_sound s) /\
  (forall q p, VersionedSPMCQueue_new max_payload_size (capacity c) = returns q ->
     exec (system_step (client_step (Client0 := multicast_run_client (payload_size c) nc))
             (pool_step (ConcurrentObject0 := versioned_object max_payload_size))) n
       (versioned_init q (S nc), multicast_init nc) h (p, s) ->
     benchmark_multicast_sound s).
Proof.
  intros Hargs%benchmark_parse_config_ok Hn. pose proof (co_payload c Hargs) as Hps.
  assert (Hcap : 0 < capacity c < u64_modulus) by (pose proof (co_capacity c Hargs); unfold u64_modulus; lia).
  split; intros q p Hq Hex; pose proof (exec_history_length _ _ _ _ _ Hex) as Hlen.
  - edestruct (client_over_atomic _ (strict (mc_spec max_payload_size (capacity c) false [])) _ [] (S (S nc)) _ _ _ _ _ _ Hex)
      as (j & s1 & Hex').
    { intros i h' p' Hi Hp.
      destruct (mc_exec_sim max_payload_size (capacity c) Hcap ltac:(done) q (S (S nc)) i h' p' Hq) as (j & s1 & H & _);
        [unfold mc_bounded; lia | exact Hp | by exists j, s1]. }
    eapply (bench_run_sound (payload_size c) (capacity c) false nc Hps (proj1 Hcap) _ _ j h s1 s Hex'). lia.
    Unshelve. intros cs l o r l' H. by exists [].
  - edestruct (client_over_atomic _ (mc_spec max_payload_size (capacity c) true) _ [] (S (S nc)) _ _ _ _ _ _ Hex) as (j & s1 & Hex').
    { intros i h' p' Hi Hp.
      destruct (versioned_exec_sim max_payload_size (capacity c) Hcap ltac:(done) q (S nc) i h' p' Hq) as (j & s1 & H & _);
        [unfold versioned_bounded; lia | exact Hp |]. by eapply speculation_sound. }
    eapply (bench_run_sound (payload_size c) (capacity c) true nc Hps (proj1 Hcap) _ _ j h s1 s Hex'). lia.
    Unshelve. intros cs l o r l' H. by exists cs.
Qed.

(** ** Witness *)

Definition multicast_args : list string :=
  ["--queue"; "spmc"; "--consumers"; "1"; "--capacity"; "1"; "--payload-size"; "32"; "--warmup-ms"; "0"; "--trials"; "1"].

Definition multicast_config : Config := mkConfig 250 0 1 1 32 1 [1] "spmc" false true.

Definition one_retained : SPMCMulticastQueue := mkMulticast 1 [fresh_message 256] 0.

(** A call of [k] steps and its return. *)
Definition one_call (t k : nat) : list system_choice := [Advance t] ++ replicate k (Inside t 0) ++ [Return t].

(** Two publications with one slot: the consumer reads the second, after a lag. *)
Definition lagging_schedule : list system_choice :=
  one_call 2 4 ++ [Advance 2; Advance 2; Advance 0] ++ one_call 0 4 ++ [Advance 0] ++ one_call 0 4 ++
  [Advance 1] ++ one_call 1 4 ++ [Advance 2; Advance 0; Advance 1] ++ one_call 1 4 ++ one_call 1 4 ++
  [Advance 1] ++ one_call 1 4 ++ [Advance 2] ++ one_call 2 4.

Lemma benchmark_multicast_run_sound_witness :
  exists h p s,
    exec (system_step (client_step (Client0 := multicast_run_client 32 1))
            (pool_step (ConcurrentObject0 := lock_object (mc_early 256) (mc_body 256)))) (length lagging_schedule)
      (lock_init one_retained 3, multicast_init 1) h (p, s) /\
    main_thread s = MainVerdict 2 /\ collect_payload_ids (m_metrics s) = [2] /\ benchmark_multicast_sound s.
Proof.
  eexists _, _, _.
  match goal with |- ?A /\ _ => assert (Hex : A) end.
  { apply (run_system_exec (ConcurrentObject0 := lock_object (mc_early 256) (mc_body 256))
      (Client0 := multicast_run_client 32 1)). vm_compute. reflexivity. }
  split; [exact Hex |]. split; [reflexivity |]. split; [vm_compute; reflexivity |].
  exact (proj1 (benchmark_multicast_run_sound multicast_args multicast_config 1 (length lagging_schedule) _ _
    ltac:(vm_compute; reflexivity) ltac:(vm_compute; reflexivity)) one_retained _ eq_refl Hex).
Defined.
