(* ===== verification/StressSPSC.v ===== *)
(** * The SPSC stress run ([run_spsc] in [stress/queue_stress.cpp])

    A setup that checks the retry of an undersized read on a queue of its own
    ([run_spsc_setup]), then a producer and a consumer thread over one [SPSCQueue]
    until the iterations are done or the deadline passes, then the comparison of
    the counts.  The threads are a client of the queue; the clock is a flag that
    the environment sets once.  The random yields of the threads only add
    scheduling points and are not modelled.

    Theorem: over [SPSCQueue] the run never records a failure, and when both
    threads have ended every pushed message was popped: a failure the tester
    reports is one of the queue. *)

From S2P Require Import Prelude Result FixedMessage Concurrency Clients BoundedFifo SPSCQueue SPSCConcurrent StreamClients.
From S2P Require Import Bytes BenchmarkMessage CommandLine StressTester.

(** ** Setup *)

Definition run_spsc_setup (c : Config) (failures : FailureRecorder) : option (bool * FailureRecorder) :=
  let failure reason := mkFailure "spsc" (seed c) 0 1 0 0 0 reason in
  match SPSCQueue_new max_payload_size 1 with
  | inl _ => None
  | inr retry_queue =>
      retry_payload ← make_payload c 0 1 1;
      '(pushed, retry_queue) ← try_push max_payload_size retry_queue retry_payload;
      if negb (ok (w_status pushed))
      then Some (false, record failures (failure "undersized retry setup push failed"))
      else
        let short_output := replicate (Z.to_nat (payload_size c - 1)) Byte.x00 in
        '(short, _, retry_queue) ← try_pop retry_queue short_output;
        if negb (bool_decide (r_status short = message_too_large))
        then Some (false, record failures (failure "undersized read did not report message_too_large"))
        else
          let retry_output := replicate (Z.to_nat (payload_size c)) Byte.x00 in
          '(retry_result, retry_output, _) ← try_pop retry_queue retry_output;
          if negb (ok (r_status retry_result)) then Some (false, failures)
          else validate_payload "spsc" c retry_output 0 1 1 0 failures
  end.

(** ** The threads *)

Inductive producer_pc : Type :=
| PWait
| PLoop (sequence : Z)
| PPush (sequence : Z) (payload : list byte)
| PPushing (sequence : Z)
| PStorePublished (sequence : Z)
| PStoreDone
| PEnded
| PUndefined.

Inductive consumer_pc : Type :=
| CWait
| CCheckDone
| CCheckEmpty
| CCheckingEmpty
| CPop
| CPopping
| CEnded
| CUndefined.

Record spsc_stress : Type := mkStress {
  start : bool;
  expired : bool;          (** [Clock::now() >= deadline] *)
  producer_done : bool;
  published : Z;
  popped : Z;
  full_retries : Z;
  empty_retries : Z;
  failures : FailureRecorder;
  producer : producer_pc;
  consumer : consumer_pc;
}.

Definition stress_init (failures : FailureRecorder) : spsc_stress :=
  mkStress false false false 0 0 0 0 failures PWait CWait.

Section run.

Context (c : Config).

Definition producer_goes (s : spsc_stress) (pc : producer_pc) : spsc_stress :=
  mkStress (start s) (expired s) (producer_done s) (published s) (popped s) (full_retries s)
    (empty_retries s) (failures s) pc (consumer s).

Definition producer_fails (s : spsc_stress) (f : Failure) (pc : producer_pc) : spsc_stress :=
  mkStress (start s) (expired s) (producer_done s) (published s) (popped s) (full_retries s)
    (empty_retries s) (record (failures s) f) pc (consumer s).

Definition consumer_goes (s : spsc_stress) (pc : consumer_pc) : spsc_stress :=
  mkStress (start s) (expired s) (producer_done s) (published s) (popped s) (full_retries s)
    (empty_retries s) (failures s) (producer s) pc.

Definition consumer_records (s : spsc_stress) (r : FailureRecorder) (pc : consumer_pc) : spsc_stress :=
  mkStress (start s) (expired s) (producer_done s) (published s) (popped s) (full_retries s)
    (empty_retries s) r (producer s) pc.

Definition producer_advance (s : spsc_stress) : option (option QueueOp * spsc_stress) :=
  match producer s with
  | PWait => if start s then Some (None, producer_goes s (PLoop 1)) else None
  | PLoop sequence =>
      Some (None, producer_goes s
        (if (sequence <=? iterations c) && negb (expired s) then
           match make_payload c 0 sequence sequence with
           | Some payload => PPush sequence payload
           | None => PUndefined
           end
         else PStoreDone))
  | PPush sequence payload => Some (Some (TryPush payload), producer_goes s (PPushing sequence))
  | PStorePublished sequence =>
      Some (None, mkStress (start s) (expired s) (producer_done s) sequence (popped s) (full_retries s)
                    (empty_retries s) (failures s) (PLoop (sequence +u 1)) (consumer s))
  | PStoreDone =>
      Some (None, mkStress (start s) (expired s) true (published s) (popped s) (full_retries s)
                    (empty_retries s) (failures s) PEnded (consumer s))
  | PPushing _ | PEnded | PUndefined => None
  end.

(** [while (!producer_done.load() || !queue.empty())] *)
Definition consumer_advance (s : spsc_stress) : option (option QueueOp * spsc_stress) :=
  match consumer s with
  | CWait => if start s then Some (None, consumer_goes s CCheckDone) else None
  | CCheckDone => Some (None, consumer_goes s (if producer_done s then CCheckEmpty else CPop))
  | CCheckEmpty => Some (Some (Observe is_empty_), consumer_goes s CCheckingEmpty)
  | CPop =>
      Some (Some (TryPop (replicate (Z.to_nat (payload_size c)) Byte.x00)), consumer_goes s CPopping)
  | CCheckingEmpty | CPopping | CEnded | CUndefined => None
  end.

(** [start.store(true)], and the deadline. *)
Definition main_advance (s : spsc_stress) : option (option QueueOp * spsc_stress) :=
  if start s then None
  else Some (None, mkStress true (expired s) (producer_done s) (published s) (popped s) (full_retries s)
                     (empty_retries s) (failures s) (producer s) (consumer s)).

Definition clock_advance (s : spsc_stress) : option (option QueueOp * spsc_stress) :=
  Some (None, mkStress (start s) true (producer_done s) (published s) (popped s) (full_retries s)
                (empty_retries s) (failures s) (producer s) (consumer s)).

Definition stress_advance (s : spsc_stress) (t : nat) : option (option QueueOp * spsc_stress) :=
  match t with
  | 0%nat => producer_advance s
  | 1%nat => consumer_advance s
  | 2%nat => main_advance s
  | 3%nat => clock_advance s
  | _ => None
  end.

(** The code after [queue.try_push(payload)]. *)
Definition producer_receive (s : spsc_stress) (sequence : Z) (r : WriteResult) : spsc_stress :=
  let failure reason := mkFailure "spsc" (seed c) sequence sequence (w_sequence r) 0 0 reason in
  match w_status r with
  | success =>
      if negb (w_sequence r =? sequence)
      then producer_fails s (failure "queue publication sequence mismatch") PStoreDone
      else producer_goes s (PStorePublished sequence)
  | full =>
      mkStress (start s) (expired s) (producer_done s) (published s) (popped s) (full_retries s +u 1)
        (empty_retries s) (failures s) (PLoop sequence) (consumer s)
  | _ => producer_fails s (failure "unexpected push status") PStoreDone
  end.

(** The code after [queue.try_pop(payload)]. *)
Definition consumer_receive (s : spsc_stress) (r : ReadResult) (payload : list byte) : spsc_stress :=
  let expected := popped s +u 1 in
  match r_status r with
  | success =>
      if negb (r_sequence r =? expected) then consumer_goes s CEnded
      else match validate_payload "spsc" c payload 0 expected expected expected (failures s) with
           | None => consumer_goes s CUndefined
           | Some (false, recorded) => consumer_records s recorded CEnded
           | Some (true, recorded) =>
               mkStress (start s) (expired s) (producer_done s) (published s) (popped s +u 1)
                 (full_retries s) (empty_retries s) recorded (producer s) CCheckDone
           end
  | empty =>
      mkStress (start s) (expired s) (producer_done s) (published s) (popped s) (full_retries s)
        (empty_retries s +u 1) (failures s) (producer s) CCheckDone
  | _ =>
      consumer_records s
        (record (failures s)
           (mkFailure "spsc" (seed c) expected expected (r_sequence r) 0 0 "unexpected pop status")) CEnded
  end.

Definition stress_receive (s : spsc_stress) (t : nat) (r : QueueRes) : option spsc_stress :=
  match t, r with
  | 0%nat, Pushed r =>
      match producer s with PPushing sequence => Some (producer_receive s sequence r) | _ => None end
  | 1%nat, Popped r payload =>
      match consumer s with CPopping => Some (consumer_receive s r payload) | _ => None end
  | 1%nat, Observed is_empty =>
      match consumer s with
      | CCheckingEmpty => Some (consumer_goes s (if is_empty then CEnded else CPop))
      | _ => None
      end
  | _, _ => None
  end.

#[local] Instance stress_client : Client QueueOp QueueRes spsc_stress := {|
  advance := stress_advance; receive := stress_receive;
|}.

(** After the threads were joined. *)
Definition run_spsc_verdict (s : spsc_stress) : bool * FailureRecorder :=
  let pushed := published s in
  let recorded :=
    if negb (popped s =? pushed)
    then record (failures s)
           (mkFailure "spsc" (seed c) (popped s) pushed (popped s) 0 0
              "pushed and popped counts differ after drain")
    else failures s in
  (negb (failed recorded), recorded).

End run.

#[export] Existing Instance stress_client.

(** ** The run over the atomic queue *)

Section proofs.

Context (c : Config) (f0 : FailureRecorder).
Hypothesis Hc : config_ok c.

Definition image (i : Z) : list byte := expected_payload c 0 i i.

Lemma image_size i : span_size (image i) = payload_size c.
Proof using Hc. apply (expected_payload_made c Hc). Qed.

Definition producer_ok (L n : Z) (st : status QueueOp QueueRes) (s : spsc_stress) : Prop :=
  (producer_done s = true -> producer s = PEnded) /\
  match producer s with
  | PWait => st = Idle /\ n = 0 /\ published s = n
  | PLoop sequence => st = Idle /\ sequence = n + 1 /\ published s = n
  | PPush sequence payload => st = Idle /\ sequence = n + 1 /\ published s = n /\ payload = image sequence
  | PPushing sequence =>
      published s = sequence - 1 /\
      match st with
      | Called o => o = TryPush (image sequence) /\ sequence = n + 1 /\ n + 1 <= L
      | Finished (Pushed r) =>
          (r = mkWrite success sequence /\ sequence = n) \/ (r = mkWrite full 0 /\ sequence = n + 1)
      | _ => False
      end
  | PStorePublished sequence => st = Idle /\ sequence = n
  | PStoreDone => st = Idle /\ published s = n
  | PEnded => st = Idle /\ published s = n
  | PUndefined => False
  end.

Definition consumer_ok (n k : Z) (st : status QueueOp QueueRes) (s : spsc_stress) : Prop :=
  failures s = f0 /\
  match consumer s with
  | CWait | CCheckDone | CPop => st = Idle /\ popped s = k
  | CCheckEmpty => st = Idle /\ popped s = k /\ producer_done s = true
  | CCheckingEmpty =>
      popped s = k /\ producer_done s = true /\
      match st with
      | Called o => o = Observe is_empty_
      | Finished (Observed b) => b = true -> k = n
      | _ => False
      end
  | CPopping =>
      match st with
      | Called o => o = TryPop (read_buffer c) /\ popped s = k
      | Finished (Popped r d) =>
          (r = mkRead success (payload_size c) k /\ d = image k /\ 0 < k /\ popped s = k - 1) \/
          (r = mkRead empty 0 0 /\ popped s = k)
      | _ => False
      end
  | CEnded => st = Idle /\ popped s = k /\ k = n /\ producer_done s = true
  | CUndefined => False
  end.

Lemma stress_producer_weaken L L' n st s : L <= L' -> producer_ok L n st s -> producer_ok L' n st s.
Proof.
  intros HL [H1 H]. split; [done |]. destruct (producer s); try done. destruct H as [H2 H]. split; [done |].
  destruct st; try done. destruct H as (? & ? & ?). split; [done |]. split; [done | lia].
Qed.

(** While the producer works the consumer has not concluded anything from its end. *)
Lemma stress_consumer_frame n n' k st s :
  producer_done s = false -> consumer_ok n k st s -> consumer_ok n' k st s.
Proof.
  intros Hd [H1 H]. split; [done |]. destruct (consumer s); try done; destruct_and?; congruence.
Qed.

(** *** Linearization points *)

Lemma stress_producer_lin L a k sp sc s o r a' :
  stream (capacity c) image a k -> L + 1 < u64_modulus -> pushed a <= L ->
  producer_ok L (pushed a) sp s -> consumer_ok (pushed a) k sc s -> sp = Called o ->
  fifo_spec max_payload_size (capacity c) false a o r a' ->
  stream (capacity c) image a' k /\ pushed a' <= L /\ producer_ok L (pushed a') (Finished r) s /\
  consumer_ok (pushed a') k sc s.
Proof using Hc.
  intros Hs HL Hn [Hd H] HC -> Hspec.
  destruct (producer s) eqn:Ep; try (destruct H; done); try done.
  destruct H as (H4 & -> & -> & H6). inversion Hspec as [a0 payload r0 a0' Hp | |]; subst; simplify_eq.
  assert (Hf : producer_done s = false) by (destruct (producer_done s); [by specialize (Hd eq_refl) | done]).
  destruct (stream_push max_payload_size (capacity c) image a k r0 a' Hs) as [(-> & Hn' & Hs') | (-> & ->)].
  - lia.
  - rewrite image_size. apply (co_payload c Hc).
  - exact Hp.
  - split; [exact Hs' |]. rewrite Hn'. split; [lia |]. split; [| by eapply stress_consumer_frame].
    split; [by rewrite Hf |]. rewrite Ep. split; [lia |]. by left.
  - split; [exact Hs |]. split; [lia |]. split; [| done]. split; [by rewrite Hf |]. rewrite Ep.
    split; [lia |]. by right.
Qed.

Lemma stress_consumer_lin a k sc s o r a' :
  stream (capacity c) image a k -> consumer_ok (pushed a) k sc s -> sc = Called o ->
  fifo_spec max_payload_size (capacity c) false a o r a' ->
  exists k', stream (capacity c) image a' k' /\ pushed a' = pushed a /\ consumer_ok (pushed a) k' (Finished r) s.
Proof using Hc.
  intros Hs [Hf H] -> Hspec. unfold consumer_ok.
  destruct (consumer s) eqn:Ec; try (destruct H; done); try done.
  - destruct H as (Hk & Hd & ->). inversion Hspec as [| | a0 o0]; subst. exists (popped s). split; [done |].
    split; [done |]. split; [done |]. split; [done |]. split; [done |].
    rewrite (stream_observe_empty _ _ _ _ Hs), Z.eqb_eq. done.
  - destruct H as [-> Hk]. inversion Hspec as [| a0 d r0 d' a0' Hp |]; subst; simplify_eq.
    pose proof (stream_taken _ _ _ _ Hs) as Hk.
    destruct (stream_pop (capacity c) image false a (popped s) (read_buffer c) r0 d' a' Hs)
      as [(E & -> & -> & ->) | (Hlt & -> & -> & Hn' & Hs')].
    + rewrite image_size, (read_buffer_size c Hc). lia.
    + exact Hp.
    + exists (popped s). split; [done |]. split; [done |]. split; [done |]. by right.
    + exists (popped s + 1). split; [done |]. split; [done |]. split; [done |]. left.
      rewrite image_size; unfold image; rewrite (copy_to_read_buffer c Hc). split_and!; [done | done | lia | lia].
Qed.

(** *** Steps of the client *)

Lemma stress_producer_local L n st s o s' k sc :
  producer_ok L n st s -> consumer_ok n k sc s -> n <= L -> L + 1 < u64_modulus -> 0 <= n ->
  producer_advance c s = Some (o, s') ->
  consumer_ok n k sc s' /\
  match o with
  | None => producer_ok L n st s'
  | Some o => st = Idle -> producer_ok (L + 1) n (Called o) s'
  end.
Proof using Hc.
  intros [Hd H] HC Hn HL Hn0 Hadv. unfold producer_advance in Hadv.
  destruct (producer s) as [| q | q pl | q | q | | |] eqn:Ep; try done; simplify_eq.
  - destruct (start s); simplify_eq. split; [exact HC |]. destruct H as (-> & -> & Hp).
    split; [| done]. intros E. by specialize (Hd E).
  - split; [exact HC |]. destruct H as (-> & -> & Hp). split; [intros E; by specialize (Hd E) |].
    cbn [producer producer_goes published]. destruct (_ && _); [| done].
    rewrite (proj1 (expected_payload_made c Hc 0 (n + 1) (n + 1))). done.
  - split; [exact HC |]. intros _. destruct H as (_ & -> & Hp & ->). split; [intros E; by specialize (Hd E) |].
    cbn [producer producer_goes published]. split_and!; try done; lia.
  - split; [exact HC |]. destruct H as [-> ->]. split; [intros E; by specialize (Hd E) |].
    cbn [producer published]. rewrite u64_small by lia. done.
  - destruct H as [-> Hp]. split; [| split; [done |]; done].
    destruct HC as [Hf HC]. split; [done |]. cbn [consumer popped producer_done] in *.
    destruct (consumer s); try done; destruct_and?; split_and!; done.
Qed.

Lemma stress_consumer_local n k sc s o s' L st :
  consumer_ok n k sc s -> producer_ok L n st s -> consumer_advance c s = Some (o, s') ->
  producer_ok L n st s' /\
  match o with
  | None => consumer_ok n k sc s'
  | Some o => sc = Idle -> consumer_ok n k (Called o) s'
  end.
Proof.
  intros [Hf HC] HP Hadv. unfold consumer_advance in Hadv.
  destruct (consumer s) eqn:Ec; try done; simplify_eq.
  - destruct (start s); simplify_eq. split; [exact HP |]. done.
  - split; [exact HP |]. destruct HC as [-> Hp]. split; [done |]. cbn [consumer consumer_goes popped].
    destruct (producer_done s) eqn:Ed; done.
  - split; [exact HP |]. intros _. destruct HC as (_ & Hp & Hd). done.
  - split; [exact HP |]. intros _. destruct HC as (_ & Hp). done.
Qed.

Lemma stress_producer_return L n s r s' k sc :
  producer_ok L n (Finished r) s -> consumer_ok n k sc s ->
  stress_receive c s 0 r = Some s' -> producer_ok L n Idle s' /\ consumer_ok n k sc s'.
Proof.
  intros [Hd H] HC Hrec. unfold stress_receive in Hrec. destruct r as [r | |]; try done.
  destruct (producer s) as [| q | q pl | q | q | | |] eqn:Ep; try done. simplify_eq.
  destruct H as [H4 [[-> ->] | [-> ->]]]; unfold producer_receive; cbn [w_status w_sequence].
  - rewrite Z.eqb_refl. split; [| exact HC]. split; [intros E; by specialize (Hd E) | done].
  - split; [| exact HC]. split; [intros E; by specialize (Hd E) |]. cbn [producer published].
    split_and!; try done; lia.
Qed.

Lemma stress_consumer_return n k s r s' L st :
  consumer_ok n k (Finished r) s -> producer_ok L n st s -> k <= n -> n <= L -> L + 1 < u64_modulus ->
  stress_receive c s 1 r = Some s' -> consumer_ok n k Idle s' /\ producer_ok L n st s'.
Proof using Hc.
  intros [Hf HC] HP Hk Hn HL Hrec. unfold stress_receive in Hrec. destruct r as [| r d | b]; try done.
  - destruct (consumer s) eqn:Ec; try done. simplify_eq.
    destruct HC as [(-> & -> & Hk0 & Hp) | [-> Hp]]; unfold consumer_receive; cbn [r_status r_sequence].
    + rewrite Hp. replace (k - 1 +u 1) with k by (rewrite u64_small; lia). rewrite Z.eqb_refl. cbn [negb].
      unfold image. rewrite (expected_payload_valid c Hc). split; [| exact HP]. split; [done |].
      cbn [consumer popped]. done.
    + split; [| exact HP]. done.
  - destruct (consumer s) eqn:Ec; try done. simplify_eq. split; [| exact HP]. destruct HC as (Hp & Hd & Hb).
    split; [done |]. cbn [consumer consumer_goes popped producer_done]. destruct b; [| done].
    split_and!; try done. by apply Hb.
Qed.

Lemma stress_spsc_stream_client :
  stream_client (Client0 := stress_client c) max_payload_size (capacity c) image (stress_init f0)
    producer_ok consumer_ok.
Proof using Hc.
  split.
  - done.
  - intros L L' n st s. apply stress_producer_weaken.
  - intros L a k sc s o r a' Hs HL Hn HP HC Hspec. by apply (stress_producer_lin L a k (Called o) sc s o r a').
  - intros L a k s o r a' Hs HL Hn HC Hspec. by apply (stress_consumer_lin a k (Called o) s o r a').
  - intros L n k sp sc s t s' HP HC Hk Hn HL Hadv. destruct t as [| [| [| [| t]]]]; simpl in Hadv; [| | | | done].
    + destruct (stress_producer_local L n sp s None s' k sc HP HC Hn HL) as [HC' HP']; [lia | done | done].
    + by destruct (stress_consumer_local n k sc s None s' L sp HC HP Hadv) as [HP' HC'].
    + unfold main_advance in Hadv. destruct (start s); by simplify_eq.
    + unfold clock_advance in Hadv. by simplify_eq.
  - intros L n k sc s o s' HP HC Hk Hn HL Hadv.
    destruct (stress_producer_local L n Idle s (Some o) s' k sc HP HC Hn HL) as [HC' HP']; [lia | done |]. auto.
  - intros L n k sp s o s' HP HC Hk Hn HL Hadv.
    destruct (stress_consumer_local n k Idle s (Some o) s' L sp HC HP Hadv) as [HP' HC']. auto.
  - intros L n k sc s r s' HP HC Hk Hn HL Hrec. by apply (stress_producer_return L n s r s' k sc).
  - intros L n k sp s r s' HP HC Hk Hn HL Hrec.
    destruct (stress_consumer_return n k s r s' L sp HC HP) as [HC' HP']; [lia | done | done | done | done].
Qed.

(** *** The setup *)

Lemma run_spsc_setup_ok : run_spsc_setup c f0 = Some (true, f0).
Proof using Hc.
  pose proof (co_payload c Hc) as Hp. unfold payload_header_size in Hp.
  destruct (expected_payload_made c Hc 0 1 1) as [E Hsz]. unfold run_spsc_setup. fold (image 1) in E, Hsz.
  destruct (SPSCQueue_new max_payload_size 1) as [e | q] eqn:Eq; [done |].
  pose proof (spsc_repr_new max_payload_size 1 q ltac:(done) ltac:(done) Eq) as Hr.
  rewrite E. cbn [mbind option_bind].
  assert (Hst : index_stable 1 (0 + 1)) by (left; by vm_compute).
  destruct (try_push_spec max_payload_size 1 q fifo_empty (image 1) Hr Hst) as (r & q1 & a1 & -> & Ef & Hr1).
  unfold fifo_push in Ef. rewrite (proj2 (Z.ltb_ge _ _)) in Ef by lia. injection Ef as <- <-.
  cbn [mbind option_bind ok w_status negb].
  destruct (try_pop_spec max_payload_size 1 q1 _ (replicate (Z.to_nat (payload_size c - 1)) Byte.x00) Hr1)
    as (r2 & d2 & q2 & a2 & -> & Ef & Hr2); [exact Hst |].
  unfold fifo_pop in Ef. cbn [items app fifo_empty] in Ef.
  rewrite deliver_short in Ef by (cbn [snd]; rewrite Hsz; unfold span_size; rewrite length_replicate; lia).
  cbn [ok r_status orb] in Ef. injection Ef as <- <- <-. cbn [mbind option_bind r_status].
  rewrite bool_decide_true by done. cbn [negb].
  destruct (try_pop_spec max_payload_size 1 q2 _ (read_buffer c) Hr2) as (r3 & d3 & q3 & a3 & E3 & Ef & _); [exact Hst |].
  fold (read_buffer c). rewrite E3. unfold fifo_pop in Ef. cbn [items app] in Ef.
  rewrite deliver_success in Ef by (cbn [snd]; rewrite Hsz, (read_buffer_size c Hc); lia).
  cbn [ok r_status orb fst snd] in Ef. injection Ef as <- <- _. cbn [mbind option_bind ok r_status negb].
  unfold image. rewrite (copy_to_read_buffer c Hc). by apply expected_payload_valid.
Qed.

End proofs.

(** ** Theorems *)

(** C33: for an accepted configuration the SPSC stress run over [SPSCQueue] reports
    no false failure: the setup passes, no state of the threads ever has a failure
    recorded or leaves the generator's buffer, and when both threads have ended
    every pushed message was popped and the run returns [true]. *)
Theorem stress_spsc_run_sound args c f0 q n h p s :
  parse_config args = Value c -> SPSCQueue_new max_payload_size (capacity c) = returns q ->
  Z.of_nat n + 1 < u64_modulus ->
  exec (system_step (client_step (Client0 := stress_client c))
          (pool_step (ConcurrentObject0 := spsc_object max_payload_size))) n (spsc_init q, stress_init f0) h (p, s) ->
  run_spsc_setup c f0 = Some (true, f0) /\
  failures s = f0 /\ producer s <> PUndefined /\ consumer s <> CUndefined /\
  (producer s = PEnded -> consumer s = CEnded ->
   popped s = published s /\ run_spsc_verdict c s = (negb (failed f0), f0)).
Proof.
  intros Hc%parse_config_ok Hq Hn Hex. split; [by apply run_spsc_setup_ok |].
  assert (Hcap : 0 <= capacity c < u64_modulus).
  { apply (u64_bound _ u32_max); [| done]. pose proof (co_capacity c Hc). lia. }
  destruct (stream_client_sound max_payload_size (capacity c) (image c) (stress_init f0) _ _
    (stress_spsc_stream_client c f0 Hc) q n h p s) as (L & N & k & sp & sc & Hk & _ & _ & _ & [_ HP] & [Hf HC]);
    [done | done | done | done | done |].
  split; [done |]. split; [by intros E; rewrite E in HP |]. split; [by intros E; rewrite E in HC |].
  intros Ep Ec. rewrite Ep in HP. rewrite Ec in HC. destruct HP as [_ Hpub], HC as (_ & Hpop & -> & _).
  assert (E : popped s = published s) by lia. split; [done |].
  unfold run_spsc_verdict. rewrite E, Z.eqb_refl, Hf. done.
Qed.

(** ** Witnesses *)

Definition sample_args : list string :=
  ["--queue"; "spsc"; "--producers"; "1"; "--consumers"; "1"; "--capacity"; "1"; "--payload-size"; "32"; "--iterations"; "1"].

Definition sample_config : Config := mkConfig 0x4f52424954515545 250 1 "spsc" 1 1 32 1 false.

Definition one_slot : SPSCQueue := mkSPSC 1 [fresh_message 256] 0 0.

(** One message, with an empty pop before it and the empty test after it. *)
Definition one_message_schedule : list system_choice :=
  [Advance 2; Advance 1; Advance 1; Advance 1; Inside 1 0; Inside 1 0; Return 1;
   Advance 0; Advance 0; Advance 0; Inside 0 0; Inside 0 0; Inside 0 0; Inside 0 0; Return 0; Advance 0;
   Advance 1; Advance 1; Inside 1 0; Inside 1 0; Inside 1 0; Inside 1 0; Return 1;
   Advance 0; Advance 0; Advance 1; Advance 1; Inside 1 1; Inside 1 0; Return 1].

Lemma stress_spsc_run_sound_witness :
  exists h p s,
    exec (system_step (client_step (Client0 := stress_client sample_config))
            (pool_step (ConcurrentObject0 := spsc_object 256))) (length one_message_schedule)
      (spsc_init one_slot, stress_init None) h (p, s) /\
    popped s = 1 /\ run_spsc_verdict sample_config s = (true, None).
Proof.
  eexists _, _, _.
  match goal with |- ?A /\ _ => assert (Hex : A) end.
  { apply (run_system_exec (ConcurrentObject0 := spsc_object 256) (Client0 := stress_client sample_config)).
    vm_compute. reflexivity. }
  split; [exact Hex |]. split; [reflexivity |].
  destruct (stress_spsc_run_sound sample_args sample_config None one_slot (length one_message_schedule) _ _ _
    ltac:(vm_compute; reflexivity) eq_refl ltac:(vm_compute; reflexivity) Hex) as (_ & _ & _ & _ & H).
  destruct (H eq_refl eq_refl) as [_ E]. exact E.
Defined.
