(* ===== verification/WorkSharing.v ===== *)
(** * Work-sharing stress runs: state, producers, verdict and bookkeeping

    [run_blocking] and [run_mpmc] of [stress/queue_stress.cpp] have the same shape:
    several producers push numbered payloads, several consumers pop and check them,
    each message is marked in [published] by its producer and in [consumed] by its
    consumer, and at the end the marks and the totals are compared.  This file has
    what the two share: the shared variables ([work]), the producer thread, which
    the two functions repeat up to the label, the call it makes and what the last
    producer does when it leaves, and the final comparison.

    The second half is the argument both runs rest on: a ledger of how far every
    producer has come, which messages are queued and which are in the hands of a
    consumer ([books]), with one lemma per entry.  Every message is in exactly one
    place, so that no message is consumed twice, and when the threads have ended
    and the queue is empty the two vectors and the two totals agree. *)

From S2P Require Import Prelude Result FixedMessage Concurrency Clients.
From S2P Require Import Bytes BenchmarkMessage CommandLine StressTester.

(** ** Shared variables *)

Inductive producer_pc : Type :=
| PWait
| PLoop (local : Z)
| PPush (local global : Z) (payload : list byte)
| PPushing (local global : Z)
| PMark (local global : Z)
| PCount (local : Z)
| PLeave
| PClose
| PClosing
| PEnded
| PUndefined.

Record work (K : Type) : Type := mkWork {
  start : bool;
  expired : bool;               (** [Clock::now() >= deadline] *)
  published : list Z;
  consumed : list Z;
  remaining_producers : Z;
  pushed_count : Z;
  popped_count : Z;
  full_retries : Z;
  empty_retries : Z;
  failures : FailureRecorder;
  makers : list producer_pc;
  takers : list K;
}.
Arguments mkWork {_} _ _ _ _ _ _ _ _ _ _ _ _.
Arguments start {_} _.
Arguments expired {_} _.
Arguments published {_} _.
Arguments consumed {_} _.
Arguments remaining_producers {_} _.
Arguments pushed_count {_} _.
Arguments popped_count {_} _.
Arguments full_retries {_} _.
Arguments empty_retries {_} _.
Arguments failures {_} _.
Arguments makers {_} _.
Arguments takers {_} _.

Section setters.

Context {K : Type}.
Implicit Type s : work K.

Definition set_start s : work K :=
  mkWork true (expired s) (published s) (consumed s) (remaining_producers s) (pushed_count s) (popped_count s)
    (full_retries s) (empty_retries s) (failures s) (makers s) (takers s).

Definition set_expired s : work K :=
  mkWork (start s) true (published s) (consumed s) (remaining_producers s) (pushed_count s) (popped_count s)
    (full_retries s) (empty_retries s) (failures s) (makers s) (takers s).

Definition set_published s (g : nat) : work K :=
  mkWork (start s) (expired s) (<[g := 1]> (published s)) (consumed s) (remaining_producers s) (pushed_count s)
    (popped_count s) (full_retries s) (empty_retries s) (failures s) (makers s) (takers s).

Definition set_consumed s (g : nat) : work K :=
  mkWork (start s) (expired s) (published s) (<[g := 1]> (consumed s)) (remaining_producers s) (pushed_count s)
    (popped_count s) (full_retries s) (empty_retries s) (failures s) (makers s) (takers s).

Definition set_remaining s (n : Z) : work K :=
  mkWork (start s) (expired s) (published s) (consumed s) n (pushed_count s) (popped_count s) (full_retries s)
    (empty_retries s) (failures s) (makers s) (takers s).

Definition add_pushed s : work K :=
  mkWork (start s) (expired s) (published s) (consumed s) (remaining_producers s) (pushed_count s +u 1)
    (popped_count s) (full_retries s) (empty_retries s) (failures s) (makers s) (takers s).

Definition add_popped s : work K :=
  mkWork (start s) (expired s) (published s) (consumed s) (remaining_producers s) (pushed_count s)
    (popped_count s +u 1) (full_retries s) (empty_retries s) (failures s) (makers s) (takers s).

Definition add_full_retry s : work K :=
  mkWork (start s) (expired s) (published s) (consumed s) (remaining_producers s) (pushed_count s) (popped_count s)
    (full_retries s +u 1) (empty_retries s) (failures s) (makers s) (takers s).

Definition add_empty_retry s : work K :=
  mkWork (start s) (expired s) (published s) (consumed s) (remaining_producers s) (pushed_count s) (popped_count s)
    (full_retries s) (empty_retries s +u 1) (failures s) (makers s) (takers s).

Definition set_failures s (r : FailureRecorder) : work K :=
  mkWork (start s) (expired s) (published s) (consumed s) (remaining_producers s) (pushed_count s) (popped_count s)
    (full_retries s) (empty_retries s) r (makers s) (takers s).

Definition set_maker s (p : nat) (pc : producer_pc) : work K :=
  mkWork (start s) (expired s) (published s) (consumed s) (remaining_producers s) (pushed_count s) (popped_count s)
    (full_retries s) (empty_retries s) (failures s) (<[p := pc]> (makers s)) (takers s).

Definition set_taker s (i : nat) (pc : K) : work K :=
  mkWork (start s) (expired s) (published s) (consumed s) (remaining_producers s) (pushed_count s) (popped_count s)
    (full_retries s) (empty_retries s) (failures s) (makers s) (<[i := pc]> (takers s)).

End setters.

Section program.

Context {Op K : Type}.

(** The label of the run, the call that pushes a payload, and the call the last
    producer makes when it leaves, if any. *)
Context (name : string) (push_op : list byte -> Op) (last_op : option Op) (c : Config).

Definition nproducers : nat := Z.to_nat (producers c).
Definition nconsumers : nat := Z.to_nat (consumers c).

Definition total_slots : Z := u64 (iterations c * producers c).

Definition work_init (k : K) (failures : FailureRecorder) : work K :=
  let zeros := replicate (Z.to_nat (total_slots +u 1)) 0 in
  mkWork false false zeros zeros (producers c) 0 0 0 0 failures (replicate nproducers PWait) (replicate nconsumers k).

(** ** The producer thread *)

Definition global_of (p : nat) (local : Z) : Z := u64 (Z.of_nat p * iterations c) +u local.

Definition producer_advance (s : work K) (p : nat) : option (option Op * work K) :=
  match makers s !! p with
  | Some PWait => if start s then Some (None, set_maker s p (PLoop 1)) else None
  | Some (PLoop local) =>
      let global := global_of p local in
      Some (None, set_maker s p
        (if (local <=? iterations c) && negb (expired s) then
           match make_payload c (Z.of_nat p) local global with
           | Some payload => PPush local global payload
           | None => PUndefined
           end
         else PLeave))
  | Some (PPush local global payload) => Some (Some (push_op payload), set_maker s p (PPushing local global))
  | Some (PMark local global) =>
      match published s !! Z.to_nat global with
      | Some _ => Some (None, set_maker (set_published s (Z.to_nat global)) p (PCount local))
      | None => Some (None, set_maker s p PUndefined)
      end
  | Some (PCount local) => Some (None, set_maker (add_pushed s) p (PLoop (local +u 1)))
  | Some PLeave =>
      let old := remaining_producers s in
      let last := match last_op with Some _ => if old =? 1 then PClose else PEnded | None => PEnded end in
      Some (None, set_maker (set_remaining s ((old - 1) mod u32_modulus)) p last)
  | Some PClose => match last_op with Some o => Some (Some o, set_maker s p PClosing) | None => None end
  | _ => None
  end.

(** The code after [queue.try_push(payload)]; [sequence] is the observed sequence
    of the failure report. *)
Definition producer_receive (s : work K) (p : nat) (local global : Z) (status : QueueStatus) (sequence : Z) : work K :=
  match status with
  | success => set_maker s p (PMark local global)
  | full => set_maker (add_full_retry s) p (PLoop local)
  | _ =>
      set_maker
        (set_failures s
           (record (failures s)
              (mkFailure name (seed c) global global sequence 0 0 "unexpected producer status"))) p PLeave
  end.

(** [header.producer_id < config.producers && ...] *)
Definition in_range (h : PayloadHeader) : bool :=
  (producer_id h <? producers c) && (1 <=? local_sequence h) && (local_sequence h <=? iterations c) &&
  (global_sequence h =? u64 (producer_id h * iterations c) +u local_sequence h).

(** ** The verdict *)

(** The loop over [index], from [index] on; [None]: [consumed] is shorter. *)
Fixpoint compare_membership (index : Z) (published consumed : list Z) (missing : Z) (failures : FailureRecorder)
    : option (Z * FailureRecorder) :=
  match published, consumed with
  | [], _ => Some (missing, failures)
  | x :: published, y :: consumed =>
      if negb (x =? y)
      then compare_membership (index +u 1) published consumed (missing +u 1)
             (if negb (failed failures)
              then record failures
                     (mkFailure name (seed c) index x y 0 0 "published/consumed membership mismatch")
              else failures)
      else compare_membership (index +u 1) published consumed missing failures
  | _ :: _, [] => None
  end.

(** After the threads were joined: the count of missing messages, the verdict
    and the recorder. *)
Definition work_verdict (reason : string) (s : work K) : option (Z * bool * FailureRecorder) :=
  '(missing, recorded) ← compare_membership 1 (drop 1 (published s)) (drop 1 (consumed s)) 0 (failures s);
  let recorded :=
    if negb (pushed_count s =? popped_count s) || negb (missing =? 0)
    then record recorded
           (mkFailure name (seed c) (popped_count s) (pushed_count s) (popped_count s) 0 0 reason)
    else recorded in
  Some (missing, negb (failed recorded), recorded).

End program.

(** ** The ledger *)

Record ledger : Type := mkLedger {
  accepted : list Z;         (** per producer: messages the queue has accepted *)
  marked : list Z;           (** per producer: messages marked in [published] *)
  counted : list Z;          (** per producer: messages counted in [pushed] *)
  queued : list Z;           (** the global numbers in the queue *)
  held : list (option Z);    (** per consumer: the message popped and not yet marked *)
  uncounted : list Z;        (** per consumer: 1 between a pop and its count *)
}.

Definition is_one (g x : Z) : Z := if x =? g then 1 else 0.

Definition holds (g : Z) (h : option Z) : Z := match h with Some x => is_one g x | None => 0 end.

(** The mark of message [g] in one of the vectors. *)
Definition mark (xs : list Z) (g : Z) : Z := default 0 (xs !! Z.to_nat g).

Section ledger.

Context {K : Type} (c : Config).
Hypothesis Hc : config_ok c.

(** Message [g] is among the first [ns !! p] of its producer [p]. *)
Definition entered (ns : list Z) (g : Z) : Z :=
  if 1 <=? g then
    match ns !! Z.to_nat ((g - 1) / iterations c) with
    | Some n => if (g - 1) mod iterations c <? n then 1 else 0
    | None => 0
    end
  else 0.

Definition number (p : nat) (local : Z) : Z := Z.of_nat p * iterations c + local.

Lemma number_split p local :
  1 <= local <= iterations c ->
  (number p local - 1) / iterations c = Z.of_nat p /\ (number p local - 1) mod iterations c = local - 1.
Proof.
  intros Hl. unfold number.
  replace (Z.of_nat p * iterations c + local - 1) with (iterations c * Z.of_nat p + (local - 1)) by lia.
  split; symmetry.
  - apply (Z.div_unique _ _ _ (local - 1)); [left; lia | done].
  - apply (Z.mod_unique _ _ (Z.of_nat p)); [left; lia | done].
Qed.

Lemma number_bounds p local :
  (p < nproducers c)%nat -> 1 <= local <= iterations c -> 1 <= number p local <= iterations c * producers c.
Proof using Hc.
  intros Hp Hl. unfold number, nproducers in *. pose proof (co_producers c Hc). split; [nia |].
  assert (Z.of_nat p + 1 <= producers c) by lia. nia.
Qed.

Lemma slots_small : iterations c * producers c + 1 < u64_modulus /\ total_slots c = iterations c * producers c.
Proof using Hc.
  pose proof (co_iterations c Hc). pose proof (co_producers c Hc). assert (u64_modulus = 2 ^ 64) as E by done.
  unfold total_slots. split; [nia |]. rewrite u64_small; [done | nia].
Qed.

Lemma global_of_number p local :
  (p < nproducers c)%nat -> 1 <= local <= iterations c -> global_of c p local = number p local.
Proof using Hc.
  intros Hp Hl. pose proof (number_bounds p local Hp Hl). pose proof slots_small as [Hs _].
  unfold global_of, number in *. pose proof (co_iterations c Hc).
  rewrite (u64_small (Z.of_nat p * _)) by nia. apply u64_small. lia.
Qed.

Lemma entered_range ns g : 0 <= entered ns g <= 1.
Proof. unfold entered. repeat case_match; lia. Qed.

Lemma entered_bound ns g :
  length ns = nproducers c -> Forall (fun n => 0 <= n <= iterations c) ns -> entered ns g = 1 ->
  exists p local, (p < nproducers c)%nat /\ 1 <= local <= iterations c /\ g = number p local.
Proof using Hc.
  intros Hl Hn H. unfold entered in H. destruct (Z.leb_spec 1 g) as [Hg |]; [| done].
  destruct (ns !! _) as [n |] eqn:E; [| done]. pose proof (co_iterations c Hc) as Hi.
  pose proof (lookup_lt_Some _ _ _ E) as Hlt. rewrite Hl in Hlt.
  pose proof (Z.mod_pos_bound (g - 1) (iterations c) ltac:(lia)) as Hm.
  pose proof (Z.div_pos (g - 1) (iterations c) ltac:(lia) ltac:(lia)) as Hd.
  exists (Z.to_nat ((g - 1) / iterations c)), ((g - 1) mod iterations c + 1).
  split; [done |]. split; [lia |]. unfold number. rewrite Z2Nat.id by done.
  pose proof (Z.div_mod (g - 1) (iterations c) ltac:(lia)). lia.
Qed.

(** One more message of producer [p]. *)
Lemma entered_next ns p n g :
  ns !! p = Some n -> 0 <= n < iterations c ->
  entered (<[p := n + 1]> ns) g = entered ns g + is_one (number p (n + 1)) g.
Proof.
  intros Hp Hn. assert (Hlt := lookup_lt_Some _ _ _ Hp). unfold entered, is_one.
  destruct (Z.leb_spec 1 g) as [Hg | Hg].
  - pose proof (Z.mod_pos_bound (g - 1) (iterations c) ltac:(lia)) as Hm.
    pose proof (Z.div_pos (g - 1) (iterations c) ltac:(lia) ltac:(lia)) as Hd.
    pose proof (Z.div_mod (g - 1) (iterations c) ltac:(lia)) as Hdm.
    destruct (decide (Z.to_nat ((g - 1) / iterations c) = p)) as [E | E].
    + rewrite E, list_lookup_insert_eq, Hp by done. unfold number.
      assert (Ep : Z.of_nat p = (g - 1) / iterations c) by lia. rewrite Ep.
      destruct (Z.ltb_spec ((g - 1) mod iterations c) (n + 1)), (Z.ltb_spec ((g - 1) mod iterations c) n),
        (Z.eqb_spec g ((g - 1) / iterations c * iterations c + (n + 1))); lia.
    + rewrite list_lookup_insert_ne by done. destruct (Z.eqb_spec g (number p (n + 1))) as [-> | Hne]; [| lia].
      destruct (number_split p (n + 1)) as [Hq _]; [lia |]. rewrite Hq in E. lia.
  - destruct (Z.eqb_spec g (number p (n + 1))) as [-> | Hne]; [| lia]. unfold number in Hg. nia.
Qed.

Lemma entered_fresh ns p n : ns !! p = Some n -> 0 <= n < iterations c -> entered ns (number p (n + 1)) = 0.
Proof.
  intros Hp Hn. pose proof (entered_next ns p n (number p (n + 1)) Hp Hn) as H.
  unfold is_one in H. rewrite Z.eqb_refl in H. pose proof (entered_range ns (number p (n + 1))).
  pose proof (entered_range (<[p := n + 1]> ns) (number p (n + 1))). lia.
Qed.

Definition within (ns : list Z) : Prop :=
  length ns = nproducers c /\ Forall (fun n => 0 <= n <= iterations c) ns.

Lemma within_insert ns p n : within ns -> 0 <= n <= iterations c -> within (<[p := n]> ns).
Proof. intros [H1 H2] Hn. split; [by rewrite length_insert | by apply Forall_insert]. Qed.

Lemma within_sum ns : within ns -> 0 <= sumZ ns <= iterations c * producers c.
Proof using Hc.
  intros [H1 H2]. apply sumZ_range in H2. rewrite H1 in H2. unfold nproducers in H2.
  pose proof (co_producers c Hc). rewrite Z2Nat.id in H2 by lia. lia.
Qed.

Definition binary (xs : list Z) : Prop :=
  length xs = Z.to_nat (iterations c * producers c + 1) /\ Forall (fun x => x = 0 \/ x = 1) xs.

Lemma binary_insert xs i : binary xs -> binary (<[i := 1]> xs).
Proof. intros [H1 H2]. split; [by rewrite length_insert | apply Forall_insert; auto]. Qed.

Lemma mark_insert xs g g' :
  1 <= g <= iterations c * producers c -> binary xs -> mark xs g = 0 ->
  mark (<[Z.to_nat g := 1]> xs) g' = mark xs g' + is_one g g'.
Proof.
  intros Hg [Hl _] H0. unfold mark, is_one. destruct (Z.eqb_spec g' g) as [-> | Hne].
  - rewrite list_lookup_insert_eq by lia. unfold mark in H0. rewrite H0. done.
  - rewrite list_lookup_insert_ne by lia. lia.
Qed.

(** The books are kept: what the ledger says agrees with the shared variables. *)
Record books (G : ledger) (s : work K) : Prop := {
  bk_accepted : within (accepted G);
  bk_marked : within (marked G);
  bk_counted : within (counted G);
  bk_held : length (held G) = nconsumers c;
  bk_uncounted : length (uncounted G) = nconsumers c;
  bk_binary : binary (published s) /\ binary (consumed s);
  (** every accepted message is queued, in the hands of one consumer or consumed *)
  bk_once : forall g, entered (accepted G) g =
    sumZ (is_one g <$> queued G) + sumZ (holds g <$> held G) + mark (consumed s) g;
  bk_published : forall g, mark (published s) g = entered (marked G) g;
  bk_pushed : pushed_count s = sumZ (counted G);
  bk_popped : 0 <= popped_count s /\ Forall (fun u => 0 <= u <= 1) (uncounted G) /\
    popped_count s + sumZ (uncounted G) + Z.of_nat (length (queued G)) = sumZ (accepted G);
}.

Lemma books_frame G s s' :
  published s' = published s -> consumed s' = consumed s -> pushed_count s' = pushed_count s ->
  popped_count s' = popped_count s -> books G s -> books G s'.
Proof. intros E1 E2 E3 E4 []. split; rewrite ?E1, ?E2, ?E3, ?E4; done. Qed.

Lemma holds_nonneg g hs : Forall (fun x => 0 <= x) (holds g <$> hs).
Proof.
  apply Forall_fmap, Forall_true. intros [x |]; simpl; unfold is_one; [| done]. destruct (_ =? _); lia.
Qed.

Lemma is_one_nonneg g xs : Forall (fun x => 0 <= x) (is_one g <$> xs).
Proof. apply Forall_fmap, Forall_true. intros x. simpl. unfold is_one. destruct (_ =? _); lia. Qed.

Lemma mark_range xs g : binary xs -> 0 <= mark xs g <= 1.
Proof.
  intros [_ H]. unfold mark. destruct (xs !! _) as [x |] eqn:E; simpl; [| lia].
  apply (Forall_lookup_1 _ _ _ _ H) in E. lia.
Qed.

(** *** Entries *)

Lemma books_accept G s p n :
  books G s -> accepted G !! p = Some n -> n < iterations c ->
  books (mkLedger (<[p := n + 1]> (accepted G)) (marked G) (counted G)
           (queued G ++ [number p (n + 1)]) (held G) (uncounted G)) s.
Proof.
  intros [] Hp Hn. assert (0 <= n) by apply (Forall_lookup_1 _ _ _ _ (proj2 bk_accepted0) Hp).
  split; simpl; try done; [apply within_insert; [done | lia] | |].
  - intros g. rewrite (entered_next _ p n g Hp), fmap_app, sumZ_app, bk_once0 by lia. simpl.
    unfold is_one. rewrite (Z.eqb_sym g). lia.
  - destruct bk_popped0 as (H1 & H2 & H3). rewrite (sumZ_insert _ _ n), length_app by done. simpl.
    split_and!; [done | done | lia].
Qed.

Lemma books_mark G s p m :
  books G s -> marked G !! p = Some m -> m < iterations c ->
  (exists x, published s !! Z.to_nat (number p (m + 1)) = Some x) /\
  books (mkLedger (accepted G) (<[p := m + 1]> (marked G)) (counted G) (queued G) (held G) (uncounted G))
    (set_published s (Z.to_nat (number p (m + 1)))).
Proof using Hc.
  intros [] Hp Hm. assert (0 <= m) by apply (Forall_lookup_1 _ _ _ _ (proj2 bk_marked0) Hp).
  assert (Hlt : (p < nproducers c)%nat) by (rewrite <- (proj1 bk_marked0); by eapply lookup_lt_Some).
  pose proof (number_bounds p (m + 1) Hlt ltac:(lia)) as Hb. destruct bk_binary0 as [Hbp Hbc]. split.
  - apply lookup_lt_is_Some_2. rewrite (proj1 Hbp). lia.
  - split; simpl; try done.
    + apply within_insert; [done | lia].
    + split; [by apply binary_insert | done].
    + assert (H0 : mark (published s) (number p (m + 1)) = 0)
        by (rewrite bk_published0; apply entered_fresh; [done | lia]).
      intros g. rewrite (mark_insert _ _ g Hb Hbp H0), (entered_next _ p m g Hp), bk_published0 by lia. done.
Qed.

Lemma books_count G s p k :
  books G s -> counted G !! p = Some k -> k < iterations c ->
  books (mkLedger (accepted G) (marked G) (<[p := k + 1]> (counted G)) (queued G) (held G) (uncounted G))
    (add_pushed s).
Proof using Hc.
  intros [] Hp Hk. assert (0 <= k) by apply (Forall_lookup_1 _ _ _ _ (proj2 bk_counted0) Hp).
  assert (Hw : within (<[p := k + 1]> (counted G))) by (apply within_insert; [done | lia]).
  pose proof (within_sum _ Hw) as Hs. pose proof (within_sum _ bk_counted0). rewrite (sumZ_insert _ _ k) in Hs by done.
  pose proof slots_small as [Hsm _]. split; simpl; try done.
  rewrite bk_pushed0, (sumZ_insert _ _ k), u64_small by (done || lia). lia.
Qed.

Lemma books_take G s i g gs :
  books G s -> queued G = g :: gs -> held G !! i = Some None -> uncounted G !! i = Some 0 ->
  books (mkLedger (accepted G) (marked G) (counted G) gs (<[i := Some g]> (held G)) (<[i := 1]> (uncounted G))) s.
Proof.
  intros [] Hq Hh Hu. destruct bk_popped0 as (H1 & H2 & H3). split; simpl; try done; try by rewrite length_insert.
  - intros g'. rewrite bk_once0, Hq, (sumZ_fmap_insert _ _ _ None), fmap_cons, sumZ_cons by done. simpl. lia.
  - rewrite (sumZ_insert _ _ 0) by done. rewrite Hq in H3. simpl in H3.
    split_and!; [done | apply Forall_insert; [done | lia] | lia].
Qed.

(** A message in hand has a place in the vector, and its mark is not set yet. *)
Lemma books_held G s i g :
  books G s -> held G !! i = Some (Some g) ->
  (exists p local, (p < nproducers c)%nat /\ 1 <= local <= iterations c /\ g = number p local) /\
  consumed s !! Z.to_nat g = Some 0.
Proof using Hc.
  intros [] Hh. pose proof (bk_once0 g) as Ho. pose proof (entered_range (accepted G) g) as Hr.
  pose proof (sumZ_member (holds g (Some g)) _ (holds_nonneg g (held G))) as Hm.
  assert (Hin : holds g (Some g) ∈ holds g <$> held G).
  { apply list_elem_of_fmap. exists (Some g). split; [done |]. by eapply list_elem_of_lookup_2. }
  specialize (Hm Hin). simpl in Hm. unfold is_one in Hm at 1. rewrite Z.eqb_refl in Hm.
  pose proof (sumZ_nonneg _ (is_one_nonneg g (queued G))) as Hq.
  pose proof (mark_range _ g (proj2 bk_binary0)) as Hk.
  destruct (entered_bound (accepted G) g) as (p & l & Hp & Hl & ->); [apply bk_accepted0 | apply bk_accepted0 | lia |].
  split; [by eauto |]. pose proof (number_bounds p l Hp Hl) as Hb.
  destruct (lookup_lt_is_Some_2 (consumed s) (Z.to_nat (number p l))) as [x Hx].
  { rewrite (proj1 (proj2 bk_binary0)). lia. }
  rewrite Hx. unfold mark in *. rewrite Hx in *. simpl in *. f_equal. lia.
Qed.

Lemma books_consume G s i g :
  books G s -> held G !! i = Some (Some g) ->
  books (mkLedger (accepted G) (marked G) (counted G) (queued G) (<[i := None]> (held G)) (uncounted G))
    (set_consumed s (Z.to_nat g)).
Proof using Hc.
  intros HB Hh. destruct (books_held G s i g HB Hh) as [(p & l & Hp & Hl & ->) Hx].
  pose proof (number_bounds p l Hp Hl) as Hb. destruct HB. split; simpl; try done; try by rewrite length_insert.
  - split; [apply bk_binary0 | apply binary_insert, bk_binary0].
  - intros g'. rewrite bk_once0, (sumZ_fmap_insert _ _ _ (Some (number p l))) by done. simpl.
    rewrite mark_insert; [| done | apply bk_binary0 | unfold mark; by rewrite Hx].
    unfold is_one. rewrite (Z.eqb_sym g'). lia.
Qed.

Lemma books_count_pop G s i :
  books G s -> uncounted G !! i = Some 1 ->
  books (mkLedger (accepted G) (marked G) (counted G) (queued G) (held G) (<[i := 0]> (uncounted G)))
    (add_popped s).
Proof using Hc.
  intros [] Hu. destruct bk_popped0 as (H1 & H2 & H3). pose proof (within_sum _ bk_accepted0) as Hs.
  pose proof slots_small as [Hsm _].
  assert (Hpos : 1 <= sumZ (uncounted G)).
  { apply sumZ_member; [| by eapply list_elem_of_lookup_2]. eapply Forall_impl; [exact H2 | simpl; lia]. }
  split; simpl; try done; [by rewrite length_insert |].
  rewrite (sumZ_insert _ _ 1), u64_small by (done || lia). split_and!; [lia | | lia].
  apply Forall_insert; [done | lia].
Qed.

(** *** Closing the books *)

Lemma compare_equal name index xs missing recorded :
  compare_membership name c index xs xs missing recorded = Some (missing, recorded).
Proof. revert index. induction xs as [| x xs IH]; intros index; simpl; [done |]. rewrite Z.eqb_refl. apply IH. Qed.

Lemma marks_equal xs ys : binary xs -> binary ys -> (forall g, mark xs g = mark ys g) -> xs = ys.
Proof.
  intros [Hx _] [Hy _] H. apply list_eq_same_length with (length ys); [done | congruence |].
  intros i x y Hi Ex Ey. specialize (H (Z.of_nat i)). unfold mark in H. rewrite Nat2Z.id, Ex, Ey in H. done.
Qed.

Lemma books_closed name reason G s :
  books G s -> marked G = accepted G -> counted G = accepted G -> queued G = [] ->
  Forall (fun h => h = None) (held G) -> Forall (fun u => u = 0) (uncounted G) ->
  published s = consumed s /\ pushed_count s = popped_count s /\
  work_verdict name c reason s = Some (0, negb (failed (failures s)), failures s).
Proof.
  intros [] Em Ec Eq Hh Hu. destruct bk_popped0 as (H1 & H2 & H3).
  rewrite Eq, (sumZ_zeros _ Hu) in H3. simpl in H3.
  assert (Ep : pushed_count s = popped_count s) by (rewrite bk_pushed0, Ec; lia).
  assert (Ev : published s = consumed s).
  { apply marks_equal; [apply bk_binary0 | apply bk_binary0 |]. intros g.
    rewrite bk_published0, Em, bk_once0, Eq. simpl. rewrite (sumZ_zeros (holds g <$> held G)); [done |].
    apply Forall_fmap. eapply Forall_impl; [exact Hh |]. by intros h ->. }
  split; [done |]. split; [done |]. unfold work_verdict. rewrite Ev, compare_equal. cbn [mbind option_bind].
  by rewrite Ep, Z.eqb_refl.
Qed.

End ledger.

(** ** Invariants of the runs *)

(** A producer that has not left: [remaining_producers] counts them. *)
Definition active (pc : producer_pc) : Z := match pc with PClose | PClosing | PEnded => 0 | _ => 1 end.

Definition taken (G : ledger) : Z := sumZ (accepted G) - Z.of_nat (length (queued G)).

(** What the steps of the other threads leave true for a consumer: the counters
    only grow, and when the producers have left nothing more is accepted. *)
Record evolves {K} (G : ledger) (s : work K) (G' : ledger) (s' : work K) : Prop := {
  ev_taken : taken G <= taken G';
  ev_popped : popped_count s <= popped_count s';
  ev_start : start s = true -> start s' = true;
  ev_over : remaining_producers s = 0 ->
    remaining_producers s' = 0 /\ accepted G' = accepted G /\ pushed_count s' = pushed_count s /\
    (queued G = [] -> queued G' = []);
}.

Section invariant.

Context {Op Res K : Type} (name : string) (push_op : list byte -> Op) (last_op : option Op).
Context (c : Config) (f0 : FailureRecorder).
Hypothesis Hc : config_ok c.

(** Which results mean that the queue took the message, or that it was full. *)
Context (accepts refuses : Res -> Prop) (closes : Res -> Prop).

Definition image (g : Z) : list byte :=
  expected_payload c ((g - 1) / iterations c) ((g - 1) mod iterations c + 1) g.

Lemma image_number p local :
  1 <= local <= iterations c -> image (number c p local) = expected_payload c (Z.of_nat p) local (number c p local).
Proof.
  intros Hl. unfold image. destruct (number_split c p local Hl) as [-> ->].
  by replace (local - 1 + 1) with local by lia.
Qed.

#[local] Opaque image make_payload expected_payload.

(** Producer [p], of whose messages [n] were accepted, [m] marked and [k] counted. *)
Definition producer_ok (p : nat) (n m k : Z) (st : status Op Res) (pc : producer_pc) : Prop :=
  match pc with
  | PWait => st = Idle /\ n = 0 /\ m = 0 /\ k = 0
  | PLoop local => st = Idle /\ 1 <= local /\ n = local - 1 /\ m = local - 1 /\ k = local - 1
  | PPush local global payload =>
      st = Idle /\ 1 <= local <= iterations c /\ n = local - 1 /\ m = local - 1 /\ k = local - 1 /\
      global = number c p local /\ payload = image global
  | PPushing local global =>
      1 <= local <= iterations c /\ m = local - 1 /\ k = local - 1 /\ global = number c p local /\
      match st with
      | Called o => o = push_op (image global) /\ n = local - 1
      | Finished r => (accepts r /\ n = local) \/ (refuses r /\ n = local - 1)
      | Idle => False
      end
  | PMark local global =>
      st = Idle /\ 1 <= local <= iterations c /\ n = local /\ m = local - 1 /\ k = local - 1 /\
      global = number c p local
  | PCount local => st = Idle /\ 1 <= local <= iterations c /\ n = local /\ m = local /\ k = local - 1
  | PLeave | PEnded => st = Idle /\ m = n /\ k = n
  | PClose => st = Idle /\ m = n /\ k = n /\ is_Some last_op
  | PClosing =>
      m = n /\ k = n /\
      match st with
      | Called o => last_op = Some o
      | Finished r => closes r
      | Idle => False
      end
  | PUndefined => False
  end.

(** What a consumer knows, given the message it holds and whether it owes a count. *)
Context (consumer_ok : ledger -> work K -> option Z -> Z -> status Op Res -> K -> Prop).
Hypothesis consumer_stable : forall G s G' s' h u st pc,
  evolves G s G' s' -> consumer_ok G s h u st pc -> consumer_ok G' s' h u st pc.

Record work_inv (G : ledger) (cs : list (status Op Res)) (s : work K) : Prop := {
  wi_threads : length cs = (nproducers c + nconsumers c)%nat;
  wi_makers : length (makers s) = nproducers c;
  wi_takers : length (takers s) = nconsumers c;
  wi_books : books c G s;
  wi_failures : failures s = f0;
  wi_remaining : remaining_producers s = sumZ (active <$> makers s);
  wi_producers : forall p pc st n m k,
    makers s !! p = Some pc -> cs !! p = Some st ->
    accepted G !! p = Some n -> marked G !! p = Some m -> counted G !! p = Some k ->
    producer_ok p n m k st pc;
  wi_consumers : forall i pc st h u,
    takers s !! i = Some pc -> cs !! (nproducers c + i)%nat = Some st ->
    held G !! i = Some h -> uncounted G !! i = Some u -> consumer_ok G s h u st pc;
  (** only the last producer closes *)
  wi_closing : forall p pc, makers s !! p = Some pc -> pc = PClose \/ pc = PClosing -> remaining_producers s = 0;
}.

(** Producer [p] moves to [pc'] with status [st']. *)
Lemma work_inv_maker G G' cs s s' p pc pc' st' :
  work_inv G cs s -> makers s !! p = Some pc ->
  makers s' = <[p := pc']> (makers s) -> takers s' = takers s -> failures s' = failures s ->
  remaining_producers s' = remaining_producers s - active pc + active pc' ->
  books c G' s' -> held G' = held G -> uncounted G' = uncounted G -> evolves G s G' s' ->
  (forall p', p' <> p -> accepted G' !! p' = accepted G !! p' /\ marked G' !! p' = marked G !! p' /\
     counted G' !! p' = counted G !! p') ->
  (forall n m k, accepted G' !! p = Some n -> marked G' !! p = Some m -> counted G' !! p = Some k ->
     producer_ok p n m k st' pc') ->
  (pc' = PClose \/ pc' = PClosing -> remaining_producers s' = 0) ->
  work_inv G' (<[p := st']> cs) s'.
Proof using consumer_stable.
  intros [H1 H2 H3 H4 H5 H6 H7 H8 H9] Hpc Em Et Ef Er HB Eh Eu Hev Hother Hown Hcl.
  assert (Hlt : (p < nproducers c)%nat) by (rewrite <- H2; by eapply lookup_lt_Some).
  split; rewrite ?length_insert, ?Em, ?Et, ?Ef, ?length_insert; try done.
  - by rewrite Er, H6, (sumZ_fmap_insert _ _ _ pc).
  - intros p' q st n m k Hq Hst Hn Hm Hk.
    apply list_lookup_insert_Some in Hq as [(<- & <- & _) | [Hne Hq]].
    + rewrite list_lookup_insert_eq in Hst by lia. injection Hst as <-. by apply Hown.
    + rewrite list_lookup_insert_ne in Hst by done. destruct (Hother p') as (E1 & E2 & E3); [done |].
      rewrite E1 in Hn. rewrite E2 in Hm. rewrite E3 in Hk. by eapply H7.
  - intros i q st h u Hq Hst Hh Hu. rewrite list_lookup_insert_ne in Hst by lia.
    rewrite Eh in Hh. rewrite Eu in Hu. eapply consumer_stable; [exact Hev |]. by eapply H8.
  - intros p' q Hq Hcase. apply list_lookup_insert_Some in Hq as [(<- & <- & _) | [Hne Hq]]; [by apply Hcl |].
    apply (ev_over _ _ _ _ Hev). by eapply H9.
Qed.

(** Consumer [i] moves to [pc'] with status [st'], holding [h] and owing [u]. *)
Lemma work_inv_taker G G' cs s s' i pc' st' h u :
  work_inv G cs s -> (i < nconsumers c)%nat ->
  makers s' = makers s -> takers s' = <[i := pc']> (takers s) -> failures s' = failures s ->
  remaining_producers s' = remaining_producers s ->
  books c G' s' -> accepted G' = accepted G -> marked G' = marked G -> counted G' = counted G ->
  held G' = <[i := h]> (held G) -> uncounted G' = <[i := u]> (uncounted G) -> evolves G s G' s' ->
  consumer_ok G' s' h u st' pc' ->
  work_inv G' (<[(nproducers c + i)%nat := st']> cs) s'.
Proof using consumer_stable.
  intros [H1 H2 H3 H4 H5 H6 H7 H8 H9] Hi Em Et Ef Er HB Ea Emk Ec Eh Eu Hev Hown.
  split; rewrite ?length_insert, ?Em, ?Et, ?Ef, ?length_insert; try done; [by rewrite Er | | | by rewrite Er].
  - intros p q st n m k Hq Hst. rewrite Ea, Emk, Ec.
    rewrite list_lookup_insert_ne in Hst by (apply lookup_lt_Some in Hq; lia). by apply H7.
  - intros j q st h' u' Hq Hst Hh Hu.
    apply list_lookup_insert_Some in Hq as [(<- & <- & _) | [Hne Hq]].
    + rewrite list_lookup_insert_eq in Hst by lia. injection Hst as <-.
      rewrite Eh, list_lookup_insert_eq in Hh by (rewrite (bk_held _ _ _ H4); done). injection Hh as <-.
      rewrite Eu, list_lookup_insert_eq in Hu by (rewrite (bk_uncounted _ _ _ H4); done). injection Hu as <-. done.
    + rewrite list_lookup_insert_ne in Hst by lia. rewrite Eh, list_lookup_insert_ne in Hh by done.
      rewrite Eu, list_lookup_insert_ne in Hu by done. eapply consumer_stable; [exact Hev |]. by eapply H8.
Qed.

(** The producers have left. *)
Lemma all_left G cs s p pc :
  work_inv G cs s -> remaining_producers s = 0 -> makers s !! p = Some pc -> active pc = 0.
Proof.
  intros Hinv Hr Hp. rewrite (wi_remaining _ _ _ Hinv) in Hr.
  assert (Hin : active pc <= sumZ (active <$> makers s)).
  { apply sumZ_member.
    - apply Forall_fmap, Forall_true. by intros [].
    - apply list_elem_of_fmap. exists pc. split; [done | by eapply list_elem_of_lookup_2]. }
  destruct pc; simpl in *; lia.
Qed.

(** *** What a consumer checks *)

Lemma image_of_number p local :
  1 <= local <= iterations c -> span_size (image (number c p local)) = payload_size c.
Proof using Hc. intros Hl. rewrite image_number by done. apply (expected_payload_made c Hc). Qed.

Lemma image_checked p local :
  (p < nproducers c)%nat -> 1 <= local <= iterations c ->
  in_range c (read_header (image (number c p local))) = true /\
  global_sequence (read_header (image (number c p local))) = number c p local /\
  forall operation recorded,
    validate_payload name c (image (number c p local)) (producer_id (read_header (image (number c p local))))
      (local_sequence (read_header (image (number c p local)))) (number c p local) operation recorded =
    Some (true, recorded).
Proof using Hc.
  intros Hp Hl. pose proof (number_bounds c Hc p local Hp Hl) as Hb. pose proof (slots_small c Hc) as [Hs _].
  pose proof (co_producers c Hc) as Hpr. pose proof (co_iterations c Hc) as Hi. unfold nproducers in Hp.
  assert (u64_modulus = 2 ^ 64 /\ u32_modulus = 2 ^ 32) as [E64 E32] by done.
  rewrite (image_number p local Hl), (expected_payload_header c Hc) by lia.
  cbn [producer_id local_sequence global_sequence]. split; [| split; [done |]].
  - unfold in_range. cbn [producer_id local_sequence global_sequence].
    fold (global_of c p local). rewrite (global_of_number c Hc p local) by (done || unfold nproducers; lia).
    rewrite Z.eqb_refl, (proj2 (Z.ltb_lt _ _)), !(proj2 (Z.leb_le _ _)) by lia. done.
  - intros operation recorded. apply (expected_payload_valid c Hc).
Qed.

(** *** Steps of a producer *)

Lemma evolves_quiet G (s : work K) G' s' :
  accepted G' = accepted G -> queued G' = queued G -> remaining_producers s' = remaining_producers s ->
  pushed_count s' = pushed_count s -> popped_count s' = popped_count s -> start s' = start s ->
  evolves G s G' s'.
Proof.
  intros Ea Eq Er Ep Ek Es. split; rewrite ?Es; [unfold taken; rewrite Ea, Eq; lia | lia | done |].
  intros H. rewrite Er, Ea, Ep, Eq. done.
Qed.

Lemma producer_ghost G (s : work K) p :
  books c G s -> (p < nproducers c)%nat ->
  exists n m k, accepted G !! p = Some n /\ marked G !! p = Some m /\ counted G !! p = Some k /\ 0 <= n <= iterations c.
Proof.
  intros [[Ha Hr] [Hm _] [Hk _] _ _ _ _ _ _ _] Hp.
  destruct (lookup_lt_is_Some_2 (accepted G) p) as [n Hn]; [by rewrite Ha |].
  destruct (lookup_lt_is_Some_2 (marked G) p) as [m Hm']; [by rewrite Hm |].
  destruct (lookup_lt_is_Some_2 (counted G) p) as [k Hk']; [by rewrite Hk |].
  exists n, m, k. split_and!; try done; apply (Forall_lookup_1 _ _ _ _ Hr) in Hn; lia.
Qed.

Lemma active_positive G cs s p pc :
  work_inv G cs s -> makers s !! p = Some pc -> active pc = 1 -> 1 <= remaining_producers s <= producers c.
Proof using Hc.
  intros Hinv Hp Ha. rewrite (wi_remaining _ _ _ Hinv). split.
  - rewrite <- Ha. apply sumZ_member.
    + apply Forall_fmap, Forall_true. by intros [].
    + apply list_elem_of_fmap. exists pc. split; [done | by eapply list_elem_of_lookup_2].
  - assert (H : Forall (fun x => 0 <= x <= 1) (active <$> makers s)).
    { apply Forall_fmap, Forall_true. by intros []. }
    apply sumZ_range in H. rewrite length_fmap, (wi_makers _ _ _ Hinv) in H. unfold nproducers in H.
    pose proof (co_producers c Hc). lia.
Qed.

(** A step that changes nothing but the producer's own place. *)
Lemma producer_goes G cs s s' p pc pc' st' :
  work_inv G cs s -> makers s !! p = Some pc -> active pc' = active pc ->
  s' = set_maker s p pc' \/ s' = set_maker (add_full_retry s) p pc' ->
  (forall n m k, accepted G !! p = Some n -> marked G !! p = Some m -> counted G !! p = Some k ->
     producer_ok p n m k st' pc') ->
  (pc' = PClose \/ pc' = PClosing -> remaining_producers s = 0) ->
  work_inv G (<[p := st']> cs) s'.
Proof using consumer_stable.
  intros Hinv Hpc Ha Hs Hown Hcl.
  eapply (work_inv_maker G G cs s s' p pc pc'); try done; try (by destruct Hs as [-> | ->]).
  - destruct Hs as [-> | ->]; simpl; lia.
  - eapply books_frame; [.. | apply (wi_books _ _ _ Hinv)]; by destruct Hs as [-> | ->].
Qed.

(** The status of a producer inside its own code. *)
Lemma producer_status G cs s p pc st n m k :
  work_inv G cs s -> makers s !! p = Some pc -> cs !! p = Some st ->
  accepted G !! p = Some n -> marked G !! p = Some m -> counted G !! p = Some k -> producer_ok p n m k st pc.
Proof. intros Hinv. apply (wi_producers _ _ _ Hinv). Qed.

Lemma producer_local G cs s p s' :
  (p < nproducers c)%nat -> work_inv G cs s -> producer_advance push_op last_op c s p = Some (None, s') ->
  exists G', work_inv G' cs s' /\ accepted G' = accepted G /\ queued G' = queued G /\
    (remaining_producers s = 0 -> remaining_producers s' = 0).
Proof using Hc consumer_stable.
  intros Hp Hinv Hadv. pose proof (wi_books _ _ _ Hinv) as HB.
  destruct (producer_ghost G s p HB Hp) as (n & m & k & Hn & Hm & Hk & Hr).
  destruct (lookup_lt_is_Some_2 cs p) as [st Hst]; [rewrite (wi_threads _ _ _ Hinv); lia |].
  assert (Hok := fun pc H => producer_status G cs s p pc st n m k Hinv H Hst Hn Hm Hk).
  unfold producer_advance in Hadv. destruct (makers s !! p) as [pc |] eqn:Hpc; [| done].
  specialize (Hok pc eq_refl). rewrite <- (list_insert_id cs p st Hst).
  assert (Hsame : forall pc' s', active pc' = active pc -> s' = set_maker s p pc' ->
    producer_ok p n m k st pc' -> pc' <> PClose -> pc' <> PClosing ->
    exists G', work_inv G' (<[p := st]> cs) s' /\ accepted G' = accepted G /\ queued G' = queued G /\
      (remaining_producers s = 0 -> remaining_producers s' = 0)).
  { intros pc' s1 Ha -> Hnew H1 H2. exists G. split; [| done].
    eapply producer_goes; [done | done | done | by left | | by intros [? | ?]].
    intros n' m' k' ? ? ?. by simplify_eq. }
  destruct pc as [| local | | | local g | local | | | | |]; try done; simpl in Hok.
  - destruct (start s); [| done]. injection Hadv as <-. destruct_and?. subst.
    by eapply Hsame; [| reflexivity | ..].
  - injection Hadv as <-. destruct Hok as (-> & Hl & -> & -> & ->).
    destruct (Z.leb_spec local (iterations c)) as [Hle | Hgt], (expired s) eqn:Ee; cbn [andb negb];
      try (by eapply Hsame; [| reflexivity | ..]).
    rewrite (global_of_number c Hc) by (done || lia).
    rewrite (proj1 (expected_payload_made c Hc (Z.of_nat p) local (number c p local))), <- image_number by lia.
    eapply Hsame; [| reflexivity | | |]; try done.
  - destruct Hok as (-> & Hl & -> & Em & Ek & ->). subst m k.
    destruct (books_mark c Hc G s p (local - 1) HB Hm ltac:(lia)) as [[x Hx] HB'].
    replace (local - 1 + 1) with local in * by lia. rewrite Hx in Hadv. injection Hadv as <-.
    set (G' := mkLedger (accepted G) (<[p := local]> (marked G)) (counted G) (queued G) (held G) (uncounted G)) in *.
    exists G'. split; [| done].
    eapply (work_inv_maker G G' cs s _ p); try done; simpl; [lia | | | | by intros [? | ?]].
    + by apply (books_frame c G' (set_published s (Z.to_nat (number c p local)))).
    + intros p' Hne. by rewrite list_lookup_insert_ne.
    + intros n' m' k' E1 E2 E3. rewrite list_lookup_insert_eq in E2 by (by eapply lookup_lt_Some). simplify_eq.
      done.
  - destruct Hok as (-> & Hl & -> & -> & ->). injection Hadv as <-.
    pose proof (books_count c Hc G s p (local - 1) HB Hk ltac:(lia)) as HB'.
    replace (local - 1 + 1) with local in * by lia.
    assert (Hpos : 1 <= remaining_producers s <= producers c) by (by eapply active_positive).
    pose proof (co_iterations c Hc). assert (u64_modulus = 2 ^ 64) as E64 by done.
    set (G' := mkLedger (accepted G) (marked G) (<[p := local]> (counted G)) (queued G) (held G) (uncounted G)) in *.
    exists G'. split; [| done].
    eapply (work_inv_maker G G' cs s _ p); try done; simpl; [lia | | | | | by intros [? | ?]].
    + by apply (books_frame c G' (add_pushed s)).
    + split; simpl; [unfold taken; simpl; lia | done | done | lia].
    + intros p' Hne. by rewrite list_lookup_insert_ne.
    + intros n' m' k' E1 E2 E3. rewrite list_lookup_insert_eq in E3 by (by eapply lookup_lt_Some). simplify_eq.
      rewrite u64_small by lia. split_and!; done || lia.
  - destruct Hok as (-> & -> & ->). injection Hadv as <-.
    assert (Hpos : 1 <= remaining_producers s <= producers c) by (by eapply active_positive).
    pose proof (co_producers c Hc). exists G. split; [| split; [done |]; split; [done | simpl; lia]].
    assert (u32_modulus = 2 ^ 32) as E32 by done.
    assert (Er : (remaining_producers s - 1) mod u32_modulus = remaining_producers s - 1) by (apply Z.mod_small; lia).
    assert (Hlast : active match last_op with Some _ => if remaining_producers s =? 1 then PClose else PEnded
                            | None => PEnded end = 0) by (repeat case_match; done).
    eapply (work_inv_maker G G cs s _ p); try done; cbn [remaining_producers set_maker set_remaining].
    + rewrite Hlast, Er. simpl. lia.
    + by eapply books_frame; [.. | exact HB].
    + split; simpl; [lia | lia | done | lia].
    + intros n' m' k' ? ? ?. simplify_eq. repeat case_match; simpl; split_and!; done || by eauto.
    + rewrite Er. intros Hcase. destruct last_op; [| by destruct Hcase].
      destruct (Z.eqb_spec (remaining_producers s) 1); [lia | by destruct Hcase].
  - by destruct last_op.
Qed.

Lemma producer_call G cs s p o s' :
  work_inv G cs s -> producer_advance push_op last_op c s p = Some (Some o, s') -> cs !! p = Some Idle ->
  work_inv G (<[p := Called o]> cs) s' /\ remaining_producers s' = remaining_producers s.
Proof using Hc consumer_stable.
  intros Hinv Hadv Hst. unfold producer_advance in Hadv. destruct (makers s !! p) as [pc |] eqn:Hpc; [| done].
  assert (Hok := fun n m k H1 H2 H3 => producer_status G cs s p pc Idle n m k Hinv Hpc Hst H1 H2 H3).
  destruct pc as [| local | local g pl | | local g | local | | | | |]; try done.
  - by destruct (start s).
  - injection Hadv as <- <-. split; [| done].
    eapply (producer_goes G cs s _ p _ (PPushing local g)); [done | done | done | by left | | by intros [? | ?]].
    intros n m k H1 H2 H3. destruct (Hok n m k H1 H2 H3) as (_ & Hl & -> & -> & -> & -> & ->). done.
  - repeat case_match; done.
  - destruct last_op as [o' |] eqn:El; [| done]. injection Hadv as <- <-. split; [| done].
    eapply (producer_goes G cs s _ p _ (PClosing)); [done | done | done | by left | |].
    + intros n m k H1 H2 H3. destruct (Hok n m k H1 H2 H3) as (_ & -> & -> & _). simpl. by rewrite El.
    + intros _. eapply (wi_closing _ _ _ Hinv); [exact Hpc | by left].
Qed.

(** The queue takes the message: it is entered at the end of the queue. *)
Lemma producer_accepted G cs s p local g o r :
  work_inv G cs s -> makers s !! p = Some (PPushing local g) -> cs !! p = Some (Called o) -> accepts r ->
  exists n, accepted G !! p = Some n /\
  work_inv (mkLedger (<[p := n + 1]> (accepted G)) (marked G) (counted G) (queued G ++ [g]) (held G) (uncounted G))
    (<[p := Finished r]> cs) s.
Proof using Hc consumer_stable.
  intros Hinv Hpc Hst Hr. pose proof (wi_books _ _ _ Hinv) as HB.
  assert (Hp : (p < nproducers c)%nat) by (rewrite <- (wi_makers _ _ _ Hinv); by eapply lookup_lt_Some).
  destruct (producer_ghost G s p HB Hp) as (n & m & k & Hn & Hm & Hk & Hrange). exists n. split; [done |].
  destruct (producer_status G cs s p _ _ n m k Hinv Hpc Hst Hn Hm Hk) as (Hl & -> & -> & -> & -> & ->).
  pose proof (books_accept c G s p (local - 1) HB Hn ltac:(lia)) as HB'.
  replace (local - 1 + 1) with local in * by lia.
  pose proof (active_positive G cs s p _ Hinv Hpc eq_refl) as Hpos.
  eapply (work_inv_maker G _ cs s s p (PPushing local (number c p local)) (PPushing local (number c p local)));
    try done; try lia.
  - by rewrite list_insert_id.
  - split; simpl; [| lia | done | lia]. unfold taken. cbn [accepted queued].
    rewrite (sumZ_insert (accepted G) p (local - 1)), length_app by exact Hn. cbn [length]. lia.
  - intros p' Hne. simpl. by rewrite list_lookup_insert_ne.
  - intros n' m' k' E1 E2 E3. cbn [accepted marked counted] in E1, E2, E3. rewrite list_lookup_insert_eq in E1 by (by eapply lookup_lt_Some).
    simplify_eq. simpl. split_and!; try done; try lia. by left.
  - by intros [? | ?].
Qed.

(** A linearization point that leaves the ledger alone. *)
Lemma producer_unmoved G cs s p pc o r :
  work_inv G cs s -> makers s !! p = Some pc -> cs !! p = Some (Called o) ->
  (exists local g, pc = PPushing local g /\ refuses r) \/ (pc = PClosing /\ closes r) ->
  work_inv G (<[p := Finished r]> cs) s.
Proof using Hc consumer_stable.
  intros Hinv Hpc Hst Hcase.
  eapply (work_inv_maker G G cs s s p pc pc); try done; try lia.
  - by rewrite list_insert_id.
  - apply (wi_books _ _ _ Hinv).
  - intros n m k H1 H2 H3. pose proof (producer_status G cs s p pc _ n m k Hinv Hpc Hst H1 H2 H3) as Hok.
    destruct Hcase as [(local & g & -> & Hr) | [-> Hr]]; simpl in *.
    + destruct Hok as (Hl & -> & -> & -> & _ & ->). split_and!; try done; try lia. by right.
    + by destruct Hok as (-> & -> & _).
  - intros Hcl. by eapply (wi_closing _ _ _ Hinv).
Qed.

(** A push returns. *)
Lemma producer_push_return G cs s p local g r status sequence :
  work_inv G cs s -> makers s !! p = Some (PPushing local g) -> cs !! p = Some (Finished r) ->
  (accepts r -> status = success) -> (refuses r -> status = full) ->
  work_inv G (<[p := Idle]> cs) (producer_receive name c s p local g status sequence) /\
  remaining_producers (producer_receive name c s p local g status sequence) = remaining_producers s.
Proof using Hc consumer_stable.
  intros Hinv Hpc Hst Ha Hr. pose proof (wi_books _ _ _ Hinv) as HB.
  assert (Hp : (p < nproducers c)%nat) by (rewrite <- (wi_makers _ _ _ Hinv); by eapply lookup_lt_Some).
  destruct (producer_ghost G s p HB Hp) as (n & m & k & Hn & Hm & Hk & Hrange).
  destruct (producer_status G cs s p _ _ n m k Hinv Hpc Hst Hn Hm Hk) as (Hl & -> & -> & -> & Hcase).
  destruct Hcase as [[Hacc ->] | [Href ->]]; [rewrite (Ha Hacc) | rewrite (Hr Href)]; (split; [| done]); simpl.
  - eapply (producer_goes G cs s _ p _ (PMark local (number c p local))); [done | done | done | by left | | by intros [? | ?]].
    intros n' m' k' ? ? ?. simplify_eq. split_and!; done || lia.
  - eapply (producer_goes G cs s _ p _ (PLoop local)); [done | done | done | by right | | by intros [? | ?]].
    intros n' m' k' ? ? ?. simplify_eq. split_and!; done || lia.
Qed.

Lemma producer_close_return G cs s p r :
  work_inv G cs s -> makers s !! p = Some PClosing -> cs !! p = Some (Finished r) ->
  work_inv G (<[p := Idle]> cs) (set_maker s p PEnded).
Proof using Hc consumer_stable.
  intros Hinv Hpc Hst. eapply (producer_goes G cs s _ p _ (PEnded)); [done | done | done | by left | | by intros [? | ?]].
  intros n m k H1 H2 H3. by destruct (producer_status G cs s p _ _ n m k Hinv Hpc Hst H1 H2 H3) as (-> & -> & _).
Qed.

(** The main thread starts the others; the clock passes the deadline. *)
Lemma work_inv_env G cs s s' :
  work_inv G cs s -> s' = set_start s \/ s' = set_expired s -> work_inv G cs s'.
Proof using consumer_stable.
  intros [H1 H2 H3 H4 H5 H6 H7 H8 H9] Hs. split; try (by destruct Hs as [-> | ->]).
  - eapply books_frame; [.. | exact H4]; by destruct Hs as [-> | ->].
  - intros i pc st h u Hpc Hst Hh Hu. eapply consumer_stable; [| eapply (H8 i); try done; by destruct Hs as [-> | ->]].
    by destruct Hs as [-> | ->].
Qed.

Lemma books_init k : books c (mkLedger (replicate (nproducers c) 0) (replicate (nproducers c) 0)
    (replicate (nproducers c) 0) [] (replicate (nconsumers c) None) (replicate (nconsumers c) 0)) (work_init (K := K) c k f0).
Proof using Hc.
  pose proof (slots_small c Hc) as [Hs Hts]. pose proof (co_iterations c Hc). pose proof (co_producers c Hc).
  assert (Hw : within c (replicate (nproducers c) 0)).
  { split; [by rewrite length_replicate |]. apply Forall_replicate. lia. }
  assert (Hsum : forall n, sumZ (replicate n 0) = 0) by (intros n; apply sumZ_zeros, Forall_replicate; done).
  assert (Hent : forall g, entered c (replicate (nproducers c) 0) g = 0).
  { intros g. unfold entered. destruct (1 <=? g); [| done].
    destruct (replicate _ _ !! _) as [n |] eqn:E; [| done]. apply lookup_replicate in E as [-> _].
    pose proof (Z.mod_pos_bound (g - 1) (iterations c) ltac:(lia)).
    by rewrite (proj2 (Z.ltb_ge _ _)) by lia. }
  assert (Hmark : forall n g, mark (replicate n 0) g = 0).
  { intros n g. unfold mark. destruct (replicate n 0 !! _) as [x |] eqn:E; [| done].
    by apply lookup_replicate in E as [-> _]. }
  split; cbn [accepted marked counted queued held uncounted]; try done; try by rewrite length_replicate.
  - assert (Hb : binary c (replicate (Z.to_nat (total_slots c +u 1)) 0)).
    { rewrite Hts, u64_small by nia. split; [by rewrite length_replicate |]. apply Forall_replicate. by left. }
    done.
  - intros g. rewrite Hent. unfold work_init. cbn [consumed]. rewrite Hmark, (sumZ_zeros (holds g <$> _)); [done |].
    apply Forall_fmap, Forall_replicate. done.
  - intros g. unfold work_init. cbn [published]. by rewrite Hmark, Hent.
  - unfold work_init. cbn [popped_count]. rewrite !Hsum. split_and!; try done. apply Forall_replicate. lia.
Qed.

Lemma work_inv_init k :
  (forall G s, taken G = 0 -> consumer_ok G s None 0 Idle k) ->
  work_inv (mkLedger (replicate (nproducers c) 0) (replicate (nproducers c) 0)
    (replicate (nproducers c) 0) [] (replicate (nconsumers c) None) (replicate (nconsumers c) 0))
    (replicate (nproducers c + nconsumers c) Idle) (work_init c k f0).
Proof using Hc.
  intros Hk. pose proof (co_producers c Hc).
  split; cbn [accepted marked counted held uncounted work_init makers takers remaining_producers failures];
    rewrite ?length_replicate; try done.
  - apply books_init.
  - rewrite fmap_replicate. unfold nproducers. simpl.
    assert (E : forall n, sumZ (replicate n 1) = Z.of_nat n)
      by (induction n as [| n IH]; [done |]; cbn [replicate]; rewrite sumZ_cons; lia).
    rewrite E. lia.
  - intros p pc st n m k' H1 H2 H3 H4 H5.
    apply lookup_replicate in H1 as [-> _], H2 as [-> _], H3 as [-> _], H4 as [-> _], H5 as [-> _]. done.
  - intros i pc st h u H1 H2 H3 H4.
    apply lookup_replicate in H1 as [-> _], H2 as [-> _], H3 as [-> _], H4 as [-> _].
    apply Hk. unfold taken. simpl. rewrite sumZ_zeros; [done |]. by apply Forall_replicate.
  - intros p pc Hp [-> | ->]; by apply lookup_replicate in Hp as [? _].
Qed.

(** When the producers have left, everything accepted is marked and counted. *)
Lemma left_settled G cs s p n m k :
  work_inv G cs s -> remaining_producers s = 0 ->
  accepted G !! p = Some n -> marked G !! p = Some m -> counted G !! p = Some k -> m = n /\ k = n.
Proof.
  intros Hinv Hz Hn Hm Hk. pose proof (wi_books _ _ _ Hinv) as HB.
  assert (Hp : (p < nproducers c)%nat)
    by (rewrite <- (proj1 (bk_accepted _ _ _ HB)); by eapply lookup_lt_Some).
  destruct (lookup_lt_is_Some_2 (makers s) p) as [pc Hpc]; [by rewrite (wi_makers _ _ _ Hinv) |].
  destruct (lookup_lt_is_Some_2 cs p) as [st Hst]; [rewrite (wi_threads _ _ _ Hinv); lia |].
  pose proof (wi_producers _ _ _ Hinv p pc st n m k Hpc Hst Hn Hm Hk) as Hok.
  pose proof (all_left G cs s p pc Hinv Hz Hpc) as Ha. destruct pc; simpl in Ha, Hok; try done; by destruct_and?.
Qed.

Lemma left_equal G cs s :
  work_inv G cs s -> remaining_producers s = 0 -> marked G = accepted G /\ counted G = accepted G.
Proof.
  intros Hinv Hz. pose proof (wi_books _ _ _ Hinv) as HB.
  split; (apply list_eq_same_length with (nproducers c); [apply HB | apply HB |]); intros p x y Hp Hx Hy;
    destruct (producer_ghost G s p HB Hp) as (n & m & k & H1 & H2 & H3 & _);
    destruct (left_settled G cs s p n m k Hinv Hz H1 H2 H3); congruence.
Qed.

(** As many pops as pushes, and no producer left: the queue is empty. *)
Lemma drained G cs s :
  work_inv G cs s -> remaining_producers s = 0 -> pushed_count s <= popped_count s -> queued G = [].
Proof.
  intros Hinv Hz Hle. destruct (left_equal G cs s Hinv Hz) as [_ Ec].
  destruct (wi_books _ _ _ Hinv). destruct bk_popped0 as (H1 & H2 & H3).
  rewrite bk_pushed0, Ec in Hle. assert (0 <= sumZ (uncounted G)).
  { apply sumZ_nonneg. eapply Forall_impl; [exact H2 |]. simpl. lia. }
  destruct (queued G); [done | simpl in H3; lia].
Qed.

Lemma ended_left G cs s :
  work_inv G cs s -> Forall (fun pc => pc = PEnded) (makers s) -> remaining_producers s = 0.
Proof.
  intros Hinv Hend. rewrite (wi_remaining _ _ _ Hinv). apply sumZ_zeros, Forall_fmap.
  eapply Forall_impl; [exact Hend |]. by intros pc ->.
Qed.

Lemma makers_defined G cs s : work_inv G cs s -> PUndefined ∉ makers s.
Proof.
  intros Hinv (i & Hi)%list_elem_of_lookup. assert (Hlt : (i < nproducers c)%nat)
    by (rewrite <- (wi_makers _ _ _ Hinv); by eapply lookup_lt_Some).
  destruct (producer_ghost G s i (wi_books _ _ _ Hinv) Hlt) as (n & m & k & H1 & H2 & H3 & _).
  destruct (lookup_lt_is_Some_2 cs i) as [st Hst]; [rewrite (wi_threads _ _ _ Hinv); lia |].
  by pose proof (wi_producers _ _ _ Hinv i _ st n m k Hi Hst H1 H2 H3).
Qed.

(** *** Steps of a consumer *)

Lemma taker_exists G cs s i :
  work_inv G cs s -> (i < nconsumers c)%nat ->
  exists pc st h u, takers s !! i = Some pc /\ cs !! (nproducers c + i)%nat = Some st /\
    held G !! i = Some h /\ uncounted G !! i = Some u /\ consumer_ok G s h u st pc.
Proof.
  intros Hinv Hi. pose proof (wi_books _ _ _ Hinv) as HB.
  destruct (lookup_lt_is_Some_2 (takers s) i) as [pc Hpc]; [by rewrite (wi_takers _ _ _ Hinv) |].
  destruct (lookup_lt_is_Some_2 cs (nproducers c + i)) as [st Hst]; [rewrite (wi_threads _ _ _ Hinv); lia |].
  destruct (lookup_lt_is_Some_2 (held G) i) as [h Hh]; [by rewrite (bk_held _ _ _ HB) |].
  destruct (lookup_lt_is_Some_2 (uncounted G) i) as [u Hu]; [by rewrite (bk_uncounted _ _ _ HB) |].
  exists pc, st, h, u. split_and!; try done. by apply (wi_consumers _ _ _ Hinv i).
Qed.

(** Consumer [i] moves to [pc'] without an entry in the books. *)
Lemma taker_goes G cs s s' i pc' st' h u :
  work_inv G cs s -> (i < nconsumers c)%nat -> held G !! i = Some h -> uncounted G !! i = Some u ->
  s' = set_taker s i pc' \/ s' = set_taker (add_empty_retry s) i pc' ->
  consumer_ok G s h u st' pc' -> work_inv G (<[(nproducers c + i)%nat := st']> cs) s'.
Proof using consumer_stable.
  intros Hinv Hi Hh Hu Hs Hok.
  eapply (work_inv_taker G G cs s s' i pc' st' h u); try done; try (by destruct Hs as [-> | ->]).
  - eapply books_frame; [.. | apply (wi_books _ _ _ Hinv)]; by destruct Hs as [-> | ->].
  - by rewrite list_insert_id.
  - by rewrite list_insert_id.
  - eapply consumer_stable; [| exact Hok]. by destruct Hs as [-> | ->].
Qed.

(** Consumer [i] pops message [g], the first of the queue. *)
Lemma taker_takes G cs s i pc st' g gs :
  work_inv G cs s -> (i < nconsumers c)%nat -> takers s !! i = Some pc ->
  queued G = g :: gs -> held G !! i = Some None -> uncounted G !! i = Some 0 ->
  let G' := mkLedger (accepted G) (marked G) (counted G) gs (<[i := Some g]> (held G)) (<[i := 1]> (uncounted G)) in
  (forall p local, (p < nproducers c)%nat -> 1 <= local <= iterations c -> g = number c p local ->
     consumer_ok G' s (Some g) 1 st' pc) ->
  taken G' = taken G + 1 /\ work_inv G' (<[(nproducers c + i)%nat := st']> cs) s.
Proof using Hc consumer_stable.
  intros Hinv Hi Hpc Eq Hh Hu G' Hok. pose proof (wi_books _ _ _ Hinv) as HB.
  pose proof (books_take c G s i g gs HB Eq Hh Hu : books c G' s) as HB'.
  assert (Et : taken G' = taken G + 1) by (unfold taken; rewrite Eq; simpl; lia). split; [done |].
  destruct (books_held c Hc _ s i g HB') as [(p & lo & Hp & Hlo & Eg) _].
  { apply list_lookup_insert_eq. by rewrite (bk_held _ _ _ HB). }
  eapply (work_inv_taker G G' cs s s i pc); try done.
  - by rewrite list_insert_id.
  - split; [lia | done | done |]. intros Hr. split_and!; try done. by rewrite Eq.
  - by eapply Hok.
Qed.

(** It marks the message it holds, which no one has marked. *)
Lemma taker_consumes G cs s i g pc' st' u :
  work_inv G cs s -> (i < nconsumers c)%nat -> held G !! i = Some (Some g) -> uncounted G !! i = Some u ->
  let G' := mkLedger (accepted G) (marked G) (counted G) (queued G) (<[i := None]> (held G)) (uncounted G) in
  consumer_ok G' s None u st' pc' ->
  consumed s !! Z.to_nat g = Some 0 /\
  work_inv G' (<[(nproducers c + i)%nat := st']> cs) (set_taker (set_consumed s (Z.to_nat g)) i pc').
Proof using Hc consumer_stable.
  intros Hinv Hi Hh Hu G' Hok. pose proof (wi_books _ _ _ Hinv) as HB.
  split; [apply (books_held c Hc G s i g HB Hh) |].
  eapply (work_inv_taker G G' cs s _ i pc' st' None u); try done.
  - apply (books_frame c G' (set_consumed s (Z.to_nat g))); try done. by apply (books_consume c Hc).
  - by cbn [uncounted G']; rewrite list_insert_id.
  - eapply consumer_stable; [| exact Hok]. done.
Qed.

(** It counts its pop. *)
Lemma taker_counts G cs s i h pc' st' :
  work_inv G cs s -> (i < nconsumers c)%nat -> held G !! i = Some h -> uncounted G !! i = Some 1 ->
  let G' := mkLedger (accepted G) (marked G) (counted G) (queued G) (held G) (<[i := 0]> (uncounted G)) in
  (forall s', remaining_producers s' = remaining_producers s -> consumer_ok G' s' h 0 st' pc') ->
  work_inv G' (<[(nproducers c + i)%nat := st']> cs) (set_taker (add_popped s) i pc').
Proof using Hc consumer_stable.
  intros Hinv Hi Hh Hu G' Hok. pose proof (wi_books _ _ _ Hinv) as HB.
  pose proof (books_count_pop c Hc G s i HB Hu : books c G' (add_popped s)) as HB'.
  assert (Hpop : popped_count (add_popped s) = popped_count s + 1).
  { destruct (bk_popped _ _ _ HB) as (_ & _ & P1). destruct (bk_popped _ _ _ HB') as (_ & _ & P2).
    cbn [uncounted queued accepted G'] in P2. rewrite (sumZ_insert _ _ 1) in P2 by done. lia. }
  eapply (work_inv_taker G G' cs s _ i pc' st' h 0); try done.
  - by apply (books_frame c G' (add_popped s)).
  - by cbn [held G']; rewrite list_insert_id.
  - split; cbn [set_taker popped_count start remaining_producers]; [unfold taken; simpl; lia | lia | done |].
    intros Hz. by split_and!.
  - by apply Hok.
Qed.

(** When every producer has ended and every consumer knows the queue to be empty
    and has nothing left to do, the verdict is clean. *)
Lemma work_inv_closed G cs s reason :
  work_inv G cs s -> Forall (fun pc => pc = PEnded) (makers s) ->
  (forall i pc st h u, takers s !! i = Some pc -> consumer_ok G s h u st pc -> h = None /\ u = 0 /\ queued G = []) ->
  published s = consumed s /\ pushed_count s = popped_count s /\
  work_verdict name c reason s = Some (0, negb (failed f0), f0).
Proof using Hc.
  intros Hinv Hend Hcons. pose proof (wi_books _ _ _ Hinv) as HB.
  destruct (left_equal G cs s Hinv (ended_left G cs s Hinv Hend)) as [Em Ec].
  assert (Hall : forall i, (i < nconsumers c)%nat -> held G !! i = Some None /\ uncounted G !! i = Some 0 /\ queued G = []).
  { intros i Hlt. destruct (taker_exists G cs s i Hinv Hlt) as (pc & st & h & u & Hpc & _ & Hh & Hu & Hok).
    by destruct (Hcons i pc st h u Hpc Hok) as (-> & -> & Hq). }
  rewrite <- (wi_failures _ _ _ Hinv). apply (books_closed c name reason G s HB); try done.
  - apply (Hall 0%nat). pose proof (co_consumers c Hc). unfold nconsumers. lia.
  - apply Forall_lookup. intros i x Hx. destruct (Hall i) as (E & _ & _); [| congruence].
    rewrite <- (bk_held _ _ _ HB). by eapply lookup_lt_Some.
  - apply Forall_lookup. intros i x Hx. destruct (Hall i) as (_ & E & _); [| congruence].
    rewrite <- (bk_uncounted _ _ _ HB). by eapply lookup_lt_Some.
Qed.

End invariant.

(** The fields of the invariant, of any instance. *)
Abbreviation inv_books H := (wi_books _ _ _ _ _ _ _ _ _ _ _ H).
Abbreviation inv_makers H := (wi_makers _ _ _ _ _ _ _ _ _ _ _ H).
Abbreviation inv_takers H := (wi_takers _ _ _ _ _ _ _ _ _ _ _ H).
Abbreviation inv_threads H := (wi_threads _ _ _ _ _ _ _ _ _ _ _ H).
Abbreviation inv_consumers H := (wi_consumers _ _ _ _ _ _ _ _ _ _ _ H).
Abbreviation inv_producers H := (wi_producers _ _ _ _ _ _ _ _ _ _ _ H).
Abbreviation inv_closing H := (wi_closing _ _ _ _ _ _ _ _ _ _ _ H).
