(* ===== verification/StressMPMC.v ===== *)
(** * The MPMC stress run ([run_mpmc] in [stress/queue_stress.cpp])

    The producers are those of [WorkSharing]; the consumers pop until they see the
    queue empty, no producer left and as many pops as pushes.  Every access to a
    shared variable is a step of its own; the section under [consumed_mutex] is one
    step.  The two loads of the comparison [popped >= pushed] happen in either
    order.  The random yields are not modelled.

    Theorem: over [MPMCQueue] the run never records a failure, and when the threads
    have ended the marks and totals agree: every pushed message was popped, checked
    and marked exactly once.  This rests on the queue's own contract, in which
    [empty] can be answered while a message is still being published: the consumers
    do not take a single [empty] for the end. *)

From S2P Require Import Prelude Result FixedMessage Concurrency Clients BoundedFifo MPMCQueue MPMCConcurrent.
From S2P Require Import Bytes BenchmarkMessage CommandLine StressTester WorkSharing.

(** [last] is [last_queue_sequence]. *)
Inductive consumer_pc : Type :=
| CWait
| CPop (last : Z)
| CPopping (last : Z)
| CCount (last : Z) (r : ReadResult) (payload : list byte)
| CCheckSequence (last : Z) (r : ReadResult) (payload : list byte)
| CValidate (r : ReadResult) (payload : list byte)
| CSeen (r : ReadResult) (payload : list byte)
| CCountEmpty (last : Z)
| CRemaining (last : Z)
| CCompare (last : Z) (popped pushed : option Z)
| CReport (r : ReadResult)
| CEnded
| CUndefined.

Section run.

Context (c : Config).

Definition mpmc_producer : work consumer_pc -> nat -> option (option QueueOp * work consumer_pc) :=
  producer_advance TryPush None c.

Definition mpmc_consumer (s : work consumer_pc) (i : nat) : option (option QueueOp * work consumer_pc) :=
  let go s pc := Some (None, set_taker s i pc) in
  let failure operation expected observed expected_sum observed_sum reason :=
    mkFailure "mpmc" (seed c) operation expected observed expected_sum observed_sum reason in
  match takers s !! i with
  | Some CWait => if start s then go s (CPop 0) else None
  | Some (CPop last) =>
      Some (Some (TryPop (replicate (Z.to_nat (payload_size c)) Byte.x00)), set_taker s i (CPopping last))
  | Some (CCount last r payload) => go (add_popped s) (CCheckSequence last r payload)
  | Some (CCheckSequence last r payload) =>
      if r_sequence r <=? last then
        go (set_failures s
              (record (failures s)
                 (failure (r_sequence r) (last +u 1) (r_sequence r) 0 (checksum (read_header payload))
                    "non-increasing queue sequence"))) (CValidate r payload)
      else go s (CValidate r payload)
  | Some (CValidate r payload) =>
      let header := read_header payload in
      if negb (in_range c header) then go s (CPop (r_sequence r))
      else match validate_payload "mpmc" c payload (producer_id header) (local_sequence header)
                   (global_sequence header) (r_sequence r) (failures s) with
           | None => go s CUndefined
           | Some (false, recorded) => go (set_failures s recorded) (CPop (r_sequence r))
           | Some (true, recorded) => go (set_failures s recorded) (CSeen r payload)
           end
  | Some (CSeen r payload) =>
      let header := read_header payload in
      let global := global_sequence header in
      match consumed s !! Z.to_nat global with
      | None => go s CUndefined
      | Some seen =>
          let s := if negb (seen =? 0)
                   then set_failures s
                          (record (failures s)
                             (failure (r_sequence r) global global (checksum header) (checksum header)
                                "duplicate consumed message"))
                   else s in
          go (set_consumed s (Z.to_nat global)) (CPop (r_sequence r))
      end
  | Some (CCountEmpty last) => go (add_empty_retry s) (CRemaining last)
  | Some (CRemaining last) =>
      go s (if remaining_producers s =? 0 then CCompare last None None else CPop last)
  | Some (CCompare last None pushed) => go s (CCompare last (Some (popped_count s)) pushed)
  | Some (CCompare last (Some popped) None) => go s (CCompare last (Some popped) (Some (pushed_count s)))
  | Some (CCompare last (Some popped) (Some pushed)) => go s (if pushed <=? popped then CEnded else CPop last)
  | Some (CReport r) =>
      go (set_failures s
            (record (failures s) (failure (popped_count s) 0 (r_sequence r) 0 0 "unexpected consumer status"))) CEnded
  | _ => None
  end.

(** The other evaluation order: [pushed] is loaded first. *)
Definition mpmc_consumer_other (s : work consumer_pc) (i : nat) : option (option QueueOp * work consumer_pc) :=
  match takers s !! i with
  | Some (CCompare last popped None) =>
      Some (None, set_taker s i (CCompare last popped (Some (pushed_count s))))
  | _ => None
  end.

(** The code after [queue.try_pop(payload)]. *)
Definition mpmc_consumer_receive (s : work consumer_pc) (i : nat) (last : Z) (r : ReadResult) (payload : list byte)
    : work consumer_pc :=
  match r_status r with
  | success => set_taker s i (CCount last r payload)
  | empty => set_taker s i (CCountEmpty last)
  | _ => set_taker s i (CReport r)
  end.

(** Producers, consumers, the main thread, the clock, and the consumers again
    with the other evaluation order. *)
Definition mpmc_advance (s : work consumer_pc) (t : nat) : option (option QueueOp * work consumer_pc) :=
  let i := (t - nproducers c)%nat in
  let j := (i - nconsumers c)%nat in
  if decide (t < nproducers c)%nat then mpmc_producer s t
  else if decide (i < nconsumers c)%nat then mpmc_consumer s i
  else if decide (j = 0)%nat then Some (None, set_start s)
  else if decide (j = 1)%nat then Some (None, set_expired s)
  else if decide (j - 2 < nconsumers c)%nat then mpmc_consumer_other s (j - 2)
  else None.

Definition mpmc_receive (s : work consumer_pc) (t : nat) (r : QueueRes) : option (work consumer_pc) :=
  let i := (t - nproducers c)%nat in
  if decide (t < nproducers c)%nat then
    match makers s !! t, r with
    | Some (PPushing local global), Pushed r =>
        Some (producer_receive "mpmc" c s t local global (w_status r) (w_sequence r))
    | _, _ => None
    end
  else
    match takers s !! i, r with
    | Some (CPopping last), Popped r payload => Some (mpmc_consumer_receive s i last r payload)
    | _, _ => None
    end.

#[local] Instance mpmc_client : Client QueueOp QueueRes (work consumer_pc) := {|
  advance := mpmc_advance; receive := mpmc_receive;
|}.

Definition run_mpmc_verdict : work consumer_pc -> option (Z * bool * FailureRecorder) :=
  work_verdict "mpmc" c "pushed and popped totals differ after drain".

End run.

#[export] Existing Instance mpmc_client.

(** ** The run over the queue's contract *)

Section proofs.

Context (c : Config) (f0 : FailureRecorder).
Hypothesis Hc : config_ok c.

Abbreviation thread_status := (status QueueOp QueueRes).
Abbreviation image := (WorkSharing.image c).

#[local] Opaque WorkSharing.image make_payload expected_payload.

(** Messages [gs] with the queue sequences from [q] on. *)
Fixpoint numbered_from (q : Z) (gs : list Z) : list message :=
  match gs with
  | [] => []
  | g :: gs => (q, image g) :: numbered_from (q + 1) gs
  end.

Lemma numbered_from_snoc q gs g :
  numbered_from q (gs ++ [g]) = numbered_from q gs ++ [(q + Z.of_nat (length gs), image g)].
Proof.
  revert q. induction gs as [| g' gs IH]; intros q; cbn [app numbered_from length].
  - by rewrite Z.add_0_r.
  - rewrite IH. by replace (q + 1 + Z.of_nat (length gs)) with (q + Z.of_nat (S (length gs))) by lia.
Qed.

Lemma numbered_from_length q gs : span_size (numbered_from q gs) = Z.of_nat (length gs).
Proof. revert q. unfold span_size. induction gs as [| g gs IH]; intros q; simpl; [done |]. specialize (IH (q + 1)). lia. Qed.

Definition mpmc_accepts (r : QueueRes) : Prop := exists q, r = Pushed (mkWrite success q).
Definition mpmc_refuses (r : QueueRes) : Prop := r = Pushed (mkWrite full 0).

(** What a successful pop of message [g] returned. *)
Definition popped_ok (t last g : Z) (r : ReadResult) (payload : list byte) : Prop :=
  r_status r = success /\ last < r_sequence r <= t /\ payload = image g.

Definition consumer_ok (G : ledger) (s : work consumer_pc) (h : option Z) (u : Z) (st : thread_status) (pc : consumer_pc) : Prop :=
  match pc with
  | CWait => st = Idle /\ h = None /\ u = 0 /\ 0 <= taken G
  | CPop last | CCountEmpty last | CRemaining last =>
      st = Idle /\ h = None /\ u = 0 /\ 0 <= last <= taken G
  | CPopping last =>
      0 <= last <= taken G /\
      match st with
      | Called o => o = TryPop (read_buffer c) /\ h = None /\ u = 0
      | Finished (Popped r d) =>
          (r_status r = empty /\ h = None /\ u = 0) \/ (exists g, h = Some g /\ u = 1 /\ popped_ok (taken G) last g r d)
      | _ => False
      end
  | CCount last r payload =>
      st = Idle /\ 0 <= last /\ exists g, h = Some g /\ u = 1 /\ popped_ok (taken G) last g r payload
  | CCheckSequence last r payload =>
      st = Idle /\ 0 <= last /\ exists g, h = Some g /\ u = 0 /\ popped_ok (taken G) last g r payload
  | CValidate r payload | CSeen r payload =>
      st = Idle /\ exists g, h = Some g /\ u = 0 /\ popped_ok (taken G) 0 g r payload
  | CCompare last a b =>
      st = Idle /\ h = None /\ u = 0 /\ 0 <= last <= taken G /\ remaining_producers s = 0 /\
      (forall v, a = Some v -> v <= popped_count s) /\ (forall v, b = Some v -> v = pushed_count s)
  | CEnded => st = Idle /\ h = None /\ u = 0 /\ remaining_producers s = 0 /\ queued G = []
  | CReport _ | CUndefined => False
  end.

Lemma mpmc_consumer_stable G s G' s' h u st pc :
  evolves G s G' s' -> consumer_ok G s h u st pc -> consumer_ok G' s' h u st pc.
Proof.
  intros [H1 H2 H3 H4]. assert (Hp : forall last g r d, popped_ok (taken G) last g r d -> popped_ok (taken G') last g r d).
  { intros last g r d (? & ? & ?). split_and!; done || lia. }
  destruct pc as [| l | l | l r d | l r d | r d | r d | l | l | l a b | r | |]; simpl; try done;
    try (intros (-> & -> & -> & Hl); split_and!; done || lia);
    try (intros (-> & Hl & g & -> & -> & Hok); split_and!; [done | lia |]; exists g; by auto);
    try (intros (-> & g & -> & -> & Hok); split; [done |]; exists g; by auto).
  - intros [Hl Hst]. split; [lia |]. destruct st as [| | [| r d |]]; try done.
    destruct Hst as [Hst | (g & -> & -> & Hok)]; [by left | right; exists g; by auto].
  - intros (-> & -> & -> & Hl & Hr & Ha & Hb). destruct (H4 Hr) as (Hr' & _ & Ep & _). rewrite Ep.
    split_and!; try done; try lia. intros v Hv. specialize (Ha v Hv). lia.
  - intros (-> & -> & -> & Hr & Hq). destruct (H4 Hr) as (Hr' & _ & _ & Hq'). split_and!; auto.
Qed.

(** *** The invariant *)

Abbreviation mpmc_inv := (work_inv TryPush None c f0 mpmc_accepts mpmc_refuses (fun _ => False) consumer_ok).

(** What the ledger says about the queue. *)
Record queue_ok (G : ledger) (a : fifo) : Prop := {
  qo_pushed : BoundedFifo.pushed a = sumZ (accepted G);
  qo_items : items a = numbered_from (taken G + 1) (queued G);
}.

Lemma queue_ok_frame G G' a : accepted G' = accepted G -> queued G' = queued G -> queue_ok G a -> queue_ok G' a.
Proof. intros Ea Eq []. split; unfold taken; rewrite ?Ea, ?Eq; done. Qed.

Lemma taken_nonneg G s : books (K := consumer_pc) c G s -> 0 <= taken G.
Proof. intros HB. unfold taken. destruct (bk_popped _ _ _ HB) as (H1 & H2 & H3).
  assert (0 <= sumZ (uncounted G)); [| lia]. apply sumZ_nonneg. eapply Forall_impl; [exact H2 |]. simpl. lia.
Qed.

(** *** Linearization points *)

Lemma producer_lin G cs cs' s p a o r a' :
  (p < nproducers c)%nat -> mpmc_inv G cs s -> queue_ok G a -> cs !! p = Some (Called o) ->
  mpmc_spec max_payload_size (capacity c) cs' a o r a' ->
  exists G', mpmc_inv G' (<[p := Finished r]> cs) s /\ queue_ok G' a'.
Proof using Hc.
  intros Hp Hinv [Hpu Hit] Hst Hs. pose proof (inv_books Hinv) as HB.
  destruct (lookup_lt_is_Some_2 (makers s) p) as [pc Hpc]; [by rewrite (inv_makers Hinv) |].
  destruct (producer_ghost c G s p HB Hp) as (n & m & k & Hn & Hm & Hk & Hr).
  pose proof (wi_producers _ _ _ _ _ _ _ _ _ _ _ Hinv p pc _ n m k Hpc Hst Hn Hm Hk) as Hok.
  destruct pc as [| | | local g | | | | | | |]; simpl in Hok; try (by destruct_and?); try done.
  destruct Hok as (Hl & -> & -> & -> & -> & ->).
  assert (Hrefuse : r = Pushed (mkWrite full 0) -> a' = a ->
    exists G', mpmc_inv G' (<[p := Finished r]> cs) s /\ queue_ok G' a').
  { intros -> ->. exists G. split; [| by split]. eapply producer_unmoved; [exact Hc | apply mpmc_consumer_stable | ..]; try done.
    left. eexists _, _. done. }
  inversion Hs as [a0 o0 r0 a0' Hf | a0 pl t r0 d Hfit _ _ |]; subst; [| by apply Hrefuse].
  inversion Hf as [a0 pl r0 a0' Hpush | |]; subst. unfold fifo_push in Hpush.
  rewrite (image_of_number c Hc), (proj2 (Z.ltb_ge _ _)) in Hpush by (done || apply (co_payload c Hc)).
  destruct (_ =? capacity c); [injection Hpush as <- <-; by apply Hrefuse |]. injection Hpush as <- <-.
  edestruct (producer_accepted TryPush None c f0 Hc mpmc_accepts mpmc_refuses (fun _ => False) consumer_ok
    mpmc_consumer_stable G cs s p local (number c p local) (TryPush (image (number c p local)))
    (Pushed (mkWrite success (BoundedFifo.pushed a +u 1)))) as (n' & Hn' & Hinv'); try done; [by eexists |].
  eexists. split; [exact Hinv' |]. rewrite Hn in Hn'. injection Hn' as <-.
  pose proof (within_sum c Hc _ (bk_accepted _ _ _ (inv_books Hinv'))) as Hsum.
  pose proof (within_sum c Hc _ (bk_accepted _ _ _ HB)) as Hsum0. pose proof (slots_small c Hc) as [Hsm _].
  cbn [accepted] in Hsum. rewrite (sumZ_insert _ _ (local - 1)) in Hsum by done.
  split; simpl.
  - rewrite (sumZ_insert _ _ (local - 1)), Hpu by done. lia.
  - unfold taken. cbn [accepted queued]. rewrite (sumZ_insert _ _ (local - 1)), length_app, numbered_from_snoc by done.
    cbn [length]. rewrite Hit, Hpu, u64_small by lia. unfold taken.
    replace (sumZ (accepted G) - (local - 1) + (local - 1 + 1) - Z.of_nat (length (queued G) + 1) + 1)
      with (sumZ (accepted G) - Z.of_nat (length (queued G)) + 1) by lia.
    replace (sumZ (accepted G) - Z.of_nat (length (queued G)) + 1 + Z.of_nat (length (queued G)))
      with (sumZ (accepted G) + 1) by lia. done.
Qed.

Lemma consumer_lin G cs cs' s i a o r a' :
  (i < nconsumers c)%nat -> mpmc_inv G cs s -> queue_ok G a -> cs !! (nproducers c + i)%nat = Some (Called o) ->
  mpmc_spec max_payload_size (capacity c) cs' a o r a' ->
  exists G', mpmc_inv G' (<[(nproducers c + i)%nat := Finished r]> cs) s /\ queue_ok G' a'.
Proof using Hc.
  intros Hi Hinv [Hpu Hit] Hst Hs. pose proof (inv_books Hinv) as HB.
  destruct (taker_exists _ _ _ _ _ _ _ _ G cs s i Hinv Hi) as (pc & st & h & u & Hpc & Hst' & Hh & Hu & Hok).
  rewrite Hst in Hst'. injection Hst' as <-.
  destruct pc as [| l | l | | | | | | | | | |]; simpl in Hok; try (by destruct_and?); try done.
  destruct Hok as (Hl & -> & -> & ->).
  assert (Hempty : forall d, r = Popped (mkRead empty 0 0) d -> a' = a ->
    exists G', mpmc_inv G' (<[(nproducers c + i)%nat := Finished r]> cs) s /\ queue_ok G' a').
  { intros d -> ->. exists G. split; [| by split].
    eapply (taker_goes _ _ _ _ _ _ _ _ mpmc_consumer_stable G cs s s i (CPopping l)); try done.
    - left. unfold set_taker. rewrite list_insert_id by done. by destruct s.
    - simpl. split; [done |]. by left. }
  inversion Hs as [a0 o0 r0 a0' Hf | | a0 d t r0 Hcs Hr0]; subst; [| by eapply Hempty].
  inversion Hf as [| a0 d r0 d' a0' Hpop |]; subst. unfold fifo_pop in Hpop. rewrite Hit in Hpop.
  destruct (queued G) as [| g gs] eqn:Eq; cbn [numbered_from] in Hpop; [injection Hpop as <- <- <-; by eapply Hempty |].
  assert (Hg : exists p lo, 1 <= lo <= iterations c /\ g = number c p lo).
  { destruct (books_held c Hc _ s i g (books_take c G s i g gs HB Eq Hh Hu)) as [(p & lo & _ & Hlo & Eg) _]; [| eauto].
    apply list_lookup_insert_eq. by rewrite (bk_held _ _ _ HB). }
  destruct Hg as (p & lo & Hlo & Eg). rewrite deliver_success in Hpop.
  2: { cbn [snd]. rewrite Eg, (image_of_number c Hc), (read_buffer_size c Hc) by done. lia. }
  cbn [ok r_status orb fst snd] in Hpop. injection Hpop as <- <- <-.
  edestruct (taker_takes TryPush None c f0 Hc mpmc_accepts mpmc_refuses (fun _ => False) consumer_ok
      mpmc_consumer_stable G cs s i (CPopping l)) as [Et Hinv'];
    [exact Hinv | done | done | exact Eq | done | done | | eexists; split; [exact Hinv' |]].
  - intros _ _ _ _ _. simpl. unfold popped_ok, taken in *. rewrite Eq in *. simpl in *. split; [lia |]. right.
    exists g. split_and!; try done; try lia. rewrite Eg, image_number by done. apply (copy_to_read_buffer c Hc).
  - split; [done |]. cbn [items queued]. rewrite Et. done.
Qed.

(** *** Steps of a consumer *)

Lemma consumer_local G cs s i s' :
  (i < nconsumers c)%nat -> mpmc_inv G cs s -> mpmc_consumer c s i = Some (None, s') ->
  exists G', mpmc_inv G' cs s' /\ accepted G' = accepted G /\ queued G' = queued G.
Proof using Hc.
  intros Hi Hinv Hadv. pose proof (inv_books Hinv) as HB.
  destruct (taker_exists _ _ _ _ _ _ _ _ G cs s i Hinv Hi) as (pc & st & h & u & Hpc & Hst & Hh & Hu & Hok).
  unfold mpmc_consumer in Hadv. rewrite Hpc in Hadv. rewrite <- (list_insert_id cs _ st Hst).
  assert (Hsame : forall pc' s', s' = set_taker s i pc' \/ s' = set_taker (add_empty_retry s) i pc' ->
    consumer_ok G s h u st pc' ->
    exists G', mpmc_inv G' (<[(nproducers c + i)%nat := st]> cs) s' /\ accepted G' = accepted G /\ queued G' = queued G).
  { intros pc' s1 Hs Hnew. exists G. split; [by eapply taker_goes; [apply mpmc_consumer_stable | ..] | done]. }
  assert (Hfail : set_failures s (failures s) = s) by (by destruct s).
  destruct pc as [| l | l | l r d | l r d | r d | r d | l | l | l a b | r | |]; try done; cbn [consumer_ok] in Hok.
  - destruct (start s); [| done]. injection Hadv as <-. destruct Hok as (-> & -> & -> & Ht).
    eapply (Hsame (CPop 0)); [by left |]. simpl. split_and!; done || lia.
  - injection Hadv as <-. destruct Hok as (-> & Hl & g & -> & -> & Hp).
    eexists. split; [eapply taker_counts; [exact Hc | apply mpmc_consumer_stable | done.. |] | done].
    intros s1 _. split_and!; [done | done |]. by exists g.
  - destruct Hok as (-> & Hl & g & -> & -> & Hp & Hr & ->).
    rewrite (proj2 (Z.leb_gt _ _)) in Hadv by lia. injection Hadv as <-.
    eapply (Hsame (CValidate r (image g))); [by left |]. split; [done |]. exists g. unfold popped_ok. split_and!; done || lia.
  - destruct Hok as (-> & g & -> & -> & Hp & Hr & ->).
    destruct (books_held c Hc G s i g HB Hh) as [(p & lo & Hlt & Hlo & ->) _].
    destruct (image_checked "mpmc" c Hc p lo Hlt Hlo) as (E1 & E2 & E3). rewrite E1, E2, E3 in Hadv.
    cbn [negb] in Hadv. rewrite Hfail in Hadv. injection Hadv as <-.
    eapply (Hsame (CSeen r (image (number c p lo)))); [by left |]. split; [done |]. by exists (number c p lo).
  - destruct Hok as (-> & g & -> & -> & Hp & Hr & ->).
    destruct (books_held c Hc G s i g HB Hh) as [(p & lo & Hlt & Hlo & ->) Hc0].
    destruct (image_checked "mpmc" c Hc p lo Hlt Hlo) as (_ & E2 & _). rewrite E2, Hc0 in Hadv.
    cbn [negb Z.eqb] in Hadv. injection Hadv as <-.
    edestruct (taker_consumes TryPush None c f0 Hc mpmc_accepts mpmc_refuses (fun _ => False) consumer_ok
      mpmc_consumer_stable G cs s i (number c p lo) (CPop (r_sequence r)) Idle 0)
      as [_ Hinv']; [exact Hinv | done | done | done | | eexists; by split; [exact Hinv' |]].
    cbn [consumer_ok]. unfold taken in *. cbn [accepted queued]. split_and!; done || lia.
  - injection Hadv as <-. destruct Hok as (-> & -> & -> & Hl). by eapply (Hsame (CRemaining l)); [by right |].
  - injection Hadv as <-. destruct Hok as (-> & -> & -> & Hl).
    destruct (Z.eqb_spec (remaining_producers s) 0) as [Hz | Hz]; eapply Hsame; [by left | | by left |]; simpl;
      split_and!; done || lia.
  - destruct Hok as (-> & -> & -> & Hl & Hz & Ha & Hb).
    destruct a as [a |]; [destruct b as [b |] |]; injection Hadv as <-; eapply Hsame; try (by left).
    + specialize (Ha a eq_refl). specialize (Hb b eq_refl). subst b.
      destruct (Z.leb_spec (pushed_count s) a) as [Hle | Hgt]; simpl; split_and!; try done; try lia.
      eapply drained; [exact Hinv | done | lia].
    + simpl. split_and!; try done; try lia. by intros v [= <-].
    + simpl. split_and!; try done; try lia. by intros v [= <-].
Qed.

Lemma consumer_other G cs s i o s' :
  (i < nconsumers c)%nat -> mpmc_inv G cs s -> mpmc_consumer_other s i = Some (o, s') ->
  o = None /\ mpmc_inv G cs s'.
Proof.
  intros Hi Hinv Hadv.
  destruct (taker_exists _ _ _ _ _ _ _ _ G cs s i Hinv Hi) as (pc & st & h & u & Hpc & Hst & Hh & Hu & Hok).
  unfold mpmc_consumer_other in Hadv. rewrite Hpc in Hadv. destruct pc as [| | | | | | | | | l a b | | |]; try done.
  destruct b; [done |]. injection Hadv as <- <-. split; [done |]. rewrite <- (list_insert_id cs _ st Hst).
  eapply taker_goes; [apply mpmc_consumer_stable | done | done | done | done | by left |].
  destruct Hok as (-> & -> & -> & Hl & Hz & Ha & _). simpl. split_and!; try done; try lia. by intros v [= <-].
Qed.

Lemma consumer_call G cs s i o s' :
  (i < nconsumers c)%nat -> mpmc_inv G cs s -> mpmc_consumer c s i = Some (Some o, s') ->
  mpmc_inv G (<[(nproducers c + i)%nat := Called o]> cs) s'.
Proof.
  intros Hi Hinv Hadv.
  destruct (taker_exists _ _ _ _ _ _ _ _ G cs s i Hinv Hi) as (pc & st & h & u & Hpc & Hst & Hh & Hu & Hok).
  unfold mpmc_consumer in Hadv. rewrite Hpc in Hadv.
  destruct pc as [| l | l | l r d | l r d | r d | r d | l | l | l [a |] [b |] | r | |]; try done;
    try (by repeat case_match).
  injection Hadv as <- <-. destruct Hok as (-> & -> & -> & Hl).
  eapply taker_goes; [apply mpmc_consumer_stable | done | done | done | done | by left |]. done.
Qed.

Lemma consumer_return G cs s i r s' :
  (i < nconsumers c)%nat -> mpmc_inv G cs s -> cs !! (nproducers c + i)%nat = Some (Finished r) ->
  mpmc_receive c s (nproducers c + i) r = Some s' ->
  mpmc_inv G (<[(nproducers c + i)%nat := Idle]> cs) s'.
Proof.
  intros Hi Hinv Hfin Hrec.
  destruct (taker_exists _ _ _ _ _ _ _ _ G cs s i Hinv Hi) as (pc & st & h & u & Hpc & Hst & Hh & Hu & Hok).
  rewrite Hfin in Hst. injection Hst as <-. unfold mpmc_receive in Hrec.
  rewrite decide_False, Nat.add_comm, Nat.add_sub, Hpc in Hrec by lia.
  destruct pc as [| | l | | | | | | | | | |]; try done. destruct r as [| r d |]; try done. injection Hrec as <-.
  destruct Hok as (Hl & [(Hr & -> & ->) | (g & -> & -> & Hr & Hok)]); unfold mpmc_consumer_receive; rewrite Hr.
  - eapply taker_goes; [apply mpmc_consumer_stable | done | done | done | done | by left |]. done.
  - eapply taker_goes; [apply mpmc_consumer_stable | done | done | done | done | by left |]. split_and!; [done | lia |]. by exists g.
Qed.

(** *** Executions *)

Definition mpmc_system_inv (s : pool fifo thread_status * work consumer_pc) : Prop :=
  exists G, mpmc_inv G (threads s.1) s.2 /\ queue_ok G (shared s.1).

#[local] Abbreviation contract := (mpmc_spec max_payload_size (capacity c)).

Lemma mpmc_local_step G cs s t s' a :
  mpmc_inv G cs s -> queue_ok G a -> mpmc_advance c s t = Some (None, s') ->
  exists G', mpmc_inv G' cs s' /\ queue_ok G' a.
Proof using Hc.
  intros Hinv Hq Hadv. unfold mpmc_advance in Hadv. case_decide as Hp.
  { destruct (producer_local TryPush None c f0 Hc _ _ _ consumer_ok mpmc_consumer_stable G cs s t s' Hp Hinv Hadv)
      as (G' & Hinv' & Ea & Eq & _). exists G'. split; [done | by eapply queue_ok_frame]. }
  case_decide as Hi.
  { destruct (consumer_local G cs s _ s' Hi Hinv Hadv) as (G' & Hinv' & Ea & Eq).
    exists G'. split; [done | by eapply queue_ok_frame]. }
  exists G. split; [| done]. repeat case_decide; simplify_eq.
  - eapply work_inv_env; [apply mpmc_consumer_stable | exact Hinv | by left].
  - eapply work_inv_env; [apply mpmc_consumer_stable | exact Hinv | by right].
  - eapply consumer_other; [| exact Hinv | exact Hadv]. done.
Qed.

Lemma mpmc_call_step G cs s t o s' :
  mpmc_inv G cs s -> cs !! t = Some Idle -> mpmc_advance c s t = Some (Some o, s') ->
  mpmc_inv G (<[t := Called o]> cs) s'.
Proof using Hc.
  intros Hinv Hst Hadv. unfold mpmc_advance in Hadv. pose proof (lookup_lt_Some _ _ _ Hst) as Hlt.
  rewrite (inv_threads Hinv) in Hlt. case_decide as Hp.
  { by eapply (producer_call TryPush None c f0 Hc _ _ _ consumer_ok mpmc_consumer_stable). }
  rewrite decide_True in Hadv by lia. replace t with (nproducers c + (t - nproducers c))%nat by lia.
  eapply consumer_call; [lia | exact Hinv | exact Hadv].
Qed.

Lemma mpmc_return_step G cs s t r s' :
  mpmc_inv G cs s -> cs !! t = Some (Finished r) -> mpmc_receive c s t r = Some s' ->
  mpmc_inv G (<[t := Idle]> cs) s'.
Proof using Hc.
  intros Hinv Hst Hrec. pose proof (lookup_lt_Some _ _ _ Hst) as Hlt. rewrite (inv_threads Hinv) in Hlt.
  destruct (decide (t < nproducers c)%nat) as [Hp | Hp].
  - unfold mpmc_receive in Hrec. rewrite decide_True in Hrec by done.
    destruct (makers s !! t) as [pc |] eqn:Hpc; [| done]. destruct pc as [| | | local g | | | | | | |]; try done.
    destruct r as [r | |]; try done. injection Hrec as <-.
    eapply (producer_push_return "mpmc" TryPush None c f0 Hc mpmc_accepts mpmc_refuses _ consumer_ok
      mpmc_consumer_stable); [done | done | exact Hst | |].
    + by intros [q [= ->]].
    + by intros [= ->].
  - replace t with (nproducers c + (t - nproducers c))%nat in * by lia. eapply consumer_return; try done. lia.
Qed.

Lemma mpmc_system_step s1 l s2 :
  mpmc_system_inv s1 ->
  system_step (client_step (Client0 := mpmc_client c)) (canon_step contract) s1 l s2 -> mpmc_system_inv s2.
Proof using Hc.
  intros (G & Hinv & Hq) Hstep.
  destruct Hstep as [p p' s Ho | p s s' Hs | p p' s s' e Ho Hs]; cbn [fst snd] in Hinv, Hq.
  - inversion Ho as [| a cs t o r a' Hst Hsp |]; subst. cbn [threads shared] in *.
    destruct (decide (t < nproducers c)%nat) as [Hp | Hp].
    + by eapply producer_lin.
    + pose proof (lookup_lt_Some _ _ _ Hst) as Hlt. rewrite (inv_threads Hinv) in Hlt.
      replace t with (nproducers c + (t - nproducers c))%nat in * by lia.
      destruct (consumer_lin G cs cs s (t - nproducers c) a o r a' ltac:(lia) Hinv Hq Hst Hsp) as (G' & H1 & H2).
      by exists G'.
  - inversion Hs as [s0 t s0' Hadv | |]; subst.
    exact (mpmc_local_step G _ s t s' _ Hinv Hq Hadv).
  - inversion Ho as [a cs t o Hst | | a cs t r Hst]; subst; cbn [threads shared] in *;
      inversion Hs as [| s0 t0 o0 s0' Hadv | s0 t0 r0 s0' Hrec]; subst; exists G; (split; [| done]).
    + by eapply mpmc_call_step.
    + by eapply mpmc_return_step.
Qed.

Lemma mpmc_system_init :
  mpmc_system_inv (mkPool fifo_empty (replicate (nproducers c + nconsumers c) Idle), work_init c CWait f0).
Proof using Hc.
  eexists. split.
  - apply (work_inv_init TryPush None c f0 Hc). intros G s Ht. simpl. rewrite Ht. done.
  - split; simpl; [| done]. symmetry. apply sumZ_zeros, Forall_replicate. done.
Qed.

End proofs.

(** ** Theorems *)

(** C29: for an accepted configuration the MPMC stress run over [MPMCQueue] reports
    no false failure: no state of the threads ever has a failure recorded or an
    index outside the vectors, and when all producers and consumers have ended every
    message that was pushed is marked as consumed, the totals agree, nothing is
    missing and the run returns [true]. *)
Theorem stress_mpmc_run_sound args c f0 q n h p s :
  parse_config args = Value c -> MPMCQueue_new max_payload_size (capacity c) = inr q ->
  Z.of_nat n + capacity c < u64_modulus ->
  exec (system_step (client_step (Client0 := mpmc_client c))
          (pool_step (ConcurrentObject0 := mpmc_object max_payload_size))) n
    (mpmc_init q (nproducers c + nconsumers c), work_init c CWait f0) h (p, s) ->
  failures s = f0 /\ (PUndefined ∉ makers s) /\ (CUndefined ∉ takers s) /\
  (Forall (fun pc => pc = PEnded) (makers s) -> Forall (fun pc => pc = CEnded) (takers s) ->
   published s = consumed s /\ pushed_count s = popped_count s /\
   run_mpmc_verdict c s = Some (0, negb (failed f0), f0)).
Proof.
  intros Hc%parse_config_ok Hq Hn Hex. pose proof (co_capacity c Hc) as Hcap.
  edestruct (client_over_atomic _ (mpmc_spec max_payload_size (capacity c)) _ fifo_empty
    (nproducers c + nconsumers c) _ _ _ _ _ _ Hex) as (j & s1 & Hex').
  { intros i h' p' Hi Hp.
    destruct (mpmc_exec_sim max_payload_size (capacity c) q (nproducers c + nconsumers c) i h' p')
      as (j & s1 & H & _); try done; [lia | lia |]. by exists j, s1. }
  assert (Hinv : mpmc_system_inv c f0 (s1, s)).
  { eapply (exec_history_invariant _ (fun _ => mpmc_system_inv c f0) _ (length h)); [by apply mpmc_system_init | | exact Hex' | done].
    intros i sa l sb _. by eapply mpmc_system_step. }
  destruct Hinv as (G & Hinv & _). cbn [fst snd] in Hinv.
  split; [apply Hinv |]. split; [by eapply makers_defined |]. split.
  - intros (i & Hi)%list_elem_of_lookup. assert (Hlt : (i < nconsumers c)%nat)
      by (rewrite <- (inv_takers Hinv); by eapply lookup_lt_Some).
    destruct (taker_exists _ _ _ _ _ _ _ _ G _ s i Hinv Hlt) as (pc & st & h0 & u & Hpc & _ & _ & _ & Hok). by simplify_eq.
  - intros Hpe Hce. eapply work_inv_closed; [exact Hc | exact Hinv | done |].
    intros i pc st h0 u Hpc Hok. apply (Forall_lookup_1 _ _ _ _ Hce) in Hpc as ->.
    by destruct Hok as (_ & -> & -> & _ & ?).
Qed.

(** ** Witnesses *)

Definition sample_args : list string :=
  ["--queue"; "mpmc"; "--producers"; "1"; "--consumers"; "1"; "--capacity"; "2"; "--payload-size"; "32"; "--iterations"; "1"].

Definition sample_config : Config := mkConfig 0x4f52424954515545 250 1 "mpmc" 1 1 32 2 false.

Definition two_cells : MPMCQueue :=
  mkMPMC 2 1 [mkCell 0 (fresh_message 256); mkCell 1 (fresh_message 256)] 0 0.

(** One message, with an empty pop before and after it; the last comparison loads
    [pushed] first. *)
Definition one_message_schedule : list system_choice :=
  let inside t n := replicate n (Inside t 0) in
  [Advance 2; Advance 1; Advance 1] ++ inside 1%nat 2%nat ++ [Return 1; Advance 1; Advance 1;
   Advance 0; Advance 0; Advance 0] ++ inside 0%nat 5%nat ++ [Return 0; Advance 0; Advance 0; Advance 0; Advance 0;
   Advance 1] ++ inside 1%nat 5%nat ++ [Return 1; Advance 1; Advance 1; Advance 1; Advance 1;
   Advance 1] ++ inside 1%nat 2%nat ++ [Return 1; Advance 1; Advance 1; Advance 4; Advance 1; Advance 1].

Lemma stress_mpmc_run_sound_witness :
  exists h p s,
    exec (system_step (client_step (Client0 := mpmc_client sample_config))
            (pool_step (ConcurrentObject0 := mpmc_object 256))) (length one_message_schedule)
      (mpmc_init two_cells 2, work_init sample_config CWait None) h (p, s) /\
    popped_count s = 1 /\ run_mpmc_verdict sample_config s = Some (0, true, None).
Proof.
  eexists _, _, _.
  match goal with |- ?A /\ _ => assert (Hex : A) end.
  { apply (run_system_exec (ConcurrentObject0 := mpmc_object 256) (Client0 := mpmc_client sample_config)).
    vm_compute. reflexivity. }
  split; [exact Hex |]. split; [reflexivity |].
  destruct (stress_mpmc_run_sound sample_args sample_config None two_cells (length one_message_schedule) _ _ _
    ltac:(vm_compute; reflexivity) eq_refl ltac:(vm_compute; reflexivity) Hex) as (_ & _ & _ & H).
  destruct H as (_ & _ & E); [by repeat constructor | by repeat constructor | exact E].
Defined.
