(* ===== verification/StressBlocking.v ===== *)
(** * The blocking stress run ([run_blocking] in [stress/queue_stress.cpp])

    The producers are those of [WorkSharing]: they use [try_push], and the last one
    to leave closes the queue.  The consumers pop until [pop] reports that the
    queue is closed and drained.  Every access to a shared variable is a step of
    its own; the section under [consumed_mutex] is one step.  The close check that
    comes first is in [StressClose].  The random yields are not modelled.

    Theorem: over [BlockingQueue] the run never records a failure, and when the
    threads have ended every pushed message was popped, checked and marked exactly
    once. *)

From S2P Require Import Prelude Result FixedMessage Concurrency Clients BlockingQueue BlockingConcurrent.
From S2P Require Import Bytes BenchmarkMessage CommandLine StressTester WorkSharing.

Inductive consumer_pc : Type :=
| CWait
| CPop
| CPopping
| CValidate (payload : list byte)
| CSeen (payload : list byte)
| CCount
| CEnded
| CUndefined.

Section run.

Context (c : Config).

Abbreviation op := (BlockingOp (list byte)).
Abbreviation res := (BlockingRes (list byte)).

Definition blocking_producer : work consumer_pc -> nat -> option (option op * work consumer_pc) :=
  producer_advance TryPush (Some Close) c.

(** [while (const auto payload = queue.pop()) { ... }] *)
Definition blocking_consumer (s : work consumer_pc) (i : nat) : option (option op * work consumer_pc) :=
  let go s pc := Some (None, set_taker s i pc) in
  match takers s !! i with
  | Some CWait => if start s then go s CPop else None
  | Some CPop => Some (Some Pop, set_taker s i CPopping)
  | Some (CValidate payload) =>
      let header := read_header payload in
      if negb (in_range c header) then go s CPop
      else match validate_payload "blocking" c payload (producer_id header) (local_sequence header)
                   (global_sequence header) (popped_count s +u 1) (failures s) with
           | None => go s CUndefined
           | Some (false, recorded) => go (set_failures s recorded) CPop
           | Some (true, recorded) => go (set_failures s recorded) (CSeen payload)
           end
  | Some (CSeen payload) =>
      let header := read_header payload in
      let global := global_sequence header in
      match consumed s !! Z.to_nat global with
      | None => go s CUndefined
      | Some seen =>
          let s := if negb (seen =? 0)
                   then set_failures s
                          (record (failures s)
                             (mkFailure "blocking" (seed c) global global global (checksum header) (checksum header)
                                "duplicate consumed message"))
                   else s in
          go (set_consumed s (Z.to_nat global)) CCount
      end
  | Some CCount => go (add_popped s) CPop
  | _ => None
  end.

(** Producers, consumers, the main thread and the clock. *)
Definition blocking_advance (s : work consumer_pc) (t : nat) : option (option op * work consumer_pc) :=
  let i := (t - nproducers c)%nat in
  if decide (t < nproducers c)%nat then blocking_producer s t
  else if decide (i < nconsumers c)%nat then blocking_consumer s i
  else if decide (i = nconsumers c) then Some (None, set_start s)
  else Some (None, set_expired s).

Definition blocking_receive (s : work consumer_pc) (t : nat) (r : res) : option (work consumer_pc) :=
  let i := (t - nproducers c)%nat in
  if decide (t < nproducers c)%nat then
    match makers s !! t, r with
    | Some (PPushing local global), PushRes status =>
        Some (producer_receive "blocking" c s t local global status 0)
    | Some PClosing, CloseRes => Some (set_maker s t PEnded)
    | _, _ => None
    end
  else
    match takers s !! i, r with
    | Some CPopping, PopRes (Some payload) => Some (set_taker s i (CValidate payload))
    | Some CPopping, PopRes None => Some (set_taker s i CEnded)
    | _, _ => None
    end.

#[local] Instance blocking_run_client : Client op res (work consumer_pc) := {|
  advance := blocking_advance; receive := blocking_receive;
|}.

Definition run_blocking_verdict : work consumer_pc -> option (Z * bool * FailureRecorder) :=
  work_verdict "blocking" c "pushed and popped totals differ after close/drain".

End run.

#[export] Existing Instance blocking_run_client.

(** ** The run over the queue's contract *)

Section proofs.

Context (c : Config) (f0 : FailureRecorder).
Hypothesis Hc : config_ok c.

Abbreviation thread_status := (status (BlockingOp (list byte)) (BlockingRes (list byte))).
Abbreviation image := (WorkSharing.image c).

#[local] Opaque WorkSharing.image make_payload expected_payload.

Definition blocking_accepts (r : BlockingRes (list byte)) : Prop := r = PushRes success.
Definition blocking_refuses (r : BlockingRes (list byte)) : Prop := r = PushRes full.
Definition blocking_closes (r : BlockingRes (list byte)) : Prop := r = CloseRes.

(** Nothing is queued and nothing will be. *)
Definition over (G : ledger) (s : work consumer_pc) : Prop := remaining_producers s = 0 /\ queued G = [].

Definition consumer_ok (G : ledger) (s : work consumer_pc) (h : option Z) (u : Z) (st : thread_status) (pc : consumer_pc) : Prop :=
  match pc with
  | CWait | CPop => st = Idle /\ h = None /\ u = 0
  | CPopping =>
      match st with
      | Called o => o = Pop /\ h = None /\ u = 0
      | Finished (PopRes (Some d)) => exists g, h = Some g /\ u = 1 /\ d = image g
      | Finished (PopRes None) => h = None /\ u = 0 /\ over G s
      | _ => False
      end
  | CValidate payload | CSeen payload => st = Idle /\ exists g, h = Some g /\ u = 1 /\ payload = image g
  | CCount => st = Idle /\ h = None /\ u = 1
  | CEnded => st = Idle /\ h = None /\ u = 0 /\ over G s
  | CUndefined => False
  end.

Lemma blocking_consumer_stable G s G' s' h u st pc :
  evolves G s G' s' -> consumer_ok G s h u st pc -> consumer_ok G' s' h u st pc.
Proof.
  intros [_ _ _ H4]. assert (Ho : over G s -> over G' s').
  { intros [Hz Hq]. destruct (H4 Hz) as (Hz' & _ & _ & Hq'). split; [done | by apply Hq']. }
  destruct pc; simpl; try done.
  - destruct st as [| | [| [d |] | | |]]; try done. intros (-> & -> & Hov). auto.
  - intros (-> & -> & -> & Hov). auto.
Qed.

(** *** The invariant *)

Abbreviation blocking_run_inv :=
  (work_inv TryPush (Some Close) c f0 blocking_accepts blocking_refuses blocking_closes consumer_ok).

(** What the ledger says about the queue: it is closed only when the producers
    have left. *)
Definition queue_ok (G : ledger) (s : work consumer_pc) (a : guarded (list byte)) : Prop :=
  g_queue a = image <$> queued G /\ (g_closed a = true -> remaining_producers s = 0).

#[local] Abbreviation contract := (blocking_spec (T := list byte) (capacity c)).

(** *** Linearization points *)

Lemma blocking_producer_lin G cs s p a o r a' :
  (p < nproducers c)%nat -> blocking_run_inv G cs s -> queue_ok G s a -> cs !! p = Some (Called o) ->
  contract a o r a' ->
  exists G', blocking_run_inv G' (<[p := Finished r]> cs) s /\ queue_ok G' s a'.
Proof using Hc.
  intros Hp Hinv [Hit Hcl] Hst Hs. pose proof (inv_books Hinv) as HB.
  destruct (lookup_lt_is_Some_2 (makers s) p) as [pc Hpc]; [by rewrite (inv_makers Hinv) |].
  destruct (producer_ghost c G s p HB Hp) as (n & m & k & Hn & Hm & Hk & Hr).
  pose proof (inv_producers Hinv p pc _ n m k Hpc Hst Hn Hm Hk) as Hok.
  destruct pc as [| | | local g | | | | | | |]; simpl in Hok; try (by destruct_and?); try done.
  - destruct Hok as (Hl & -> & -> & -> & -> & ->).
    inversion Hs as [| | its x Hlt | its x Hfull | its x | | | | | | |]; subst; simpl in *.
    + edestruct (producer_accepted TryPush (Some Close) c f0 Hc blocking_accepts blocking_refuses blocking_closes
        consumer_ok blocking_consumer_stable G cs s p local (number c p local)) as (n' & Hn' & Hinv'); try done.
      eexists. split; [exact Hinv' |]. split; [| done]. simpl. by rewrite fmap_app, Hit.
    + exists G. split; [| done]. eapply producer_unmoved; [exact Hc | apply blocking_consumer_stable | ..]; try done.
      left. eexists _, _. done.
    + pose proof (all_left _ _ _ _ _ _ _ _ G cs s p _ Hinv (Hcl eq_refl) Hpc). done.
  - destruct Hok as (-> & -> & [= <-]). inversion Hs; subst; simpl in *. exists G. split.
    + eapply producer_unmoved; [exact Hc | apply blocking_consumer_stable | ..]; try done. by right.
    + split; [done |]. intros _. eapply (inv_closing Hinv); [exact Hpc | by right].
Qed.

Lemma blocking_consumer_lin G cs s i a o r a' :
  (i < nconsumers c)%nat -> blocking_run_inv G cs s -> queue_ok G s a -> cs !! (nproducers c + i)%nat = Some (Called o) ->
  contract a o r a' ->
  exists G', blocking_run_inv G' (<[(nproducers c + i)%nat := Finished r]> cs) s /\ queue_ok G' s a'.
Proof using Hc.
  intros Hi Hinv [Hit Hcl] Hst Hs.
  destruct (taker_exists _ _ _ _ _ _ _ _ G cs s i Hinv Hi) as (pc & st & h & u & Hpc & Hst' & Hh & Hu & Hok).
  rewrite Hst in Hst'. injection Hst' as <-.
  destruct pc; simpl in Hok; try (by destruct_and?); try done.
  destruct Hok as (-> & -> & ->). inversion Hs as [| | | | | x its b | | | | | |]; subst; simpl in *.
  - destruct (queued G) as [| g gs] eqn:Eq; [done |]. injection Hit as -> ->.
    edestruct (taker_takes TryPush (Some Close) c f0 Hc blocking_accepts blocking_refuses blocking_closes consumer_ok
      blocking_consumer_stable G cs s i CPopping) as [_ Hinv'];
      [exact Hinv | done | done | exact Eq | done | done | | eexists; split; [exact Hinv' | done]].
    intros _ _ _ _ _. simpl. by exists g.
  - symmetry in Hit. apply fmap_nil_inv in Hit. exists G. split; [| by split; [rewrite Hit |]].
    eapply (taker_goes _ _ _ _ _ _ _ _ blocking_consumer_stable G cs s s i CPopping); try done.
    + left. unfold set_taker. rewrite list_insert_id by done. by destruct s.
    + simpl. split_and!; try done. split; [by apply Hcl | done].
Qed.

(** *** Steps of a consumer *)

Lemma blocking_consumer_local G cs s i s' :
  (i < nconsumers c)%nat -> blocking_run_inv G cs s -> blocking_consumer c s i = Some (None, s') ->
  exists G', blocking_run_inv G' cs s' /\ queued G' = queued G /\ remaining_producers s' = remaining_producers s.
Proof using Hc.
  intros Hi Hinv Hadv. pose proof (inv_books Hinv) as HB.
  destruct (taker_exists _ _ _ _ _ _ _ _ G cs s i Hinv Hi) as (pc & st & h & u & Hpc & Hst & Hh & Hu & Hok).
  unfold blocking_consumer in Hadv. rewrite Hpc in Hadv. rewrite <- (list_insert_id cs _ st Hst).
  assert (Hsame : forall pc', s' = set_taker s i pc' -> consumer_ok G s h u st pc' ->
    exists G', blocking_run_inv G' (<[(nproducers c + i)%nat := st]> cs) s' /\ queued G' = queued G /\
      remaining_producers s' = remaining_producers s).
  { intros pc' -> Hnew. exists G. split; [| done]. by eapply taker_goes; [apply blocking_consumer_stable | .. | left |]. }
  assert (Hfail : set_failures s (failures s) = s) by (by destruct s).
  destruct pc as [| | | d | d | | |]; try done; cbn [consumer_ok] in Hok.
  - destruct (start s); [| done]. injection Hadv as <-. by eapply (Hsame CPop).
  - destruct Hok as (-> & g & -> & -> & ->).
    destruct (books_held c Hc G s i g HB Hh) as [(p & lo & Hlt & Hlo & ->) _].
    destruct (image_checked "blocking" c Hc p lo Hlt Hlo) as (E1 & E2 & E3). rewrite E1, E2, E3 in Hadv.
    cbn [negb] in Hadv. rewrite Hfail in Hadv. injection Hadv as <-.
    eapply (Hsame (CSeen (image (number c p lo)))); [done |]. split; [done |]. by exists (number c p lo).
  - destruct Hok as (-> & g & -> & -> & ->).
    destruct (books_held c Hc G s i g HB Hh) as [(p & lo & Hlt & Hlo & ->) Hc0].
    destruct (image_checked "blocking" c Hc p lo Hlt Hlo) as (_ & E2 & _). rewrite E2, Hc0 in Hadv.
    cbn [negb Z.eqb] in Hadv. injection Hadv as <-.
    edestruct (taker_consumes TryPush (Some Close) c f0 Hc blocking_accepts blocking_refuses blocking_closes consumer_ok
      blocking_consumer_stable G cs s i (number c p lo) CCount Idle 1) as [_ Hinv'];
      [exact Hinv | done | done | done | done | eexists; by split; [exact Hinv' |]].
  - destruct Hok as (-> & -> & ->). injection Hadv as <-.
    eexists. split; [eapply taker_counts; [exact Hc | apply blocking_consumer_stable | done.. |] | done]. done.
Qed.

Lemma blocking_consumer_call G cs s i o s' :
  (i < nconsumers c)%nat -> blocking_run_inv G cs s -> blocking_consumer c s i = Some (Some o, s') ->
  blocking_run_inv G (<[(nproducers c + i)%nat := Called o]> cs) s' /\ remaining_producers s' = remaining_producers s.
Proof.
  intros Hi Hinv Hadv.
  destruct (taker_exists _ _ _ _ _ _ _ _ G cs s i Hinv Hi) as (pc & st & h & u & Hpc & Hst & Hh & Hu & Hok).
  unfold blocking_consumer in Hadv. rewrite Hpc in Hadv.
  destruct pc as [| | | d | d | | |]; try done; try (by repeat case_match).
  injection Hadv as <- <-. destruct Hok as (-> & -> & ->). split; [| done].
  by eapply taker_goes; [apply blocking_consumer_stable | done | done | done | done | left |].
Qed.

Lemma blocking_consumer_return G cs s i r s' :
  (i < nconsumers c)%nat -> blocking_run_inv G cs s -> cs !! (nproducers c + i)%nat = Some (Finished r) ->
  blocking_receive c s (nproducers c + i) r = Some s' ->
  blocking_run_inv G (<[(nproducers c + i)%nat := Idle]> cs) s' /\ remaining_producers s' = remaining_producers s.
Proof.
  intros Hi Hinv Hfin Hrec.
  destruct (taker_exists _ _ _ _ _ _ _ _ G cs s i Hinv Hi) as (pc & st & h & u & Hpc & Hst & Hh & Hu & Hok).
  rewrite Hfin in Hst. injection Hst as <-. unfold blocking_receive in Hrec.
  rewrite decide_False, Nat.add_comm, Nat.add_sub, Hpc in Hrec by lia.
  destruct pc; try done. destruct r as [| [d |] | | |]; try done; injection Hrec as <-; (split; [| done]).
  - destruct Hok as (g & -> & -> & ->).
    eapply taker_goes; [apply blocking_consumer_stable | done | done | done | done | by left |].
    split; [done |]. by exists g.
  - destruct Hok as (-> & -> & Hov).
    by eapply taker_goes; [apply blocking_consumer_stable | done | done | done | done | left |].
Qed.

(** *** Executions *)

Definition blocking_system_inv (s : pool (guarded (list byte)) thread_status * work consumer_pc) : Prop :=
  exists G, blocking_run_inv G (threads s.1) s.2 /\ queue_ok G s.2 (shared s.1).

Lemma blocking_local_step G cs s t s' a :
  blocking_run_inv G cs s -> queue_ok G s a -> blocking_advance c s t = Some (None, s') ->
  exists G', blocking_run_inv G' cs s' /\ queue_ok G' s' a.
Proof using Hc.
  intros Hinv [Hit Hcl] Hadv. unfold blocking_advance in Hadv. case_decide as Hp.
  { destruct (producer_local TryPush (Some Close) c f0 Hc _ _ _ consumer_ok blocking_consumer_stable G cs s t s' Hp Hinv Hadv)
      as (G' & Hinv' & _ & Eq & Hz). exists G'. split; [done |]. split; [by rewrite Eq |]. intros H. by apply Hz, Hcl. }
  case_decide as Hi.
  { destruct (blocking_consumer_local G cs s _ s' Hi Hinv Hadv) as (G' & Hinv' & Eq & Er).
    exists G'. split; [done |]. split; [by rewrite Eq | by rewrite Er]. }
  exists G. case_decide; simplify_eq; (split; [| done]).
  - eapply work_inv_env; [apply blocking_consumer_stable | exact Hinv | by left].
  - eapply work_inv_env; [apply blocking_consumer_stable | exact Hinv | by right].
Qed.

Lemma blocking_call_step G cs s t o s' :
  blocking_run_inv G cs s -> cs !! t = Some Idle -> blocking_advance c s t = Some (Some o, s') ->
  blocking_run_inv G (<[t := Called o]> cs) s' /\ remaining_producers s' = remaining_producers s.
Proof using Hc.
  intros Hinv Hst Hadv. unfold blocking_advance in Hadv. pose proof (lookup_lt_Some _ _ _ Hst) as Hlt.
  rewrite (inv_threads Hinv) in Hlt. case_decide as Hp.
  { by eapply (producer_call TryPush (Some Close) c f0 Hc _ _ _ consumer_ok blocking_consumer_stable). }
  rewrite decide_True in Hadv by lia. replace t with (nproducers c + (t - nproducers c))%nat by lia.
  eapply blocking_consumer_call; [lia | exact Hinv | exact Hadv].
Qed.

Lemma blocking_return_step G cs s t r s' :
  blocking_run_inv G cs s -> cs !! t = Some (Finished r) -> blocking_receive c s t r = Some s' ->
  blocking_run_inv G (<[t := Idle]> cs) s' /\ remaining_producers s' = remaining_producers s.
Proof using Hc.
  intros Hinv Hst Hrec. pose proof (lookup_lt_Some _ _ _ Hst) as Hlt. rewrite (inv_threads Hinv) in Hlt.
  destruct (decide (t < nproducers c)%nat) as [Hp | Hp].
  - unfold blocking_receive in Hrec. rewrite decide_True in Hrec by done.
    destruct (makers s !! t) as [pc |] eqn:Hpc; [| done].
    destruct pc as [| | | local g | | | | | | |]; try done; destruct r as [q | | | |]; try done; injection Hrec as <-.
    + eapply (producer_push_return "blocking" TryPush (Some Close) c f0 Hc blocking_accepts blocking_refuses
        blocking_closes consumer_ok blocking_consumer_stable); [done | done | exact Hst | |]; by intros [= ->].
    + split; [| done]. by eapply (producer_close_return TryPush (Some Close) c f0 Hc blocking_accepts blocking_refuses
        blocking_closes consumer_ok blocking_consumer_stable).
  - replace t with (nproducers c + (t - nproducers c))%nat in * by lia. eapply blocking_consumer_return; try done. lia.
Qed.

Lemma blocking_system_step s1 l s2 :
  blocking_system_inv s1 ->
  system_step (client_step (Client0 := blocking_run_client c)) (canon_step (strict contract)) s1 l s2 ->
  blocking_system_inv s2.
Proof using Hc.
  intros (G & Hinv & Hq) Hstep.
  destruct Hstep as [p p' s Ho | p s s' Hs | p p' s s' e Ho Hs]; cbn [fst snd] in Hinv, Hq.
  - inversion Ho as [| a cs t o r a' Hst Hsp |]; subst. cbn [threads shared] in *.
    destruct (decide (t < nproducers c)%nat) as [Hp | Hp].
    + by eapply blocking_producer_lin.
    + pose proof (lookup_lt_Some _ _ _ Hst) as Hlt. rewrite (inv_threads Hinv) in Hlt.
      replace t with (nproducers c + (t - nproducers c))%nat in * by lia.
      destruct (blocking_consumer_lin G cs s (t - nproducers c) a o r a' ltac:(lia) Hinv Hq Hst Hsp) as (G' & H1 & H2).
      by exists G'.
  - inversion Hs as [s0 t s0' Hadv | |]; subst. exact (blocking_local_step G _ s t s' _ Hinv Hq Hadv).
  - destruct Hq as [Hit Hcl]. inversion Ho as [a cs t o Hst | | a cs t r Hst]; subst; cbn [threads shared] in *;
      inversion Hs as [| s0 t0 o0 s0' Hadv | s0 t0 r0 s0' Hrec]; subst; exists G.
    + destruct (blocking_call_step G cs s t o s' Hinv Hst Hadv) as [Hinv' Er].
      split; [done |]. split; [done |]. cbn [snd]. by rewrite Er.
    + destruct (blocking_return_step G cs s t r s' Hinv Hst Hrec) as [Hinv' Er].
      split; [done |]. split; [done |]. cbn [snd]. by rewrite Er.
Qed.

Lemma blocking_system_init :
  blocking_system_inv (mkPool (mkGuarded [] false) (replicate (nproducers c + nconsumers c) Idle), work_init c CWait f0).
Proof using Hc.
  eexists. split; [by apply (work_inv_init TryPush (Some Close) c f0 Hc) | by split].
Qed.

End proofs.

(** ** Theorems *)

(** C30: for an accepted configuration the blocking stress run over [BlockingQueue]
    reports no false failure: no state of the threads ever has a failure recorded
    or an index outside the vectors, and when all producers and consumers have
    ended every message that was pushed is marked as consumed, the totals agree,
    nothing is missing and the run returns [true]. *)
Theorem stress_blocking_run_sound args c f0 q n h p s :
  parse_config args = Value c -> BlockingQueue_new (T := list byte) (capacity c) = returns q ->
  exec (system_step (client_step (Client0 := blocking_run_client c))
          (pool_step (ConcurrentObject0 := blocking_object (T := list byte)))) n
    (blocking_init q (nproducers c + nconsumers c), work_init c CWait f0) h (p, s) ->
  failures s = f0 /\ (PUndefined ∉ makers s) /\ (CUndefined ∉ takers s) /\
  (Forall (fun pc => pc = PEnded) (makers s) -> Forall (fun pc => pc = CEnded) (takers s) ->
   published s = consumed s /\ pushed_count s = popped_count s /\
   run_blocking_verdict c s = Some (0, negb (failed f0), f0)).
Proof.
  intros Hc%parse_config_ok Hq Hex. pose proof (co_capacity c Hc) as Hcap.
  edestruct (client_over_atomic _ (strict (blocking_spec (capacity c))) _ (mkGuarded [] false)
    (nproducers c + nconsumers c) _ _ _ _ _ _ Hex) as (j & s1 & Hex').
  { intros i h' p' Hi Hp.
    destruct (blocking_exec_sim (capacity c) q (nproducers c + nconsumers c) i h' p')
      as (j & s1 & H & _); try done; [lia |]. by exists j, s1. }
  assert (Hinv : blocking_system_inv c f0 (s1, s)).
  { eapply (exec_history_invariant _ (fun _ => blocking_system_inv c f0) _ (length h));
      [by apply blocking_system_init | | exact Hex' | done].
    intros i sa l sb _. by eapply blocking_system_step. }
  destruct Hinv as (G & Hinv & _). cbn [fst snd] in Hinv.
  split; [apply Hinv |]. split; [by eapply makers_defined |]. split.
  - intros (i & Hi)%list_elem_of_lookup. assert (Hlt : (i < nconsumers c)%nat)
      by (rewrite <- (inv_takers Hinv); by eapply lookup_lt_Some).
    destruct (taker_exists _ _ _ _ _ _ _ _ G _ s i Hinv Hlt) as (pc & st & h0 & u & Hpc & _ & _ & _ & Hok). by simplify_eq.
  - intros Hpe Hce. eapply work_inv_closed; [exact Hc | exact Hinv | done |].
    intros i pc st h0 u Hpc Hok. apply (Forall_lookup_1 _ _ _ _ Hce) in Hpc as ->.
    by destruct Hok as (_ & -> & -> & _ & ?).
Qed.

(** ** Witnesses *)

Definition sample_args : list string :=
  ["--queue"; "blocking"; "--producers"; "1"; "--consumers"; "1"; "--capacity"; "1"; "--payload-size"; "32"; "--iterations"; "1"].

Definition sample_config : Config := mkConfig 0x4f52424954515545 250 1 "blocking" 1 1 32 1 false.

Definition one_place : BlockingQueue (list byte) := mkBlocking 1 false [] false (fun _ => ∅).

(** One message: the consumer is asleep when it arrives. *)
Definition one_message_schedule : list system_choice :=
  let inside t n := replicate n (Inside t 0) in
  [Advance 2; Advance 1; Advance 1] ++ inside 1%nat 2%nat ++
  [Advance 0; Advance 0; Advance 0] ++ inside 0%nat 5%nat ++ [Return 0; Advance 0; Advance 0; Advance 0; Advance 0] ++
  inside 1%nat 6%nat ++ [Return 1; Advance 1; Advance 1; Advance 1; Advance 1] ++ inside 1%nat 2%nat ++
  [Advance 0] ++ inside 0%nat 6%nat ++ [Return 0] ++ inside 1%nat 5%nat ++ [Return 1].

Lemma stress_blocking_run_sound_witness :
  exists h p s,
    exec (system_step (client_step (Client0 := blocking_run_client sample_config))
            (pool_step (ConcurrentObject0 := blocking_object (T := list byte)))) (length one_message_schedule)
      (blocking_init one_place 2, work_init sample_config CWait None) h (p, s) /\
    popped_count s = 1 /\ run_blocking_verdict sample_config s = Some (0, true, None).
Proof.
  eexists _, _, _.
  match goal with |- ?A /\ _ => assert (Hex : A) end.
  { apply (run_system_exec (ConcurrentObject0 := blocking_object) (Client0 := blocking_run_client sample_config)).
    vm_compute. reflexivity. }
  split; [exact Hex |]. split; [reflexivity |].
  destruct (stress_blocking_run_sound sample_args sample_config None one_place (length one_message_schedule) _ _ _
    ltac:(vm_compute; reflexivity) eq_refl Hex) as (_ & _ & _ & H).
  destruct H as (_ & _ & E); [by repeat constructor | by repeat constructor | exact E].
Defined.
