(* ===== verification/StressClose.v ===== *)
(** * The close check of the blocking stress run ([run_blocking_close_smoke])

    Before the blocking run the tester checks that closing a [BlockingQueue] wakes
    a thread blocked in [pop] on an empty queue, and one blocked in [push] on a full
    queue whose item can still be drained.  The function uses one queue after the
    other, so it is modelled as two programs ([consumer_check], [producer_check]),
    with the thread of [std::async] next to the main thread.  [wait_for] is a loop on
    the clock: time passes when the environment says so ([waited], [late]), and the
    result is [ready] when the task has returned.  The destructors of the futures
    are not modelled.

    Theorem: over [BlockingQueue] both programs only fail when the woken thread
    takes longer than the second that the check waits for it. *)

From S2P Require Import Prelude Result FixedMessage Concurrency Clients BlockingQueue BlockingConcurrent.
From S2P Require Import Bytes CommandLine StressTester.

Inductive task_pc : Type :=
| TNotStarted
| TStarted
| TInCall
| TReturned (r : BlockingRes Z).

(** The states of the main thread, in the order of the code. *)
Inductive consumer_check_pc : Type :=
| CAsync | CWaitBlocked | CClose | CClosing | CWaitWoken | CDone (ok : bool).

Inductive producer_check_pc : Type :=
| PSetup | PSetupPush | PAsync | PWaitBlocked | PClose | PClosing | PWaitWoken
| PDrain | PDraining | PSecond | PSecondPop | PDone (ok : bool).

Record check (pc : Type) : Type := mkCheck {
  main_at : pc;
  task : task_pc;
  waited : bool;      (** the 10 ms are over *)
  late : bool;        (** the second is over *)
  recorded : FailureRecorder;
}.

Arguments mkCheck {pc}.
Arguments main_at {pc}.
Arguments task {pc}.
Arguments waited {pc}.
Arguments late {pc}.
Arguments recorded {pc}.

Section programs.

Context (c : Config).

Abbreviation op := (BlockingOp Z).
Abbreviation res := (BlockingRes Z).

Definition moves {pc} (s : check pc) (p : pc) : check pc := mkCheck p (task s) (waited s) (late s) (recorded s).

Definition set_task {pc} (s : check pc) (t : task_pc) : check pc := mkCheck (main_at s) t (waited s) (late s) (recorded s).

(** [failures.record({...}); return false;] *)
Definition fails {pc} (s : check pc) (expected observed : Z) (reason : string) (p : pc) : check pc :=
  mkCheck p (task s) (waited s) (late s)
    (record (recorded s) (mkFailure "blocking" (seed c) 0 expected observed 0 0 reason)).

(** The body of the task, the clock and the task's return, the same in both. *)
Definition task_advance {pc} (blocked : op) (s : check pc) : option (option op * check pc) :=
  match task s with
  | TStarted => Some (Some blocked, set_task s TInCall)
  | _ => None
  end.

Definition task_receive {pc} (s : check pc) (r : res) : option (check pc) :=
  match task s with
  | TInCall => Some (set_task s (TReturned r))
  | _ => None
  end.

(** ** A consumer blocked on an empty queue *)

Definition consumer_check_main (s : check consumer_check_pc) : option (option op * check consumer_check_pc) :=
  match main_at s with
  | CAsync => Some (None, moves (set_task s TStarted) CWaitBlocked)
  | CWaitBlocked =>
      match task s with
      | TReturned _ => Some (None, fails s 0 0 "empty consumer did not block before close" (CDone false))
      | _ => if waited s then Some (None, moves s CClose) else None
      end
  | CClose => Some (Some Close, moves s CClosing)
  | CWaitWoken =>
      let failure := Some (None, fails s 0 0 "blocked consumer did not wake empty on close" (CDone false)) in
      match task s with
      | TReturned (PopRes None) => Some (None, moves s (CDone true))
      | TReturned _ => failure
      | _ => if late s then failure else None
      end
  | _ => None
  end.

Definition consumer_check_clock (s : check consumer_check_pc) : option (check consumer_check_pc) :=
  match main_at s with
  | CWaitBlocked => Some (mkCheck (main_at s) (task s) true (late s) (recorded s))
  | CWaitWoken => Some (mkCheck (main_at s) (task s) (waited s) true (recorded s))
  | _ => None
  end.

Definition consumer_check_advance (s : check consumer_check_pc) (t : nat)
    : option (option op * check consumer_check_pc) :=
  match t with
  | 0%nat => consumer_check_main s
  | 1%nat => task_advance Pop s
  | 2%nat => s' ← consumer_check_clock s; Some (None, s')
  | _ => None
  end.

Definition consumer_check_receive (s : check consumer_check_pc) (t : nat) (r : res) : option (check consumer_check_pc) :=
  match t with
  | 0%nat => match main_at s, r with
             | CClosing, CloseRes => Some (moves s CWaitWoken)
             | _, _ => None
             end
  | 1%nat => task_receive s r
  | _ => None
  end.

#[local] Instance consumer_check_client : Client op res (check consumer_check_pc) := {|
  advance := consumer_check_advance; receive := consumer_check_receive;
|}.

(** ** A producer blocked on a full queue *)

Definition producer_check_main (s : check producer_check_pc) : option (option op * check producer_check_pc) :=
  match main_at s with
  | PSetup => Some (Some (Push 7), moves s PSetupPush)
  | PAsync => Some (None, moves (set_task s TStarted) PWaitBlocked)
  | PWaitBlocked =>
      match task s with
      | TReturned _ => Some (None, fails s 0 0 "full producer did not block before close" (PDone false))
      | _ => if waited s then Some (None, moves s PClose) else None
      end
  | PClose => Some (Some Close, moves s PClosing)
  | PWaitWoken =>
      let failure := Some (None, fails s 0 0 "blocked producer did not wake closed" (PDone false)) in
      match task s with
      | TReturned (PushRes closed) => Some (None, moves s PDrain)
      | TReturned _ => failure
      | _ => if late s then failure else None
      end
  | PDrain => Some (Some Pop, moves s PDraining)
  | PSecond => Some (Some Pop, moves s PSecondPop)
  | _ => None
  end.

Definition producer_check_clock (s : check producer_check_pc) : option (check producer_check_pc) :=
  match main_at s with
  | PWaitBlocked => Some (mkCheck (main_at s) (task s) true (late s) (recorded s))
  | PWaitWoken => Some (mkCheck (main_at s) (task s) (waited s) true (recorded s))
  | _ => None
  end.

Definition producer_check_advance (s : check producer_check_pc) (t : nat)
    : option (option op * check producer_check_pc) :=
  match t with
  | 0%nat => producer_check_main s
  | 1%nat => task_advance (Push 8) s
  | 2%nat => s' ← producer_check_clock s; Some (None, s')
  | _ => None
  end.

Definition producer_check_receive (s : check producer_check_pc) (t : nat) (r : res) : option (check producer_check_pc) :=
  let not_drained drained := fails s 7 drained "queued item was not drainable after close" (PDone false) in
  match t with
  | 0%nat =>
      match main_at s, r with
      | PSetupPush, PushRes status =>
          Some (if decide (status = success) then moves s PAsync
                else fails s 0 0 "close-race setup push failed" (PDone false))
      | PClosing, CloseRes => Some (moves s PWaitWoken)
      | PDraining, PopRes None => Some (not_drained 0)
      | PDraining, PopRes (Some drained) => Some (if drained =? 7 then moves s PSecond else not_drained drained)
      | PSecondPop, PopRes None => Some (moves s (PDone true))
      | PSecondPop, PopRes (Some _) => Some (not_drained 7)
      | _, _ => None
      end
  | 1%nat => task_receive s r
  | _ => None
  end.

#[local] Instance producer_check_client : Client op res (check producer_check_pc) := {|
  advance := producer_check_advance; receive := producer_check_receive;
|}.

(** Both checks start with nothing done. *)
Definition check_init {pc} (p : pc) (f : FailureRecorder) : check pc := mkCheck p TNotStarted false false f.

End programs.

#[export] Existing Instance consumer_check_client.
#[export] Existing Instance producer_check_client.

(** ** The checks over the queue's contract *)

Section proofs.

Context (c : Config) (f0 : FailureRecorder).

Abbreviation thread_status := (status (BlockingOp Z) (BlockingRes Z)).
Abbreviation pool_state := (pool (guarded Z) thread_status).

#[local] Abbreviation contract := (blocking_spec (T := Z) 1).

(** The task: it calls [o], and can only come back with [r] from a closed queue. *)
Definition task_ok (o : BlockingOp Z) (r : BlockingRes Z) (a : guarded Z) (st : thread_status) (t : task_pc) : Prop :=
  match t with
  | TNotStarted | TStarted => st = Idle
  | TInCall => st = Called o \/ st = Finished r /\ g_closed a = true
  | TReturned r' => st = Idle /\ r' = r /\ g_closed a = true
  end.

(** Nothing has been recorded, unless the second was over. *)
Definition unrecorded {pc} (s : check pc) : Prop := late s = false -> recorded s = f0.

Definition consumer_main_ok (a : guarded Z) (st : thread_status) (s : check consumer_check_pc) : Prop :=
  match main_at s with
  | CAsync => st = Idle /\ g_closed a = false /\ task s = TNotStarted
  | CWaitBlocked | CClose => st = Idle /\ g_closed a = false
  | CClosing => st = Called Close /\ g_closed a = false \/ st = Finished CloseRes
  | CWaitWoken => st = Idle
  | CDone ok => st = Idle /\ (late s = false -> ok = true)
  end.

Definition consumer_check_inv (x : pool_state * check consumer_check_pc) : Prop :=
  exists st0 st1, threads x.1 = [st0; st1] /\ g_queue (shared x.1) = [] /\ unrecorded x.2 /\
    consumer_main_ok (shared x.1) st0 x.2 /\ task_ok Pop (PopRes None) (shared x.1) st1 (task x.2).

Definition producer_main_ok (a : guarded Z) (st : thread_status) (s : check producer_check_pc) : Prop :=
  let before := g_closed a = false /\ task s = TNotStarted in
  match main_at s with
  | PSetup => st = Idle /\ g_queue a = [] /\ before
  | PSetupPush => (st = Called (Push 7) /\ g_queue a = [] \/ st = Finished (PushRes success) /\ g_queue a = [7]) /\ before
  | PAsync => st = Idle /\ g_queue a = [7] /\ before
  | PWaitBlocked | PClose => st = Idle /\ g_queue a = [7] /\ g_closed a = false
  | PClosing => g_queue a = [7] /\ (st = Called Close /\ g_closed a = false \/ st = Finished CloseRes /\ g_closed a = true)
  | PWaitWoken | PDrain => st = Idle /\ g_queue a = [7] /\ g_closed a = true
  | PDraining =>
      g_closed a = true /\ (st = Called Pop /\ g_queue a = [7] \/ st = Finished (PopRes (Some 7)) /\ g_queue a = [])
  | PSecond => st = Idle /\ g_queue a = [] /\ g_closed a = true
  | PSecondPop => g_queue a = [] /\ g_closed a = true /\ (st = Called Pop \/ st = Finished (PopRes None))
  | PDone ok => st = Idle /\ g_closed a = true /\ (late s = false -> ok = true)
  end.

Definition producer_check_inv (x : pool_state * check producer_check_pc) : Prop :=
  exists st0 st1, threads x.1 = [st0; st1] /\ unrecorded x.2 /\
    producer_main_ok (shared x.1) st0 x.2 /\ task_ok (Push 8) (PushRes closed) (shared x.1) st1 (task x.2).

Lemma consumer_check_step s1 l s2 :
  consumer_check_inv s1 ->
  system_step (client_step (Client0 := consumer_check_client c)) (canon_step (strict contract)) s1 l s2 ->
  consumer_check_inv s2.
Proof.
  intros (st0 & st1 & Hth & Hq & Hun & Hm & Ht) Hstep.
  destruct Hstep as [p p' s Ho | p s s' Hs | p p' s s' e Ho Hs]; cbn [fst snd] in *.
  - inversion Ho as [| a cs t o r a' Hst Hsp |]; subst. cbn [threads shared] in *. subst cs.
    destruct a as [items b]. simpl in Hq. subst items.
    destruct t as [| [| t]]; [injection Hst as -> | injection Hst as -> | done].
    + unfold consumer_main_ok in Hm. destruct (main_at s) eqn:Em; try (by destruct_and?); try done.
      destruct Hm as [[[= ->] Hb] |]; [| done]. inversion Hsp; subst. eexists _, _.
      unfold consumer_main_ok; simpl; rewrite Em. split_and!; try done; [by right |].
      unfold task_ok in *. destruct (task s); naive_solver.
    + unfold task_ok in Ht. destruct (task s) eqn:Et; try (by destruct_and?); try done.
      destruct Ht as [[= ->] | [? _]]; [| done]. inversion Hsp; subst. eexists _, _. simpl. rewrite Et.
      split_and!; try done. by right.
  - inversion Hs as [s0 t s0' Hadv | |]; subst. exists st0, st1. cbn [fst snd].
    split; [done |]. split; [done |]. unfold consumer_main_ok, task_ok, unrecorded in *.
    destruct t as [| [| [| t]]]; simpl in Hadv; try done.
    + unfold consumer_check_main in Hadv. destruct (main_at s) eqn:Em; try done.
      * injection Hadv as <-. simpl. destruct Hm as (-> & ? & E). rewrite E in Ht. by subst.
      * destruct (task s) as [| | | r] eqn:Et.
        4:{ destruct Hm, Ht as (_ & _ & ?). congruence. }
        all: destruct (waited s); [| done]; injection Hadv as <-; simpl; rewrite Et; done.
      * destruct (task s) as [| | | r] eqn:Et.
        4:{ destruct Ht as (-> & -> & ?). injection Hadv as <-. simpl. by rewrite Et. }
        all: destruct (late s) eqn:El; [| done]; injection Hadv as <-; simpl; rewrite Et, El; done.
    + unfold task_advance in Hadv. by destruct (task s).
    + unfold consumer_check_clock in Hadv. destruct (main_at s) eqn:Em; simpl in Hadv; try done; injection Hadv as <-; by simpl; rewrite ?Em.
  - inversion Ho as [a cs t o Hst | | a cs t r Hst]; subst; cbn [threads shared] in *; subst cs;
      inversion Hs as [| s0 t0 o0 s0' Hadv | s0 t0 r0 s0' Hrec]; subst; unfold consumer_main_ok, task_ok, unrecorded in *.
    + destruct t as [| [| t]]; [injection Hst as -> | injection Hst as -> | done]; simpl in Hadv.
      * unfold consumer_check_main in Hadv. destruct (main_at s) eqn:Em; simpl in Hadv;
          [done | by repeat case_match | injection Hadv as <- <- | done | by repeat case_match | done].
        eexists _, _. split_and!; try done. simpl. left. by destruct Hm.
      * unfold task_advance in Hadv. destruct (task s) eqn:Et; try done. injection Hadv as <- <-.
        eexists _, _. simpl. split_and!; try done; [| by left].
        unfold consumer_main_ok. simpl. destruct (main_at s); try done. by destruct Hm as (_ & _ & ?).
    + destruct t as [| [| t]]; [injection Hst as -> | injection Hst as -> | done]; simpl in Hrec.
      * destruct (main_at s) eqn:Em; try done. destruct r; try done. injection Hrec as <-. eexists _, _. split_and!; try done.
      * unfold task_receive in Hrec. destruct (task s) eqn:Et; try done. injection Hrec as <-.
        destruct Ht as [| [[= ->] ?]]; [done |]. eexists _, _. simpl. split_and!; try done.
        unfold consumer_main_ok. simpl. destruct (main_at s); try done. by destruct Hm as (_ & _ & ?).
Qed.

Lemma producer_check_lin s t a o r a' st0 st1 :
  [st0; st1] !! t = Some (Called o) -> contract a o r a' -> producer_main_ok a st0 s -> task_ok (Push 8) (PushRes closed) a st1 (task s) ->
  exists st0' st1', <[t := Finished r]> [st0; st1] = [st0'; st1'] /\ producer_main_ok a' st0' s /\
    task_ok (Push 8) (PushRes closed) a' st1' (task s).
Proof.
  intros Hst Hsp Hm Ht. destruct a as [items b]. unfold producer_main_ok in *. simpl in Hm.
  destruct t as [| [| t]]; [injection Hst as -> | injection Hst as -> | done]; eexists _, _; (split; [done |]).
  - assert (Hmono : g_closed (mkGuarded items b) = true -> g_closed a' = true) by (by inversion Hsp; subst).
    assert (Ht' : task_ok (Push 8) (PushRes closed) a' st1 (task s)) by (unfold task_ok in *; destruct (task s); naive_solver).
    destruct (main_at s); try (by destruct_and?); try done; inversion Hsp; subst; naive_solver.
  - unfold task_ok in Ht. destruct (task s) eqn:Et; try (by destruct_and?); try done.
    destruct Ht as [[= ->] | [? _]]; [| done]. inversion Hsp as [items' x Hlt | | | | | | | | | | |]; subst.
    + exfalso. destruct (main_at s); destruct_and?; simplify_eq; try done; destruct_or?; destruct_and?; simplify_eq.
    + split; [done |]. by right.
Qed.

(** The main thread's part when the task moves. *)
Lemma producer_main_task a st s t :
  task s <> TNotStarted -> producer_main_ok a st s -> producer_main_ok a st (set_task s t).
Proof. intros Hn. unfold producer_main_ok. simpl. destruct (main_at s); naive_solver. Qed.

Lemma producer_check_local s t s' a st0 st1 :
  producer_check_advance c s t = Some (None, s') -> unrecorded s -> producer_main_ok a st0 s ->
  task_ok (Push 8) (PushRes closed) a st1 (task s) ->
  unrecorded s' /\ producer_main_ok a st0 s' /\ task_ok (Push 8) (PushRes closed) a st1 (task s').
Proof.
  intros Hadv Hun Hm Ht. unfold producer_main_ok, unrecorded in *.
  destruct t as [| [| [| t]]]; simpl in Hadv; try done.
  - unfold producer_check_main in Hadv. destruct (main_at s) eqn:Em; try done.
    + injection Hadv as <-. simpl. destruct Hm as (-> & ? & ? & E). rewrite E in Ht. by subst.
    + destruct (task s) as [| | | r] eqn:Et.
      4:{ destruct Hm as (_ & _ & ?), Ht as (_ & _ & ?). congruence. }
      all: destruct (waited s); [| done]; injection Hadv as <-; simpl; rewrite Et; done.
    + destruct (task s) as [| | | r] eqn:Et.
      4:{ destruct Ht as (-> & -> & ?). injection Hadv as <-. simpl. by rewrite Et. }
      all: destruct (late s) eqn:El; [| done]; injection Hadv as <-; simpl; rewrite Et, El; naive_solver.
  - unfold task_advance in Hadv. by destruct (task s).
  - unfold producer_check_clock in Hadv. destruct (main_at s) eqn:Em; simpl in Hadv; try done; injection Hadv as <-; by simpl; rewrite ?Em.
Qed.

Lemma producer_check_call s t o s' a st0 st1 :
  producer_check_advance c s t = Some (Some o, s') -> [st0; st1] !! t = Some Idle -> unrecorded s -> producer_main_ok a st0 s ->
  task_ok (Push 8) (PushRes closed) a st1 (task s) ->
  exists st0' st1', <[t := Called o]> [st0; st1] = [st0'; st1'] /\ unrecorded s' /\ producer_main_ok a st0' s' /\
    task_ok (Push 8) (PushRes closed) a st1' (task s').
Proof.
  intros Hadv Hst Hun Hm Ht.
  destruct t as [| [| t]]; [injection Hst as -> | injection Hst as -> | done]; eexists _, _; (split; [done |]); simpl in Hadv.
  - unfold producer_main_ok, producer_check_main in *. destruct (main_at s) eqn:Em; simpl in Hadv; try done;
      try (by repeat case_match); injection Hadv as <- <-; naive_solver.
  - unfold task_advance in Hadv. destruct (task s) eqn:Et; try done. injection Hadv as <- <-.
    split; [done |]. split; [apply producer_main_task; [by rewrite Et | done] | by left].
Qed.

Lemma producer_check_return s t r s' a st0 st1 :
  producer_check_receive c s t r = Some s' -> [st0; st1] !! t = Some (Finished r) -> unrecorded s -> producer_main_ok a st0 s ->
  task_ok (Push 8) (PushRes closed) a st1 (task s) ->
  exists st0' st1', <[t := Idle]> [st0; st1] = [st0'; st1'] /\ unrecorded s' /\ producer_main_ok a st0' s' /\
    task_ok (Push 8) (PushRes closed) a st1' (task s').
Proof.
  intros Hrec Hst Hun Hm Ht.
  destruct t as [| [| t]]; [injection Hst as -> | injection Hst as -> | done]; eexists _, _; (split; [done |]); simpl in Hrec.
  - unfold producer_main_ok in Hm. destruct (main_at s) eqn:Em; simpl in Hrec; try done.
    + destruct Hm as [[[? _] | [[= ->] Hq]] Hb]; [done |]. simpl in Hrec. injection Hrec as <-. done.
    + destruct Hm as [Hq [[? _] | [[= ->] Hb]]]; [done |]. injection Hrec as <-. done.
    + destruct Hm as [Hb [[? _] | [[= ->] Hq]]]; [done |]. injection Hrec as <-. done.
    + destruct Hm as (Hq & Hb & [? | [= ->]]); [done |]. injection Hrec as <-. done.
  - unfold task_receive in Hrec. destruct (task s) eqn:Et; try done. injection Hrec as <-.
    destruct Ht as [| [[= ->] Hcl]]; [done |]. split; [done |]. split; [apply producer_main_task; [by rewrite Et | done] | done].
Qed.

Lemma producer_check_step s1 l s2 :
  producer_check_inv s1 ->
  system_step (client_step (Client0 := producer_check_client c)) (canon_step (strict contract)) s1 l s2 ->
  producer_check_inv s2.
Proof.
  intros (st0 & st1 & Hth & Hun & Hm & Ht) Hstep.
  destruct Hstep as [p p' s Ho | p s s' Hs | p p' s s' e Ho Hs]; cbn [fst snd] in *.
  - inversion Ho as [| a cs t o r a' Hst Hsp |]; subst. cbn [threads shared] in *. subst cs.
    destruct (producer_check_lin s t a o r a' st0 st1 Hst Hsp Hm Ht) as (x & y & E & H1 & H2). by exists x, y.
  - inversion Hs as [s0 t s0' Hadv | |]; subst. exists st0, st1. split; [done |]. exact (producer_check_local s t s' _ st0 st1 Hadv Hun Hm Ht).
  - inversion Ho as [a cs t o Hst | | a cs t r Hst]; subst; cbn [threads shared] in *; subst cs;
      inversion Hs as [| s0 t0 o0 s0' Hadv | s0 t0 r0 s0' Hrec]; subst.
    + destruct (producer_check_call s t o s' a st0 st1 Hadv Hst Hun Hm Ht) as (x & y & E & H1 & H2). by exists x, y.
    + destruct (producer_check_return s t r s' a st0 st1 Hrec Hst Hun Hm Ht) as (x & y & E & H1 & H2). by exists x, y.
Qed.

End proofs.

(** ** The theorem *)

(** C31: over a [BlockingQueue] of capacity 1 neither part of the close check reports
    a false failure: unless the second that it waits for the woken thread is over,
    nothing is recorded, and a part that has ended has succeeded: the consumer was
    blocked on the empty queue and the producer on the full one until [close], they
    come back with nothing and [closed], and the queued item is drained once. *)
Theorem blocking_close_check_sound c f0 q :
  BlockingQueue_new (T := Z) 1 = returns q ->
  (forall n h p s,
     exec (system_step (client_step (Client0 := consumer_check_client c)) (pool_step (ConcurrentObject0 := blocking_object (T := Z))))
       n (blocking_init q 2, check_init CAsync f0) h (p, s) ->
     late s = false -> recorded s = f0 /\ forall ok, main_at s = CDone ok -> ok = true) /\
  (forall n h p s,
     exec (system_step (client_step (Client0 := producer_check_client c)) (pool_step (ConcurrentObject0 := blocking_object (T := Z))))
       n (blocking_init q 2, check_init PSetup f0) h (p, s) ->
     late s = false -> recorded s = f0 /\ forall ok, main_at s = PDone ok -> ok = true).
Proof.
  intros Hq.
  assert (Hlin : forall n h p, exec (pool_step (ConcurrentObject0 := blocking_object (T := Z))) n (blocking_init q 2) h p ->
    linearizable (strict (blocking_spec 1)) (mkGuarded [] false) 2 h).
  { intros n h p Hp. destruct (blocking_exec_sim 1 q 2 n h p) as (j & s1 & H & _); try done. by exists j, s1. }
  split; intros n h p s Hex Hl;
    (edestruct (client_over_atomic _ (strict (blocking_spec 1)) _ (mkGuarded [] false) 2 _ _ _ _ _ _ Hex) as (j & s1 & Hex');
     [by intros i h' p' _ Hp; apply Hlin in Hp |]).
  - assert (Hinv : consumer_check_inv f0 (s1, s)).
    { eapply (exec_history_invariant _ (fun _ => consumer_check_inv f0) _ (length h)); [| | exact Hex' | done].
      - by exists Idle, Idle.
      - intros i sa l sb _. by eapply consumer_check_step. }
    destruct Hinv as (st0 & st1 & _ & _ & Hun & Hm & _). split; [by apply Hun |]. intros ok E.
    unfold consumer_main_ok in Hm. simpl in Hm. rewrite E in Hm. by apply Hm.
  - assert (Hinv : producer_check_inv f0 (s1, s)).
    { eapply (exec_history_invariant _ (fun _ => producer_check_inv f0) _ (length h)); [| | exact Hex' | done].
      - by exists Idle, Idle.
      - intros i sa l sb _. by eapply producer_check_step. }
    destruct Hinv as (st0 & st1 & _ & Hun & Hm & _). split; [by apply Hun |]. intros ok E.
    unfold producer_main_ok in Hm. simpl in Hm. rewrite E in Hm. by apply Hm.
Qed.

(** ** Witness *)

Definition one_place_int : BlockingQueue Z := mkBlocking 1 false [] false (fun _ => ∅).

(** The consumer falls asleep, is woken by [close] and comes back empty. *)
Definition consumer_check_schedule : list system_choice :=
  let inside t n := replicate n (Inside t 0) in
  [Advance 0; Advance 1] ++ inside 1%nat 2%nat ++ [Advance 2; Advance 0; Advance 0] ++ inside 0%nat 6%nat ++ [Return 0] ++
  inside 1%nat 5%nat ++ [Return 1; Advance 0].

(** The producer falls asleep on the full queue; the item is drained after [close]. *)
Definition producer_check_schedule : list system_choice :=
  let inside t n := replicate n (Inside t 0) in
  [Advance 0] ++ inside 0%nat 5%nat ++ [Return 0; Advance 0; Advance 1] ++ inside 1%nat 2%nat ++
  [Advance 2; Advance 0; Advance 0] ++ inside 0%nat 6%nat ++ [Return 0] ++ inside 1%nat 5%nat ++ [Return 1; Advance 0] ++
  [Advance 0] ++ inside 0%nat 5%nat ++ [Return 0; Advance 0] ++ inside 0%nat 4%nat ++ [Return 0].

Lemma blocking_close_check_sound_witness :
  (exists h p s,
    exec (system_step (client_step (Client0 := consumer_check_client default_config))
            (pool_step (ConcurrentObject0 := blocking_object (T := Z)))) (length consumer_check_schedule)
      (blocking_init one_place_int 2, check_init CAsync None) h (p, s) /\
    task s = TReturned (PopRes None) /\ main_at s = CDone true /\ recorded s = None) /\
  (exists h p s,
    exec (system_step (client_step (Client0 := producer_check_client default_config))
            (pool_step (ConcurrentObject0 := blocking_object (T := Z)))) (length producer_check_schedule)
      (blocking_init one_place_int 2, check_init PSetup None) h (p, s) /\
    task s = TReturned (PushRes closed) /\ main_at s = PDone true /\ recorded s = None).
Proof.
  destruct (blocking_close_check_sound default_config None one_place_int eq_refl) as [H1 H2].
  split; eexists _, _, _; (match goal with |- ?A /\ _ => assert (Hex : A) end;
    [eapply run_system_exec; vm_compute; reflexivity |]); (split; [exact Hex |]); (split; [reflexivity |]); (split; [reflexivity |]).
  - exact (proj1 (H1 _ _ _ _ Hex eq_refl)).
  - exact (proj1 (H2 _ _ _ _ Hex eq_refl)).
Defined.
