(* ===== verification/StressMulticast.v ===== *)
(** * The multicast stress run ([run_spmc_multicast] in [stress/queue_stress.cpp])

    The main thread registers one consumer handle per consumer thread, starts the
    threads, joins them and compares the metrics; the producer publishes until the
    iterations are done or the deadline passes; a consumer reads until the producer
    is done and it has read everything published.  The function is a template
    over the queue: the program here is a client of the multicast contract, and
    runs over both classes.  The random yields of the producer only add scheduling
    points and are not modelled; the clock is a flag that the environment sets
    once.

    Theorem: over both queues the run never records a failure, whatever messages
    the consumers lose, and a consumer that reported no loss has read and verified
    every publication. *)

From S2P Require Import Prelude Result FixedMessage Concurrency Clients Speculation Mutex MulticastContract.
From S2P Require Import SPMCMulticastQueue VersionedSPMCQueue VersionedConcurrent.
From S2P Require Import Bytes BenchmarkMessage CommandLine StressTester.

Record MulticastMetrics : Type := mkMetrics {
  reads : Z;
  lag_events : Z;
  last_sequence : Z;
  seen : list Z;
}.

Inductive producer_pc : Type :=
| PWait
| PLoop (sequence : Z)
| PPublish (sequence : Z) (payload : list byte)
| PPublishing (sequence : Z)
| PStoreDone
| PEnded
| PUndefined.

(** A consumer thread owns its handle; it does not exist before the main thread
    has registered the handle. *)
Inductive consumer_pc : Type :=
| KUnborn
| KWait (consumer : Consumer)
| KCheckDone (consumer : Consumer)
| KCheckPublished (consumer : Consumer)
| KCheckingPublished (consumer : Consumer)
| KRead (consumer : Consumer)
| KReading (consumer : Consumer)
| KEnded (consumer : Consumer)
| KUndefined.

Inductive main_pc : Type :=
| MRegister (index : nat)
| MRegistering (index : nat)
| MStart
| MJoin
| MPublished
| MPublishing
| MVerdict (published : Z).

Record multicast_run : Type := mkRun {
  start : bool;
  expired : bool;          (** [Clock::now() >= deadline] *)
  producer_done : bool;
  failures : FailureRecorder;
  metrics : list MulticastMetrics;
  producer : producer_pc;
  workers : list consumer_pc;
  main : main_pc;
}.

Definition set_producer (s : multicast_run) (pc : producer_pc) : multicast_run :=
  mkRun (start s) (expired s) (producer_done s) (failures s) (metrics s) pc (workers s) (main s).

Definition set_worker (s : multicast_run) (i : nat) (pc : consumer_pc) : multicast_run :=
  mkRun (start s) (expired s) (producer_done s) (failures s) (metrics s) (producer s) (<[i := pc]> (workers s)) (main s).

Definition set_main (s : multicast_run) (pc : main_pc) : multicast_run :=
  mkRun (start s) (expired s) (producer_done s) (failures s) (metrics s) (producer s) (workers s) pc.

Definition set_metrics (s : multicast_run) (i : nat) (m : MulticastMetrics) : multicast_run :=
  mkRun (start s) (expired s) (producer_done s) (failures s) (<[i := m]> (metrics s)) (producer s) (workers s) (main s).

Definition set_failures (s : multicast_run) (r : FailureRecorder) : multicast_run :=
  mkRun (start s) (expired s) (producer_done s) r (metrics s) (producer s) (workers s) (main s).

Section run.

Context (label : string) (c : Config).

Definition nconsumers : nat := Z.to_nat (consumers c).

Definition multicast_init (failures : FailureRecorder) : multicast_run :=
  mkRun false false false failures (replicate nconsumers (mkMetrics 0 0 0 [])) PWait
    (replicate nconsumers KUnborn) (MRegister 0).

Definition producer_advance (s : multicast_run) : option (option McOp * multicast_run) :=
  match producer s with
  | PWait => if start s then Some (None, set_producer s (PLoop 1)) else None
  | PLoop sequence =>
      Some (None, set_producer s
        (if (sequence <=? iterations c) && negb (expired s) then
           match make_payload c 0 sequence sequence with
           | Some payload => PPublish sequence payload
           | None => PUndefined
           end
         else PStoreDone))
  | PPublish sequence payload => Some (Some (McPublish payload), set_producer s (PPublishing sequence))
  | PStoreDone =>
      Some (None, mkRun (start s) (expired s) true (failures s) (metrics s) PEnded (workers s) (main s))
  | PPublishing _ | PEnded | PUndefined => None
  end.

(** The code after [queue.try_publish(payload)]. *)
Definition producer_receive (s : multicast_run) (sequence : Z) (r : WriteResult) : multicast_run :=
  if negb (bool_decide (w_status r = success)) || negb (w_sequence r =? sequence)
  then set_producer
         (set_failures s
            (record (failures s)
               (mkFailure label (seed c) sequence sequence (w_sequence r) 0 0
                  "publication failed or sequence mismatched"))) PStoreDone
  else set_producer s (PLoop (sequence +u 1)).

(** [while (!producer_done.load() || consumer.next_sequence() <= queue.published_sequence())] *)
Definition consumer_advance (s : multicast_run) (i : nat) : option (option McOp * multicast_run) :=
  match workers s !! i with
  | Some (KWait consumer) => if start s then Some (None, set_worker s i (KCheckDone consumer)) else None
  | Some (KCheckDone consumer) =>
      Some (None, set_worker s i (if producer_done s then KCheckPublished consumer else KRead consumer))
  | Some (KCheckPublished consumer) => Some (Some McPublished, set_worker s i (KCheckingPublished consumer))
  | Some (KRead consumer) =>
      Some (Some (McRead consumer (replicate (Z.to_nat (payload_size c)) Byte.x00)),
            set_worker s i (KReading consumer))
  | _ => None
  end.

(** The code after [consumer.try_read(payload)], which ends an iteration of the
    loop on every branch. *)
Definition consumer_receive (s : multicast_run) (i : nat) (m : MulticastMetrics) (r : ReadResult)
    (consumer : Consumer) (payload : list byte) : multicast_run :=
  let go s := set_worker s i (KCheckDone consumer) in
  let sequence := r_sequence r in
  match r_status r with
  | success =>
      if (sequence =? 0) || (iterations c <? sequence) || (sequence <=? last_sequence m) then
        go (set_failures s
              (record (failures s)
                 (mkFailure label (seed c) sequence (last_sequence m +u 1) sequence 0 0
                    "impossible or non-increasing sequence")))
      else match validate_payload label c payload 0 sequence sequence sequence (failures s) with
           | None => set_worker s i KUndefined
           | Some (false, recorded) => go (set_failures s recorded)
           | Some (true, recorded) =>
               match seen m !! Z.to_nat sequence with
               | None => set_worker s i KUndefined
               | Some _ =>
                   go (set_metrics (set_failures s recorded) i
                         (mkMetrics (reads m +u 1) (lag_events m) sequence
                            (<[Z.to_nat sequence := 1]> (seen m))))
               end
           end
  | consumer_lagged | overwritten =>
      go (set_metrics s i (mkMetrics (reads m) (lag_events m +u 1) (last_sequence m) (seen m)))
  | empty => go s
  | _ =>
      go (set_failures s
            (record (failures s)
               (mkFailure label (seed c) (reads m) 0 sequence 0 0 "unexpected consumer status")))
  end.

Definition ended (pc : consumer_pc) : bool := match pc with KEnded _ => true | _ => false end.

Definition main_advance (s : multicast_run) : option (option McOp * multicast_run) :=
  match main s with
  | MRegister index =>
      if decide (index < nconsumers)%nat
      then
        let resized := mkMetrics 0 0 0 (replicate (Z.to_nat (iterations c + 1)) 0) in
        Some (Some McRegister, set_main (set_metrics s index resized) (MRegistering index))
      else Some (None, set_main s MStart)
  | MStart =>
      Some (None, mkRun true (expired s) (producer_done s) (failures s) (metrics s) (producer s) (workers s) MJoin)
  | MJoin =>
      match producer s with
      | PEnded => if forallb ended (workers s) then Some (None, set_main s MPublished) else None
      | _ => None
      end
  | MPublished => Some (Some McPublished, set_main s MPublishing)
  | MRegistering _ | MPublishing | MVerdict _ => None
  end.

(** The handle is moved into the closure of the new thread. *)
Definition main_receive (s : multicast_run) (r : McRes) : option multicast_run :=
  match main s, r with
  | MRegistering index, McRegistered consumer =>
      Some (set_main (set_worker s index (KWait (move_construct consumer).1)) (MRegister (S index)))
  | MPublishing, McPublishedIs n => Some (set_main s (MVerdict n))
  | _, _ => None
  end.

Definition clock_advance (s : multicast_run) : option (option McOp * multicast_run) :=
  Some (None, mkRun (start s) true (producer_done s) (failures s) (metrics s) (producer s) (workers s) (main s)).

(** Thread 0 is the producer, then the consumers, the main thread and the clock. *)
Definition multicast_advance (s : multicast_run) (t : nat) : option (option McOp * multicast_run) :=
  match t with
  | O => producer_advance s
  | S i =>
      if decide (i < nconsumers)%nat then consumer_advance s i
      else if decide (i = nconsumers) then main_advance s
      else clock_advance s
  end.

Definition worker_receive (s : multicast_run) (i : nat) (r : McRes) : option multicast_run :=
  match workers s !! i, r with
  | Some (KCheckingPublished consumer), McPublishedIs n =>
      Some (set_worker s i (if next_sequence consumer <=? n then KRead consumer else KEnded consumer))
  | Some (KReading _), McReadDone r consumer payload =>
      m ← metrics s !! i; Some (consumer_receive s i m r consumer payload)
  | _, _ => None
  end.

Definition multicast_receive (s : multicast_run) (t : nat) (r : McRes) : option multicast_run :=
  match t with
  | O => match producer s, r with
         | PPublishing sequence, McWritten r => Some (producer_receive s sequence r)
         | _, _ => None
         end
  | S i => if decide (i < nconsumers)%nat then worker_receive s i r else main_receive s r
  end.

#[local] Instance multicast_client : Client McOp McRes multicast_run := {|
  advance := multicast_advance; receive := multicast_receive;
|}.

(** ** The verdict *)

(** [observed]: some consumer has seen the sequence. *)
Fixpoint observed (ms : list MulticastMetrics) (sequence : Z) : option bool :=
  match ms with
  | [] => Some false
  | m :: ms => x ← seen m !! Z.to_nat sequence; y ← observed ms sequence; Some (negb (x =? 0) || y)
  end.

(** The loop over [1 .. published]. *)
Fixpoint count_unique (ms : list MulticastMetrics) (sequences : list Z) : option Z :=
  match sequences with
  | [] => Some 0
  | sequence :: sequences =>
      b ← observed ms sequence; n ← count_unique ms sequences; Some ((if b : bool then 1 else 0) +u n)
  end.

Record multicast_report : Type := mkReport {
  rep_published : Z;
  rep_aggregate_reads : Z;
  rep_unique : Z;
  rep_lag_events : Z;
  rep_passed : bool;
}.

(** [None]: an index past the end of [seen]. *)
Definition multicast_verdict (s : multicast_run) (published : Z) : option multicast_report :=
  unique ← count_unique (metrics s) (seqZ 1 published);
  Some (mkReport published (foldl (fun n m => n +u reads m) 0 (metrics s)) unique
          (foldl (fun n m => n +u lag_events m) 0 (metrics s)) (negb (failed (failures s)))).

End run.

#[export] Existing Instance multicast_client.

(** ** The run over the contract *)

Section proofs.

Context (label : string) (c : Config) (f0 : FailureRecorder) (lossy : bool).
Hypothesis Hc : config_ok c.

Abbreviation thread_status := (status McOp McRes).

Definition image (i : Z) : list byte := expected_payload c 0 i i.

Lemma image_made i : make_payload c 0 i i = Some (image i) /\ span_size (image i) = payload_size c.
Proof using Hc. exact (expected_payload_made c Hc 0 i i). Qed.

Lemma image_copied i : std_copy (image i) (read_buffer c) = image i.
Proof using Hc. exact (copy_to_read_buffer c Hc 0 i i). Qed.

Lemma image_valid i operation failures :
  validate_payload label c (image i) 0 i i operation failures = Some (true, failures).
Proof using Hc. exact (expected_payload_valid c Hc label 0 i i operation failures). Qed.

#[local] Opaque image.

(** The log when [n] messages have been published. *)
Definition image_log (n : Z) : log := image <$> seqZ 1 n.

Lemma image_log_size n : 0 <= n -> span_size (image_log n) = n.
Proof. intros H. unfold span_size, image_log. rewrite length_fmap, length_seqZ. lia. Qed.

Lemma image_log_snoc n : 0 <= n -> image_log (n + 1) = image_log n ++ [image (n + 1)].
Proof.
  intros H. unfold image_log. rewrite seqZ_snoc, fmap_app by done. by rewrite (Z.add_comm 1 n).
Qed.

Lemma image_log_lookup n i payload :
  1 <= i <= n -> image_log n !! Z.to_nat (i - 1) = Some payload -> payload = image i.
Proof.
  intros Hi H. unfold image_log in H. apply list_lookup_fmap_Some in H as (j & -> & Hj).
  apply lookup_seqZ in Hj as [-> _]. apply (f_equal image). lia.
Qed.

Definition handle_ok (n : Z) (h : Consumer) : Prop := queue_ h = true /\ 1 <= next_sequence_ h <= n + 1.

(** What a consumer has recorded when its cursor is [next] and [L] calls were
    made in all: only messages before the cursor, and all of them unless a loss
    was reported. *)
Record metrics_ok (L next : Z) (m : MulticastMetrics) : Prop := {
  mo_last : 0 <= last_sequence m < next;
  mo_reads : 0 <= reads m <= last_sequence m;
  mo_lags : 0 <= lag_events m <= L;
  mo_size : length (seen m) = Z.to_nat (iterations c + 1);
  mo_none : lag_events m = 0 -> reads m = next - 1;
  mo_complete : lag_events m = 0 -> forall i, 1 <= i < next -> seen m !! Z.to_nat i = Some 1;
}.

(** What a read can have returned. *)
Inductive read_result (n : Z) (h : Consumer) : ReadResult -> Consumer -> list byte -> Prop :=
| result_delivery h' :
    next_sequence_ h <= n -> queue_ h' = true -> next_sequence_ h' = next_sequence_ h + 1 ->
    read_result n h (mkRead success (payload_size c) (next_sequence_ h)) h' (image (next_sequence_ h))
| result_loss r h' d :
    reports_loss r -> queue_ h' = true -> next_sequence_ h <= next_sequence_ h' <= n + 1 ->
    read_result n h r h' d
| result_empty r h' d :
    r_status r = empty -> queue_ h' = true -> next_sequence_ h' = next_sequence_ h ->
    read_result n h r h' d.

Definition producer_ok (n : Z) (st : thread_status) (pc : producer_pc) : Prop :=
  match pc with
  | PWait => st = Idle /\ n = 0
  | PLoop sequence => st = Idle /\ sequence = n + 1
  | PPublish sequence payload => st = Idle /\ sequence = n + 1 /\ payload = image sequence /\ n + 1 <= iterations c
  | PPublishing sequence =>
      match st with
      | Called o => o = McPublish (image sequence) /\ sequence = n + 1 /\ n + 1 <= iterations c
      | Finished (McWritten r) => r = mkWrite success n /\ sequence = n
      | _ => False
      end
  | PStoreDone | PEnded => st = Idle
  | PUndefined => False
  end.

Definition consumer_ok (L n : Z) (done : bool) (st : thread_status) (m : MulticastMetrics) (pc : consumer_pc) : Prop :=
  match pc with
  | KUnborn => st = Idle
  | KWait h | KCheckDone h | KRead h => st = Idle /\ handle_ok n h /\ metrics_ok L (next_sequence_ h) m
  | KCheckPublished h => st = Idle /\ handle_ok n h /\ metrics_ok L (next_sequence_ h) m /\ done = true
  | KCheckingPublished h =>
      handle_ok n h /\ metrics_ok L (next_sequence_ h) m /\ done = true /\
      match st with
      | Called o => o = McPublished
      | Finished (McPublishedIs k) => k = n
      | _ => False
      end
  | KReading h =>
      handle_ok n h /\ metrics_ok L (next_sequence_ h) m /\
      match st with
      | Called o => o = McRead h (read_buffer c)
      | Finished (McReadDone r h' d) => read_result n h r h' d
      | _ => False
      end
  | KEnded h => st = Idle /\ metrics_ok L (next_sequence_ h) m /\ next_sequence_ h = n + 1 /\ done = true
  | KUndefined => False
  end.

Definition unborn_from (s : multicast_run) (index : nat) : Prop :=
  forall j pc, (index <= j)%nat -> workers s !! j = Some pc -> pc = KUnborn.

Definition all_ended (s : multicast_run) : Prop := producer s = PEnded /\ Forall (fun pc => ended pc = true) (workers s).

Definition main_ok (n : Z) (st : thread_status) (s : multicast_run) : Prop :=
  match main s with
  | MRegister index => st = Idle /\ start s = false /\ unborn_from s index
  | MRegistering index =>
      (index < nconsumers c)%nat /\ start s = false /\ unborn_from s index /\
      metrics s !! index = Some (mkMetrics 0 0 0 (replicate (Z.to_nat (iterations c + 1)) 0)) /\
      match st with
      | Called o => o = McRegister
      | Finished (McRegistered h) => h = Consumer_new 1
      | _ => False
      end
  | MStart => st = Idle /\ start s = false
  | MJoin => st = Idle
  | MPublished => st = Idle /\ all_ended s
  | MPublishing =>
      all_ended s /\
      match st with
      | Called o => o = McPublished
      | Finished (McPublishedIs k) => k = n
      | _ => False
      end
  | MVerdict k => st = Idle /\ all_ended s /\ k = n
  end.

Definition thread_ok (L n : Z) (s : multicast_run) (t : nat) (st : thread_status) : Prop :=
  match t with
  | O => producer_ok n st (producer s)
  | S i =>
      if decide (i < nconsumers c)%nat
      then forall pc m, workers s !! i = Some pc -> metrics s !! i = Some m ->
             consumer_ok L n (producer_done s) st m pc
      else if decide (i = nconsumers c) then main_ok n st s else st = Idle
  end.

Record globals_ok (n : Z) (s : multicast_run) : Prop := {
  go_range : 0 <= n <= iterations c;
  go_start : start s = false -> n = 0 /\ producer s = PWait;
  go_done : producer_done s = true <-> producer s = PEnded;
  go_failures : failures s = f0;
  go_workers : length (workers s) = nconsumers c;
  go_metrics : length (metrics s) = nconsumers c;
}.

Record run_inv (L n : Z) (cs : list thread_status) (s : multicast_run) : Prop := {
  ri_length : length cs = S (S (nconsumers c));
  ri_globals : globals_ok n s;
  ri_threads : forall t st, cs !! t = Some st -> thread_ok L n s t st;
}.

(** A step of one thread that the others do not notice. *)
Lemma run_inv_update L n cs s t st' :
  length cs = S (S (nconsumers c)) -> globals_ok n s -> thread_ok L n s t st' ->
  (forall t' st, t' <> t -> cs !! t' = Some st -> thread_ok L n s t' st) ->
  run_inv L n (<[t := st']> cs) s.
Proof.
  intros Hl Hg Ht Ho. split; [by rewrite length_insert | done |]. intros t' st H.
  apply list_lookup_insert_Some in H as [(-> & <- & _) | [Hne H]]; [done | by apply Ho].
Qed.

(** The thread's own status does not change either. *)
Lemma run_inv_local L n cs s t :
  length cs = S (S (nconsumers c)) -> globals_ok n s ->
  (forall st, cs !! t = Some st -> thread_ok L n s t st) ->
  (forall t' st, t' <> t -> cs !! t' = Some st -> thread_ok L n s t' st) ->
  run_inv L n cs s.
Proof.
  intros Hl Hg Ht Ho. split; [done | done |]. intros t' st H. destruct (decide (t' = t)) as [-> |]; auto.
Qed.

(** *** Frames *)

Lemma handle_ok_mono n n' h : n <= n' -> handle_ok n h -> handle_ok n' h.
Proof. intros H [? ?]. split; [done | lia]. Qed.

Lemma metrics_ok_mono L L' next m : L <= L' -> metrics_ok L next m -> metrics_ok L' next m.
Proof. intros H []. split; try done; lia. Qed.

Lemma read_result_mono n n' h r h' d : n <= n' -> read_result n h r h' d -> read_result n' h r h' d.
Proof. intros H []; [apply result_delivery | apply result_loss | apply result_empty]; try done; lia. Qed.

(** More calls and, before the producer is done, more publications. *)
Lemma consumer_ok_mono L L' n n' done done' st m pc :
  L <= L' -> n <= n' -> (done = true -> done' = true /\ n' = n) ->
  consumer_ok L n done st m pc -> consumer_ok L' n' done' st m pc.
Proof.
  intros HL Hn Hd. pose proof (fun h => handle_ok_mono n n' h Hn). pose proof (metrics_ok_mono L L').
  destruct pc; simpl; try done; intros; destruct_and?; split_and?; auto.
  - tauto.
  - tauto.
  - destruct st as [| | []]; try done. destruct (Hd ltac:(assumption)). congruence.
  - destruct st as [| | []]; try done. by eapply read_result_mono.
  - destruct (Hd ltac:(assumption)). lia.
  - tauto.
Qed.

Lemma thread_ok_mono L L' n s t st : L <= L' -> thread_ok L n s t st -> thread_ok L' n s t st.
Proof.
  intros HL. destruct t as [| i]; simpl; [done |]. case_decide; [| done].
  intros Hok pc m Hpc Hm. eapply consumer_ok_mono; [exact HL | done | | by apply Hok]. done.
Qed.

Lemma main_joining n st s : start s = true -> producer s <> PEnded -> main_ok n st s -> main s = MJoin /\ st = Idle.
Proof.
  unfold main_ok, all_ended. intros Hs Hp H. destruct (main s); destruct_and?; try done; congruence.
Qed.

Lemma frame_producer L n n' s s' t st :
  t <> 0%nat -> start s = true -> producer s <> PEnded ->
  workers s' = workers s -> metrics s' = metrics s -> main s' = main s ->
  n <= n' -> (producer_done s = true -> producer_done s' = true /\ n' = n) ->
  thread_ok L n s t st -> thread_ok L n' s' t st.
Proof.
  intros Ht Hs Hp Ew Em Emain Hn Hd. destruct t as [| i]; [done |]. simpl. rewrite Ew, Em.
  case_decide; [| case_decide; [| done]].
  - intros Hok pc m Hpc Hm. eapply consumer_ok_mono; [| exact Hn | exact Hd | by apply Hok]. done.
  - intros Hok%main_joining; [| done | done]. unfold main_ok. rewrite Emain. by destruct Hok as [-> ?].
Qed.

Lemma frame_worker L n s s' i p0 t st :
  t <> S i -> workers s !! i = Some p0 -> p0 <> KUnborn -> ended p0 = false ->
  start s' = start s -> producer_done s' = producer_done s -> producer s' = producer s -> main s' = main s ->
  (forall j, j <> i -> workers s' !! j = workers s !! j /\ metrics s' !! j = metrics s !! j) ->
  thread_ok L n s t st -> thread_ok L n s' t st.
Proof.
  intros Ht Hi Hu He Es Ed Ep Em Hj. destruct t as [| j]; simpl; [by rewrite Ep |].
  rewrite Ed. case_decide; [| case_decide; [| done]].
  - destruct (Hj j ltac:(congruence)) as [-> ->]. done.
  - assert (Hun : forall index, unborn_from s index -> unborn_from s' index /\ (i < index)%nat).
    { intros index Hun. destruct (decide (i < index)%nat) as [Hlt | Hge].
      - split; [| done]. intros k pc Hk. rewrite (proj1 (Hj k ltac:(lia))). by apply Hun.
      - destruct Hu. apply (Hun i); [lia | done]. }
    assert (Hae : ~ all_ended s).
    { intros [_ Hall]. apply (Forall_lookup_1 _ _ _ _ Hall) in Hi. congruence. }
    unfold main_ok. rewrite Em, Es. destruct (main s) as [k | k | | | | | k]; intros Hok; destruct_and?; try done.
    + destruct (Hun k); [done |]. done.
    + destruct (Hun k); [done |]. rewrite (proj2 (Hj k ltac:(lia))). done.
Qed.

(** *** Linearization points *)

Lemma oldest_of_log n : 0 <= n -> oldest (capacity c) (image_log n) <= n + 1.
Proof using Hc.
  intros H. rewrite <- (image_log_size n H) at 2. apply oldest_le. pose proof (co_capacity c Hc). lia.
Qed.

Lemma read_lin n h cs r h' d l' :
  0 <= n -> handle_ok n h ->
  mc_spec max_payload_size (capacity c) lossy cs (image_log n) (McRead h (read_buffer c)) (McReadDone r h' d) l' ->
  read_result n h r h' d.
Proof using Hc.
  intros Hn [Hq Hr] Hs. assert (Hcap : 0 < capacity c) by (pose proof (co_capacity c Hc); lia).
  destruct (mc_spec_read_outcome _ _ Hcap _ _ _ _ _ _ _ _ _ Hs Hq) as [Hq' Ho].
  { by rewrite image_log_size. }
  inversion Ho as [payload H1 H2 H3 | r0 next' H1 H2 H3 | r0 H1]; subst; rewrite ?image_log_size in * by done.
  - apply image_log_lookup in H2 as ->; [| pose proof (oldest_pos _ Hcap (image_log n)); lia].
    rewrite (proj2 (image_made _)), image_copied. apply result_delivery; [lia | done | done].
  - by apply result_loss.
  - destruct H1 as [[H1 _] | [H1 H2]]; [by apply result_empty |]. exfalso.
    inversion Hs as [| | | ? ? ? ? ? ? H | ? ? ? ? ? ? _ _ _ _ H]; subst.
    + unfold mc_read in H. rewrite Hq in H. simpl in H. rewrite image_log_size in H by done.
      rewrite (proj2 (Z.ltb_ge n _)) in H by lia. destruct (_ <? oldest _ _); [by simplify_eq |].
      rewrite deliver_success in H; [by simplify_eq |].
      rewrite (read_buffer_size c Hc). unfold entry. cbn [snd].
      destruct (image_log n !! _) as [payload |] eqn:E; simpl.
      * apply image_log_lookup in E as ->; [| lia]. by rewrite (proj2 (image_made _)).
      * apply lookup_ge_None in E. unfold image_log in E. rewrite length_fmap, length_seqZ in E. lia.
    + unfold mc_lost in H. by simplify_eq.
Qed.

Lemma publish_lin n cs payload r l' :
  0 <= n -> payload = image (n + 1) ->
  mc_spec max_payload_size (capacity c) lossy cs (image_log n) (McPublish payload) r l' ->
  r = McWritten (mkWrite success (n + 1)) /\ l' = image_log (n + 1).
Proof using Hc.
  intros Hn -> Hs. inversion Hs as [? ? ? ? H | | | |]; subst. unfold mc_publish in H.
  rewrite (proj2 (image_made _)), image_log_size, (proj2 (Z.ltb_ge _ _)) in H
    by (done || apply (co_payload c Hc)).
  rewrite image_log_snoc by done. by injection H as <- <-.
Qed.

Lemma worker_exists n s i :
  globals_ok n s -> (i < nconsumers c)%nat -> exists pc m, workers s !! i = Some pc /\ metrics s !! i = Some m.
Proof.
  intros Hg Hi. destruct (lookup_lt_is_Some_2 (workers s) i) as [pc Hpc]; [by rewrite (go_workers n s Hg) |].
  destruct (lookup_lt_is_Some_2 (metrics s) i) as [m Hm]; [by rewrite (go_metrics n s Hg) |]. eauto.
Qed.

Lemma producer_active n s : globals_ok n s -> producer s <> PWait -> start s = true.
Proof. intros Hg H. destruct (start s) eqn:E; [done |]. by destruct (go_start n s Hg E). Qed.

Lemma producer_not_done n s : globals_ok n s -> producer s <> PEnded -> producer_done s = false.
Proof. intros Hg H. destruct (producer_done s) eqn:E; [| done]. by apply (go_done n s Hg) in E. Qed.

Lemma inv_lin L n cs cs' s t o r l' :
  run_inv L n cs s -> cs !! t = Some (Called o) ->
  mc_spec max_payload_size (capacity c) lossy cs' (image_log n) o r l' ->
  exists n', l' = image_log n' /\ run_inv L n' (<[t := Finished r]> cs) s.
Proof using Hc.
  intros [Hl Hg Ht] Hcs Hs. pose proof (go_range n s Hg) as Hn. pose proof (Ht _ _ Hcs) as Hok.
  destruct t as [| i]; simpl in Hok.
  - unfold producer_ok in Hok. destruct (producer s) eqn:Ep; try (by destruct_and?); try done.
    destruct Hok as (-> & -> & Hle). destruct (publish_lin n cs' _ r l' (proj1 Hn) eq_refl Hs) as [-> ->].
    assert (Hst : start s = true) by (apply (producer_active n); [done | by rewrite Ep]).
    assert (Hd : producer_done s = false) by (apply (producer_not_done n); [done | by rewrite Ep]).
    exists (n + 1). split; [done |]. apply run_inv_update; [done | | |].
    + destruct Hg. split; try done; [lia | by rewrite Hst].
    + simpl. unfold producer_ok. by rewrite Ep.
    + intros t' st Hne Hst'. apply (frame_producer L n (n + 1) s s); [done | done | by rewrite Ep | done.. | lia | by rewrite Hd | by apply Ht].
  - exists n. assert (Hother : forall t' st, t' <> S i -> cs !! t' = Some st -> thread_ok L n s t' st) by auto.
    case_decide as Hi; [| case_decide as Hi'; [| done]].
    + destruct (worker_exists n s i Hg Hi) as (pc & m & Hpc & Hm). specialize (Hok pc m Hpc Hm).
      assert (Hgoal : l' = image_log n /\ consumer_ok L n (producer_done s) (Finished r) m pc).
      { destruct pc; simpl in Hok; try (by destruct_and?); try done; destruct_and?; subst o.
        - inversion Hs; subst. split; [done |]. simpl. rewrite image_log_size by lia. done.
        - destruct (mc_spec_read_shape _ _ _ _ _ _ _ _ _ Hs) as (-> & r0 & h' & d & ->). split; [done |]. simpl.
          split_and!; try done. apply (read_lin n _ cs' r0 h' d (image_log n)); [lia | done | exact Hs]. }
      destruct Hgoal as [-> Hgoal]. split; [done |]. apply run_inv_update; [done | done | | done].
      simpl. rewrite decide_True by done. intros pc' m' Hpc' Hm'. by simplify_eq.
    + assert (Hgoal : l' = image_log n /\ main_ok n (Finished r) s).
      { unfold main_ok in *. destruct (main s) eqn:Em; destruct_and?; try done; subst o; inversion Hs; subst.
        - destruct (go_start n s Hg) as [-> _]; [done |]. split_and!; done.
        - rewrite image_log_size by lia. split_and!; done. }
      destruct Hgoal as [-> Hgoal]. split; [done |]. apply run_inv_update; [done | done | | done].
      simpl. rewrite decide_False, decide_True by done. done.
Qed.

(** *** Steps of the client *)

Lemma consumer_ok_idle L n done st m pc :
  (forall h, pc <> KCheckingPublished h /\ pc <> KReading h) -> consumer_ok L n done st m pc -> st = Idle.
Proof. intros Hp H. destruct pc as [| h | h | h | h | h | h | h |]; simpl in H; destruct_and?; try done; by destruct (Hp h). Qed.

(** The conclusion of every client step: thread [t] of status [st] called [o], or
    nothing. *)
Definition stepped (L n : Z) (cs : list thread_status) (t : nat) (o : option McOp) (s' : multicast_run) : Prop :=
  match o with
  | None => run_inv L n cs s'
  | Some o => cs !! t = Some Idle -> run_inv L n (<[t := Called o]> cs) s'
  end.

(** A step of a client thread, its status becoming [st']. *)
Lemma stepped_intro L n cs s t o s' :
  globals_ok n s' ->
  (forall st, cs !! t = Some st -> (o <> None -> st = Idle) ->
     thread_ok L n s' t (match o with None => st | Some o => Called o end)) ->
  (forall t' st, t' <> t -> cs !! t' = Some st -> thread_ok L n s t' st -> thread_ok L n s' t' st) ->
  run_inv L n cs s -> stepped L n cs t o s'.
Proof.
  intros Hg Hown Hother [Hl _ Ht]. destruct o as [o |]; simpl.
  - intros Hi. apply run_inv_update; [done | done | by apply (Hown Idle) |]. intros t' st Hne Hst. auto.
  - apply run_inv_local with (t := t); [done | done | |]; intros; [by apply Hown | by auto].
Qed.

Lemma multicast_producer_step L n cs s o s' :
  run_inv L n cs s -> producer_advance c s = Some (o, s') -> stepped L n cs 0 o s'.
Proof using Hc.
  intros Hinv Hadv. pose proof (ri_globals _ _ _ _ Hinv) as Hg. pose proof (ri_threads _ _ _ _ Hinv 0%nat) as Hp.
  simpl in Hp. pose proof (producer_active n s Hg) as Hact. pose proof (producer_not_done n s Hg) as Hnd.
  assert (Hframe : forall s', producer s <> PEnded -> start s = true -> start s' = start s -> workers s' = workers s ->
    metrics s' = metrics s -> main s' = main s -> forall t' st, t' <> 0%nat -> cs !! t' = Some st ->
    thread_ok L n s t' st -> thread_ok L n s' t' st).
  { intros s1 H1 H2 _ Ew Em Ema t' st Hne _. apply (frame_producer L n n s s1); try done. by rewrite (Hnd H1). }
  unfold producer_advance in Hadv. destruct (producer s) as [| q | q pl | q | | |] eqn:Ep; try done; simplify_eq.
  - destruct (start s) eqn:Es; simplify_eq. apply stepped_intro with s; [| | by apply Hframe | done].
    + destruct Hg. split; try done; simpl; [by rewrite Es | by rewrite (Hnd ltac:(done))].
    + intros st Hst _. destruct (Hp st Hst) as [-> ->]. done.
  - apply stepped_intro with s; [| | apply Hframe; try done; by apply Hact | done].
    + destruct Hg. split; try done; simpl; [by rewrite Hact | rewrite (Hnd ltac:(done))].
      destruct (_ && _); [destruct (make_payload _ _ _ _) |]; done.
    + intros st Hst _. destruct (Hp st Hst) as [-> ->]. simpl.
      destruct (Z.leb_spec (n + 1) (iterations c)), (expired s); simpl; try done.
      by rewrite (proj1 (image_made (n + 1))).
  - apply stepped_intro with s; [| | apply Hframe; try done; by apply Hact | done].
    + destruct Hg. split; try done; simpl; [by rewrite Hact | by rewrite (Hnd ltac:(done))].
    + intros st Hst _. destruct (Hp st Hst) as (-> & -> & -> & Hle). done.
  - apply stepped_intro with s; [| | apply Hframe; try done; by apply Hact | done].
    + destruct Hg. split; try done; simpl. by rewrite Hact.
    + intros st Hst _. by apply Hp in Hst.
Qed.

(** Worker [i] moves from [p0] to [pc], with new metrics [m]. *)
Record worker_moves (s s' : multicast_run) (i : nat) (pc : consumer_pc) (m : MulticastMetrics) : Prop := {
  wm_start : start s' = start s;
  wm_done : producer_done s' = producer_done s;
  wm_failures : failures s' = failures s;
  wm_producer : producer s' = producer s;
  wm_main : main s' = main s;
  wm_workers : workers s' = <[i := pc]> (workers s);
  wm_metrics : metrics s' = <[i := m]> (metrics s);
}.

Lemma set_worker_moves s i pc m : metrics s !! i = Some m -> worker_moves s (set_worker s i pc) i pc m.
Proof. intros H. split; try done. simpl. by rewrite list_insert_id. Qed.

Lemma worker_globals n s s' i pc m : worker_moves s s' i pc m -> globals_ok n s -> globals_ok n s'.
Proof. intros [E1 E2 E3 E4 E5 E6 E7] []. split; rewrite ?E1, ?E2, ?E3, ?E4, ?E6, ?E7, ?length_insert; done. Qed.

Lemma worker_frame L n s s' i p0 pc m t st :
  worker_moves s s' i pc m -> workers s !! i = Some p0 -> p0 <> KUnborn -> ended p0 = false ->
  t <> S i -> thread_ok L n s t st -> thread_ok L n s' t st.
Proof.
  intros [E1 E2 E3 E4 E5 E6 E7] Hi Hu He Hne. eapply frame_worker; try done.
  intros j Hj. rewrite E6, E7, !list_lookup_insert_ne by done. done.
Qed.

Lemma worker_own L n s s' i pc m st :
  worker_moves s s' i pc m -> (i < nconsumers c)%nat ->
  consumer_ok L n (producer_done s) st m pc -> globals_ok n s -> thread_ok L n s' (S i) st.
Proof.
  intros [E1 E2 E3 E4 E5 E6 E7] Hi Hok Hg. simpl. rewrite decide_True by done.
  rewrite E2, E6, E7, !list_lookup_insert_eq by (rewrite ?(go_workers n s Hg), ?(go_metrics n s Hg); done).
  by intros pc' m' [= <-] [= <-].
Qed.

Lemma worker_step L n cs s i o s' :
  (i < nconsumers c)%nat -> run_inv L n cs s -> consumer_advance c s i = Some (o, s') -> stepped L n cs (S i) o s'.
Proof.
  intros Hi Hinv Hadv. pose proof (ri_globals _ _ _ _ Hinv) as Hg.
  destruct (worker_exists n s i Hg Hi) as (p0 & m & Hp0 & Hm).
  assert (Hok : forall st, cs !! S i = Some st -> consumer_ok L n (producer_done s) st m p0).
  { intros st Hst. pose proof (ri_threads _ _ _ _ Hinv _ _ Hst) as H. simpl in H. rewrite decide_True in H by done. by apply H. }
  assert (Hmv : forall pc, p0 <> KUnborn -> ended p0 = false ->
    (forall st, consumer_ok L n (producer_done s) st m p0 -> (o <> None -> st = Idle) ->
      consumer_ok L n (producer_done s) (match o with None => st | Some o => Called o end) m pc) ->
    stepped L n cs (S i) o (set_worker s i pc)).
  { intros pc Hu He Hown. pose proof (set_worker_moves s i pc m Hm) as Hmv.
    apply stepped_intro with s; [by eapply worker_globals | | | done].
    - intros st Hst Hidle. eapply worker_own; [done | done | | done]. auto.
    - intros t' st Hne _. by eapply worker_frame. }
  unfold consumer_advance in Hadv. rewrite Hp0 in Hadv.
  destruct p0 as [| h | h | h | h | h | h | h |]; try done; simplify_eq.
  - destruct (start s); simplify_eq. by apply Hmv.
  - apply Hmv; [done | done |]. intros st (-> & H1 & H2) _. by destruct (producer_done s).
  - apply Hmv; [done | done |]. intros st (-> & H1 & H2 & H3) _. done.
  - apply Hmv; [done | done |]. intros st (-> & H1 & H2) _. done.
Qed.

Lemma fresh_metrics L : 0 <= L -> metrics_ok L 1 (mkMetrics 0 0 0 (replicate (Z.to_nat (iterations c + 1)) 0)).
Proof. intros HL. split; simpl; try lia. by rewrite length_replicate. Qed.

Lemma multicast_main_step L n cs s o s' :
  run_inv L n cs s -> main_advance c s = Some (o, s') -> stepped L n cs (S (nconsumers c)) o s'.
Proof.
  intros Hinv Hadv. pose proof (ri_globals _ _ _ _ Hinv) as Hg.
  assert (Hok : forall st, cs !! S (nconsumers c) = Some st -> main_ok n st s).
  { intros st Hst. pose proof (ri_threads _ _ _ _ Hinv _ _ Hst) as H. simpl in H.
    rewrite decide_False, decide_True in H by lia. done. }
  assert (Hown : forall s' st, main_ok n st s' -> thread_ok L n s' (S (nconsumers c)) st).
  { intros s1 st H. simpl. by rewrite decide_False, decide_True by lia. }
  assert (Hframe : forall s', producer s' = producer s -> producer_done s' = producer_done s ->
    workers s' = workers s -> (forall j m', metrics s' !! j = Some m' -> metrics s !! j = Some m' \/ workers s !! j = Some KUnborn) ->
    forall t' st, t' <> S (nconsumers c) -> cs !! t' = Some st -> thread_ok L n s t' st -> thread_ok L n s' t' st).
  { intros s1 Ep Ed Ew Em t' st Hne _. destruct t' as [| i]; simpl; [by rewrite Ep |].
    rewrite Ed, Ew. case_decide; [| by case_decide; [congruence |]]. intros H1 pc m' Hpc Hm'.
    destruct (Em i m' Hm') as [Hm | Hun]; [by apply H1 |].
    destruct (worker_exists n s i Hg) as (pc0 & m0 & Hpc0 & Hm0); [done |].
    specialize (H1 _ _ Hun Hm0). rewrite Hun in Hpc. injection Hpc as <-. done. }
  unfold main_advance in Hadv. destruct (main s) as [k | k | | | | | k] eqn:Em; try done.
  - destruct (decide (k < nconsumers c)%nat) as [Hk | Hk]; simplify_eq.
    + apply stepped_intro with s; [| | | done].
      * destruct Hg. split; simpl; rewrite ?length_insert; done.
      * intros st Hst Hidle. apply Hown. specialize (Hok st Hst). unfold main_ok in *. rewrite Em in Hok.
        destruct Hok as (_ & Hs & Hun). simpl.
        rewrite list_lookup_insert_eq by (by rewrite (go_metrics n s Hg)). done.
      * intros t' st Hne Hst Hold. revert t' st Hne Hst Hold. apply Hframe; try done. simpl. intros j m' Hj.
        apply list_lookup_insert_Some in Hj as [(<- & <- & _) | [_ Hj]]; [right | by left].
        destruct (worker_exists n s k Hg Hk) as (pc & m & Hpc & _). rewrite Hpc. f_equal.
        destruct (lookup_lt_is_Some_2 cs (S (nconsumers c))) as [st Hst]; [rewrite (ri_length _ _ _ _ Hinv); lia |].
        specialize (Hok st Hst). unfold main_ok in Hok. rewrite Em in Hok.
        destruct Hok as (_ & _ & Hun). by apply (Hun k pc).
    + apply stepped_intro with s; [| | | done].
      * by destruct Hg.
      * intros st Hst _. apply Hown. specialize (Hok st Hst). unfold main_ok in *. rewrite Em in Hok.
        by destruct Hok as (-> & Hs & _).
      * apply Hframe; auto.
  - simplify_eq. apply stepped_intro with s; [| | | done].
    + destruct Hg. by split.
    + intros st Hst _. apply Hown. specialize (Hok st Hst). unfold main_ok in *. rewrite Em in Hok.
      by destruct Hok.
    + apply Hframe; auto.
  - destruct (producer s) eqn:Ep; try done. destruct (forallb ended (workers s)) eqn:Ee; simplify_eq.
    apply stepped_intro with s; [| | | done].
    + by destruct Hg; split.
    + intros st Hst _. apply Hown. specialize (Hok st Hst). unfold main_ok in *. rewrite Em in Hok.
      subst st. split; [done |]. split; [done |]. apply List.Forall_forall. by apply forallb_forall.
    + apply Hframe; auto.
  - simplify_eq. apply stepped_intro with s; [| | | done].
    + by destruct Hg.
    + intros st Hst _. apply Hown. specialize (Hok st Hst). unfold main_ok in *. rewrite Em in Hok.
      by destruct Hok.
    + apply Hframe; auto.
Qed.

Lemma clock_step L n cs s o s' t :
  run_inv L n cs s -> clock_advance s = Some (o, s') -> stepped L n cs t o s'.
Proof.
  intros [Hl Hg Ht] Hadv. unfold clock_advance in Hadv. simplify_eq. split; [done | by destruct Hg |].
  intros t' st Hst. specialize (Ht t' st Hst). destruct t' as [| i]; [done |]. exact Ht.
Qed.

Lemma client_steps L n cs s t o s' :
  run_inv L n cs s -> multicast_advance c s t = Some (o, s') -> stepped L n cs t o s'.
Proof using Hc.
  intros Hinv Hadv. destruct t as [| i]; simpl in Hadv; [by eapply multicast_producer_step |].
  case_decide as Hi; [by eapply worker_step |].
  case_decide as Hi'; [subst i; by eapply multicast_main_step | by eapply clock_step].
Qed.

(** *** Returns *)

Lemma delivery_metrics L next m n :
  1 <= next <= n -> n <= iterations c -> metrics_ok L next m ->
  metrics_ok L (next + 1)
    (mkMetrics (reads m +u 1) (lag_events m) next (<[Z.to_nat next := 1]> (seen m))).
Proof using Hc.
  intros Hn Hi [H1 H2 H3 H4 H5 H6]. pose proof (co_iterations c Hc).
  assert (u64_modulus = 2 ^ 64) as Hm by done.
  rewrite u64_small by lia. split; simpl; try lia.
  - by rewrite length_insert.
  - intros Hl i Hr. destruct (decide (i = next)) as [-> | Hne].
    + apply list_lookup_insert_eq. lia.
    + rewrite list_lookup_insert_ne by lia. apply H6; [done | lia].
Qed.

Lemma loss_metrics L next next' m :
  next <= next' -> L + 1 < u64_modulus -> metrics_ok L next m ->
  metrics_ok (L + 1) next' (mkMetrics (reads m) (lag_events m +u 1) (last_sequence m) (seen m)).
Proof.
  intros Hn HL [H1 H2 H3 H4 H5 H6]. rewrite u64_small by lia. split; simpl; try done; lia.
Qed.

Lemma read_return L n s i m r h h' d :
  globals_ok n s -> L + 1 < u64_modulus ->
  handle_ok n h -> metrics_ok L (next_sequence_ h) m -> metrics s !! i = Some m -> read_result n h r h' d ->
  exists m', worker_moves s (consumer_receive label c s i m r h' d) i (KCheckDone h') m' /\
    handle_ok n h' /\ metrics_ok (L + 1) (next_sequence_ h') m'.
Proof using Hc.
  intros Hg HL [Hq Hn] Hm Hi Hr. pose proof (go_range n s Hg) as Hni. unfold consumer_receive.
  destruct Hr as [h' Hle Hq' Hnext | r h' d Hloss Hq' Hnext | r h' d He Hq' Hnext]; cbn [r_status r_sequence].
  - pose proof (mo_last _ _ _ Hm) as Hlast. pose proof (mo_size _ _ _ Hm) as Hsz.
    rewrite (proj2 (Z.eqb_neq _ _)), (proj2 (Z.ltb_ge _ _)), (proj2 (Z.leb_gt _ _)) by lia. cbn [orb].
    rewrite image_valid. destruct (lookup_lt_is_Some_2 (seen m) (Z.to_nat (next_sequence_ h))) as [x ->]; [lia |].
    eexists. split; [by split |]. split; [split; [done | lia] |]. rewrite Hnext.
    eapply metrics_ok_mono, (delivery_metrics L _ m n); [lia | lia | lia | done].
  - eexists (mkMetrics (reads m) (lag_events m +u 1) (last_sequence m) (seen m)).
    split; [destruct Hloss as [-> | ->]; by split |]. split; [split; [done | lia] |].
    eapply loss_metrics; [| done | exact Hm]. lia.
  - rewrite He. exists m. split; [by apply set_worker_moves |]. rewrite Hnext.
    split; [split; [done | lia] |]. eapply metrics_ok_mono; [| exact Hm]. lia.
Qed.

Lemma producer_return L n cs s r s' :
  run_inv L n cs s -> cs !! 0%nat = Some (Finished r) -> multicast_receive label c s 0 r = Some s' ->
  run_inv L n (<[0%nat := Idle]> cs) s'.
Proof using Hc.
  intros [Hl Hg Ht] Hst Hrec. pose proof (Ht _ _ Hst) as Hok. simpl in Hok, Hrec. unfold producer_ok in Hok.
  destruct (producer s) as [| q | q pl | q | | |] eqn:Ep; try done. destruct r as [r | | |]; try done.
  destruct Hok as [-> ->]. injection Hrec as <-. unfold producer_receive. cbn [w_status w_sequence].
  rewrite bool_decide_true, Z.eqb_refl by done. cbn [negb orb].
  assert (Hs : start s = true) by (apply (producer_active n); [done | by rewrite Ep]).
  assert (Hd : producer_done s = false) by (apply (producer_not_done n); [done | by rewrite Ep]).
  pose proof (go_range n s Hg). pose proof (co_iterations c Hc). assert (u64_modulus = 2 ^ 64) as Hm by done.
  rewrite u64_small by lia. apply run_inv_update; [done | | done |].
  - destruct Hg. split; try done; simpl; [by rewrite Hs | by rewrite Hd].
  - intros t' st Hne Hst'. apply (frame_producer L n n s); try done; [by rewrite Ep | by apply Ht].
Qed.

Lemma worker_return L n cs s i r s' :
  (i < nconsumers c)%nat -> L + 1 < u64_modulus -> run_inv L n cs s -> cs !! S i = Some (Finished r) ->
  worker_receive label c s i r = Some s' -> run_inv (L + 1) n (<[S i := Idle]> cs) s'.
Proof using Hc.
  intros Hi HL [Hl Hg Ht] Hst Hrec. pose proof (Ht _ _ Hst) as Hok. simpl in Hok. rewrite decide_True in Hok by done.
  destruct (worker_exists n s i Hg Hi) as (p0 & m & Hp0 & Hm). specialize (Hok p0 m Hp0 Hm).
  assert (Hgo : forall pc m', worker_moves s s' i pc m' -> p0 <> KUnborn -> ended p0 = false ->
    consumer_ok (L + 1) n (producer_done s) Idle m' pc -> run_inv (L + 1) n (<[S i := Idle]> cs) s').
  { intros pc m' Hmv Hu He Hnew. apply run_inv_update; [done | by eapply worker_globals | by eapply worker_own |].
    intros t' st Hne Hst'. eapply worker_frame; [exact Hmv | done.. |].
    apply (thread_ok_mono L); [lia | by apply Ht]. }
  unfold worker_receive in Hrec. rewrite Hp0 in Hrec.
  destruct p0 as [| h | h | h | h | h | h | h |]; try done; destruct r as [| | r h' d | k]; try done; simpl in Hok.
  - destruct Hok as (Hh & Hmet & Hd & ->). injection Hrec as <-. apply (metrics_ok_mono L (L + 1)) in Hmet; [| lia].
    eapply Hgo; [by apply set_worker_moves | done | done |]. unfold next_sequence.
    destruct (Z.leb_spec (next_sequence_ h) n) as [Hle | Hgt]; simpl; [done |].
    split_and!; try done. destruct Hh. lia.
  - destruct Hok as (Hh & Hmet & Hr). rewrite Hm in Hrec. injection Hrec as <-.
    destruct (read_return L n s i m r h h' d) as (m' & Hmv & Hh' & Hm'); try done. by eapply Hgo.
Qed.

Lemma main_return L n cs s r s' :
  0 <= L -> run_inv L n cs s -> cs !! S (nconsumers c) = Some (Finished r) ->
  main_receive s r = Some s' -> run_inv L n (<[S (nconsumers c) := Idle]> cs) s'.
Proof.
  intros HL [Hl Hg Ht] Hst Hrec. pose proof (Ht _ _ Hst) as Hok. simpl in Hok.
  rewrite decide_False, decide_True in Hok by lia. unfold main_ok in Hok. unfold main_receive in Hrec.
  destruct (main s) as [| k | | | | | k] eqn:Em; try done; destruct r as [| h | | n']; try done; injection Hrec as <-.
  - destruct Hok as (Hk & Hs & Hun & Hmet & ->).
    assert (Hlen : (k < length (workers s))%nat) by (by rewrite (go_workers n s Hg)).
    destruct (worker_exists n s k Hg Hk) as (pc & m & Hpc & Hm). pose proof (Hun k pc ltac:(lia) Hpc) as ->.
    destruct (go_start n s Hg Hs) as [Hn _].
    apply run_inv_update; [done | destruct Hg; split; simpl; rewrite ?length_insert; done | |].
    + simpl. rewrite decide_False, decide_True by lia. unfold main_ok. simpl. split_and!; try done.
      intros j pc Hj. simpl. rewrite list_lookup_insert_ne by lia. apply Hun. lia.
    + intros t' st Hne Hst'. specialize (Ht t' st Hst'). destruct t' as [| j]; simpl in *; [done |].
      case_decide; [| by case_decide; [congruence |]]. intros pc m' Hpc' Hm'.
      apply list_lookup_insert_Some in Hpc' as [(<- & <- & _) | [Hne' Hpc']]; [| by apply Ht].
      specialize (Ht _ _ Hpc Hm). simpl in Ht. subst st. rewrite Hmet in Hm'. injection Hm' as <-.
      split; [done |]. split; [split; simpl; [done | lia] |]. by apply fresh_metrics.
  - destruct Hok as [Hae ->]. apply run_inv_update; [done | by destruct Hg | |].
    + simpl. rewrite decide_False, decide_True by lia. done.
    + intros t' st Hne Hst'. specialize (Ht t' st Hst'). destruct t' as [| j]; simpl in *; [done |].
      by case_decide; [| case_decide; [congruence |]].
Qed.

Lemma run_returns L n cs s t r s' :
  0 <= L -> L + 1 < u64_modulus -> run_inv L n cs s -> cs !! t = Some (Finished r) ->
  multicast_receive label c s t r = Some s' -> run_inv (L + 1) n (<[t := Idle]> cs) s'.
Proof using Hc.
  intros H0 HL Hinv Hst Hrec.
  assert (Hmono : forall cs s, run_inv L n cs s -> run_inv (L + 1) n cs s).
  { intros cs1 s1 [H1 H2 H3]. split; [done | done |]. intros t' st Ht'. apply (thread_ok_mono L); [lia | auto]. }
  destruct t as [| i]; [by eapply Hmono, producer_return |]. simpl in Hrec. case_decide as Hi.
  - by eapply worker_return.
  - pose proof (lookup_lt_Some _ _ _ Hst) as Hlt. rewrite (ri_length _ _ _ _ Hinv) in Hlt.
    assert (i = nconsumers c) as -> by lia. by eapply Hmono, main_return.
Qed.

(** *** Executions *)

Context (spec : list thread_status -> log -> McOp -> McRes -> log -> Prop).
Hypothesis Hspec : forall cs l o r l', spec cs l o r l' ->
  exists cs', mc_spec max_payload_size (capacity c) lossy cs' l o r l'.

Definition system_inv (L : nat) (s : pool log thread_status * multicast_run) : Prop :=
  exists n, shared s.1 = image_log n /\ run_inv (Z.of_nat L) n (threads s.1) s.2.

Lemma run_inv_mono L L' n cs s : L <= L' -> run_inv L n cs s -> run_inv L' n cs s.
Proof.
  intros HL [H1 H2 H3]. split; [done | done |]. intros t st Ht. apply (thread_ok_mono L); [done | auto].
Qed.

Lemma system_inv_step m s1 l s2 :
  Z.of_nat (m + length (trace_of l)) < u64_modulus -> system_inv m s1 ->
  system_step (client_step (Client0 := multicast_client label c)) (canon_step spec) s1 l s2 ->
  system_inv (m + length (trace_of l)) s2.
Proof using Hc Hspec.
  intros HL (n & Hlog & Hinv) Hstep.
  destruct Hstep as [p p' s Ho | p s s' Hs | p p' s s' e Ho Hs]; simpl in Hlog, Hinv, HL |- *.
  - rewrite Nat.add_0_r. inversion Ho as [| a cs t o r a' Hst Hsp |]; subst; simpl in *. subst a.
    destruct (Hspec _ _ _ _ _ Hsp) as [cs' Hsp'].
    destruct (inv_lin _ n cs cs' s t o r a' Hinv Hst Hsp') as (n' & -> & Hinv'). by exists n'.
  - rewrite Nat.add_0_r. inversion Hs as [s0 t s0' Hadv | |]; subst.
    exists n. split; [done |]. exact (client_steps _ n _ s t None s' Hinv Hadv).
  - inversion Ho as [a cs t o Hst | | a cs t r Hst]; subst; simpl in *; subst a;
      inversion Hs as [| s0 t0 o0 s0' Hadv | s0 t0 r0 s0' Hrec]; subst; exists n; (split; [done |]); simpl.
    + eapply (run_inv_mono (Z.of_nat m)); [lia |]. exact (client_steps _ n _ s t (Some o) s' Hinv Hadv Hst).
    + rewrite Nat2Z.inj_add. by eapply run_returns; [lia | lia | | |].
Qed.

Lemma system_inv_init : system_inv 0 (mkPool [] (replicate (S (S (nconsumers c))) Idle), multicast_init c f0).
Proof using Hc.
  exists 0. split; [done |]. cbn [fst snd threads]. split.
  - by rewrite length_replicate.
  - pose proof (co_iterations c Hc). split; simpl; try done; [lia | by rewrite length_replicate | by rewrite length_replicate].
  - intros t st [-> _]%lookup_replicate. destruct t as [| i]; simpl; [done |].
    case_decide; [| case_decide; [| done]].
    + intros pc m [-> _]%lookup_replicate _. done.
    + unfold main_ok. simpl. split_and!; try done. intros j pc _ [-> _]%lookup_replicate. done.
Qed.

End proofs.

(** ** The verdict *)

Section verdict.

Context (c : Config).

(** Metrics a consumer can have when [n] messages were published. *)
Definition joined (n : Z) (m : MulticastMetrics) : Prop := exists L, metrics_ok c L (n + 1) m.

Lemma observed_defined n ms i :
  Forall (joined n) ms -> 1 <= i <= n -> n <= iterations c -> exists b, observed ms i = Some b.
Proof.
  intros H Hi Hn. induction H as [| m ms [L Hm] _ [b IH]]; simpl; [eauto |].
  pose proof (mo_size _ _ _ _ Hm).
  destruct (lookup_lt_is_Some_2 (seen m) (Z.to_nat i)) as [x ->]; [lia |]. simpl. rewrite IH. simpl. eauto.
Qed.

Lemma observed_complete n ms m i b :
  m ∈ ms -> joined n m -> lag_events m = 0 -> 1 <= i <= n -> observed ms i = Some b -> b = true.
Proof.
  intros Hin [L Hm] Hl Hi. pose proof (mo_complete _ _ _ _ Hm Hl i ltac:(lia)) as Hs. clear Hm Hl.
  revert b Hin. induction ms as [| m' ms IH]; intros b Hin Hb; [by apply not_elem_of_nil in Hin |]. simpl in Hb.
  destruct (seen m' !! Z.to_nat i) as [x |] eqn:Ex; [| done]. simpl in Hb.
  destruct (observed ms i) as [y |]; [| done]. injection Hb as <-.
  apply elem_of_cons in Hin as [-> | Hin].
  - rewrite Hs in Ex. by injection Ex as <-.
  - rewrite (IH y Hin eq_refl). apply orb_true_r.
Qed.

Lemma count_unique_bounds n ms sqs :
  Forall (joined n) ms -> n <= iterations c -> Forall (fun i => 1 <= i <= n) sqs ->
  Z.of_nat (length sqs) < u64_modulus ->
  exists u, count_unique ms sqs = Some u /\ 0 <= u <= Z.of_nat (length sqs) /\
    (forall m, m ∈ ms -> lag_events m = 0 -> u = Z.of_nat (length sqs)).
Proof.
  intros Hms Hn His. induction His as [| i sqs Hi His IH]; intros Hlen; simpl.
  { exists 0. split_and!; try done; lia. }
  simpl in Hlen. destruct IH as (u & -> & Hu & Hall); [lia |].
  destruct (observed_defined n ms i Hms Hi Hn) as [b Hb]. rewrite Hb. simpl. eexists. split; [done |].
  rewrite u64_small by (destruct b; lia). split; [destruct b; lia |].
  intros m Hin Hl. rewrite (Hall m Hin Hl).
  rewrite (observed_complete n ms m i b Hin (proj1 (Forall_forall _ _) Hms m Hin) Hl Hi Hb). lia.
Qed.

Lemma aggregate_bounds n ms acc :
  Forall (joined n) ms -> 0 <= acc -> acc + n * Z.of_nat (length ms) < u64_modulus ->
  acc <= foldl (fun a m => a +u reads m) acc ms <= acc + n * Z.of_nat (length ms) /\
  (Forall (fun m => lag_events m = 0) ms ->
   foldl (fun a m => a +u reads m) acc ms = acc + n * Z.of_nat (length ms)).
Proof.
  intros H. revert acc. induction H as [| m ms [L Hm] _ IH]; intros acc Hacc Hb; simpl; [split; intros; lia |].
  pose proof (mo_last _ _ _ _ Hm). pose proof (mo_reads _ _ _ _ Hm). pose proof (mo_none _ _ _ _ Hm).
  cbn [length] in Hb. rewrite u64_small by nia.
  destruct (IH (acc + reads m)) as [IH1 IH2]; [lia | nia |]. split; [nia |].
  intros Hl. inversion_clear Hl. rewrite IH2 by done. nia.
Qed.

(** What a run promises about its state. *)
Record multicast_sound (f0 : FailureRecorder) (s : multicast_run) : Prop := {
  ms_failures : failures s = f0;
  ms_producer : producer s <> PUndefined;
  ms_workers : KUndefined ∉ workers s;
  (** at the end: the report, in which a consumer without a reported loss has
      read everything *)
  ms_verdict : forall published, main s = MVerdict published ->
    exists unique reads_total lag_total,
      multicast_verdict s published =
        Some (mkReport published reads_total unique lag_total (negb (failed f0))) /\
      0 <= unique <= published /\ published <= iterations c /\
      0 <= reads_total <= published * consumers c /\
      (forall m, m ∈ metrics s -> reads m <= published /\
         (lag_events m = 0 -> reads m = published /\ unique = published)) /\
      (Forall (fun m => lag_events m = 0) (metrics s) -> reads_total = published * consumers c);
}.

Lemma run_inv_sound f0 L n cs s : config_ok c -> run_inv c f0 L n cs s -> multicast_sound f0 s.
Proof.
  intros Hc [Hl Hg Ht]. pose proof (go_range _ _ _ _ Hg) as Hn.
  assert (Hw : forall i pc m, workers s !! i = Some pc -> metrics s !! i = Some m ->
    exists st, consumer_ok c L n (producer_done s) st m pc).
  { intros i pc m Hpc Hm. assert (i < nconsumers c)%nat
      by (rewrite <- (go_workers _ _ _ _ Hg); by eapply lookup_lt_Some).
    destruct (lookup_lt_is_Some_2 cs (S i)) as [st Hst]; [lia |]. exists st.
    specialize (Ht _ _ Hst). simpl in Ht. rewrite decide_True in Ht by done. by apply Ht. }
  split; [apply Hg | | |].
  - destruct (lookup_lt_is_Some_2 cs 0) as [st Hst]; [lia |]. specialize (Ht _ _ Hst). simpl in Ht.
    intros E. by rewrite E in Ht.
  - intros (i & Hi)%list_elem_of_lookup. pose proof (lookup_lt_Some _ _ _ Hi) as Hlt.
    rewrite (go_workers _ _ _ _ Hg) in Hlt.
    destruct (worker_exists c f0 n s i Hg Hlt) as (pc & m & Hpc & Hm). simplify_eq.
    by destruct (Hw _ _ _ Hi Hm).
  - intros k Hk. destruct (lookup_lt_is_Some_2 cs (S (nconsumers c))) as [st Hst]; [lia |].
    specialize (Ht _ _ Hst). simpl in Ht. rewrite decide_False, decide_True in Ht by lia.
    unfold main_ok in Ht. rewrite Hk in Ht. destruct Ht as (_ & [_ Hend] & ->).
    assert (Hj : Forall (joined n) (metrics s)).
    { apply Forall_lookup. intros i m Hm. pose proof (lookup_lt_Some _ _ _ Hm) as Hlt.
      rewrite (go_metrics _ _ _ _ Hg) in Hlt.
      destruct (worker_exists c f0 n s i Hg Hlt) as (pc & m' & Hpc & Hm'). rewrite Hm in Hm'. injection Hm' as <-.
      destruct (Hw _ _ _ Hpc Hm) as [st' Hok]. apply (Forall_lookup_1 _ _ _ _ Hend) in Hpc.
      destruct pc; try done. simpl in Hok. destruct Hok as (_ & Hmet & E & _). exists L. by rewrite <- E. }
    pose proof (co_iterations c Hc) as Hi. pose proof (co_consumers c Hc) as Hcons.
    assert (u64_modulus = 2 ^ 64) as Hm64 by done.
    assert (Hlen : Z.of_nat (length (metrics s)) = consumers c)
      by (rewrite (go_metrics _ _ _ _ Hg); unfold nconsumers; lia).
    destruct (count_unique_bounds n (metrics s) (seqZ 1 n) Hj) as (u & Hu & Hb & Hall); [lia | | |].
    { apply Forall_forall. intros i ?%elem_of_seqZ. lia. }
    { rewrite length_seqZ. lia. }
    rewrite length_seqZ, Z2Nat.id in Hb, Hall by lia.
    destruct (aggregate_bounds n (metrics s) 0 Hj) as [Ha Heq]; [done | nia |]. rewrite Hlen, Z.add_0_l in *.
    eexists u, _, _. unfold multicast_verdict. rewrite Hu. simpl. rewrite (go_failures _ _ _ _ Hg).
    split; [done |]. split_and!; try lia; [| done].
    intros m Hin. destruct (proj1 (Forall_forall _ _) Hj m Hin) as [L' Hm].
    pose proof (mo_last _ _ _ _ Hm). pose proof (mo_reads _ _ _ _ Hm). split; [lia |].
    intros Hl0. pose proof (mo_none _ _ _ _ Hm Hl0). split; [lia | by apply (Hall m)].
Qed.

End verdict.

(** ** Theorems *)

Lemma contract_run_sound label c f0 lossy spec m h p s :
  config_ok c -> Z.of_nat (length h) + 1 < u64_modulus ->
  (forall cs l o r l', spec cs l o r l' ->
     exists cs', mc_spec max_payload_size (capacity c) lossy cs' l o r l') ->
  exec (system_step (client_step (Client0 := multicast_client label c)) (canon_step spec)) m
    (mkPool [] (replicate (S (S (nconsumers c))) Idle), multicast_init c f0) h (p, s) ->
  multicast_sound c f0 s.
Proof.
  intros Hc Hb Hspec Hex.
  assert (Hinv : system_inv c f0 (length h) (p, s)).
  { eapply (exec_history_invariant _ (system_inv c f0) _ (length h)); [by apply system_inv_init | | exact Hex | done].
    intros i s1 l s2 Hi. eapply system_inv_step; [done | exact Hspec | lia]. }
  destruct Hinv as (n & _ & Hinv). by eapply run_inv_sound.
Qed.

(** C32: for an accepted configuration the multicast stress run over
    [SPMCMulticastQueue] and over [VersionedSPMCQueue] reports no false failure:
    whatever messages are lost, no state of the threads ever has a failure
    recorded, [seen] is never indexed out of range, and the final report passes,
    with at most as many unique messages as were published and, when a consumer
    reported no loss, all of them, read by that consumer. *)
Theorem stress_multicast_run_sound args c f0 n h s :
  parse_config args = Value c -> Z.of_nat n + 1 < u64_modulus ->
  (forall q p, SPMCMulticastQueue_new max_payload_size (capacity c) = returns q ->
     exec (system_step (client_step (Client0 := multicast_client "spmc" c))
             (pool_step (ConcurrentObject0 := lock_object (mc_early max_payload_size) (mc_body max_payload_size)))) n
       (lock_init q (S (S (nconsumers c))), multicast_init c f0) h (p, s) ->
     multicast_sound c f0 s) /\
  (forall q p, VersionedSPMCQueue_new max_payload_size (capacity c) = returns q ->
     exec (system_step (client_step (Client0 := multicast_client "versioned_spmc" c))
             (pool_step (ConcurrentObject0 := versioned_object max_payload_size))) n
       (versioned_init q (S (nconsumers c)), multicast_init c f0) h (p, s) ->
     multicast_sound c f0 s).
Proof.
  intros Hc%parse_config_ok Hn. assert (Hcap : 0 < capacity c < u64_modulus).
  { pose proof (co_capacity c Hc). split; [lia |]. apply (u64_bound _ u32_max); [lia | done]. }
  split; intros q p Hq Hex; pose proof (exec_history_length _ _ _ _ _ Hex) as Hlen.
  - edestruct (client_over_atomic _ (strict (mc_spec max_payload_size (capacity c) false [])) _ []
      (S (S (nconsumers c))) _ _ _ _ _ _ Hex) as (j & s1 & Hex').
    { intros i h' p' Hi Hp.
      destruct (mc_exec_sim max_payload_size (capacity c) Hcap ltac:(done) q (S (S (nconsumers c))) i h' p' Hq) as (j & s1 & H & _);
        [unfold mc_bounded; lia | exact Hp | by exists j, s1]. }
    eapply (contract_run_sound _ c f0 false _ j h s1 s); [done | lia | | exact Hex']. intros cs l o r l' H. by exists [].
  - edestruct (client_over_atomic _ (mc_spec max_payload_size (capacity c) true) _ []
      (S (S (nconsumers c))) _ _ _ _ _ _ Hex) as (j & s1 & Hex').
    { intros i h' p' Hi Hp.
      destruct (versioned_exec_sim max_payload_size (capacity c) Hcap ltac:(done) q (S (nconsumers c)) i h' p' Hq) as (j & s1 & H & _);
        [unfold versioned_bounded; lia | exact Hp |]. by eapply speculation_sound. }
    eapply (contract_run_sound _ c f0 true _ j h s1 s); [done | lia | | exact Hex']. intros cs l o r l' H. by exists cs.
Qed.

(** ** Witnesses *)

Definition sample_args : list string :=
  ["--queue"; "spmc"; "--producers"; "1"; "--consumers"; "1"; "--capacity"; "1"; "--payload-size"; "32"; "--iterations"; "2"].

Definition sample_config : Config := mkConfig 0x4f52424954515545 250 2 "spmc" 1 1 32 1 false.

Definition inside (t n : nat) : list system_choice := replicate n (Inside t 0).

(** A call of [k] steps and its return. *)
Definition whole_call (t k : nat) : list system_choice := [Advance t] ++ inside t k ++ [Return t].

(** One slot and two messages: the consumer reads once between the publications
    and once after them.  [pub], [reg], [rd] and [cnt] are the lengths of the
    operations of the queue. *)
Definition two_messages (pub reg rd cnt : nat) : list system_choice :=
  whole_call 2 reg ++ [Advance 2; Advance 2; Advance 0; Advance 1] ++
  [Advance 0] ++ whole_call 0 pub ++ [Advance 1] ++ whole_call 1 rd ++
  [Advance 0] ++ whole_call 0 pub ++ [Advance 0; Advance 0; Advance 1] ++ whole_call 1 cnt ++
  whole_call 1 rd ++ [Advance 1] ++ whole_call 1 cnt ++ [Advance 2] ++ whole_call 2 cnt.
Definition one_slot : SPMCMulticastQueue := mkMulticast 1 [fresh_message 256] 0.

Definition one_cell : VersionedSPMCQueue := mkVersioned 1 [fresh_cell 256] 0 0.

Lemma stress_multicast_run_sound_witness :
  (exists h p s,
    exec (system_step (client_step (Client0 := multicast_client "spmc" sample_config))
            (pool_step (ConcurrentObject0 := lock_object (mc_early 256) (mc_body 256)))) (length (two_messages 4 4 4 4))
      (lock_init one_slot 3, multicast_init sample_config None) h (p, s) /\
    main s = MVerdict 2 /\ multicast_sound sample_config None s) /\
  (exists h p s,
    exec (system_step (client_step (Client0 := multicast_client "versioned_spmc" sample_config))
            (pool_step (ConcurrentObject0 := versioned_object 256))) (length (two_messages 41 1 263 1))
      (versioned_init one_cell 2, multicast_init sample_config None) h (p, s) /\
    main s = MVerdict 2 /\ multicast_sound sample_config None s).
Proof.
  split; eexists _, _, _.
  - match goal with |- ?A /\ _ => assert (Hex : A) end.
    { apply (run_system_exec (ConcurrentObject0 := lock_object (mc_early 256) (mc_body 256))
        (Client0 := multicast_client "spmc" sample_config)). vm_compute. reflexivity. }
    split; [exact Hex |]. split; [reflexivity |].
    exact (proj1 (stress_multicast_run_sound sample_args sample_config None (length (two_messages 4 4 4 4)) _ _
      ltac:(vm_compute; reflexivity) ltac:(vm_compute; reflexivity)) one_slot _ eq_refl Hex).
  - match goal with |- ?A /\ _ => assert (Hex : A) end.
    { apply (run_system_exec (ConcurrentObject0 := versioned_object 256)
        (Client0 := multicast_client "versioned_spmc" sample_config)). vm_compute. reflexivity. }
    split; [exact Hex |]. split; [reflexivity |].
    exact (proj2 (stress_multicast_run_sound sample_args sample_config None (length (two_messages 41 1 263 1)) _ _
      ltac:(vm_compute; reflexivity) ltac:(vm_compute; reflexivity)) one_cell _ eq_refl Hex).
Defined.
