(* ===== verification/Views.v ===== *)
(** * Views of a weak memory

    What a thread or a message knows of a memory in which loads may return old
    values: for each atomic variable the place in its history up to which it has
    been seen, for each plain variable the writes and the reads.  Views are ordered
    and joined pointwise.  A plain access does not race when the thread's view knows
    every earlier conflicting access ([covers]).  [WeakMemory] uses views for whole
    programs, [ReleaseAcquire] for the queues. *)

From stdpp Require Import gmap.
From S2P Require Import Prelude.

Inductive memory_order : Type := relaxed | acquire | release.

Definition update {X Y} `{!EqDecision X} (f : X -> Y) (x : X) (y : Y) : X -> Y :=
  fun x' => if decide (x' = x) then y else f x'.

Lemma update_same {X Y} `{!EqDecision X} (f : X -> Y) x y : update f x y x = y.
Proof. unfold update. by rewrite decide_True. Qed.

Lemma update_other {X Y} `{!EqDecision X} (f : X -> Y) x y x' : x' <> x -> update f x y x' = f x'.
Proof. intros H. unfold update. by rewrite decide_False. Qed.

Section views.

Context {A N : Type} `{!EqDecision A} `{!EqDecision N}.

(** ** Views *)

Record view : Type := mkView {
  v_at : A -> nat;         (** timestamps seen *)
  v_wr : N -> nat;         (** number of writes seen *)
  v_rd : N -> gset nat;    (** reads seen *)
}.

Definition view_zero : view := mkView (fun _ => 0%nat) (fun _ => 0%nat) (fun _ => ∅).

Definition view_join (V W : view) : view :=
  mkView (fun l => Nat.max (v_at V l) (v_at W l)) (fun l => Nat.max (v_wr V l) (v_wr W l))
    (fun l => v_rd V l ∪ v_rd W l).

Record view_le (V W : view) : Prop := {
  vle_at : forall l, (v_at V l <= v_at W l)%nat;
  vle_wr : forall l, (v_wr V l <= v_wr W l)%nat;
  vle_rd : forall l, v_rd V l ⊆ v_rd W l;
}.

#[export] Instance view_le_preorder : PreOrder view_le.
Proof.
  split.
  - intros V. split; intros l; done.
  - intros U V W [H1 H2 H3] [H1' H2' H3']. split; intros l; [etrans; eauto | etrans; eauto |].
    specialize (H3 l). specialize (H3' l). set_solver.
Qed.

Lemma view_join_l V W : view_le V (view_join V W).
Proof. split; intros l; simpl; [lia | lia | set_solver]. Qed.

Lemma view_join_r V W : view_le W (view_join V W).
Proof. split; intros l; simpl; [lia | lia | set_solver]. Qed.

Lemma view_join_lub U V W : view_le U W -> view_le V W -> view_le (view_join U V) W.
Proof.
  intros [H1 H2 H3] [K1 K2 K3]. split; intros l; simpl.
  - specialize (H1 l). specialize (K1 l). lia.
  - specialize (H2 l). specialize (K2 l). lia.
  - specialize (H3 l). specialize (K3 l). set_solver.
Qed.

Lemma view_join_mono U V U' V' : view_le U U' -> view_le V V' -> view_le (view_join U V) (view_join U' V').
Proof.
  intros H1 H2. apply view_join_lub; (etrans; [eassumption |]); [apply view_join_l | apply view_join_r].
Qed.

Definition see (V : view) (l : A) (t : nat) : view := mkView (update (v_at V) l t) (v_wr V) (v_rd V).

Definition see_write (V : view) (x : N) (n : nat) : view := mkView (v_at V) (update (v_wr V) x n) (v_rd V).

Definition see_read (V : view) (x : N) (i : nat) : view :=
  mkView (v_at V) (v_wr V) (update (v_rd V) x (v_rd V x ∪ {[ i ]})).

(** ** Messages and plain variables *)

Record message (X : Type) : Type := mkMessage { m_value : X; m_view : view }.

#[global] Arguments mkMessage {X}.
#[global] Arguments m_value {X}.
#[global] Arguments m_view {X}.

(** A plain variable: its value, and how many writes and reads there were. *)
Record plain (X : Type) : Type := mkPlain { c_value : X; c_writes : nat; c_reads : nat }.

#[global] Arguments mkPlain {X}.
#[global] Arguments c_value {X}.
#[global] Arguments c_writes {X}.
#[global] Arguments c_reads {X}.

(** The view knows every access to the variable. *)
Definition knows_all {X} (V : view) (x : N) (c : plain X) : bool :=
  bool_decide (v_wr V x = c_writes c) && bool_decide (Forall (fun i => i ∈ v_rd V x) (seq 0 (c_reads c))).

(** ** Knowing every access *)

(** The view knows every access to [x], so that a plain access does not race. *)
Definition covers {X} (V : view) (x : N) (c : plain X) : Prop :=
  v_wr V x = c_writes c /\ forall i, (i < c_reads c)%nat -> i ∈ v_rd V x.

Lemma covers_knows_all {X} V x (c : plain X) : covers V x c -> knows_all V x c = true.
Proof.
  intros [H1 H2]. unfold knows_all. rewrite !bool_decide_true; [done | | done].
  apply Forall_forall. intros i [_ Hi]%elem_of_seq. by apply H2.
Qed.

Lemma covers_le {X} V W x (c : plain X) : view_le V W -> (v_wr W x <= c_writes c)%nat -> covers V x c -> covers W x c.
Proof.
  intros [_ Hw Hr] Hb [H1 H2]. split; [specialize (Hw x); lia |]. intros i Hi. apply (Hr x). by apply H2.
Qed.

Lemma covers_see_read {X} V x (c : plain X) :
  covers V x c -> covers (see_read V x (c_reads c)) x (mkPlain (c_value c) (c_writes c) (S (c_reads c))).
Proof.
  intros [H1 H2]. split; [done |]. simpl. intros i Hi. rewrite update_same. apply elem_of_union.
  destruct (decide (i = c_reads c)) as [-> |]; [right; set_solver | left; apply H2; lia].
Qed.

Lemma covers_see_write {X} V x (v : X) (c : plain X) :
  covers V x c -> covers (see_write V x (S (c_writes c))) x (mkPlain v (S (c_writes c)) (c_reads c)).
Proof. intros [H1 H2]. split; [simpl; by rewrite update_same | done]. Qed.

Lemma covers_see_other_read {X} V x y i (c : plain X) : y <> x -> covers V x c -> covers (see_read V y i) x c.
Proof. intros Hn [H1 H2]. split; [done |]. simpl. by rewrite update_other by done. Qed.

Lemma covers_see_other_write {X} V x y n (c : plain X) : y <> x -> covers V x c -> covers (see_write V y n) x c.
Proof. intros Hn [H1 H2]. split; [simpl; by rewrite update_other by done | done]. Qed.

Lemma view_le_see_read V x i : view_le V (see_read V x i).
Proof.
  split; intros l; simpl; [done | done |]. unfold update. case_decide; [subst; set_solver | done].
Qed.

Lemma view_le_see V l t : (v_at V l <= t)%nat -> view_le V (see V l t).
Proof. intros H. split; intros l'; simpl; [| done | done]. unfold update. case_decide; [by subst | done]. Qed.

Lemma see_read_mono V W x i : view_le V W -> view_le (see_read V x i) (see_read W x i).
Proof.
  intros [H1 H2 H3]. split; [done | done |]. intros y. simpl. unfold update. case_decide; [| done].
  subst. specialize (H3 x). set_solver.
Qed.

Lemma see_write_mono V W x n : view_le V W -> view_le (see_write V x n) (see_write W x n).
Proof.
  intros [H1 H2 H3]. split; [done | | done]. intros y. simpl. unfold update. by case_decide.
Qed.

End views.

Arguments view : clear implicits.
Arguments message : clear implicits.
