(* ===== verification/ReleaseAcquire.v ===== *)
(** * Release/acquire memory for the queues

    The memory [SPSCQueue], [VersionedSPMCQueue] and [MPMCQueue] run on: every atomic
    variable has the list of the messages stored in it, in modification order; a load
    may return any message that is not older than what the thread has seen; loads and
    stores have the memory order of the code; fences turn the orders of earlier loads
    and later stores up.  Plain variables detect races as in [Views].

    A thread has three views: what it knows ([cur]), what it will know after an
    acquire fence ([acq]), and what it knew at its last release fence ([rel]).  A
    release store puts [cur] into the message, a relaxed store only [rel]; an acquire
    load joins the view of the message to [cur], a relaxed load only to [acq].

    In the queues a new message is always the newest one: a counter has one writer, a
    position is only changed by exchanges, which extend the newest message, and the
    sequence of a cell is only stored by the thread that holds the cell.  A store by a
    thread that has not seen the newest message would be something else; it has no
    outcome here but a fault ([store] returns [None]), and the clients prove that it
    does not happen. *)

From stdpp Require Import gmap.
From S2P Require Import Prelude Views.

Section memory.

(** Atomic and plain variables, and their values. *)
Context {A N X Y : Type} `{!EqDecision A} `{!EqDecision N}.

Abbreviation view := (view A N).
Abbreviation message := (message A N X).

Record memory : Type := mkMemory {
  hist : A -> list message;
  plains : N -> plain Y;
}.

Record thread_view : Type := mkTV { cur : view; acq : view; rel : view }.

Definition new_thread : thread_view := mkTV view_zero view_zero view_zero.

(** ** Accesses *)

Definition at_place (l : A) (k : nat) : view := see view_zero l k.

Definition read_view (o : memory_order) (l : A) (k : nat) (m : message) (T : thread_view) : thread_view :=
  let seen := view_join (cur T) (at_place l k) in
  mkTV (match o with acquire => view_join seen (m_view m) | _ => seen end)
    (view_join (view_join (acq T) (at_place l k)) (m_view m)) (rel T).

(** The possible outcomes of a load: any message not older than [cur]. *)
Definition load (M : memory) (o : memory_order) (l : A) (T : thread_view) : list (X * thread_view) :=
  imap (fun i m => (m_value m, read_view o l (v_at (cur T) l + i) m T)) (drop (v_at (cur T) l) (hist M l)).

Definition write_view (l : A) (k : nat) (T : thread_view) : thread_view :=
  mkTV (view_join (cur T) (at_place l k)) (view_join (acq T) (at_place l k)) (rel T).

Definition released (o : memory_order) (l : A) (k : nat) (T : thread_view) : view :=
  view_join (match o with release => cur T | _ => rel T end) (at_place l k).

Definition append (M : memory) (l : A) (m : message) : memory :=
  mkMemory (update (hist M) l (hist M l ++ [m])) (plains M).

Definition store (M : memory) (o : memory_order) (l : A) (v : X) (T : thread_view) : option (memory * thread_view) :=
  let k := length (hist M l) in
  if decide (S (v_at (cur T) l) = k)
  then Some (append M l (mkMessage v (released o l k T)), write_view l k T)
  else None.

(** [compare_exchange] with both orders relaxed, when it succeeds: it reads the newest
    message, which must hold the expected value, and its own message follows it and
    carries on what that one announced. *)
Definition exchange `{!EqDecision X} (M : memory) (l : A) (expected desired : X) (T : thread_view)
    : option (memory * thread_view) :=
  m ← last (hist M l);
  if decide (m_value m = expected)
  then
    let k := length (hist M l) in
    let T1 := read_view relaxed l (pred k) m T in
    Some (append M l (mkMessage desired (view_join (released relaxed l k T1) (m_view m))), write_view l k T1)
  else None.

Definition fence_acquire (T : thread_view) : thread_view := mkTV (acq T) (acq T) (rel T).
Definition fence_release (T : thread_view) : thread_view := mkTV (cur T) (acq T) (cur T).

Definition set_plain (M : memory) (x : N) (c : plain Y) : memory := mkMemory (hist M) (update (plains M) x c).

(** Plain accesses; no outcome when they race. *)
Definition read (M : memory) (x : N) (T : thread_view) : option (Y * memory * thread_view) :=
  let c := plains M x in
  if decide (v_wr (cur T) x = c_writes c)
  then Some (c_value c, set_plain M x (mkPlain (c_value c) (c_writes c) (S (c_reads c))),
             mkTV (see_read (cur T) x (c_reads c)) (see_read (acq T) x (c_reads c)) (rel T))
  else None.

Definition write (M : memory) (x : N) (v : Y) (T : thread_view) : option (memory * thread_view) :=
  let c := plains M x in
  if knows_all (cur T) x c
  then Some (set_plain M x (mkPlain v (S (c_writes c)) (c_reads c)),
             mkTV (see_write (cur T) x (S (c_writes c))) (see_write (acq T) x (S (c_writes c))) (rel T))
  else None.

(** ** Views and the order on them *)

Lemma at_place_same l k : v_at (at_place l k) l = k.
Proof. simpl. apply update_same. Qed.

Lemma at_place_other l l' k : l' <> l -> v_at (at_place l k) l' = 0%nat.
Proof. intros H. simpl. by rewrite update_other. Qed.

Lemma load_inv M o l T v T' :
  (v, T') ∈ load M o l T ->
  exists k m, hist M l !! k = Some m /\ (v_at (cur T) l <= k)%nat /\ v = m_value m /\ T' = read_view o l k m T.
Proof.
  intros (i & m & [= -> ->] & Hm)%elem_of_lookup_imap. rewrite lookup_drop in Hm. exists (v_at (cur T) l + i)%nat, m.
  split_and!; [done | lia | done | done].
Qed.

(** A thread that has seen the newest message loads it. *)
Lemma load_newest M o l T v T' :
  (v, T') ∈ load M o l T -> S (v_at (cur T) l) = length (hist M l) ->
  exists m, last (hist M l) = Some m /\ v = m_value m /\ T' = read_view o l (v_at (cur T) l) m T.
Proof.
  intros (k & m & Hk & Hle & -> & ->)%load_inv Hlen. pose proof (lookup_lt_Some _ _ _ Hk).
  assert (k = v_at (cur T) l) as -> by lia. exists m. split; [| done]. rewrite last_lookup, <- Hlen. done.
Qed.

Lemma read_view_cur o l k m T : view_le (cur T) (cur (read_view o l k m T)).
Proof.
  simpl. destruct o; try apply view_join_l. etrans; [apply view_join_l |]. apply view_join_l.
Qed.

Lemma read_view_at o l k m T : (k <= v_at (cur (read_view o l k m T)) l)%nat.
Proof. simpl. destruct o; simpl; rewrite update_same; lia. Qed.

(** ** Closed views

    No view runs ahead of the memory, and the three views of a thread are in
    order. *)

Record closed (V : view) (M : memory) : Prop := {
  cl_at : forall l, (v_at V l < length (hist M l))%nat;
  cl_wr : forall x, (v_wr V x <= c_writes (plains M x))%nat;
}.

Definition memory_closed (M : memory) : Prop := forall l k m, hist M l !! k = Some m -> closed (m_view m) M.

Record thread_closed (T : thread_view) (M : memory) : Prop := {
  tc_acq : closed (acq T) M;
  tc_cur : view_le (cur T) (acq T);
  tc_rel : view_le (rel T) (cur T);
}.

(** Later memories. *)
Record extends (M M' : memory) : Prop := {
  ex_hist : forall l, hist M l `prefix_of` hist M' l;
  ex_writes : forall x, (c_writes (plains M x) <= c_writes (plains M' x))%nat;
}.

#[export] Instance extends_preorder : PreOrder extends.
Proof.
  split.
  - intros M. split; [done | lia].
  - intros M1 M2 M3 [H1 H2] [K1 K2]. split; [intros l; etrans; [apply H1 | apply K1] | intros x; etrans; eauto].
Qed.

Lemma closed_extends V M M' : extends M M' -> closed V M -> closed V M'.
Proof.
  intros [H1 H2] [K1 K2]. split.
  - intros l. specialize (K1 l). pose proof (prefix_length _ _ (H1 l)). lia.
  - intros x. specialize (K2 x). specialize (H2 x). lia.
Qed.

Lemma thread_closed_extends T M M' : extends M M' -> thread_closed T M -> thread_closed T M'.
Proof. intros He [H1 H2 H3]. split; [by eapply closed_extends | done | done]. Qed.

Lemma closed_le V W M : view_le V W -> closed W M -> closed V M.
Proof.
  intros [H1 H2 _] [K1 K2]. split; [intros l; specialize (H1 l); specialize (K1 l); lia | intros x; etrans; eauto].
Qed.

Lemma thread_closed_cur T M : thread_closed T M -> closed (cur T) M.
Proof. intros [H1 H2 _]. by eapply closed_le. Qed.

Lemma thread_closed_rel T M : thread_closed T M -> closed (rel T) M.
Proof. intros H. eapply closed_le; [apply (tc_rel _ _ H) | by apply thread_closed_cur]. Qed.

Lemma closed_join V W M : closed V M -> closed W M -> closed (view_join V W) M.
Proof.
  intros [H1 H2] [K1 K2]. split; intros l; simpl.
  - specialize (H1 l). specialize (K1 l). lia.
  - specialize (H2 l). specialize (K2 l). lia.
Qed.

Lemma closed_at_place M l k : (forall l, hist M l <> []) -> (k < length (hist M l))%nat -> closed (at_place l k) M.
Proof.
  intros Hne Hk. split; [| simpl; lia]. intros l'. simpl. unfold update. case_decide; [by subst |]. simpl.
  specialize (Hne l'). destruct (hist M l'); [done | simpl; lia].
Qed.

(** A memory every variable of which has been initialised, with closed messages. *)
Record memory_wf (M : memory) : Prop := {
  mw_init : forall l, hist M l <> [];
  mw_closed : memory_closed M;
}.

Lemma read_view_closed M o l k m T :
  memory_wf M -> thread_closed T M -> hist M l !! k = Some m -> (v_at (cur T) l <= k)%nat ->
  thread_closed (read_view o l k m T) M.
Proof.
  intros [Hne Hm] [H1 H2 H3] Hk Hle.
  assert (Hcl : closed (at_place l k) M) by (apply closed_at_place; [done | by eapply lookup_lt_Some]).
  split; simpl.
  - apply closed_join; [by apply closed_join | by eapply Hm].
  - assert (Hs : view_le (view_join (cur T) (at_place l k)) (view_join (view_join (acq T) (at_place l k)) (m_view m))).
    { etrans; [apply view_join_mono; [exact H2 | reflexivity] | apply view_join_l]. }
    destruct o; [exact Hs | apply view_join_lub; [exact Hs | apply view_join_r] | exact Hs].
  - etrans; [exact H3 |]. apply read_view_cur.
Qed.

Lemma load_closed M o l T v T' :
  memory_wf M -> thread_closed T M -> (v, T') ∈ load M o l T -> thread_closed T' M.
Proof. intros Hw HT (k & m & Hk & Hle & -> & ->)%load_inv. by apply read_view_closed. Qed.

(** A new message at the end of a history. *)
Lemma append_extends M l m : extends M (append M l m).
Proof. split; simpl; [| done]. intros l'. unfold update. case_decide; [subst; by eexists | done]. Qed.

Lemma store_extends M o l v T M' T' : store M o l v T = Some (M', T') -> extends M M'.
Proof.
  unfold store. case_decide; [| done]. intros [= <- _]. apply append_extends.
Qed.

Lemma append_init M l m : (forall l, hist M l <> []) -> forall l', hist (append M l m) l' <> [].
Proof. intros H l'. simpl. unfold update. case_decide; [by destruct (hist M l) | apply H]. Qed.

Lemma append_closed_at M l m : (forall l, hist M l <> []) -> closed (at_place l (length (hist M l))) (append M l m).
Proof.
  intros H. apply closed_at_place; [by apply append_init |]. simpl. rewrite update_same, length_app. simpl. lia.
Qed.

Lemma append_wf M l m : memory_wf M -> closed (m_view m) (append M l m) -> memory_wf (append M l m).
Proof.
  intros [Hne Hm] Hc. split; [by apply append_init |]. intros l' k' m' Hl. simpl in Hl. unfold update in Hl.
  case_decide; [subst l' |]; [| by eapply closed_extends; [apply append_extends | eapply Hm]].
  apply lookup_snoc_inv in Hl as [Hl | [_ ->]]; [| done]. by eapply closed_extends; [apply append_extends | eapply Hm].
Qed.

Lemma write_view_closed M l m T :
  (forall l, hist M l <> []) -> thread_closed T M -> thread_closed (write_view l (length (hist M l)) T) (append M l m).
Proof.
  intros Hne HT. destruct (thread_closed_extends _ _ _ (append_extends M l m) HT) as [H1 H2 H3]. split; simpl.
  - apply closed_join; [done | by apply append_closed_at].
  - by apply view_join_mono.
  - etrans; [exact H3 | apply view_join_l].
Qed.

Lemma store_closed M o l v T M' T' :
  memory_wf M -> thread_closed T M -> store M o l v T = Some (M', T') -> memory_wf M' /\ thread_closed T' M'.
Proof.
  intros Hwf HT Hs. unfold store in Hs. case_decide as Hlen; [| done]. injection Hs as <- <-.
  pose proof (mw_init _ Hwf) as Hne. split; [| by apply write_view_closed].
  apply append_wf; [done |]. simpl. apply closed_join; [| by apply append_closed_at].
  eapply closed_extends; [apply append_extends |].
  destruct o; [by apply thread_closed_rel | by apply thread_closed_rel | by apply thread_closed_cur].
Qed.

(** A successful exchange: the value found was the newest, the new message follows it,
    and the thread has seen both. *)
Lemma exchange_inv `{!EqDecision X} M l v v' T M' T' :
  memory_wf M -> thread_closed T M -> exchange M l v v' T = Some (M', T') ->
  exists m m', last (hist M l) = Some m /\ m_value m = v /\ M' = append M l m' /\ m_value m' = v' /\
    memory_wf M' /\ thread_closed T' M' /\
    cur T' = view_join (view_join (cur T) (at_place l (pred (length (hist M l))))) (at_place l (length (hist M l))).
Proof.
  intros Hwf HT He. unfold exchange in He. destruct (last (hist M l)) as [m |] eqn:Hm; [| done]. simpl in He.
  case_decide as Hv; [| done]. injection He as <- <-. set (k := length (hist M l)). set (T1 := read_view _ _ _ _ _).
  pose proof (mw_init _ Hwf) as Hne. rewrite last_lookup in Hm.
  assert (HT1 : thread_closed T1 M).
  { apply read_view_closed; [done | done | done |]. pose proof (cl_at _ _ (thread_closed_cur _ _ HT) l). unfold k. lia. }
  eexists m, _. split_and!; [done | done | reflexivity | done | | by apply write_view_closed | done].
  apply append_wf; [done |]. simpl. apply closed_join; [apply closed_join |].
  - eapply closed_extends; [apply append_extends |]. by apply thread_closed_rel in HT1.
  - by apply append_closed_at.
  - eapply closed_extends; [apply append_extends |]. by eapply (mw_closed _ Hwf).
Qed.

Lemma fence_acquire_closed T M : thread_closed T M -> thread_closed (fence_acquire T) M.
Proof. intros [H1 H2 H3]. split; simpl; [done | done | by etrans]. Qed.

Lemma fence_release_closed T M : thread_closed T M -> thread_closed (fence_release T) M.
Proof. intros [H1 H2 H3]. by split. Qed.

Lemma set_plain_extends M x c : (c_writes (plains M x) <= c_writes c)%nat -> extends M (set_plain M x c).
Proof. intros H. split; simpl; [done |]. intros y. unfold update. case_decide; [by subst | done]. Qed.

Lemma memory_wf_plain M x c :
  memory_wf M -> (c_writes (plains M x) <= c_writes c)%nat -> memory_wf (set_plain M x c).
Proof.
  intros [H1 H2] Hc. split; [done |]. intros l k m Hl. eapply closed_extends; [by apply set_plain_extends | by eapply H2].
Qed.

Lemma read_closed M x T v M' T' :
  memory_wf M -> thread_closed T M -> read M x T = Some (v, M', T') ->
  extends M M' /\ memory_wf M' /\ thread_closed T' M'.
Proof.
  intros Hw HT Hr. unfold read in Hr. case_decide as Hv; [| done]. injection Hr as <- <- <-.
  set (c := mkPlain _ _ _). assert (He : extends M (set_plain M x c)) by (by apply set_plain_extends).
  split; [done |]. split; [by apply memory_wf_plain |].
  destruct (thread_closed_extends _ _ _ He HT) as [H1 H2 H3]. split; simpl.
  - destruct H1 as [K1 K2]. by split.
  - by apply see_read_mono.
  - etrans; [exact H3 |]. apply view_le_see_read.
Qed.

Lemma write_closed M x v T M' T' :
  memory_wf M -> thread_closed T M -> write M x v T = Some (M', T') ->
  extends M M' /\ memory_wf M' /\ thread_closed T' M'.
Proof.
  intros Hw HT Hr. unfold write in Hr. destruct (knows_all _ _ _); [| done]. injection Hr as <- <-.
  set (c := mkPlain _ _ _). assert (He : extends M (set_plain M x c)) by (apply set_plain_extends; simpl; lia).
  split; [done |]. split; [by apply memory_wf_plain; [| simpl; lia] |].
  pose proof (thread_closed_rel _ _ HT) as Hrel. pose proof (thread_closed_cur _ _ HT) as Hcur.
  destruct HT as [H1 H2 H3]. split; simpl.
  - destruct H1 as [K1 K2]. split; [done |]. intros y. simpl. unfold update. case_decide; [done | apply K2].
  - by apply see_write_mono.
  - destruct H3 as [R1 R2 R3]. split; [done | | done]. intros y. simpl. unfold update. case_decide; [subst | done].
    pose proof (cl_wr _ _ Hrel x). lia.
Qed.

End memory.

Arguments memory : clear implicits.
Arguments thread_view : clear implicits.
