(* ===== verification/SPSCWeak.v ===== *)
(** * [SPSCQueue] with its memory orders

    The code of [include/orbitqueue/spsc_queue.h] over the release/acquire memory of
    [ReleaseAcquire.v]: [head_] and [tail_] are atomics with the memory orders the
    header gives them, the slots are plain memory.  A load of the other thread's
    counter may return an old value, and an access to a slot that does not know every
    earlier conflicting access is undefined behaviour.  Any capacity, any number of
    calls.

    The program points are those of [SPSCConcurrent.v]; [latest] forgets the
    history of the memory and gives the queue of that file.  Theorems: no execution
    has a data race or leaves the ring, and every execution is linearizable to the
    bounded FIFO in which [full] and [empty] are decided with a count of the other
    thread's operations that may be out of date, but never goes back
    ([stale_spec]); an execution shows that the count may be out of date. *)

From stdpp Require Import gmap.
From S2P Require Import Prelude Result FixedMessage Concurrency BoundedFifo SPSCQueue SPSCConcurrent Views ReleaseAcquire.

(** ** The contract *)

(** The queue, and how many operations of the other side each thread has seen. *)
Record stale_fifo : Type := mkStale {
  now : fifo;
  seen_pops : Z;     (** by the producer *)
  seen_pushes : Z;   (** by the consumer *)
}.

Definition stale_empty : stale_fifo := mkStale fifo_empty 0 0.

(** Messages taken since construction. *)
Definition popped (a : fifo) : Z := pushed a - span_size (items a).

(** What [empty()] and [full()] answer for a number of queued messages. *)
Definition observe_size (capacity : Z) (o : observer) (n : Z) : bool :=
  match o with is_empty_ => n =? 0 | is_full_ => n =? capacity end.

Section contract.

Context (MaxPayloadSize capacity : Z).

(** Calls carry the thread that makes them. *)
Inductive stale_spec : stale_fifo -> role * QueueOp -> QueueRes -> stale_fifo -> Prop :=
| stale_too_large s payload :
    MaxPayloadSize < span_size payload ->
    stale_spec s (Producer, TryPush payload) (Pushed (mkWrite message_too_large 0)) s
| stale_accepted s payload r a' k :
    span_size payload <= MaxPayloadSize ->
    seen_pops s <= k <= popped (now s) -> pushed (now s) - k <> capacity ->
    fifo_push MaxPayloadSize capacity (now s) payload = (r, a') ->
    stale_spec s (Producer, TryPush payload) (Pushed r) (mkStale a' k (seen_pushes s))
| stale_full s payload k :
    span_size payload <= MaxPayloadSize ->
    seen_pops s <= k <= popped (now s) -> pushed (now s) - k = capacity ->
    stale_spec s (Producer, TryPush payload) (Pushed (mkWrite full 0)) (mkStale (now s) k (seen_pushes s))
| stale_delivered s destination r destination' a' k :
    seen_pushes s <= k <= pushed (now s) -> popped (now s) <> k ->
    fifo_pop false (now s) destination = (r, destination', a') ->
    stale_spec s (Consumer, TryPop destination) (Popped r destination') (mkStale a' (seen_pops s) k)
| stale_nothing s destination k :
    seen_pushes s <= k <= pushed (now s) -> popped (now s) = k ->
    stale_spec s (Consumer, TryPop destination) (Popped (mkRead empty 0 0) destination)
      (mkStale (now s) (seen_pops s) k)
| stale_producer_observes s o k :
    seen_pops s <= k <= popped (now s) ->
    stale_spec s (Producer, Observe o) (Observed (observe_size capacity o (pushed (now s) - k)))
      (mkStale (now s) k (seen_pushes s))
| stale_consumer_observes s o k :
    seen_pushes s <= k <= pushed (now s) ->
    stale_spec s (Consumer, Observe o) (Observed (observe_size capacity o (k - popped (now s))))
      (mkStale (now s) (seen_pops s) k).

(** Nothing but the answers [full], [empty] and those of the observers differs from
    the bounded FIFO: every call is a call of the FIFO, or leaves it alone. *)
Lemma stale_spec_effect s who o r s' :
  stale_spec s (who, o) r s' ->
  fifo_spec MaxPayloadSize capacity false (now s) o r (now s') \/
  (now s' = now s /\
   ((exists payload, o = TryPush payload /\ r = Pushed (mkWrite full 0)) \/
    (exists destination, o = TryPop destination /\ r = Popped (mkRead empty 0 0) destination) \/
    (exists obs b, o = Observe obs /\ r = Observed b))).
Proof.
  intros H. remember (who, o) as c eqn:Ec.
  destruct H as [s payload Hbig | | | s d r d' a' k Hk Hne Hpop | | |]; injection Ec as <- <-; simpl;
    first [by right; eauto 10 | left; by constructor | idtac].
  left. constructor. unfold fifo_push. by rewrite (proj2 (Z.ltb_lt _ _)).
Qed.

End contract.

(** ** The queue in memory *)

Inductive counter : Type := head_v | tail_v.

#[export] Instance counter_eq_dec : EqDecision counter.
Proof. solve_decision. Defined.

Record weak_spsc : Type := mkWeak {
  w_capacity : Z;
  w_slots : nat;     (** [slots_.size()] *)
  w_memory : memory counter nat Z FixedMessage;
}.

#[export] Instance role_eq_dec : EqDecision role.
Proof. solve_decision. Defined.

Abbreviation spsc_view := (thread_view counter nat).

Inductive weak_pc : Type :=
| At (l : spsc_pc)
| Undefined.     (** after a data race *)

Abbreviation weak_thread := (spsc_view * weak_pc)%type.

Definition with_memory (w : weak_spsc) (M : memory counter nat Z FixedMessage) : weak_spsc :=
  mkWeak (w_capacity w) (w_slots w) M.

(** A constructed queue, before the threads start. *)
Definition weak_new (q : SPSCQueue) : weak_spsc :=
  mkWeak (capacity_ q) (length (slots_ q))
    (mkMemory (fun l => [Views.mkMessage (match l with head_v => head_ q | tail_v => tail_ q end) view_zero])
       (fun j => mkPlain (default (fresh_message 0) (slots_ q !! j)) 0 0)).

Definition weak_init (q : SPSCQueue) : pool weak_spsc weak_thread :=
  mkPool (weak_new q) [(new_thread, At ProducerIdle); (new_thread, At ConsumerIdle)].

Section SPSCWeak.

Context (MaxPayloadSize : Z).

(** [slots_[position % capacity_]] *)
Definition weak_index (w : weak_spsc) (position : Z) : nat := slot_of (position mod w_capacity w).

Definition weak_observed (w : weak_spsc) (o : observer) (head tail : Z) : bool :=
  match o with
  | is_empty_ => head =? tail
  | is_full_ => head -u tail =? w_capacity w
  end.

(** An atomic load, then the rest of the step. *)
Definition loading (w : weak_spsc) (o : memory_order) (l : counter) (T : spsc_view) (k : Z -> spsc_pc)
    : list (weak_spsc * weak_thread) :=
  (fun vT : Z * spsc_view => (w, (vT.2, At (k vT.1)))) <$> load (w_memory w) o l T.

Definition storing (w : weak_spsc) (o : memory_order) (l : counter) (v : Z) (T : spsc_view) (next : spsc_pc)
    : list (weak_spsc * weak_thread) :=
  match store (w_memory w) o l v T with
  | Some (M, T') => [(with_memory w M, (T', At next))]
  | None => [(w, (T, Undefined))]
  end.

Definition weak_step (w : weak_spsc) (T : spsc_view) (l : spsc_pc) : list (weak_spsc * weak_thread) :=
  match l with
  | PushStart payload =>
      if MaxPayloadSize <? span_size payload
      then [(w, (T, At (PushDone (mkWrite message_too_large 0))))]
      else loading w relaxed head_v T (PushLoadTail payload)
  | PushLoadTail payload head =>
      loading w acquire tail_v T (fun tail =>
        if head -u tail =? w_capacity w then PushDone (mkWrite full 0) else PushAssign payload head)
  | PushAssign payload head =>
      let sequence := head +u 1 in
      let i := weak_index w head in
      if decide (i < w_slots w)%nat then
        let '(result, slot') := assign MaxPayloadSize (c_value (plains (w_memory w) i)) payload sequence in
        match write (w_memory w) i slot' T with
        | Some (M, T') => [(with_memory w M, (T', At (PushStoreHead result sequence)))]
        | None => [(w, (T, Undefined))]
        end
      else [(w, (T, At OutOfBounds))]
  | PushStoreHead result sequence => storing w release head_v sequence T (PushDone result)
  | PopStart destination => loading w relaxed tail_v T (PopLoadHead destination)
  | PopLoadHead destination tail =>
      loading w acquire head_v T (fun head =>
        if tail =? head then PopDone (mkRead empty 0 0) destination else PopCopy destination tail)
  | PopCopy destination tail =>
      let i := weak_index w tail in
      if decide (i < w_slots w)%nat then
        match read (w_memory w) i T with
        | Some (slot, M, T') =>
            let '(result, destination') := copy_to slot destination in
            [(with_memory w M, (T', At (if ok (r_status result) then PopStoreTail result destination' tail
                                        else PopDone result destination')))]
        | None => [(w, (T, Undefined))]
        end
      else [(w, (T, At OutOfBounds))]
  | PopStoreTail result destination tail =>
      storing w release tail_v (tail +u 1) T (PopDone result destination)
  (* the order in which the operands are loaded is unspecified *)
  | ObsStart who o =>
      loading w acquire head_v T (ObsHead who o) ++ loading w acquire tail_v T (ObsTail who o)
  | ObsHead who o head => loading w acquire tail_v T (fun tail => ObsDone who (weak_observed w o head tail))
  | ObsTail who o tail => loading w acquire head_v T (fun head => ObsDone who (weak_observed w o head tail))
  | ProducerIdle | ConsumerIdle | PushDone _ | PopDone _ _ | ObsDone _ _ | OutOfBounds => []
  end.

Definition caller (l : spsc_pc) : option role :=
  match l with ProducerIdle => Some Producer | ConsumerIdle => Some Consumer | _ => None end.

Definition weak_call (t : weak_thread) (c : role * QueueOp) : option weak_thread :=
  match t.2 with
  | At l => if decide (caller l = Some c.1) then l' ← spsc_call l c.2; Some (t.1, At l') else None
  | Undefined => None
  end.

Definition weak_tstep (w : weak_spsc) (t : weak_thread) : list (weak_spsc * weak_thread) :=
  match t.2 with At l => weak_step w t.1 l | Undefined => [] end.

Definition weak_ret (t : weak_thread) : option (QueueRes * weak_thread) :=
  match t.2 with
  | At l => '(r, l') ← spsc_ret l; Some (r, (t.1, At l'))
  | Undefined => None
  end.

#[local] Instance spsc_weak_object : ConcurrentObject (role * QueueOp) QueueRes weak_spsc weak_thread := {|
  call := weak_call; tstep := weak_tstep; ret := weak_ret;
|}.

(** ** Ring positions and slots *)

Section invariant.

Context (cap : Z).

Definition position_slot (i : nat) : nat := slot_of (Z.of_nat i mod cap).

(** How often the pushes below position [n] have written slot [j]. *)
Fixpoint writes_to (n j : nat) : nat :=
  match n with
  | O => 0
  | S n => (if decide (position_slot n = j) then S (writes_to n j) else writes_to n j)
  end.

Lemma writes_to_mono m n j : (m <= n)%nat -> (writes_to m j <= writes_to n j)%nat.
Proof. induction 1 as [| n _ IH]; [done |]. simpl. case_decide; lia. Qed.

Lemma writes_to_succ n j :
  writes_to (S n) j = update (writes_to n) (position_slot n) (S (writes_to n (position_slot n))) j.
Proof. simpl. unfold update. repeat case_decide; congruence. Qed.

Lemma writes_to_gap m n j :
  (m <= n)%nat -> (forall i, (m <= i < n)%nat -> position_slot i <> j) -> writes_to n j = writes_to m j.
Proof.
  induction 1 as [| n Hle IH]; intros Hj; [done |]. simpl. rewrite decide_False by (apply Hj; lia).
  apply IH. intros i Hi. apply Hj. lia.
Qed.

Lemma position_slot_ne i i' :
  0 < cap -> (i < i')%nat -> Z.of_nat i' < Z.of_nat i + cap -> position_slot i' <> position_slot i.
Proof. intros Hc H1 H2. apply ring_slot_ne; lia. Qed.

(** ** What views know *)

(** [R j]: the positions of the pops that have read slot [j], in order. *)
Definition knows_writes (k : nat) (V : view counter nat) : Prop := forall j, (writes_to k j <= v_wr V j)%nat.

Definition knows_reads (R : nat -> list nat) (k : nat) (V : view counter nat) : Prop :=
  forall j r q, R j !! r = Some q -> (q < k)%nat -> r ∈ v_rd V j.

(** A view that has seen a counter knows what the counter announces. *)
Definition sound (R : nat -> list nat) (V : view counter nat) : Prop :=
  knows_writes (v_at V head_v) V /\ knows_reads R (v_at V tail_v) V.

Lemma knows_writes_le k V W : view_le V W -> knows_writes k V -> knows_writes k W.
Proof. intros H K j. etrans; [apply K | apply (vle_wr _ _ H)]. Qed.

Lemma knows_reads_le R k V W : view_le V W -> knows_reads R k V -> knows_reads R k W.
Proof. intros H K j r q Hr Hq. apply (vle_rd _ _ H). by eapply K. Qed.

Lemma knows_writes_max k k' V : knows_writes k V -> knows_writes k' V -> knows_writes (k `max` k') V.
Proof. intros H K j. destruct (Nat.max_spec k k') as [[_ ->] | [_ ->]]; [apply K | apply H]. Qed.

Lemma knows_reads_max R k k' V : knows_reads R k V -> knows_reads R k' V -> knows_reads R (k `max` k') V.
Proof.
  intros H K j r q Hr Hq. destruct (Nat.max_spec k k') as [[_ E] | [_ E]]; rewrite E in Hq; [by eapply K | by eapply H].
Qed.

Lemma sound_join R V W : sound R V -> sound R W -> sound R (view_join V W).
Proof.
  intros [H1 H2] [K1 K2]. split.
  - apply knows_writes_max; eapply knows_writes_le; [apply view_join_l | done | apply view_join_r | done].
  - apply knows_reads_max; eapply knows_reads_le; [apply view_join_l | done | apply view_join_r | done].
Qed.

(** Only what a view knows of the counters and of the accesses matters. *)
Lemma sound_le R V W :
  view_le V W -> (forall l, (v_at W l <= v_at V l)%nat) -> sound R V -> sound R W.
Proof.
  intros H Hat [K1 K2]. assert (Heq : forall l, v_at W l = v_at V l).
  { intros l. pose proof (vle_at _ _ H l). specialize (Hat l). lia. }
  split; rewrite Heq; [by eapply knows_writes_le | by eapply knows_reads_le].
Qed.

(** Seeing message [k] of a counter adds what the message knows. *)
Lemma sound_acquire R V W l k :
  sound R V -> sound R W -> (k <= v_at W l)%nat -> sound R (view_join (view_join V (at_place l k)) W).
Proof.
  intros HV HW Hk. apply (sound_le _ (view_join V W)); [| | by apply sound_join].
  - apply view_join_mono; [apply view_join_l | done].
  - intros l'. simpl. unfold update. case_decide; simpl; [subst |]; lia.
Qed.

Lemma sound_again R V l k : sound R V -> (k <= v_at V l)%nat -> sound R (view_join V (at_place l k)).
Proof.
  intros HV Hk. apply (sound_le _ V); [apply view_join_l | | done].
  intros l'. simpl. unfold update. case_decide; simpl; [subst |]; lia.
Qed.

(** ** The invariant of the memory

    [P] pushes and [D] pops have taken effect, [W] slots have been filled: [P], or
    one more while the producer is about to announce a message. *)

Record memory_inv (M : memory counter nat Z FixedMessage) (Tp Tc : spsc_view) (P D W : nat) (R : nat -> list nat)
    : Prop := {
  mi_wf : memory_wf M;
  mi_producer : thread_closed Tp M;
  mi_consumer : thread_closed Tc M;
  mi_head : length (hist M head_v) = S P;
  mi_tail : length (hist M tail_v) = S D;
  mi_messages : forall l k m, hist M l !! k = Some m ->
    m_value m = u64 (Z.of_nat k) /\ (k <= v_at (m_view m) l)%nat /\ sound R (m_view m);
  mi_sound_p : sound R (cur Tp);
  mi_sound_c : sound R (cur Tc);
  mi_own_head : (P <= v_at (cur Tp) head_v)%nat;
  mi_own_tail : (D <= v_at (cur Tc) tail_v)%nat;
  mi_writes : forall j, c_writes (plains M j) = writes_to W j;
  mi_own_writes : knows_writes W (cur Tp);
  mi_reads : forall j, c_reads (plains M j) = length (R j);
  mi_read_log : forall j r q, R j !! r = Some q -> (q <= D)%nat /\ (q < P)%nat /\ position_slot q = j;
  mi_own_reads : forall j r, (r < length (R j))%nat -> r ∈ v_rd (cur Tc) j;
  mi_window : Z.of_nat P <= Z.of_nat (v_at (cur Tp) tail_v) + cap;
  mi_ahead : (D <= v_at (cur Tc) head_v)%nat;
}.

(** Views only see messages there are. *)
Lemma mi_seen_head M Tp Tc P D W R V :
  memory_inv M Tp Tc P D W R -> closed V M -> (v_at V head_v <= P)%nat.
Proof. intros H K. pose proof (cl_at _ _ K head_v). rewrite (mi_head _ _ _ _ _ _ _ H) in *. lia. Qed.

Lemma mi_seen_tail M Tp Tc P D W R V :
  memory_inv M Tp Tc P D W R -> closed V M -> (v_at V tail_v <= D)%nat.
Proof. intros H K. pose proof (cl_at _ _ K tail_v). rewrite (mi_tail _ _ _ _ _ _ _ H) in *. lia. Qed.

(** A thread learns something. *)
Lemma memory_inv_producer M Tp T' Tc P D W R :
  memory_inv M Tp Tc P D W R -> view_le (cur Tp) (cur T') -> thread_closed T' M -> sound R (cur T') ->
  memory_inv M T' Tc P D W R.
Proof.
  intros [] Hle Hcl Hs. pose proof (vle_at _ _ Hle head_v). pose proof (vle_at _ _ Hle tail_v).
  split; try done; try lia. by eapply knows_writes_le.
Qed.

Lemma memory_inv_consumer M Tp Tc T' P D W R :
  memory_inv M Tp Tc P D W R -> view_le (cur Tc) (cur T') -> thread_closed T' M -> sound R (cur T') ->
  memory_inv M Tp T' P D W R.
Proof.
  intros [] Hle Hcl Hs. pose proof (vle_at _ _ Hle head_v). pose proof (vle_at _ _ Hle tail_v).
  split; try done; try lia. intros j r Hr. apply (vle_rd _ _ Hle). by auto.
Qed.

(** An acquire load, or a relaxed load of the thread's own counter, returns the
    number of a message and what it announces. *)
Lemma memory_inv_load M Tp Tc P D W R T o l v T' :
  memory_inv M Tp Tc P D W R -> thread_closed T M -> sound R (cur T) -> (v, T') ∈ load M o l T ->
  o = acquire \/ S (v_at (cur T) l) = length (hist M l) ->
  thread_closed T' M /\ sound R (cur T') /\ view_le (cur T) (cur T') /\
  exists k, v = u64 (Z.of_nat k) /\ (v_at (cur T) l <= k <= v_at (cur T') l)%nat.
Proof.
  intros Hi Hcl Hs Hl Ho.
  split; [by eapply load_closed; [apply (mi_wf _ _ _ _ _ _ _ Hi) | ..] |].
  apply load_inv in Hl as (k & m & Hk & Hle & -> & ->).
  destruct (mi_messages _ _ _ _ _ _ _ Hi l k m Hk) as (-> & Hkm & Hsm).
  split; [| split; [apply read_view_cur | exists k; split; [done | split; [done | apply read_view_at]]]].
  destruct Ho as [-> | Hnew]; [by apply sound_acquire |]. apply lookup_lt_Some in Hk.
  assert (Hk' : (k <= v_at (cur T) l)%nat) by lia.
  destruct o; [by apply sound_again | by apply sound_acquire | by apply sound_again].
Qed.

(** Filling the slot of the next position. *)
Lemma memory_inv_write M Tp Tc P D R v :
  0 < cap -> memory_inv M Tp Tc P D P R -> Z.of_nat P < Z.of_nat (v_at (cur Tp) tail_v) + cap ->
  let c := plains M (position_slot P) in
  exists T', write M (position_slot P) v Tp =
      Some (set_plain M (position_slot P) (mkPlain v (S (c_writes c)) (c_reads c)), T') /\
    memory_inv (set_plain M (position_slot P) (mkPlain v (S (c_writes c)) (c_reads c))) T' Tc P D (S P) R /\
    v_at (cur T') = v_at (cur Tp).
Proof.
  intros Hcap Hi Hroom c.
  assert (Hcov : covers (cur Tp) (position_slot P) c).
  { split.
    - pose proof (cl_wr _ _ (thread_closed_cur _ _ (mi_producer _ _ _ _ _ _ _ Hi)) (position_slot P)) as H1.
      pose proof (mi_own_writes _ _ _ _ _ _ _ Hi (position_slot P)) as H2.
      rewrite <- (mi_writes _ _ _ _ _ _ _ Hi) in H2. fold c in H1, H2. lia.
    - intros r Hr. unfold c in Hr. rewrite (mi_reads _ _ _ _ _ _ _ Hi) in Hr.
      apply lookup_lt_is_Some in Hr as [q Hq].
      destruct (mi_read_log _ _ _ _ _ _ _ Hi _ _ _ Hq) as (HqD & HqP & Hslot).
      apply (proj2 (mi_sound_p _ _ _ _ _ _ _ Hi) _ _ _ Hq).
      destruct (Z.lt_ge_cases (Z.of_nat P) (Z.of_nat q + cap)) as [Hw |]; [| lia].
      by destruct (position_slot_ne q P Hcap HqP Hw). }
  pose proof (covers_knows_all _ _ _ Hcov) as Hk.
  assert (Hw : write M (position_slot P) v Tp =
    Some (set_plain M (position_slot P) (mkPlain v (S (c_writes c)) (c_reads c)),
          mkTV (see_write (cur Tp) (position_slot P) (S (c_writes c)))
            (see_write (acq Tp) (position_slot P) (S (c_writes c))) (rel Tp))).
  { unfold write. fold c. by rewrite Hk. }
  eexists. split; [exact Hw |].
  destruct (write_closed _ _ _ _ _ _ (mi_wf _ _ _ _ _ _ _ Hi) (mi_producer _ _ _ _ _ _ _ Hi) Hw) as (He & Hwf & Hcl).
  split; [| done]. destruct Hi. destruct Hcov as [Hcw _].
  assert (Hle : view_le (cur Tp) (see_write (cur Tp) (position_slot P) (S (c_writes c)))).
  { split; intros x; simpl; [done | | done]. unfold update. case_decide; [subst; lia | done]. }
  assert (Hupd : knows_writes (S P) (see_write (cur Tp) (position_slot P) (S (c_writes c)))).
  { intros j. rewrite writes_to_succ. simpl. unfold update. case_decide; [unfold c; rewrite mi_writes0; lia |].
    apply mi_own_writes0. }
  split; try done.
  - by eapply thread_closed_extends.
  - by apply (sound_le R (cur Tp)).
  - intros j. rewrite writes_to_succ. simpl. unfold update. case_decide; [| done]. subst. simpl.
    unfold c. by rewrite mi_writes0.
  - intros j. simpl. unfold update. case_decide; [subst; apply mi_reads0 | done].
Qed.

(** A release store of a counter by its owner, who has seen its newest message. *)
Lemma memory_inv_append M Tp Tc P D W R T l v :
  memory_inv M Tp Tc P D W R -> thread_closed T M -> sound R (cur T) ->
  S (v_at (cur T) l) = length (hist M l) -> v = u64 (Z.of_nat (length (hist M l))) ->
  sound R (view_join (cur T) (at_place l (length (hist M l)))) ->
  exists T' m, store M release l v T = Some (append M l m, T') /\ m_value m = v /\
    memory_wf (append M l m) /\ extends M (append M l m) /\ thread_closed T' (append M l m) /\
    cur T' = view_join (cur T) (at_place l (length (hist M l))) /\
    (forall l' k m', hist (append M l m) l' !! k = Some m' ->
       m_value m' = u64 (Z.of_nat k) /\ (k <= v_at (m_view m') l')%nat /\ sound R (m_view m')).
Proof.
  intros Hi Hcl Hs Hnew -> Hsound.
  set (k := length (hist M l)) in *.
  assert (Hst : store M release l (u64 (Z.of_nat k)) T =
    Some (append M l (Views.mkMessage (u64 (Z.of_nat k)) (released release l k T)), write_view l k T)).
  { unfold store. fold k. by rewrite decide_True. }
  destruct (store_closed _ _ _ _ _ _ _ (mi_wf _ _ _ _ _ _ _ Hi) Hcl Hst) as [Hwf Hcl'].
  eexists _, _. split; [exact Hst |]. split; [done |]. split; [done |].
  split; [by eapply store_extends |]. split; [done |]. split; [done |].
  intros l' k' m' Hm. simpl in Hm. unfold update in Hm. case_decide as El; [subst l' | by eapply (mi_messages _ _ _ _ _ _ _ Hi)].
  apply lookup_snoc_inv in Hm as [Hm | [-> ->]]; [by eapply (mi_messages _ _ _ _ _ _ _ Hi) |].
  fold k. split; [done |]. split; [| done]. simpl. rewrite update_same. lia.
Qed.

Lemma memory_inv_store_head M Tp Tc P D R :
  memory_inv M Tp Tc P D (S P) R -> Z.of_nat P < Z.of_nat (v_at (cur Tp) tail_v) + cap ->
  exists T' m, store M release head_v (u64 (Z.of_nat (S P))) Tp = Some (append M head_v m, T') /\
    m_value m = u64 (Z.of_nat (S P)) /\ memory_inv (append M head_v m) T' Tc (S P) D (S P) R /\
    v_at (cur T') tail_v = v_at (cur Tp) tail_v.
Proof.
  intros Hi Hroom. pose proof (mi_producer _ _ _ _ _ _ _ Hi) as Hcl.
  pose proof (mi_seen_head _ _ _ _ _ _ _ _ Hi (thread_closed_cur _ _ Hcl)) as HP.
  pose proof (mi_own_head _ _ _ _ _ _ _ Hi) as HP'. pose proof (mi_head _ _ _ _ _ _ _ Hi) as Hlen.
  assert (Htail : v_at (view_join (cur Tp) (at_place head_v (S P))) tail_v = v_at (cur Tp) tail_v).
  { simpl. rewrite update_other by done. simpl. lia. }
  assert (Hhead : v_at (view_join (cur Tp) (at_place head_v (S P))) head_v = S P).
  { simpl. rewrite update_same. lia. }
  assert (Hs : sound R (view_join (cur Tp) (at_place head_v (S P)))).
  { pose proof (view_join_l (cur Tp) (at_place head_v (S P))) as Hle. split.
    - rewrite Hhead. eapply knows_writes_le; [exact Hle |]. apply (mi_own_writes _ _ _ _ _ _ _ Hi).
    - rewrite Htail. eapply knows_reads_le; [exact Hle |]. apply (mi_sound_p _ _ _ _ _ _ _ Hi). }
  destruct (memory_inv_append M Tp Tc P D (S P) R Tp head_v (u64 (Z.of_nat (S P))) Hi Hcl (mi_sound_p _ _ _ _ _ _ _ Hi))
    as (T' & m & Hst & Hv & Hwf & He & Hcl' & Hcur & Hmsg); rewrite ?Hlen; [lia | done | done |].
  rewrite Hlen in Hcur. exists T', m. split; [done |]. split; [done |]. rewrite Hcur. split; [| done].
  destruct Hi. split; try done; rewrite ?Hcur; try done.
  - by eapply thread_closed_extends.
  - simpl. rewrite update_same, length_app, Hlen. simpl. lia.
  - simpl. rewrite update_same. lia.
  - eapply knows_writes_le; [apply view_join_l | done].
  - intros j r q Hq. destruct (mi_read_log0 _ _ _ Hq) as (? & ? & ?). split_and!; [done | lia | done].
  - rewrite Htail. lia.
Qed.

Lemma memory_inv_store_tail M Tp Tc P D W R :
  memory_inv M Tp Tc P D W R -> (D < v_at (cur Tc) head_v)%nat ->
  exists T' m, store M release tail_v (u64 (Z.of_nat (S D))) Tc = Some (append M tail_v m, T') /\
    m_value m = u64 (Z.of_nat (S D)) /\ memory_inv (append M tail_v m) Tp T' P (S D) W R /\
    v_at (cur T') head_v = v_at (cur Tc) head_v.
Proof.
  intros Hi Hmore. pose proof (mi_consumer _ _ _ _ _ _ _ Hi) as Hcl.
  pose proof (mi_seen_tail _ _ _ _ _ _ _ _ Hi (thread_closed_cur _ _ Hcl)) as HD.
  pose proof (mi_own_tail _ _ _ _ _ _ _ Hi) as HD'. pose proof (mi_tail _ _ _ _ _ _ _ Hi) as Hlen.
  assert (Hhead : v_at (view_join (cur Tc) (at_place tail_v (S D))) head_v = v_at (cur Tc) head_v).
  { simpl. rewrite update_other by done. simpl. lia. }
  assert (Hs : sound R (view_join (cur Tc) (at_place tail_v (S D)))).
  { pose proof (view_join_l (cur Tc) (at_place tail_v (S D))) as Hle. split.
    - rewrite Hhead. eapply knows_writes_le; [exact Hle |]. apply (mi_sound_c _ _ _ _ _ _ _ Hi).
    - intros j r q Hq _. apply (vle_rd _ _ Hle). apply (mi_own_reads _ _ _ _ _ _ _ Hi). by eapply lookup_lt_Some. }
  destruct (memory_inv_append M Tp Tc P D W R Tc tail_v (u64 (Z.of_nat (S D))) Hi Hcl (mi_sound_c _ _ _ _ _ _ _ Hi))
    as (T' & m & Hst & Hv & Hwf & He & Hcl' & Hcur & Hmsg); rewrite ?Hlen; [lia | done | done |].
  rewrite Hlen in Hcur. exists T', m. split; [done |]. split; [done |]. rewrite Hcur. split; [| done].
  destruct Hi. split; try done; rewrite ?Hcur; try done.
  - by eapply thread_closed_extends.
  - simpl. rewrite update_same, length_app, Hlen. simpl. lia.
  - simpl. rewrite update_same. lia.
  - intros j r q Hq. destruct (mi_read_log0 _ _ _ Hq) as (? & ? & ?). split_and!; [lia | done | done].
  - intros j r Hr. apply (vle_rd _ _ (view_join_l _ _)). by apply mi_own_reads0.
  - rewrite Hhead. lia.
Qed.

(** Copying the front message out of its slot. *)
Lemma sound_more_reads R V j D :
  sound R V -> (v_at V tail_v <= D)%nat -> sound (update R j (R j ++ [D])) V.
Proof.
  intros [H1 H2] Hle. split; [done |]. intros j' r q Hr Hq. unfold update in Hr. case_decide; [subst | by eapply H2].
  apply lookup_snoc_inv in Hr as [Hr | [_ ->]]; [by eapply H2 | lia].
Qed.

Lemma memory_inv_read M Tp Tc P D W R :
  0 < cap -> memory_inv M Tp Tc P D W R -> (D < v_at (cur Tc) head_v)%nat -> (P <= W)%nat ->
  Z.of_nat W <= Z.of_nat D + cap ->
  let j := position_slot D in let c := plains M j in
  let M' := set_plain M j (mkPlain (c_value c) (c_writes c) (S (c_reads c))) in
  exists T', read M j Tc = Some (c_value c, M', T') /\
    memory_inv M' Tp T' P D W (update R j (R j ++ [D])) /\ v_at (cur T') = v_at (cur Tc).
Proof.
  intros Hcap Hi Hmore HPW Hring j c M'. pose proof (mi_consumer _ _ _ _ _ _ _ Hi) as Hcl.
  pose proof (mi_seen_head _ _ _ _ _ _ _ _ Hi (thread_closed_cur _ _ Hcl)) as HP.
  assert (Hw : v_wr (cur Tc) j = c_writes c).
  { pose proof (cl_wr _ _ (thread_closed_cur _ _ Hcl) j) as H1.
    pose proof (proj1 (mi_sound_c _ _ _ _ _ _ _ Hi) j) as H2.
    pose proof (writes_to_mono (S D) (v_at (cur Tc) head_v) j Hmore) as H3.
    assert (writes_to W j = writes_to (S D) j) as H4.
    { apply writes_to_gap; [lia |]. intros i Hi'. apply position_slot_ne; lia. }
    fold c in H1. unfold c in *. rewrite (mi_writes _ _ _ _ _ _ _ Hi) in *. lia. }
  assert (Hr : read M j Tc = Some (c_value c, M',
    mkTV (see_read (cur Tc) j (c_reads c)) (see_read (acq Tc) j (c_reads c)) (rel Tc))).
  { unfold read. fold c. by rewrite decide_True. }
  eexists. split; [exact Hr |].
  destruct (read_closed _ _ _ _ _ _ (mi_wf _ _ _ _ _ _ _ Hi) Hcl Hr) as (He & Hwf & Hcl'). split; [| done].
  pose proof (mi_seen_tail _ _ _ _ _ _ _ _ Hi (thread_closed_cur _ _ Hcl)) as HDc.
  pose proof (mi_seen_tail _ _ _ _ _ _ _ _ Hi (thread_closed_cur _ _ (mi_producer _ _ _ _ _ _ _ Hi))) as HDp.
  assert (Hlog : forall x, length (update R j (R j ++ [D]) x) = c_reads (plains M' x)).
  { intros x. simpl. unfold update. case_decide; [subst | by rewrite (mi_reads _ _ _ _ _ _ _ Hi)].
    rewrite length_app. simpl. unfold c. rewrite (mi_reads _ _ _ _ _ _ _ Hi). lia. }
  pose proof (fun V => mi_seen_tail _ _ _ _ _ _ _ V Hi) as Hseen.
  destruct Hi. split; try done.
  - by eapply thread_closed_extends.
  - intros l k m Hm. destruct (mi_messages0 l k m Hm) as (? & ? & ?). split_and!; [done | done |].
    apply sound_more_reads; [done |]. apply Hseen. by eapply mi_wf0.
  - by apply sound_more_reads.
  - apply sound_more_reads; [| done]. apply (sound_le R (cur Tc)); [apply view_le_see_read | done | done].
  - intros x. simpl. unfold update. case_decide; [subst; apply mi_writes0 | done].
  - intros x r q Hq. unfold update in Hq. case_decide; [subst x | by eapply mi_read_log0].
    apply lookup_snoc_inv in Hq as [Hq | [_ ->]]; [by eapply mi_read_log0 |]. split_and!; [done | lia | done].
  - intros x r Hlt. rewrite Hlog in Hlt. simpl in *. unfold update in *. case_decide.
    + subst x. simpl in Hlt. destruct (decide (r = c_reads c)) as [-> | Hne]; [set_solver |].
      apply elem_of_union_l, mi_own_reads0. rewrite <- mi_reads0. fold c. lia.
    + apply mi_own_reads0. by rewrite <- mi_reads0.
Qed.

(** ** The queue the memory holds *)

Definition newest (M : memory counter nat Z FixedMessage) (l : counter) : Z :=
  match last (hist M l) with Some m => m_value m | None => 0 end.

Definition latest (w : weak_spsc) : SPSCQueue :=
  mkSPSC (w_capacity w) ((fun j => c_value (plains (w_memory w) j)) <$> seq 0 (w_slots w))
    (newest (w_memory w) head_v) (newest (w_memory w) tail_v).

Lemma latest_append w l m :
  latest (with_memory w (append (w_memory w) l m)) =
    match l with head_v => store_head (latest w) (m_value m) | tail_v => store_tail (latest w) (m_value m) end.
Proof.
  unfold latest, newest, store_head, store_tail; simpl.
  destruct l; rewrite update_same, last_snoc, update_other by done; done.
Qed.

Lemma latest_set_plain w j c :
  latest (with_memory w (set_plain (w_memory w) j c)) = store_slot (latest w) j (c_value c).
Proof.
  unfold latest, store_slot; simpl. f_equal. apply list_eq. intros i. rewrite list_lookup_fmap.
  destruct (decide (i < w_slots w)%nat) as [Hi | Hi].
  - rewrite lookup_seq_lt by done. simpl. destruct (decide (i = j)) as [-> | Hne].
    + rewrite update_same, list_lookup_insert_eq; [done |]. by rewrite length_fmap, length_seq.
    + rewrite update_other, list_lookup_insert_ne, list_lookup_fmap, lookup_seq_lt by done. done.
  - rewrite lookup_seq_ge by lia. symmetry. apply lookup_ge_None. rewrite length_insert, length_fmap, length_seq. lia.
Qed.

Lemma latest_slot w j :
  (j < w_slots w)%nat -> slots_ (latest w) !! j = Some (c_value (plains (w_memory w) j)).
Proof. intros H. simpl. by rewrite list_lookup_fmap, lookup_seq_lt. Qed.

Lemma store_slot_same q j m : slots_ q !! j = Some m -> store_slot q j m = q.
Proof. intros H. unfold store_slot. rewrite list_insert_id by done. by destruct q. Qed.

Lemma latest_new q : latest (weak_new q) = q.
Proof.
  unfold latest, weak_new, newest; simpl. destruct q as [c ss h t]; simpl. f_equal. apply list_eq. intros i.
  rewrite list_lookup_fmap. destruct (decide (i < length ss)%nat) as [Hi | Hi].
  - rewrite lookup_seq_lt by done. simpl. by destruct (lookup_lt_is_Some_2 ss i Hi) as [m ->].
  - rewrite lookup_seq_ge by lia. symmetry. apply lookup_ge_None. lia.
Qed.

(** ** The simulation *)

Definition by_role (who : role) (st : status QueueOp QueueRes) : status (role * QueueOp) QueueRes :=
  match st with Idle => Idle | Called o => Called (who, o) | Finished r => Finished r end.

(** How many slots have been filled. *)
Definition filled (P : nat) (lp : spsc_pc) : nat := match lp with PushStoreHead _ _ => S P | _ => P end.

(** The producer has room, the consumer a message, beyond their tests. *)
Definition has_room (P : nat) (lp : spsc_pc) (Tp : spsc_view) : Prop :=
  match lp with
  | PushAssign _ _ | PushStoreHead _ _ => Z.of_nat P < Z.of_nat (v_at (cur Tp) tail_v) + cap
  | _ => True
  end.

Definition has_message (D : nat) (lc : spsc_pc) (Tc : spsc_view) : Prop :=
  match lc with
  | PopCopy _ _ | PopStoreTail _ _ _ => (D < v_at (cur Tc) head_v)%nat
  | _ => True
  end.

Record weak_rel (w : weak_spsc) (s : stale_fifo) (Tp : spsc_view) (lp : spsc_pc) (sp : status QueueOp QueueRes)
    (Tc : spsc_view) (lc : spsc_pc) (sc : status QueueOp QueueRes) (P D : nat) (R : nat -> list nat) : Prop := {
  wr_repr : spsc_repr MaxPayloadSize cap (latest w) (now s);
  wr_pushed : Z.of_nat P = pushed (now s);
  wr_popped : Z.of_nat D = popped (now s);
  wr_memory : memory_inv (w_memory w) Tp Tc P D (filled P lp) R;
  wr_seen_pops : seen_pops s <= Z.of_nat (v_at (cur Tp) tail_v);
  wr_seen_pushes : seen_pushes s <= Z.of_nat (v_at (cur Tc) head_v);
  wr_room : has_room P lp Tp;
  wr_message : has_message D lc Tc;
  wr_producer : producer_rel MaxPayloadSize cap (latest w) (now s) lp sp;
  wr_consumer : consumer_rel (latest w) (now s) lc sc;
}.

(** The newest values are the exact counts. *)
Lemma weak_rel_counts w s Tp lp sp Tc lc sc P D R :
  weak_rel w s Tp lp sp Tc lc sc P D R ->
  0 < cap < u64_modulus /\ w_capacity w = cap /\ w_slots w = Z.to_nat cap /\
  head_ (latest w) = u64 (Z.of_nat P) /\ tail_ (latest w) = u64 (Z.of_nat D) /\
  Z.of_nat D <= Z.of_nat P <= Z.of_nat D + cap.
Proof.
  intros [[Hcap Hc Hl _ Hh Ht [Hb Hcnt _] _] HP HD _ _ _ _ _ _ _]. simpl in Hcap, Hl.
  rewrite length_fmap, length_seq in Hl. unfold popped in HD.
  split_and!; [lia | lia | done | done | by rewrite HP | by rewrite HD, Ht | |];
    pose proof (span_size_nonneg (items (now s))); lia.
Qed.

(** [empty()] and [full()] on counters that are at most a round apart. *)
Lemma weak_observed_size w o h t :
  w_capacity w = cap -> 0 <= h - t <= cap -> cap < u64_modulus ->
  weak_observed w o (u64 h) (u64 t) = observe_size cap o (h - t).
Proof.
  intros Hw Hd Hc. unfold weak_observed, observe_size. rewrite Hw, u64_sub, (u64_small (h - t)) by lia.
  destruct o; [| done]. apply eq_true_iff_eq. rewrite !Z.eqb_eq. split; [| intros; u64_eq].
  intros He. apply u64_window_inj in He; lia.
Qed.

Lemma loading_inv w o l T k w' t' :
  (w', t') ∈ loading w o l T k ->
  exists v T', (v, T') ∈ load (w_memory w) o l T /\ w' = w /\ t' = (T', At (k v)).
Proof. intros ([v T'] & [= -> ->] & Hl)%list_elem_of_fmap. by exists v, T'. Qed.

Section steps.

Context (w : weak_spsc) (s : stale_fifo) (Tp : spsc_view) (lp : spsc_pc) (sp : status QueueOp QueueRes).
Context (Tc : spsc_view) (lc : spsc_pc) (sc : status QueueOp QueueRes) (P D : nat) (R : nat -> list nat).

Hypothesis related : weak_rel w s Tp lp sp Tc lc sc P D R.

(** A load by the producer: its own counter exactly, the other one perhaps late. *)
Lemma producer_load o l v T' :
  (v, T') ∈ load (w_memory w) o l Tp -> o = acquire \/ l = head_v ->
  weak_rel w s T' lp sp Tc lc sc P D R /\
  match l with
  | head_v => v = head_ (latest w)
  | tail_v => exists k, v = u64 k /\ seen_pops s <= k <= Z.of_nat (v_at (cur T') tail_v) /\
                        k <= Z.of_nat D /\ Z.of_nat P <= k + cap
  end.
Proof.
  intros Hl Ho. destruct (weak_rel_counts _ _ _ _ _ _ _ _ _ _ _ related) as (_ & _ & _ & Hh & _ & _).
  destruct related as [Hrepr HP HD Hm Hsp Hsc Hroom Hmsg Hpr Hcr].
  pose proof (mi_producer _ _ _ _ _ _ _ Hm) as Hcl.
  pose proof (mi_seen_head _ _ _ _ _ _ _ _ Hm (thread_closed_cur _ _ Hcl)) as Hub.
  pose proof (mi_own_head _ _ _ _ _ _ _ Hm) as Hlb.
  destruct (memory_inv_load _ _ _ _ _ _ _ Tp o l v T' Hm Hcl (mi_sound_p _ _ _ _ _ _ _ Hm) Hl)
    as (Hcl' & Hs' & Hle & k & -> & Hk).
  { destruct Ho as [-> | ->]; [by left | right]. rewrite (mi_head _ _ _ _ _ _ _ Hm). lia. }
  pose proof (vle_at _ _ Hle tail_v) as Ht. pose proof (mi_window _ _ _ _ _ _ _ Hm) as Hwin.
  pose proof (mi_seen_head _ _ _ _ _ _ _ _ Hm (thread_closed_cur _ _ Hcl')) as Hub'.
  pose proof (mi_seen_tail _ _ _ _ _ _ _ _ Hm (thread_closed_cur _ _ Hcl')) as Hubt. split.
  - split; try done; [by eapply memory_inv_producer | lia |]. destruct lp; simpl in *; try done; lia.
  - destruct l; [rewrite Hh; do 2 f_equal; lia |]. exists (Z.of_nat k). split_and!; [done | lia..].
Qed.

Lemma consumer_load o l v T' :
  (v, T') ∈ load (w_memory w) o l Tc -> o = acquire \/ l = tail_v ->
  weak_rel w s Tp lp sp T' lc sc P D R /\
  match l with
  | tail_v => v = tail_ (latest w)
  | head_v => exists k, v = u64 k /\ seen_pushes s <= k <= Z.of_nat (v_at (cur T') head_v) /\
                        Z.of_nat D <= k <= Z.of_nat P
  end.
Proof.
  intros Hl Ho. destruct (weak_rel_counts _ _ _ _ _ _ _ _ _ _ _ related) as (_ & _ & _ & _ & Ht & _).
  destruct related as [Hrepr HP HD Hm Hsp Hsc Hroom Hmsg Hpr Hcr].
  pose proof (mi_consumer _ _ _ _ _ _ _ Hm) as Hcl.
  pose proof (mi_seen_tail _ _ _ _ _ _ _ _ Hm (thread_closed_cur _ _ Hcl)) as Hub.
  pose proof (mi_own_tail _ _ _ _ _ _ _ Hm) as Hlb.
  destruct (memory_inv_load _ _ _ _ _ _ _ Tc o l v T' Hm Hcl (mi_sound_c _ _ _ _ _ _ _ Hm) Hl)
    as (Hcl' & Hs' & Hle & k & -> & Hk).
  { destruct Ho as [-> | ->]; [by left | right]. rewrite (mi_tail _ _ _ _ _ _ _ Hm). lia. }
  pose proof (vle_at _ _ Hle head_v) as Hh. pose proof (mi_ahead _ _ _ _ _ _ _ Hm) as Hah.
  pose proof (mi_seen_head _ _ _ _ _ _ _ _ Hm (thread_closed_cur _ _ Hcl')) as Hubh.
  pose proof (mi_seen_tail _ _ _ _ _ _ _ _ Hm (thread_closed_cur _ _ Hcl')) as Hub'. split.
  - split; try done; [by eapply memory_inv_consumer | lia |]. destruct lc; simpl in *; try done; lia.
  - destruct l; [| rewrite Ht; do 2 f_equal; lia]. exists (Z.of_nat k). split_and!; [done | lia..].
Qed.

(** A thread goes on without changing the memory. *)
Lemma producer_moves lp' sp' k :
  filled P lp' = filled P lp -> has_room P lp' Tp -> k <= Z.of_nat (v_at (cur Tp) tail_v) ->
  producer_rel MaxPayloadSize cap (latest w) (now s) lp' sp' ->
  weak_rel w (mkStale (now s) k (seen_pushes s)) Tp lp' sp' Tc lc sc P D R.
Proof. destruct related. intros Hf Hr Hk Hp. split; try done. by rewrite Hf. Qed.

Lemma consumer_moves lc' sc' k :
  has_message D lc' Tc -> k <= Z.of_nat (v_at (cur Tc) head_v) ->
  consumer_rel (latest w) (now s) lc' sc' ->
  weak_rel w (mkStale (now s) (seen_pops s) k) Tp lp sp Tc lc' sc' P D R.
Proof. destruct related. intros Hr Hk Hp. by split. Qed.

Lemma producer_stutters lp' :
  filled P lp' = filled P lp -> has_room P lp' Tp ->
  producer_rel MaxPayloadSize cap (latest w) (now s) lp' sp -> weak_rel w s Tp lp' sp Tc lc sc P D R.
Proof.
  intros Hf Hr Hp. pose proof (producer_moves lp' sp (seen_pops s) Hf Hr) as H. destruct s. apply H; [| done].
  by destruct related.
Qed.

Lemma consumer_stutters lc' :
  has_message D lc' Tc -> consumer_rel (latest w) (now s) lc' sc -> weak_rel w s Tp lp sp Tc lc' sc P D R.
Proof.
  intros Hr Hp. pose proof (consumer_moves lc' sc (seen_pushes s) Hr) as H. destruct s. apply H; [| done].
  by destruct related.
Qed.

(** What a step of a thread leads to: nothing the contract sees, or one call of it. *)
Definition producer_goes (w' : weak_spsc) (t' : weak_thread) : Prop :=
  exists s' T' l' sp' P', t' = (T', At l') /\ weak_rel w' s' T' l' sp' Tc lc sc P' D R /\
    pushed (now s') <= pushed (now s) + 1 /\
    ((s' = s /\ sp' = sp) \/
     exists o r, sp = Called o /\ sp' = Finished r /\ stale_spec MaxPayloadSize cap s (Producer, o) r s').

Definition consumer_goes (w' : weak_spsc) (t' : weak_thread) : Prop :=
  exists s' T' l' sc' D' R', t' = (T', At l') /\ weak_rel w' s' Tp lp sp T' l' sc' P D' R' /\
    pushed (now s') <= pushed (now s) + 1 /\
    ((s' = s /\ sc' = sc) \/
     exists o r, sc = Called o /\ sc' = Finished r /\ stale_spec MaxPayloadSize cap s (Consumer, o) r s').

Lemma producer_goes_on T' l' :
  weak_rel w s T' l' sp Tc lc sc P D R -> producer_goes w (T', At l').
Proof. intros H. exists s, T', l', sp, P. split_and!; [done | done | lia | by left]. Qed.

Lemma consumer_goes_on T' l' :
  weak_rel w s Tp lp sp T' l' sc P D R -> consumer_goes w (T', At l').
Proof. intros H. exists s, T', l', sc, D, R. split_and!; [done | done | lia | by left]. Qed.

Lemma producer_answers T' l' o r k :
  sp = Called o -> weak_rel w (mkStale (now s) k (seen_pushes s)) T' l' (Finished r) Tc lc sc P D R ->
  stale_spec MaxPayloadSize cap s (Producer, o) r (mkStale (now s) k (seen_pushes s)) ->
  producer_goes w (T', At l').
Proof.
  intros Ho H Hs. exists (mkStale (now s) k (seen_pushes s)), T', l', (Finished r), P.
  split_and!; [done | done | simpl; lia | right; eauto].
Qed.

Lemma consumer_answers T' l' o r k :
  sc = Called o -> weak_rel w (mkStale (now s) (seen_pops s) k) Tp lp sp T' l' (Finished r) P D R ->
  stale_spec MaxPayloadSize cap s (Consumer, o) r (mkStale (now s) (seen_pops s) k) ->
  consumer_goes w (T', At l').
Proof.
  intros Ho H Hs. exists (mkStale (now s) (seen_pops s) k), T', l', (Finished r), D, R.
  split_and!; [done | done | simpl; lia | right; eauto].
Qed.

End steps.

(** *** The producer *)

Lemma step_push_start w s Tp payload sp Tc lc sc P D R w' t' :
  weak_rel w s Tp (PushStart payload) sp Tc lc sc P D R -> (w', t') ∈ weak_step w Tp (PushStart payload) ->
  producer_goes s sp Tc lc sc D R w' t'.
Proof.
  intros Hr Hs. pose proof (wr_producer _ _ _ _ _ _ _ _ _ _ _ Hr) as Hp.
  destruct sp as [| [payload' | | o'] | []]; try done. simpl in Hp. subst payload'. simpl in Hs.
  destruct (Z.ltb_spec MaxPayloadSize (span_size payload)) as [Hbig | Hfit].
  - inv_outcome Hs. exists s, Tp, (PushDone (mkWrite message_too_large 0)), (Finished (Pushed (mkWrite message_too_large 0))), P.
    split; [done |]. split; [| split; [lia | right; eexists _, _; split_and!; [done | done | by constructor]]].
    destruct Hr. by split.
  - apply loading_inv in Hs as (v & T' & Hl & -> & ->).
    destruct (producer_load _ _ _ _ _ _ _ _ _ _ _ Hr relaxed head_v v T' Hl (or_intror eq_refl)) as [Hr' ->].
    eapply producer_goes_on, producer_stutters; [exact Hr' | done | done |]. simpl. split_and!; [done | done | lia].
Qed.

Lemma step_push_load_tail w s Tp payload head sp Tc lc sc P D R w' t' :
  weak_rel w s Tp (PushLoadTail payload head) sp Tc lc sc P D R ->
  (w', t') ∈ weak_step w Tp (PushLoadTail payload head) -> producer_goes s sp Tc lc sc D R w' t'.
Proof.
  intros Hr Hs. pose proof (wr_producer _ _ _ _ _ _ _ _ _ _ _ Hr) as Hp.
  destruct sp as [| [payload' | | o'] | []]; try done. destruct Hp as (-> & -> & Hfit).
  destruct (weak_rel_counts _ _ _ _ _ _ _ _ _ _ _ Hr) as (Hc & Hw & _ & Hh & _ & HPD).
  pose proof (wr_pushed _ _ _ _ _ _ _ _ _ _ _ Hr) as HP. pose proof (wr_popped _ _ _ _ _ _ _ _ _ _ _ Hr) as HD.
  apply loading_inv in Hs as (v & T' & Hl & -> & ->).
  destruct (producer_load _ _ _ _ _ _ _ _ _ _ _ Hr acquire tail_v v T' Hl (or_introl eq_refl))
    as [Hr' (k & -> & Hk & HkD & HPk)].
  rewrite Hh, Hw, u64_sub, u64_small by lia. destruct (Z.eqb_spec (Z.of_nat P - k) cap) as [Hf | Hnf].
  - eapply producer_answers with (r := Pushed (mkWrite full 0)) (k := k); [done | |].
    + eapply producer_moves; [exact Hr' | done | done | lia | done].
    + constructor; lia.
  - eapply producer_goes_on, producer_stutters; [exact Hr' | done | simpl; lia |]. simpl.
    split_and!; [done | done | done |]. unfold popped in HD. lia.
Qed.

Lemma step_push_assign w s Tp payload head sp Tc lc sc P D R w' t' :
  weak_rel w s Tp (PushAssign payload head) sp Tc lc sc P D R -> index_stable cap (pushed (now s) + 1) ->
  (w', t') ∈ weak_step w Tp (PushAssign payload head) -> producer_goes s sp Tc lc sc D R w' t'.
Proof.
  intros Hr Hst Hs. destruct (weak_rel_counts _ _ _ _ _ _ _ _ _ _ _ Hr) as (Hc & Hw & Hn & Hh & Ht & HPD).
  pose proof Hr as [Hrepr HP HD Hm Hsp Hsc Hroom Hmsg Hpr Hcr].
  destruct sp as [| [payload' | | o'] | []]; try done. pose proof Hpr as (-> & -> & _).
  assert (Hix : weak_index w (head_ (latest w)) = position_slot P).
  { unfold weak_index, position_slot. rewrite Hh, Hw, (index_stable_mod cap (pushed (now s) + 1)) by (done || lia). done. }
  assert (Hj : (position_slot P < w_slots w)%nat) by (apply (ring_slot_lt cap); [lia | done]).
  cbn [weak_step] in Hs. rewrite Hix, decide_True in Hs by done.
  destruct (assign _ _ _ _) as [result slot'] eqn:Ea.
  destruct (memory_inv_write (w_memory w) Tp Tc P D R slot') as (T' & Hwr & Hm' & Hat); [lia | done | done |].
  rewrite Hwr in Hs. inv_outcome Hs.
  destruct (producer_step_sim MaxPayloadSize cap (latest w) (now s) (PushAssign payload' (head_ (latest w)))
    (Called (TryPush payload')) (store_slot (latest w) (position_slot P) slot') (PushStoreHead result (head_ (latest w) +u 1)))
    as (a' & sp' & Hrepr' & _ & Hpr' & Hcr' & Hor); [done | done | done | |].
  { unfold spsc_tstep. change (slot_index (latest w) (head_ (latest w))) with (weak_index w (head_ (latest w))).
    rewrite Hix, latest_slot, Ea by done. by apply list_elem_of_singleton. }
  destruct Hor as [[-> ->] | (o & r & _ & -> & _)]; [| done].
  exists s, T', (PushStoreHead result (head_ (latest w) +u 1)), (Called (TryPush payload')), P.
  split; [done |]. split; [| split; [lia | by left]].
  split; rewrite ?latest_set_plain; simpl in *; rewrite ?Hat; done || by apply Hcr'.
Qed.

Lemma step_push_store_head w s Tp result sequence sp Tc lc sc P D R w' t' :
  weak_rel w s Tp (PushStoreHead result sequence) sp Tc lc sc P D R -> index_stable cap (pushed (now s) + 1) ->
  (w', t') ∈ weak_step w Tp (PushStoreHead result sequence) -> producer_goes s sp Tc lc sc D R w' t'.
Proof.
  intros Hr Hst Hs. pose proof Hr as [Hrepr HP HD Hm Hsp Hsc Hroom Hmsg Hpr Hcr].
  destruct sp as [| [payload | | o'] | []]; try done. pose proof Hpr as (-> & -> & Hfit & Hnf & _).
  destruct (memory_inv_store_head (w_memory w) Tp Tc P D R) as (T' & m & Hstore & Hv & Hm' & Hat); [done | done |].
  assert (HS : u64 (Z.of_nat (S P)) = pushed (now s) +u 1) by u64_eq.
  rewrite HS in Hstore, Hv. cbn [weak_step] in Hs. unfold storing in Hs. rewrite Hstore in Hs. inv_outcome Hs.
  destruct (producer_step_sim MaxPayloadSize cap (latest w) (now s) _ _
    (store_head (latest w) (pushed (now s) +u 1)) (PushDone (mkWrite success (pushed (now s) +u 1))) Hrepr Hst Hpr)
    as (a' & sp' & Hrepr' & Hpu & Hpr' & Hcr' & Hor); [by apply list_elem_of_singleton |].
  destruct Hor as [[-> ->] | (o & r & [= <-] & -> & Hspec)]; [done |].
  inversion Hspec as [a payload0 r0 a0 Hpush | |]; subst.
  pose proof Hpush as Hpush'. unfold fifo_push in Hpush'.
  rewrite (proj2 (Z.ltb_ge _ _)), (proj2 (Z.eqb_neq _ _)) in Hpush' by (done || lia). injection Hpush' as <- <-.
  set (a' := mkFifo _ _) in *.
  assert (Hpop : popped a' = popped (now s)).
  { unfold popped, a', span_size. simpl. rewrite length_app. simpl. lia. }
  exists (mkStale a' (Z.of_nat (v_at (cur Tp) tail_v)) (seen_pushes s)), T',
    (PushDone (mkWrite success (pushed (now s) +u 1))), (Finished (Pushed (mkWrite success (pushed (now s) +u 1)))), (S P).
  split; [done |]. split; [| split; [done |]].
  - split; rewrite ?latest_append, ?Hv; simpl; rewrite ?Hat, ?Hpop; first [done | lia | by apply Hcr'].
  - right. eexists _, _. split; [done |]. split; [done |].
    pose proof (mi_seen_tail _ _ _ _ _ _ _ _ Hm (thread_closed_cur _ _ (mi_producer _ _ _ _ _ _ _ Hm))).
    simpl in Hroom. constructor; [done | lia | lia | done].
Qed.

(** The load that answers an observer of the producer: the one of [tail_]. *)
Lemma producer_observes w s Tp lp o Tc lc sc P D R T' v l' :
  weak_rel w s Tp lp (Called (Observe o)) Tc lc sc P D R -> filled P lp = P ->
  (v, T') ∈ load (w_memory w) acquire tail_v Tp ->
  l' = ObsTail Producer o v \/ l' = ObsDone Producer (weak_observed w o (head_ (latest w)) v) ->
  producer_goes s (Called (Observe o)) Tc lc sc D R w (T', At l').
Proof.
  intros Hr Hf Hl Hl'. destruct (weak_rel_counts _ _ _ _ _ _ _ _ _ _ _ Hr) as (Hc & Hw & _ & Hh & _ & HPD).
  pose proof (wr_pushed _ _ _ _ _ _ _ _ _ _ _ Hr) as HP. pose proof (wr_popped _ _ _ _ _ _ _ _ _ _ _ Hr) as HD.
  destruct (producer_load _ _ _ _ _ _ _ _ _ _ _ Hr acquire tail_v v T' Hl (or_introl eq_refl))
    as [Hr' (k & -> & Hk & HkD & HPk)].
  assert (Hobs : weak_observed w o (head_ (latest w)) (u64 k) = observe_size cap o (pushed (now s) - k)).
  { rewrite Hh, weak_observed_size by lia. by rewrite HP. }
  eapply producer_answers with (r := Observed (observe_size cap o (pushed (now s) - k))) (k := k); [done | |].
  - eapply producer_moves; [exact Hr' | | | lia |]; destruct Hl' as [-> | ->]; simpl; rewrite ?Hobs; done.
  - constructor. lia.
Qed.

Lemma step_producer_observer w s Tp lp sp Tc lc sc P D R w' t' :
  weak_rel w s Tp lp sp Tc lc sc P D R -> (w', t') ∈ weak_step w Tp lp ->
  match lp with ObsStart Producer _ | ObsHead Producer _ _ | ObsTail Producer _ _ => True | _ => False end ->
  producer_goes s sp Tc lc sc D R w' t'.
Proof.
  intros Hr Hs Hlp. pose proof (wr_producer _ _ _ _ _ _ _ _ _ _ _ Hr) as Hp.
  destruct lp as [| | | | | | | | | | | | [] o | [] o head | [] o tail | [] b |]; try done;
    destruct sp as [| [| | o'] | [| | b']]; try done; simpl in Hs, Hp.
  - subst o'. apply elem_of_app in Hs as [Hs | Hs]; apply loading_inv in Hs as (v & T' & Hl & -> & ->).
    + destruct (producer_load _ _ _ _ _ _ _ _ _ _ _ Hr acquire head_v v T' Hl (or_introl eq_refl)) as [Hr' ->].
      by eapply producer_goes_on, producer_stutters; [exact Hr' | ..].
    + eapply producer_observes; [exact Hr | done | done | by left].
  - destruct Hp as [-> ->]. apply loading_inv in Hs as (v & T' & Hl & -> & ->).
    eapply producer_observes; [exact Hr | done | done | by right].
  - subst b'. apply loading_inv in Hs as (v & T' & Hl & -> & ->).
    destruct (producer_load _ _ _ _ _ _ _ _ _ _ _ Hr acquire head_v v T' Hl (or_introl eq_refl)) as [Hr' ->].
    by eapply producer_goes_on, producer_stutters; [exact Hr' | ..].
Qed.

Lemma weak_producer_step w s Tp lp sp Tc lc sc P D R w' t' :
  weak_rel w s Tp lp sp Tc lc sc P D R -> index_stable cap (pushed (now s) + 1) -> (w', t') ∈ weak_step w Tp lp ->
  producer_goes s sp Tc lc sc D R w' t'.
Proof.
  intros Hr Hst Hs. pose proof (wr_producer _ _ _ _ _ _ _ _ _ _ _ Hr) as Hp.
  destruct lp as [| | | | | | | | | | | | [] o | [] o head | [] o tail | [] b |]; try done;
    try (by apply not_elem_of_nil in Hs).
  - by eapply step_push_start.
  - by eapply step_push_load_tail.
  - by eapply step_push_assign.
  - by eapply step_push_store_head.
  - by eapply step_producer_observer.
  - by eapply step_producer_observer.
  - by eapply step_producer_observer.
Qed.

(** *** The consumer *)

Lemma step_pop_loads w s Tp lp sp Tc lc sc P D R w' t' :
  weak_rel w s Tp lp sp Tc lc sc P D R -> (w', t') ∈ weak_step w Tc lc ->
  match lc with PopStart _ | PopLoadHead _ _ => True | _ => False end ->
  consumer_goes s Tp lp sp sc P w' t'.
Proof.
  intros Hr Hs Hlc. destruct (weak_rel_counts _ _ _ _ _ _ _ _ _ _ _ Hr) as (Hc & Hw & _ & _ & Ht & HPD).
  pose proof (wr_pushed _ _ _ _ _ _ _ _ _ _ _ Hr) as HP. pose proof (wr_popped _ _ _ _ _ _ _ _ _ _ _ Hr) as HD.
  pose proof (wr_consumer _ _ _ _ _ _ _ _ _ _ _ Hr) as Hp.
  destruct lc as [| | | | | | | d | d tail | | | | | | | |]; try done;
    destruct sc as [| [| d' |] | []]; try done; cbn [weak_step consumer_rel] in Hs, Hp;
    apply loading_inv in Hs as (v & T' & Hl & -> & ->).
  - subst d'. destruct (consumer_load _ _ _ _ _ _ _ _ _ _ _ Hr relaxed tail_v v T' Hl (or_intror eq_refl)) as [Hr' ->].
    by eapply consumer_goes_on, consumer_stutters; [exact Hr' | ..].
  - destruct Hp as [-> ->].
    destruct (consumer_load _ _ _ _ _ _ _ _ _ _ _ Hr acquire head_v v T' Hl (or_introl eq_refl))
      as [Hr' (k & -> & Hk & HkP)].
    cbv beta. destruct (Z.eqb_spec (tail_ (latest w)) (u64 k)) as [He | Hne]; rewrite Ht in *.
    + apply u64_window_inj in He; [| lia].
      eapply consumer_answers with (r := Popped (mkRead empty 0 0) d') (k := k); [done | |].
      * eapply consumer_moves; [exact Hr' | done | lia | done].
      * constructor; lia.
    + assert (Z.of_nat D <> k) by (intros <-; done).
      eapply consumer_goes_on, consumer_stutters; [exact Hr' | simpl; lia |]. simpl. split_and!; [done | done |].
      unfold popped in HD. intros Hnil. rewrite Hnil in HD. unfold span_size in HD. simpl in HD. lia.
Qed.

(** Reading the front slot does not race, and changes nothing but what the
    consumer knows. *)
Lemma pop_reads w s Tp lp sp Tc destination sc P D R :
  weak_rel w s Tp lp sp Tc (PopCopy destination (tail_ (latest w))) sc P D R ->
  index_stable cap (pushed (now s)) ->
  weak_index w (tail_ (latest w)) = position_slot D /\ (position_slot D < w_slots w)%nat /\
  (D < v_at (cur Tc) head_v <= P)%nat /\
  exists M' T', read (w_memory w) (position_slot D) Tc = Some (c_value (plains (w_memory w) (position_slot D)), M', T') /\
    v_at (cur T') = v_at (cur Tc) /\
    forall l' sc' k, has_message D l' T' -> k <= Z.of_nat (v_at (cur Tc) head_v) ->
      consumer_rel (latest w) (now s) l' sc' ->
      weak_rel (with_memory w M') (mkStale (now s) (seen_pops s) k) Tp lp sp T' l' sc' P D
        (update R (position_slot D) (R (position_slot D) ++ [D])).
Proof.
  intros Hr Hst. destruct (weak_rel_counts _ _ _ _ _ _ _ _ _ _ _ Hr) as (Hc & Hw & Hn & Hh & Ht & HPD).
  pose proof Hr as [Hrepr HP HD Hm Hsp Hsc Hroom Hmsg Hpr Hcr].
  pose proof (mi_seen_head _ _ _ _ _ _ _ _ Hm (thread_closed_cur _ _ (mi_consumer _ _ _ _ _ _ _ Hm))) as Hub.
  simpl in Hmsg.
  assert (Hix : weak_index w (tail_ (latest w)) = position_slot D).
  { unfold weak_index, position_slot. rewrite Ht, Hw, (index_stable_mod cap (pushed (now s))) by (done || lia). done. }
  assert (Hj : (position_slot D < w_slots w)%nat) by (apply (ring_slot_lt cap); [lia | done]).
  assert (HW : Z.of_nat (filled P lp) <= Z.of_nat D + cap /\ (P <= filled P lp)%nat).
  { destruct lp; simpl in *; try lia.
    pose proof (mi_seen_tail _ _ _ _ _ _ _ _ Hm (thread_closed_cur _ _ (mi_producer _ _ _ _ _ _ _ Hm))). lia. }
  destruct (memory_inv_read (w_memory w) Tp Tc P D (filled P lp) R) as (T' & Hrd & Hm' & Hat); [lia | done | done | lia | lia |].
  split; [done |]. split; [done |]. split; [lia |]. eexists _, T'. split; [exact Hrd |]. split; [done |].
  intros l' sc' k Hm'' Hk Hrel.
  split; rewrite ?latest_set_plain, ?store_slot_same by (by apply latest_slot); simpl; rewrite ?Hat; done.
Qed.

Lemma step_pop_copy w s Tp lp sp Tc destination tail sc P D R w' t' :
  weak_rel w s Tp lp sp Tc (PopCopy destination tail) sc P D R -> index_stable cap (pushed (now s) + 1) ->
  (w', t') ∈ weak_step w Tc (PopCopy destination tail) -> consumer_goes s Tp lp sp sc P w' t'.
Proof.
  intros Hr Hst Hs. pose proof Hr as [Hrepr HP HD _ _ Hsc _ Hmsg _ Hcr].
  destruct sc as [| [| d |] | []]; try done. pose proof Hcr as (-> & -> & _).
  assert (Hst' : index_stable cap (pushed (now s))) by (eapply index_stable_le; [| exact Hst]; lia).
  destruct (pop_reads _ _ _ _ _ _ _ _ _ _ _ Hr Hst') as (Hix & Hj & Hub & M' & T' & Hrd & Hat & Hstay).
  cbn [weak_step] in Hs. rewrite Hix, decide_True, Hrd in Hs by done.
  destruct (copy_to _ _) as [result d'] eqn:Ec. inv_outcome Hs. set (l' := if ok _ then _ else _).
  destruct (consumer_step_sim MaxPayloadSize cap (latest w) (now s) (PopCopy d (tail_ (latest w)))
    (Called (TryPop d)) (latest w) l')
    as (a' & sc' & Hrepr' & Hpu & Hcr' & Hpr' & Hor); [done | done | done | |].
  { unfold spsc_tstep. change (slot_index (latest w) (tail_ (latest w))) with (weak_index w (tail_ (latest w))).
    rewrite Hix, latest_slot, Ec by done. unfold l'. destruct (ok _); by apply list_elem_of_singleton. }
  assert (Hmsg' : has_message D l' T').
  { unfold l'. destruct (ok _); [simpl; by rewrite Hat | done]. }
  destruct Hor as [[-> ->] | (o & r & [= <-] & -> & Hspec)].
  - eexists s, T', l', _, D, _. split; [done |]. split; [| split; [lia | by left]].
    specialize (Hstay l' (Called (TryPop d)) (seen_pushes s) Hmsg' Hsc Hcr'). by destruct s.
  - inversion Hspec as [| a d0 r0 d1 a1 Hpop |]; subst.
    assert (a' = now s) as ->.
    { unfold l' in Hcr'. destruct (ok (r_status result)) eqn:Hok; [done |]. destruct Hcr' as [<- <-].
      unfold fifo_pop in Hpop. destruct (items (now s)); [by injection Hpop as <- <- <- |].
      destruct (deliver _ _). injection Hpop as <- <- <-. by rewrite Hok. }
    exists (mkStale (now s) (seen_pops s) (Z.of_nat (v_at (cur Tc) head_v))). eexists T', l', _, D, _.
    split; [done |]. split; [by apply Hstay |]. split; [simpl; lia |].
    right. eexists _, _. split; [done |]. split; [done |]. eapply stale_delivered; [lia | lia | done].
Qed.

Lemma step_pop_store_tail w s Tp lp sp Tc result destination tail sc P D R w' t' :
  weak_rel w s Tp lp sp Tc (PopStoreTail result destination tail) sc P D R ->
  index_stable cap (pushed (now s) + 1) ->
  (w', t') ∈ weak_step w Tc (PopStoreTail result destination tail) -> consumer_goes s Tp lp sp sc P w' t'.
Proof.
  intros Hr Hst Hs. destruct (weak_rel_counts _ _ _ _ _ _ _ _ _ _ _ Hr) as (_ & _ & _ & _ & Ht & _).
  pose proof Hr as [Hrepr HP HD Hm Hsp Hsc Hroom Hmsg Hpr Hcr].
  destruct sc as [| [| d |] | []]; try done. pose proof Hcr as (-> & Hok & msg & rest & Hi & Hd).
  destruct (memory_inv_store_tail (w_memory w) Tp Tc P D (filled P lp) R) as (T' & m & Hstore & Hv & Hm' & Hat); [done | done |].
  assert (HS : u64 (Z.of_nat (S D)) = tail_ (latest w) +u 1).
  { rewrite Ht, u64_add_l. u64_eq. }
  rewrite HS in Hstore, Hv. cbn [weak_step] in Hs. unfold storing in Hs. rewrite Hstore in Hs. inv_outcome Hs.
  destruct (consumer_step_sim MaxPayloadSize cap (latest w) (now s) _ _
    (store_tail (latest w) (tail_ (latest w) +u 1)) (PopDone result destination) Hrepr
    ltac:(eapply index_stable_le; [| exact Hst]; lia) Hcr)
    as (a' & sc' & Hrepr' & Hpu & Hcr' & Hpr' & Hor); [by apply list_elem_of_singleton |].
  destruct Hor as [[-> ->] | (o & r & [= <-] & -> & Hspec)]; [done |].
  inversion Hspec as [| a d0 r0 d1 a1 Hpop |]; subst.
  pose proof Hpop as Hpop'. unfold fifo_pop in Hpop'. rewrite Hi, Hd, Hok in Hpop'. injection Hpop' as <- <- <-.
  set (a' := mkFifo _ _) in *.
  assert (Hpopped : popped a' = popped (now s) + 1).
  { unfold popped, a', span_size. rewrite Hi. simpl. lia. }
  pose proof (mi_seen_head _ _ _ _ _ _ _ _ Hm (thread_closed_cur _ _ (mi_consumer _ _ _ _ _ _ _ Hm))).
  exists (mkStale a' (seen_pops s) (Z.of_nat (v_at (cur Tc) head_v))), T', (PopDone result destination),
    (Finished (Popped result destination)), (S D), R.
  split; [done |]. split; [| split; [simpl; lia |]].
  - split; rewrite ?latest_append, ?Hv; simpl; rewrite ?Hat, ?Hpopped; first [done | lia | by apply Hpr'].
  - right. eexists _, _. split; [done |]. split; [done |]. simpl in Hmsg. eapply stale_delivered; [lia | lia | done].
Qed.

(** The load that answers an observer of the consumer: the one of [head_]. *)
Lemma consumer_observes w s Tp lp sp Tc lc o P D R T' v l' :
  weak_rel w s Tp lp sp Tc lc (Called (Observe o)) P D R ->
  (v, T') ∈ load (w_memory w) acquire head_v Tc ->
  l' = ObsHead Consumer o v \/ l' = ObsDone Consumer (weak_observed w o v (tail_ (latest w))) ->
  consumer_goes s Tp lp sp (Called (Observe o)) P w (T', At l').
Proof.
  intros Hr Hl Hl'. destruct (weak_rel_counts _ _ _ _ _ _ _ _ _ _ _ Hr) as (Hc & Hw & _ & _ & Ht & HPD).
  pose proof (wr_pushed _ _ _ _ _ _ _ _ _ _ _ Hr) as HP. pose proof (wr_popped _ _ _ _ _ _ _ _ _ _ _ Hr) as HD.
  destruct (consumer_load _ _ _ _ _ _ _ _ _ _ _ Hr acquire head_v v T' Hl (or_introl eq_refl))
    as [Hr' (k & -> & Hk & HkP)].
  assert (Hobs : weak_observed w o (u64 k) (tail_ (latest w)) = observe_size cap o (k - popped (now s))).
  { rewrite Ht, weak_observed_size by lia. by rewrite HD. }
  eapply consumer_answers with (r := Observed (observe_size cap o (k - popped (now s)))) (k := k); [done | |].
  - eapply consumer_moves; [exact Hr' | | lia |]; destruct Hl' as [-> | ->]; simpl; rewrite ?Hobs; done.
  - constructor. lia.
Qed.

Lemma step_consumer_observer w s Tp lp sp Tc lc sc P D R w' t' :
  weak_rel w s Tp lp sp Tc lc sc P D R -> (w', t') ∈ weak_step w Tc lc ->
  match lc with ObsStart Consumer _ | ObsHead Consumer _ _ | ObsTail Consumer _ _ => True | _ => False end ->
  consumer_goes s Tp lp sp sc P w' t'.
Proof.
  intros Hr Hs Hlp. pose proof (wr_consumer _ _ _ _ _ _ _ _ _ _ _ Hr) as Hp.
  destruct lc as [| | | | | | | | | | | | [] o | [] o head | [] o tail | [] b |]; try done;
    destruct sc as [| [| | o'] | [| | b']]; try done; simpl in Hs, Hp.
  - subst o'. apply elem_of_app in Hs as [Hs | Hs]; apply loading_inv in Hs as (v & T' & Hl & -> & ->).
    + eapply consumer_observes; [exact Hr | done | by left].
    + destruct (consumer_load _ _ _ _ _ _ _ _ _ _ _ Hr acquire tail_v v T' Hl (or_introl eq_refl)) as [Hr' ->].
      by eapply consumer_goes_on, consumer_stutters; [exact Hr' | ..].
  - subst b'. apply loading_inv in Hs as (v & T' & Hl & -> & ->).
    destruct (consumer_load _ _ _ _ _ _ _ _ _ _ _ Hr acquire tail_v v T' Hl (or_introl eq_refl)) as [Hr' ->].
    by eapply consumer_goes_on, consumer_stutters; [exact Hr' | ..].
  - destruct Hp as [-> ->]. apply loading_inv in Hs as (v & T' & Hl & -> & ->).
    eapply consumer_observes; [exact Hr | done | by right].
Qed.

Lemma weak_consumer_step w s Tp lp sp Tc lc sc P D R w' t' :
  weak_rel w s Tp lp sp Tc lc sc P D R -> index_stable cap (pushed (now s) + 1) -> (w', t') ∈ weak_step w Tc lc ->
  consumer_goes s Tp lp sp sc P w' t'.
Proof.
  intros Hr Hst Hs. pose proof (wr_consumer _ _ _ _ _ _ _ _ _ _ _ Hr) as Hp.
  destruct lc as [| | | | | | | | | | | | [] o | [] o head | [] o tail | [] b |]; try done;
    try (by apply not_elem_of_nil in Hs).
  - by eapply step_pop_loads.
  - by eapply step_pop_loads.
  - by eapply step_pop_copy.
  - by eapply step_pop_store_tail.
  - by eapply step_consumer_observer.
  - by eapply step_consumer_observer.
  - by eapply step_consumer_observer.
Qed.

(** *** Calls and returns *)

Lemma producer_relabel w s Tp lp sp Tc lc sc P D R lp' sp' :
  weak_rel w s Tp lp sp Tc lc sc P D R -> filled P lp' = filled P lp -> has_room P lp' Tp ->
  producer_rel MaxPayloadSize cap (latest w) (now s) lp' sp' -> weak_rel w s Tp lp' sp' Tc lc sc P D R.
Proof.
  intros Hr Hf Hroom Hp. pose proof (producer_moves _ _ _ _ _ _ _ _ _ _ _ Hr lp' sp' (seen_pops s) Hf Hroom) as H.
  destruct s. apply H; [| done]. by destruct Hr.
Qed.

Lemma consumer_relabel w s Tp lp sp Tc lc sc P D R lc' sc' :
  weak_rel w s Tp lp sp Tc lc sc P D R -> has_message D lc' Tc ->
  consumer_rel (latest w) (now s) lc' sc' -> weak_rel w s Tp lp sp Tc lc' sc' P D R.
Proof.
  intros Hr Hmsg Hp. pose proof (consumer_moves _ _ _ _ _ _ _ _ _ _ _ Hr lc' sc' (seen_pushes s) Hmsg) as H.
  destruct s. apply H; [| done]. by destruct Hr.
Qed.

Lemma weak_call_inv T l who o t' :
  weak_call (T, At l) (who, o) = Some t' ->
  caller l = Some who /\ exists l', spsc_call l o = Some l' /\ t' = (T, At l').
Proof.
  unfold weak_call. simpl. case_decide as Hc; [| done]. intros H. apply bind_Some in H as (l' & Hl & [= <-]). eauto.
Qed.

Lemma weak_ret_inv T l r t' :
  weak_ret (T, At l) = Some (r, t') -> exists l', spsc_ret l = Some (r, l') /\ t' = (T, At l').
Proof. unfold weak_ret. simpl. intros H. apply bind_Some in H as ([r' l'] & Hl & [= <- <-]). eauto. Qed.

Lemma spsc_call_label P D l o l' T :
  spsc_call l o = Some l' -> filled P l' = filled P l /\ has_room P l' T /\ has_message D l' T.
Proof. destruct l, o; intros; simplify_eq/=; done. Qed.

Lemma spsc_ret_label P D l r l' T :
  spsc_ret l = Some (r, l') -> filled P l' = filled P l /\ has_room P l' T /\ has_message D l' T.
Proof. destruct l; intros; simplify_eq/=; try done. destruct who; by simplify_eq/=. Qed.

(** ** The simulation as a whole *)

Definition weak_sim (n : nat) (p : pool weak_spsc weak_thread)
    (c : pool stale_fifo (status (role * QueueOp) QueueRes)) : Prop :=
  exists Tp lp sp Tc lc sc P D R,
    threads p = [(Tp, At lp); (Tc, At lc)] /\ threads c = [by_role Producer sp; by_role Consumer sc] /\
    weak_rel (shared p) (shared c) Tp lp sp Tc lc sc P D R /\ pushed (now (shared c)) <= Z.of_nat n.

Abbreviation contract_step := (canon_step (strict (stale_spec MaxPayloadSize cap))).

Lemma weak_call_sim n w ts s Tp lp sp Tc lc sc P D R t x c x' :
  weak_rel w s Tp lp sp Tc lc sc P D R -> ts = [(Tp, At lp); (Tc, At lc)] -> ts !! t = Some x ->
  weak_call x c = Some x' -> pushed (now s) <= Z.of_nat n ->
  exists c', match_step contract_step (mkPool s [by_role Producer sp; by_role Consumer sc]) (Some (Call t c)) c' /\
    weak_sim (S n) (mkPool w (<[t := x']> ts)) c'.
Proof.
  intros Hr -> Ht Hcall Hn. destruct c as [who o].
  apply two_threads_inv in Ht as [[-> ->] | [-> ->]]; apply weak_call_inv in Hcall as (Hwho & l' & Hl & ->).
  - destruct (producer_call_rel MaxPayloadSize cap (latest w) (now s) lp o l' sp Hl (wr_producer _ _ _ _ _ _ _ _ _ _ _ Hr)) as [-> Hp].
    assert (who = Producer) as -> by (destruct lp; simplify_eq/=; try done; by destruct (wr_producer _ _ _ _ _ _ _ _ _ _ _ Hr)).
    destruct (spsc_call_label P D lp o l' Tp Hl) as (Hf & Hroom & _).
    eexists. split; [by eapply match_one, (canon_call _ _ _ 0) |].
    exists Tp, l', (Called o), Tc, lc, sc, P, D, R. split_and!; [done | done | by eapply producer_relabel | simpl; lia].
  - destruct (consumer_call_rel (latest w) (now s) lc o l' sc Hl (wr_consumer _ _ _ _ _ _ _ _ _ _ _ Hr)) as [-> Hp].
    assert (who = Consumer) as -> by (destruct lc; simplify_eq/=; try done; by destruct (wr_consumer _ _ _ _ _ _ _ _ _ _ _ Hr)).
    destruct (spsc_call_label P D lc o l' Tc Hl) as (_ & _ & Hmsg).
    eexists. split; [by eapply match_one, (canon_call _ _ _ 1) |].
    exists Tp, lp, sp, Tc, l', (Called o), P, D, R. split_and!; [done | done | by eapply consumer_relabel | simpl; lia].
Qed.

Lemma weak_ret_sim n w ts s Tp lp sp Tc lc sc P D R t x r x' :
  weak_rel w s Tp lp sp Tc lc sc P D R -> ts = [(Tp, At lp); (Tc, At lc)] -> ts !! t = Some x ->
  weak_ret x = Some (r, x') -> pushed (now s) <= Z.of_nat n ->
  exists c', match_step contract_step (mkPool s [by_role Producer sp; by_role Consumer sc]) (Some (Ret t r)) c' /\
    weak_sim (S n) (mkPool w (<[t := x']> ts)) c'.
Proof.
  intros Hr -> Ht Hret Hn.
  apply two_threads_inv in Ht as [[-> ->] | [-> ->]]; apply weak_ret_inv in Hret as (l' & Hl & ->).
  - destruct (producer_ret_rel MaxPayloadSize cap (latest w) (now s) lp r l' sp Hl (wr_producer _ _ _ _ _ _ _ _ _ _ _ Hr)) as [-> Hp].
    destruct (spsc_ret_label P D lp r l' Tp Hl) as (Hf & Hroom & _).
    eexists. split; [by eapply match_one, (canon_ret _ _ _ 0) |].
    exists Tp, l', Idle, Tc, lc, sc, P, D, R. split_and!; [done | done | by eapply producer_relabel | simpl; lia].
  - destruct (consumer_ret_rel (latest w) (now s) lc r l' sc Hl (wr_consumer _ _ _ _ _ _ _ _ _ _ _ Hr)) as [-> Hp].
    destruct (spsc_ret_label P D lc r l' Tc Hl) as (_ & _ & Hmsg).
    eexists. split; [by eapply match_one, (canon_ret _ _ _ 1) |].
    exists Tp, lp, sp, Tc, l', Idle, P, D, R. split_and!; [done | done | by eapply consumer_relabel | simpl; lia].
Qed.

Lemma weak_tau_sim n w ts s Tp lp sp Tc lc sc P D R t x w' x' :
  weak_rel w s Tp lp sp Tc lc sc P D R -> ts = [(Tp, At lp); (Tc, At lc)] -> ts !! t = Some x ->
  (w', x') ∈ weak_tstep w x -> pushed (now s) <= Z.of_nat n -> index_stable cap (pushed (now s) + 1) ->
  exists c', match_step contract_step (mkPool s [by_role Producer sp; by_role Consumer sc]) None c' /\
    weak_sim (S n) (mkPool w' (<[t := x']> ts)) c'.
Proof.
  intros Hr -> Ht Hstep Hn Hst.
  apply two_threads_inv in Ht as [[-> ->] | [-> ->]].
  - destruct (weak_producer_step _ _ _ _ _ _ _ _ _ _ _ w' x' Hr Hst Hstep)
      as (s' & T' & l' & sp' & P' & -> & Hr' & Hpu & [[-> ->] | (o & r & -> & -> & Hspec)]).
    + eexists. split; [apply match_stutter |].
      exists T', l', sp, Tc, lc, sc, P', D, R. split_and!; [done | done | done | simpl; lia].
    + eexists. split; [by eapply match_one, (canon_lin _ _ _ 0) |].
      exists T', l', (Finished r), Tc, lc, sc, P', D, R. split_and!; [done | done | done | simpl; lia].
  - destruct (weak_consumer_step _ _ _ _ _ _ _ _ _ _ _ w' x' Hr Hst Hstep)
      as (s' & T' & l' & sc' & D' & R' & -> & Hr' & Hpu & [[-> ->] | (o & r & -> & -> & Hspec)]).
    + eexists. split; [apply match_stutter |].
      exists Tp, lp, sp, T', l', sc, P, D', R'. split_and!; [done | done | done | simpl; lia].
    + eexists. split; [by eapply match_one, (canon_lin _ _ _ 1) |].
      exists Tp, lp, sp, T', l', (Finished r), P, D', R'. split_and!; [done | done | done | simpl; lia].
Qed.

Lemma weak_simulates n p l p' c :
  index_stable cap (Z.of_nat (S n)) -> weak_sim n p c -> pool_step p l p' ->
  exists c', match_step contract_step c l c' /\ weak_sim (S n) p' c'.
Proof.
  intros Hst (Tp & lp & sp & Tc & lc & sc & P & D & R & Hp & Hc & Hr & Hn) Hs. destruct c as [s cs]. simpl in *. subst cs.
  assert (Hst1 : index_stable cap (pushed (now s) + 1)) by (eapply index_stable_le; [| exact Hst]; lia).
  destruct Hs as [w ts t x o x' Ht Hcall | w ts t x w' x' Ht Hstep | w ts t x r x' Ht Hret].
  - by eapply weak_call_sim.
  - by eapply weak_tau_sim.
  - by eapply weak_ret_sim.
Qed.

End invariant.

Lemma weak_init_rel cap q :
  0 <= MaxPayloadSize -> 0 <= cap < u64_modulus -> SPSCQueue_new MaxPayloadSize cap = inr q ->
  weak_rel cap (weak_new q) stale_empty new_thread ProducerIdle Idle new_thread ConsumerIdle Idle 0 0 (fun _ => []).
Proof.
  intros HM Hc Hnew. pose proof (spsc_repr_new MaxPayloadSize cap q HM Hc Hnew) as Hr.
  pose proof (repr_capacity_range _ _ _ _ Hr) as Hpos.
  assert (Hq : head_ q = 0 /\ tail_ q = 0).
  { rewrite (repr_head _ _ _ _ Hr), (repr_tail _ _ _ _ Hr). by unfold span_size. }
  assert (Hz : sound cap (fun _ => []) view_zero) by (split; [intros j; simpl; lia | by intros j r q' Hr' Hq']).
  assert (Hcl : closed view_zero (w_memory (weak_new q))) by (split; [intros l; simpl; lia | done]).
  assert (Ht : thread_closed new_thread (w_memory (weak_new q))) by (by split).
  assert (Hm : forall l k m, hist (w_memory (weak_new q)) l !! k = Some m ->
    k = 0%nat /\ m = Views.mkMessage 0 view_zero).
  { intros l k m Hk. apply list_lookup_singleton_Some in Hk as [-> <-]. split; [done |]. destruct Hq as [-> ->]. by destruct l. }
  split; simpl; try done; [by rewrite latest_new |].
  split; simpl; try done; try lia.
  - split; [done |]. intros l k m Hk. by destruct (Hm l k m Hk) as [_ ->].
  - intros l k m Hk. by destruct (Hm l k m Hk) as [-> ->].
  - intros j. simpl. lia.
Qed.

Lemma weak_exec_sim cap q n h p :
  0 <= MaxPayloadSize -> 0 <= cap < u64_modulus -> SPSCQueue_new MaxPayloadSize cap = inr q ->
  index_stable cap (Z.of_nat n) -> exec pool_step n (weak_init q) h p ->
  exists m c, exec (canon_step (strict (stale_spec MaxPayloadSize cap))) m
                (mkPool stale_empty (replicate 2 Idle)) h c /\ weak_sim cap n p c.
Proof.
  intros HM Hc Hnew Hst Hex.
  eapply (simulation_exec pool_step (canon_step (strict (stale_spec MaxPayloadSize cap))) (weak_sim cap)
            (fun n => index_stable cap (Z.of_nat n))); [| | exact Hst | | exact Hex].
  - intros k. apply index_stable_le. lia.
  - intros k p1 l p2 c. apply weak_simulates.
  - eexists new_thread, ProducerIdle, Idle, new_thread, ConsumerIdle, Idle, 0%nat, 0%nat, (fun _ => []).
    split_and!; [done | done | by apply weak_init_rel | done].
Qed.

End SPSCWeak.

#[export] Existing Instance spsc_weak_object.

(** C2: [SPSCQueue] with the memory orders of the header: whatever messages the
    loads return, every history of one producer and one consumer is a history of the
    bounded FIFO executed atomically, in which a thread decides [full] or [empty] with
    a count of the other thread's operations that may be late but never goes back. *)
Theorem spsc_weak_linearizable MaxPayloadSize cap q n h p :
  0 <= MaxPayloadSize -> 0 <= cap < u64_modulus -> SPSCQueue_new MaxPayloadSize cap = inr q ->
  index_stable cap (Z.of_nat n) ->
  exec (pool_step (ConcurrentObject0 := spsc_weak_object MaxPayloadSize)) n (weak_init q) h p ->
  linearizable (strict (stale_spec MaxPayloadSize cap)) stale_empty 2 h.
Proof.
  intros HM Hc Hnew Hst Hex.
  destruct (weak_exec_sim MaxPayloadSize cap q n h p) as (m & c & Hc' & _); try done. by exists m, c.
Qed.

(** C9: In no execution with the memory orders of the header is an access to a slot a
    data race, or a subscript outside the ring: release stores and acquire loads of the
    counters order every write and every read of a slot. *)
Theorem spsc_weak_race_free MaxPayloadSize cap q n h p :
  0 <= MaxPayloadSize -> 0 <= cap < u64_modulus -> SPSCQueue_new MaxPayloadSize cap = inr q ->
  index_stable cap (Z.of_nat n) ->
  exec (pool_step (ConcurrentObject0 := spsc_weak_object MaxPayloadSize)) n (weak_init q) h p ->
  forall T l, (T, l) ∈ threads p -> l <> Undefined /\ l <> At OutOfBounds.
Proof.
  intros HM Hc Hnew Hst Hex.
  destruct (weak_exec_sim MaxPayloadSize cap q n h p)
    as (m & c & _ & Tp & lp & sp & Tc & lc & sc & P & D & R & Hp & _ & [] & _); try done.
  intros T l Hin. rewrite Hp in Hin. apply elem_of_cons in Hin as [[= -> ->] | Hin].
  - split; [done |]. by intros [= ->].
  - apply list_elem_of_singleton in Hin as [= -> ->]. split; [done |]. by intros [= ->].
Qed.

(** The consumer has taken the only message and returned; the producer still reads
    the old value of [tail_]. *)
Definition late_history : list (nat * (role * QueueOp) * QueueRes) :=
  [(0%nat, (Producer, TryPush [Byte.x07]), Pushed (mkWrite success 1));
   (1%nat, (Consumer, TryPop [Byte.x00]), Popped (mkRead success 1 1) [Byte.x07]);
   (0%nat, (Producer, TryPush [Byte.x09]), Pushed (mkWrite full 0));
   (0%nat, (Producer, TryPush [Byte.x09]), Pushed (mkWrite success 2))].

Definition late_schedule : list (choice (role * QueueOp)) :=
  [DoCall 0 (Producer, TryPush [Byte.x07]); DoStep 0 0; DoStep 0 0; DoStep 0 0; DoStep 0 0; DoRet 0;
   DoCall 1 (Consumer, TryPop [Byte.x00]); DoStep 1 0; DoStep 1 1; DoStep 1 0; DoStep 1 0; DoRet 1;
   DoCall 0 (Producer, TryPush [Byte.x09]); DoStep 0 0; DoStep 0 0; DoRet 0;
   DoCall 0 (Producer, TryPush [Byte.x09]); DoStep 0 0; DoStep 0 1; DoStep 0 0; DoStep 0 0; DoRet 0].

Lemma late_execution :
  exists p, exec (pool_step (ConcurrentObject0 := spsc_weak_object 2)) (length late_schedule)
    (weak_init (mkSPSC 1 [fresh_message 2] 0 0)) (one_by_one late_history) p.
Proof.
  assert (Hrun : fst <$> run_schedule (ConcurrentObject0 := spsc_weak_object 2)
    (weak_init (mkSPSC 1 [fresh_message 2] 0 0)) late_schedule = Some (one_by_one late_history)).
  { vm_compute. reflexivity. }
  apply fmap_Some in Hrun as ([tr p] & Hrun & ->). exists p. by apply run_schedule_exec.
Qed.

Lemma spsc_weak_linearizable_witness :
  linearizable (strict (stale_spec 2 1)) stale_empty 2 (one_by_one late_history).
Proof.
  destruct late_execution as [p Hex].
  eapply (spsc_weak_linearizable 2 1 (mkSPSC 1 [fresh_message 2] 0 0)); [lia | done | done | | exact Hex].
  left. vm_compute. discriminate.
Defined.

Lemma spsc_weak_race_free_witness :
  exists p, exec (pool_step (ConcurrentObject0 := spsc_weak_object 2)) (length late_schedule)
    (weak_init (mkSPSC 1 [fresh_message 2] 0 0)) (one_by_one late_history) p /\
    forall T l, (T, l) ∈ threads p -> l <> Undefined /\ l <> At OutOfBounds.
Proof.
  destruct late_execution as [p Hex]. exists p. split; [exact Hex |].
  eapply (spsc_weak_race_free 2 1 (mkSPSC 1 [fresh_message 2] 0 0)); [lia | done | done | | exact Hex].
  left. vm_compute. discriminate.
Defined.

(** C22: With the memory orders of the header the queue is not linearizable to the
    plain bounded FIFO: after a [try_pop] that emptied the queue has returned, a
    [try_push] can still be refused as [full]. *)
Theorem spsc_weak_full_can_be_late :
  (exists p, exec (pool_step (ConcurrentObject0 := spsc_weak_object 2)) (length late_schedule)
     (weak_init (mkSPSC 1 [fresh_message 2] 0 0)) (one_by_one late_history) p) /\
  ~ linearizable (strict (fun a c r a' => fifo_spec 2 1 false a c.2 r a')) fifo_empty 2 (one_by_one late_history).
Proof.
  split; [exact late_execution |]. intros (a & H)%linearizable_one_by_one.
  destruct H as (a1 & H1 & a2 & H2 & a3 & H3 & _). simpl in *.
  inversion H1 as [? ? ? ? E1 | |]; subst. vm_compute in E1. injection E1 as <-.
  inversion H2 as [| ? ? ? ? ? E2 |]; subst. vm_compute in E2. injection E2 as <-.
  inversion H3 as [? ? ? ? E3 | |]; subst. by vm_compute in E3.
Qed.
