(* ===== verification/MPMCWeak.v ===== *)
(** * [MPMCQueue] with its memory orders

    The code of [include/orbitqueue/mpmc_queue.h] over the release/acquire memory of
    [ReleaseAcquire.v]: the positions are loaded and exchanged relaxed, the sequence of
    a cell is loaded with acquire and stored with release, the messages are plain
    memory.  A load may return an old value, an exchange may fail spuriously, and an
    access to a message that does not know every earlier conflicting access is
    undefined behaviour.  Any capacity, any number of threads and calls.

    The program points are those of [MPMCConcurrent.v] and those of [empty()];
    [latest] forgets the history of the memory and gives the queue of that file, whose
    invariant [mpmc_sim] holds of it.  Theorems: no execution has a data race or
    leaves the ring, and every execution is linearizable to a FIFO in which [full] and
    [empty] may be decided without an operation of another thread, unless that
    operation happened before ([causal_spec]). *)

From stdpp Require Import gmap.
From S2P Require Import Prelude Result FixedMessage Concurrency BoundedFifo MPMCQueue MPMCConcurrent Views ReleaseAcquire.

(** ** The contract *)

(** Operations that happened before: the positions of the pushes and of the pops. *)
Record knowledge : Type := mkKnowledge {
  k_pushes : gset Z;
  k_pops : gset Z;
}.

Definition nothing_known : knowledge := mkKnowledge ∅ ∅.

Definition learn (K L : knowledge) : knowledge := mkKnowledge (k_pushes K ∪ k_pushes L) (k_pops K ∪ k_pops L).
Definition know_push (K : knowledge) (p : Z) : knowledge := mkKnowledge ({[ p ]} ∪ k_pushes K) (k_pops K).
Definition know_pop (K : knowledge) (p : Z) : knowledge := mkKnowledge (k_pushes K) ({[ p ]} ∪ k_pops K).

(** The queue; what each thread knows; and what was known by the push and by the pop of
    a position, which they hand on to the pop of the message and to the push that uses
    the cell next. *)
Record causal_fifo : Type := mkCausal {
  now : fifo;
  knows : nat -> knowledge;
  sent : Z -> knowledge;
  freed : Z -> knowledge;
}.

Definition causal_empty : causal_fifo :=
  mkCausal fifo_empty (fun _ => nothing_known) (fun _ => nothing_known) (fun _ => nothing_known).

Definition taken (a : fifo) : Z := pushed a - span_size (items a).

(** A position at or after every operation in [ps]. *)
Definition after (ps : gset Z) (k : Z) : Prop := forall p, p ∈ ps -> p < k.

Section contract.

Context (MaxPayloadSize capacity : Z).

Definition record_push (s : causal_fifo) (t : nat) (a' : fifo) : causal_fifo :=
  let p := pushed (now s) in
  let K := know_push (learn (knows s t) (freed s (p - capacity))) p in
  mkCausal a' (update (knows s) t K) (update (sent s) p K) (freed s).

Definition record_pop (s : causal_fifo) (t : nat) (a' : fifo) : causal_fifo :=
  let p := taken (now s) in
  let K := know_pop (learn (knows s t) (sent s p)) p in
  mkCausal a' (update (knows s) t K) (sent s) (update (freed s) p K).

(** Calls carry the thread that makes them.  [full]: at some position after the pushes
    the thread knows, it does not know that the message one round earlier has been
    taken.  [empty]: at some position after the pops it knows, it does not know of a
    message. *)
Inductive causal_spec (s : causal_fifo) : nat * QueueOp -> QueueRes -> causal_fifo -> Prop :=
| causal_too_large t payload :
    MaxPayloadSize < span_size payload ->
    causal_spec s (t, TryPush payload) (Pushed (mkWrite message_too_large 0)) s
| causal_accepted t payload r a' :
    fifo_push MaxPayloadSize capacity (now s) payload = (r, a') -> w_status r = success ->
    causal_spec s (t, TryPush payload) (Pushed r) (record_push s t a')
| causal_full t payload k :
    span_size payload <= MaxPayloadSize ->
    capacity <= k <= pushed (now s) -> after (k_pushes (knows s t)) k -> k - capacity ∉ k_pops (knows s t) ->
    causal_spec s (t, TryPush payload) (Pushed (mkWrite full 0)) s
| causal_delivered t destination r destination' a' :
    fifo_pop true (now s) destination = (r, destination', a') -> items (now s) <> [] ->
    causal_spec s (t, TryPop destination) (Popped r destination') (record_pop s t a')
| causal_nothing t destination k :
    0 <= k <= taken (now s) -> after (k_pops (knows s t)) k -> k ∉ k_pushes (knows s t) ->
    causal_spec s (t, TryPop destination) (Popped (mkRead empty 0 0) destination) s
| causal_observed t (b : bool) k :
    0 <= k <= taken (now s) -> after (k_pops (knows s t)) k ->
    (if b then k ∉ k_pushes (knows s t) else k < pushed (now s)) ->
    causal_spec s (t, Observe is_empty_) (Observed b) s.

(** Nothing but the answers [full], [empty] and that of [empty()] differs from the
    FIFO: every call is a call of the FIFO, or leaves it alone. *)
Lemma causal_spec_effect s t o r s' :
  causal_spec s (t, o) r s' ->
  fifo_spec MaxPayloadSize capacity true (now s) o r (now s') \/
  (s' = s /\
   ((exists payload, o = TryPush payload /\ r = Pushed (mkWrite full 0)) \/
    (exists destination, o = TryPop destination /\ r = Popped (mkRead empty 0 0) destination) \/
    (exists b, o = Observe is_empty_ /\ r = Observed b))).
Proof.
  intros H. remember (t, o) as c eqn:Ec. destruct H as [? payload Hbig | | | | |]; injection Ec as <- <-; simpl;
    first [by right; eauto 10 | left; by constructor | idtac].
  left. constructor. unfold fifo_push. by rewrite (proj2 (Z.ltb_lt _ _)).
Qed.

(** A thread that knows every operation so far gets the answers of the bounded FIFO. *)
Lemma causal_spec_exact s t o r s' :
  fifo_wf MaxPayloadSize capacity (now s) ->
  (forall p, 0 <= p < pushed (now s) -> p ∈ k_pushes (knows s t)) ->
  (forall p, 0 <= p < taken (now s) -> p ∈ k_pops (knows s t)) ->
  causal_spec s (t, o) r s' -> fifo_spec MaxPayloadSize capacity true (now s) o r (now s').
Proof.
  intros [Hb Hc _] Hpush Hpop H. pose proof (span_size_nonneg (items (now s))) as Hnn. unfold taken in *.
  assert (Hdeq : forall k, 0 <= k <= pushed (now s) - span_size (items (now s)) -> after (k_pops (knows s t)) k ->
    k = pushed (now s) - span_size (items (now s))).
  { intros k Hk Ha. destruct (Z.eq_dec k (pushed (now s) - span_size (items (now s)))) as [| Hne]; [done |].
    assert (k < k); [| lia]. apply Ha, Hpop. lia. }
  assert (Hnil : forall k, 0 <= k <= pushed (now s) - span_size (items (now s)) -> after (k_pops (knows s t)) k ->
    k ∉ k_pushes (knows s t) -> items (now s) = []).
  { intros k Hk Ha Hn. pose proof (Hdeq k Hk Ha). destruct (items (now s)) as [| x l] eqn:E; [done |].
    destruct Hn. apply Hpush. unfold span_size in *. simpl in *. lia. }
  remember (t, o) as c eqn:Ec.
  destruct H as [t' pl Hbig | | t' pl k Hfit Hk Ha Hn | | t' d k Hk Ha Hn | t' b k Hk Ha Hn];
    injection Ec as -> <-; simpl; try by constructor.
  - constructor. unfold fifo_push. by rewrite (proj2 (Z.ltb_lt _ _)).
  - constructor. unfold fifo_push. rewrite (proj2 (Z.ltb_ge _ _)) by lia.
    assert (k = pushed (now s)) as ->.
    { destruct (Z.eq_dec k (pushed (now s))) as [| Hne]; [done |]. assert (k < k); [| lia]. apply Ha, Hpush. lia. }
    destruct (Z.eqb_spec (span_size (items (now s))) capacity) as [| Hne]; [done |]. destruct Hn. apply Hpop. lia.
  - constructor. unfold fifo_pop. by rewrite (Hnil k Hk Ha Hn).
  - replace b with (fifo_observe capacity (now s) is_empty_); [constructor |]. simpl. pose proof (Hdeq k Hk Ha). destruct b.
    + rewrite (Hnil k Hk Ha Hn). done.
    + apply Z.eqb_neq. lia.
Qed.

End contract.

(** ** The queue in memory *)

Inductive place : Type := enqueue_v | dequeue_v | sequence_v (i : nat).

#[export] Instance place_eq_dec : EqDecision place.
Proof. solve_decision. Defined.

Record weak_mpmc : Type := mkWeakM {
  wm_capacity : Z;
  wm_mask : Z;
  wm_cells : nat;     (** the number of cells *)
  wm_memory : memory place nat Z FixedMessage;
}.

Abbreviation mpmc_view := (thread_view place nat).

Inductive mpmc_point : Type :=
| AtMpmc (l : mpmc_pc)
| EmptyStart
| EmptyLoadCell (position : Z)
| EmptyDone (b : bool)
| Raced.     (** after a data race *)

Record mpmc_thread : Type := mkThread {
  self : nat;
  th_view : mpmc_view;
  point : mpmc_point;
}.

Definition with_cells (w : weak_mpmc) (M : memory place nat Z FixedMessage) : weak_mpmc :=
  mkWeakM (wm_capacity w) (wm_mask w) (wm_cells w) M.

(** A constructed queue, before the threads start. *)
Definition weak_mpmc_new (q : MPMCQueue) : weak_mpmc :=
  mkWeakM (capacity_ q) (mask_ q) (length (cells_ q))
    (mkMemory
       (fun l => [Views.mkMessage
          (match l with
           | enqueue_v => enqueue_pos_ q
           | dequeue_v => dequeue_pos_ q
           | sequence_v i => default 0 (cell_sequence <$> cells_ q !! i)
           end) view_zero])
       (fun i => mkPlain (default (fresh_message 0) (cell_message <$> cells_ q !! i)) 0 0)).

Definition weak_mpmc_init (q : MPMCQueue) (nthreads : nat) : pool weak_mpmc mpmc_thread :=
  mkPool (weak_mpmc_new q) ((fun t => mkThread t new_thread (AtMpmc MIdle)) <$> seq 0 nthreads).

Section MPMCWeak.

Context (MaxPayloadSize : Z).

(** [cells_[position & mask_]] *)
Definition weak_cell (w : weak_mpmc) (position : Z) : nat := slot_of (Z.land position (wm_mask w)).

Abbreviation outcomes := (list (weak_mpmc * mpmc_thread)).

Definition goes (t : nat) (w : weak_mpmc) (T : mpmc_view) (l : mpmc_pc) : outcomes :=
  [(w, mkThread t T (AtMpmc l))].

(** An atomic load, then the rest of the step. *)
Definition load_then (t : nat) (w : weak_mpmc) (o : memory_order) (l : place) (T : mpmc_view)
    (k : Z -> mpmc_point) : outcomes :=
  (fun vT : Z * mpmc_view => (w, mkThread t vT.2 (k vT.1))) <$> load (wm_memory w) o l T.

(** The acquire load of [cells_[position & mask_].sequence]. *)
Definition load_sequence (t : nat) (w : weak_mpmc) (position : Z) (T : mpmc_view) (k : Z -> mpmc_point) : outcomes :=
  let i := weak_cell w position in
  if decide (i < wm_cells w)%nat then load_then t w acquire (sequence_v i) T k else goes t w T OutOfBounds.

(** [compare_exchange_weak(position, position + 1, relaxed, relaxed)]: it may fail, and
    reload [position], even when it finds the expected value. *)
Definition claim_next (t : nat) (w : weak_mpmc) (l : place) (position : Z) (T : mpmc_view)
    (claimed : mpmc_pc) (retry : Z -> mpmc_pc) : outcomes :=
  match exchange (wm_memory w) l position (position +u 1) T with
  | Some (M, T') => goes t (with_cells w M) T' claimed
  | None => []
  end ++ load_then t w relaxed l T (fun position => AtMpmc (retry position)).

(** The release store of the sequence of the cell. *)
Definition store_sequence (t : nat) (w : weak_mpmc) (position v : Z) (T : mpmc_view) (next : mpmc_pc) : outcomes :=
  let i := weak_cell w position in
  if decide (i < wm_cells w)%nat then
    match store (wm_memory w) release (sequence_v i) v T with
    | Some (M, T') => goes t (with_cells w M) T' next
    | None => [(w, mkThread t T Raced)]
    end
  else goes t w T OutOfBounds.

Definition weak_mpmc_step (w : weak_mpmc) (t : nat) (T : mpmc_view) (l : mpmc_pc) : outcomes :=
  match l with
  | PushStart payload =>
      if MaxPayloadSize <? span_size payload
      then goes t w T (PushDone (mkWrite message_too_large 0))
      else load_then t w relaxed enqueue_v T (fun position => AtMpmc (PushLoadCell payload position))
  | PushLoadCell payload position =>
      load_sequence t w position T (fun sequence =>
        AtMpmc (if sequence =? position then PushCas payload position
                else if sequence <? position then PushDone (mkWrite full 0)
                else PushReload payload))
  | PushCas payload position =>
      claim_next t w enqueue_v position T (PushAssign payload position) (PushLoadCell payload)
  | PushReload payload =>
      load_then t w relaxed enqueue_v T (fun position => AtMpmc (PushLoadCell payload position))
  | PushAssign payload position =>
      let i := weak_cell w position in
      if decide (i < wm_cells w)%nat then
        let logical_sequence := position +u 1 in
        let '(result, message) :=
          assign MaxPayloadSize (c_value (plains (wm_memory w) i)) payload logical_sequence in
        match write (wm_memory w) i message T with
        | Some (M, T') => goes t (with_cells w M) T' (PushPublish result position)
        | None => [(w, mkThread t T Raced)]
        end
      else goes t w T OutOfBounds
  | PushPublish result position => store_sequence t w position (position +u 1) T (PushDone result)
  | PopStart destination =>
      load_then t w relaxed dequeue_v T (fun position => AtMpmc (PopLoadCell destination position))
  | PopLoadCell destination position =>
      load_sequence t w position T (fun sequence =>
        AtMpmc (if sequence =? position +u 1 then PopCas destination position
                else if sequence <? position +u 1 then PopDone (mkRead empty 0 0) destination
                else PopReload destination))
  | PopCas destination position =>
      claim_next t w dequeue_v position T (PopCopy destination position) (PopLoadCell destination)
  | PopReload destination =>
      load_then t w relaxed dequeue_v T (fun position => AtMpmc (PopLoadCell destination position))
  | PopCopy destination position =>
      let i := weak_cell w position in
      if decide (i < wm_cells w)%nat then
        match read (wm_memory w) i T with
        | Some (message, M, T') =>
            let '(result, destination') := copy_to message destination in
            goes t (with_cells w M) T' (PopRelease result destination' position)
        | None => [(w, mkThread t T Raced)]
        end
      else goes t w T OutOfBounds
  | PopRelease result destination position =>
      store_sequence t w position (position +u wm_capacity w) T (PopDone result destination)
  | MIdle | PushDone _ | PopDone _ _ | OutOfBounds => []
  end.

Definition weak_mpmc_tstep (w : weak_mpmc) (th : mpmc_thread) : outcomes :=
  match point th with
  | AtMpmc l => weak_mpmc_step w (self th) (th_view th) l
  | EmptyStart => load_then (self th) w relaxed dequeue_v (th_view th) EmptyLoadCell
  | EmptyLoadCell position =>
      load_sequence (self th) w position (th_view th) (fun sequence => EmptyDone (sequence <? position +u 1))
  | EmptyDone _ | Raced => []
  end.

Definition weak_mpmc_call (th : mpmc_thread) (c : nat * QueueOp) : option mpmc_thread :=
  match point th with
  | AtMpmc MIdle =>
      if decide (c.1 = self th) then
        match c.2 with
        | TryPush payload => Some (mkThread (self th) (th_view th) (AtMpmc (PushStart payload)))
        | TryPop destination => Some (mkThread (self th) (th_view th) (AtMpmc (PopStart destination)))
        | Observe is_empty_ => Some (mkThread (self th) (th_view th) EmptyStart)
        | Observe is_full_ => None
        end
      else None
  | _ => None
  end.

Definition weak_mpmc_ret (th : mpmc_thread) : option (QueueRes * mpmc_thread) :=
  match point th with
  | AtMpmc l => '(r, l') ← mpmc_ret l; Some (r, mkThread (self th) (th_view th) (AtMpmc l'))
  | EmptyDone b => Some (Observed b, mkThread (self th) (th_view th) (AtMpmc MIdle))
  | _ => None
  end.

#[local] Instance mpmc_weak_object : ConcurrentObject (nat * QueueOp) QueueRes weak_mpmc mpmc_thread := {|
  call := weak_mpmc_call; tstep := weak_mpmc_tstep; ret := weak_mpmc_ret;
|}.

(** ** Cells and their phases

    The sequence of a cell takes the values [i], [i + 1], [i + capacity],
    [i + capacity + 1], ...: free and full in turn, round after round. *)

Section invariant.

Context (cap : Z).

Definition cell_of (p : Z) : nat := slot_of (p mod cap).
Definition round (p : Z) : nat := Z.to_nat (p / cap).

Fixpoint phase (i k : nat) : Z :=
  match k with
  | O => Z.of_nat i
  | S k => phase i k + (if Nat.even k then 1 else cap - 1)
  end.

Lemma phase_lt i k k' : 2 <= cap -> (k < k')%nat -> phase i k < phase i k'.
Proof. intros Hc. induction 1 as [| k' _ IH]; simpl; destruct (Nat.even _); lia. Qed.

Lemma phase_inj i k k' : 2 <= cap -> phase i k = phase i k' -> k = k'.
Proof.
  intros Hc He. destruct (lt_eq_lt_dec k k') as [[H |] | H]; [| done |]; apply (phase_lt i) in H; lia.
Qed.

Lemma phase_le i k k' : 2 <= cap -> (k <= k')%nat -> phase i k <= phase i k'.
Proof.
  intros Hc H. destruct (decide (k = k')) as [-> | Hne]; [lia |]. assert (phase i k < phase i k'); [| lia].
  apply phase_lt; lia.
Qed.

Lemma phase_even i r : phase i (2 * r) = Z.of_nat i + Z.of_nat r * cap.
Proof.
  induction r as [| r IH]; [simpl; lia |]. replace (2 * S r)%nat with (S (S (2 * r))) by lia. cbn [phase].
  rewrite IH, Nat.even_succ, <- Nat.negb_even, Nat.even_mul. simpl. lia.
Qed.

Lemma phase_free p : 0 < cap -> 0 <= p -> phase (cell_of p) (2 * round p) = p.
Proof.
  intros Hc Hp. rewrite phase_even. unfold cell_of, slot_of, round.
  pose proof (Z.mod_pos_bound p cap Hc). pose proof (Z.div_pos p cap Hp Hc). pose proof (Z.div_mod p cap). lia.
Qed.

Lemma phase_full p : 0 < cap -> 0 <= p -> phase (cell_of p) (S (2 * round p)) = p + 1.
Proof. intros Hc Hp. cbn [phase]. rewrite phase_free, Nat.even_mul by done. done. Qed.

Lemma phase_next p : 0 < cap -> 0 <= p -> phase (cell_of p) (S (S (2 * round p))) = p + cap.
Proof.
  intros Hc Hp. cbn [phase]. rewrite phase_free, Nat.even_succ, <- Nat.negb_even, Nat.even_mul by done. simpl. lia.
Qed.

Lemma phase_free_inv p k : 2 <= cap -> 0 <= p -> phase (cell_of p) k = p -> k = (2 * round p)%nat.
Proof. intros Hc Hp E. apply (phase_inj (cell_of p)); [done |]. rewrite phase_free; lia. Qed.

Lemma phase_full_inv p k : 2 <= cap -> 0 <= p -> phase (cell_of p) k = p + 1 -> k = S (2 * round p).
Proof. intros Hc Hp E. apply (phase_inj (cell_of p)); [done |]. rewrite phase_full; lia. Qed.

Lemma cell_of_range p : 0 < cap -> (cell_of p < Z.to_nat cap)%nat.
Proof. intros Hc. by apply ring_slot_lt. Qed.

Lemma cell_of_period p : 0 < cap -> cell_of (p - cap) = cell_of p.
Proof. intros Hc. unfold cell_of. rewrite <- (ring_slot_period cap (p - cap)) by done. f_equal. f_equal. lia. Qed.

Lemma round_period p : 0 < cap -> cap <= p -> round p = S (round (p - cap)).
Proof.
  intros Hc Hp. unfold round. replace p with (p - cap + 1 * cap) at 1 by lia. rewrite Z.div_add by lia.
  pose proof (Z.div_pos (p - cap) cap). lia.
Qed.

(** ** What views know *)

Abbreviation mem := (memory place nat Z FixedMessage).
Abbreviation mview := (view place nat).

(** A view that has seen a sequence knows everything the message announces. *)
Definition synced (M : mem) (V : mview) : Prop :=
  forall i k m, hist M (sequence_v i) !! k = Some m -> (k <= v_at V (sequence_v i))%nat -> view_le (m_view m) V.

Lemma synced_join M V W : synced M V -> synced M W -> synced M (view_join V W).
Proof.
  intros HV HW i k m Hm Hk. simpl in Hk. destruct (Nat.max_dec (v_at V (sequence_v i)) (v_at W (sequence_v i))) as [E | E];
    rewrite E in Hk; [etrans; [by eapply HV | apply view_join_l] | etrans; [by eapply HW | apply view_join_r]].
Qed.

(** Seeing more of anything but the sequences, or nothing new of them. *)
Lemma synced_le M V W :
  view_le V W -> (forall i, (v_at W (sequence_v i) <= v_at V (sequence_v i))%nat) -> synced M V -> synced M W.
Proof. intros Hle Hat HV i k m Hm Hk. specialize (Hat i). etrans; [eapply HV; [done | lia] | done]. Qed.

Lemma synced_position M V l k :
  (forall i, l <> sequence_v i) -> synced M V -> synced M (view_join V (at_place l k)).
Proof.
  intros Hl. apply synced_le; [apply view_join_l |]. intros i. simpl. rewrite update_other by (by intros <-; eapply Hl).
  simpl. lia.
Qed.

Lemma synced_acquire M V i k m :
  hist M (sequence_v i) !! k = Some m -> (k <= v_at (m_view m) (sequence_v i))%nat ->
  synced M V -> synced M (m_view m) -> synced M (view_join (view_join V (at_place (sequence_v i) k)) (m_view m)).
Proof.
  intros Hm Hk HV HW. apply (synced_le M (view_join V (m_view m))); [| | by apply synced_join].
  - apply view_join_mono; [apply view_join_l | done].
  - intros j. simpl. unfold update. case_decide as E; simpl; [injection E as ->; lia | lia].
Qed.

(** Later messages say nothing about what has been seen before. *)
Lemma synced_extends M M' V : extends M M' -> closed V M -> synced M V -> synced M' V.
Proof.
  intros He Hc HV i k m Hm Hk. apply (HV i k m); [| done]. destruct (ex_hist _ _ He (sequence_v i)) as [l Hl].
  pose proof (cl_at _ _ Hc (sequence_v i)). rewrite Hl, lookup_app_l in Hm by lia. done.
Qed.

(** The views that know the operations of [K]. *)
Record informed (K : knowledge) (V : mview) : Prop := {
  inf_pushes : forall p, p ∈ k_pushes K -> 0 <= p /\ (round p * 2 + 1 <= v_at V (sequence_v (cell_of p)))%nat /\
    p < Z.of_nat (v_at V enqueue_v);
  inf_pops : forall p, p ∈ k_pops K -> 0 <= p /\ (round p * 2 + 2 <= v_at V (sequence_v (cell_of p)))%nat /\
    p < Z.of_nat (v_at V dequeue_v);
}.

Lemma informed_le K V W : view_le V W -> informed K V -> informed K W.
Proof.
  intros [Hat _ _] [H1 H2]. split; intros p Hp; [destruct (H1 p Hp) as (? & ? & ?) | destruct (H2 p Hp) as (? & ? & ?)].
  - pose proof (Hat (sequence_v (cell_of p))). pose proof (Hat enqueue_v). split_and!; lia.
  - pose proof (Hat (sequence_v (cell_of p))). pose proof (Hat dequeue_v). split_and!; lia.
Qed.

Lemma informed_nothing V : informed nothing_known V.
Proof. by split; intros p Hp%elem_of_empty. Qed.

Lemma informed_learn K L V : informed K V -> informed L V -> informed (learn K L) V.
Proof. intros [] []. split; intros p [|]%elem_of_union; eauto. Qed.

Lemma informed_push K V p :
  0 <= p -> (round p * 2 + 1 <= v_at V (sequence_v (cell_of p)))%nat -> p < Z.of_nat (v_at V enqueue_v) ->
  informed K V -> informed (know_push K p) V.
Proof.
  intros H1 H2 H3 []. split; [| done]. simpl. intros p' [->%elem_of_singleton |]%elem_of_union; eauto.
Qed.

Lemma informed_pop K V p :
  0 <= p -> (round p * 2 + 2 <= v_at V (sequence_v (cell_of p)))%nat -> p < Z.of_nat (v_at V dequeue_v) ->
  informed K V -> informed (know_pop K p) V.
Proof.
  intros H1 H2 H3 []. split; [done |]. simpl. intros p' [->%elem_of_singleton |]%elem_of_union; eauto.
Qed.

(** ** The invariant of the memory *)

Record messages_ok (M : mem) : Prop := {
  ms_wf : memory_wf M;
  ms_enqueue : forall k m, hist M enqueue_v !! k = Some m -> m_value m = Z.of_nat k;
  ms_dequeue : forall k m, hist M dequeue_v !! k = Some m -> m_value m = Z.of_nat k;
  ms_value : forall i k m, (i < Z.to_nat cap)%nat -> hist M (sequence_v i) !! k = Some m -> m_value m = phase i k;
  ms_synced : forall i k m, hist M (sequence_v i) !! k = Some m ->
    (k <= v_at (m_view m) (sequence_v i))%nat /\ synced M (m_view m);
  (** round after round, the cell has been written and read *)
  ms_accesses : forall i k m, hist M (sequence_v i) !! k = Some m ->
    (Nat.div2 (S k) <= v_wr (m_view m) i)%nat /\ forall r, (r < Nat.div2 k)%nat -> r ∈ v_rd (m_view m) i;
}.

Definition top (M : mem) (l : place) : nat := pred (length (hist M l)).

Lemma top_length M l : memory_wf M -> length (hist M l) = S (top M l).
Proof. intros [Hne _]. specialize (Hne l). unfold top. destruct (hist M l); [done | simpl; lia]. Qed.

Lemma top_closed M l V : memory_wf M -> closed V M -> (v_at V l <= top M l)%nat.
Proof. intros Hw Hc. pose proof (cl_at _ _ Hc l). rewrite top_length in * by done. lia. Qed.

Definition newest_value (M : mem) (l : place) : Z :=
  match last (hist M l) with Some m => m_value m | None => 0 end.

Lemma newest_top M l : memory_wf M -> exists m, hist M l !! top M l = Some m /\ newest_value M l = m_value m.
Proof.
  intros Hw. unfold newest_value. rewrite last_lookup. fold (top M l).
  destruct (lookup_lt_is_Some_2 (hist M l) (top M l)) as [m Hm]; [rewrite top_length by done; lia |].
  exists m. by rewrite Hm.
Qed.

Lemma newest_sequence M i : messages_ok M -> (i < Z.to_nat cap)%nat -> newest_value M (sequence_v i) = phase i (top M (sequence_v i)).
Proof.
  intros Hm Hi. destruct (newest_top M (sequence_v i) (ms_wf _ Hm)) as (m & Hk & ->). by apply (ms_value _ Hm).
Qed.

(** The number in a position is its place in the history. *)
Lemma newest_position M l :
  messages_ok M -> l = enqueue_v \/ l = dequeue_v -> newest_value M l = Z.of_nat (top M l).
Proof.
  intros Hm Hl. destruct (newest_top M l (ms_wf _ Hm)) as (m & Hk & ->).
  destruct Hl as [-> | ->]; [by apply (ms_enqueue _ Hm) | by apply (ms_dequeue _ Hm)].
Qed.

(** ** Loads *)

Lemma load_position M T l v T' :
  messages_ok M -> thread_closed T M -> synced M (cur T) -> l = enqueue_v \/ l = dequeue_v ->
  (v, T') ∈ load M relaxed l T ->
  thread_closed T' M /\ synced M (cur T') /\ view_le (cur T) (cur T') /\
  Z.of_nat (v_at (cur T) l) <= v <= newest_value M l.
Proof.
  intros Hm Hc Hs Hl Hin. split; [by eapply load_closed; [apply (ms_wf _ Hm) | ..] |].
  apply load_inv in Hin as (k & m & Hk & Hle & -> & ->).
  assert (m_value m = Z.of_nat k) as ->.
  { destruct Hl as [-> | ->]; [by apply (ms_enqueue _ Hm) | by apply (ms_dequeue _ Hm)]. }
  split; [apply synced_position; [by destruct Hl as [-> | ->] | done] |].
  split; [apply read_view_cur |]. rewrite newest_position by done. apply lookup_lt_Some in Hk.
  rewrite top_length in Hk by apply (ms_wf _ Hm). lia.
Qed.

Lemma load_cell M T i v T' :
  messages_ok M -> (i < Z.to_nat cap)%nat -> thread_closed T M -> synced M (cur T) ->
  (v, T') ∈ load M acquire (sequence_v i) T ->
  thread_closed T' M /\ synced M (cur T') /\ view_le (cur T) (cur T') /\
  exists k, v = phase i k /\ (v_at (cur T) (sequence_v i) <= k <= v_at (cur T') (sequence_v i))%nat /\
    (k <= top M (sequence_v i))%nat.
Proof.
  intros Hm Hi Hc Hs Hin. split; [by eapply load_closed; [apply (ms_wf _ Hm) | ..] |].
  apply load_inv in Hin as (k & m & Hk & Hle & -> & ->). destruct (ms_synced _ Hm _ _ _ Hk) as [Hkm Hsm].
  split; [by apply synced_acquire |]. split; [apply read_view_cur |]. exists k. split; [by apply (ms_value _ Hm) |].
  split; [split; [done | apply read_view_at] |]. apply lookup_lt_Some in Hk.
  rewrite top_length in Hk by apply (ms_wf _ Hm). lia.
Qed.

(** A synced view that has seen message [k] of a cell knows the accesses before it. *)
Lemma synced_accesses M V i k :
  messages_ok M -> synced M V -> (k <= v_at V (sequence_v i))%nat -> (k <= top M (sequence_v i))%nat ->
  (Nat.div2 (S k) <= v_wr V i)%nat /\ forall r, (r < Nat.div2 k)%nat -> r ∈ v_rd V i.
Proof.
  intros Hm Hs Hk Hlt. destruct (lookup_lt_is_Some_2 (hist M (sequence_v i)) k) as [m Hl].
  { rewrite top_length by apply (ms_wf _ Hm). lia. }
  destruct (ms_accesses _ Hm i k m Hl) as [H1 H2]. destruct (Hs i k m Hl Hk) as [_ Hw Hr]. split.
  - etrans; [exact H1 | apply Hw].
  - intros r Hr'. by apply (Hr i), H2.
Qed.

(** ** Stores and exchanges *)

Lemma append_other (M : mem) l m l' : l' <> l -> hist (append M l m) l' = hist M l'.
Proof. intros H. simpl. by rewrite update_other. Qed.

Lemma append_top (M : mem) l m : memory_wf M -> top (append M l m) l = S (top M l).
Proof. intros Hw. unfold top at 1. simpl. rewrite update_same, length_app, top_length by done. simpl. lia. Qed.

Lemma append_top_other (M : mem) l m l' : l' <> l -> top (append M l m) l' = top M l'.
Proof. intros H. unfold top. by rewrite append_other. Qed.

Lemma messages_exchange M l v v' T M' T' :
  messages_ok M -> thread_closed T M -> synced M (cur T) -> l = enqueue_v \/ l = dequeue_v ->
  v' = v + 1 -> exchange M l v v' T = Some (M', T') ->
  v = newest_value M l /\ messages_ok M' /\ extends M M' /\ thread_closed T' M' /\ synced M' (cur T') /\
  view_le (cur T) (cur T') /\ (forall i, v_at (cur T') (sequence_v i) = v_at (cur T) (sequence_v i)) /\
  v < Z.of_nat (v_at (cur T') l) /\ exists m, M' = append M l m /\ m_value m = v'.
Proof.
  intros Hm Hc Hs Hl Hv He.
  destruct (exchange_inv M l v v' T M' T' (ms_wf _ Hm) Hc He) as (m & m' & Hlast & Hmv & -> & Hmv' & Hwf & Hcl & Hcur).
  assert (Hnew : v = newest_value M l) by (unfold newest_value; by rewrite Hlast).
  pose proof (newest_position M l Hm Hl) as Htop. pose proof (append_extends M l m') as Hext.
  assert (Hseq : forall i, l <> sequence_v i) by (by destruct Hl as [-> | ->]).
  assert (Hle : view_le (cur T) (cur T')) by (rewrite Hcur; etrans; [apply view_join_l | apply view_join_l]).
  split; [done |]. split; [| split_and!; try done].
  - assert (Hval : forall k m0, hist (append M l m') l !! k = Some m0 -> (forall k m0, hist M l !! k = Some m0 -> m_value m0 = Z.of_nat k) ->
      m_value m0 = Z.of_nat k).
    { intros k m0 Hk H. simpl in Hk. rewrite update_same in Hk. apply lookup_snoc_inv in Hk as [Hk | [-> ->]]; [by apply H |].
      rewrite top_length by apply (ms_wf _ Hm). lia. }
    assert (Hsame : forall i, hist (append M l m') (sequence_v i) = hist M (sequence_v i)).
    { intros i. apply append_other. intros E. by apply (Hseq i). }
    split; [done | | | | |].
    + intros k m0 Hk. destruct Hl as [-> | ->]; [apply Hval; [done | apply (ms_enqueue _ Hm)] |].
      rewrite append_other in Hk by done. by apply (ms_enqueue _ Hm).
    + intros k m0 Hk. destruct Hl as [-> | ->]; [| apply Hval; [done | apply (ms_dequeue _ Hm)]].
      rewrite append_other in Hk by done. by apply (ms_dequeue _ Hm).
    + intros i k m0 Hi Hk. rewrite Hsame in Hk. by apply (ms_value _ Hm).
    + intros i k m0 Hk. rewrite Hsame in Hk. destruct (ms_synced _ Hm i k m0 Hk) as [H1 H2]. split; [done |].
      eapply synced_extends; [exact Hext | | done]. by eapply (mw_closed _ (ms_wf _ Hm)).
    + intros i k m0 Hk. rewrite Hsame in Hk. by eapply (ms_accesses _ Hm).
  - rewrite Hcur. apply synced_position; [done |]. apply synced_position; [done |].
    eapply synced_extends; [exact Hext | by apply thread_closed_cur | done].
  - intros i. rewrite Hcur. simpl. rewrite !update_other by (intros E; by apply (Hseq i)). simpl. lia.
  - rewrite Hcur. simpl. rewrite !update_same. rewrite top_length by apply (ms_wf _ Hm). lia.
  - by exists m'.
Qed.

(** The thread that has seen the newest sequence of a cell and knows its accesses
    announces the next one. *)
Lemma messages_store M i v T :
  messages_ok M -> thread_closed T M -> synced M (cur T) -> v_at (cur T) (sequence_v i) = top M (sequence_v i) ->
  v = phase i (S (top M (sequence_v i))) ->
  (Nat.div2 (S (S (top M (sequence_v i)))) <= v_wr (cur T) i)%nat ->
  (forall r, (r < Nat.div2 (S (top M (sequence_v i))))%nat -> r ∈ v_rd (cur T) i) ->
  exists T' m, store M release (sequence_v i) v T = Some (append M (sequence_v i) m, T') /\
    m_value m = v /\ m_view m = cur T' /\
    cur T' = view_join (cur T) (at_place (sequence_v i) (S (top M (sequence_v i)))) /\
    messages_ok (append M (sequence_v i) m) /\ thread_closed T' (append M (sequence_v i) m) /\
    synced (append M (sequence_v i) m) (cur T').
Proof.
  intros Hm Hc Hs Hat Hv Hw Hr. set (l := sequence_v i) in *. set (K := top M l) in *.
  pose proof (top_length M l (ms_wf _ Hm)) as Hlen. fold K in Hlen.
  set (m := Views.mkMessage v (view_join (cur T) (at_place l (S K)))).
  assert (Hst : store M release l v T = Some (append M l m, write_view l (S K) T)).
  { unfold store. rewrite Hlen, Hat. by rewrite decide_True. }
  destruct (store_closed _ _ _ _ _ _ _ (ms_wf _ Hm) Hc Hst) as [Hwf Hcl].
  pose proof (append_extends M l m) as Hext.
  assert (Hsync : synced (append M l m) (m_view m)).
  { intros j k m0 Hk Hle. simpl in Hk. unfold update in Hk. destruct (decide (sequence_v j = l)) as [E | Hne].
    - injection E as ->. fold l in Hk, Hle. apply lookup_snoc_inv in Hk as [Hk | [_ ->]]; [| reflexivity].
      etrans; [eapply (Hs i k m0 Hk) | apply view_join_l]. apply lookup_lt_Some in Hk. fold l in Hk |- *. lia.
    - etrans; [eapply (Hs j k m0 Hk) | apply view_join_l]. simpl in Hle. rewrite update_other in Hle by done. simpl in Hle. lia. }
  eexists _, m. split; [exact Hst |]. split_and!; try done. split; try done.
  - intros k m0 Hk. rewrite append_other in Hk by done. by apply (ms_enqueue _ Hm).
  - intros k m0 Hk. rewrite append_other in Hk by done. by apply (ms_dequeue _ Hm).
  - intros j k m0 Hj Hk. simpl in Hk. unfold update in Hk. case_decide as E; [| by apply (ms_value _ Hm)].
    injection E as ->. apply lookup_snoc_inv in Hk as [Hk | [-> ->]]; [by apply (ms_value _ Hm) |]. by rewrite Hlen.
  - intros j k m0 Hk. simpl in Hk. unfold update in Hk. case_decide as E.
    + injection E as ->. apply lookup_snoc_inv in Hk as [Hk | [-> ->]].
      * destruct (ms_synced _ Hm i k m0 Hk) as [H1 H2]. split; [done |].
        eapply synced_extends; [exact Hext | by eapply (mw_closed _ (ms_wf _ Hm)) | done].
      * split; [| done]. simpl. fold l. rewrite update_same, Hlen. lia.
    + destruct (ms_synced _ Hm j k m0 Hk) as [H1 H2]. split; [done |].
      eapply synced_extends; [exact Hext | by eapply (mw_closed _ (ms_wf _ Hm)) | done].
  - intros j k m0 Hk. simpl in Hk. unfold update in Hk. case_decide as E; [| by eapply (ms_accesses _ Hm)].
    injection E as ->. apply lookup_snoc_inv in Hk as [Hk | [-> ->]]; [by eapply (ms_accesses _ Hm) |].
    rewrite Hlen. split; [simpl in *; lia |]. intros r Hr'. simpl. apply elem_of_union_l. by apply Hr.
Qed.

(** Accesses to the messages leave the atomics alone. *)
Lemma messages_plain M x c :
  (c_writes (plains M x) <= c_writes c)%nat -> messages_ok M -> messages_ok (set_plain M x c).
Proof.
  intros Hc Hm. split; simpl; try apply Hm. by apply memory_wf_plain; [apply Hm |].
Qed.

(** ** The queue the memory holds *)

Definition latest_cell (M : mem) (i : nat) : Cell :=
  mkCell (newest_value M (sequence_v i)) (c_value (plains M i)).

Definition latest_mpmc (w : weak_mpmc) : MPMCQueue :=
  mkMPMC (wm_capacity w) (wm_mask w) (latest_cell (wm_memory w) <$> seq 0 (wm_cells w))
    (newest_value (wm_memory w) enqueue_v) (newest_value (wm_memory w) dequeue_v).

Lemma latest_cells_lookup w i :
  (i < wm_cells w)%nat -> cells_ (latest_mpmc w) !! i = Some (latest_cell (wm_memory w) i).
Proof. intros H. simpl. by rewrite list_lookup_fmap, lookup_seq_lt. Qed.

(** Changing what the memory holds for one cell changes that cell. *)
Lemma latest_cells_update M M' n i :
  (forall j, j <> i -> latest_cell M' j = latest_cell M j) ->
  latest_cell M' <$> seq 0 n = <[i := latest_cell M' i]> (latest_cell M <$> seq 0 n).
Proof.
  intros H. apply list_eq. intros j. rewrite list_lookup_fmap. destruct (decide (j < n)%nat) as [Hj | Hj].
  - rewrite lookup_seq_lt by done. simpl. destruct (decide (j = i)) as [-> | Hne].
    + rewrite list_lookup_insert_eq; [done |]. by rewrite length_fmap, length_seq.
    + rewrite list_lookup_insert_ne, list_lookup_fmap, lookup_seq_lt by done. simpl. by rewrite H.
  - rewrite lookup_seq_ge by lia. symmetry. apply lookup_ge_None. rewrite length_insert, length_fmap, length_seq. lia.
Qed.

Lemma newest_append (M : mem) l m : newest_value (append M l m) l = m_value m.
Proof. unfold newest_value. simpl. by rewrite update_same, last_snoc. Qed.

Lemma newest_append_other (M : mem) l m l' : l' <> l -> newest_value (append M l m) l' = newest_value M l'.
Proof. intros H. unfold newest_value. by rewrite append_other. Qed.

Lemma latest_position w l m :
  l = enqueue_v \/ l = dequeue_v ->
  latest_mpmc (with_cells w (append (wm_memory w) l m)) =
    match l with
    | enqueue_v => store_enqueue (latest_mpmc w) (m_value m)
    | _ => store_dequeue (latest_mpmc w) (m_value m)
    end.
Proof.
  intros [-> | ->]; unfold latest_mpmc, store_enqueue, store_dequeue; simpl;
    rewrite newest_append, newest_append_other by done; done.
Qed.

Lemma latest_sequence w i m :
  latest_mpmc (with_cells w (append (wm_memory w) (sequence_v i) m)) =
    store_cell (latest_mpmc w) i (mkCell (m_value m) (c_value (plains (wm_memory w) i))).
Proof.
  unfold latest_mpmc, store_cell. cbn [with_cells wm_capacity wm_mask wm_cells wm_memory capacity_ mask_ cells_ enqueue_pos_ dequeue_pos_].
  rewrite !newest_append_other by done. f_equal. rewrite (latest_cells_update (wm_memory w) _ _ i).
  - f_equal. unfold latest_cell. by rewrite newest_append.
  - intros j Hj. unfold latest_cell. by rewrite newest_append_other by congruence.
Qed.

Lemma latest_message w i c :
  latest_mpmc (with_cells w (set_plain (wm_memory w) i c)) =
    store_cell (latest_mpmc w) i (mkCell (newest_value (wm_memory w) (sequence_v i)) (c_value c)).
Proof.
  unfold latest_mpmc, store_cell. cbn [with_cells wm_capacity wm_mask wm_cells wm_memory capacity_ mask_ cells_ enqueue_pos_ dequeue_pos_].
  f_equal. rewrite (latest_cells_update (wm_memory w) _ _ i).
  - f_equal. unfold latest_cell. simpl. by rewrite update_same.
  - intros j Hj. unfold latest_cell. simpl. by rewrite update_other by congruence.
Qed.

Lemma latest_mpmc_new q : latest_mpmc (weak_mpmc_new q) = q.
Proof.
  unfold latest_mpmc, weak_mpmc_new, newest_value. simpl. destruct q as [c mk ss e d]. simpl. f_equal. apply list_eq. intros i.
  rewrite list_lookup_fmap. destruct (decide (i < length ss)%nat) as [Hi | Hi].
  - rewrite lookup_seq_lt by done. simpl. destruct (lookup_lt_is_Some_2 ss i Hi) as [x Hx].
    unfold latest_cell, newest_value. simpl. rewrite Hx. by destruct x.
  - rewrite lookup_seq_ge by lia. symmetry. apply lookup_ge_None. lia.
Qed.

(** ** The relation *)

(** What the threads are doing in the terms of [MPMCConcurrent.v]. *)
Definition plain_point (l : mpmc_point) : mpmc_pc :=
  match l with AtMpmc l => l | Raced => OutOfBounds | _ => MIdle end.

Definition plain_status (st : status (nat * QueueOp) QueueRes) : status QueueOp QueueRes :=
  match st with
  | Idle | Called (_, Observe _) | Finished (Observed _) => Idle
  | Called (_, o) => Called o
  | Finished r => Finished r
  end.

Definition pcs (ts : list mpmc_thread) : list mpmc_pc := (fun th => plain_point (point th)) <$> ts.
Definition statuses (cs : list (status (nat * QueueOp) QueueRes)) : list (status QueueOp QueueRes) := plain_status <$> cs.

Definition holds (l : mpmc_point) (p : Z) : Prop :=
  push_claim (plain_point l) = Some p \/ pop_claim (plain_point l) = Some p.

(** What a thread will have announced when it has let go of its cell. *)
Definition announced (th : mpmc_thread) : mview :=
  let V := cur (th_view th) in
  match push_claim (plain_point (point th)), pop_claim (plain_point (point th)) with
  | Some p, _ => view_join V (at_place (sequence_v (cell_of p)) (S (2 * round p)))
  | None, Some p => view_join V (at_place (sequence_v (cell_of p)) (S (S (2 * round p))))
  | None, None => V
  end.

(** The cell of a thread that has accessed the message and not yet stored the sequence. *)
Definition busy (l : mpmc_point) : option nat :=
  match l with AtMpmc (PushPublish _ p) | AtMpmc (PopRelease _ _ p) => Some (cell_of p) | _ => None end.

(** How often the message of a cell has been written and read. *)
Definition accessed (M : mem) (i writes reads : nat) : Prop :=
  c_writes (plains M i) = writes /\ c_reads (plains M i) = reads.

Definition at_rest (M : mem) (i : nat) : Prop :=
  let k := top M (sequence_v i) in accessed M i (Nat.div2 (S k)) (Nat.div2 k).

Definition point_ok (M : mem) (s : causal_fifo) (t : nat) (V : mview) (l : mpmc_point)
    (st : status (nat * QueueOp) QueueRes) : Prop :=
  let K := knows s t in
  let seen p := v_at V (sequence_v (cell_of p)) in
  match l, st with
  | AtMpmc MIdle, _ => st = Idle
  | AtMpmc (PushLoadCell _ p), _ => after (k_pushes K) p
  | AtMpmc (PushCas _ p), _ => (2 * round p <= seen p)%nat
  | AtMpmc (PushAssign _ p), _ => seen p = (2 * round p)%nat /\ sent s p = K
  | AtMpmc (PushPublish _ p), _ =>
      seen p = (2 * round p)%nat /\ sent s p = K /\ v_wr V (cell_of p) = S (round p) /\
      accessed M (cell_of p) (S (round p)) (round p)
  | AtMpmc (PopLoadCell _ p), _ => after (k_pops K) p
  | AtMpmc (PopCas _ p), _ => (S (2 * round p) <= seen p)%nat
  | AtMpmc (PopCopy _ p), _ => seen p = S (2 * round p) /\ freed s p = K
  | AtMpmc (PopRelease _ _ p), _ =>
      seen p = S (2 * round p) /\ freed s p = K /\ round p ∈ v_rd V (cell_of p) /\
      accessed M (cell_of p) (S (round p)) (S (round p))
  | EmptyStart, Called (_, Observe is_empty_) => True
  | EmptyLoadCell p, Called (_, Observe is_empty_) => after (k_pops K) p /\ 0 <= p <= taken (now s)
  | EmptyDone b, Finished (Observed b') => b = b'
  | AtMpmc _, _ => True
  | _, _ => False
  end.

Record thread_ok (M : mem) (s : causal_fifo) (t : nat) (th : mpmc_thread) (st : status (nat * QueueOp) QueueRes)
    : Prop := {
  ok_self : self th = t;
  ok_caller : match st with Called (t', _) => t' = t | _ => True end;
  ok_closed : thread_closed (th_view th) M;
  ok_synced : synced M (cur (th_view th));
  ok_informed : informed (knows s t) (announced th);
  ok_point : point_ok M s t (cur (th_view th)) (point th) st;
}.

(** A message on a sequence hands on what the operation knew. *)
Definition handed (M : mem) (s : causal_fifo) : Prop :=
  forall p m, 0 <= p ->
    (hist M (sequence_v (cell_of p)) !! S (2 * round p) = Some m -> informed (sent s p) (m_view m)) /\
    (hist M (sequence_v (cell_of p)) !! S (S (2 * round p)) = Some m -> informed (freed s p) (m_view m)).

Definition resting (M : mem) (ts : list mpmc_thread) : Prop :=
  forall i, (i < Z.to_nat cap)%nat -> (forall t th, ts !! t = Some th -> busy (point th) <> Some i) -> at_rest M i.

Record mpmc_weak_rel (n : nat) (p : pool weak_mpmc mpmc_thread)
    (c : pool causal_fifo (status (nat * QueueOp) QueueRes)) : Prop := {
  mr_sim : mpmc_sim MaxPayloadSize cap n (mkPool (latest_mpmc (shared p)) (pcs (threads p)))
             (mkPool (now (shared c)) (statuses (threads c)));
  mr_messages : messages_ok (wm_memory (shared p));
  mr_handed : handed (wm_memory (shared p)) (shared c);
  mr_fresh : forall p, p < 0 -> freed (shared c) p = nothing_known;
  mr_resting : resting (wm_memory (shared p)) (threads p);
  mr_threads : threads_related (thread_ok (wm_memory (shared p)) (shared c)) (threads p) (threads c);
}.

(** *** What the other threads rely on *)

Lemma holds_busy l i : busy l = Some i -> exists p, holds l p /\ i = cell_of p.
Proof. destruct l as [[] | | | |]; intros; simplify_eq/=; eexists; (split; [first [by left | by right] | done]). Qed.

Lemma thread_ok_frame M M' s s' t th st :
  thread_ok M s t th st -> extends M M' ->
  (forall p, holds (point th) p -> plains M' (cell_of p) = plains M (cell_of p) /\
     (push_claim (plain_point (point th)) = Some p -> sent s' p = sent s p) /\
     (pop_claim (plain_point (point th)) = Some p -> freed s' p = freed s p)) ->
  knows s' t = knows s t -> taken (now s) <= taken (now s') -> thread_ok M' s' t th st.
Proof.
  intros [Hself Hcall Hcl Hsy Hinf Hpt] He Hown Hk Htk. split; try done.
  - by eapply thread_closed_extends.
  - eapply synced_extends; [done | by apply thread_closed_cur | done].
  - by rewrite Hk.
  - unfold point_ok, accessed in *. rewrite Hk. destruct th as [t0 T l]. simpl in *.
    destruct l as [[] | | | |]; try done.
    + destruct (Hown position) as (_ & H & _); [by left | by rewrite H].
    + destruct (Hown position) as (Hpl & H & _); [by left | by rewrite Hpl, H].
    + destruct (Hown position) as (_ & _ & H); [by right | by rewrite H].
    + destruct (Hown position) as (Hpl & _ & H); [by right | by rewrite Hpl, H].
    + destruct st as [| [t1 [| | []]] |]; try done. split; [tauto | lia].
Qed.

(** The message of every other cell and its sequence are as before. *)
Definition only_cell (M M' : mem) (i : nat) : Prop :=
  forall j, j <> i -> plains M' j = plains M j /\ hist M' (sequence_v j) = hist M (sequence_v j).

Lemma resting_only M M' ts t th th' i :
  resting M ts -> ts !! t = Some th -> only_cell M M' i ->
  (forall j, busy (point th) = Some j -> j = i) ->
  busy (point th') = Some i \/ at_rest M' i -> resting M' (<[t := th']> ts).
Proof.
  intros Hr Ht Hon Hb Hi j Hj Hn. destruct (decide (j = i)) as [-> | Hne].
  - destruct Hi as [Hi |]; [| done]. destruct (Hn t th'); [| done]. by eapply list_lookup_insert_eq, lookup_lt_Some.
  - destruct (Hon j Hne) as [Hp Hh]. unfold at_rest, accessed, top. rewrite Hp, Hh. apply (Hr j Hj).
    intros t0 th0 Ht0 Hb0. destruct (decide (t0 = t)) as [-> | Hne0].
    + simplify_eq. by apply Hne, Hb.
    + apply (Hn t0 th0); [by rewrite list_lookup_insert_ne | done].
Qed.

Lemma resting_same M M' ts t th th' :
  resting M ts -> ts !! t = Some th -> (forall j, plains M' j = plains M j /\ hist M' (sequence_v j) = hist M (sequence_v j)) ->
  busy (point th) = None -> resting M' (<[t := th']> ts).
Proof.
  intros Hr Ht Hsame Hb j Hj Hn. destruct (Hsame j) as [Hp Hh]. unfold at_rest, accessed, top. rewrite Hp, Hh.
  apply (Hr j Hj). intros t0 th0 Ht0 Hb0. destruct (decide (t0 = t)) as [-> | Hne0]; [simplify_eq; congruence |].
  apply (Hn t0 th0); [by rewrite list_lookup_insert_ne | done].
Qed.

(** ** The simulation *)

Definition weak_simulated (n : nat) (w : weak_mpmc) (ts : list mpmc_thread) (s : causal_fifo)
    (cs : list (status (nat * QueueOp) QueueRes)) : Prop :=
  exists c', match_step (canon_step (strict (causal_spec MaxPayloadSize cap))) (mkPool s cs) None c' /\
             mpmc_weak_rel (S n) (mkPool w ts) c'.

Lemma weak_simulated_stay n w ts s cs t st :
  cs !! t = Some st -> mpmc_weak_rel (S n) (mkPool w ts) (mkPool s (<[t := st]> cs)) -> weak_simulated n w ts s cs.
Proof. intros Hst Hs. rewrite list_insert_id in Hs by done. eexists. split; [apply match_stutter | done]. Qed.

Lemma weak_simulated_lin n w ts s cs t o r s' :
  cs !! t = Some (Called o) -> causal_spec MaxPayloadSize cap s o r s' ->
  mpmc_weak_rel (S n) (mkPool w ts) (mkPool s' (<[t := Finished r]> cs)) -> weak_simulated n w ts s cs.
Proof. intros Hst Hs Hr. eexists. split; [by eapply match_one, canon_lin | done]. Qed.

Definition unclaimed (l : mpmc_point) : Prop :=
  push_claim (plain_point l) = None /\ pop_claim (plain_point l) = None.

Lemma unclaimed_busy l : unclaimed l -> busy l = None.
Proof. destruct l as [[] | | | |]; by intros []. Qed.

Lemma announced_unclaimed th : unclaimed (point th) -> announced th = cur (th_view th).
Proof. intros [H1 H2]. unfold announced. by rewrite H1, H2. Qed.

Section weak_step.

Context (n : nat) (w : weak_mpmc) (ts : list mpmc_thread) (s : causal_fifo) (cs : list (status (nat * QueueOp) QueueRes)).
Context (t : nat) (T : mpmc_view) (l : mpmc_point).

Hypothesis related : mpmc_weak_rel n (mkPool w ts) (mkPool s cs).
Hypothesis here : ts !! t = Some (mkThread t T l).
Hypothesis bound : Z.of_nat (S n) + cap < u64_modulus.

Abbreviation M := (wm_memory w).

Lemma weak_sim : mpmc_sim MaxPayloadSize cap n (mkPool (latest_mpmc w) (pcs ts)) (mkPool (now s) (statuses cs)).
Proof. apply (mr_sim _ _ _ related). Qed.

Lemma weak_pc : pcs ts !! t = Some (plain_point l).
Proof. unfold pcs. by rewrite list_lookup_fmap, here. Qed.

Lemma weak_messages : messages_ok M.
Proof. apply (mr_messages _ _ _ related). Qed.

Lemma weak_status :
  exists st, cs !! t = Some st /\ statuses cs !! t = Some (plain_status st) /\ thread_ok M s t (mkThread t T l) st /\
    mpmc_rel MaxPayloadSize cap (latest_mpmc w) (now s) (plain_point l) (plain_status st).
Proof.
  destruct (threads_related_lookup _ _ _ _ _ (mr_threads _ _ _ related) here) as (st & Hst & Hok). exists st.
  assert (Hst' : statuses cs !! t = Some (plain_status st)) by (unfold statuses; simpl in Hst; by rewrite list_lookup_fmap, Hst).
  split_and!; [done | done | done |].
  destruct (step_rel _ _ _ _ _ _ _ _ weak_sim _ weak_pc) as (st' & Hst2 & HP). by simplify_eq.
Qed.

Lemma weak_counts :
  2 <= cap /\ wm_capacity w = cap /\ wm_cells w = Z.to_nat cap /\
  newest_value M enqueue_v = pushed (now s) /\ newest_value M dequeue_v = taken (now s) /\
  0 <= taken (now s) <= pushed (now s) /\ pushed (now s) <= Z.of_nat n.
Proof.
  pose proof (step_counters _ _ _ _ _ _ _ weak_sim) as H. pose proof (sim_ring _ _ _ _ _ weak_sim) as Hr. simpl in Hr.
  pose proof (ring_cells _ _ _ _ Hr) as Hc. simpl in Hc. rewrite length_fmap, length_seq in Hc.
  pose proof (ring_capacity _ _ _ _ Hr). pose proof (ring_enqueue _ _ _ _ Hr). pose proof (ring_dequeue _ _ _ _ Hr).
  simpl in *. unfold taken. split_and!; (done || lia).
Qed.

Lemma weak_cell_eq p : weak_cell w p = cell_of p /\ (cell_of p < wm_cells w)%nat.
Proof.
  pose proof (sim_ring _ _ _ _ _ weak_sim) as Hr. pose proof (ring_cell_index _ _ _ _ p Hr) as Hi.
  destruct weak_counts as (Hc & _ & -> & _). split; [exact Hi | apply cell_of_range; lia].
Qed.

Lemma latest_cell_at p : cell_at cap (latest_mpmc w) p (latest_cell M (cell_of p)).
Proof. apply latest_cells_lookup, weak_cell_eq. Qed.

Lemma latest_phase p c : cell_at cap (latest_mpmc w) p c ->
  cell_sequence c = phase (cell_of p) (top M (sequence_v (cell_of p))).
Proof.
  intros Hc. rewrite (cell_at_fun _ _ _ _ _ Hc (latest_cell_at p)). simpl. apply newest_sequence; [apply weak_messages |].
  apply cell_of_range. destruct weak_counts. lia.
Qed.

(** A step of the thread, and what it must leave alone. *)
Lemma weak_moves w' s' th' st' :
  mpmc_sim MaxPayloadSize cap (S n) (mkPool (latest_mpmc w') (<[t := plain_point (point th')]> (pcs ts)))
    (mkPool (now s') (<[t := plain_status st']> (statuses cs))) ->
  messages_ok (wm_memory w') -> extends M (wm_memory w') -> handed (wm_memory w') s' ->
  (forall p, p < 0 -> freed s' p = nothing_known) -> resting (wm_memory w') (<[t := th']> ts) ->
  (forall t' th2 p, t' <> t -> ts !! t' = Some th2 -> holds (point th2) p ->
     plains (wm_memory w') (cell_of p) = plains M (cell_of p) /\
     (push_claim (plain_point (point th2)) = Some p -> sent s' p = sent s p) /\
     (pop_claim (plain_point (point th2)) = Some p -> freed s' p = freed s p)) ->
  (forall t', t' <> t -> knows s' t' = knows s t') -> taken (now s) <= taken (now s') ->
  thread_ok (wm_memory w') s' t th' st' ->
  mpmc_weak_rel (S n) (mkPool w' (<[t := th']> ts)) (mkPool s' (<[t := st']> cs)).
Proof.
  intros Hsim Hm He Hh Hf Hr Hother Hk Ht Hok. split; try done.
  - simpl. unfold pcs, statuses. by rewrite !list_fmap_insert.
  - eapply threads_related_update; [apply (mr_threads _ _ _ related) | | done].
    intros t' x y Hne Hx _ Hxy. eapply thread_ok_frame; [exact Hxy | done | | by apply Hk | done].
    intros p Hp. by eapply Hother.
Qed.

(** Steps that only look: the thread learns something and goes on. *)
Lemma weak_looks T' l' st' :
  unclaimed l -> unclaimed l' -> thread_closed T' M -> synced M (cur T') -> view_le (cur T) (cur T') ->
  match st' with Called (t', _) => t' = t | _ => True end ->
  mpmc_rel MaxPayloadSize cap (latest_mpmc w) (now s) (plain_point l') (plain_status st') ->
  point_ok M s t (cur T') l' st' ->
  mpmc_weak_rel (S n) (mkPool w (<[t := mkThread t T' l']> ts)) (mkPool s (<[t := st']> cs)).
Proof.
  intros Hl Hl' Hcl Hsy Hle Hcall HP Hpt. destruct weak_status as (st & Hst & Hst' & Hok & _).
  apply weak_moves; try done; simpl.
  - eapply sim_local; [apply weak_sim | apply weak_pc | | | done]; destruct Hl, Hl'; congruence.
  - apply weak_messages.
  - apply (mr_handed _ _ _ related).
  - apply (mr_fresh _ _ _ related).
  - eapply resting_same; [apply (mr_resting _ _ _ related) | exact here | done | by apply unclaimed_busy].
  - split; try done. rewrite announced_unclaimed by done. eapply informed_le; [exact Hle |].
    pose proof (ok_informed _ _ _ _ _ Hok) as Hi. by rewrite announced_unclaimed in Hi.
Qed.

Lemma load_then_inv o x k w' th' :
  (w', th') ∈ load_then t w o x T k ->
  exists v T', (v, T') ∈ load M o x T /\ w' = w /\ th' = mkThread t T' (k v).
Proof. intros ([v T'] & [= -> ->] & Hv)%list_elem_of_fmap. by exists v, T'. Qed.

(** Loading a position: at or after what the thread knows. *)
Lemma weak_load_position x v T' :
  unclaimed l -> x = enqueue_v \/ x = dequeue_v -> (v, T') ∈ load M relaxed x T ->
  thread_closed T' M /\ synced M (cur T') /\ view_le (cur T) (cur T') /\
  0 <= v <= newest_value M x /\ after (match x with enqueue_v => k_pushes | _ => k_pops end (knows s t)) v.
Proof.
  intros Hl Hx Hv. destruct weak_status as (st & _ & _ & Hok & _). destruct Hok as [_ _ Hcl Hsy Hinf _]. simpl in *.
  rewrite announced_unclaimed in Hinf by done. simpl in Hinf.
  destruct (load_position M T x v T' weak_messages Hcl Hsy Hx Hv) as (Hcl' & Hsy' & Hle & Hvr).
  split_and!; [done | done | done | lia | lia |]. intros p Hp.
  destruct Hx as [-> | ->]; [destruct (inf_pushes _ _ Hinf p Hp) as (_ & _ & ?) | destruct (inf_pops _ _ Hinf p Hp) as (_ & _ & ?)]; lia.
Qed.

Lemma weak_push_position pl v T' st :
  unclaimed l -> (v, T') ∈ load M relaxed enqueue_v T -> cs !! t = Some st -> st = Called (t, TryPush pl) ->
  span_size pl <= MaxPayloadSize ->
  weak_simulated n w (<[t := mkThread t T' (AtMpmc (PushLoadCell pl v))]> ts) s cs.
Proof.
  intros Hl Hv Hst -> Hfit. destruct (weak_load_position enqueue_v v T' Hl) as (Hcl & Hsy & Hle & Hr & Ha); [by left | done |].
  destruct weak_counts as (_ & _ & _ & He & _). rewrite He in Hr.
  eapply weak_simulated_stay; [exact Hst |]. by apply weak_looks.
Qed.

Lemma weak_pop_position d v T' st :
  unclaimed l -> (v, T') ∈ load M relaxed dequeue_v T -> cs !! t = Some st -> st = Called (t, TryPop d) ->
  weak_simulated n w (<[t := mkThread t T' (AtMpmc (PopLoadCell d v))]> ts) s cs.
Proof.
  intros Hl Hv Hst ->. destruct (weak_load_position dequeue_v v T' Hl) as (Hcl & Hsy & Hle & Hr & Ha); [by right | done |].
  destruct weak_counts as (_ & _ & _ & _ & Hd & _). rewrite Hd in Hr.
  eapply weak_simulated_stay; [exact Hst |]. by apply weak_looks.
Qed.

(** *** Looking at a cell *)

Lemma weak_load_sequence p k w' th' :
  unclaimed l -> (w', th') ∈ load_sequence t w p T k ->
  exists v T' j, w' = w /\ th' = mkThread t T' (k v) /\ thread_closed T' M /\ synced M (cur T') /\ view_le (cur T) (cur T') /\
    v = phase (cell_of p) j /\
    (v_at (cur T) (sequence_v (cell_of p)) <= j <= v_at (cur T') (sequence_v (cell_of p)))%nat /\
    (j <= top M (sequence_v (cell_of p)))%nat.
Proof.
  intros Hl Hs. destruct weak_status as (st & _ & _ & [_ _ Hcl Hsy _ _] & _). simpl in *.
  destruct (weak_cell_eq p) as [Hi Hlt]. unfold load_sequence in Hs. rewrite Hi, decide_True in Hs by done.
  apply load_then_inv in Hs as (v & T' & Hv & -> & ->).
  destruct weak_counts as (_ & _ & Hcells & _). rewrite Hcells in Hlt.
  destruct (load_cell M T (cell_of p) v T' weak_messages Hlt Hcl Hsy Hv) as (Hcl' & Hsy' & Hle & j & Hj & Hjr & Htop).
  by exists v, T', j.
Qed.

(** A thread that knows of an operation on a cell does not see an earlier sequence. *)
Lemma known_pop_phase p j :
  unclaimed l -> cap <= p -> p - cap ∈ k_pops (knows s t) -> (v_at (cur T) (sequence_v (cell_of p)) <= j)%nat ->
  p <= phase (cell_of p) j.
Proof.
  intros Hl Hp Hin Hj. destruct weak_status as (st & _ & _ & [_ _ _ _ Hinf _] & _). rewrite announced_unclaimed in Hinf by done.
  destruct weak_counts as (Hc & _). destruct (inf_pops _ _ Hinf _ Hin) as (_ & Hat & _). simpl in Hat.
  rewrite cell_of_period in Hat by lia. rewrite <- (phase_free p) at 1 by lia. apply phase_le; [done |].
  rewrite (round_period p) by lia. lia.
Qed.

Lemma known_push_phase p j :
  unclaimed l -> 0 <= p -> p ∈ k_pushes (knows s t) -> (v_at (cur T) (sequence_v (cell_of p)) <= j)%nat ->
  p + 1 <= phase (cell_of p) j.
Proof.
  intros Hl Hp Hin Hj. destruct weak_status as (st & _ & _ & [_ _ _ _ Hinf _] & _). rewrite announced_unclaimed in Hinf by done.
  destruct weak_counts as (Hc & _). destruct (inf_pushes _ _ Hinf _ Hin) as (_ & Hat & _). simpl in Hat.
  rewrite <- (phase_full p) by lia. apply phase_le; [done | lia].
Qed.

Lemma phase_start p j : 0 <= p -> phase (cell_of p) j < p -> cap <= p.
Proof.
  intros Hp Hj. destruct weak_counts as (Hc & _). pose proof (phase_le (cell_of p) 0 j Hc ltac:(lia)) as H0. simpl in H0.
  destruct (Z.le_gt_cases cap p) as [| Hlt]; [done |].
  assert (Z.of_nat (cell_of p) = p); [| lia]. unfold cell_of, slot_of. rewrite Z.mod_small by lia. lia.
Qed.

Lemma weak_push_cell_sim pl p w' th' :
  l = AtMpmc (PushLoadCell pl p) -> (w', th') ∈ weak_mpmc_step w t T (PushLoadCell pl p) ->
  weak_simulated n w' (<[t := th']> ts) s cs.
Proof.
  intros El Hs. assert (Hl : unclaimed l) by (by subst l). cbn in Hs.
  apply (weak_load_sequence p) in Hs as (v & T' & j & -> & -> & Hcl & Hsy & Hle & Hv & Hj & Htop); [| done].
  destruct weak_status as (st & Hst & _ & Hok & HP). rewrite El in Hok, HP.
  destruct st as [| [t0 [pl' | | ]] | []]; try done. destruct HP as (<- & Hfit & Hp).
  destruct Hok as [_ Hcall _ _ _ Haft]. simpl in Hcall, Haft. subst t0.
  destruct weak_counts as (Hc & _ & _ & He & _ & Hcnt & Hn).
  pose proof (phase_le (cell_of p) j _ Hc Htop) as Hmax.
  case_tests.
  - eapply weak_simulated_stay; [exact Hst |]. apply weak_looks; try done; simpl.
    + split_and!; [done | done | lia | lia |]. intros ->. exists (latest_cell M (cell_of (pushed (now s)))).
      split; [apply latest_cell_at |]. pose proof (latest_cell_at (pushed (now s))) as Hca.
      pose proof (enqueue_cell_le _ _ _ _ _ _ _ _ weak_sim Hca) as Hub. rewrite (latest_phase _ _ Hca) in Hub |- *. lia.
    + assert (j = (2 * round p)%nat); [apply phase_free_inv; lia | lia].
  - assert (Hcp : cap <= p) by (eapply phase_start; [lia | by rewrite <- Hv]).
    apply (weak_simulated_lin _ _ _ _ _ _ _ (Pushed (mkWrite full 0)) s Hst); [| by apply weak_looks].
    apply (causal_full _ _ _ _ _ p); [done | lia | done |]. intros Hin. pose proof (known_pop_phase p j Hl Hcp Hin). lia.
  - eapply weak_simulated_stay; [exact Hst |]. by apply weak_looks.
Qed.

(** At the dequeue position a cell that looks published holds a message. *)
Lemma published_cell p j :
  (j <= top M (sequence_v (cell_of p)))%nat -> p = taken (now s) -> p + 1 <= phase (cell_of p) j ->
  p < pushed (now s) /\ exists c, cell_at cap (latest_mpmc w) p c /\ cell_sequence c = p + 1.
Proof.
  intros Htop -> Hj. destruct weak_counts as (Hc & _). pose proof (phase_le (cell_of (taken (now s))) j _ Hc Htop) as Hmax.
  pose proof (latest_cell_at (taken (now s))) as Hca. pose proof (dequeue_cell_le _ _ _ _ _ _ _ _ weak_sim Hca) as Hub.
  fold (taken (now s)) in Hub. pose proof (latest_phase _ _ Hca) as Hph.
  assert (Hseq : cell_sequence (latest_cell M (cell_of (taken (now s)))) = taken (now s) + 1) by lia.
  split; [| by eexists]. by eapply (published_nonempty _ _ _ _ _ _ _ _ weak_sim).
Qed.

Lemma weak_pop_cell_sim d p w' th' :
  l = AtMpmc (PopLoadCell d p) -> (w', th') ∈ weak_mpmc_step w t T (PopLoadCell d p) ->
  weak_simulated n w' (<[t := th']> ts) s cs.
Proof.
  intros El Hs. assert (Hl : unclaimed l) by (by subst l). cbn in Hs.
  apply (weak_load_sequence p) in Hs as (v & T' & j & -> & -> & Hcl & Hsy & Hle & Hv & Hj & Htop); [| done].
  destruct weak_status as (st & Hst & _ & Hok & HP). rewrite El in Hok, HP.
  destruct st as [| [t0 [| d' | ]] | []]; try done. destruct HP as (<- & Hp). fold (taken (now s)) in Hp.
  destruct Hok as [_ Hcall _ _ _ Haft]. simpl in Hcall, Haft. subst t0.
  destruct weak_counts as (Hc & _ & _ & _ & _ & Hcnt & Hn). rewrite u64_small by lia.
  case_tests.
  - eapply weak_simulated_stay; [exact Hst |]. apply weak_looks; try done; simpl.
    + fold (taken (now s)). split_and!; [done | lia | lia |]. intros Hpt. apply (published_cell p j); [done | done | lia].
    + assert (j = S (2 * round p)); [apply phase_full_inv; lia | lia].
  - apply (weak_simulated_lin _ _ _ _ _ _ _ (Popped (mkRead empty 0 0) d) s Hst); [| by apply weak_looks].
    apply (causal_nothing _ _ _ _ _ p); [lia | done |]. intros Hin. pose proof (known_push_phase p j Hl ltac:(lia) Hin). lia.
  - eapply weak_simulated_stay; [exact Hst |]. by apply weak_looks.
Qed.

(** [empty()] *)
Lemma weak_observer_sim w' th' :
  l = EmptyStart \/ (exists p, l = EmptyLoadCell p) -> (w', th') ∈ weak_mpmc_tstep w (mkThread t T l) ->
  weak_simulated n w' (<[t := th']> ts) s cs.
Proof.
  intros El Hs. destruct weak_counts as (Hc & _ & _ & _ & Hd & Hcnt & Hn).
  destruct weak_status as (st & Hst & _ & Hok & _). pose proof (ok_caller _ _ _ _ _ Hok) as Hcall.
  pose proof (ok_point _ _ _ _ _ Hok) as Hpt. simpl in Hpt. destruct El as [E | [p E]].
  - assert (Hl : unclaimed l) by (by subst l). rewrite E in Hpt, Hs. cbn in Hs.
    apply load_then_inv in Hs as (v & T' & Hv & -> & ->). destruct st as [| [t0 [| | []]] |]; try done. subst t0.
    destruct (weak_load_position dequeue_v v T' Hl) as (Hcl & Hsy & Hle & Hr & Ha); [by right | done |]. rewrite Hd in Hr.
    eapply weak_simulated_stay; [exact Hst |]. by apply weak_looks.
  - assert (Hl : unclaimed l) by (by subst l). rewrite E in Hpt, Hs. cbn in Hs.
    apply (weak_load_sequence p) in Hs as (v & T' & j & -> & -> & Hcl & Hsy & Hle & Hv & Hj & Htop); [| done].
    destruct st as [| [t0 [| | []]] |]; try done. subst t0. simpl in Hpt. destruct Hpt as [Haft Hp].
    rewrite u64_small by lia. apply (weak_simulated_lin _ _ _ _ _ _ _ (Observed (v <? p + 1)) s Hst); [| by apply weak_looks].
    apply (causal_observed _ _ _ _ _ p); [done | done |]. destruct (Z.ltb_spec v (p + 1)).
    + intros Hin. pose proof (known_push_phase p j Hl ltac:(lia) Hin). lia.
    + destruct (Z.eq_dec p (taken (now s))) as [Ept |]; [| lia]. apply (published_cell p j); [done | done | lia].
Qed.

(** *** Claiming a position *)

Lemma other_claim t' th2 p :
  t' <> t -> ts !! t' = Some th2 -> holds (point th2) p ->
  (push_claim (plain_point (point th2)) = Some p /\ p < pushed (now s)) \/
  (pop_claim (plain_point (point th2)) = Some p /\ push_claim (plain_point (point th2)) = None /\ p < taken (now s)).
Proof.
  intros Hne Hth Hh. assert (Hpc : pcs ts !! t' = Some (plain_point (point th2))) by (unfold pcs; by rewrite list_lookup_fmap, Hth).
  destruct (step_rel _ _ _ _ _ _ _ _ weak_sim _ Hpc) as (st' & _ & HP).
  destruct (claim_range _ _ _ _ _ _ _ HP Hh) as [[Hcl Hr] | [Hcl Hr]]; [left; split; [done | lia] | right].
  split; [done |]. split; [by destruct (plain_point (point th2)) | unfold taken; lia].
Qed.

(** A thread that has seen a message knows what it hands on. *)
Lemma informed_seen i k V K :
  synced M V -> (k <= v_at V (sequence_v i))%nat -> (k <= top M (sequence_v i))%nat ->
  (forall m, hist M (sequence_v i) !! k = Some m -> informed K (m_view m)) -> informed K V.
Proof.
  intros Hs Hk Htop Hm. destruct (lookup_lt_is_Some_2 (hist M (sequence_v i)) k) as [m Hl].
  { rewrite top_length by apply (ms_wf _ weak_messages). lia. }
  eapply informed_le; [by eapply Hs | by apply Hm].
Qed.

(** A successful exchange of a position. *)
Lemma weak_claims x m s' T' l' st' :
  x = enqueue_v \/ x = dequeue_v -> unclaimed l -> messages_ok (append M x m) ->
  mpmc_sim MaxPayloadSize cap (S n)
    (mkPool (match x with enqueue_v => store_enqueue | _ => store_dequeue end (latest_mpmc w) (m_value m)) (<[t := plain_point l']> (pcs ts)))
    (mkPool (now s') (<[t := plain_status st']> (statuses cs))) ->
  handed M s' -> (forall p, p < 0 -> freed s' p = nothing_known) ->
  (forall p, p < pushed (now s) -> sent s' p = sent s p) -> (forall p, p < taken (now s) -> freed s' p = freed s p) ->
  (forall t', t' <> t -> knows s' t' = knows s t') -> taken (now s) <= taken (now s') ->
  thread_ok (append M x m) s' t (mkThread t T' l') st' ->
  mpmc_weak_rel (S n) (mkPool (with_cells w (append M x m)) (<[t := mkThread t T' l']> ts)) (mkPool s' (<[t := st']> cs)).
Proof.
  intros Hx Hl Hm Hsim Hh Hf Hsent Hfreed Hk Htk Hok.
  assert (Hsame : forall j, hist (append M x m) (sequence_v j) = hist M (sequence_v j)) by (intros j; apply append_other; by destruct Hx as [-> | ->]).
  apply weak_moves; try done; cbn [wm_memory with_cells].
  - rewrite latest_position by done. by destruct Hx as [-> | ->].
  - apply append_extends.
  - intros p m'. rewrite Hsame. apply Hh.
  - eapply resting_same; [apply (mr_resting _ _ _ related) | exact here | done | by apply unclaimed_busy].
  - intros t' th2 p Hne Hth2 Hh2. split; [done |].
    destruct (other_claim _ _ _ Hne Hth2 Hh2) as [[Hpu ?] | (Hpo & Hpu & ?)]; split; intros E; try (by auto); [| congruence].
    by destruct (plain_point (point th2)).
Qed.

Lemma weak_claim_push pl p M' T' :
  l = AtMpmc (PushCas pl p) -> exchange M enqueue_v p (p +u 1) T = Some (M', T') ->
  weak_simulated n (with_cells w M') (<[t := mkThread t T' (AtMpmc (PushAssign pl p))]> ts) s cs.
Proof.
  intros El Hx. assert (Hl : unclaimed l) by (by subst l). pose proof weak_pc as Hpc.
  destruct weak_status as (st & Hst & Hst' & Hok & HP). rewrite El in HP, Hpc.
  destruct st as [| [t0 [pl' | | ]] | []]; try done. destruct HP as (<- & Hfit & Hp & Hcas).
  destruct weak_counts as (Hc & _ & _ & He & _ & Hcnt & Hn). destruct Hok as [_ Hcall Hcl Hsy Hinf Hpt]. simpl in Hcall. subst t0.
  rewrite announced_unclaimed in Hinf by done. rewrite El in Hpt. cbn [point_ok point th_view] in Hpt, Hcl, Hsy, Hinf. rewrite u64_small in Hx by lia.
  destruct (messages_exchange M enqueue_v p (p + 1) T M' T' weak_messages Hcl Hsy ltac:(by left) eq_refl Hx)
    as (Hnew & Hm' & Hext & Hcl' & Hsy' & Hle & Hseq & Hown & m & -> & Hmv).
  assert (Epos : p = pushed (now s)) by lia. destruct (Hcas Epos) as (c & Hca & Hcs).
  rewrite (latest_phase _ _ Hca) in Hcs. apply phase_free_inv in Hcs as Htop; [| lia | lia].
  pose proof (top_closed M (sequence_v (cell_of p)) _ (ms_wf _ weak_messages) (thread_closed_cur _ _ Hcl)) as Hseen.
  rewrite Epos in Hpc. destruct (sim_take_push _ _ _ _ _ _ _ _ _ weak_sim bound Hpc Hst') as [Hpush Hsim'].
  rewrite <- Epos in Hpush, Hsim'. rewrite u64_small in Hsim' by lia.
  set (a' := mkFifo (p + 1) (items (now s) ++ [(p + 1, pl)])) in *.
  eapply (weak_simulated_lin _ _ _ _ _ _ _ _ (record_push cap s t a') Hst); [by apply causal_accepted; [exact Hpush |] |].
  apply weak_claims; try done; cbn [record_push now knows sent freed]; [by left | by rewrite Hmv | | apply (mr_fresh _ _ _ related) | | | |].
  - intros p' m' Hp'. destruct (mr_handed _ _ _ related p' m' Hp') as [H1 H2]. split; [| done].
    cbn [record_push sent]. rewrite <- Epos. unfold update. case_decide as E; [subst p' | done]. intros Hm0. apply lookup_lt_Some in Hm0.
    rewrite top_length, Htop in Hm0 by apply (ms_wf _ weak_messages). lia.
  - intros p' Hp'. apply update_other. lia.
  - intros t' Hne. by apply update_other.
  - unfold taken. simpl. unfold span_size. rewrite length_app. simpl. lia.
  - split; try done; cbn [th_view point announced plain_point push_claim pop_claim record_push knows].
    + rewrite update_same, <- Epos.
      assert (Hge : view_le (cur T) (view_join (cur T') (at_place (sequence_v (cell_of p)) (S (2 * round p)))))
        by (etrans; [exact Hle | apply view_join_l]).
      apply informed_push; [lia | simpl; rewrite update_same; lia | simpl; rewrite update_other by done; simpl; lia |].
      eapply informed_le; [exact Hge |]. apply informed_learn; [done |].
      destruct (Z.lt_ge_cases p cap) as [Hlt | Hge']; [rewrite (mr_fresh _ _ _ related) by lia; apply informed_nothing |].
      apply (informed_seen (cell_of p) (2 * round p)); [done | lia | lia |]. intros m0 Hm0.
      apply (mr_handed _ _ _ related); [lia |]. rewrite cell_of_period by lia.
      replace (S (S (2 * round (p - cap)))) with (2 * round p)%nat; [done |]. rewrite (round_period p) by lia. lia.
    + cbn [point_ok record_push knows sent]. rewrite <- Epos, !update_same, Hseq. split; [lia | done].
Qed.

Lemma weak_claim_pop d p M' T' :
  l = AtMpmc (PopCas d p) -> exchange M dequeue_v p (p +u 1) T = Some (M', T') ->
  weak_simulated n (with_cells w M') (<[t := mkThread t T' (AtMpmc (PopCopy d p))]> ts) s cs.
Proof.
  intros El Hx. assert (Hl : unclaimed l) by (by subst l). pose proof weak_pc as Hpc.
  destruct weak_status as (st & Hst & Hst' & Hok & HP). rewrite El in HP, Hpc.
  destruct st as [| [t0 [| d' | ]] | []]; try done. destruct HP as (<- & Hp & Hcas). fold (taken (now s)) in Hp, Hcas.
  destruct weak_counts as (Hc & _ & _ & _ & Hd & Hcnt & Hn). destruct Hok as [_ Hcall Hcl Hsy Hinf Hpt]. simpl in Hcall. subst t0.
  rewrite announced_unclaimed in Hinf by done. rewrite El in Hpt. cbn [point_ok point th_view] in Hpt, Hcl, Hsy, Hinf. rewrite u64_small in Hx by lia.
  destruct (messages_exchange M dequeue_v p (p + 1) T M' T' weak_messages Hcl Hsy ltac:(by right) eq_refl Hx)
    as (Hnew & Hm' & Hext & Hcl' & Hsy' & Hle & Hseq & Hown & m & -> & Hmv).
  assert (Epos : p = taken (now s)) by lia. destruct (Hcas Epos) as (Hlt & c & Hca & Hcs).
  rewrite (latest_phase _ _ Hca) in Hcs. apply phase_full_inv in Hcs as Htop; [| lia | lia].
  pose proof (top_closed M (sequence_v (cell_of p)) _ (ms_wf _ weak_messages) (thread_closed_cur _ _ Hcl)) as Hseen.
  rewrite Epos in Hpc. destruct (sim_take_pop _ _ _ _ _ _ _ _ _ weak_sim bound Hpc Hst') as (msg & rest & r & d' & Hi & Hdel & Hsim').
  fold (taken (now s)) in Hsim'. rewrite <- Epos in Hsim'. rewrite u64_small in Hsim' by lia.
  set (a' := mkFifo (pushed (now s)) rest) in *.
  eapply (weak_simulated_lin _ _ _ _ _ _ _ _ (record_pop s t a') Hst).
  { apply causal_delivered; [| by rewrite Hi]. unfold fifo_pop. by rewrite Hi, Hdel, orb_true_r. }
  apply weak_claims; try done; cbn [record_pop now knows sent freed]; [by right | by rewrite Hmv | | | | | |].
  - intros p' m' Hp'. destruct (mr_handed _ _ _ related p' m' Hp') as [H1 H2]. split; [done |].
    cbn [record_pop freed]. rewrite <- Epos. unfold update. case_decide as E; [subst p' | done]. intros Hm0. apply lookup_lt_Some in Hm0.
    rewrite top_length, Htop in Hm0 by apply (ms_wf _ weak_messages). lia.
  - intros p' Hp'. rewrite update_other by lia. by apply (mr_fresh _ _ _ related).
  - intros p' Hp'. apply update_other. lia.
  - intros t' Hne. by apply update_other.
  - unfold taken, a'. simpl. rewrite Hi. unfold span_size. simpl. lia.
  - split; try done; cbn [th_view point announced plain_point push_claim pop_claim record_pop knows].
    + rewrite update_same, <- Epos.
      assert (Hge : view_le (cur T) (view_join (cur T') (at_place (sequence_v (cell_of p)) (S (S (2 * round p))))))
        by (etrans; [exact Hle | apply view_join_l]).
      apply informed_pop; [lia | simpl; rewrite update_same; lia | simpl; rewrite update_other by done; simpl; lia |].
      eapply informed_le; [exact Hge |]. apply informed_learn; [done |].
      apply (informed_seen (cell_of p) (S (2 * round p))); [done | lia | lia |]. intros m0 Hm0.
      by apply (mr_handed _ _ _ related); [lia |].
    + cbn [point_ok record_pop knows freed]. rewrite <- Epos, !update_same, Hseq. split; [lia | done].
Qed.

(** *** Working on a claimed cell *)

Lemma held_apart p t' th2 p' :
  holds l p -> t' <> t -> ts !! t' = Some th2 -> holds (point th2) p' -> cell_of p' <> cell_of p.
Proof.
  intros Hh Hne Hth Hh'. assert (Hpc : pcs ts !! t' = Some (plain_point (point th2))) by (unfold pcs; by rewrite list_lookup_fmap, Hth).
  by eapply (mpmc_sim_apart _ _ _ _ _ t' t _ _ _ _ weak_sim Hne Hpc weak_pc).
Qed.

Lemma held_at_rest p : holds l p -> busy l = None -> at_rest M (cell_of p).
Proof.
  intros Hh Hb. destruct weak_counts as (Hc & _). apply (mr_resting _ _ _ related); [apply cell_of_range; lia |].
  intros t' th2 Hth Hb2. apply holds_busy in Hb2 as Hex. destruct Hex as (p' & Hh' & Ep).
  destruct (decide (t' = t)) as [-> | Hne]; [simpl in Hth; simplify_eq/=; congruence |].
  by apply (held_apart p t' th2 p').
Qed.

Lemma held_covers p :
  holds l p -> busy l = None -> v_at (cur T) (sequence_v (cell_of p)) = top M (sequence_v (cell_of p)) ->
  covers (cur T) (cell_of p) (plains M (cell_of p)).
Proof.
  intros Hh Hb Hat. destruct (held_at_rest p Hh Hb) as [Hw Hr].
  destruct weak_status as (st & _ & _ & [_ _ Hcl Hsy _ _] & _). cbn [th_view] in *.
  destruct (synced_accesses M (cur T) (cell_of p) (top M (sequence_v (cell_of p))) weak_messages Hsy) as [H1 H2]; [lia | done |].
  pose proof (cl_wr _ _ (thread_closed_cur _ _ Hcl) (cell_of p)). split; [lia |]. intros r Hr'. apply H2. lia.
Qed.

(** A step on the claimed cell. *)
Lemma weak_owns M' th' st p :
  cs !! t = Some st -> holds l p ->
  keeps MaxPayloadSize cap n (latest_mpmc (with_cells w M')) (<[t := plain_point (point th')]> (pcs ts)) (now s) (statuses cs) ->
  messages_ok M' -> extends M M' -> handed M' s -> only_cell M M' (cell_of p) ->
  busy (point th') = Some (cell_of p) \/ at_rest M' (cell_of p) -> thread_ok M' s t th' st ->
  weak_simulated n (with_cells w M') (<[t := th']> ts) s cs.
Proof.
  intros Hst Hh Hsim Hm He Hhand Hon Hb Hok. eapply weak_simulated_stay; [exact Hst |].
  apply weak_moves; try done; cbn [wm_memory with_cells].
  - rewrite (list_insert_id (statuses cs)); [exact Hsim |]. unfold statuses. by rewrite list_lookup_fmap, Hst.
  - apply (mr_fresh _ _ _ related).
  - eapply resting_only; [apply (mr_resting _ _ _ related) | exact here | done | | done].
    intros j Hj. destruct l as [[] | | | |]; simplify_eq/=; destruct Hh; simplify_eq/=; done.
  - intros t' th2 p' Hne Hth Hh'. split; [| done]. apply Hon. by eapply held_apart.
Qed.

Lemma handed_plain x c : handed M s -> handed (set_plain M x c) s.
Proof. done. Qed.

(** The message of a claimed cell is written. *)
Lemma weak_assign_sim pl p w' th' :
  l = AtMpmc (PushAssign pl p) -> (w', th') ∈ weak_mpmc_step w t T (PushAssign pl p) ->
  weak_simulated n w' (<[t := th']> ts) s cs.
Proof.
  intros El Hs. assert (Hh : holds l p) by (subst l; by left). pose proof weak_pc as Hpc.
  destruct weak_status as (st & Hst & Hst' & Hok & HP). rewrite El in HP, Hpc, Hok.
  destruct st as [| [t0 []] | [r | |]]; try done. destruct HP as (Hfit & Hp & -> & _ & c & Hca & Hcs).
  destruct weak_counts as (Hc & _ & _ & _ & _ & Hcnt & Hn). fold (taken (now s)) in Hp. set (i := cell_of p) in *.
  rewrite (latest_phase _ _ Hca) in Hcs. apply phase_free_inv in Hcs as Htop; [| lia | lia]. fold i in Htop.
  destruct Hok as [_ _ Hcl Hsy Hinf [Hat Hsent]]. cbn [th_view point] in *. fold i in Hat.
  destruct (weak_cell_eq p) as [Hi Hlt]. fold i in Hi, Hlt.
  assert (Hb : busy l = None) by (by subst l). assert (Hcov : covers (cur T) i (plains M i)) by (apply held_covers; [done | done | fold i; lia]).
  destruct (held_at_rest p Hh Hb) as [Hw Hr]. fold i in Hw, Hr. rewrite Htop in Hw, Hr.
  rewrite Nat.div2_succ_double in Hw. rewrite Nat.div2_double in Hr.
  pose proof (latest_cells_lookup w i Hlt) as Hlook.
  cbn in Hs. rewrite Hi, decide_True in Hs by done.
  destruct (assign MaxPayloadSize (c_value (plains M i)) pl (p +u 1)) as [r m] eqn:Ea.
  destruct (write M i m T) as [[M' T'] |] eqn:Ew; [| unfold write in Ew; by rewrite covers_knows_all in Ew].
  apply list_elem_of_singleton in Hs as [= -> ->].
  destruct (write_closed _ _ _ _ _ _ (ms_wf _ weak_messages) Hcl Ew) as (He & Hwf & Hcl').
  unfold write in Ew. rewrite covers_knows_all in Ew by done. injection Ew as <- <-. rewrite Hw, Hr in *.
  assert (Hle : view_le (cur T) (see_write (cur T) i (S (round p)))).
  { split; intros x; simpl; [done | | done]. unfold update. case_decide; [subst; destruct Hcov; lia | done]. }
  eapply (weak_owns _ _ _ p); [exact Hst | done | | | done | apply handed_plain, (mr_handed _ _ _ related) | | by left |].
  - eapply (push_assign_sim _ _ _ _ _ _ _ t weak_sim bound pl p); [exact Hpc |]. cbn [mpmc_tstep].
    change (cell_index (latest_mpmc w) p) with (weak_cell w p). rewrite Hi, Hlook. cbn [latest_cell cell_message cell_sequence].
    rewrite Ea, latest_message. by left.
  - apply messages_plain; [simpl; lia | apply weak_messages].
  - intros j Hj. split; [| done]. simpl. by rewrite update_other.
  - split; try done; cbn [th_view point announced plain_point push_claim pop_claim cur] in *.
    + by apply (synced_le M (cur T)).
    + eapply informed_le; [| exact Hinf]. by apply view_join_mono.
    + cbn [point_ok]. fold i. split_and!; [done | done | simpl; by rewrite update_same |].
      unfold accessed. simpl. by rewrite update_same.
Qed.

Lemma store_cell_same q i c : cells_ q !! i = Some c -> store_cell q i c = q.
Proof. intros H. unfold store_cell. rewrite list_insert_id by done. by destruct q. Qed.

(** The message of a claimed cell is read. *)
Lemma weak_copy_sim d p w' th' :
  l = AtMpmc (PopCopy d p) -> (w', th') ∈ weak_mpmc_step w t T (PopCopy d p) ->
  weak_simulated n w' (<[t := th']> ts) s cs.
Proof.
  intros El Hs. assert (Hh : holds l p) by (subst l; by right). pose proof weak_pc as Hpc.
  destruct weak_status as (st & Hst & Hst' & Hok & HP). rewrite El in HP, Hpc, Hok.
  destruct st as [| [t0 []] | [| r0 d0 |]]; try done. destruct HP as (Hp & Hp0 & _ & c & Hca & Hcs & _).
  destruct weak_counts as (Hc & _ & _ & _ & _ & Hcnt & Hn). set (i := cell_of p) in *.
  rewrite (latest_phase _ _ Hca) in Hcs. apply phase_full_inv in Hcs as Htop; [| lia | lia]. fold i in Htop.
  destruct Hok as [_ _ Hcl Hsy Hinf [Hat Hfreed]]. cbn [th_view point] in *. fold i in Hat.
  destruct (weak_cell_eq p) as [Hi Hlt]. fold i in Hi, Hlt.
  assert (Hb : busy l = None) by (by subst l). assert (Hcov : covers (cur T) i (plains M i)) by (apply held_covers; [done | done | fold i; lia]).
  destruct (held_at_rest p Hh Hb) as [Hw Hr]. fold i in Hw, Hr. rewrite Htop in Hw, Hr. rewrite Nat.div2_succ_double in Hr.
  change (Nat.div2 (S (S (2 * round p)))) with (S (Nat.div2 (2 * round p))) in Hw. rewrite Nat.div2_double in Hw.
  pose proof (latest_cells_lookup w i Hlt) as Hlook.
  cbn in Hs. rewrite Hi, decide_True in Hs by done.
  destruct (read M i T) as [[[m M'] T'] |] eqn:Er; [| unfold read in Er; destruct Hcov as [Hcw _]; by rewrite decide_True in Er].
  destruct (copy_to m d) as [r d'] eqn:Ec. apply list_elem_of_singleton in Hs as [= -> ->].
  destruct (read_closed _ _ _ _ _ _ (ms_wf _ weak_messages) Hcl Er) as (He & Hwf & Hcl').
  unfold read in Er. rewrite decide_True in Er by apply Hcov. injection Er as <- <- <-. rewrite Hw, Hr in *.
  eapply (weak_owns _ _ _ p); [exact Hst | done | | | done | apply handed_plain, (mr_handed _ _ _ related) | | by left |].
  - eapply (pop_copy_sim _ _ _ _ _ _ _ t weak_sim bound d p); [exact Hpc |]. cbn [mpmc_tstep].
    change (cell_index (latest_mpmc w) p) with (weak_cell w p). rewrite Hi, Hlook. cbn [latest_cell cell_message].
    rewrite Ec, latest_message. rewrite store_cell_same by exact Hlook. by left.
  - apply messages_plain; [simpl; lia | apply weak_messages].
  - intros j Hj. split; [| done]. simpl. by rewrite update_other.
  - split; try done; cbn [th_view point announced plain_point push_claim pop_claim cur] in *.
    + apply (synced_le M (cur T)); [apply view_le_see_read | done | done].
    + eapply informed_le; [| exact Hinf]. apply view_join_mono; [apply view_le_see_read | done].
    + cbn [point_ok]. fold i. split_and!; [done | done | simpl; rewrite update_same; set_solver |].
      unfold accessed. simpl. by rewrite update_same.
Qed.

(** *** Letting go of a cell *)

(** The message that ends a push or a pop hands on what the operation knew. *)
Lemma handed_append p m :
  let k := top M (sequence_v (cell_of p)) in
  0 <= p ->
  (k = (2 * round p)%nat /\ informed (sent s p) (m_view m)) \/ (k = S (2 * round p) /\ informed (freed s p) (m_view m)) ->
  handed (append M (sequence_v (cell_of p)) m) s.
Proof.
  intros k Hp Hk p' m' Hp'. destruct weak_counts as (Hc & _). destruct (mr_handed _ _ _ related p' m' Hp') as [H1 H2].
  cbn [append hist]. unfold update. case_decide as E; [| done]. injection E as E.
  assert (Hlen : length (hist M (sequence_v (cell_of p))) = S k) by apply top_length, (ms_wf _ weak_messages).
  assert (Heq : round p' = round p -> p' = p).
  { intros Er. rewrite <- (phase_free p'), <- (phase_free p), E, Er by lia. done. }
  rewrite E in H1, H2. cbn [wm_memory shared] in H1, H2.
  split; intros Hm; (apply lookup_snoc_inv in Hm as [Hm | [Hm ->]]; [by auto |]); rewrite Hlen in Hm.
  - destruct Hk as [[Ek Hi] | [Ek Hi]]; [| lia]. rewrite Heq by lia. done.
  - destruct Hk as [[Ek Hi] | [Ek Hi]]; [lia |]. rewrite Heq by lia. done.
Qed.

Lemma append_only_cell i m : only_cell M (append M (sequence_v i) m) i.
Proof. intros j Hj. split; [done |]. apply append_other. congruence. Qed.

Lemma div2_double_plus r : Nat.div2 (S (S (2 * r))) = S r /\ Nat.div2 (S (S (S (2 * r)))) = S r.
Proof. split; cbn [Nat.div2]; f_equal; [apply Nat.div2_double | apply Nat.div2_succ_double]. Qed.

Lemma weak_publish_sim r p w' th' :
  l = AtMpmc (PushPublish r p) -> (w', th') ∈ weak_mpmc_step w t T (PushPublish r p) ->
  weak_simulated n w' (<[t := th']> ts) s cs.
Proof.
  intros El Hs. assert (Hh : holds l p) by (subst l; by left). pose proof weak_pc as Hpc.
  destruct weak_status as (st & Hst & Hst' & Hok & HP). rewrite El in HP, Hpc, Hok.
  destruct st as [| [t0 []] | [r0 | |]]; try done. destruct HP as (Hp & <- & _ & c & Hca & Hcs & _).
  destruct weak_counts as (Hc & _ & _ & _ & _ & Hcnt & Hn). fold (taken (now s)) in Hp. set (i := cell_of p) in *.
  rewrite (latest_phase _ _ Hca) in Hcs. apply phase_free_inv in Hcs as Htop; [| lia | lia]. fold i in Htop.
  destruct Hok as [_ _ Hcl Hsy Hinf (Hat & Hsent & Hvw & Hw & Hr)]. cbn [th_view point] in *. fold i in Hat, Hvw, Hw, Hr.
  destruct (weak_cell_eq p) as [Hi Hlt]. fold i in Hi, Hlt. pose proof (latest_cells_lookup w i Hlt) as Hlook.
  destruct (div2_double_plus (round p)) as [D1 D2].
  destruct (synced_accesses M (cur T) i (top M (sequence_v i)) weak_messages Hsy) as [_ Hrd]; [lia | done |].
  destruct (messages_store M i (p + 1) T weak_messages Hcl Hsy) as (T' & m & Est & Hmv & Hmw & Hcur & Hm' & Hcl' & Hsy').
  { by rewrite Htop. }
  { rewrite Htop. unfold i. rewrite phase_full by lia. done. }
  { rewrite Htop, D1. lia. }
  { intros x Hx. apply Hrd. rewrite Htop in Hx |- *. rewrite Nat.div2_double. by rewrite Nat.div2_succ_double in Hx. }
  cbn in Hs. unfold store_sequence in Hs. rewrite Hi, decide_True, u64_small, Est in Hs by (done || lia).
  apply list_elem_of_singleton in Hs as [= -> ->]. rewrite Htop in Hcur. cbn [announced point plain_point push_claim th_view] in Hinf. fold i in Hinf. rewrite <- Hcur in Hinf.
  eapply (weak_owns _ _ _ p); [exact Hst | done | | done | apply append_extends | | apply append_only_cell | right |].
  - eapply (push_publish_sim _ _ _ _ _ _ _ t weak_sim bound r p); [exact Hpc |]. cbn [mpmc_tstep].
    change (cell_index (latest_mpmc w) p) with (weak_cell w p). rewrite Hi, Hlook, u64_small by lia. rewrite latest_sequence, Hmv. by left.
  - apply handed_append; [lia |]. left. fold i. split; [done |]. by rewrite Hmw, Hsent.
  - unfold at_rest, accessed. fold i. rewrite append_top by apply (ms_wf _ weak_messages). rewrite Htop, D1, Nat.div2_succ_double. done.
  - split; done.
Qed.

Lemma weak_release_sim r d p w' th' :
  l = AtMpmc (PopRelease r d p) -> (w', th') ∈ weak_mpmc_step w t T (PopRelease r d p) ->
  weak_simulated n w' (<[t := th']> ts) s cs.
Proof.
  intros El Hs. assert (Hh : holds l p) by (subst l; by right). pose proof weak_pc as Hpc.
  destruct weak_status as (st & Hst & Hst' & Hok & HP). rewrite El in HP, Hpc, Hok.
  destruct st as [| [t0 []] | [| r0 d0 |]]; try done. destruct HP as (<- & <- & Hp & Hp0 & _ & c & Hca & Hcs).
  destruct weak_counts as (Hc & Hwc & _ & _ & _ & Hcnt & Hn). fold (taken (now s)) in Hp. set (i := cell_of p) in *.
  rewrite (latest_phase _ _ Hca) in Hcs. apply phase_full_inv in Hcs as Htop; [| lia | lia]. fold i in Htop.
  destruct Hok as [_ _ Hcl Hsy Hinf (Hat & Hfreed & Hvr & Hw & Hr)]. cbn [th_view point] in *. fold i in Hat, Hvr, Hw, Hr.
  destruct (weak_cell_eq p) as [Hi Hlt]. fold i in Hi, Hlt. pose proof (latest_cells_lookup w i Hlt) as Hlook.
  destruct (div2_double_plus (round p)) as [D1 D2].
  destruct (synced_accesses M (cur T) i (top M (sequence_v i)) weak_messages Hsy) as [Hwr Hrd]; [lia | done |].
  rewrite Htop, D1 in Hwr. rewrite Htop, Nat.div2_succ_double in Hrd.
  destruct (messages_store M i (p + cap) T weak_messages Hcl Hsy) as (T' & m & Est & Hmv & Hmw & Hcur & Hm' & Hcl' & Hsy').
  { by rewrite Htop. }
  { rewrite Htop. unfold i. rewrite phase_next by lia. done. }
  { by rewrite Htop, D2. }
  { intros x Hx. rewrite Htop, D1 in Hx. destruct (decide (x = round p)) as [-> |]; [done |]. apply Hrd. lia. }
  cbn in Hs. unfold store_sequence in Hs. rewrite Hi, decide_True, Hwc, u64_small, Est in Hs by (done || lia).
  apply list_elem_of_singleton in Hs as [= -> ->]. rewrite Htop in Hcur. cbn [announced point plain_point push_claim pop_claim th_view] in Hinf. fold i in Hinf. rewrite <- Hcur in Hinf.
  eapply (weak_owns _ _ _ p); [exact Hst | done | | done | apply append_extends | | apply append_only_cell | right |].
  - eapply (pop_release_sim _ _ _ _ _ _ _ t weak_sim bound r d p); [exact Hpc |]. cbn [mpmc_tstep].
    change (cell_index (latest_mpmc w) p) with (weak_cell w p). change (capacity_ (latest_mpmc w)) with (wm_capacity w).
    rewrite Hi, Hlook, Hwc, u64_small by lia. rewrite latest_sequence, Hmv. by left.
  - apply handed_append; [lia |]. right. fold i. split; [done |]. by rewrite Hmw, Hfreed.
  - unfold at_rest, accessed. fold i. rewrite append_top by apply (ms_wf _ weak_messages). rewrite Htop, D1, D2. done.
  - split; done.
Qed.

End weak_step.

(** *** Every step *)

Lemma weak_claim_next_inv t w x p T done retry w' th' :
  (w', th') ∈ claim_next t w x p T done retry ->
  (exists M' T', exchange (wm_memory w) x p (p +u 1) T = Some (M', T') /\ w' = with_cells w M' /\ th' = mkThread t T' (AtMpmc done)) \/
  (exists v T', (v, T') ∈ load (wm_memory w) relaxed x T /\ w' = w /\ th' = mkThread t T' (AtMpmc (retry v))).
Proof.
  intros Hs. unfold claim_next in Hs. apply elem_of_app in Hs as [Hs | Hs].
  - destruct (exchange _ _ _ _ _) as [[M' T'] |]; [| by apply not_elem_of_nil in Hs].
    apply list_elem_of_singleton in Hs as [= -> ->]. left. by exists M', T'.
  - right. apply list_elem_of_fmap in Hs as ([v T'] & [= -> ->] & Hv). by exists v, T'.
Qed.

Lemma weak_mpmc_tau_sim n w ts s cs t th w' th' :
  mpmc_weak_rel n (mkPool w ts) (mkPool s cs) -> Z.of_nat (S n) + cap < u64_modulus ->
  ts !! t = Some th -> (w', th') ∈ weak_mpmc_tstep w th -> weak_simulated n w' (<[t := th']> ts) s cs.
Proof.
  intros Hrel Hb Hth Hs. destruct th as [t0 T l].
  assert (t0 = t) as ->.
  { destruct (threads_related_lookup _ _ _ _ _ (mr_threads _ _ _ Hrel) Hth) as (st & _ & Hok). apply (ok_self _ _ _ _ _ Hok). }
  destruct (weak_status n w ts s cs t T l Hrel Hth) as (st & Hst & _ & Hok & HP). pose proof (ok_caller _ _ _ _ _ Hok) as Hcall.
  destruct l as [x | | p | |].
  2, 3: eapply weak_observer_sim; [done | done | done | eauto | done].
  2, 3: by apply not_elem_of_nil in Hs.
  cbn [weak_mpmc_tstep point self th_view] in Hs.
  destruct x; try (by apply not_elem_of_nil in Hs); cbn [plain_point] in HP.
  - destruct st as [| [? [pl | |]] | []]; try done. simpl in HP, Hcall. subst. cbn in Hs. case_tests_in Hs.
    + apply list_elem_of_singleton in Hs as [= -> ->].
      apply (weak_simulated_lin _ _ _ _ _ _ _ (Pushed (mkWrite message_too_large 0)) s Hst); [by apply causal_too_large |].
      destruct Hok. by eapply weak_looks.
    + apply load_then_inv in Hs as (v & T' & Hv & -> & ->). by eapply weak_push_position.
  - by eapply weak_push_cell_sim.
  - destruct st as [| [? [pl | |]] | []]; try done. simpl in HP, Hcall. destruct HP as (<- & Hfit & _). subst.
    apply weak_claim_next_inv in Hs as [(M' & T' & Hx & -> & ->) | (v & T' & Hv & -> & ->)];
      [by eapply weak_claim_push | by eapply weak_push_position].
  - destruct st as [| [? [pl | |]] | []]; try done. simpl in HP, Hcall. destruct HP as (<- & Hfit). subst.
    apply load_then_inv in Hs as (v & T' & Hv & -> & ->). by eapply weak_push_position.
  - by eapply weak_assign_sim.
  - by eapply weak_publish_sim.
  - destruct st as [| [? [| d |]] | []]; try done. simpl in HP, Hcall. subst.
    apply load_then_inv in Hs as (v & T' & Hv & -> & ->). by eapply weak_pop_position.
  - by eapply weak_pop_cell_sim.
  - destruct st as [| [? [| d |]] | []]; try done. simpl in HP, Hcall. destruct HP as (<- & _). subst.
    apply weak_claim_next_inv in Hs as [(M' & T' & Hx & -> & ->) | (v & T' & Hv & -> & ->)];
      [by eapply weak_claim_pop | by eapply weak_pop_position].
  - destruct st as [| [? [| d |]] | []]; try done. simpl in HP, Hcall. subst.
    apply load_then_inv in Hs as (v & T' & Hv & -> & ->). by eapply weak_pop_position.
  - by eapply weak_copy_sim.
  - by eapply weak_release_sim.
Qed.

(** Calls and returns change no view. *)
Lemma weak_relabels n w ts s cs t T l l' st' :
  mpmc_weak_rel n (mkPool w ts) (mkPool s cs) -> ts !! t = Some (mkThread t T l) -> unclaimed l -> unclaimed l' ->
  match st' with Called (t', _) => t' = t | _ => True end ->
  mpmc_rel MaxPayloadSize cap (latest_mpmc w) (now s) (plain_point l') (plain_status st') ->
  point_ok (wm_memory w) s t (cur T) l' st' ->
  mpmc_weak_rel (S n) (mkPool w (<[t := mkThread t T l']> ts)) (mkPool s (<[t := st']> cs)).
Proof.
  intros Hrel Hth Hl Hl' Hcall HP Hpt. destruct (weak_status n w ts s cs t T l Hrel Hth) as (st & _ & _ & [] & _).
  by eapply weak_looks.
Qed.

Lemma weak_mpmc_simulates n p lab p' c :
  Z.of_nat (S n) + cap < u64_modulus -> mpmc_weak_rel n p c -> pool_step p lab p' ->
  exists c', match_step (canon_step (strict (causal_spec MaxPayloadSize cap))) c lab c' /\ mpmc_weak_rel (S n) p' c'.
Proof.
  intros Hb Hrel Hs. destruct c as [s cs].
  destruct Hs as [w ts t th o th' Hth Hcall | w ts t th w' th' Hth Hstep | w ts t th r th' Hth Hret].
  - destruct th as [t0 T l]. destruct (threads_related_lookup _ _ _ _ _ (mr_threads _ _ _ Hrel) Hth) as (st & Hst & [Hself _ _ _ _ Hpt]).
    simpl in Hself. subst t0. cbn in Hcall, Hpt. unfold weak_mpmc_call in Hcall. cbn [point self th_view] in Hcall.
    destruct l as [[] | | | |]; try done. simpl in Hpt. subst st. destruct o as [t0 o]. simpl in Hcall. case_decide; [subst t0 | done].
    assert (exists l', th' = mkThread t T l' /\ unclaimed l' /\
      mpmc_rel MaxPayloadSize cap (latest_mpmc w) (now s) (plain_point l') (plain_status (Called (t, o))) /\
      point_ok (wm_memory w) s t (cur T) l' (Called (t, o))) as (l' & -> & Hl' & HP & Hpt').
    { destruct o as [| | []]; simplify_eq; eexists; (split; [reflexivity | done]). }
    eexists. split; [by eapply match_one, canon_call |]. by eapply weak_relabels.
  - by eapply weak_mpmc_tau_sim.
  - destruct th as [t0 T l]. destruct (threads_related_lookup _ _ _ _ _ (mr_threads _ _ _ Hrel) Hth) as (st & Hst & Hok).
    pose proof (ok_self _ _ _ _ _ Hok) as Hself. simpl in Hself. subst t0.
    destruct (weak_status n w ts s cs t T l Hrel Hth) as (st' & Hst' & _ & Hok' & HP). simpl in Hst. simplify_eq.
    assert (st = Finished r /\ th' = mkThread t T (AtMpmc MIdle) /\ unclaimed l) as (-> & -> & Hl).
    { pose proof (ok_point _ _ _ _ _ Hok) as Hpt. unfold ret in Hret. simpl in Hret. unfold weak_mpmc_ret in Hret. cbn [point self th_view] in Hret, Hpt.
      destruct l as [[] | | | |]; simplify_eq/=; destruct st as [| [? []] | []]; try done; simpl in HP; destruct_and?; by simplify_eq. }
    eexists. split; [by eapply match_one, canon_ret |]. by eapply weak_relabels.
Qed.


(** ** Construction *)

Lemma weak_mpmc_init_rel q k :
  0 <= MaxPayloadSize -> 0 <= cap < u64_modulus -> MPMCQueue_new MaxPayloadSize cap = inr q ->
  mpmc_weak_rel 0 (weak_mpmc_init q k) (mkPool causal_empty (replicate k Idle)).
Proof.
  intros HM Hc Hnew. pose proof (mpmc_init_sim MaxPayloadSize cap q k HM Hc Hnew) as Hsim.
  assert (Hq : enqueue_pos_ q = 0 /\ dequeue_pos_ q = 0 /\
    forall i, (i < Z.to_nat cap)%nat -> cell_sequence <$> cells_ q !! i = Some (Z.of_nat i)).
  { unfold MPMCQueue_new in Hnew. destruct (validate_capacity cap) as [e | c] eqn:Hv; [done |].
    apply validate_capacity_inv in Hv as [-> _]; [| done]. unfold returns in Hnew. injection Hnew as <-. simpl.
    split_and!; [done | done |]. intros i Hi. by rewrite list_lookup_imap, lookup_replicate_2. }
  destruct Hq as (Hq1 & Hq2 & Hq3). set (M0 := wm_memory (weak_mpmc_new q)).
  assert (Hone : forall x j m, hist M0 x !! j = Some m -> j = 0%nat /\ m_view m = view_zero).
  { intros x j m Hj. by apply list_lookup_singleton_Some in Hj as [-> <-]. }
  assert (Hz : closed view_zero M0) by (split; [intros x; simpl; lia | done]).
  assert (Hsync : synced M0 view_zero) by (intros i j m Hj _; destruct (Hone _ _ _ Hj) as [_ ->]; reflexivity).
  split; cbn [shared threads weak_mpmc_init].
  - rewrite latest_mpmc_new. unfold pcs, statuses. rewrite fmap_replicate. unfold weak_mpmc_init, mpmc_init in *.
    replace ((fun th => plain_point (point th)) <$> ((fun t => mkThread t new_thread (AtMpmc MIdle)) <$> seq 0 k))
      with (replicate k MIdle); [done |]. apply replicate_as_elem_of. split; [by rewrite !length_fmap, length_seq |].
    by intros x (th & -> & (t & -> & _)%list_elem_of_fmap)%list_elem_of_fmap.
  - split.
    + split; [done |]. intros x j m Hj. by destruct (Hone _ _ _ Hj) as [_ ->].
    + intros j m Hj. destruct (Hone _ _ _ Hj) as [-> _]. injection Hj as <-. done.
    + intros j m Hj. destruct (Hone _ _ _ Hj) as [-> _]. injection Hj as <-. done.
    + intros i j m Hi Hj. destruct (Hone _ _ _ Hj) as [-> _]. injection Hj as <-. simpl. by rewrite Hq3.
    + intros i j m Hj. destruct (Hone _ _ _ Hj) as [-> ->]. by split; [simpl; lia |].
    + intros i j m Hj. destruct (Hone _ _ _ Hj) as [-> ->]. split; [simpl; lia |]. simpl. lia.
  - intros p m _. split; intros Hj; by destruct (Hone _ _ _ Hj).
  - done.
  - done.
  - split; [by rewrite length_fmap, length_seq, length_replicate |]. intros t x y Hx Hy.
    apply lookup_replicate in Hy as [-> _]. rewrite list_lookup_fmap in Hx. apply fmap_Some in Hx as (t' & Ht & ->).
    apply lookup_seq in Ht as [-> _]. split; try done.
Qed.

Lemma weak_mpmc_exec_sim q k n h p :
  0 <= MaxPayloadSize -> 0 <= cap < u64_modulus -> MPMCQueue_new MaxPayloadSize cap = inr q ->
  Z.of_nat n + cap < u64_modulus -> exec pool_step n (weak_mpmc_init q k) h p ->
  exists m c, exec (canon_step (strict (causal_spec MaxPayloadSize cap))) m (mkPool causal_empty (replicate k Idle)) h c /\
    mpmc_weak_rel n p c.
Proof.
  intros HM Hc Hnew Hb Hex.
  eapply (simulation_exec pool_step (canon_step (strict (causal_spec MaxPayloadSize cap))) mpmc_weak_rel
            (fun n => Z.of_nat n + cap < u64_modulus)); [lia | | exact Hb | | exact Hex].
  - intros i p1 lab p2 c. apply weak_mpmc_simulates.
  - by apply weak_mpmc_init_rel.
Qed.

End invariant.

End MPMCWeak.

#[export] Existing Instance mpmc_weak_object.

(** C3: [MPMCQueue] with the memory orders of the header: whatever messages the loads
    return and whichever exchanges fail, every history of any number of threads is a
    history of the FIFO executed atomically: each message is delivered once, in order and
    unmodified.  [full] and [empty] may be answered without an operation of another
    thread only if that operation did not happen before: a thread knows its own
    operations, a pop knows what the push of its message knew, and a push what the pop
    knew that freed its cell. *)
Theorem mpmc_weak_linearizable MaxPayloadSize cap q k n h p :
  0 <= MaxPayloadSize -> 0 <= cap < u64_modulus -> MPMCQueue_new MaxPayloadSize cap = inr q ->
  Z.of_nat n + cap < u64_modulus ->
  exec (pool_step (ConcurrentObject0 := mpmc_weak_object MaxPayloadSize)) n (weak_mpmc_init q k) h p ->
  linearizable (strict (causal_spec MaxPayloadSize cap)) causal_empty k h.
Proof.
  intros HM Hc Hnew Hb Hex.
  destruct (weak_mpmc_exec_sim MaxPayloadSize cap q k n h p) as (m & c & Hc' & _); try done. by exists m, c.
Qed.

(** C10: In no execution with the memory orders of the header is an access to a message a
    data race, a sequence stored by a thread that has not seen the newest one, or a
    subscript outside the ring: the acquire load and the release store of the sequences
    order every write and every read of a message, although the positions are only
    exchanged relaxed. *)
Theorem mpmc_weak_race_free MaxPayloadSize cap q k n h p :
  0 <= MaxPayloadSize -> 0 <= cap < u64_modulus -> MPMCQueue_new MaxPayloadSize cap = inr q ->
  Z.of_nat n + cap < u64_modulus ->
  exec (pool_step (ConcurrentObject0 := mpmc_weak_object MaxPayloadSize)) n (weak_mpmc_init q k) h p ->
  forall th, th ∈ threads p -> point th <> Raced /\ point th <> AtMpmc OutOfBounds.
Proof.
  intros HM Hc Hnew Hb Hex.
  destruct (weak_mpmc_exec_sim MaxPayloadSize cap q k n h p) as (m & c & _ & Hrel); try done.
  intros th [t Ht]%list_elem_of_lookup. pose proof (mpmc_sim_inside _ _ _ _ _ t (mr_sim _ _ _ _ _ Hrel)) as Hin. simpl in Hin.
  unfold pcs in Hin. rewrite list_lookup_fmap, Ht in Hin. simpl in Hin.
  split; intros E; rewrite E in Hin; by apply Hin.
Qed.

(** Thread 1 takes the oldest message; thread 0 still reads the old sequence of the
    cell, and thread 1 does not see the second message. *)
Definition late_mpmc_history : list (nat * (nat * QueueOp) * QueueRes) :=
  [(0%nat, (0%nat, TryPush [Byte.x0a]), Pushed (mkWrite success 1));
   (0%nat, (0%nat, TryPush [Byte.x0b]), Pushed (mkWrite success 2));
   (1%nat, (1%nat, TryPop [Byte.x00]), Popped (mkRead success 1 1) [Byte.x0a]);
   (0%nat, (0%nat, TryPush [Byte.x0c]), Pushed (mkWrite full 0));
   (1%nat, (1%nat, Observe is_empty_), Observed true);
   (0%nat, (0%nat, TryPush [Byte.x0c]), Pushed (mkWrite success 3));
   (1%nat, (1%nat, TryPop [Byte.x00]), Popped (mkRead success 1 2) [Byte.x0b])].

Definition late_mpmc_schedule : list (choice (nat * QueueOp)) :=
  let run (t : nat) o (cell : nat) := [DoCall t (t, o); DoStep t 0; DoStep t cell; DoStep t 0; DoStep t 0; DoStep t 0; DoRet t] in
  run 0%nat (TryPush [Byte.x0a]) 0%nat ++ run 0%nat (TryPush [Byte.x0b]) 0%nat ++ run 1%nat (TryPop [Byte.x00]) 1%nat ++
  [DoCall 0 (0%nat, TryPush [Byte.x0c]); DoStep 0 0; DoStep 0 0; DoRet 0;
   DoCall 1 (1%nat, Observe is_empty_); DoStep 1 0; DoStep 1 0; DoRet 1] ++
  run 0%nat (TryPush [Byte.x0c]) 1%nat ++ run 1%nat (TryPop [Byte.x00]) 1%nat.

Lemma late_mpmc_execution :
  exists p, exec (pool_step (ConcurrentObject0 := mpmc_weak_object 2)) (length late_mpmc_schedule)
    (weak_mpmc_init small_mpmc 2) (one_by_one late_mpmc_history) p.
Proof.
  assert (Hrun : fst <$> run_schedule (ConcurrentObject0 := mpmc_weak_object 2)
    (weak_mpmc_init small_mpmc 2) late_mpmc_schedule = Some (one_by_one late_mpmc_history)).
  { vm_compute. reflexivity. }
  apply fmap_Some in Hrun as ([tr p] & Hrun & ->). exists p. by apply run_schedule_exec.
Qed.

Lemma mpmc_weak_linearizable_witness :
  linearizable (strict (causal_spec 2 2)) causal_empty 2 (one_by_one late_mpmc_history).
Proof.
  destruct late_mpmc_execution as [p Hex].
  eapply (mpmc_weak_linearizable 2 2 small_mpmc); [lia | done | done | | exact Hex]. vm_compute. reflexivity.
Defined.

Lemma mpmc_weak_race_free_witness :
  exists p, exec (pool_step (ConcurrentObject0 := mpmc_weak_object 2)) (length late_mpmc_schedule)
    (weak_mpmc_init small_mpmc 2) (one_by_one late_mpmc_history) p /\
    forall th, th ∈ threads p -> point th <> Raced /\ point th <> AtMpmc OutOfBounds.
Proof.
  destruct late_mpmc_execution as [p Hex]. exists p. split; [exact Hex |].
  eapply (mpmc_weak_race_free 2 2 small_mpmc); [lia | done | done | | exact Hex]. vm_compute. reflexivity.
Defined.
