(* ===== verification/VersionedWeak.v ===== *)
(** * [VersionedSPMCQueue] with its memory orders and fences

    The code of [include/orbitqueue/versioned_spmc_queue.h] over the release/acquire
    memory of [ReleaseAcquire.v]: the published count, the versions and every member
    of a cell are atomics with the memory orders the header gives them, and the two
    release fences of [try_publish] and the acquire fence of [read] are where the
    header has them.  A relaxed load may return an old value or one of a publication
    that is still being written, byte by byte.  Any capacity, payload size, number of
    readers and number of calls below [2^64].

    The program points are those of [VersionedConcurrent.v].  Theorems: every
    execution is linearizable to the multicast contract in which a thread uses a
    prefix of the log that may be late but never gets shorter ([late_spec]); so a
    delivered message is never torn, and a reader is told [overwritten] only when a
    later publication into its cell has started. *)

From stdpp Require Import gmap.
From S2P Require Import Prelude Result FixedMessage Concurrency MulticastContract VersionedSPMCQueue.
From S2P Require Import VersionedConcurrent Views ReleaseAcquire.

(** ** The contract *)

(** The log, and how many publications each thread has seen. *)
Record late_log : Type := mkLate {
  published_log : log;
  seen_by : nat -> Z;
}.

Definition late_empty : late_log := mkLate [] (fun _ => 0).

Section contract.

Context (MaxPayloadSize cap : Z).

(** What a thread sees that knows of [k] publications. *)
Definition known_log (s : late_log) (k : Z) : log := take (Z.to_nat k) (published_log s).

Definition late_pending (cs : list (status (nat * McOp) McRes)) : Prop :=
  exists t t' payload, cs !! t = Some (Called (t', McPublish payload)) /\ span_size payload <= MaxPayloadSize.

(** Calls carry the thread that makes them. *)
Inductive late_spec (cs : list (status (nat * McOp) McRes)) : late_log -> nat * McOp -> McRes -> late_log -> Prop :=
| late_publish s t payload r l' :
    mc_publish MaxPayloadSize (published_log s) payload = (r, l') ->
    late_spec cs s (t, McPublish payload) (McWritten r) (mkLate l' (update (seen_by s) t (span_size l')))
| late_query s t o r k :
    seen_by s t <= k <= span_size (published_log s) -> (forall payload, o <> McPublish payload) ->
    mc_spec MaxPayloadSize cap false [] (known_log s k) o r (known_log s k) ->
    late_spec cs s (t, o) r (mkLate (published_log s) (update (seen_by s) t k))
| late_lost s t c d r c' d' k :
    seen_by s t <= k <= span_size (published_log s) -> queue_ c = true -> 1 <= next_sequence_ c <= k ->
    (** the message has been overwritten, or is being overwritten now *)
    next_sequence_ c + cap <= span_size (published_log s) \/
      (next_sequence_ c + cap = span_size (published_log s) + 1 /\ late_pending cs) ->
    mc_lost cap (known_log s k) c d = (r, c', d') ->
    late_spec cs s (t, McRead c d) (McReadDone r c' d') (mkLate (published_log s) (update (seen_by s) t k)).

End contract.

(** ** The queue in memory *)

(** The members of a cell that the version guards. *)
Inductive field : Type := f_sequence | f_size | f_byte (i : nat).

Inductive vatomic : Type := published_v | version_v (cell : nat) | data_v (cell : nat) (f : field).

#[export] Instance field_eq_dec : EqDecision field.
Proof. solve_decision. Defined.

#[export] Instance vatomic_eq_dec : EqDecision vatomic.
Proof. solve_decision. Defined.

(** Values: [std::uint64_t] and [std::size_t], or [std::byte]. *)
Inductive atom : Type := word (v : Z) | octet (b : byte).

Definition as_word (a : atom) : Z := match a with word v => v | octet _ => 0 end.
Definition as_octet (a : atom) : byte := match a with octet b => b | word _ => Byte.x00 end.

(** There is no plain shared memory. *)
Abbreviation vmemory := (memory vatomic Empty_set atom Empty_set).
Abbreviation vview := (thread_view vatomic Empty_set).

Record weak_versioned : Type := mkWeakV {
  wv_capacity : Z;
  wv_cells : nat;      (** cells allocated *)
  wv_produced : Z;     (** [produced_], which only the producer touches *)
  wv_memory : vmemory;
}.

Inductive weak_vpc : Type :=
| AtV (l : versioned_pc)
| Fault.     (** a store that the memory has no meaning for *)

Record weak_vthread : Type := mkVThread {
  vt_id : nat;
  vt_producer : bool;
  vt_view : vview;
  vt_pc : weak_vpc;
}.

Definition wv_with_memory (w : weak_versioned) (M : vmemory) : weak_versioned :=
  mkWeakV (wv_capacity w) (wv_cells w) (wv_produced w) M.

Definition wv_with_produced (w : weak_versioned) (v : Z) : weak_versioned :=
  mkWeakV (wv_capacity w) (wv_cells w) v (wv_memory w).

(** The members of a constructed queue, before the threads start. *)
Definition initial_atom (q : VersionedSPMCQueue) (l : vatomic) : atom :=
  match l with
  | published_v => word (published_ q)
  | version_v j => word (from_option version 0 (cells_ q !! j))
  | data_v j f_sequence => word (from_option c_sequence 0 (cells_ q !! j))
  | data_v j f_size => word (from_option c_size 0 (cells_ q !! j))
  | data_v j (f_byte i) => octet (default Byte.x00 (cell ← cells_ q !! j; storage cell !! i))
  end.

Definition weak_versioned_new (q : VersionedSPMCQueue) : weak_versioned :=
  mkWeakV (capacity_ q) (length (cells_ q)) (produced_ q)
    (mkMemory (fun l => [Views.mkMessage (initial_atom q l) view_zero]) (fun x : Empty_set => match x with end)).

(** One publishing thread and [k] others. *)
Definition weak_versioned_init (q : VersionedSPMCQueue) (k : nat) : pool weak_versioned weak_vthread :=
  mkPool (weak_versioned_new q)
    (mkVThread 0 true new_thread (AtV VIdle) ::
     ((fun t => mkVThread t false new_thread (AtV VIdle)) <$> seq 1 k)).

Section VersionedWeak.

Context (MaxPayloadSize : Z).

Definition wv_index (w : weak_versioned) (sequence : Z) : nat := slot_of ((sequence -u 1) mod wv_capacity w).

Definition wv_oldest (w : weak_versioned) (published : Z) : Z :=
  if wv_capacity w <=? published then (published -u wv_capacity w) +u 1 else 1.

Abbreviation outcomes := (list (weak_versioned * (vview * weak_vpc))).

Definition vloading (w : weak_versioned) (o : memory_order) (l : vatomic) (T : vview) (k : atom -> versioned_pc)
    : outcomes :=
  (fun vT : atom * vview => (w, (vT.2, AtV (k vT.1)))) <$> load (wv_memory w) o l T.

Definition vstoring (w : weak_versioned) (o : memory_order) (l : vatomic) (v : atom) (T : vview) (next : versioned_pc)
    : outcomes :=
  match store (wv_memory w) o l v T with
  | Some (M, T') => [(wv_with_memory w M, (T', AtV next))]
  | None => [(w, (T, Fault))]
  end.

(** An access to the cell of [sequence]. *)
Definition in_cell (w : weak_versioned) (sequence : Z) (T : vview) (f : nat -> outcomes) : outcomes :=
  if decide (wv_index w sequence < wv_cells w)%nat then f (wv_index w sequence) else [(w, (T, AtV VOutOfBounds))].

(** [std::atomic_thread_fence] right after the step. *)
Definition fenced (fence : vview -> vview) (os : outcomes) : outcomes :=
  (fun x : weak_versioned * (vview * weak_vpc) => (x.1, (fence x.2.1, x.2.2))) <$> os.

Definition weak_publish_step (w : weak_versioned) (T : vview) (l : versioned_pc) : outcomes :=
  match l with
  | VPublishStart payload =>
      if MaxPayloadSize <? span_size payload
      then [(w, (T, AtV (VDone (McWritten (mkWrite message_too_large 0)))))]
      else [(w, (T, AtV (VLoadVersion payload (wv_produced w +u 1))))]
  | VLoadVersion payload sequence =>
      in_cell w sequence T (fun j =>
        vloading w relaxed (version_v j) T (fun a => VStoreOdd payload sequence (as_word a)))
  | VStoreOdd payload sequence ver =>
      in_cell w sequence T (fun j =>
        fenced fence_release (vstoring w relaxed (version_v j) (word (ver +u 1)) T (VStoreSequence payload sequence ver)))
  | VStoreSequence payload sequence ver =>
      in_cell w sequence T (fun j =>
        vstoring w relaxed (data_v j f_sequence) (word sequence) T (VStoreSize payload sequence ver))
  | VStoreSize payload sequence ver =>
      in_cell w sequence T (fun j =>
        vstoring w relaxed (data_v j f_size) (word (span_size payload)) T (VStoreByte payload sequence ver 0))
  | VStoreByte payload sequence ver index =>
      match payload !! index with
      | None => fenced fence_release [(w, (T, AtV (VStoreEven payload sequence ver)))]
      | Some b =>
          in_cell w sequence T (fun j =>
            if Z.of_nat index <? MaxPayloadSize
            then vstoring w relaxed (data_v j (f_byte index)) (octet b) T (VStoreByte payload sequence ver (S index))
            else [(w, (T, AtV VOutOfBounds))])
      end
  | VStoreEven payload sequence ver =>
      in_cell w sequence T (fun j =>
        vstoring w release (version_v j) (word (ver +u 2)) T (VStoreProduced payload sequence))
  | VStoreProduced payload sequence =>
      [(wv_with_produced w sequence, (T, AtV (VStorePublished payload sequence)))]
  | VStorePublished payload sequence =>
      vstoring w release published_v (word sequence) T (VDone (McWritten (mkWrite success sequence)))
  | _ => []
  end.

Definition weak_read_step (w : weak_versioned) (T : vview) (l : versioned_pc) : outcomes :=
  match l with
  | VReadStart c d =>
      if negb (queue_ c)
      then [(w, (T, AtV (VDone (McReadDone (mkRead invalid_consumer 0 (next_sequence_ c)) c d))))]
      else [(w, (T, AtV (VLoadPublished c d)))]
  | VLoadPublished c d =>
      vloading w acquire published_v T (fun a =>
        let published := as_word a in
        if published <? next_sequence_ c
        then VDone (McReadDone (mkRead empty 0 (next_sequence_ c)) c d)
        else
          let oldest := wv_oldest w published in
          if next_sequence_ c <? oldest
          then VDone (McReadDone (mkRead consumer_lagged 0 oldest) (mkConsumer (queue_ c) oldest) d)
          else retry c d (fresh_snapshot MaxPayloadSize) read_attempts)
  | VLoadBefore c d snap attempts =>
      in_cell w (next_sequence_ c) T (fun j =>
        vloading w acquire (version_v j) T (fun a =>
          let before := as_word a in
          if negb (Z.land before 1 =? 0) then retry c d snap attempts
          else VLoadSequence c d snap attempts before))
  | VLoadSequence c d snap attempts before =>
      in_cell w (next_sequence_ c) T (fun j =>
        vloading w relaxed (data_v j f_sequence) T (fun a =>
          VLoadSize c d (mkSnapshot (as_word a) (stored_size snap) (scratch snap)) attempts before))
  | VLoadSize c d snap attempts before =>
      in_cell w (next_sequence_ c) T (fun j =>
        vloading w relaxed (data_v j f_size) T (fun a =>
          VLoadByte c d (mkSnapshot (stored_sequence snap) (as_word a) (scratch snap)) attempts before 0))
  | VLoadByte c d snap attempts before index =>
      if Z.of_nat index <? MaxPayloadSize then
        in_cell w (next_sequence_ c) T (fun j =>
          vloading w relaxed (data_v j (f_byte index)) T (fun a =>
            VLoadByte c d
              (mkSnapshot (stored_sequence snap) (stored_size snap) (<[index := as_octet a]> (scratch snap)))
              attempts before (S index)))
      else fenced fence_acquire [(w, (T, AtV (VLoadAfter c d snap attempts before)))]
  | VLoadAfter c d snap attempts before =>
      in_cell w (next_sequence_ c) T (fun j =>
        vloading w relaxed (version_v j) T (fun a =>
          let after := as_word a in
          if before =? after then consume c d snap else retry c d snap attempts))
  | VRefresh c d =>
      vloading w acquire published_v T (fun a =>
        let refreshed := wv_oldest w (as_word a) in
        let resume := if next_sequence_ c <? refreshed then refreshed else next_sequence_ c in
        VDone (McReadDone (mkRead overwritten 0 resume) (mkConsumer (queue_ c) resume) d))
  | _ => []
  end.

Definition weak_versioned_step (w : weak_versioned) (T : vview) (l : versioned_pc) : outcomes :=
  match l with
  | VRegisterStart =>
      vloading w acquire published_v T (fun a => VDone (McRegistered (Consumer_new (as_word a +u 1))))
  | VPublishedStart => vloading w acquire published_v T (fun a => VDone (McPublishedIs (as_word a)))
  | _ => weak_publish_step w T l ++ weak_read_step w T l
  end.

Definition weak_versioned_call (th : weak_vthread) (c : nat * McOp) : option weak_vthread :=
  match vt_pc th with
  | AtV l =>
      if decide (c.1 = vt_id th) then
        th' ← versioned_call (mkThread (vt_producer th) l) c.2;
        Some (mkVThread (vt_id th) (vt_producer th) (vt_view th) (AtV (pc th')))
      else None
  | Fault => None
  end.

Definition weak_versioned_tstep (w : weak_versioned) (th : weak_vthread) : list (weak_versioned * weak_vthread) :=
  match vt_pc th with
  | AtV l =>
      (fun x : weak_versioned * (vview * weak_vpc) => (x.1, mkVThread (vt_id th) (vt_producer th) x.2.1 x.2.2))
        <$> weak_versioned_step w (vt_view th) l
  | Fault => []
  end.

Definition weak_versioned_ret (th : weak_vthread) : option (McRes * weak_vthread) :=
  match vt_pc th with
  | AtV (VDone r) => Some (r, mkVThread (vt_id th) (vt_producer th) (vt_view th) (AtV VIdle))
  | _ => None
  end.

#[local] Instance versioned_weak_object : ConcurrentObject (nat * McOp) McRes weak_versioned weak_vthread := {|
  call := weak_versioned_call; tstep := weak_versioned_tstep; ret := weak_versioned_ret;
|}.

(** ** Positions, cells and generations

    Position [i] (publication [i + 1]) is write number [i / K + 1] of cell [i mod K]. *)

Section invariant.

Context (K : nat).
Hypothesis Kpos : (0 < K)%nat.

(** How many of the positions below [n] belong to cell [j]. *)
Definition vwrites (n j : nat) : nat := (n + K - 1 - j) / K.

(** The position of write [g] of cell [j]. *)
Definition write_position (j g : nat) : nat := (g - 1) * K + j.

Lemma vwrites_spec n j g :
  (j < K)%nat -> (1 <= g)%nat -> (g <= vwrites n j <-> write_position j g < n)%nat.
Proof using Kpos.
  intros Hj Hg. unfold vwrites, write_position. destruct g as [| g]; [lia |]. replace (S g - 1)%nat with g by lia. split.
  - intros H. pose proof (Nat.Div0.mul_div_le (n + K - 1 - j) K).
    assert (K * S g <= K * ((n + K - 1 - j) / K))%nat by (apply Nat.mul_le_mono_l; done). lia.
  - intros H. apply Nat.div_le_lower_bound; lia.
Qed.

Lemma write_position_mod j g : (j < K)%nat -> (write_position j g mod K = j)%nat.
Proof using Kpos.
  intros Hj. unfold write_position. rewrite Nat.add_comm, Nat.Div0.mod_add. by apply Nat.mod_small.
Qed.

Lemma write_position_div i : write_position (i mod K) (S (i / K)) = i.
Proof using Kpos.
  unfold write_position. pose proof (Nat.div_mod_eq i K). replace (S (i / K) - 1)%nat with (i / K)%nat by lia. lia.
Qed.

Lemma vwrites_eq n n' j :
  (j < K)%nat -> (forall g, 1 <= g -> (write_position j g < n <-> write_position j g < n'))%nat ->
  vwrites n j = vwrites n' j.
Proof using Kpos.
  intros Hj H.
  assert (Hg : forall g, (1 <= g)%nat -> (g <= vwrites n j <-> g <= vwrites n' j)%nat).
  { intros g Hg. rewrite !vwrites_spec by done. by apply H. }
  pose proof (Hg (vwrites n j)). pose proof (Hg (vwrites n' j)). lia.
Qed.

Lemma vwrites_other n j : (j < K)%nat -> j <> (n mod K)%nat -> vwrites (S n) j = vwrites n j.
Proof using Kpos.
  intros Hj Hne. apply vwrites_eq; [done |]. intros g Hg.
  assert (write_position j g <> n); [| lia]. intros <-. by rewrite write_position_mod in Hne.
Qed.

Lemma vwrites_here n : vwrites n (n mod K) = (n / K)%nat.
Proof using Kpos.
  pose proof (Nat.mod_upper_bound n K ltac:(lia)) as Hj. pose proof (Nat.div_mod_eq n K) as Hn. unfold vwrites.
  replace (n + K - 1 - n mod K)%nat with (K * (n / K) + (K - 1))%nat by lia.
  rewrite Nat.mul_comm, Nat.div_add_l by lia. rewrite (Nat.div_small (K - 1) K); lia.
Qed.

Lemma vwrites_succ n : vwrites (S n) (n mod K) = S (n / K).
Proof using Kpos.
  pose proof (Nat.mod_upper_bound n K ltac:(lia)) as Hj. pose proof (Nat.div_mod_eq n K) as Hn. unfold vwrites.
  replace (S n + K - 1 - n mod K)%nat with (S (n / K) * K + 0)%nat by lia.
  rewrite Nat.div_add_l, Nat.Div0.div_0_l by lia. lia.
Qed.

Lemma vwrites_mono n n' j : (n <= n')%nat -> (vwrites n j <= vwrites n' j)%nat.
Proof using Kpos. intros H. unfold vwrites. apply Nat.Div0.div_le_mono. lia. Qed.

Lemma vwrites_le n j : (j < K)%nat -> (vwrites n j <= n)%nat.
Proof using Kpos.
  intros Hj. destruct (vwrites n j) as [| g] eqn:E; [lia |].
  assert (H : (S g <= vwrites n j)%nat) by lia. apply vwrites_spec in H; [| done | lia].
  unfold write_position in H. nia.
Qed.

Lemma vwrites_zero j : (j < K)%nat -> vwrites 0 j = 0%nat.
Proof using Kpos. intros Hj. pose proof (vwrites_le 0 j Hj). lia. Qed.

(** ** What the members of a cell hold *)

(** The value publication [p] at position [i] gives to a member, if it stores it. *)
Definition field_value (p : list byte) (i : nat) (f : field) : option atom :=
  match f with
  | f_sequence => Some (word (u64 (Z.of_nat (S i))))
  | f_size => Some (word (span_size p))
  | f_byte b => octet <$> p !! b
  end.

(** The same for write [g] of cell [j], among the publications [X]. *)
Definition field_of (X : log) (j g : nat) (f : field) : option atom :=
  p ← X !! write_position j g; field_value p (write_position j g) f.

Lemma field_of_app X p j g f v : field_of X j g f = Some v -> field_of (X ++ [p]) j g f = Some v.
Proof.
  unfold field_of. intros H. apply bind_Some in H as (p' & Hp & Hv). by rewrite (lookup_app_l_Some _ _ _ _ Hp).
Qed.

Lemma field_of_app_old X p j g f :
  (j < K)%nat -> (1 <= g <= vwrites (length X) j)%nat -> field_of (X ++ [p]) j g f = field_of X j g f.
Proof using Kpos.
  intros Hj [Hg Hle]. apply vwrites_spec in Hle; [| done | done]. unfold field_of. by rewrite lookup_app_l.
Qed.

(** [gens j f]: the write numbers of the messages of member [f] of cell [j]. *)
Definition knows_gen (gens : nat -> field -> list nat) (V : view vatomic Empty_set) (j g : nat) : Prop :=
  forall f k, gens j f !! k = Some g -> (k <= v_at V (data_v j f))%nat.

Lemma knows_gen_le gens V W j g : view_le V W -> knows_gen gens V j g -> knows_gen gens W j g.
Proof. intros H K' f k Hk. etrans; [by apply K' | apply (vle_at _ _ H)]. Qed.

(** ** The invariant of the memory

    [L] is the log, [X] the publications whose write has begun and [E] how many
    writes have ended. *)
Record cells_inv (M : vmemory) (X : log) (E : nat) (gens : nat -> field -> list nat) : Prop := {
  ci_versions : forall j, (j < K)%nat ->
    length (hist M (version_v j)) = S (vwrites E j + vwrites (length X) j);
  ci_version : forall j k m, (j < K)%nat -> hist M (version_v j) !! k = Some m ->
    m_value m = word (u64 (Z.of_nat k)) /\ forall g, k = (2 * g)%nat -> knows_gen gens (m_view m) j g;
  ci_data_length : forall j f, length (hist M (data_v j f)) = length (gens j f);
  ci_data : forall j f k g m, (j < K)%nat -> gens j f !! k = Some g -> hist M (data_v j f) !! k = Some m ->
    (2 * g - 1 <= v_at (m_view m) (version_v j))%nat /\
    ((1 <= g)%nat -> field_of X j g f = Some (m_value m));
  ci_sorted : forall j f k k' g g', (k <= k')%nat -> gens j f !! k = Some g -> gens j f !! k' = Some g' -> (g <= g')%nat;
  ci_bound : forall j f k g, (j < K)%nat -> gens j f !! k = Some g -> (g <= vwrites (length X) j)%nat;
  ci_complete : forall j f g, (j < K)%nat -> (1 <= g <= vwrites E j)%nat -> field_of X j g f <> None ->
    exists k, gens j f !! k = Some g;
}.

Record published_inv (M : vmemory) (L : log) : Prop := {
  pi_length : length (hist M published_v) = S (length L);
  pi_message : forall k m, hist M published_v !! k = Some m ->
    m_value m = word (u64 (Z.of_nat k)) /\
    forall i, (i < k)%nat -> (2 * S (i / K) <= v_at (m_view m) (version_v (i mod K)))%nat;
}.

(** The producer has seen the newest message of every variable. *)
Definition owner (M : vmemory) (T : vview) : Prop := forall l, S (v_at (cur T) l) = length (hist M l).

Definition appended (M : vmemory) (o : memory_order) (l : vatomic) (v : atom) (T : vview) : vmemory :=
  append M l (Views.mkMessage v (released o l (length (hist M l)) T)).

Lemma owner_store M T o l v :
  owner M T ->
  store M o l v T = Some (appended M o l v T, write_view l (length (hist M l)) T) /\
  owner (appended M o l v T) (write_view l (length (hist M l)) T).
Proof.
  intros Ho. split; [unfold store; by rewrite decide_True by apply Ho |]. intros l'. specialize (Ho l'). simpl.
  unfold update. case_decide; simpl; [subst; rewrite length_app; simpl; lia | lia].
Qed.

Lemma hist_appended M o l v T l' :
  hist (appended M o l v T) l' =
    if decide (l' = l) then hist M l ++ [Views.mkMessage v (released o l (length (hist M l)) T)] else hist M l'.
Proof. unfold appended. simpl. unfold update. by case_decide; [subst |]. Qed.

(** Stores to the count do not touch the cells, and the other way round. *)
Lemma cells_inv_published M X E gens o v T :
  cells_inv M X E gens -> cells_inv (appended M o published_v v T) X E gens.
Proof.
  intros []. assert (H : forall l, l <> published_v -> hist (appended M o published_v v T) l = hist M l).
  { intros l Hl. by rewrite hist_appended, decide_False. }
  split; try done; intros *; rewrite H by done; auto.
Qed.

Lemma published_inv_other M L l o v T :
  l <> published_v -> published_inv M L -> published_inv (appended M o l v T) L.
Proof. intros Hl []. split; intros *; rewrite hist_appended, decide_False by done; auto. Qed.

(** The version of the next cell becomes odd. *)
Lemma cells_inv_begin M X gens p o v T :
  let j := (length X mod K)%nat in
  cells_inv M X (length X) gens -> v = word (u64 (Z.of_nat (S (2 * (length X / K))))) ->
  cells_inv (appended M o (version_v j) v T) (X ++ [p]) (length X) gens.
Proof using Kpos.
  intros j Hi ->. assert (Hj : (j < K)%nat) by (apply Nat.mod_upper_bound; lia).
  assert (Hlen : length (hist M (version_v j)) = S (2 * (length X / K))).
  { rewrite (ci_versions _ _ _ _ Hi) by done. unfold j. rewrite vwrites_here. lia. }
  destruct Hi. split.
  - intros j' Hj'. rewrite hist_appended, length_app. simpl. rewrite Nat.add_1_r. case_decide as Ej.
    + injection Ej as ->. rewrite length_app, Hlen. simpl. unfold j at 2. rewrite vwrites_succ. unfold j. rewrite vwrites_here. lia.
    + rewrite ci_versions0, (vwrites_other (length X)) by (done || (intros ->; by apply Ej)). lia.
  - intros j' k m Hj' Hk. rewrite hist_appended in Hk. case_decide as Ej; [injection Ej as -> | by apply ci_version0].
    apply lookup_snoc_inv in Hk as [Hk | [-> ->]]; [by apply ci_version0 |].
    rewrite Hlen. split; [done |]. intros g Hg. lia.
  - intros j' f. rewrite hist_appended, decide_False by done. apply ci_data_length0.
  - intros j' f k g m Hj' Hg Hm. rewrite hist_appended, decide_False in Hm by done.
    destruct (ci_data0 j' f k g m Hj' Hg Hm) as [H1 H2]. split; [done |]. intros Hg1. by apply field_of_app, H2.
  - done.
  - intros j' f k g Hj' Hg. pose proof (ci_bound0 _ _ _ _ Hj' Hg). rewrite length_app. simpl.
    pose proof (vwrites_mono (length X) (length X + 1) j'). lia.
  - intros j' f g Hj' Hg. rewrite field_of_app_old by done. by apply ci_complete0.
Qed.

Definition extend (gens : nat -> field -> list nat) (j : nat) (f : field) (g : nat) : nat -> field -> list nat :=
  fun j' f' => if decide ((j', f') = (j, f)) then gens j f ++ [g] else gens j' f'.

Lemma extend_lookup gens j f g j' f' k g' :
  extend gens j f g j' f' !! k = Some g' ->
  gens j' f' !! k = Some g' \/ (j' = j /\ f' = f /\ k = length (gens j f) /\ g' = g).
Proof.
  unfold extend. case_decide as E; [injection E as -> ->| by left].
  intros [H | [-> ->]]%lookup_snoc_inv; [by left | by right].
Qed.

Lemma extend_old gens j f g j' f' k g' :
  gens j' f' !! k = Some g' -> extend gens j f g j' f' !! k = Some g'.
Proof. unfold extend. case_decide as E; [injection E as -> -> | done]. apply lookup_app_l_Some. Qed.

(** A member of the cell being written is stored. *)
Lemma cells_inv_field M X p gens f v T :
  let j := (length X mod K)%nat in let g := S (length X / K) in
  cells_inv M (X ++ [p]) (length X) gens -> field_value p (length X) f = Some v ->
  (2 * g - 1 <= v_at (rel T) (version_v j))%nat ->
  cells_inv (appended M relaxed (data_v j f) v T) (X ++ [p]) (length X) (extend gens j f g).
Proof using Kpos.
  intros j g Hi Hv Hrel. assert (Hj : (j < K)%nat) by (apply Nat.mod_upper_bound; lia).
  assert (Hw : vwrites (length X) j = (length X / K)%nat) by apply vwrites_here.
  assert (Hw' : vwrites (length (X ++ [p])) j = g).
  { rewrite length_app. simpl. rewrite Nat.add_1_r. apply vwrites_succ. }
  assert (Hf : field_of (X ++ [p]) j g f = Some v).
  { unfold field_of, g, j. rewrite write_position_div, lookup_app_r by lia. by rewrite Nat.sub_diag. }
  destruct Hi. split.
  - intros j' Hj'. rewrite hist_appended, decide_False by done. by apply ci_versions0.
  - intros j' k m Hj' Hk. rewrite hist_appended, decide_False in Hk by done.
    destruct (ci_version0 j' k m Hj' Hk) as [H1 H2]. split; [done |]. intros g' -> f' k' Hg.
    apply extend_lookup in Hg as [Hg | (-> & -> & _ & ->)]; [by eapply H2 |].
    apply lookup_lt_Some in Hk. rewrite ci_versions0, Hw, Hw' in Hk by done. unfold g in Hk. lia.
  - intros j' f'. rewrite hist_appended. unfold extend. case_decide as E1; case_decide as E2; try congruence.
    injection E1 as -> ->. by rewrite !length_app, ci_data_length0.
  - intros j' f' k g' m Hj' Hg Hm. rewrite hist_appended in Hm.
    apply extend_lookup in Hg as [Hg | (-> & -> & -> & ->)].
    + apply (ci_data0 _ _ _ _ _ Hj' Hg). case_decide as E1; [| done]. injection E1 as -> ->.
      rewrite lookup_app_l in Hm; [done |]. rewrite ci_data_length0. by eapply lookup_lt_Some.
    + rewrite decide_True, lookup_app_r in Hm by (done || by rewrite ci_data_length0).
      rewrite ci_data_length0, Nat.sub_diag in Hm. injection Hm as <-. simpl. split; [lia | done].
  - intros j' f' k k' g1 g2 Hk H1 H2. pose proof (lookup_lt_Some _ _ _ H2) as Hlt.
    apply extend_lookup in H1 as [H1 | (-> & -> & -> & ->)], H2 as [H2 | (E1 & E2 & -> & ->)].
    + exact (ci_sorted0 _ _ _ _ _ _ Hk H1 H2).
    + subst j' f'. etrans; [by eapply ci_bound0 | lia].
    + apply lookup_lt_Some in H2. lia.
    + done.
  - intros j' f' k g' Hj' Hg. apply extend_lookup in Hg as [Hg | (-> & -> & -> & ->)]; [by eapply ci_bound0 | lia].
  - intros j' f' g' Hj' Hg Hne. destruct (ci_complete0 j' f' g' Hj' Hg Hne) as [k Hk]. exists k. by apply extend_old.
Qed.

(** The version becomes even again. *)
Lemma cells_inv_end M X p gens v T :
  let j := (length X mod K)%nat in let g := S (length X / K) in
  cells_inv M (X ++ [p]) (length X) gens -> owner M T -> v = word (u64 (Z.of_nat (2 * g))) ->
  (forall f, field_of (X ++ [p]) j g f <> None -> exists k, gens j f !! k = Some g) ->
  cells_inv (appended M release (version_v j) v T) (X ++ [p]) (S (length X)) gens.
Proof using Kpos.
  intros j g Hi Ho -> Hdone. assert (Hj : (j < K)%nat) by (apply Nat.mod_upper_bound; lia).
  assert (Hx : length (X ++ [p]) = S (length X)) by (rewrite length_app; simpl; lia).
  assert (Hlen : length (hist M (version_v j)) = (2 * g)%nat).
  { rewrite (ci_versions _ _ _ _ Hi), Hx by done. unfold g, j. rewrite vwrites_here, vwrites_succ. lia. }
  destruct Hi. rewrite Hx in *. split; rewrite ?Hx.
  - intros j' Hj'. rewrite hist_appended. case_decide as E1.
    + injection E1 as ->. rewrite length_app, Hlen. simpl. unfold g, j. rewrite vwrites_succ. lia.
    + rewrite ci_versions0, (vwrites_other (length X)) by (done || (intros ->; by apply E1)). lia.
  - intros j' k m Hj' Hk. rewrite hist_appended in Hk. case_decide as Ej; [injection Ej as -> | by apply ci_version0].
    apply lookup_snoc_inv in Hk as [Hk | [-> ->]]; [by apply ci_version0 |].
    rewrite Hlen. split; [done |]. intros g' Hg f k Hk. simpl. rewrite update_other by done. simpl.
    apply lookup_lt_Some in Hk. rewrite <- ci_data_length0, <- (Ho (data_v j f)) in Hk. lia.
  - intros j' f. rewrite hist_appended, decide_False by done. apply ci_data_length0.
  - intros j' f k g' m Hj' Hg Hm. rewrite hist_appended, decide_False in Hm by done. by eapply ci_data0.
  - done.
  - done.
  - intros j' f g' Hj' Hg Hne. destruct (decide (j' = j)) as [-> | Hd].
    + unfold j in Hg. rewrite vwrites_succ in Hg. destruct (decide (g' = g)) as [-> | Hd]; [by apply Hdone |].
      apply ci_complete0; [done | unfold j; rewrite vwrites_here; lia | done].
    + rewrite (vwrites_other (length X)) in Hg by done. by apply ci_complete0.
Qed.

(** The publication is announced. *)
Lemma published_inv_append M X L p gens v T :
  X = L ++ [p] -> cells_inv M X (S (length L)) gens -> published_inv M L -> owner M T ->
  v = word (u64 (Z.of_nat (S (length L)))) ->
  published_inv (appended M release published_v v T) X.
Proof using Kpos.
  intros -> Hc Hp Ho ->. assert (Hx : length (L ++ [p]) = S (length L)) by (rewrite length_app; simpl; lia).
  split; rewrite hist_appended, decide_True by done; rewrite ?length_app, (pi_length _ _ Hp); [simpl; lia |].
  intros k m Hk. apply lookup_snoc_inv in Hk as [Hk | [-> ->]]; [by apply (pi_message _ _ Hp) |].
  rewrite (pi_length _ _ Hp). split; [done |]. intros i Hi. simpl. rewrite update_other by done. simpl.
  assert (Hj : (i mod K < K)%nat) by (apply Nat.mod_upper_bound; lia).
  specialize (Ho (version_v (i mod K))). rewrite (ci_versions _ _ _ _ Hc), Hx in Ho by done.
  assert (S (i / K) <= vwrites (S (length L)) (i mod K))%nat; [| lia].
  apply vwrites_spec; [done | lia |]. by rewrite write_position_div.
Qed.

(** ** What a reader learns *)

Lemma load_published M L T v T' :
  published_inv M L -> (v, T') ∈ load M acquire published_v T ->
  view_le (cur T) (cur T') /\
  exists k, v = word (u64 (Z.of_nat k)) /\ (v_at (cur T) published_v <= k <= v_at (cur T') published_v)%nat /\
    (k <= length L)%nat /\
    forall i, (i < k)%nat -> (2 * S (i / K) <= v_at (cur T') (version_v (i mod K)))%nat.
Proof.
  intros Hp (k & m & Hk & Hle & -> & ->)%load_inv. split; [apply read_view_cur |]. exists k.
  destruct (pi_message _ _ Hp k m Hk) as [Hv Hi]. split; [done |].
  split; [split; [done | apply read_view_at] |].
  split; [apply lookup_lt_Some in Hk; rewrite (pi_length _ _ Hp) in Hk; lia |].
  intros i Hik. specialize (Hi i Hik). simpl. lia.
Qed.

Lemma load_before M X E gens j T v T' :
  cells_inv M X E gens -> (j < K)%nat -> (v, T') ∈ load M acquire (version_v j) T ->
  view_le (cur T) (cur T') /\
  exists k, v = word (u64 (Z.of_nat k)) /\ (v_at (cur T) (version_v j) <= k <= v_at (cur T') (version_v j))%nat /\
    (k < length (hist M (version_v j)))%nat /\ forall g, k = (2 * g)%nat -> knows_gen gens (cur T') j g.
Proof.
  intros Hc Hj (k & m & Hk & Hle & -> & ->)%load_inv. split; [apply read_view_cur |]. exists k.
  destruct (ci_version _ _ _ _ Hc j k m Hj Hk) as [Hv Hg]. split; [done |].
  split; [split; [done | apply read_view_at] |]. split; [by eapply lookup_lt_Some |].
  intros g ->. eapply knows_gen_le; [| by apply Hg]. simpl. apply view_join_r.
Qed.

Lemma load_after M X E gens j T v T' :
  cells_inv M X E gens -> (j < K)%nat -> (v, T') ∈ load M relaxed (version_v j) T ->
  view_le (cur T) (cur T') /\
  exists k, v = word (u64 (Z.of_nat k)) /\ (v_at (cur T) (version_v j) <= k < length (hist M (version_v j)))%nat.
Proof.
  intros Hc Hj (k & m & Hk & Hle & -> & ->)%load_inv. split; [apply read_view_cur |]. exists k.
  destruct (ci_version _ _ _ _ Hc j k m Hj Hk) as [Hv Hg]. split; [done |]. apply lookup_lt_Some in Hk. lia.
Qed.

(** A member was loaded while generation [g] was wanted: the value belongs to a write
    not older than [g] that the reader will know to have begun. *)
Definition loaded (X : log) (V : view vatomic Empty_set) (j g : nat) (f : field) (v : atom) : Prop :=
  exists h, (2 * h - 1 <= v_at V (version_v j))%nat /\ (field_of X j g f <> None -> (g <= h)%nat) /\
    ((1 <= h)%nat -> field_of X j h f = Some v).

Lemma loaded_le X V W j g f v : view_le V W -> loaded X V j g f v -> loaded X W j g f v.
Proof. intros H (h & H1 & H2). exists h. split; [| done]. pose proof (vle_at _ _ H (version_v j)). lia. Qed.

Lemma loaded_app X p V j g f v :
  (j < K)%nat -> (1 <= g <= vwrites (length X) j)%nat -> loaded X V j g f v -> loaded (X ++ [p]) V j g f v.
Proof using Kpos.
  intros Hj Hg (h & H1 & H2 & H3). exists h. split; [done |]. rewrite field_of_app_old by done. split; [done |].
  intros Hh. by apply field_of_app, H3.
Qed.

Lemma load_field M X E gens j f g T v T' :
  cells_inv M X E gens -> (j < K)%nat -> (1 <= g <= vwrites E j)%nat -> knows_gen gens (cur T) j g ->
  (v, T') ∈ load M relaxed (data_v j f) T ->
  view_le (cur T) (cur T') /\ view_le (acq T) (acq T') /\ loaded X (acq T') j g f v.
Proof.
  intros Hc Hj Hg Hk (k & m & Hm & Hle & -> & ->)%load_inv. split; [apply read_view_cur |].
  split; [simpl; etrans; apply view_join_l |].
  destruct (lookup_lt_is_Some_2 (gens j f) k) as [h Hh].
  { rewrite <- (ci_data_length _ _ _ _ Hc). by eapply lookup_lt_Some. }
  destruct (ci_data _ _ _ _ Hc j f k h m Hj Hh Hm) as [H1 H2]. exists h.
  split; [simpl; lia |]. split; [| done]. intros Hf. destruct (ci_complete _ _ _ _ Hc j f g Hj Hg Hf) as [k0 Hk0].
  apply (ci_sorted _ _ _ _ Hc j f k0 k g h); [| done | done]. specialize (Hk f k0 Hk0). lia.
Qed.

(** With an unchanged version the value is the one of the wanted generation. *)
Lemma loaded_exact X V j g f v v' :
  loaded X V j g f v -> (1 <= g)%nat -> (v_at V (version_v j) <= 2 * g)%nat -> field_of X j g f = Some v' -> v = v'.
Proof.
  intros (h & H1 & H2 & H3) Hg Hv Hf. assert (h = g) as ->; [| rewrite H3 in Hf by done; congruence].
  assert (g <= h)%nat by (apply H2; congruence). lia.
Qed.

Lemma snapshot_exact X V j g snap (v_seq v_size : atom) p :
  X !! write_position j g = Some p -> (1 <= g)%nat -> (v_at V (version_v j) <= 2 * g)%nat ->
  stored_sequence snap = as_word v_seq -> loaded X V j g f_sequence v_seq ->
  stored_size snap = as_word v_size -> loaded X V j g f_size v_size ->
  (forall i, (i < length p)%nat -> exists v, scratch snap !! i = Some (as_octet v) /\ loaded X V j g (f_byte i) v) ->
  stored_sequence snap = u64 (Z.of_nat (S (write_position j g))) /\ stored_size snap = span_size p /\
  take (length p) (scratch snap) = p.
Proof.
  intros Hp Hg Hv Hs Ls Hz Lz Lb.
  assert (Hf : forall f, field_of X j g f = field_value p (write_position j g) f) by (intros f; unfold field_of; by rewrite Hp).
  rewrite Hs, Hz, (loaded_exact X V j g f_sequence v_seq _ Ls Hg Hv (Hf _)), (loaded_exact X V j g f_size v_size _ Lz Hg Hv (Hf _)).
  split; [done |]. split; [done |]. apply list_eq. intros i.
  destruct (decide (i < length p)%nat) as [Hi | Hi].
  - destruct (Lb i Hi) as (v & Hsc & Lv). rewrite lookup_take_lt, Hsc by done.
    destruct (lookup_lt_is_Some_2 p i Hi) as [b Hb]. rewrite Hb.
    rewrite (loaded_exact X V j g (f_byte i) v (octet b) Lv Hg Hv); [done |]. rewrite Hf. simpl. by rewrite Hb.
  - rewrite lookup_take_ge by lia. symmetry. apply lookup_ge_None. lia.
Qed.

(** ** Readers *)

Context (cap : Z).
Hypothesis Kcap : Z.of_nat K = cap.

(** The cell and the write number of a sequence. *)
Definition cell_of (want : Z) : nat := (Z.to_nat (want - 1) mod K)%nat.
Definition gen_of (want : Z) : nat := S (Z.to_nat (want - 1) / K).

Lemma cell_of_lt want : (cell_of want < K)%nat.
Proof using Kpos. apply Nat.mod_upper_bound. lia. Qed.

Lemma gen_position want : write_position (cell_of want) (gen_of want) = Z.to_nat (want - 1).
Proof using Kpos. apply write_position_div. Qed.

(** The reader has found its message to be published and not yet overwritten,
    with [k] publications known. *)
Definition reading (seen : Z) (T : vview) (c : Consumer) : Prop :=
  queue_ c = true /\
  exists k : nat, 1 <= next_sequence_ c <= Z.of_nat k /\ Z.of_nat k < next_sequence_ c + cap /\
    seen <= Z.of_nat k /\ (k <= v_at (cur T) published_v)%nat /\
    (2 * gen_of (next_sequence_ c) <= v_at (cur T) (version_v (cell_of (next_sequence_ c))))%nat.

(** A later write of the reader's cell has begun. *)
Definition overtaken (M : vmemory) (c : Consumer) : Prop :=
  (S (2 * gen_of (next_sequence_ c)) < length (hist M (version_v (cell_of (next_sequence_ c)))))%nat.

(** The reader is copying the cell after having seen the even version [before]. *)
Record copying (gens : nat -> field -> list nat) (T : vview) (c : Consumer) (before : Z) (g : nat) : Prop := {
  cp_before : before = u64 (Z.of_nat (2 * g));
  cp_gen : (gen_of (next_sequence_ c) <= g)%nat;
  cp_seen : (2 * g <= v_at (cur T) (version_v (cell_of (next_sequence_ c))))%nat;
  cp_knows : knows_gen gens (cur T) (cell_of (next_sequence_ c)) g;
}.

(** The members copied so far: the sequence, the size and the first [n] bytes. *)
Definition copied_sequence (X : log) (V : view vatomic Empty_set) (c : Consumer) (g : nat) (snap : snapshot) : Prop :=
  exists v, stored_sequence snap = as_word v /\ loaded X V (cell_of (next_sequence_ c)) g f_sequence v.

Definition copied_size (X : log) (V : view vatomic Empty_set) (c : Consumer) (g : nat) (snap : snapshot) : Prop :=
  exists v, stored_size snap = as_word v /\ loaded X V (cell_of (next_sequence_ c)) g f_size v.

Definition copied_bytes (X : log) (V : view vatomic Empty_set) (c : Consumer) (g n : nat) (snap : snapshot) : Prop :=
  length (scratch snap) = Z.to_nat MaxPayloadSize /\ (n <= Z.to_nat MaxPayloadSize)%nat /\
  forall i, (i < n)%nat -> exists v, scratch snap !! i = Some (as_octet v) /\
    loaded X V (cell_of (next_sequence_ c)) g (f_byte i) v.

Definition reader_rel (M : vmemory) (X : log) (gens : nat -> field -> list nat) (seen : Z) (T : vview)
    (l : versioned_pc) (c : Consumer) (d : list byte) : Prop :=
  match l with
  | VReadStart c' d' => c' = c /\ d' = d
  | VLoadPublished c' d' => c' = c /\ d' = d /\ queue_ c = true
  | VLoadBefore c' d' snap a =>
      c' = c /\ d' = d /\ reading seen T c /\ length (scratch snap) = Z.to_nat MaxPayloadSize /\
      (S a = read_attempts \/ overtaken M c)
  | VLoadSequence c' d' snap a before =>
      c' = c /\ d' = d /\ reading seen T c /\ exists g, copying gens T c before g /\
        copied_bytes X (acq T) c g 0 snap
  | VLoadSize c' d' snap a before =>
      c' = c /\ d' = d /\ reading seen T c /\ exists g, copying gens T c before g /\
        copied_sequence X (acq T) c g snap /\ copied_bytes X (acq T) c g 0 snap
  | VLoadByte c' d' snap a before n =>
      c' = c /\ d' = d /\ reading seen T c /\ exists g, copying gens T c before g /\
        copied_sequence X (acq T) c g snap /\ copied_size X (acq T) c g snap /\ copied_bytes X (acq T) c g n snap
  | VLoadAfter c' d' snap a before =>
      c' = c /\ d' = d /\ reading seen T c /\ exists g, copying gens T c before g /\
        copied_sequence X (cur T) c g snap /\ copied_size X (cur T) c g snap /\
        copied_bytes X (cur T) c g (Z.to_nat MaxPayloadSize) snap
  | VRefresh c' d' => c' = c /\ d' = d /\ reading seen T c /\ overtaken M c
  | _ => False
  end.

Lemma reading_le seen T T' c : view_le (cur T) (cur T') -> reading seen T c -> reading seen T' c.
Proof.
  intros H (Hq & k & H1 & H2 & H3 & H4 & H5). split; [done |]. exists k. split_and!; try done; try lia.
  - pose proof (vle_at _ _ H published_v). lia.
  - etrans; [exact H5 | apply (vle_at _ _ H)].
Qed.

Lemma copying_le gens T T' c before g :
  view_le (cur T) (cur T') -> copying gens T c before g -> copying gens T' c before g.
Proof.
  intros H [H1 H2 H3 H4]. split; [done | done | | by eapply knows_gen_le].
  etrans; [exact H3 | apply (vle_at _ _ H)].
Qed.

Lemma copied_sequence_le X V W c g snap : view_le V W -> copied_sequence X V c g snap -> copied_sequence X W c g snap.
Proof. intros H (v & H1 & H2). exists v. split; [done | by eapply loaded_le]. Qed.

Lemma copied_size_le X V W c g snap : view_le V W -> copied_size X V c g snap -> copied_size X W c g snap.
Proof. intros H (v & H1 & H2). exists v. split; [done | by eapply loaded_le]. Qed.

Lemma copied_bytes_le X V W c g n snap : view_le V W -> copied_bytes X V c g n snap -> copied_bytes X W c g n snap.
Proof.
  intros H (H1 & H2 & H3). split; [done |]. split; [done |]. intros i Hi.
  destruct (H3 i Hi) as (v & Hv & Hl). exists v. split; [done | by eapply loaded_le].
Qed.

(** ** The shared state *)

Record shared_inv (w : weak_versioned) (L X : log) (E : nat) (gens : nat -> field -> list nat) : Prop := {
  si_capacity : wv_capacity w = cap;
  si_cells : wv_cells w = K;
  si_wf : memory_wf (wv_memory w);
  si_published : published_inv (wv_memory w) L;
  si_inv : cells_inv (wv_memory w) X E gens;
  si_log : X = L \/ exists p, X = L ++ [p];
  si_ended : (length L <= E <= length X)%nat;
  si_fits : Forall (fun p => span_size p <= MaxPayloadSize) X;
  si_small : Z.of_nat (E + length X) < u64_modulus;
  si_room : cap < u64_modulus;
}.

Lemma si_length w L X E gens : shared_inv w L X E gens -> (length L <= length X <= S (length L))%nat.
Proof. intros H. destruct (si_log _ _ _ _ _ H) as [-> | [p ->]]; rewrite ?length_app; simpl; lia. Qed.

(** How many writes of a cell have begun and ended. *)
Lemma si_cell_writes w L X E gens j :
  shared_inv w L X E gens -> (j < K)%nat ->
  (vwrites E j <= vwrites (length X) j <= S (vwrites E j))%nat /\
  (vwrites E j + vwrites (length X) j <= E + length X)%nat.
Proof using Kpos.
  intros H Hj. pose proof (si_length _ _ _ _ _ H). pose proof (si_ended _ _ _ _ _ H).
  pose proof (vwrites_mono E (length X) j). pose proof (vwrites_mono (length X) (S E) j).
  pose proof (vwrites_le E j Hj). pose proof (vwrites_le (length X) j Hj).
  assert (vwrites (S E) j <= S (vwrites E j))%nat; [| lia].
  destruct (decide (j = E mod K)%nat) as [-> | Hne]; [by rewrite vwrites_here, vwrites_succ | by rewrite vwrites_other; [lia | ..]].
Qed.

Lemma wv_index_cell w L X E gens want :
  shared_inv w L X E gens -> 1 <= want < u64_modulus ->
  wv_index w want = cell_of want /\ (cell_of want < wv_cells w)%nat.
Proof using Kpos Kcap.
  intros H Hw. rewrite (si_cells _ _ _ _ _ H). split; [| apply cell_of_lt].
  unfold wv_index, cell_of, slot_of. rewrite (si_capacity _ _ _ _ _ H), u64_small, <- Kcap by lia.
  rewrite Z2Nat.inj_mod by lia. by rewrite Nat2Z.id.
Qed.

Lemma wv_oldest_known w L X E gens k :
  shared_inv w L X E gens -> (k <= length L)%nat ->
  wv_oldest w (u64 (Z.of_nat k)) = oldest cap (take k L) /\ span_size (take k L) = Z.of_nat k /\
  u64 (Z.of_nat k) = Z.of_nat k.
Proof using Kpos Kcap.
  intros H Hk. pose proof (si_small _ _ _ _ _ H). pose proof (si_length _ _ _ _ _ H).
  assert (Hs : span_size (take k L) = Z.of_nat k) by (unfold span_size; rewrite length_take; lia).
  assert (Hu : u64 (Z.of_nat k) = Z.of_nat k) by (apply u64_small; lia).
  split; [| done]. unfold wv_oldest, oldest. rewrite Hs, Hu, (si_capacity _ _ _ _ _ H).
  case_tests; [| done]. rewrite (u64_small (Z.of_nat k - cap)), u64_small; lia.
Qed.

Lemma vloading_inv w o l T k w' x :
  (w', x) ∈ vloading w o l T k ->
  exists v T', (v, T') ∈ load (wv_memory w) o l T /\ w' = w /\ x = (T', AtV (k v)).
Proof. intros ([v T'] & [= -> ->] & Hl)%list_elem_of_fmap. by exists v, T'. Qed.

(** ** Steps of a reader *)

Section reader_steps.

Context (w : weak_versioned) (s : late_log) (X : log) (E : nat) (gens : nat -> field -> list nat).
Context (cs : list (status (nat * McOp) McRes)) (t : nat).

Hypothesis Hsi : shared_inv w (published_log s) X E gens.
Hypothesis Hpend : length X = S (length (published_log s)) -> late_pending MaxPayloadSize cs.

Abbreviation M := (wv_memory w).
Abbreviation L := (published_log s).
Abbreviation seen := (seen_by s t).

Definition answers (o : McOp) (T' : vview) (l' : versioned_pc) : Prop :=
  exists r k, l' = VDone r /\ k <= Z.of_nat (v_at (cur T') published_v) /\
    late_spec MaxPayloadSize cap cs s (t, o) r (mkLate L (update (seen_by s) t k)).

(** A step of a reader leaves the memory alone; it goes on, or answers its call. *)
Definition reader_goes (o : McOp) (T : vview) (P : vview -> versioned_pc -> Prop)
    (w' : weak_versioned) (x : vview * weak_vpc) : Prop :=
  w' = w /\ thread_closed x.1 M /\ view_le (cur T) (cur x.1) /\
  exists l', x.2 = AtV l' /\ (P x.1 l' \/ answers o x.1 l').

Abbreviation read_goes T c d := (reader_goes (McRead c d) T (fun T' l' => reader_rel M X gens seen T' l' c d)).

Lemma loading_goes o T P ord l k w' x :
  (w', x) ∈ vloading w ord l T k -> thread_closed T M ->
  (forall v T', (v, T') ∈ load M ord l T -> thread_closed T' M -> view_le (cur T) (cur T') ->
     P T' (k v) \/ answers o T' (k v)) ->
  reader_goes o T P w' x.
Proof using Hsi Hpend Kpos Kcap.
  intros (v & T' & Hl & -> & ->)%vloading_inv Hcl Hk.
  pose proof (load_closed _ _ _ _ _ _ (si_wf _ _ _ _ _ Hsi) Hcl Hl) as Hcl'.
  assert (Hle : view_le (cur T) (cur T')).
  { apply load_inv in Hl as (? & ? & _ & _ & -> & ->). apply read_view_cur. }
  split; [done |]. split; [done |]. split; [done |]. eexists. split; [done |]. by apply Hk.
Qed.

Lemma seen_published T : thread_closed T M -> (v_at (cur T) published_v <= length L)%nat.
Proof using Hsi Hpend Kpos Kcap.
  intros Hcl. pose proof (cl_at _ _ (thread_closed_cur _ _ Hcl) published_v) as H.
  rewrite (pi_length _ _ (si_published _ _ _ _ _ Hsi)) in H. lia.
Qed.

Lemma reading_in_ring T c :
  thread_closed T M -> reading seen T c ->
  1 <= next_sequence_ c < u64_modulus /\ wv_index w (next_sequence_ c) = cell_of (next_sequence_ c) /\
  (cell_of (next_sequence_ c) < wv_cells w)%nat.
Proof using Hsi Hpend Kpos Kcap.
  intros Hcl (_ & k & Hk & _ & _ & Hk' & _). pose proof (seen_published T Hcl).
  pose proof (si_small _ _ _ _ _ Hsi). pose proof (si_length _ _ _ _ _ Hsi).
  assert (Hw : 1 <= next_sequence_ c < u64_modulus) by lia. split; [done |]. by eapply wv_index_cell.
Qed.

(** Being overtaken is what the contract asks of a lost message. *)
Lemma overtaken_lost c :
  1 <= next_sequence_ c -> overtaken M c ->
  next_sequence_ c + cap <= span_size L \/ (next_sequence_ c + cap = span_size L + 1 /\ late_pending MaxPayloadSize cs).
Proof using Hsi Hpend Kpos Kcap.
  intros Hw Ho. unfold overtaken in Ho. pose proof (cell_of_lt (next_sequence_ c)) as Hj.
  rewrite (ci_versions _ _ _ _ (si_inv _ _ _ _ _ Hsi)) in Ho by done.
  destruct (si_cell_writes _ _ _ _ _ _ Hsi Hj) as [Hv _].
  assert (Hg : (S (gen_of (next_sequence_ c)) <= vwrites (length X) (cell_of (next_sequence_ c)))%nat) by lia.
  apply vwrites_spec in Hg; [| done | lia].
  assert (Hpos : write_position (cell_of (next_sequence_ c)) (S (gen_of (next_sequence_ c))) =
    (Z.to_nat (next_sequence_ c - 1) + K)%nat).
  { rewrite <- (gen_position (next_sequence_ c)). unfold write_position, gen_of. simpl. lia. }
  rewrite Hpos in Hg. pose proof (si_length _ _ _ _ _ Hsi). unfold span_size.
  destruct (decide (length X = S (length L))) as [Hx | Hx]; [| left; lia].
  destruct (decide (next_sequence_ c + cap <= Z.of_nat (length L))) as [Hle | Hle]; [by left |].
  right. split; [lia | by apply Hpend].
Qed.

Lemma query_answers o r k T' :
  (forall payload, o <> McPublish payload) -> seen <= Z.of_nat k -> (k <= length L)%nat ->
  (k <= v_at (cur T') published_v)%nat ->
  mc_spec MaxPayloadSize cap false [] (take k L) o r (take k L) -> answers o T' (VDone r).
Proof.
  intros Ho Hseen Hk Hv Hspec. exists r, (Z.of_nat k). split; [done |]. split; [lia |].
  constructor; [unfold span_size; lia | done |]. unfold known_log. by rewrite Nat2Z.id.
Qed.

Lemma step_register T w' x :
  thread_closed T M -> seen <= Z.of_nat (v_at (cur T) published_v) ->
  (w', x) ∈ weak_versioned_step w T VRegisterStart -> reader_goes McRegister T (fun _ _ => False) w' x.
Proof using Hsi Hpend Kpos Kcap.
  intros Hcl Hs Hx. eapply loading_goes; [exact Hx | done |]. intros v T' Hl Hcl' Hle. right.
  destruct (load_published _ _ _ _ _ (si_published _ _ _ _ _ Hsi) Hl) as (_ & k & -> & Hk & HkL & _).
  destruct (wv_oldest_known _ _ _ _ _ k Hsi HkL) as (_ & Hsz & Hu). simpl. rewrite Hu.
  pose proof (si_small _ _ _ _ _ Hsi). pose proof (si_length _ _ _ _ _ Hsi). pose proof (si_ended _ _ _ _ _ Hsi).
  assert (Z.of_nat k + 1 < u64_modulus) by (assert (1 < u64_modulus) by done; lia).
  rewrite u64_small by lia. apply (query_answers _ _ k); [done | lia | done | lia |]. rewrite <- Hsz. constructor.
Qed.

Lemma step_published T w' x :
  thread_closed T M -> seen <= Z.of_nat (v_at (cur T) published_v) ->
  (w', x) ∈ weak_versioned_step w T VPublishedStart -> reader_goes McPublished T (fun _ _ => False) w' x.
Proof using Hsi Hpend Kpos Kcap.
  intros Hcl Hs Hx. eapply loading_goes; [exact Hx | done |]. intros v T' Hl Hcl' Hle. right.
  destruct (load_published _ _ _ _ _ (si_published _ _ _ _ _ Hsi) Hl) as (_ & k & -> & Hk & HkL & _).
  destruct (wv_oldest_known _ _ _ _ _ k Hsi HkL) as (_ & Hsz & Hu). simpl. rewrite Hu.
  apply (query_answers _ _ k); [done | lia | done | lia |]. rewrite <- Hsz. constructor.
Qed.

Lemma step_read_start T c d w' x :
  thread_closed T M -> seen <= Z.of_nat (v_at (cur T) published_v) ->
  (w', x) ∈ weak_read_step w T (VReadStart c d) -> read_goes T c d w' x.
Proof using Hsi Hpend Kpos Kcap.
  intros Hcl Hs Hx. simpl in Hx. destruct (negb (queue_ c)) eqn:Hq; inv_outcome Hx.
  - split; [done |]. split; [done |]. split; [done |]. eexists. split; [done |]. right.
    apply (query_answers _ _ (v_at (cur T) published_v)); [done | done | by apply seen_published | done |].
    constructor. unfold mc_read. by rewrite Hq.
  - split; [done |]. split; [done |]. split; [done |]. eexists. split; [done |]. left. simpl.
    apply negb_false_iff in Hq. done.
Qed.

Lemma step_load_published T c d w' x :
  thread_closed T M -> seen <= Z.of_nat (v_at (cur T) published_v) -> queue_ c = true ->
  (w', x) ∈ weak_read_step w T (VLoadPublished c d) -> read_goes T c d w' x.
Proof using Hsi Hpend Kpos Kcap.
  intros Hcl Hs Hq Hx. eapply loading_goes; [exact Hx | done |]. intros v T' Hl Hcl' Hle.
  destruct (load_published _ _ _ _ _ (si_published _ _ _ _ _ Hsi) Hl) as (_ & k & -> & Hk & HkL & Hver).
  destruct (wv_oldest_known _ _ _ _ _ k Hsi HkL) as (Hold & Hsz & Hu). cbn [as_word].
  destruct (Z.ltb_spec (u64 (Z.of_nat k)) (next_sequence_ c)) as [Hlt | Hge].
  { right. apply (query_answers _ _ k); [done | lia | done | lia |]. constructor. unfold mc_read. rewrite Hq. simpl.
    by rewrite (proj2 (Z.ltb_lt _ _)) by lia. }
  cbv zeta. rewrite Hold. destruct (Z.ltb_spec (next_sequence_ c) (oldest cap (take k L))) as [Hlag | Hok].
  { right. apply (query_answers _ _ k); [done | lia | done | lia |]. constructor. unfold mc_read. rewrite Hq. simpl.
    rewrite (proj2 (Z.ltb_ge _ _)), (proj2 (Z.ltb_lt _ _)) by lia. done. }
  left. unfold retry. cbn [read_attempts reader_rel]. split; [done |]. split; [done |].
  unfold oldest in Hok. rewrite Hsz in Hok.
  split; [| split; [simpl; by rewrite length_replicate | by left]]. split; [done |]. exists k.
  assert (1 <= next_sequence_ c /\ Z.of_nat k < next_sequence_ c + cap) as [H1 H2].
  { destruct (Z.leb_spec cap (Z.of_nat k)); lia. }
  split_and!; try lia. apply Hver. lia.
Qed.

(** The next attempt, when there is one, has been overtaken. *)
Lemma retry_rel T c d snap a :
  reading seen T c -> length (scratch snap) = Z.to_nat MaxPayloadSize -> overtaken M c ->
  reader_rel M X gens seen T (retry c d snap a) c d.
Proof. intros Hr Hlen Ho. destruct a; simpl; split_and!; auto. Qed.

Lemma step_load_before T c d snap a w' x :
  thread_closed T M -> reader_rel M X gens seen T (VLoadBefore c d snap a) c d ->
  (w', x) ∈ weak_read_step w T (VLoadBefore c d snap a) -> read_goes T c d w' x.
Proof using Hsi Hpend Kpos Kcap.
  intros Hcl (_ & _ & Hr & Hlen & Ha) Hx. destruct (reading_in_ring T c Hcl Hr) as (Hw & Hix & Hj).
  cbn [weak_read_step] in Hx. unfold in_cell in Hx. rewrite Hix, decide_True in Hx by done.
  eapply loading_goes; [exact Hx | done |]. intros v T' Hl Hcl' Hle. left.
  pose proof (cell_of_lt (next_sequence_ c)) as HjK.
  destruct (load_before _ _ _ _ _ _ _ _ (si_inv _ _ _ _ _ Hsi) HjK Hl) as (_ & k & -> & Hk & HkM & Hgen).
  pose proof (reading_le _ _ _ _ Hle Hr) as Hr'. pose proof Hr as (_ & _ & _ & _ & _ & _ & Hver).
  pose proof HkM as HkM'. rewrite (ci_versions _ _ _ _ (si_inv _ _ _ _ _ Hsi)) in HkM' by done.
  destruct (si_cell_writes _ _ _ _ _ _ Hsi HjK) as [_ Hsum]. pose proof (si_small _ _ _ _ _ Hsi).
  assert (Hu : u64 (Z.of_nat k) = Z.of_nat k) by (apply u64_small; lia).
  cbn [as_word]. rewrite Hu. cbv zeta.
  assert (Hland : Z.land (Z.of_nat k) 1 = Z.of_nat (k mod 2)).
  { change 1 with (Z.ones 1). rewrite Z.land_ones by lia. by rewrite Nat2Z.inj_mod. }
  rewrite Hland. pose proof (Nat.div_mod_eq k 2) as Hdiv. pose proof (Nat.mod_upper_bound k 2).
  destruct (Z.eqb_spec (Z.of_nat (k mod 2)) 0) as [He | Hodd]; simpl.
  - split; [done |]. split; [done |]. split; [done |]. exists (k / 2)%nat. split; [| split_and!; [done | lia |]].
    + split; [rewrite <- Hu; do 2 f_equal; lia | lia | lia | apply Hgen; lia].
    + intros i Hi. lia.
  - apply retry_rel; [done | done |]. unfold overtaken. lia.
Qed.

Lemma copying_gen T c before g :
  thread_closed T M -> copying gens T c before g ->
  (1 <= g <= vwrites E (cell_of (next_sequence_ c)))%nat /\ u64 (Z.of_nat (2 * g)) = Z.of_nat (2 * g).
Proof using Hsi Hpend Kpos Kcap.
  intros Hcl [_ Hg Hseen _]. pose proof (cell_of_lt (next_sequence_ c)) as Hj.
  pose proof (cl_at _ _ (thread_closed_cur _ _ Hcl) (version_v (cell_of (next_sequence_ c)))) as Hlt.
  rewrite (ci_versions _ _ _ _ (si_inv _ _ _ _ _ Hsi)) in Hlt by done.
  destruct (si_cell_writes _ _ _ _ _ _ Hsi Hj) as [Hv Hsum]. pose proof (si_small _ _ _ _ _ Hsi).
  unfold gen_of in Hg. split; [lia |]. apply u64_small. lia.
Qed.

(** A relaxed load of a member of the cell. *)
Lemma field_goes T c d before g f k w' x :
  thread_closed T M -> reading seen T c -> copying gens T c before g ->
  (w', x) ∈ in_cell w (next_sequence_ c) T (fun j => vloading w relaxed (data_v j f) T k) ->
  (forall v T', reading seen T' c -> copying gens T' c before g -> view_le (acq T) (acq T') ->
     loaded X (acq T') (cell_of (next_sequence_ c)) g f v -> reader_rel M X gens seen T' (k v) c d) ->
  read_goes T c d w' x.
Proof using Hsi Hpend Kpos Kcap.
  intros Hcl Hr Hcp Hx Hk. destruct (reading_in_ring T c Hcl Hr) as (Hw & Hix & Hj).
  unfold in_cell in Hx. rewrite Hix, decide_True in Hx by done.
  eapply loading_goes; [exact Hx | done |]. intros v T' Hl Hcl' Hle. left.
  destruct (load_field _ _ _ _ _ _ _ _ _ _ (si_inv _ _ _ _ _ Hsi) (cell_of_lt _)
    (proj1 (copying_gen _ _ _ _ Hcl Hcp)) (cp_knows _ _ _ _ _ Hcp) Hl) as (_ & Hacq & Hld).
  apply Hk; [by eapply reading_le | by eapply copying_le | done | done].
Qed.

Lemma step_load_sequence T c d snap a before w' x :
  thread_closed T M -> reader_rel M X gens seen T (VLoadSequence c d snap a before) c d ->
  (w', x) ∈ weak_read_step w T (VLoadSequence c d snap a before) -> read_goes T c d w' x.
Proof using Hsi Hpend Kpos Kcap.
  intros Hcl (_ & _ & Hr & g & Hcp & Hb) Hx. eapply field_goes; [done | done | exact Hcp | exact Hx |].
  intros v T' Hr' Hcp' Hacq Hld. simpl. split; [done |]. split; [done |]. split; [done |]. exists g.
  split; [done |]. split; [by exists v |]. by apply (copied_bytes_le _ (acq T)).
Qed.

Lemma step_load_size T c d snap a before w' x :
  thread_closed T M -> reader_rel M X gens seen T (VLoadSize c d snap a before) c d ->
  (w', x) ∈ weak_read_step w T (VLoadSize c d snap a before) -> read_goes T c d w' x.
Proof using Hsi Hpend Kpos Kcap.
  intros Hcl (_ & _ & Hr & g & Hcp & Hsq & Hb) Hx. eapply field_goes; [done | done | exact Hcp | exact Hx |].
  intros v T' Hr' Hcp' Hacq Hld. simpl. split; [done |]. split; [done |]. split; [done |]. exists g.
  split; [done |]. split; [by apply (copied_sequence_le _ (acq T)) |]. split; [by exists v |].
  by apply (copied_bytes_le _ (acq T)).
Qed.

Lemma copied_bytes_next V c g n snap v :
  copied_bytes X V c g n snap -> (n < Z.to_nat MaxPayloadSize)%nat ->
  loaded X V (cell_of (next_sequence_ c)) g (f_byte n) v ->
  copied_bytes X V c g (S n)
    (mkSnapshot (stored_sequence snap) (stored_size snap) (<[n := as_octet v]> (scratch snap))).
Proof.
  intros (H1 & H2 & H3) Hn Hld. split; [simpl; by rewrite length_insert |]. split; [lia |]. intros i Hi.
  destruct (decide (i = n)) as [-> | Hne].
  - exists v. split; [| done]. simpl. rewrite list_lookup_insert_eq; [done | lia].
  - destruct (H3 i) as (v' & Hv & Hl); [lia |]. exists v'. split; [| done]. simpl. by rewrite list_lookup_insert_ne.
Qed.

Lemma step_load_byte T c d snap a before n w' x :
  0 <= MaxPayloadSize ->
  thread_closed T M -> reader_rel M X gens seen T (VLoadByte c d snap a before n) c d ->
  (w', x) ∈ weak_read_step w T (VLoadByte c d snap a before n) -> read_goes T c d w' x.
Proof using Hsi Hpend Kpos Kcap.
  intros Hmax Hcl (_ & _ & Hr & g & Hcp & Hsq & Hsz & Hb) Hx. cbn [weak_read_step] in Hx.
  destruct (Z.ltb_spec (Z.of_nat n) MaxPayloadSize) as [Hn | Hn].
  - eapply field_goes; [done | done | exact Hcp | exact Hx |].
    intros v T' Hr' Hcp' Hacq Hld. simpl. split; [done |]. split; [done |]. split; [done |]. exists g.
    split; [done |]. split; [by apply (copied_sequence_le _ (acq T)) |]. split; [by apply (copied_size_le _ (acq T)) |].
    apply copied_bytes_next; [by apply (copied_bytes_le _ (acq T)) | lia | done].
  - apply list_elem_of_fmap in Hx as ([w0 [T0 l0]] & [= -> ->] & Hx). apply list_elem_of_singleton in Hx as [= -> -> ->].
    pose proof (tc_cur _ _ Hcl) as Hle.
    split; [done |]. split; [by apply fence_acquire_closed |]. split; [done |]. eexists. split; [done |]. left. simpl.
    split; [done |]. split; [done |]. split; [by apply (reading_le _ T) |]. exists g.
    split; [by apply (copying_le _ T) |]. split; [done |]. split; [done |].
    destruct Hb as (Hb1 & Hb2 & Hb3). split; [done |]. split; [lia |]. intros i Hi. apply Hb3. lia.
Qed.

(** What a reader does with a copy of exactly one publication. *)
Lemma consume_goes T T' c d snap g p :
  thread_closed T M -> view_le (cur T) (cur T') -> reading seen T c ->
  X !! write_position (cell_of (next_sequence_ c)) g = Some p -> (gen_of (next_sequence_ c) <= g)%nat ->
  (2 * g < length (hist M (version_v (cell_of (next_sequence_ c)))))%nat ->
  stored_sequence snap = u64 (Z.of_nat (S (write_position (cell_of (next_sequence_ c)) g))) ->
  stored_size snap = span_size p -> take (length p) (scratch snap) = p ->
  reader_rel M X gens seen T' (consume c d snap) c d \/ answers (McRead c d) T' (consume c d snap).
Proof using Hsi Hpend Kpos Kcap.
  intros Hcl Hle Hr Hp Hg Hlen Hsq Hsz Htake. pose proof (reading_le _ _ _ _ Hle Hr) as Hr'.
  pose proof (lookup_lt_Some _ _ _ Hp) as Hlt. pose proof (si_small _ _ _ _ _ Hsi). pose proof (si_length _ _ _ _ _ Hsi).
  pose proof (si_ended _ _ _ _ _ Hsi). assert (1 < u64_modulus) by done.
  rewrite u64_small in Hsq by lia. unfold consume. rewrite Hsq, Hsz.
  pose proof (gen_position (next_sequence_ c)) as Hpos. unfold write_position in *.
  destruct Hr as (Hq & k & Hk & Hk' & Hseen & Hkv & Hver). pose proof (seen_published T Hcl) as HkL.
  destruct (Z.eqb_spec (Z.of_nat (S ((g - 1) * K + cell_of (next_sequence_ c)))) (next_sequence_ c)) as [He | Hne]; simpl.
  2: { left. split; [done |]. split; [done |]. split; [done |]. unfold overtaken.
       assert (g <> gen_of (next_sequence_ c)); [| lia]. intros ->. lia. }
  right. assert (Hent : entry (take k L) (next_sequence_ c) = (next_sequence_ c, p)).
  { unfold entry. replace (Z.to_nat (next_sequence_ c - 1)) with ((g - 1) * K + cell_of (next_sequence_ c))%nat by lia.
    rewrite lookup_take_lt by lia. assert (HL : L !! ((g - 1) * K + cell_of (next_sequence_ c))%nat = Some p); [| by rewrite HL].
    destruct (si_log _ _ _ _ _ Hsi) as [HX | [p' HX]]; rewrite HX in Hp; [done |]. rewrite lookup_app_l in Hp; [done | lia]. }
  assert (Hsp : span_size (take k L) = Z.of_nat k) by (unfold span_size; rewrite length_take; lia).
  assert (Hold : (next_sequence_ c <? oldest cap (take k L)) = false).
  { apply Z.ltb_ge. unfold oldest. rewrite Hsp. case_tests; lia. }
  pose proof (vle_at _ _ Hle published_v) as Hpub.
  assert (Hread : forall r c' d', deliver (next_sequence_ c, p) d = (r, d') ->
    c' = (if ok (r_status r) then mkConsumer true (next_sequence_ c + 1) else c) ->
    answers (McRead c d) T' (VDone (McReadDone r c' d'))).
  { intros r c' d' Hd ->. apply (query_answers _ _ k); [done | done | lia | lia |]. constructor. unfold mc_read.
    rewrite Hq, Hsp, Hold, Hent, Hd. simpl. by rewrite (proj2 (Z.ltb_ge _ _)) by lia. }
  destruct (Z.ltb_spec (span_size d) (span_size p)) as [Hshort | Hfit].
  - apply Hread; [by apply deliver_short | done].
  - apply Hread.
    + rewrite deliver_success by done. unfold std_copy_n, span_size. simpl. by rewrite Nat2Z.id, Htake.
    + simpl. rewrite Hq, u64_small by lia. done.
Qed.

Lemma step_load_after T c d snap a before w' x :
  thread_closed T M -> reader_rel M X gens seen T (VLoadAfter c d snap a before) c d ->
  (w', x) ∈ weak_read_step w T (VLoadAfter c d snap a before) -> read_goes T c d w' x.
Proof using Hsi Hpend Kpos Kcap.
  intros Hcl (_ & _ & Hr & g & Hcp & (vq & Hsq & Lq) & (vz & Hsz & Lz) & Hlen & _ & Hbytes) Hx.
  destruct (reading_in_ring T c Hcl Hr) as (Hw & Hix & Hj).
  cbn [weak_read_step] in Hx. unfold in_cell in Hx. rewrite Hix, decide_True in Hx by done.
  eapply loading_goes; [exact Hx | done |]. intros v T' Hl Hcl' Hle.
  pose proof (cell_of_lt (next_sequence_ c)) as HjK.
  destruct (load_after _ _ _ _ _ _ _ _ (si_inv _ _ _ _ _ Hsi) HjK Hl) as (_ & k & -> & Hk).
  pose proof Hk as Hk'. rewrite (ci_versions _ _ _ _ (si_inv _ _ _ _ _ Hsi)) in Hk' by done.
  destruct (si_cell_writes _ _ _ _ _ _ Hsi HjK) as [Hv Hsum]. pose proof (si_small _ _ _ _ _ Hsi).
  assert (Hu : u64 (Z.of_nat k) = Z.of_nat k) by (apply u64_small; lia).
  destruct (copying_gen _ _ _ _ Hcl Hcp) as [Hg Hug]. pose proof (cp_seen _ _ _ _ _ Hcp) as Hseen.
  pose proof (cp_gen _ _ _ _ _ Hcp) as Hgen.
  cbn [as_word]. cbv zeta. rewrite (cp_before _ _ _ _ _ Hcp), Hug, Hu.
  destruct (Z.eqb_spec (Z.of_nat (2 * g)) (Z.of_nat k)) as [He | Hne].
  2: { left. apply retry_rel; [by eapply reading_le | done |]. unfold overtaken. lia. }
  destruct (lookup_lt_is_Some_2 X (write_position (cell_of (next_sequence_ c)) g)) as [p Hp].
  { apply vwrites_spec; [done | lia | lia]. }
  assert (Hpl : (length p <= Z.to_nat MaxPayloadSize)%nat).
  { pose proof (Forall_lookup_1 _ _ _ _ (si_fits _ _ _ _ _ Hsi) Hp) as Hfit. unfold span_size in Hfit. lia. }
  destruct (snapshot_exact X (cur T) (cell_of (next_sequence_ c)) g snap vq vz p) as (E1 & E2 & E3);
    [done | lia | lia | done | done | done | done | intros i Hi; apply Hbytes; lia |].
  eapply consume_goes; [exact Hcl | done | done | done | done | lia | done | done | done].
Qed.

Lemma step_refresh T c d w' x :
  thread_closed T M -> reader_rel M X gens seen T (VRefresh c d) c d ->
  (w', x) ∈ weak_read_step w T (VRefresh c d) -> read_goes T c d w' x.
Proof using Hsi Hpend Kpos Kcap.
  intros Hcl (_ & _ & (Hq & k0 & Hk0 & _ & Hseen & Hkv & _) & Ho) Hx.
  eapply loading_goes; [exact Hx | done |]. intros v T' Hl Hcl' Hle. right.
  destruct (load_published _ _ _ _ _ (si_published _ _ _ _ _ Hsi) Hl) as (_ & k & -> & Hk & HkL & Hver).
  destruct (wv_oldest_known _ _ _ _ _ k Hsi HkL) as (Hold & Hsz & Hu). cbn [as_word]. cbv zeta. rewrite Hold.
  eexists _, (Z.of_nat k). split; [done |]. split; [lia |].
  apply late_lost; [unfold span_size; lia | done | lia | apply overtaken_lost; [lia | done] |].
  unfold mc_lost, known_log. rewrite Nat2Z.id, Hq.
  assert (Hmax : (if next_sequence_ c <? oldest cap (take k L) then oldest cap (take k L) else next_sequence_ c) =
    Z.max (next_sequence_ c) (oldest cap (take k L))) by (case_tests; lia).
  by rewrite Hmax.
Qed.

(** Every step of a read. *)
Lemma weak_reader_step T l c d w' x :
  0 <= MaxPayloadSize -> thread_closed T M -> seen <= Z.of_nat (v_at (cur T) published_v) ->
  reader_rel M X gens seen T l c d -> (w', x) ∈ weak_versioned_step w T l -> read_goes T c d w' x.
Proof using Hsi Hpend Kpos Kcap.
  intros Hmax Hcl Hseen Hrel Hx.
  assert (Hx' : (w', x) ∈ weak_read_step w T l) by (destruct l; try done).
  destruct l; try done.
  - destruct Hrel as [-> ->]. by apply step_read_start.
  - destruct Hrel as (-> & -> & Hq). by apply step_load_published.
  - pose proof Hrel as (-> & -> & _). by eapply step_load_before.
  - pose proof Hrel as (-> & -> & _). by eapply step_load_sequence.
  - pose proof Hrel as (-> & -> & _). by eapply step_load_size.
  - pose proof Hrel as (-> & -> & _). by eapply step_load_byte.
  - pose proof Hrel as (-> & -> & _). by eapply step_load_after.
  - pose proof Hrel as (-> & -> & _). by eapply step_refresh.
Qed.

End reader_steps.

(** ** Steps of the producer *)

(** The publications whose write has begun and the number of those that have ended,
    from the log and where the producer is. *)
Definition started (L : log) (l : versioned_pc) : log :=
  match l with
  | VStoreSequence p _ _ | VStoreSize p _ _ | VStoreByte p _ _ _ | VStoreEven p _ _
  | VStoreProduced p _ | VStorePublished p _ => L ++ [p]
  | _ => L
  end.

Definition ended (L : log) (l : versioned_pc) : nat :=
  match l with VStoreProduced _ _ | VStorePublished _ _ => S (length L) | _ => length L end.

Definition produced_by (L : log) (l : versioned_pc) : Z :=
  match l with VStorePublished _ _ => u64 (Z.of_nat (S (length L))) | _ => u64 (Z.of_nat (length L)) end.

Record producer_state (w : weak_versioned) (gens : nat -> field -> list nat) (T : vview) (L : log) (l : versioned_pc)
    : Prop := {
  ps_shared : shared_inv w L (started L l) (ended L l) gens;
  ps_closed : thread_closed T (wv_memory w);
  ps_owner : owner (wv_memory w) T;
  ps_produced : wv_produced w = produced_by L l;
}.

(** The member has been stored by the current write. *)
Definition stored (gens : nat -> field -> list nat) (L : log) (f : field) : Prop :=
  exists k, gens (length L mod K)%nat f !! k = Some (S (length L / K)).

(** The version is odd as far as every later relaxed store tells. *)
Definition odd_released (T : vview) (L : log) : Prop :=
  (2 * S (length L / K) - 1 <= v_at (rel T) (version_v (length L mod K)))%nat.

Definition publishing (L : log) (p p' : list byte) (sequence : Z) : Prop :=
  p' = p /\ span_size p <= MaxPayloadSize /\ sequence = u64 (Z.of_nat (S (length L))).

Definition publisher_rel (gens : nat -> field -> list nat) (T : vview) (L : log) (l : versioned_pc) (p : list byte) : Prop :=
  match l with
  | VPublishStart p' => p' = p
  | VLoadVersion p' sequence | VStoreProduced p' sequence | VStorePublished p' sequence => publishing L p p' sequence
  | VStoreOdd p' sequence ver => publishing L p p' sequence /\ ver = u64 (Z.of_nat (2 * (length L / K)))
  | VStoreSequence p' sequence ver =>
      publishing L p p' sequence /\ ver = u64 (Z.of_nat (2 * (length L / K))) /\ odd_released T L
  | VStoreSize p' sequence ver =>
      publishing L p p' sequence /\ ver = u64 (Z.of_nat (2 * (length L / K))) /\ odd_released T L /\ stored gens L f_sequence
  | VStoreByte p' sequence ver n =>
      publishing L p p' sequence /\ ver = u64 (Z.of_nat (2 * (length L / K))) /\ odd_released T L /\
      stored gens L f_sequence /\ stored gens L f_size /\ forall i, (i < n)%nat -> stored gens L (f_byte i)
  | VStoreEven p' sequence ver =>
      publishing L p p' sequence /\ ver = u64 (Z.of_nat (2 * (length L / K))) /\
      forall f, field_value p (length L) f <> None -> stored gens L f
  | _ => False
  end.

(** What the other threads may notice. *)
Record grows (w w' : weak_versioned) (X X' : log) (E : nat) (gens gens' : nat -> field -> list nat) : Prop := {
  gr_memory : extends (wv_memory w) (wv_memory w');
  gr_log : X' = X \/ exists p, X' = X ++ [p];
  gr_gens : forall j f k g, (j < K)%nat -> (g <= vwrites E j)%nat -> gens' j f !! k = Some g -> gens j f !! k = Some g;
}.

Lemma grows_same w X E gens : grows w w X X E gens gens.
Proof. by split; [| left |]. Qed.

Lemma reader_rel_grows w w' L X X' E gens gens' seen T l c d :
  shared_inv w L X E gens -> thread_closed T (wv_memory w) -> grows w w' X X' E gens gens' ->
  reader_rel (wv_memory w) X gens seen T l c d -> reader_rel (wv_memory w') X' gens' seen T l c d.
Proof using Kpos Kcap.
  intros Hsi Hcl [Hm Hx Hg] Hr. pose proof (cell_of_lt (next_sequence_ c)) as Hj.
  assert (Hov : overtaken (wv_memory w) c -> overtaken (wv_memory w') c).
  { unfold overtaken. intros Ho. eapply Nat.lt_le_trans; [exact Ho |]. apply prefix_length, (ex_hist _ _ Hm). }
  assert (Hcp : forall before g, copying gens T c before g ->
    copying gens' T c before g /\ (1 <= g <= vwrites (length X) (cell_of (next_sequence_ c)))%nat).
  { intros before g Hcp. assert (Hb : (1 <= g <= vwrites E (cell_of (next_sequence_ c)))%nat).
    { pose proof (si_cell_writes _ _ _ _ _ _ Hsi Hj) as [Hv _].
      pose proof (cl_at _ _ (thread_closed_cur _ _ Hcl) (version_v (cell_of (next_sequence_ c)))) as Hlt.
      rewrite (ci_versions _ _ _ _ (si_inv _ _ _ _ _ Hsi)) in Hlt by done.
      pose proof (cp_gen _ _ _ _ _ Hcp). pose proof (cp_seen _ _ _ _ _ Hcp). unfold gen_of in *. lia. }
    pose proof (si_cell_writes _ _ _ _ _ _ Hsi Hj) as [Hv _]. split; [| lia].
    destruct Hcp as [H1 H2 H3 H4]. split; [done | done | done |]. intros f k Hk. apply (H4 f k). apply Hg; [done | lia | done]. }
  assert (Hld : forall V g f v, (1 <= g <= vwrites (length X) (cell_of (next_sequence_ c)))%nat ->
    loaded X V (cell_of (next_sequence_ c)) g f v -> loaded X' V (cell_of (next_sequence_ c)) g f v).
  { intros V g f v Hb Hl. destruct Hx as [-> | [p ->]]; [done | by apply loaded_app]. }
  assert (Hsq : forall V g snap, (1 <= g <= vwrites (length X) (cell_of (next_sequence_ c)))%nat ->
    copied_sequence X V c g snap -> copied_sequence X' V c g snap).
  { intros V g snap Hb (v & H1 & H2). exists v. auto. }
  assert (Hsz : forall V g snap, (1 <= g <= vwrites (length X) (cell_of (next_sequence_ c)))%nat ->
    copied_size X V c g snap -> copied_size X' V c g snap).
  { intros V g snap Hb (v & H1 & H2). exists v. auto. }
  assert (Hby : forall V g n snap, (1 <= g <= vwrites (length X) (cell_of (next_sequence_ c)))%nat ->
    copied_bytes X V c g n snap -> copied_bytes X' V c g n snap).
  { intros V g n snap Hb (H1 & H2 & H3). split; [done |]. split; [done |]. intros i Hi.
    destruct (H3 i Hi) as (v & Hv & Hl). exists v. auto. }
  destruct l; try exact Hr; destruct Hr as (-> & -> & Hr & Hrest); simpl; (split; [done |]); (split; [done |]);
    (split; [done |]).
  - destruct Hrest as [Hlen [Ha | Ho]]; auto.
  - destruct Hrest as (g & Hc & Hb). destruct (Hcp _ _ Hc). exists g. auto.
  - destruct Hrest as (g & Hc & Hs & Hb). destruct (Hcp _ _ Hc). exists g. auto.
  - destruct Hrest as (g & Hc & Hs & Hz & Hb). destruct (Hcp _ _ Hc). exists g. split_and!; auto.
  - destruct Hrest as (g & Hc & Hs & Hz & Hb). destruct (Hcp _ _ Hc). exists g. split_and!; auto.
  - auto.
Qed.

Definition count (L : log) (l : versioned_pc) : nat := (ended L l + length (started L l))%nat.

(** A step of the producer inside [try_publish]: it goes on, or its call takes effect. *)
Definition publisher_goes (w : weak_versioned) (gens : nat -> field -> list nat) (T : vview) (L : log) (l : versioned_pc)
    (p : list byte) (w' : weak_versioned) (x : vview * weak_vpc) : Prop :=
  exists T' l' gens' L', x = (T', AtV l') /\ view_le (cur T) (cur T') /\ producer_state w' gens' T' L' l' /\
    grows w w' (started L l) (started L' l') (ended L l) gens gens' /\ (count L' l' <= S (count L l))%nat /\
    ((L' = L /\ publisher_rel gens' T' L l' p) \/
     exists r, l' = VDone (McWritten r) /\ mc_publish MaxPayloadSize L p = (r, L')).

Lemma storing_spec w o l v T next w' x :
  owner (wv_memory w) T -> thread_closed T (wv_memory w) -> memory_wf (wv_memory w) ->
  (w', x) ∈ vstoring w o l v T next ->
  let M' := appended (wv_memory w) o l v T in
  w' = wv_with_memory w M' /\
  exists T', x = (T', AtV next) /\ rel T' = rel T /\ view_le (cur T) (cur T') /\ thread_closed T' M' /\ memory_wf M' /\
    owner M' T' /\ extends (wv_memory w) M' /\ v_at (cur T') l = length (hist (wv_memory w) l).
Proof.
  intros Ho Hcl Hwf Hx M'. destruct (owner_store _ _ o l v Ho) as [Hst Ho']. unfold vstoring in Hx. rewrite Hst in Hx.
  apply list_elem_of_singleton in Hx as [= -> ->]. split; [done |]. eexists. split; [done |]. split; [done |].
  split; [apply view_join_l |]. destruct (store_closed _ _ _ _ _ _ _ Hwf Hcl Hst) as [Hwf' Hcl'].
  split; [done |]. split; [done |]. split; [done |]. split; [by eapply store_extends |].
  specialize (Ho l). simpl. rewrite update_same. lia.
Qed.

Section publisher_steps.

Context (w : weak_versioned) (gens : nat -> field -> list nat) (T : vview) (L : log) (p : list byte).

(** The producer's cell. *)
Lemma producer_cell l sequence :
  producer_state w gens T L l -> Z.of_nat (S (count L l)) < u64_modulus -> (length L <= ended L l)%nat ->
  publishing L p p sequence ->
  forall f, in_cell w sequence T f = f (length L mod K)%nat.
Proof using Kpos Kcap.
  intros Hs Hb He (_ & _ & ->) f. pose proof (si_length _ _ _ _ _ (ps_shared _ _ _ _ _ Hs)).
  assert (1 < u64_modulus) by done. unfold count in Hb.
  rewrite u64_small by lia. unfold in_cell.
  destruct (wv_index_cell _ _ _ _ _ (Z.of_nat (S (length L))) (ps_shared _ _ _ _ _ Hs)) as [-> Hlt]; [lia |].
  rewrite decide_True by done. unfold cell_of. f_equal. f_equal. lia.
Qed.

(** A relaxed store of a member of the cell being written. *)
Lemma field_stored l l' f v w' x :
  producer_state w gens T L l -> Z.of_nat (S (count L l)) < u64_modulus ->
  started L l = L ++ [p] -> ended L l = length L -> started L l' = L ++ [p] -> ended L l' = length L ->
  produced_by L l' = produced_by L l ->
  field_value p (length L) f = Some v -> odd_released T L ->
  (w', x) ∈ vstoring w relaxed (data_v (length L mod K) f) v T l' ->
  (forall T' gens', odd_released T' L -> stored gens' L f -> (forall f', stored gens L f' -> stored gens' L f') ->
     publisher_rel gens' T' L l' p) ->
  publisher_goes w gens T L l p w' x.
Proof using Kpos Kcap.
  intros Hs Hb Hst Hen Hst' Hen' Hpr Hv Hodd Hx Hrel. pose proof (ps_shared _ _ _ _ _ Hs) as Hsi.
  apply storing_spec in Hx as (-> & T' & -> & Hrl & Hle & Hcl' & Hwf' & Ho' & Hext & _);
    [| apply (ps_owner _ _ _ _ _ Hs) | apply (ps_closed _ _ _ _ _ Hs) | apply (si_wf _ _ _ _ _ Hsi)].
  rewrite Hst, Hen in Hsi.
  exists T', l', (extend gens (length L mod K) f (S (length L / K))), L. split; [done |]. split; [done |].
  split; [| split; [| split; [unfold count; rewrite Hst, Hen, Hst', Hen'; lia | left; split; [done |]]]].
  - split; [| done | done | rewrite Hpr; apply (ps_produced _ _ _ _ _ Hs)]. rewrite Hst', Hen'.
    destruct Hsi. split; simpl; try done; [by apply published_inv_other | by apply cells_inv_field].
  - rewrite Hst, Hst', Hen. split; [done | by left |]. intros j f' k g Hj Hg Hk.
    apply extend_lookup in Hk as [Hk | (-> & -> & _ & ->)]; [done |]. rewrite vwrites_here in Hg. lia.
  - apply Hrel; [unfold odd_released; by rewrite Hrl | |].
    + exists (length (gens (length L mod K)%nat f)). unfold extend. rewrite decide_True by done.
      by rewrite lookup_app_r, Nat.sub_diag by lia.
    + intros f' [k Hk]. exists k. by apply extend_old.
Qed.

Lemma step_publish_start p' w' x :
  producer_state w gens T L (VPublishStart p') -> publisher_rel gens T L (VPublishStart p') p ->
  Z.of_nat (S (count L (VPublishStart p'))) < u64_modulus ->
  (w', x) ∈ weak_publish_step w T (VPublishStart p') -> publisher_goes w gens T L (VPublishStart p') p w' x.
Proof using Kpos Kcap.
  intros Hs -> Hb Hx. simpl in Hx. destruct Hs as [Hsi Hcl Ho Hpr].
  destruct (Z.ltb_spec MaxPayloadSize (span_size p)) as [Hbig | Hfit]; inv_outcome Hx.
  - eexists T, (VDone (McWritten (mkWrite message_too_large 0))), gens, L. split; [done |]. split; [done |].
    split; [by split |]. split; [apply grows_same |]. split; [unfold count; simpl; lia |].
    right. eexists. split; [done |]. unfold mc_publish. by rewrite (proj2 (Z.ltb_lt _ _)).
  - exists T, (VLoadVersion p (wv_produced w +u 1)), gens, L. split; [done |]. split; [done |].
    split; [by split |]. split; [apply grows_same |]. split; [unfold count; simpl; lia |].
    left. split; [done |]. simpl. split; [done |]. split; [done |]. rewrite Hpr. simpl. rewrite u64_add_l. u64_eq.
Qed.

Lemma step_load_version p' sequence w' x :
  producer_state w gens T L (VLoadVersion p' sequence) -> publisher_rel gens T L (VLoadVersion p' sequence) p ->
  Z.of_nat (S (count L (VLoadVersion p' sequence))) < u64_modulus ->
  (w', x) ∈ weak_publish_step w T (VLoadVersion p' sequence) -> publisher_goes w gens T L (VLoadVersion p' sequence) p w' x.
Proof using Kpos Kcap.
  intros Hs Hrel Hb Hx. pose proof Hrel as (-> & Hfit & Hseq). cbn [weak_publish_step] in Hx.
  rewrite (producer_cell _ _ Hs Hb ltac:(done)) in Hx by done.
  apply vloading_inv in Hx as (v & T' & Hl & -> & ->). destruct Hs as [Hsi Hcl Ho Hpr].
  pose proof (load_closed _ _ _ _ _ _ (si_wf _ _ _ _ _ Hsi) Hcl Hl) as Hcl'.
  assert (Hj : (length L mod K < K)%nat) by (apply Nat.mod_upper_bound; lia).
  destruct (load_after _ _ _ _ _ _ _ _ (si_inv _ _ _ _ _ Hsi) Hj Hl) as (Hle & k & -> & Hk).
  assert (Ho' : owner (wv_memory w) T').
  { intros l. pose proof (cl_at _ _ (thread_closed_cur _ _ Hcl') l). specialize (Ho l). pose proof (vle_at _ _ Hle l). lia. }
  exists T', (VStoreOdd p sequence (u64 (Z.of_nat k))), gens, L. split; [done |]. split; [done |].
  split; [by split |]. split; [apply grows_same |]. split; [unfold count; simpl; lia |]. left. split; [done |].
  split; [done |]. do 2 f_equal. specialize (Ho (version_v (length L mod K))).
  rewrite (ci_versions _ _ _ _ (si_inv _ _ _ _ _ Hsi)) in Hk, Ho by done. simpl in Hk, Ho. rewrite vwrites_here in Hk, Ho. lia.
Qed.

Lemma step_store_odd p' sequence ver w' x :
  let l := VStoreOdd p' sequence ver in
  producer_state w gens T L l -> publisher_rel gens T L l p -> Z.of_nat (S (count L l)) < u64_modulus ->
  (w', x) ∈ weak_publish_step w T l -> publisher_goes w gens T L l p w' x.
Proof using Kpos Kcap.
  intros l Hs Hrel Hb Hx. pose proof Hrel as ((-> & Hfit & Hseq) & Hver). unfold l in Hx. cbn [weak_publish_step] in Hx.
  rewrite (producer_cell _ _ Hs Hb ltac:(done)) in Hx by done.
  apply list_elem_of_fmap in Hx as ([w0 [T0 l0]] & [= -> ->] & Hx). pose proof (ps_shared _ _ _ _ _ Hs) as Hsi.
  apply storing_spec in Hx as (-> & T' & [= -> ->] & Hrl & Hle & Hcl' & Hwf' & Ho' & Hext & Hat);
    [| apply (ps_owner _ _ _ _ _ Hs) | apply (ps_closed _ _ _ _ _ Hs) | apply (si_wf _ _ _ _ _ Hsi)].
  simpl in Hsi, Hat, Hle. exists (fence_release T'), (VStoreSequence p sequence ver), gens, L.
  split; [done |]. split; [done |].
  assert (Hj : (length L mod K < K)%nat) by (apply Nat.mod_upper_bound; lia).
  assert (Hlen : length (hist (wv_memory w) (version_v (length L mod K))) = S (2 * (length L / K))).
  { rewrite (ci_versions _ _ _ _ (si_inv _ _ _ _ _ Hsi)) by done. rewrite vwrites_here. lia. }
  assert (Hv1 : ver +u 1 = u64 (Z.of_nat (S (2 * (length L / K))))).
  { rewrite Hver, u64_add_l. u64_eq. }
  unfold count in *. simpl in Hb.
  split; [| split; [| split; [simpl; rewrite length_app; simpl; lia | left; split; [done |]]]].
  - split; [| by apply fence_release_closed | done | apply (ps_produced _ _ _ _ _ Hs)]. simpl.
    destruct Hsi. split; simpl; rewrite ?length_app; simpl; try done; try lia.
    + by apply published_inv_other.
    + apply cells_inv_begin; [done | by rewrite Hv1].
    + right. by exists p.
    + apply Forall_app. split; [done | by constructor].
  - simpl. split; [done | right; by exists p | done].
  - split; [done |]. split; [done |]. unfold odd_released. simpl. rewrite Hat, Hlen. lia.
Qed.

Lemma step_store_sequence p' sequence ver w' x :
  let l := VStoreSequence p' sequence ver in
  producer_state w gens T L l -> publisher_rel gens T L l p -> Z.of_nat (S (count L l)) < u64_modulus ->
  (w', x) ∈ weak_publish_step w T l -> publisher_goes w gens T L l p w' x.
Proof using Kpos Kcap.
  intros l Hs Hrel Hb Hx. pose proof Hrel as ((-> & Hfit & Hseq) & Hver & Hodd). unfold l in Hx. cbn [weak_publish_step] in Hx.
  rewrite (producer_cell _ _ Hs Hb ltac:(done)) in Hx by done.
  eapply field_stored with (l' := VStoreSize p sequence ver); [done | done | done | done | done | done | done | | done | exact Hx |].
  - simpl. by rewrite Hseq.
  - intros T' gens' Hodd' Hst Hold. by split_and!.
Qed.

Lemma step_store_size p' sequence ver w' x :
  let l := VStoreSize p' sequence ver in
  producer_state w gens T L l -> publisher_rel gens T L l p -> Z.of_nat (S (count L l)) < u64_modulus ->
  (w', x) ∈ weak_publish_step w T l -> publisher_goes w gens T L l p w' x.
Proof using Kpos Kcap.
  intros l Hs Hrel Hb Hx. pose proof Hrel as ((-> & Hfit & Hseq) & Hver & Hodd & Hsq). unfold l in Hx. cbn [weak_publish_step] in Hx.
  rewrite (producer_cell _ _ Hs Hb ltac:(done)) in Hx by done.
  eapply field_stored with (l' := VStoreByte p sequence ver 0) (f := f_size) (v := word (span_size p)); [done | done | done | done | done | done | done | done | done | exact Hx |].
  intros T' gens' Hodd' Hst Hold. split_and!; auto; [by split | intros i Hi; lia].
Qed.

Lemma step_store_byte p' sequence ver n w' x :
  let l := VStoreByte p' sequence ver n in
  producer_state w gens T L l -> publisher_rel gens T L l p -> Z.of_nat (S (count L l)) < u64_modulus ->
  (w', x) ∈ weak_publish_step w T l -> publisher_goes w gens T L l p w' x.
Proof using Kpos Kcap.
  intros l Hs Hrel Hb Hx. pose proof Hrel as ((-> & Hfit & Hseq) & Hver & Hodd & Hsq & Hsz & Hby).
  unfold l in Hx. cbn [weak_publish_step] in Hx. destruct (p !! n) as [b |] eqn:Hn.
  - rewrite (producer_cell _ _ Hs Hb ltac:(done)) in Hx by done.
    rewrite (proj2 (Z.ltb_lt _ _)) in Hx by (apply lookup_lt_Some in Hn; unfold span_size in Hfit; lia).
    eapply field_stored with (l' := VStoreByte p sequence ver (S n)); [done | done | done | done | done | done | done | | done | exact Hx |].
    + simpl. by rewrite Hn.
    + intros T' gens' Hodd' Hst Hold. split_and!; auto; [by split |]. intros i Hi.
      destruct (decide (i = n)) as [-> | Hne]; [done |]. apply Hold, Hby. lia.
  - apply list_elem_of_fmap in Hx as ([w0 [T0 l0]] & [= -> ->] & Hx). apply list_elem_of_singleton in Hx as [= -> -> ->].
    destruct Hs as [Hsi Hcl Ho Hpr].
    exists (fence_release T), (VStoreEven p sequence ver), gens, L. split; [done |]. split; [done |].
    split; [by split; [| apply fence_release_closed | |] |]. split; [apply grows_same |]. split; [unfold count; simpl; lia |].
    left. split; [done |]. split; [done |]. split; [done |]. intros [| | i] Hf; [done | done |]. simpl in Hf.
    apply Hby. apply lookup_ge_None in Hn. destruct (p !! i) eqn:Hi; [| done]. apply lookup_lt_Some in Hi. lia.
Qed.

Lemma step_store_even p' sequence ver w' x :
  let l := VStoreEven p' sequence ver in
  producer_state w gens T L l -> publisher_rel gens T L l p -> Z.of_nat (S (count L l)) < u64_modulus ->
  (w', x) ∈ weak_publish_step w T l -> publisher_goes w gens T L l p w' x.
Proof using Kpos Kcap.
  intros l Hs Hrel Hb Hx. pose proof Hrel as ((-> & Hfit & Hseq) & Hver & Hdone). unfold l in Hx. cbn [weak_publish_step] in Hx.
  rewrite (producer_cell _ _ Hs Hb ltac:(done)) in Hx by done. pose proof (ps_shared _ _ _ _ _ Hs) as Hsi.
  apply storing_spec in Hx as (-> & T' & -> & Hrl & Hle & Hcl' & Hwf' & Ho' & Hext & Hat);
    [| apply (ps_owner _ _ _ _ _ Hs) | apply (ps_closed _ _ _ _ _ Hs) | apply (si_wf _ _ _ _ _ Hsi)].
  pose proof (ps_owner _ _ _ _ _ Hs) as Ho. simpl in Hsi. unfold count in Hb. simpl in Hb.
  assert (Hv2 : ver +u 2 = u64 (Z.of_nat (2 * S (length L / K)))).
  { rewrite Hver, u64_add_l. u64_eq. }
  exists T', (VStoreProduced p sequence), gens, L. split; [done |]. split; [done |].
  split; [| split; [| split; [unfold count; simpl; lia | left; split; [done | done]]]].
  - split; [| done | done | apply (ps_produced _ _ _ _ _ Hs)]. simpl.
    destruct Hsi. rewrite length_app in *. simpl in *. split; simpl; rewrite ?length_app; simpl; try done; try lia.
    + by apply published_inv_other.
    + apply cells_inv_end; [done | done | by rewrite Hv2 |]. intros f Hf. apply Hdone. unfold field_of in Hf.
      rewrite write_position_div, lookup_app_r, Nat.sub_diag in Hf by lia. done.
  - simpl. split; [done | by left | done].
Qed.

Lemma step_store_produced p' sequence w' x :
  let l := VStoreProduced p' sequence in
  producer_state w gens T L l -> publisher_rel gens T L l p -> Z.of_nat (S (count L l)) < u64_modulus ->
  (w', x) ∈ weak_publish_step w T l -> publisher_goes w gens T L l p w' x.
Proof using Kpos Kcap.
  intros l Hs Hrel Hb Hx. pose proof Hrel as (-> & Hfit & Hseq). apply list_elem_of_singleton in Hx as [= -> ->].
  destruct Hs as [Hsi Hcl Ho Hpr]. exists T, (VStorePublished p sequence), gens, L. split; [done |]. split; [done |].
  split; [| split; [by split; [| left |] | split; [unfold count; simpl; lia | by left]]].
  split; [| done | done | done]. destruct Hsi. by split.
Qed.

Lemma step_store_published p' sequence w' x :
  let l := VStorePublished p' sequence in
  producer_state w gens T L l -> publisher_rel gens T L l p -> Z.of_nat (S (count L l)) < u64_modulus ->
  (w', x) ∈ weak_publish_step w T l -> publisher_goes w gens T L l p w' x.
Proof using Kpos Kcap.
  intros l Hs Hrel Hb Hx. pose proof Hrel as (-> & Hfit & Hseq). unfold l in Hx. cbn [weak_publish_step] in Hx.
  pose proof (ps_shared _ _ _ _ _ Hs) as Hsi.
  apply storing_spec in Hx as (-> & T' & -> & Hrl & Hle & Hcl' & Hwf' & Ho' & Hext & Hat);
    [| apply (ps_owner _ _ _ _ _ Hs) | apply (ps_closed _ _ _ _ _ Hs) | apply (si_wf _ _ _ _ _ Hsi)].
  pose proof (ps_owner _ _ _ _ _ Hs) as Ho. simpl in Hsi. unfold count in Hb. simpl in Hb. rewrite length_app in Hb. simpl in Hb.
  exists T', (VDone (McWritten (mkWrite success sequence))), gens, (L ++ [p]). split; [done |]. split; [done |].
  assert (Hlen : length (L ++ [p]) = S (length L)) by (rewrite length_app; simpl; lia).
  split; [| split; [| split; [unfold count; simpl; rewrite Hlen; lia | right]]].
  - split; [| done | done |]; simpl.
    + rewrite Hlen. destruct Hsi. rewrite Hlen in *. split; simpl; rewrite ?Hlen; try done; try lia.
      * eapply published_inv_append; [done | done | done | done | by rewrite Hseq].
      * by apply cells_inv_published.
      * by left.
    + rewrite Hlen. apply (ps_produced _ _ _ _ _ Hs).
  - simpl. split; [done | by left | done].
  - eexists. split; [done |]. unfold mc_publish. rewrite (proj2 (Z.ltb_ge _ _)) by lia.
    rewrite Hseq, u64_small by lia. do 2 f_equal. unfold span_size. lia.
Qed.

Lemma weak_publisher_step l w' x :
  producer_state w gens T L l -> publisher_rel gens T L l p -> Z.of_nat (S (count L l)) < u64_modulus ->
  (w', x) ∈ weak_versioned_step w T l -> publisher_goes w gens T L l p w' x.
Proof using Kpos Kcap.
  intros Hs Hrel Hb Hx.
  assert (Hx' : (w', x) ∈ weak_publish_step w T l).
  { destruct l; try done; simpl in Hx |- *; by rewrite app_nil_r in Hx. }
  destruct l; try done.
  - by apply step_publish_start.
  - by apply step_load_version.
  - by apply step_store_odd.
  - by apply step_store_sequence.
  - by apply step_store_size.
  - by apply step_store_byte.
  - by apply step_store_even.
  - by apply step_store_produced.
  - by apply step_store_published.
Qed.

End publisher_steps.

(** ** The simulation *)

Definition by_thread (t : nat) (st : status McOp McRes) : status (nat * McOp) McRes :=
  match st with Idle => Idle | Called o => Called (t, o) | Finished r => Finished r end.

Definition pc_rel (M : vmemory) (X : log) (gens : nat -> field -> list nat) (s : late_log) (t : nat) (T : vview)
    (l : versioned_pc) (st : status McOp McRes) : Prop :=
  match st with
  | Idle => l = VIdle
  | Called (McPublish p) => t = 0%nat /\ publisher_rel gens T (published_log s) l p
  | Called McRegister => l = VRegisterStart
  | Called McPublished => l = VPublishedStart
  | Called (McRead c d) => reader_rel M X gens (seen_by s t) T l c d
  | Finished r => l = VDone r
  end.

(** What is known of thread [t], whose call has the status [cst]. *)
Record vthread_rel (w : weak_versioned) (X : log) (gens : nat -> field -> list nat) (s : late_log) (t : nat)
    (th : weak_vthread) (cst : status (nat * McOp) McRes) : Prop := {
  tr_id : vt_id th = t;
  tr_producer : vt_producer th = bool_decide (t = 0%nat);
  tr_closed : thread_closed (vt_view th) (wv_memory w);
  tr_seen : seen_by s t <= Z.of_nat (v_at (cur (vt_view th)) published_v);
  tr_pc : exists l st, vt_pc th = AtV l /\ cst = by_thread t st /\ pc_rel (wv_memory w) X gens s t (vt_view th) l st;
}.

Definition versioned_sim (n : nat) (p : pool weak_versioned weak_vthread)
    (c : pool late_log (status (nat * McOp) McRes)) : Prop :=
  exists T0 l0 gens b, threads p !! 0%nat = Some (mkVThread 0 b T0 (AtV l0)) /\
    producer_state (shared p) gens T0 (published_log (shared c)) l0 /\
    (count (published_log (shared c)) l0 <= n)%nat /\
    threads_related (vthread_rel (shared p) (started (published_log (shared c)) l0) gens (shared c)) (threads p) (threads c).

Abbreviation late_step := (canon_step (late_spec MaxPayloadSize cap)).

(** A thread that is not publishing. *)
Definition quiet (l : versioned_pc) : Prop :=
  forall L, started L l = L /\ ended L l = length L /\ produced_by L l = u64 (Z.of_nat (length L)).

Lemma reader_quiet M X gens seen T l c d : reader_rel M X gens seen T l c d -> quiet l.
Proof. by destruct l. Qed.

Lemma answers_quiet cs s t o T l : answers cs s t o T l -> quiet l.
Proof. by intros (r & k & -> & _). Qed.

(** A message being written belongs to a call of the producer. *)
Lemma writing_pending w X gens s ths cs T0 l0 b :
  ths !! 0%nat = Some (mkVThread 0 b T0 (AtV l0)) -> threads_related (vthread_rel w X gens s) ths cs ->
  length (started (published_log s) l0) = S (length (published_log s)) -> late_pending MaxPayloadSize cs.
Proof.
  intros H0 Hrel Hlen. destruct (threads_related_lookup _ _ _ _ _ Hrel H0) as (cst & Hc & [_ _ _ _ (l & st & Hl & -> & Hpc)]).
  injection Hl as <-. simpl in Hpc.
  assert (Hq : ~ quiet l0) by (intros Hq; destruct (Hq (published_log s)) as [E _]; rewrite E in Hlen; lia).
  destruct st as [| [p | | c d |] | r]; simpl in Hpc; try (subst l0; by destruct Hq).
  - destruct Hpc as [_ Hp]. exists 0%nat, 0%nat, p. split; [done |].
    destruct l0; simpl in Hlen; try lia; simpl in Hp; unfold publishing in Hp; tauto.
  - by apply reader_quiet in Hpc.
Qed.

(** Other threads' view of a producer step. *)
Lemma vthread_rel_grows w w' L X X' E gens gens' s s' t th cst :
  shared_inv w L X E gens -> grows w w' X X' E gens gens' -> t <> 0%nat -> seen_by s' t = seen_by s t ->
  vthread_rel w X gens s t th cst -> vthread_rel w' X' gens' s' t th cst.
Proof using Kpos Kcap.
  intros Hsi Hg Ht Hseen [H1 H2 H3 H4 (l & st & H5 & H6 & H7)].
  split; [done | done | | by rewrite Hseen |].
  - eapply thread_closed_extends; [apply (gr_memory _ _ _ _ _ _ _ Hg) | done].
  - exists l, st. split; [done |]. split; [done |]. destruct st as [| [p | | c d |] | r]; simpl in *; try done.
    + by destruct H7.
    + rewrite Hseen. by eapply reader_rel_grows.
Qed.

(** Nothing but the counts of another thread has changed. *)
Lemma vthread_rel_seen w X gens s t k t' th cst :
  t' <> t -> vthread_rel w X gens s t' th cst ->
  vthread_rel w X gens (mkLate (published_log s) (update (seen_by s) t k)) t' th cst.
Proof.
  intros Ht [H1 H2 H3 H4 (l & st & H5 & H6 & H7)].
  split; [done | done | done | simpl; by rewrite update_other |].
  exists l, st. split; [done |]. split; [done |]. destruct st as [| [p | | c d |] | r]; simpl in *; try done.
  by rewrite update_other.
Qed.

(** The producer's state survives a step in which it does not write. *)
Lemma producer_state_quiet w gens T T' L l l' :
  producer_state w gens T L l -> quiet l -> quiet l' -> view_le (cur T) (cur T') -> thread_closed T' (wv_memory w) ->
  producer_state w gens T' L l' /\ count L l' = count L l /\ started L l' = started L l.
Proof.
  intros [H1 H2 H3 H4] Hq Hq' Hle Hcl. destruct (Hq L) as (E1 & E2 & E3), (Hq' L) as (E1' & E2' & E3').
  unfold count. rewrite E1, E2, E1', E2'. split; [| done]. split; rewrite ?E1', ?E2', ?E3'; rewrite ?E1, ?E2, ?E3 in *; try done.
  intros v. pose proof (cl_at _ _ (thread_closed_cur _ _ Hcl) v). specialize (H3 v). pose proof (vle_at _ _ Hle v). lia.
Qed.

(** A thread that is not writing moves from [l] to [l']. *)
Lemma versioned_sim_install n w s s' ths cs T0 l0 gens b0 t b T l T' l' cst' :
  let L := published_log s in
  ths !! 0%nat = Some (mkVThread 0 b0 T0 (AtV l0)) -> producer_state w gens T0 L l0 -> (count L l0 <= n)%nat ->
  threads_related (vthread_rel w (started L l0) gens s) ths cs ->
  ths !! t = Some (mkVThread t b T (AtV l)) -> quiet l -> quiet l' ->
  view_le (cur T) (cur T') -> thread_closed T' (wv_memory w) -> published_log s' = L ->
  (forall t' th cst, t' <> t -> vthread_rel w (started L l0) gens s t' th cst -> vthread_rel w (started L l0) gens s' t' th cst) ->
  vthread_rel w (started L l0) gens s' t (mkVThread t b T' (AtV l')) cst' ->
  versioned_sim (S n) (mkPool w (<[t := mkVThread t b T' (AtV l')]> ths)) (mkPool s' (<[t := cst']> cs)).
Proof.
  intros L H0 Hps Hn Hrel Ht Hq Hq' Hle Hcl Hlog Hother Hnew. unfold versioned_sim. simpl. rewrite Hlog.
  assert (Hrel' : threads_related (vthread_rel w (started L l0) gens s')
    (<[t := mkVThread t b T' (AtV l')]> ths) (<[t := cst']> cs)).
  { eapply threads_related_update; [exact Hrel | | done]. intros t' x y Hne _ _. by apply Hother. }
  destruct (decide (t = 0%nat)) as [-> | Hne].
  - rewrite H0 in Ht. injection Ht as -> -> ->.
    destruct (producer_state_quiet w gens T T' L l l' Hps Hq Hq' Hle Hcl) as (Hps' & Hc & Hst).
    exists T', l', gens, b. rewrite Hst, Hc. split; [| split_and!; [done | lia | done]].
    apply list_lookup_insert_eq. by eapply lookup_lt_Some.
  - exists T0, l0, gens, b0. split; [by rewrite list_lookup_insert_ne | split_and!; [done | lia | done]].
Qed.

(** A step of a reader, given by [reader_goes]. *)
Lemma reader_sim n w s ths cs T0 l0 gens b0 t b T l o P w' x :
  let L := published_log s in
  ths !! 0%nat = Some (mkVThread 0 b0 T0 (AtV l0)) -> producer_state w gens T0 L l0 -> (count L l0 <= n)%nat ->
  threads_related (vthread_rel w (started L l0) gens s) ths cs ->
  ths !! t = Some (mkVThread t b T (AtV l)) -> cs !! t = Some (Called (t, o)) -> quiet l -> b = bool_decide (t = 0%nat) ->
  seen_by s t <= Z.of_nat (v_at (cur T) published_v) ->
  reader_goes w s cs t o T P w' x ->
  (forall T' l', P T' l' -> quiet l' /\ pc_rel (wv_memory w) (started L l0) gens s t T' l' (Called o)) ->
  exists c', match_step late_step (mkPool s cs) None c' /\
    versioned_sim (S n) (mkPool w' (<[t := mkVThread t b x.1 x.2]> ths)) c'.
Proof.
  intros L H0 Hps Hn Hrel Ht Hct Hq Hb Hseen (-> & Hcl & Hle & l' & Hx & [HP | Ha]) HPq.
  - destruct (HPq _ _ HP) as [Hq' Hpc]. exists (mkPool s cs). split; [apply match_stutter |].
    rewrite Hx, <- (list_insert_id cs t (Called (t, o))) by done.
    eapply versioned_sim_install; [exact H0 | done | done | done | exact Ht | done | done | done | done | done | done |].
    split; simpl; [done | done | done | |].
    + pose proof (vle_at _ _ Hle published_v). lia.
    + by exists l', (Called o).
  - pose proof (answers_quiet _ _ _ _ _ _ Ha) as Hq'. destruct Ha as (r & k & -> & Hk & Hspec).
    eexists. split; [eapply match_one, (canon_lin _ _ _ t); [exact Hct | exact Hspec] |]. rewrite Hx.
    eapply versioned_sim_install; [exact H0 | done | done | done | exact Ht | done | done | done | done | done | |].
    { intros t' th cst Hne. by apply vthread_rel_seen. }
    split; simpl; [done | done | done | by rewrite update_same |]. by exists (VDone r), (Finished r).
Qed.

(** A step of the producer, given by [publisher_goes]. *)
Lemma publisher_sim n w s ths cs T0 l0 gens b0 p w' x :
  let L := published_log s in
  ths !! 0%nat = Some (mkVThread 0 b0 T0 (AtV l0)) -> producer_state w gens T0 L l0 -> (count L l0 <= n)%nat ->
  threads_related (vthread_rel w (started L l0) gens s) ths cs -> cs !! 0%nat = Some (Called (0%nat, McPublish p)) ->
  b0 = bool_decide (0 = 0)%nat -> seen_by s 0%nat <= Z.of_nat (v_at (cur T0) published_v) ->
  publisher_goes w gens T0 L l0 p w' x ->
  exists c', match_step late_step (mkPool s cs) None c' /\
    versioned_sim (S n) (mkPool w' (<[0%nat := mkVThread 0 b0 x.1 x.2]> ths)) c'.
Proof using Kpos Kcap.
  intros L H0 Hps Hn Hrel Hct Hb Hseen (T' & l' & gens' & L' & -> & Hle & Hps' & Hg & Hc & Hor). subst L.
  pose proof (ps_shared _ _ _ _ _ Hps) as Hsi. pose proof (lookup_lt_Some _ _ _ H0) as Hlt.
  destruct Hor as [[-> Hpr] | (r & -> & Hpub)].
  - exists (mkPool s cs). split; [apply match_stutter |]. exists T', l', gens', b0. simpl.
    split; [by apply list_lookup_insert_eq |]. split; [done |]. split; [lia |].
    rewrite <- (list_insert_id cs 0 (Called (0%nat, McPublish p))) by done.
    eapply threads_related_update; [exact Hrel | |].
    + intros t' th cst Hne _ _ Hth. by eapply vthread_rel_grows.
    + split; simpl; [done | done | apply (ps_closed _ _ _ _ _ Hps') | |].
      * pose proof (vle_at _ _ Hle published_v). lia.
      * by exists l', (Called (McPublish p)).
  - eexists. split; [eapply match_one, (canon_lin _ _ _ 0); [exact Hct | by apply late_publish] |].
    exists T', (VDone (McWritten r)), gens', b0. simpl.
    split; [by apply list_lookup_insert_eq |]. split; [done |]. split; [unfold count in *; simpl in *; lia |].
    eapply threads_related_update; [exact Hrel | |].
    + intros t' th cst Hne _ _ Hth. eapply vthread_rel_grows; [exact Hsi | exact Hg | done | | exact Hth].
      simpl. by rewrite update_other.
    + split; simpl; [done | done | apply (ps_closed _ _ _ _ _ Hps') | | by exists (VDone (McWritten r)), (Finished (McWritten r))].
      rewrite update_same. pose proof (ps_owner _ _ _ _ _ Hps' published_v) as Ho.
      rewrite (pi_length _ _ (si_published _ _ _ _ _ (ps_shared _ _ _ _ _ Hps'))) in Ho. unfold span_size. lia.
Qed.

(** What the relation says of the thread that moves. *)
Lemma vthread_rel_inv w X gens s t th cst :
  vthread_rel w X gens s t th cst ->
  exists T l st, th = mkVThread t (bool_decide (t = 0%nat)) T (AtV l) /\ cst = by_thread t st /\
    thread_closed T (wv_memory w) /\ seen_by s t <= Z.of_nat (v_at (cur T) published_v) /\
    pc_rel (wv_memory w) X gens s t T l st.
Proof.
  destruct th as [i b T pc]. intros [H1 H2 H3 H4 (l & st & H5 & H6 & H7)]. simpl in *. subst i b pc.
  exists T, l, st. by split_and!.
Qed.

Lemma call_pc_rel M X gens s t T l o th' st :
  versioned_call (mkThread (bool_decide (t = 0%nat)) l) o = Some th' -> pc_rel M X gens s t T l st ->
  st = Idle /\ quiet l /\ quiet (pc th') /\ pc_rel M X gens s t T (pc th') (Called o).
Proof.
  unfold versioned_call. simpl. intros Hc Hp. destruct l; try done.
  assert (st = Idle) as -> by (destruct st as [| [] |]; try done; by destruct Hp).
  split; [done |]. split; [done |].
  destruct o; simpl in Hc; [case_bool_decide; [| done] | ..]; injection Hc as <-; done.
Qed.

Lemma done_pc_rel M X gens s t T r st : pc_rel M X gens s t T (VDone r) st -> st = Finished r.
Proof. destruct st as [| [] |]; try done; simpl; [by intros [_ ?] | congruence]. Qed.

Lemma versioned_weak_simulates n p l p' c :
  0 <= MaxPayloadSize -> Z.of_nat (S n) < u64_modulus -> versioned_sim n p c -> pool_step p l p' ->
  exists c', match_step late_step c l c' /\ versioned_sim (S n) p' c'.
Proof using Kpos Kcap.
  intros Hmax Hb (T0 & l0 & gens & b0 & H0 & Hps & Hn & Hrel) Hs. destruct c as [s cs]. simpl in *.
  destruct Hs as [w ths t th o th' Ht Hcall | w ths t th w' th' Ht Hstep | w ths t th r th' Ht Hret]; simpl in *;
    destruct (threads_related_lookup _ _ _ _ _ Hrel Ht) as (cst & Hct & Hth);
    destruct (vthread_rel_inv _ _ _ _ _ _ _ Hth) as (T & l & st & -> & -> & Hcl & Hseen & Hpc).
  - unfold weak_versioned_call in Hcall. simpl in Hcall. destruct o as [t' o]. simpl in Hcall.
    case_decide as Ht'; [subst t' | done]. apply bind_Some in Hcall as (th0 & Hcall & [= <-]).
    destruct (call_pc_rel _ _ _ _ _ _ _ _ _ _ Hcall Hpc) as (-> & Hq & Hq' & Hpc').
    eexists. split; [by eapply match_one, (canon_call _ _ _ t) |].
    eapply versioned_sim_install; [exact H0 | done | done | done | exact Ht | done | done | done | done | done | done |].
    split; simpl; [done | done | done | done |]. by exists (pc th0), (Called o).
  - unfold weak_versioned_tstep in Hstep. simpl in Hstep. apply list_elem_of_fmap in Hstep as ([w1 x] & [= -> ->] & Hx). simpl.
    pose proof (ps_shared _ _ _ _ _ Hps) as Hsi. pose proof (writing_pending _ _ _ _ _ _ _ _ _ H0 Hrel) as Hpend.
    destruct st as [| [q | | c d |] | r]; simpl in Hpc.
    + subst l. by apply not_elem_of_nil in Hx.
    + destruct Hpc as [-> Hpc]. rewrite H0 in Ht. injection Ht as -> -> ->.
      eapply publisher_sim; [exact H0 | done | done | done | exact Hct | done | done |]. apply weak_publisher_step; [done | done | lia | done].
    + subst l. eapply reader_sim; [exact H0 | done | done | done | exact Ht | exact Hct | done | done | done | |].
      * by eapply step_register.
      * done.
    + eapply reader_sim; [exact H0 | done | done | done | exact Ht | exact Hct | by eapply reader_quiet | done | done | |].
      * by eapply weak_reader_step.
      * intros T' l' HP. split; [exact (reader_quiet _ _ _ _ _ _ _ _ HP) | done].
    + subst l. eapply reader_sim; [exact H0 | done | done | done | exact Ht | exact Hct | done | done | done | |].
      * by eapply step_published.
      * done.
    + subst l. by apply not_elem_of_nil in Hx.
  - unfold weak_versioned_ret in Hret. simpl in Hret. destruct l; try done. injection Hret as -> <-.
    apply done_pc_rel in Hpc as ->.
    eexists. split; [by eapply match_one, (canon_ret _ _ _ t) |].
    eapply versioned_sim_install; [exact H0 | done | done | done | exact Ht | done | done | done | done | done | done |].
    split; simpl; [done | done | done | done |]. by exists VIdle, Idle.
Qed.

End invariant.

Lemma versioned_init_sim cap q k :
  0 <= MaxPayloadSize -> 0 <= cap < u64_modulus -> VersionedSPMCQueue_new MaxPayloadSize cap = returns q ->
  versioned_sim (Z.to_nat cap) cap 0 (weak_versioned_init q k) (mkPool late_empty (replicate (S k) Idle)).
Proof.
  intros HM Hc Hnew. unfold VersionedSPMCQueue_new, validate_capacity in Hnew.
  destruct (Z.eqb_spec cap 0) as [-> | Hne]; [done |]. injection Hnew as <-.
  set (q := mkVersioned _ _ _ _).
  assert (Hpos : (0 < Z.to_nat cap)%nat) by lia.
  assert (Hcl : closed view_zero (wv_memory (weak_versioned_new q))) by (split; [intros l; simpl; lia | done]).
  assert (Ht : thread_closed new_thread (wv_memory (weak_versioned_new q))) by (by split).
  exists new_thread, VIdle, (fun _ _ => [0%nat]), true. split; [done |]. split; [| split; [done |]].
  - split; [| done | done | done]. split; simpl; try done; try lia.
    + by rewrite length_replicate.
    + split; [done |]. intros l i m Hm. by apply list_lookup_singleton_Some in Hm as [-> <-].
    + split; [done |]. intros i m Hm. apply list_lookup_singleton_Some in Hm as [-> <-]. split; [done | lia].
    + split; simpl.
      * intros j Hj. rewrite vwrites_zero by done. done.
      * intros j i m Hj Hm. apply list_lookup_singleton_Some in Hm as [-> <-]. split.
        -- simpl. rewrite lookup_replicate_2 by done. done.
        -- intros g Hg f x Hx. apply list_lookup_singleton_Some in Hx as [-> _]. done.
      * done.
      * intros j f i g m Hj Hg Hm. apply list_lookup_singleton_Some in Hg as [_ <-]. split; lia.
      * intros j f i i' g g' _ Hg Hg'. apply list_lookup_singleton_Some in Hg as [_ <-], Hg' as [_ <-]. done.
      * intros j f i g _ Hg. apply list_lookup_singleton_Some in Hg as [_ <-]. lia.
      * intros j f g Hj Hg. rewrite vwrites_zero in Hg by done. lia.
    + by left.
  - simpl. split; [simpl; by rewrite length_fmap, length_seq, length_replicate |].
    intros t th st Hth Hst. change (Idle :: replicate k Idle) with (replicate (S k) (@Idle (nat * McOp) McRes)) in Hst.
    apply lookup_replicate in Hst as [-> _].
    assert (th = mkVThread t (bool_decide (t = 0%nat)) new_thread (AtV VIdle)) as ->.
    { destruct t as [| t]; [by injection Hth as <- |]. simpl in Hth. apply list_lookup_fmap_Some in Hth as (t' & -> & Ht').
      apply lookup_seq in Ht' as [-> _]. done. }
    split; simpl; try done. by exists VIdle, Idle.
Qed.

Lemma versioned_weak_exec_sim cap q k n h p :
  0 <= MaxPayloadSize -> 0 <= cap < u64_modulus -> VersionedSPMCQueue_new MaxPayloadSize cap = returns q ->
  Z.of_nat n < u64_modulus -> exec pool_step n (weak_versioned_init q k) h p ->
  exists m c, exec (canon_step (late_spec MaxPayloadSize cap)) m (mkPool late_empty (replicate (S k) Idle)) h c /\
    versioned_sim (Z.to_nat cap) cap n p c.
Proof.
  intros HM Hc Hnew Hn Hex. pose proof (versioned_init_sim cap q k HM Hc Hnew) as H0.
  assert (Hpos : (0 < Z.to_nat cap)%nat).
  { unfold VersionedSPMCQueue_new, validate_capacity in Hnew. destruct (Z.eqb_spec cap 0); [done | lia]. }
  eapply (simulation_exec pool_step (canon_step (late_spec MaxPayloadSize cap)) (versioned_sim (Z.to_nat cap) cap)
            (fun n => Z.of_nat n < u64_modulus)); [| | exact Hn | exact H0 | exact Hex].
  - intros i. lia.
  - intros i p1 l p2 c Hi. apply versioned_weak_simulates; [done | lia | done | done].
Qed.

End VersionedWeak.

#[export] Existing Instance versioned_weak_object.

(** C1: [VersionedSPMCQueue] with the memory orders and fences of the header: for
    every choice of the values its relaxed and acquire loads return, byte by byte, each
    history of one producer and any number of readers is one of the multicast contract
    executed atomically, in which a thread sees a prefix of the log that may be late but
    never gets shorter, and a reader loses its message only to a later publication into
    its cell that has begun. *)
Theorem versioned_weak_linearizable MaxPayloadSize cap q k n h p :
  0 <= MaxPayloadSize -> 0 <= cap < u64_modulus -> VersionedSPMCQueue_new MaxPayloadSize cap = returns q ->
  Z.of_nat n < u64_modulus ->
  exec (pool_step (ConcurrentObject0 := versioned_weak_object MaxPayloadSize)) n (weak_versioned_init q k) h p ->
  linearizable (late_spec MaxPayloadSize cap) late_empty (S k) h.
Proof.
  intros HM Hc Hnew Hn Hex.
  destruct (versioned_weak_exec_sim MaxPayloadSize cap q k n h p) as (m & c & Hc' & _); try done. by exists m, c.
Qed.

(** A successful read of the contract returns an entry of the log, however late the
    reader is. *)
Lemma late_spec_entry MaxPayloadSize cap cs s o r c d s' :
  0 < cap -> late_spec MaxPayloadSize cap cs s o (McReadDone r c d) s' -> r_status r = success ->
  exists payload, payload ∈ published_log s /\ bytes_read r = span_size payload /\ take (length payload) d = payload.
Proof.
  intros Hcap Hs Hok. inversion Hs as [| ? ? ? ? k _ _ Hq | ? ? ? ? ? ? ? ? _ _ _ _ Hl]; subst.
  - destruct (mc_spec_entry _ _ _ Hcap _ _ _ _ _ _ _ Hq Hok) as (payload & Hin & Hrest). exists payload.
    split; [| done]. by apply subseteq_take in Hin.
  - unfold mc_lost in Hl. by simplify_eq.
Qed.

Lemma late_spec_log MaxPayloadSize cap cs s o r s' p :
  late_spec MaxPayloadSize cap cs s o r s' -> p ∈ published_log s' -> p ∈ published_log s \/ o.2 = McPublish p.
Proof.
  intros Hs Hp. destruct Hs as [s t payload r l' Hpub | |]; simpl in *; [| by left | by left].
  unfold mc_publish in Hpub. case_tests_in Hpub; simplify_eq; [by left |].
  apply elem_of_app in Hp as [? | ->%list_elem_of_singleton]; auto.
Qed.

(** C8: With the memory orders and fences of the header no read is torn: the bytes of
    every successful read are the whole payload of one publication; and no thread leaves
    the ring, a cell's storage, or the single-writer discipline of the atomics. *)
Theorem versioned_weak_untorn MaxPayloadSize cap q k n h p :
  0 <= MaxPayloadSize -> 0 <= cap < u64_modulus -> VersionedSPMCQueue_new MaxPayloadSize cap = returns q ->
  Z.of_nat n < u64_modulus ->
  exec (pool_step (ConcurrentObject0 := versioned_weak_object MaxPayloadSize)) n (weak_versioned_init q k) h p ->
  (forall t r c destination, Ret t (McReadDone r c destination) ∈ h -> r_status r = success ->
     exists t' t'' payload, Call t' (t'', McPublish payload) ∈ h /\
       bytes_read r = span_size payload /\ take (length payload) destination = payload) /\
  (forall t th, threads p !! t = Some th -> vt_pc th <> Fault /\ vt_pc th <> AtV VOutOfBounds).
Proof.
  intros HM Hc Hnew Hn Hex. assert (0 < cap) as Hcap.
  { unfold VersionedSPMCQueue_new, validate_capacity in Hnew. case_tests_in Hnew; [done | lia]. }
  destruct (versioned_weak_exec_sim MaxPayloadSize cap q k n h p)
    as (m & [s cs] & Hm & T0 & l0 & gens & b & _ & _ & _ & Hrel); try done. split.
  - apply (contract_history published_log snd) in Hm; [| by eauto using late_spec_log | | done].
    + intros t r c d Hin Hok.
      destruct (ho_returned _ _ _ _ _ Hm t r c d Hin Hok) as (payload & (t' & [t'' o] & Hcall & [= ->]) & Hrest). eauto.
    + intros cs0 l1 o r c d l2 h0 Hs Hlog Hok.
      destruct (late_spec_entry _ _ _ _ _ _ _ _ _ Hcap Hs Hok) as (payload & Hin & Hrest). eauto.
  - intros t th Hth. destruct (threads_related_lookup _ _ _ _ _ Hrel Hth) as (cst & _ & Ht).
    destruct (vthread_rel_inv _ _ _ _ _ _ _ _ _ _ Ht) as (T & l & st & -> & _ & _ & _ & Hpc). split; [done |].
    intros [= ->]. destruct st as [| [] |]; try done. by destruct Hpc.
Qed.

(** A reader that copies the old size and the new byte of its cell, notices, and finds
    the next publication in its place. *)
Definition torn_queue : VersionedSPMCQueue := mkVersioned 1 [mkCell 0 0 0 [Byte.x00]] 0 0.

Definition publish_steps (n : nat) : list (choice (nat * McOp)) := replicate n (DoStep 0 0).

Definition torn_schedule : list (choice (nat * McOp)) :=
  [DoCall 1 (1%nat, McRegister); DoStep 1 0; DoRet 1; DoCall 0 (0%nat, McPublish [Byte.x07])] ++ publish_steps 10 ++
  [DoRet 0; DoCall 1 (1%nat, McRead (Consumer_new 1) [Byte.x00]); DoStep 1 0; DoStep 1 1; DoStep 1 0; DoStep 1 0;
   DoCall 0 (0%nat, McPublish [Byte.x09])] ++ publish_steps 6 ++
  [DoStep 1 0; DoStep 1 1; DoStep 1 0; DoStep 1 0] ++ publish_steps 4 ++
  [DoRet 0; DoStep 1 1; DoStep 1 0; DoStep 1 0; DoStep 1 0; DoStep 1 0; DoStep 1 0; DoStep 1 1; DoRet 1;
   DoCall 1 (1%nat, McRead (Consumer_new 2) [Byte.x00])] ++ replicate 8 (DoStep 1 0) ++ [DoRet 1].

Definition torn_history : list (event (nat * McOp) McRes) :=
  [Call 1 (1%nat, McRegister); Ret 1 (McRegistered (Consumer_new 1)); Call 0 (0%nat, McPublish [Byte.x07]);
   Ret 0 (McWritten (mkWrite success 1)); Call 1 (1%nat, McRead (Consumer_new 1) [Byte.x00]);
   Call 0 (0%nat, McPublish [Byte.x09]); Ret 0 (McWritten (mkWrite success 2));
   Ret 1 (McReadDone (mkRead overwritten 0 2) (Consumer_new 2) [Byte.x00]);
   Call 1 (1%nat, McRead (Consumer_new 2) [Byte.x00]);
   Ret 1 (McReadDone (mkRead success 1 2) (Consumer_new 3) [Byte.x09])].

Lemma torn_execution :
  exists p, exec (pool_step (ConcurrentObject0 := versioned_weak_object 1)) (length torn_schedule)
    (weak_versioned_init torn_queue 1) torn_history p.
Proof.
  assert (Hrun : fst <$> run_schedule (ConcurrentObject0 := versioned_weak_object 1)
    (weak_versioned_init torn_queue 1) torn_schedule = Some torn_history).
  { vm_compute. reflexivity. }
  apply fmap_Some in Hrun as ([tr p] & Hrun & ->). exists p. by apply run_schedule_exec.
Qed.

Lemma versioned_weak_linearizable_witness : linearizable (late_spec 1 1) late_empty 2 torn_history.
Proof.
  destruct torn_execution as [p Hex].
  eapply (versioned_weak_linearizable 1 1 torn_queue 1); [lia | by vm_compute | done | | exact Hex]. by vm_compute.
Defined.

Lemma versioned_weak_untorn_witness :
  exists t' t'' payload, Call t' (t'', McPublish payload) ∈ torn_history /\
    1 = span_size payload /\ take (length payload) [Byte.x09] = payload.
Proof.
  destruct torn_execution as [p Hex].
  destruct (versioned_weak_untorn 1 1 torn_queue 1 (length torn_schedule) torn_history p) as [H _];
    [lia | by vm_compute | done | by vm_compute | exact Hex |].
  apply (H 1%nat (mkRead success 1 2) (Consumer_new 3) [Byte.x09]); [| done].
  unfold torn_history. do 9 right. left.
Defined.
