(* ===== verification/WeakMemory.v ===== *)
(** * A release/acquire memory with race detection

    The harnesses of [src/verification/genmc] are C programs with atomic variables
    of [memory_order_relaxed], [_acquire] and [_release] and plain variables shared
    between threads.  This file gives them a meaning, in the style of the view-based
    operational models of C11 without promises.

    An atomic variable has a history of messages, a value with a view each, at
    timestamps that order them (the modification order).  A thread has a view: for
    each atomic variable the timestamp it has seen, for each plain variable the
    writes and the reads it knows of.  A load may return any message that is not
    older than the view; a store may take any free timestamp above it; a
    compare-exchange takes the timestamp right after the one it reads, so that
    nothing comes between, and may fail spuriously.  A release store puts the view
    of its thread into the message, an acquire load joins it to the reader's.  A
    plain access races when the thread does not know of every earlier conflicting
    access; the program then has no defined behaviour ([raced]).  Creating a thread
    passes the view on, joining it takes its view over, and so does the mutex.
    There are no promises, so a load never reads a store that depends on it in a
    cycle: the model is that of RC11, which the repository's runs of GenMC use, for
    the accesses the harnesses have.

    A program gives the next instruction of each of its program points; [step]
    executes one instruction of one thread with the choices (timestamp, spurious
    failure) made explicit, so that executions can be run. *)

From stdpp Require Import gmap.
From S2P Require Import Prelude Views.

Section machine.

Context {A N : Type} `{!EqDecision A} `{!EqDecision N}.

Abbreviation view := (view A N).
Abbreviation message := (message A N Z).
Abbreviation plain := (plain Z).

(** ** Programs *)

Context {P : Type}.

Inductive instruction : Type :=
| Init (l : A) (v : Z) (k : P)                        (** [atomic_init] *)
| Load (o : memory_order) (l : A) (k : Z -> P)
| Store (o : memory_order) (l : A) (v : Z) (k : P)
| CasWeak (l : A) (expected desired : Z) (success : P) (failure : Z -> P)  (** relaxed on success and failure *)
| Read (x : N) (k : Z -> P)
| Write (x : N) (v : Z) (k : P)
| Lock (k : P)
| Unlock (k : P)
| Create (t : nat) (start : P) (k : P)
| Join (t : nat) (k : P)
| Assert (b : bool) (k : P)
| Go (k : P)                                          (** no access to shared memory *)
| Halt.

Context (code : P -> instruction).

(** [None]: not created yet. *)
Record machine : Type := mkMachine {
  hist : A -> gmap nat message;
  plains : N -> plain;
  mutex : option view;                (** the view of the last unlock, while free *)
  threads : list (option (view * P));
  raced : bool;
  failed : bool;
}.

Record choice : Type := mkChoice { at_time : nat; spurious : bool }.

Definition set_thread (s : machine) (t : nat) (V : view) (p : P) : machine :=
  mkMachine (hist s) (plains s) (mutex s) (<[t := Some (V, p)]> (threads s)) (raced s) (failed s).

Definition add_message (s : machine) (l : A) (t : nat) (m : message) : machine :=
  mkMachine (update (hist s) l (<[t := m]> (hist s l))) (plains s) (mutex s) (threads s) (raced s) (failed s).

Definition reset_history (s : machine) (l : A) (m : message) : machine :=
  mkMachine (update (hist s) l {[ 0%nat := m ]}) (plains s) (mutex s) (threads s) (raced s) (failed s).

Definition set_plain (s : machine) (x : N) (c : plain) : machine :=
  mkMachine (hist s) (update (plains s) x c) (mutex s) (threads s) (raced s) (failed s).

Definition set_mutex (s : machine) (m : option view) : machine :=
  mkMachine (hist s) (plains s) m (threads s) (raced s) (failed s).

Definition race (s : machine) : machine :=
  mkMachine (hist s) (plains s) (mutex s) (threads s) true (failed s).

Definition fail (s : machine) : machine :=
  mkMachine (hist s) (plains s) (mutex s) (threads s) (raced s) true.

(** One instruction [i] of thread [t] with view [V]. *)
Definition step_thread (s : machine) (t : nat) (V : view) (i : instruction) (c : choice) : option machine :=
  match i with
  | Init l v k => Some (set_thread (reset_history s l (mkMessage v view_zero)) t V k)
  | Load o l k =>
      m ← hist s l !! at_time c;
      if decide (v_at V l <= at_time c)%nat then
        let V' := see V l (at_time c) in
        let V' := match o with acquire => view_join V' (m_view m) | _ => V' end in
        Some (set_thread s t V' (k (m_value m)))
      else None
  | Store o l v k =>
      if decide (v_at V l < at_time c)%nat then
        match hist s l !! at_time c with
        | Some _ => None
        | None =>
            let V' := see V l (at_time c) in
            let released := match o with release => V' | _ => see view_zero l (at_time c) end in
            Some (set_thread (add_message s l (at_time c) (mkMessage v released)) t V' k)
        end
      else None
  | CasWeak l expected desired success failure =>
      m ← hist s l !! at_time c;
      if decide (v_at V l <= at_time c)%nat then
        if (m_value m =? expected) && negb (spurious c) then
          match hist s l !! S (at_time c) with
          | Some _ => None
          | None =>
              Some (set_thread
                      (add_message s l (S (at_time c))
                         (mkMessage desired (view_join (m_view m) (see view_zero l (S (at_time c))))))
                      t (see V l (S (at_time c))) success)
          end
        else Some (set_thread s t (see V l (at_time c)) (failure (m_value m)))
      else None
  | Read x k =>
      let cell := plains s x in
      if bool_decide (v_wr V x = c_writes cell) then
        Some (set_thread (set_plain s x (mkPlain (c_value cell) (c_writes cell) (S (c_reads cell)))) t
                (see_read V x (c_reads cell)) (k (c_value cell)))
      else Some (race s)
  | Write x v k =>
      let cell := plains s x in
      if knows_all V x cell then
        Some (set_thread (set_plain s x (mkPlain v (S (c_writes cell)) (c_reads cell))) t
                (see_write V x (S (c_writes cell))) k)
      else Some (race s)
  | Lock k => W ← mutex s; Some (set_thread (set_mutex s None) t (view_join V W) k)
  | Unlock k => Some (set_thread (set_mutex s (Some V)) t V k)
  | Create t' start k =>
      match threads s !! t' with
      | Some None => Some (set_thread (set_thread s t' V start) t V k)
      | _ => None
      end
  | Join t' k =>
      match threads s !! t' with
      | Some (Some (W, p)) =>
          match code p with Halt => Some (set_thread s t (view_join V W) k) | _ => None end
      | _ => None
      end
  | Assert b k => if b then Some (set_thread s t V k) else Some (fail s)
  | Go k => Some (set_thread s t V k)
  | Halt => None
  end.

Definition step (s : machine) (t : nat) (c : choice) : option machine :=
  match threads s !! t with
  | Some (Some (V, p)) => step_thread s t V (code p) c
  | _ => None
  end.

(** The states some execution reaches. *)
Inductive reachable (s0 : machine) : machine -> Prop :=
| reach_start : reachable s0 s0
| reach_step s t c s' : reachable s0 s -> step s t c = Some s' -> reachable s0 s'.

Lemma reachable_invariant (I : machine -> Prop) s0 s :
  I s0 -> (forall s t c s', I s -> step s t c = Some s' -> I s') -> reachable s0 s -> I s.
Proof. intros H0 Hs. induction 1; eauto. Qed.

(** Running a schedule. *)
Fixpoint run (s : machine) (cs : list (nat * choice)) : option machine :=
  match cs with
  | [] => Some s
  | (t, c) :: cs => s' ← step s t c; run s' cs
  end.

Lemma run_reachable s0 s cs s' : reachable s0 s -> run s cs = Some s' -> reachable s0 s'.
Proof.
  revert s. induction cs as [| [t c] cs IH]; intros s Hr H; simpl in H; [by simplify_eq |].
  destruct (step s t c) as [s1 |] eqn:E; [| done]. eapply IH; [by eapply reach_step | exact H].
Qed.

(** The state a schedule ends in, when each of its steps can be taken. *)
Definition outcome (s0 : machine) (cs : list (nat * choice)) : machine := default s0 (run s0 cs).

Lemma outcome_reachable s0 cs :
  match run s0 cs with Some _ => true | None => false end = true -> reachable s0 (outcome s0 cs).
Proof.
  unfold outcome. destruct (run s0 cs) as [s |] eqn:E; [| done]. intros _. by eapply run_reachable; [constructor |].
Qed.

(** Where a thread is. *)
Definition program_point (s : machine) (t : nat) : option P := snd <$> mjoin (threads s !! t).

Lemma program_point_thread s t p : program_point s t = Some p -> exists V, threads s !! t = Some (Some (V, p)).
Proof. unfold program_point. destruct (threads s !! t) as [[[V q] |] |]; intros [= <-]. by exists V. Qed.

(** ** Views do not run ahead of the memory *)

Definition below (V : view) (s : machine) : Prop := forall x, (v_wr V x <= c_writes (plains s x))%nat.

Record bounded (s : machine) : Prop := {
  bd_threads : forall t V p, threads s !! t = Some (Some (V, p)) -> below V s;
  bd_messages : forall l t m, hist s l !! t = Some m -> below (m_view m) s;
  bd_mutex : forall W, mutex s = Some W -> below W s;
}.

Lemma below_join V W s : below V s -> below W s -> below (view_join V W) s.
Proof. intros H1 H2 x. specialize (H1 x). specialize (H2 x). simpl. lia. Qed.

Lemma below_zero s : below view_zero s.
Proof. intros x. simpl. lia. Qed.

(** The writes of the new state include those of the old one. *)
Definition grows (s s' : machine) : Prop := forall x, (c_writes (plains s x) <= c_writes (plains s' x))%nat.

Lemma below_grows V s s' : grows s s' -> below V s -> below V s'.
Proof. intros Hg H x. specialize (H x). specialize (Hg x). lia. Qed.

Lemma bounded_intro s s' :
  grows s s' -> bounded s ->
  (forall t V p, threads s' !! t = Some (Some (V, p)) -> threads s !! t = Some (Some (V, p)) \/ below V s') ->
  (forall l t m, hist s' l !! t = Some m -> hist s l !! t = Some m \/ below (m_view m) s') ->
  (forall W, mutex s' = Some W -> mutex s = Some W \/ below W s') ->
  bounded s'.
Proof.
  intros Hg [H1 H2 H3] Ht Hm Hx. split.
  - intros t V p H. destruct (Ht t V p H) as [H' |]; [eapply below_grows; eauto | done].
  - intros l t m H. destruct (Hm l t m H) as [H' |]; [eapply below_grows; eauto | done].
  - intros W H. destruct (Hx W H) as [H' |]; [eapply below_grows; eauto | done].
Qed.

Lemma thread_inserted (ts : list (option (view * P))) t th u V p :
  <[t := th]> ts !! u = Some (Some (V, p)) -> ts !! u = Some (Some (V, p)) \/ th = Some (V, p).
Proof. intros H. apply list_lookup_insert_Some in H as [(_ & -> & _) | [_ H]]; auto. Qed.

(** A step that only sets one thread and leaves memory alone. *)
Lemma bounded_set_thread s t V p : bounded s -> below V s -> bounded (set_thread s t V p).
Proof.
  intros Hb HV. apply (bounded_intro s); try done; try (by intros; left).
  intros u W q [H | [= <- <-]]%thread_inserted; [by left | by right].
Qed.

Lemma bounded_add_message s l t m : bounded s -> below (m_view m) s -> bounded (add_message s l t m).
Proof.
  intros Hb HV. apply (bounded_intro s); try done; try (by intros; left).
  intros l' t' m' H. simpl in H. unfold update in H. case_decide; [subst l' | by left].
  apply lookup_insert_Some in H as [(_ & <-) | [_ H]]; [by right | by left].
Qed.

Lemma bounded_set_plain s x v w r :
  bounded s -> (c_writes (plains s x) <= w)%nat -> bounded (set_plain s x (mkPlain v w r)).
Proof.
  intros Hb Hw. apply (bounded_intro s); try done; try (by intros; left).
  intros y. simpl. unfold update. case_decide; [subst; simpl; lia | done].
Qed.

Lemma below_see V l t s : below V s -> below (see V l t) s.
Proof. done. Qed.

Lemma step_bounded s t c s' : bounded s -> step s t c = Some s' -> bounded s'.
Proof.
  intros Hb Hs. unfold step in Hs. destruct (threads s !! t) as [[[V p] |] |] eqn:Ht; try done.
  assert (HV := bd_threads s Hb t V p Ht).
  unfold step_thread in Hs.
  destruct (code p) as [l v k | o l k | o l v k | l e d su fa | x k | x v k | k | k | u q k | u k | b k | k |].
  - injection Hs as <-. apply bounded_set_thread; [| done]. apply (bounded_intro s); try done; try (by intros; left).
    intros l' t' m' H. simpl in H. unfold update in H. case_decide; [subst l' | by left].
    apply lookup_singleton_Some in H as [_ <-]. right. apply below_zero.
  - destruct (hist s l !! at_time c) as [m |] eqn:Em; simpl in Hs; [| done]. case_decide; [| done]. injection Hs as <-.
    apply bounded_set_thread; [done |]. destruct o; [done | | done]. apply below_join; [done | by eapply bd_messages].
  - case_decide; [| done]. destruct (hist s l !! at_time c); [done |]. injection Hs as <-.
    apply bounded_set_thread; [| done]. apply bounded_add_message; [done |]. destruct o; [apply below_zero | apply below_zero | done].
  - destruct (hist s l !! at_time c) as [m |] eqn:Em; simpl in Hs; [| done]. case_decide; [| done].
    destruct (_ && _); [destruct (hist s l !! S (at_time c)); [done |] |]; injection Hs as <-;
      (apply bounded_set_thread; [| done]); [| done].
    apply bounded_add_message; [done |]. apply below_join; [by eapply (bd_messages s Hb) | apply below_zero].
  - destruct (bool_decide _); injection Hs as <-; [| by destruct Hb].
    apply bounded_set_thread; [by apply bounded_set_plain |].
    intros y. specialize (HV y). simpl. unfold update. case_decide; [subst; simpl; lia | done].
  - destruct (knows_all _ _ _); injection Hs as <-; [| by destruct Hb].
    apply bounded_set_thread; [apply bounded_set_plain; [done | lia] |].
    intros y. specialize (HV y). simpl. unfold update. case_decide; [subst; simpl; lia | done].
  - destruct (mutex s) as [W |] eqn:Em; simpl in Hs; [| done]. injection Hs as <-.
    apply bounded_set_thread; [by apply (bounded_intro s); try done; intros; left |].
    apply below_join; [done | by eapply (bd_mutex s Hb)].
  - injection Hs as <-. apply bounded_set_thread; [| done].
    apply (bounded_intro s); try done; try (by intros; left). intros W [= <-]. by right.
  - destruct (threads s !! u) as [[|] |]; try done. injection Hs as <-.
    apply bounded_set_thread; [| done]. by apply bounded_set_thread.
  - destruct (threads s !! u) as [[[W q] |] |] eqn:Eu; try done. destruct (code q); try done. injection Hs as <-.
    apply bounded_set_thread; [done |]. apply below_join; [done | by eapply (bd_threads s Hb)].
  - destruct b; injection Hs as <-; [by apply bounded_set_thread | by destruct Hb].
  - injection Hs as <-. by apply bounded_set_thread.
  - done.
Qed.

(** ** Threads *)

(** A thread that has returned does not move any more. *)
Definition returned (s : machine) (t : nat) : Prop :=
  exists V p, threads s !! t = Some (Some (V, p)) /\ code p = Halt.

(** Other threads are left alone; only a thread that does not run yet is created. *)
Lemma step_other s t c s' u x :
  step s t c = Some s' -> u <> t -> threads s !! u = Some (Some x) -> threads s' !! u = Some (Some x).
Proof.
  intros Hs Hn Hu. unfold step, step_thread in Hs. destruct (threads s !! t) as [[[V p] |] |] eqn:Ht; try done.
  destruct (code p) as [| | | | | | | | t' | t' | | |]; simplify_option_eq; repeat case_match; simplify_eq; simpl;
    rewrite ?list_lookup_insert_ne by congruence; try done.
Qed.

Lemma step_returned s t c s' u : step s t c = Some s' -> returned s u -> returned s' u.
Proof.
  intros Hs (V & p & Hu & Hp). exists V, p. split; [| done]. eapply step_other; [exact Hs | | exact Hu].
  intros ->. unfold step in Hs. by rewrite Hu, Hp in Hs.
Qed.

End machine.

Arguments instruction : clear implicits.
Arguments machine : clear implicits.
