(* ===== verification/SPSCCore.v ===== *)
(** * The SPSC protocol under weak memory ([verification/genmc/spsc_core.c])

    The harness is a C program with the memory orders of [SPSCQueue]: one producer
    thread pushes one value, one consumer thread pops until it gets it, and the
    main thread checks it after joining them.  It is modelled at every access, on
    the memory of [WeakMemory]; the orders of the hand-over are parameters ([acq],
    [rel]), so that the relaxed variant of [run_negative_controls.sh] is an instance.

    Theorems: with acquire and release no execution races and no assertion fails,
    on any of the unboundedly many timestamp choices; with relaxed orders there is
    an execution with a data race on the slot. *)

From stdpp Require Import gmap.
From S2P Require Import Prelude Views WeakMemory.

Inductive atomic_var : Type := head | tail.
Inductive plain_var : Type := slots (i : Z) | consumed.

#[export] Instance spsc_atomic_eq_dec : EqDecision atomic_var.
Proof. solve_decision. Defined.
#[export] Instance spsc_plain_eq_dec : EqDecision plain_var.
Proof. solve_decision. Defined.

Definition capacity : Z := 2.

(** ** The code *)

Inductive push_pc : Type :=
| PushLoadHead
| PushLoadTail (position : Z)
| PushWriteSlot (position : Z)
| PushStoreHead (position : Z).

Inductive pop_pc : Type :=
| PopLoadTail
| PopLoadHead (position : Z)
| PopReadSlot (position : Z)
| PopWriteValue (position value : Z)
| PopStoreTail (position : Z).

Inductive main_pc : Type :=
| MInitHead | MInitTail | MCreateProducer | MCreateConsumer | MJoinProducer | MJoinConsumer
| MReadConsumed | MCheck (v : Z) | MReturn.

Inductive pc : Type :=
| InMain (p : main_pc)
| InPush (p : push_pc)
| PushReturned (r : Z)
| ProduceReturn
| InPop (p : pop_pc)
| PopReturned (r : Z)
| ConsumeReturn.

Section code.

Context (acq rel : memory_order).

Abbreviation instruction := (instruction atomic_var plain_var pc).

Definition try_push (value : Z) (p : push_pc) : instruction :=
  match p with
  | PushLoadHead => Load relaxed head (fun position => InPush (PushLoadTail position))
  | PushLoadTail position =>
      Load acq tail (fun t =>
        if u64 (position - t) =? capacity then PushReturned 0 else InPush (PushWriteSlot position))
  | PushWriteSlot position => Write (slots (position mod capacity)) value (InPush (PushStoreHead position))
  | PushStoreHead position => Store rel head (position +u 1) (PushReturned 1)
  end.

Definition try_pop (value : plain_var) (p : pop_pc) : instruction :=
  match p with
  | PopLoadTail => Load relaxed tail (fun position => InPop (PopLoadHead position))
  | PopLoadHead position =>
      Load acq head (fun h => if position =? h then PopReturned 0 else InPop (PopReadSlot position))
  | PopReadSlot position => Read (slots (position mod capacity)) (fun v => InPop (PopWriteValue position v))
  | PopWriteValue position v => Write value v (InPop (PopStoreTail position))
  | PopStoreTail position => Store rel tail (position +u 1) (PopReturned 1)
  end.

Definition main (p : main_pc) : instruction :=
  match p with
  | MInitHead => Init head 0 (InMain MInitTail)
  | MInitTail => Init tail 0 (InMain MCreateProducer)
  | MCreateProducer => Create 1 (InPush PushLoadHead) (InMain MCreateConsumer)
  | MCreateConsumer => Create 2 (InPop PopLoadTail) (InMain MJoinProducer)
  | MJoinProducer => Join 1 (InMain MJoinConsumer)
  | MJoinConsumer => Join 2 (InMain MReadConsumed)
  | MReadConsumed => Read consumed (fun v => InMain (MCheck v))
  | MCheck v => Assert (v =? 42) (InMain MReturn)
  | MReturn => Halt
  end.

(** [produce] asserts the push; [consume] repeats the pop. *)
Definition spsc_core (p : pc) : instruction :=
  match p with
  | InMain p => main p
  | InPush p => try_push 42 p
  | PushReturned r => Assert (negb (r =? 0)) ProduceReturn
  | ProduceReturn => Halt
  | InPop p => try_pop consumed p
  | PopReturned r => Go (if r =? 0 then InPop PopLoadTail else ConsumeReturn)
  | ConsumeReturn => Halt
  end.

End code.

Abbreviation state := (machine atomic_var plain_var pc).

(** Static variables are zero. *)
Definition spsc_core_start : state :=
  mkMachine (fun _ => {[ 0%nat := mkMessage 0 view_zero ]}) (fun _ => mkPlain 0 0 0) (Some view_zero)
    [Some (view_zero, InMain MInitHead); None; None] false false.

(** ** The invariant *)

Section proofs.

Abbreviation wview := (view atomic_var plain_var).

(** How far the producer is: 0 before the write to the slot, 1 after it, 2 after
    the release store; and the consumer: 0 before it has stored the value, 1
    after it, 2 after it has released the slot. *)
Definition producer_ok (ps : Z) (th : option (wview * pc)) : Prop :=
  match th with
  | None => ps = 0
  | Some (V, p) =>
      match p with
      | InPush PushLoadHead => ps = 0
      | InPush (PushLoadTail q) | InPush (PushWriteSlot q) => q = 0 /\ ps = 0
      | InPush (PushStoreHead q) => q = 0 /\ ps = 1 /\ v_wr V (slots 0) = 1%nat
      | PushReturned r => r = 1 /\ ps = 2
      | ProduceReturn => ps = 2
      | _ => False
      end
  end.

Definition consumer_ok (ps cs : Z) (th : option (wview * pc)) : Prop :=
  match th with
  | None => cs = 0
  | Some (V, p) =>
      match p with
      | InPop PopLoadTail => cs = 0
      | InPop (PopLoadHead q) => q = 0 /\ cs = 0
      | InPop (PopReadSlot q) => q = 0 /\ cs = 0 /\ ps = 2 /\ v_wr V (slots 0) = 1%nat
      | InPop (PopWriteValue q v) => q = 0 /\ cs = 0 /\ v = 42
      | InPop (PopStoreTail q) => q = 0 /\ cs = 1 /\ v_wr V consumed = 1%nat
      | PopReturned r => (r = 0 /\ cs = 0) \/ (r = 1 /\ cs = 2 /\ v_wr V consumed = 1%nat)
      | ConsumeReturn => cs = 2 /\ v_wr V consumed = 1%nat
      | _ => False
      end
  end.

Definition main_ok (cs : Z) (s : state) (th : option (wview * pc)) : Prop :=
  match th with
  | Some (V, InMain p) =>
      match p with
      | MInitHead | MInitTail | MCreateProducer => threads s !! 1%nat = Some None /\ threads s !! 2%nat = Some None
      | MCreateConsumer => threads s !! 2%nat = Some None
      | MReadConsumed => cs = 2 /\ v_wr V consumed = 1%nat
      | MCheck v => v = 42
      | _ => True
      end
  | _ => False
  end.

Record memory_ok (ps cs : Z) (s : state) : Prop := {
  mo_head : forall t m, hist s head !! t = Some m ->
    m_value m = 0 \/ (ps = 2 /\ m_value m = 1 /\ (1 <= v_wr (m_view m) (slots 0))%nat);
  mo_tail : forall t m, hist s tail !! t = Some m -> m_value m = 0 \/ (cs = 2 /\ m_value m = 1);
  mo_slot : if ps =? 0 then plains s (slots 0) = mkPlain 0 0 0
            else exists r, plains s (slots 0) = mkPlain 42 1 r;
  mo_consumed : if cs =? 0 then plains s consumed = mkPlain 0 0 0
                else exists r, plains s consumed = mkPlain 42 1 r;
}.

Record core_inv (s : state) : Prop := {
  ci_bounded : bounded s;
  ci_raced : raced s = false;
  ci_failed : failed s = false;
  ci_threads : length (threads s) = 3%nat;
  ci_stages : exists ps cs, memory_ok ps cs s /\
    (forall th, threads s !! 0%nat = Some th -> main_ok cs s th) /\
    (forall th, threads s !! 1%nat = Some th -> producer_ok ps th) /\
    (forall th, threads s !! 2%nat = Some th -> consumer_ok ps cs th);
}.

(** *** Preservation *)

(** The main thread's knowledge about the others when one of them moves. *)
Lemma spsc_main_frame cs cs' s s' th :
  (exists V p, threads s !! 2%nat = Some (Some (V, p))) \/
    (exists V p, threads s !! 1%nat = Some (Some (V, p))) /\ threads s' !! 2%nat = threads s !! 2%nat ->
  (cs = 2 -> cs' = 2) -> main_ok cs s th -> main_ok cs' s' th.
Proof.
  intros Hrun Hcs. unfold main_ok. destruct th as [[V [p | | | | | |]] |]; try done.
  destruct p; try done; destruct Hrun as [(W & q & Hr) | [(W & q & Hr) E]]; intros H; destruct_and?; rewrite ?E; try congruence;
    try (split; [congruence | by auto]); auto.
Qed.

Lemma core_threads s : core_inv s -> exists a b d, threads s = [a; b; d].
Proof.
  intros Hi. pose proof (ci_threads s Hi) as Hl. destruct (threads s) as [| a [| b [| d [|]]]]; try done. eauto.
Qed.

Lemma spsc_producer_step s V p c s' :
  core_inv s -> threads s !! 1%nat = Some (Some (V, p)) ->
  step_thread (spsc_core acquire release) s 1 V (spsc_core acquire release p) c = Some s' -> bounded s' -> core_inv s'.
Proof.
  intros Hi Ht Hs Hb. destruct (core_threads s Hi) as (a & b & d & E).
  destruct Hi as [Hbd Hr Hf _ (ps & cs & Hm & H0 & H1 & H2)]. rewrite E in Ht. injection Ht as ->.
  rewrite E in H0, H1, H2. specialize (H0 a eq_refl). specialize (H1 _ eq_refl). specialize (H2 d eq_refl).
  assert (Hgo : forall s1 V' p' ps', s' = set_thread s1 1 V' p' -> threads s1 = threads s -> raced s1 = false ->
    failed s1 = false -> memory_ok ps' cs s' -> producer_ok ps' (Some (V', p')) -> (ps = 2 -> ps' = 2) -> core_inv s').
  { intros s1 V' p' ps' -> Et Er Ef Hm' Hp Hps. split; [done | done | done | by simpl; rewrite Et, E |].
    exists ps', cs. simpl. rewrite Et, E. simpl. split; [done |]. split; [| split].
    - intros th [= <-]. eapply (spsc_main_frame cs cs s); [| done | done]. right.
      rewrite E. simpl. rewrite Et, E. simpl. eauto.
    - by intros th [= <-].
    - intros th [= <-]. revert H2. unfold consumer_ok. destruct d as [[W q] |]; [| done].
      destruct q as [| | | | q | |]; try done. destruct q; try done. intros (? & ? & ? & ?). auto. }
  destruct Hm as [M1 M2 M3 M4].
  destruct p as [| p | r | | | |]; try done; simpl in H1; [destruct p as [| q | q | q] |]; simpl in Hs.
  - subst ps. destruct (hist s head !! at_time c) as [m |] eqn:Em; simpl in Hs; [| done]. case_decide; [| done].
    destruct (M1 _ _ Em) as [E0 | [[=] _]]. rewrite E0 in Hs. injection Hs as <-. by eapply (Hgo s _ _ 0).
  - destruct H1 as [-> ->]. destruct (hist s tail !! at_time c) as [m |] eqn:Em; simpl in Hs; [| done].
    case_decide; [| done].
    assert (Hv : m_value m = 0 \/ m_value m = 1) by (destruct (M2 _ _ Em) as [? | [_ ?]]; auto).
    assert (Hne : (u64 (0 - m_value m) =? capacity) = false) by (destruct Hv as [-> | ->]; by vm_compute).
    rewrite Hne in Hs. injection Hs as <-. by eapply (Hgo s _ _ 0).
  - destruct H1 as [-> ->]. change (0 mod capacity) with 0 in Hs. simpl in M3. rewrite M3 in Hs. simpl in Hs.
    unfold knows_all in Hs. simpl in Hs. assert (Hz : v_wr V (slots 0) = 0%nat).
    { pose proof (bd_threads s Hbd 1%nat V _ ltac:(by rewrite E) (slots 0)) as H. rewrite M3 in H. simpl in H. lia. }
    rewrite Hz in Hs. rewrite !bool_decide_true in Hs by (done || by constructor). injection Hs as <-.
    eapply (Hgo _ _ _ 1); try done; simpl.
    split; try done; simpl.
    + intros t m Hm. destruct (M1 t m Hm) as [? | [[=] _]]. by left.
    + rewrite update_same. eauto.
  - destruct H1 as (-> & -> & Hw). case_decide; [| done]. destruct (hist s head !! at_time c) eqn:Eh; [done |].
    injection Hs as <-. eapply (Hgo _ _ _ 2); try done; simpl.
    split; simpl; try done.
    + intros t m Hm. rewrite update_same in Hm. apply lookup_insert_Some in Hm as [(_ & <-) | [_ Hm]].
      * right. simpl. split; [done |]. split; [done |]. lia.
      * destruct (M1 t m Hm) as [? | [[=] _]]. by left.
  - destruct H1 as [-> ->]. simpl in Hs. injection Hs as <-. by eapply (Hgo s _ _ 2).
Qed.

Lemma spsc_consumer_step s V p c s' :
  core_inv s -> threads s !! 2%nat = Some (Some (V, p)) ->
  step_thread (spsc_core acquire release) s 2 V (spsc_core acquire release p) c = Some s' -> bounded s' -> core_inv s'.
Proof.
  intros Hi Ht Hs Hb. destruct (core_threads s Hi) as (a & b & d & E).
  destruct Hi as [Hbd Hr Hf _ (ps & cs & Hm & H0 & H1 & H2)]. rewrite E in Ht. injection Ht as ->.
  rewrite E in H0, H1, H2. specialize (H0 a eq_refl). specialize (H1 b eq_refl). specialize (H2 _ eq_refl).
  assert (Hgo : forall s1 V' p' cs', s' = set_thread s1 2 V' p' -> threads s1 = threads s -> raced s1 = false ->
    failed s1 = false -> memory_ok ps cs' s' -> consumer_ok ps cs' (Some (V', p')) -> (cs = 2 -> cs' = 2) -> core_inv s').
  { intros s1 V' p' cs' -> Et Er Ef Hm' Hp Hps. split; [done | done | done | by simpl; rewrite Et, E |].
    exists ps, cs'. simpl. rewrite Et, E. simpl. split; [done |]. split; [| split].
    - intros th [= <-]. eapply (spsc_main_frame cs cs' s); [left; rewrite E; simpl; eauto | done | done].
    - by intros th [= <-].
    - by intros th [= <-]. }
  destruct Hm as [M1 M2 M3 M4].
  destruct p as [| | | | p | r |]; try done; simpl in H2; [destruct p as [| q | q | q v | q] |]; simpl in Hs.
  - subst cs. destruct (hist s tail !! at_time c) as [m |] eqn:Em; simpl in Hs; [| done]. case_decide; [| done].
    destruct (M2 _ _ Em) as [E0 | [[=] _]]. rewrite E0 in Hs. injection Hs as <-. by eapply (Hgo s _ _ 0).
  - destruct H2 as [-> ->]. destruct (hist s head !! at_time c) as [m |] eqn:Em; simpl in Hs; [| done].
    case_decide; [| done]. destruct (M1 _ _ Em) as [E0 | (-> & E1 & Hw)].
    + rewrite E0 in Hs. simpl in Hs. injection Hs as <-. eapply (Hgo s _ _ 0); try done. by left.
    + rewrite E1 in Hs. simpl in Hs. injection Hs as <-. eapply (Hgo s _ _ 0); try done. simpl.
      split_and!; try done. destruct M3 as [r Er].
      pose proof (bd_messages s Hbd head _ m Em (slots 0)) as B1.
      pose proof (bd_threads s Hbd 2%nat V _ ltac:(by rewrite E) (slots 0)) as B2. rewrite Er in B1, B2. simpl in B1, B2. lia.
  - destruct H2 as (-> & -> & -> & Hw). change (0 mod capacity) with 0 in Hs. destruct M3 as [r Er].
    rewrite Er in Hs. simpl in Hs. rewrite bool_decide_true in Hs by done. injection Hs as <-.
    eapply (Hgo _ _ _ 0); try done. split; try done. simpl. rewrite update_same. eauto.
  - destruct H2 as (-> & -> & ->). simpl in M4. rewrite M4 in Hs. unfold knows_all in Hs. simpl in Hs.
    assert (Hz : v_wr V consumed = 0%nat).
    { pose proof (bd_threads s Hbd 2%nat V _ ltac:(by rewrite E) consumed) as H. rewrite M4 in H. simpl in H. lia. }
    rewrite Hz in Hs. rewrite !bool_decide_true in Hs by (done || by constructor). injection Hs as <-.
    eapply (Hgo _ _ _ 1); try done. split; try done; simpl.
    + intros t m Hm. destruct (M2 t m Hm) as [? | [[=] _]]. by left.
    + rewrite update_same. eauto.
  - destruct H2 as (-> & -> & Hw). case_decide; [| done]. destruct (hist s tail !! at_time c) eqn:Eh; [done |].
    injection Hs as <-. eapply (Hgo _ _ _ 2); try done; simpl; [| by right].
    split; simpl; try done. intros t m Hm. rewrite update_same in Hm.
    apply lookup_insert_Some in Hm as [(_ & <-) | [_ Hm]]; [by right |].
    destruct (M2 t m Hm) as [? | [[=] _]]. by left.
  - destruct H2 as [[-> ->] | (-> & -> & Hw)]; simpl in Hs; injection Hs as <-.
    + by eapply (Hgo s _ _ 0).
    + by eapply (Hgo s _ _ 2).
Qed.

Lemma spsc_main_step s V p c s' :
  core_inv s -> threads s !! 0%nat = Some (Some (V, p)) ->
  step_thread (spsc_core acquire release) s 0 V (spsc_core acquire release p) c = Some s' -> bounded s' -> core_inv s'.
Proof.
  intros Hi Ht Hs Hb. destruct (core_threads s Hi) as (a & b & d & E).
  destruct Hi as [Hbd Hr Hf _ (ps & cs & Hm & H0 & H1 & H2)]. rewrite E in Ht. injection Ht as ->.
  rewrite E in H0, H1, H2. specialize (H0 _ eq_refl). specialize (H1 b eq_refl). specialize (H2 d eq_refl).
  assert (Hgo : forall s1 V' p' b' d', s' = set_thread s1 0 V' p' -> threads s1 = [Some (V, p); b'; d'] -> raced s1 = false ->
    failed s1 = false -> memory_ok ps cs s' -> main_ok cs s' (Some (V', p')) ->
    producer_ok ps b' -> consumer_ok ps cs d' -> core_inv s').
  { intros s1 V' p' b' d' -> Et Er Ef Hm' Hp Hb' Hd'. split; [done | done | done | by simpl; rewrite Et |].
    exists ps, cs. split; [done |]. simpl. rewrite Et. simpl. split_and!; by intros th [= <-]. }
  assert (Hm' := Hm). destruct Hm' as [M1 M2 M3 M4].
  destruct p as [p | | | | | |]; try done. simpl in H0, Hs. rewrite E in H0.
  destruct p as [| | | | | | | v |]; simpl in Hs, H0.
  - destruct H0 as [[= ->] [= ->]]. injection Hs as <-. eapply (Hgo _ _ _ None None); try done; [| by simpl; rewrite E].
    split; try done. intros t m Hm1. simpl in Hm1. rewrite update_same in Hm1.
    apply lookup_singleton_Some in Hm1 as [_ <-]. by left.
  - destruct H0 as [[= ->] [= ->]]. injection Hs as <-. eapply (Hgo _ _ _ None None); try done; [| by simpl; rewrite E].
    split; try done. intros t m Hm1. simpl in Hm1. rewrite update_same in Hm1.
    apply lookup_singleton_Some in Hm1 as [_ <-]. by left.
  - destruct H0 as [[= ->] [= ->]]. rewrite E in Hs. simpl in Hs. injection Hs as <-.
    eapply (Hgo _ _ _ (Some (V, InPush PushLoadHead)) None); try done; simpl; by rewrite E.
  - injection H0 as ->. rewrite E in Hs. simpl in Hs. injection Hs as <-.
    eapply (Hgo _ _ _ b (Some (V, InPop PopLoadTail))); try done; simpl; by rewrite E.
  - rewrite E in Hs. simpl in Hs. destruct b as [[W q] |]; [| done].
    destruct (spsc_core acquire release q); try done. injection Hs as <-. by eapply (Hgo s _ _ (Some (W, q)) d).
  - rewrite E in Hs. simpl in Hs. destruct d as [[W q] |]; [| done].
    destruct (spsc_core acquire release q) eqn:Eq; try done. injection Hs as <-.
    eapply (Hgo s _ _ b (Some (W, q))); try done. simpl.
    destruct q as [[] | [] | | | [] | |]; try done. destruct H2 as [-> Hw]. split; [done |].
    destruct M4 as [r Er]. pose proof (bd_threads s Hbd 0%nat V _ ltac:(by rewrite E) consumed) as B. rewrite Er in B.
    simpl in B. lia.
  - destruct H0 as [-> Hw]. destruct M4 as [r Er]. rewrite Er in Hs. simpl in Hs.
    rewrite bool_decide_true in Hs by done. injection Hs as <-.
    eapply (Hgo _ _ _ b d); try done. split; try done. simpl. rewrite update_same. eauto.
  - subst v. simpl in Hs. injection Hs as <-. by eapply (Hgo s _ _ b d).
  - done.
Qed.

Lemma spsc_core_step s t c s' : core_inv s -> step (spsc_core acquire release) s t c = Some s' -> core_inv s'.
Proof.
  intros Hi Hs. pose proof (step_bounded _ s t c s' (ci_bounded s Hi) Hs) as Hb. unfold step in Hs.
  destruct (threads s !! t) as [[[V p] |] |] eqn:Ht; try done.
  pose proof (lookup_lt_Some _ _ _ Ht) as Hlt. rewrite (ci_threads s Hi) in Hlt.
  destruct t as [| [| [| t]]]; [by eapply spsc_main_step | by eapply spsc_producer_step | by eapply spsc_consumer_step | lia].
Qed.

Lemma spsc_core_init : core_inv spsc_core_start.
Proof.
  split; try done.
  - split; simpl.
    + intros t V p H. destruct t as [| [| [| t]]]; simpl in H; try done. injection H as <- <-. apply below_zero.
    + intros l t m H. apply lookup_singleton_Some in H as [_ <-]. apply below_zero.
    + intros W [= <-]. apply below_zero.
  - exists 0, 0. split; [| split_and!; by intros th [= <-]].
    split; simpl; try done; intros t m H; apply lookup_singleton_Some in H as [_ <-]; by left.
Qed.

End proofs.

(** ** Theorems *)

(** C12: with acquire loads and release stores no execution of the SPSC harness has
    a data race and none of its assertions fails: the push succeeds and the main
    thread finds the pushed value, whatever messages the loads return. *)
Theorem spsc_core_correct s :
  reachable (spsc_core acquire release) spsc_core_start s -> raced s = false /\ failed s = false.
Proof.
  intros Hr. assert (Hi : core_inv s).
  { eapply reachable_invariant; [apply spsc_core_init | | exact Hr]. intros s1 t c s2. apply spsc_core_step. }
  by destruct Hi.
Qed.

Definition at_ (t n : nat) : nat * choice := (t, mkChoice n false).

(** Main creates both threads, the producer publishes, the consumer takes the
    value, and main checks it. *)
Definition handover : list (nat * choice) :=
  [at_ 0 0; at_ 0 0; at_ 0 0; at_ 0 0; at_ 2 0; at_ 2 0; at_ 2 0;
   at_ 1 0; at_ 1 0; at_ 1 0; at_ 1 5; at_ 1 0;
   at_ 2 0; at_ 2 5; at_ 2 0; at_ 2 0; at_ 2 1; at_ 2 0; at_ 0 0; at_ 0 0; at_ 0 0; at_ 0 0].

Lemma spsc_core_correct_witness :
  let s := outcome (spsc_core acquire release) spsc_core_start handover in
  program_point s 0 = Some (InMain MReturn) /\ raced s = false /\ failed s = false.
Proof.
  intros s. split; [vm_compute; reflexivity |]. apply spsc_core_correct. apply outcome_reachable. vm_compute. reflexivity.
Defined.

(** The negative control: with relaxed loads and stores in the place of acquire
    and release the harness has an execution with a data race. *)
Theorem spsc_core_relaxed_races :
  exists s, reachable (spsc_core relaxed relaxed) spsc_core_start s /\ raced s = true.
Proof.
  exists (outcome (spsc_core relaxed relaxed) spsc_core_start (take 15 handover)).
  split; [apply outcome_reachable |]; vm_compute; reflexivity.
Qed.
