(* ===== verification/SPMCMutexCore.v ===== *)
(** * The mutex-guarded multicast protocol ([verification/genmc/spmc_mutex_core.c])

    The harness is the protocol of [SPMCMulticastQueue] reduced to one value: a
    publisher sets the payload and the flag under the mutex, two consumers take the
    mutex until they see the flag and copy the payload, and the main thread checks
    both copies after joining.  It is modelled at every access on the memory of
    [WeakMemory], where the mutex passes the view of the last unlock on to the next
    lock.  [pthread_mutex_lock] and the other calls succeed when they return, so
    the assertions around them are not instructions of their own.

    Theorem: no execution races or fails an assertion, at most one thread is
    between a lock and its unlock, and the mutex is free when the main thread
    destroys it. *)

From stdpp Require Import gmap.
From S2P Require Import Prelude Views WeakMemory.

Inductive plain_var : Type := published | payload | observed (index : Z).

#[export] Instance mutex_plain_eq_dec : EqDecision plain_var.
Proof. solve_decision. Defined.

(** ** The code *)

Inductive publish_pc : Type := PLock | PWritePayload | PWritePublished | PUnlock | PReturn.

Inductive consume_pc : Type :=
| CLock
| CReadPublished
| CReadPayload
| CWriteObserved (v : Z)
| CUnlockReturn
| CUnlockRetry
| CReturn.

Inductive main_pc : Type :=
| MCreateProducer | MCreateConsumer0 | MCreateConsumer1
| MJoinProducer | MJoinConsumer0 | MJoinConsumer1
| MRead0 | MCheck0 (v : Z) | MRead1 | MCheck1 (v : Z)
| MDestroy.

Inductive pc : Type :=
| InMain (p : main_pc)
| InPublish (p : publish_pc)
| InConsume (index : Z) (p : consume_pc).

Section code.

Abbreviation instruction := (instruction Empty_set plain_var pc).

Definition publish (p : publish_pc) : instruction :=
  match p with
  | PLock => Lock (InPublish PWritePayload)
  | PWritePayload => Write payload 73 (InPublish PWritePublished)
  | PWritePublished => Write published 1 (InPublish PUnlock)
  | PUnlock => Unlock (InPublish PReturn)
  | PReturn => Halt
  end.

Definition consume (index : Z) (p : consume_pc) : instruction :=
  match p with
  | CLock => Lock (InConsume index CReadPublished)
  | CReadPublished => Read published (fun v => InConsume index (if v =? 0 then CUnlockRetry else CReadPayload))
  | CReadPayload => Read payload (fun v => InConsume index (CWriteObserved v))
  | CWriteObserved v => Write (observed index) v (InConsume index CUnlockReturn)
  | CUnlockReturn => Unlock (InConsume index CReturn)
  | CUnlockRetry => Unlock (InConsume index CLock)
  | CReturn => Halt
  end.

Definition main (p : main_pc) : instruction :=
  match p with
  | MCreateProducer => Create 1 (InPublish PLock) (InMain MCreateConsumer0)
  | MCreateConsumer0 => Create 2 (InConsume 0 CLock) (InMain MCreateConsumer1)
  | MCreateConsumer1 => Create 3 (InConsume 1 CLock) (InMain MJoinProducer)
  | MJoinProducer => Join 1 (InMain MJoinConsumer0)
  | MJoinConsumer0 => Join 2 (InMain MJoinConsumer1)
  | MJoinConsumer1 => Join 3 (InMain MRead0)
  | MRead0 => Read (observed 0) (fun v => InMain (MCheck0 v))
  | MCheck0 v => Assert (v =? 73) (InMain MRead1)
  | MRead1 => Read (observed 1) (fun v => InMain (MCheck1 v))
  | MCheck1 v => Assert (v =? 73) (InMain MDestroy)
  | MDestroy => Halt
  end.

Definition spmc_mutex_core (p : pc) : instruction :=
  match p with
  | InMain p => main p
  | InPublish p => publish p
  | InConsume index p => consume index p
  end.

End code.

Abbreviation state := (machine Empty_set plain_var pc).

(** Static variables are zero; the mutex is initialised and free. *)
Definition spmc_mutex_core_start : state :=
  mkMachine (fun _ => ∅) (fun _ => mkPlain 0 0 0) (Some view_zero)
    [Some (view_zero, InMain MCreateProducer); None; None; None] false false.

(** ** The invariant *)

Section proofs.

Abbreviation wview := (view Empty_set plain_var).

(** Between a lock and its unlock. *)
Definition critical (p : pc) : bool :=
  match p with
  | InPublish (PWritePayload | PWritePublished | PUnlock) => true
  | InConsume _ (CReadPublished | CReadPayload | CWriteObserved _ | CUnlockReturn | CUnlockRetry) => true
  | _ => false
  end.

(** The view knows every access to what the mutex guards. *)
Definition guards (V : wview) (s : state) : Prop :=
  covers V payload (plains s payload) /\ covers V published (plains s published).

Definition lock_ok (s : state) : Prop :=
  match mutex s with
  | Some W => guards W s /\ forall t V p, threads s !! t = Some (Some (V, p)) -> critical p = false
  | None => exists h V p, threads s !! h = Some (Some (V, p)) /\ critical p = true /\ guards V s /\
              forall t V' p', threads s !! t = Some (Some (V', p')) -> critical p' = true -> t = h
  end.

Definition not_published (s : state) : Prop := c_value (plains s published) = 0.
Definition ready (s : state) : Prop := c_value (plains s payload) = 73.

Definition publisher_ok (s : state) (th : option (wview * pc)) : Prop :=
  match th with
  | None | Some (_, InPublish (PLock | PWritePayload)) => not_published s
  | Some (_, InPublish PWritePublished) => ready s /\ not_published s
  | Some (_, InPublish (PUnlock | PReturn)) => ready s
  | _ => False
  end.

Definition unobserved (s : state) (i : Z) : Prop := plains s (observed i) = mkPlain 0 0 0.

(** The copy has been made, and the view knows it. *)
Definition copied (V : wview) (s : state) (i : Z) : Prop :=
  v_wr V (observed i) = 1%nat /\ exists r, plains s (observed i) = mkPlain 73 1 r.

Definition consumer_ok (i : Z) (s : state) (th : option (wview * pc)) : Prop :=
  match th with
  | None => unobserved s i
  | Some (V, InConsume j p) =>
      j = i /\
      match p with
      | CLock | CReadPublished | CUnlockRetry => unobserved s i
      | CReadPayload => unobserved s i /\ ready s
      | CWriteObserved v => unobserved s i /\ v = 73
      | CUnlockReturn | CReturn => copied V s i
      end
  | _ => False
  end.

Definition main_ok (s : state) (th : option (wview * pc)) : Prop :=
  match th with
  | Some (V, InMain p) =>
      match p with
      | MJoinConsumer1 => copied V s 0
      | MRead0 | MRead1 => copied V s 0 /\ copied V s 1
      | MCheck0 v => v = 73 /\ copied V s 0 /\ copied V s 1
      | MCheck1 v => v = 73
      | _ => True
      end
  | _ => False
  end.

Definition thread_ok (t : nat) (s : state) (th : option (wview * pc)) : Prop :=
  match t with
  | 0%nat => main_ok s th
  | 1%nat => publisher_ok s th
  | 2%nat => consumer_ok 0 s th
  | _ => consumer_ok 1 s th
  end.

Record core_inv (s : state) : Prop := {
  ci_bounded : bounded s;
  ci_raced : raced s = false;
  ci_failed : failed s = false;
  ci_length : length (threads s) = 4%nat;
  ci_lock : lock_ok s;
  ci_published : c_value (plains s published) = 0 \/ ready s;
  ci_threads : forall t th, threads s !! t = Some th -> thread_ok t s th;
}.

(** *** Preservation *)

(** What the steps of thread [t] leave to the others. *)
Record evolves (t : nat) (s s' : state) : Prop := {
  ev_ready : ready s -> ready s';
  ev_published : t <> 1%nat -> not_published s -> not_published s';
  ev_unobserved : forall i, t <> Z.to_nat (2 + i) -> unobserved s i -> unobserved s' i;
  ev_copied : forall V i, copied V s i -> copied V s' i;
}.

Lemma evolves_same t s s' : plains s' = plains s -> evolves t s s'.
Proof. intros E. split; unfold ready, not_published, unobserved, copied; by rewrite E. Qed.

Lemma evolves_plain t s s' x c :
  plains s' = update (plains s) x c ->
  (x = payload -> c_value c = 73 \/ c_value c = c_value (plains s payload)) ->
  (x = published -> t = 1%nat \/ c_value c = c_value (plains s published)) ->
  (forall i, x = observed i -> unobserved s i /\ t = Z.to_nat (2 + i) \/
     exists V, copied V s i /\ c = mkPlain 73 1 (c_reads c)) ->
  evolves t s s'.
Proof.
  intros E H1 H2 H3. split; unfold ready, not_published, unobserved, copied; rewrite E; unfold update.
  - case_decide; [subst x | done]. destruct H1; congruence.
  - case_decide; [subst x | done]. destruct H2; congruence.
  - intros i Hi. case_decide; [subst x | done]. destruct (H3 i eq_refl) as [[_ ?] | (V & [_ [r Hr]] & _)]; [done |]. congruence.
  - intros V i [HV [r Hr]]. split; [done |]. case_decide; [subst x | eauto].
    destruct (H3 i eq_refl) as [[Hu _] | (W & _ & ->)]; [unfold unobserved in Hu; congruence | eauto].
Qed.

Lemma thread_ok_evolves u t s s' th :
  (u < 4)%nat -> u <> t -> evolves t s s' -> thread_ok u s th -> thread_ok u s' th.
Proof.
  intros Hu Hn [E1 E2 E3 E4].
  destruct u as [| [| [| [| u]]]]; [| | | | lia]; simpl.
  - destruct th as [[V [p | |]] |]; try done. destruct p; naive_solver.
  - destruct th as [[V [| p |]] |]; try done; [destruct p |]; naive_solver.
  - destruct th as [[V [| | j p]] |]; try done; [destruct p |]; naive_solver.
  - destruct th as [[V [| | j p]] |]; try done; [destruct p |]; naive_solver.
Qed.

Lemma core_move s s1 s' t V p V' p' :
  core_inv s -> threads s !! t = Some (Some (V, p)) -> s' = set_thread s1 t V' p' -> threads s1 = threads s ->
  raced s1 = raced s -> failed s1 = failed s -> bounded s' -> lock_ok s' ->
  (c_value (plains s' published) = 0 \/ ready s') -> evolves t s s' -> thread_ok t s' (Some (V', p')) -> core_inv s'.
Proof.
  intros Hi Ht -> Et Er Ef Hb Hl Hp Hev Hok.
  split; [done | by rewrite <- (ci_raced s Hi) | by rewrite <- (ci_failed s Hi) | | done | done |].
  - simpl. by rewrite length_insert, Et, (ci_length s Hi).
  - intros u th Hu. simpl in Hu. rewrite Et in Hu. apply list_lookup_insert_Some in Hu as [(<- & <- & _) | [Hn Hu]]; [done |].
    pose proof (lookup_lt_Some _ _ _ Hu) as Hlt. rewrite (ci_length s Hi) in Hlt.
    eapply thread_ok_evolves; [done | done | done | by apply (ci_threads s Hi)].
Qed.

(** The lock when a thread stays outside, stays inside, enters and leaves. *)
Lemma lock_outside s s1 t V p V' p' :
  lock_ok s -> threads s !! t = Some (Some (V, p)) -> critical p = false -> critical p' = false ->
  threads s1 = threads s -> mutex s1 = mutex s -> (forall W, guards W s -> guards W s1) ->
  lock_ok (set_thread s1 t V' p').
Proof.
  intros Hl Ht Hp Hp' Et Em Hg. unfold lock_ok in *. simpl. rewrite Em, Et. destruct (mutex s) as [W |].
  - destruct Hl as [Hw Ho]. split; [by apply Hg |].
    intros u U q [Hu | [= <- <-]]%thread_inserted; [by eapply Ho | done].
  - destruct Hl as (h & U & q & Hh & Hq & Hw & Ho). exists h, U, q.
    assert (Hne : t <> h) by (intros ->; congruence). rewrite list_lookup_insert_ne by done.
    split_and!; [done | done | by apply Hg |].
    intros u U' q' [Hu | [= <- <-]]%thread_inserted Hc; [by eapply Ho | congruence].
Qed.

Lemma lock_holder s t V p :
  lock_ok s -> threads s !! t = Some (Some (V, p)) -> critical p = true ->
  mutex s = None /\ guards V s /\ forall u V' p', threads s !! u = Some (Some (V', p')) -> critical p' = true -> u = t.
Proof.
  unfold lock_ok. intros Hl Ht Hp. destruct (mutex s) as [W |].
  - destruct Hl as [_ Ho]. specialize (Ho t V p Ht). congruence.
  - destruct Hl as (h & U & q & Hh & Hq & Hw & Ho). assert (t = h) as -> by eauto. simplify_eq.
    split_and!; [done | done |]. exact Ho.
Qed.

Lemma lock_inside s s1 t V p V' p' :
  lock_ok s -> threads s !! t = Some (Some (V, p)) -> critical p = true -> critical p' = true ->
  threads s1 = threads s -> mutex s1 = mutex s -> guards V' s1 -> lock_ok (set_thread s1 t V' p').
Proof.
  intros Hl Ht Hp Hp' Et Em Hg. destruct (lock_holder s t V p Hl Ht Hp) as (En & _ & Ho).
  unfold lock_ok. simpl. rewrite Em, En, Et. exists t, V', p'.
  rewrite list_lookup_insert_eq by (by eapply lookup_lt_Some). split_and!; [done | done | done |].
  intros u U q [(<- & _) | [_ Hu]]%list_lookup_insert_Some Hc; [done | by eapply Ho].
Qed.

Lemma lock_enter s t V p W p' :
  core_inv s -> threads s !! t = Some (Some (V, p)) -> mutex s = Some W -> critical p' = true ->
  lock_ok (set_thread (set_mutex s None) t (view_join V W) p').
Proof.
  intros Hi Ht Em Hp'. pose proof (ci_lock s Hi) as Hl. unfold lock_ok in Hl |- *. rewrite Em in Hl. simpl.
  destruct Hl as [[G1 G2] Ho]. exists t, (view_join V W), p'.
  rewrite list_lookup_insert_eq by (by eapply lookup_lt_Some).
  assert (Hb : below (view_join V W) s).
  { apply below_join; [by eapply (bd_threads s (ci_bounded s Hi)) | by apply (bd_mutex s (ci_bounded s Hi))]. }
  split_and!; [done | done | split; (eapply covers_le; [apply view_join_r | apply Hb | done]) |].
  intros u U q [(<- & _) | [_ Hu]]%list_lookup_insert_Some Hc; [done |]. by rewrite (Ho u U q Hu) in Hc.
Qed.

Lemma lock_leave s t V p p' :
  lock_ok s -> threads s !! t = Some (Some (V, p)) -> critical p = true -> critical p' = false ->
  lock_ok (set_thread (set_mutex s (Some V)) t V p').
Proof.
  intros Hl Ht Hp Hp'. destruct (lock_holder s t V p Hl Ht Hp) as (_ & Hg & Ho). split; [done |]. simpl.
  intros u U q [(_ & [= <- <-] & _) | [Hn Hu]]%list_lookup_insert_Some; [done |].
  destruct (critical q) eqn:Hc; [| done]. by rewrite (Ho u U q Hu Hc) in Hn.
Qed.

Lemma copied_le V W s i : view_le V W -> below W s -> copied V s i -> copied W s i.
Proof.
  intros Hle Hb [Hw [r Hr]]. split; [| eauto]. pose proof (vle_wr V W Hle (observed i)). pose proof (Hb (observed i)) as H'.
  rewrite Hr in H'. simpl in H'. lia.
Qed.

(** A read inside the critical section of a variable the mutex guards. *)
Lemma guards_read V s x (Hx : x = payload \/ x = published) :
  guards V s -> let c := plains s x in
  guards (see_read V x (c_reads c)) (set_plain s x (mkPlain (c_value c) (c_writes c) (S (c_reads c)))).
Proof.
  intros [G1 G2] c. unfold guards. simpl.
  destruct Hx as [-> | ->]; rewrite update_same, update_other by done; split;
    solve [by apply covers_see_read | by apply covers_see_other_read].
Qed.

Lemma guards_write V s x v (Hx : x = payload \/ x = published) :
  guards V s -> let c := plains s x in
  guards (see_write V x (S (c_writes c))) (set_plain s x (mkPlain v (S (c_writes c)) (c_reads c))).
Proof.
  intros [G1 G2] c. unfold guards. simpl.
  destruct Hx as [-> | ->]; rewrite update_same, update_other by done; split;
    solve [by apply covers_see_write | by apply covers_see_other_write].
Qed.

Lemma guards_covers V s x : x = payload \/ x = published -> guards V s -> covers V x (plains s x).
Proof. intros [-> | ->] [G1 G2]; done. Qed.

Lemma mutex_publisher_step s V p c s' :
  core_inv s -> threads s !! 1%nat = Some (Some (V, p)) ->
  step_thread spmc_mutex_core s 1 V (spmc_mutex_core p) c = Some s' -> bounded s' -> core_inv s'.
Proof.
  intros Hi Ht Hs Hb. pose proof (ci_threads s Hi _ _ Ht) as Hok. simpl in Hok. destruct p as [| p |]; try done.
  pose proof (ci_lock s Hi) as Hl. pose proof (ci_published s Hi) as Hp.
  assert (Hin := lock_holder s 1 V (InPublish p) Hl Ht).
  destruct p; simpl in Hs.
  - destruct (mutex s) as [W |] eqn:Em; simpl in Hs; [| done]. injection Hs as <-.
    eapply core_move; try done. by eapply lock_enter.
  - destruct (Hin eq_refl) as (Em & Hg & _).
    rewrite (covers_knows_all _ _ _ (guards_covers V s payload ltac:(by left) Hg)) in Hs. injection Hs as <-.
    eapply core_move; try done; simpl.
    + eapply lock_inside; try done. apply guards_write; [by left | done].
    + rewrite update_other by done. by left.
  - destruct (Hin eq_refl) as (Em & Hg & _). destruct Hok as [Hrd _].
    rewrite (covers_knows_all _ _ _ (guards_covers V s published ltac:(by right) Hg)) in Hs. injection Hs as <-.
    assert (Hrd' : forall c', ready (set_plain s published c')) by (intros c'; unfold ready; simpl; by rewrite update_other).
    eapply core_move; try done; simpl.
    + eapply lock_inside; try done. apply guards_write; [by right | done].
    + right. apply Hrd'.
  - destruct (Hin eq_refl) as (Em & Hg & _). injection Hs as <-.
    eapply core_move; try done. by eapply lock_leave.
  - done.
Qed.

Lemma consumer_thread i : i = 0 \/ i = 1 -> forall s th, thread_ok (Z.to_nat (2 + i)) s th = consumer_ok i s th.
Proof. by intros [-> | ->]. Qed.

Lemma mutex_consumer_step i s V p c s' :
  i = 0 \/ i = 1 -> let t := Z.to_nat (2 + i) in
  core_inv s -> threads s !! t = Some (Some (V, p)) ->
  step_thread spmc_mutex_core s t V (spmc_mutex_core p) c = Some s' -> bounded s' -> core_inv s'.
Proof.
  intros Hidx t Hi Ht Hs Hb. pose proof (ci_threads s Hi _ _ Ht) as Hok. subst t. set (t := Z.to_nat (2 + i)) in *.
  assert (Hthr : forall s th, thread_ok t s th = consumer_ok i s th) by (by apply consumer_thread).
  rewrite Hthr in Hok. destruct p as [| | j p]; try done. destruct Hok as [-> Hok].
  pose proof (ci_lock s Hi) as Hl. pose proof (ci_published s Hi) as Hp.
  assert (Hin := lock_holder s t V (InConsume i p) Hl Ht).
  destruct p as [| | | v | | |]; simpl in Hs.
  - destruct (mutex s) as [W |] eqn:Em; simpl in Hs; [| done]. injection Hs as <-.
    eapply core_move; try done; [by eapply lock_enter | by rewrite Hthr].
  - destruct (Hin eq_refl) as (Em & Hg & _).
    rewrite bool_decide_true in Hs by (by apply (guards_covers V s published ltac:(by right))). injection Hs as <-.
    assert (Hu : forall c', unobserved (set_plain s published c') i) by (intros c'; unfold unobserved; simpl; by rewrite update_other).
    eapply core_move; try done; simpl.
    + eapply lock_inside; try done; [by destruct (_ =? _) | apply guards_read; [by right | done]].
    + rewrite Hthr. simpl. split; [done |]. destruct (_ =? _) eqn:E0; [apply Hu |]. split; [apply Hu |].
      destruct Hp as [Hp |]; [by rewrite Hp in E0 |]. unfold ready. simpl. by rewrite update_other.
  - destruct (Hin eq_refl) as (Em & Hg & _). destruct Hok as [Huo Hrd].
    rewrite bool_decide_true in Hs by (by apply (guards_covers V s payload ltac:(by left))). injection Hs as <-.
    eapply core_move; try done; simpl.
    + eapply lock_inside; try done. apply guards_read; [by left | done].
    + rewrite Hthr. simpl. split_and!; [done | unfold unobserved; simpl; by rewrite update_other | done].
  - destruct (Hin eq_refl) as (Em & Hg & _). destruct Hok as [Huo ->]. unfold unobserved in Huo.
    assert (Hz : v_wr V (observed i) = 0%nat).
    { pose proof (bd_threads s (ci_bounded s Hi) t V _ Ht (observed i)) as H. rewrite Huo in H. simpl in H. lia. }
    rewrite Huo in Hs. rewrite covers_knows_all in Hs by (split; simpl; [done | lia]). injection Hs as <-.
    eapply core_move; try done; simpl.
    + by eapply lock_inside.
    + eapply evolves_plain; simpl; try done. intros k [= <-]. by left.
    + rewrite Hthr. simpl. split; [done |]. split; simpl; rewrite update_same; [done | eauto].
  - destruct (Hin eq_refl) as (Em & Hg & _). injection Hs as <-.
    eapply core_move; try done; [by eapply lock_leave | by rewrite Hthr].
  - destruct (Hin eq_refl) as (Em & Hg & _). injection Hs as <-.
    eapply core_move; try done; [by eapply lock_leave | by rewrite Hthr].
  - done.
Qed.

Lemma lock_frame_main s s1 V p V' p' :
  core_inv s -> threads s !! 0%nat = Some (Some (V, InMain p)) -> threads s1 = threads s -> mutex s1 = mutex s ->
  (forall W, guards W s -> guards W s1) -> lock_ok (set_thread s1 0 V' (InMain p')).
Proof. intros Hi Ht Et Em Hg. by eapply lock_outside; [apply (ci_lock s Hi) | ..]. Qed.

(** A new thread starts outside. *)
Lemma create_lock s t V p :
  core_inv s -> threads s !! t = Some None -> critical p = false -> lock_ok (set_thread s t V p).
Proof.
  intros Hi Ht Hp. pose proof (ci_lock s Hi) as Hl. unfold lock_ok in *. simpl. destruct (mutex s) as [W |].
  - destruct Hl as [Hw Ho]. split; [done |]. intros u U q [Hu | [= <- <-]]%thread_inserted; [by eapply Ho | done].
  - destruct Hl as (h & U & q & Hh & Hq & Hw & Ho). exists h, U, q.
    rewrite list_lookup_insert_ne by (intros ->; congruence).
    split_and!; [done | done | done |].
    intros u U' q' [Hu | [= <- <-]]%thread_inserted Hc; [by eapply Ho | congruence].
Qed.

Lemma create_inv s t V p :
  core_inv s -> threads s !! t = Some None -> below V s -> critical p = false -> thread_ok t s (Some (V, p)) ->
  core_inv (set_thread s t V p).
Proof.
  intros Hi Ht HV Hp Hok.
  split; [by apply bounded_set_thread; [apply (ci_bounded s Hi) |] | apply (ci_raced s Hi) | apply (ci_failed s Hi) | | | apply (ci_published s Hi) |].
  - simpl. rewrite length_insert. apply (ci_length s Hi).
  - by apply create_lock.
  - intros u th [(<- & <- & _) | [_ Hu]]%list_lookup_insert_Some; [done |]. by apply (ci_threads s Hi).
Qed.

(** A consumer that has returned has made its copy. *)
Lemma returned_copied s t i V p :
  core_inv s -> thread_ok t s (Some (V, p)) = consumer_ok i s (Some (V, p)) ->
  threads s !! t = Some (Some (V, p)) -> spmc_mutex_core p = Halt -> copied V s i.
Proof.
  intros Hi E Ht Hh. pose proof (ci_threads s Hi _ _ Ht) as Hok. rewrite E in Hok.
  destruct p as [| | j p]; try done. destruct Hok as [_ Hok]. by destruct p.
Qed.

(** The main thread reads a copy. *)
Lemma mutex_main_read s V i k c s' :
  copied V s i -> step_thread spmc_mutex_core s 0 V (Read (observed i) k) c = Some s' ->
  exists cell, s' = set_thread (set_plain s (observed i) cell) 0 (see_read V (observed i) (c_reads (plains s (observed i)))) (k 73) /\
    evolves 0 s s'.
Proof.
  intros Hc Hs. assert (Hc' := Hc). destruct Hc' as [Hw [r Hr]]. simpl in Hs. rewrite Hr in Hs |- *. simpl in Hs.
  rewrite bool_decide_true in Hs by done. injection Hs as <-. eexists. split; [done |].
  eapply evolves_plain; simpl; try done. intros j [= <-]. right. by exists V.
Qed.

Lemma mutex_main_step s V p c s' :
  core_inv s -> threads s !! 0%nat = Some (Some (V, p)) ->
  step_thread spmc_mutex_core s 0 V (spmc_mutex_core p) c = Some s' -> bounded s' -> core_inv s'.
Proof.
  intros Hi Ht Hs Hb. pose proof (ci_threads s Hi _ _ Ht) as Hok. simpl in Hok. destruct p as [p | |]; try done.
  pose proof (bd_threads s (ci_bounded s Hi) _ _ _ Ht) as HV.
  assert (Hjoin : forall t W q, threads s !! t = Some (Some (W, q)) -> below (view_join V W) s).
  { intros t W q Hq. apply below_join; [done | by eapply (bd_threads s (ci_bounded s Hi))]. }
  assert (Hlock : forall s1 V' p', threads s1 = threads s -> mutex s1 = mutex s ->
    (forall W, guards W s -> guards W s1) -> lock_ok (set_thread s1 0 V' (InMain p'))) by (intros; by eapply lock_frame_main).
  assert (Hcreate : forall t q k, threads s !! t = Some None -> critical q = false -> thread_ok t s (Some (V, q)) ->
    main_ok s (Some (V, InMain k)) -> bounded (set_thread (set_thread s t V q) 0 V (InMain k)) ->
    core_inv (set_thread (set_thread s t V q) 0 V (InMain k))).
  { intros t q k Hn Hc Hq Hk Hbd. assert (H0 : t <> 0%nat) by (intros ->; congruence).
    assert (Ht' : threads (set_thread s t V q) !! 0%nat = Some (Some (V, InMain p))) by (simpl; by rewrite list_lookup_insert_ne).
    pose proof (create_inv s t V q Hi Hn HV Hc Hq) as Hi'.
    eapply core_move; try done; [by eapply (lock_frame_main (set_thread s t V q)) | apply (ci_published s Hi)]. }
  destruct p as [| | | | | | | v | | v |]; simpl in Hs, Hok.
  - destruct (threads s !! 1%nat) as [[|] |] eqn:E1; try done. injection Hs as <-.
    apply Hcreate; try done. apply (ci_threads s Hi _ _ E1).
  - destruct (threads s !! 2%nat) as [[|] |] eqn:E1; try done. injection Hs as <-.
    apply Hcreate; try done. split; [done |]. apply (ci_threads s Hi _ _ E1).
  - destruct (threads s !! 3%nat) as [[|] |] eqn:E1; try done. injection Hs as <-.
    apply Hcreate; try done. split; [done |]. apply (ci_threads s Hi _ _ E1).
  - destruct (threads s !! 1%nat) as [[[W q] |] |] eqn:E1; try done. destruct (spmc_mutex_core q) eqn:Eq; try done.
    injection Hs as <-. eapply (core_move s _ _ 0 V); try done; [by apply Hlock | apply (ci_published s Hi)].
  - destruct (threads s !! 2%nat) as [[[W q] |] |] eqn:E1; try done. destruct (spmc_mutex_core q) eqn:Eq; try done.
    injection Hs as <-. eapply (core_move s _ _ 0 V); try done; [by apply Hlock | apply (ci_published s Hi) |].
    eapply copied_le; [apply view_join_r | by eapply Hjoin | by apply (returned_copied s 2 0 W q)].
  - destruct (threads s !! 3%nat) as [[[W q] |] |] eqn:E1; try done. destruct (spmc_mutex_core q) eqn:Eq; try done.
    injection Hs as <-. eapply (core_move s _ _ 0 V); try done; [by apply Hlock | apply (ci_published s Hi) |]. split.
    + eapply copied_le; [apply view_join_l | by eapply Hjoin | done].
    + eapply copied_le; [apply view_join_r | by eapply Hjoin | by apply (returned_copied s 3 1 W q)].
  - destruct (mutex_main_read s V 0 (fun v => InMain (MCheck0 v)) c s') as (cell & -> & Hev); [apply Hok | exact Hs |].
    eapply (core_move s _ _ 0 V); try done; [by apply Hlock | apply (ci_published s Hi) |]. split; [done |].
    split; apply (ev_copied _ _ _ Hev V); apply Hok.
  - destruct Hok as [-> Hc]. injection Hs as <-. eapply (core_move s _ _ 0 V); try done; [by apply Hlock | apply (ci_published s Hi)].
  - destruct (mutex_main_read s V 1 (fun v => InMain (MCheck1 v)) c s') as (cell & -> & Hev); [apply Hok | exact Hs |].
    eapply (core_move s _ _ 0 V); try done; [by apply Hlock | apply (ci_published s Hi)].
  - rewrite Hok in Hs. injection Hs as <-. eapply (core_move s _ _ 0 V); try done; [by apply Hlock | apply (ci_published s Hi)].
  - done.
Qed.

Lemma mutex_core_step s t c s' : core_inv s -> step spmc_mutex_core s t c = Some s' -> core_inv s'.
Proof.
  intros Hi Hs. pose proof (step_bounded _ s t c s' (ci_bounded s Hi) Hs) as Hb. unfold step in Hs.
  destruct (threads s !! t) as [[[V p] |] |] eqn:Ht; try done.
  pose proof (lookup_lt_Some _ _ _ Ht) as Hlt. rewrite (ci_length s Hi) in Hlt.
  destruct t as [| [| [| [| t]]]]; [by eapply mutex_main_step | by eapply mutex_publisher_step | | | lia].
  - eapply (mutex_consumer_step 0); [by left | done..].
  - eapply (mutex_consumer_step 1); [by right | done..].
Qed.

Lemma mutex_core_init : core_inv spmc_mutex_core_start.
Proof.
  split; try done.
  - split; simpl; [| done |].
    + intros t V p H. destruct t as [| [| [| [| t]]]]; simpl in H; try done. injection H as <- <-. apply below_zero.
    + intros W [= <-]. apply below_zero.
  - split; [split; split; simpl; (done || lia) |].
    intros t V p H. destruct t as [| [| [| [| t]]]]; simpl in H; try done. by injection H as <- <-.
  - by left.
  - intros t th H. destruct t as [| [| [| [| t]]]]; simpl in H; by simplify_eq.
Qed.

(** *** Joined threads have returned *)

Definition joined (p : main_pc) (t : nat) : Prop :=
  match p with
  | MCreateProducer | MCreateConsumer0 | MCreateConsumer1 | MJoinProducer => False
  | MJoinConsumer0 => t = 1%nat
  | MJoinConsumer1 => t = 1%nat \/ t = 2%nat
  | _ => t = 1%nat \/ t = 2%nat \/ t = 3%nat
  end.

Lemma reachable_core_inv s : reachable spmc_mutex_core spmc_mutex_core_start s -> core_inv s.
Proof. intros Hr. eapply reachable_invariant; [apply mutex_core_init | | exact Hr]. intros s1 t c s2. apply mutex_core_step. Qed.

Lemma reachable_main s :
  reachable spmc_mutex_core spmc_mutex_core_start s -> exists V p, threads s !! 0%nat = Some (Some (V, InMain p)).
Proof.
  intros Hi%reachable_core_inv. destruct (lookup_lt_is_Some_2 (threads s) 0) as [th Hth]; [rewrite (ci_length s Hi); lia |].
  pose proof (ci_threads s Hi _ _ Hth) as H. simpl in H. destruct th as [[V [p | |]] |]; try done. eauto.
Qed.

Lemma reachable_joined s :
  reachable spmc_mutex_core spmc_mutex_core_start s ->
  forall V p, threads s !! 0%nat = Some (Some (V, InMain p)) -> forall t, joined p t -> returned spmc_mutex_core s t.
Proof.
  induction 1 as [| s t c s' Hr IH Hs]; [by intros V p [= <- <-] |].
  assert (Hret : forall u, returned spmc_mutex_core s u -> returned spmc_mutex_core s' u) by (intros u; by eapply step_returned).
  intros V p Hp u Hu. destruct (reachable_main s Hr) as (V0 & p0 & H0). specialize (IH V0 p0 H0).
  destruct (decide (t = 0%nat)) as [-> | Hn].
  2:{ apply Hret. eapply IH. eapply (step_other _ s t c s' 0%nat) in H0; [| done | done]. by simplify_eq. }
  pose proof (lookup_lt_Some _ _ _ H0) as Hlt. unfold step in Hs. rewrite H0 in Hs.
  assert (Hj : forall t' W q, threads s !! t' = Some (Some (W, q)) -> spmc_mutex_core q = Halt -> returned spmc_mutex_core s t').
  { intros t' W q Et Eq. by exists W, q. }
  apply Hret. destruct p0; simpl in Hs, IH; repeat case_match; simplify_eq; simpl in Hp;
    try (rewrite list_lookup_insert_eq in Hp by (rewrite ?length_insert; done)); simplify_eq; simpl in Hu; naive_solver.
Qed.
End proofs.

(** ** The theorem *)

(** C13: no execution of the mutex harness has a data race and none of its
    assertions fails: both consumers observe the published payload.  At most one
    thread is inside a critical section, and the mutex is free when the main thread
    destroys it. *)
Theorem spmc_mutex_core_correct s :
  reachable spmc_mutex_core spmc_mutex_core_start s ->
  raced s = false /\ failed s = false /\
  (forall t u V W p q, threads s !! t = Some (Some (V, p)) -> threads s !! u = Some (Some (W, q)) ->
     critical p = true -> critical q = true -> t = u) /\
  (forall V, threads s !! 0%nat = Some (Some (V, InMain MDestroy)) -> exists W, mutex s = Some W).
Proof.
  intros Hr. pose proof (reachable_core_inv s Hr) as Hi. split_and!; [by destruct Hi | by destruct Hi | |].
  - intros t u V W p q Ht Hu Hp Hq. destruct (lock_holder s u W q (ci_lock s Hi) Hu Hq) as (_ & _ & Ho). by eapply Ho.
  - intros V Ht. pose proof (ci_lock s Hi) as Hl. unfold lock_ok in Hl. destruct (mutex s) as [W |]; [by exists W |].
    destruct Hl as (h & U & q & Hh & Hq & _). exfalso.
    pose proof (lookup_lt_Some _ _ _ Hh) as Hlt. rewrite (ci_length s Hi) in Hlt.
    destruct (decide (h = 0%nat)) as [-> | Hh0]; [by simplify_eq |].
    destruct (reachable_joined s Hr V MDestroy Ht h) as (U' & q' & Hh' & Hq'); [simpl; lia |].
    simplify_eq. by destruct q as [| [] | j []].
Qed.

(** One consumer takes the mutex before the publication, finds nothing and
    retries. *)
Definition multicast_schedule : list (nat * choice) :=
  (fun t => (t, mkChoice 0 false)) <$>
    [0; 0; 0; 2; 2; 2; 1; 1; 1; 1; 3; 3; 3; 3; 3; 2; 2; 2; 2; 2; 0; 0; 0; 0; 0; 0; 0]%nat.

Lemma spmc_mutex_core_correct_witness :
  let s := outcome spmc_mutex_core spmc_mutex_core_start multicast_schedule in
  program_point s 0 = Some (InMain MDestroy) /\ raced s = false /\ failed s = false /\ exists W, mutex s = Some W.
Proof.
  intros s. assert (Hr : reachable spmc_mutex_core spmc_mutex_core_start s) by (apply outcome_reachable; vm_compute; reflexivity).
  assert (Hp : program_point s 0 = Some (InMain MDestroy)) by (vm_compute; reflexivity).
  destruct (spmc_mutex_core_correct s Hr) as (H1 & H2 & _ & H4). clearbody s.
  split; [exact Hp |]. split; [exact H1 |]. split; [exact H2 |].
  apply program_point_thread in Hp as [V HV]. exact (H4 V HV).
Defined.
