(* ===== verification/MPMCCore.v ===== *)
(** * The MPMC protocol under weak memory ([verification/genmc/mpmc_core.c])

    The harness is the protocol of [MPMCQueue] with its memory orders on two cells:
    three producer threads push one value each, three consumer threads pop one each
    and the main thread checks what they got.  It is modelled at every access, the
    retry loops included, on the memory of [WeakMemory]; the orders of the loads and
    stores of the cell sequences are parameters ([acq], [rel]), so that the relaxed
    variant of [run_negative_controls.sh] is an instance.

    Theorems: with acquire and release no execution races and no assertion fails;
    with relaxed orders there is an execution with a data race on a cell.

    The proof keeps the producers and the consumers in the order of the positions
    they took ([po], [co]).  The position counters are only written by
    compare-exchange, so their histories are the numbers in order.  The sequence of
    a cell only grows, and its last message tells who may use the cell: while nobody
    has taken the position it waits for, the message carries knowledge of every
    access to the cell ([covers]), otherwise the thread that took it has that
    knowledge ([owner_ok]). *)

From stdpp Require Import gmap.
From S2P Require Import Prelude Views WeakMemory.

Inductive atomic_var : Type := sequence (cell : Z) | enqueue_position | dequeue_position.

Inductive plain_var : Type :=
| cell_value (cell : Z)
| producer_value (index : Z)
| producer_sequence (index : Z)
| consumer_value (index : Z)
| consumer_sequence (index : Z).

#[export] Instance mpmc_atomic_eq_dec : EqDecision atomic_var.
Proof. solve_decision. Defined.
#[export] Instance mpmc_plain_eq_dec : EqDecision plain_var.
Proof. solve_decision. Defined.

Definition capacity : Z := 2.
Definition worker_count : Z := 3.

(** ** The code *)

Inductive push_pc : Type :=
| PushLoadPosition
| PushLoadSequence (position : Z)
| PushCas (position : Z)
| PushWriteValue (position : Z)
| PushWriteLogical (position : Z)
| PushStoreSequence (position : Z).

Inductive pop_pc : Type :=
| PopLoadPosition
| PopLoadSequence (position : Z)
| PopCas (position : Z)
| PopReadValue (position : Z)
| PopWriteValue (position value : Z)
| PopWriteLogical (position : Z)
| PopStoreSequence (position : Z).

Inductive produce_pc : Type :=
| ReadValue
| InPush (value : Z) (p : push_pc)
| PushReturned (r : Z)
| ProduceReturn.

Inductive consume_pc : Type :=
| InPop (p : pop_pc)
| PopReturned (r : Z)
| ConsumeReturn.

(** The pairs the main thread compares. *)
Inductive compared : Type := ProducerSequences | ConsumerSequences | ConsumerValues.

Inductive main_pc : Type :=
| MInitCell (index : Z) | MInitEnqueue | MInitDequeue
| MSetProducerValue (index : Z) | MSetProducerSequence (index : Z)
| MSetConsumerValue (index : Z) | MSetConsumerSequence (index : Z)
| MCreateProducer (index : Z) | MCreateConsumer (index : Z)
| MJoinProducer (index : Z) | MJoinConsumer (index : Z)
| MOneOf (l : Z) (values : list Z)
| MRight (l r : Z)
| MReadLeft (f : compared) (l r : Z)
| MReadRight (f : compared) (l r a : Z)
| MCompare (f : compared) (l r a b : Z)
| MReturn.

Inductive pc : Type :=
| InMain (p : main_pc)
| InProduce (index : Z) (p : produce_pc)
| InConsume (index : Z) (p : consume_pc).

Definition producer_thread (index : Z) : nat := Z.to_nat (1 + 2 * index).
Definition consumer_thread (index : Z) : nat := Z.to_nat (2 + 2 * index).

Section code.

Context (acq rel : memory_order).

Abbreviation instruction := (instruction atomic_var plain_var pc).

(** [index] is the producer's, whose [value] and [sequence] are passed. *)
Definition try_push (index value : Z) (p : push_pc) : instruction :=
  let at_pc p := InProduce index (InPush value p) in
  match p with
  | PushLoadPosition => Load relaxed enqueue_position (fun position => at_pc (PushLoadSequence position))
  | PushLoadSequence position =>
      Load acq (sequence (Z.land position (capacity - 1))) (fun seq =>
        if seq =? position then at_pc (PushCas position)
        else if seq <? position then InProduce index (PushReturned 0)
        else at_pc PushLoadPosition)
  | PushCas position =>
      CasWeak enqueue_position position (position +u 1)
        (at_pc (PushWriteValue position)) (fun position => at_pc (PushLoadSequence position))
  | PushWriteValue position =>
      Write (cell_value (Z.land position (capacity - 1))) value (at_pc (PushWriteLogical position))
  | PushWriteLogical position => Write (producer_sequence index) (position +u 1) (at_pc (PushStoreSequence position))
  | PushStoreSequence position =>
      Store rel (sequence (Z.land position (capacity - 1))) (position +u 1) (InProduce index (PushReturned 1))
  end.

Definition try_pop (index : Z) (p : pop_pc) : instruction :=
  let at_pc p := InConsume index (InPop p) in
  match p with
  | PopLoadPosition => Load relaxed dequeue_position (fun position => at_pc (PopLoadSequence position))
  | PopLoadSequence position =>
      Load acq (sequence (Z.land position (capacity - 1))) (fun seq =>
        if seq =? position +u 1 then at_pc (PopCas position)
        else if seq <? position +u 1 then InConsume index (PopReturned 0)
        else at_pc PopLoadPosition)
  | PopCas position =>
      CasWeak dequeue_position position (position +u 1)
        (at_pc (PopReadValue position)) (fun position => at_pc (PopLoadSequence position))
  | PopReadValue position =>
      Read (cell_value (Z.land position (capacity - 1))) (fun v => at_pc (PopWriteValue position v))
  | PopWriteValue position v => Write (consumer_value index) v (at_pc (PopWriteLogical position))
  | PopWriteLogical position => Write (consumer_sequence index) (position +u 1) (at_pc (PopStoreSequence position))
  | PopStoreSequence position =>
      Store rel (sequence (Z.land position (capacity - 1))) (position +u capacity) (InConsume index (PopReturned 1))
  end.

(** The loops of [produce] and [consume] repeat the call until it returns 1. *)
Definition produce (index : Z) (p : produce_pc) : instruction :=
  match p with
  | ReadValue => Read (producer_value index) (fun value => InProduce index (InPush value PushLoadPosition))
  | InPush value p => try_push index value p
  | PushReturned r => Go (InProduce index (if r =? 0 then ReadValue else ProduceReturn))
  | ProduceReturn => Halt
  end.

Definition consume (index : Z) (p : consume_pc) : instruction :=
  match p with
  | InPop p => try_pop index p
  | PopReturned r => Go (InConsume index (if r =? 0 then InPop PopLoadPosition else ConsumeReturn))
  | ConsumeReturn => Halt
  end.

Definition compared_var (f : compared) (index : Z) : plain_var :=
  match f with
  | ProducerSequences => producer_sequence index
  | ConsumerSequences => consumer_sequence index
  | ConsumerValues => consumer_value index
  end.

(** [producer_state] is initialised with 11, 22 and 33. *)
Definition initial_value (index : Z) : Z := 11 * (index + 1).

Definition main (p : main_pc) : instruction :=
  let next index := index + 1 <? worker_count in
  match p with
  | MInitCell index =>
      Init (sequence index) index (InMain (if index + 1 <? capacity then MInitCell (index + 1) else MInitEnqueue))
  | MInitEnqueue => Init enqueue_position 0 (InMain MInitDequeue)
  | MInitDequeue => Init dequeue_position 0 (InMain (MSetProducerValue 0))
  | MSetProducerValue index => Write (producer_value index) (initial_value index) (InMain (MSetProducerSequence index))
  | MSetProducerSequence index =>
      Write (producer_sequence index) 0
        (InMain (if next index then MSetProducerValue (index + 1) else MSetConsumerValue 0))
  | MSetConsumerValue index => Write (consumer_value index) 0 (InMain (MSetConsumerSequence index))
  | MSetConsumerSequence index =>
      Write (consumer_sequence index) 0
        (InMain (if next index then MSetConsumerValue (index + 1) else MCreateProducer 0))
  | MCreateProducer index =>
      Create (producer_thread index) (InProduce index ReadValue) (InMain (MCreateConsumer index))
  | MCreateConsumer index =>
      Create (consumer_thread index) (InConsume index (InPop PopLoadPosition))
        (InMain (if next index then MCreateProducer (index + 1) else MJoinProducer 0))
  | MJoinProducer index => Join (producer_thread index) (InMain (MJoinConsumer index))
  | MJoinConsumer index =>
      Join (consumer_thread index)
        (InMain (if next index then MJoinProducer (index + 1) else MOneOf 0 [11; 22; 33]))
  | MOneOf l [] => Assert false (InMain MReturn)
  | MOneOf l (v :: values) =>
      Read (consumer_value l) (fun x => InMain (if x =? v then MRight l (l + 1) else MOneOf l values))
  | MRight l r =>
      Go (InMain (if r <? worker_count then MReadLeft ProducerSequences l r
                  else if next l then MOneOf (l + 1) [11; 22; 33] else MReturn))
  | MReadLeft f l r => Read (compared_var f l) (fun a => InMain (MReadRight f l r a))
  | MReadRight f l r a => Read (compared_var f r) (fun b => InMain (MCompare f l r a b))
  | MCompare f l r a b =>
      Assert (negb (a =? b))
        (InMain match f with
                | ProducerSequences => MReadLeft ConsumerSequences l r
                | ConsumerSequences => MReadLeft ConsumerValues l r
                | ConsumerValues => MRight l (r + 1)
                end)
  | MReturn => Halt
  end.

Definition mpmc_core (p : pc) : instruction :=
  match p with
  | InMain p => main p
  | InProduce index p => produce index p
  | InConsume index p => consume index p
  end.

End code.

Abbreviation state := (machine atomic_var plain_var pc).

(** Static variables are zero; the locals of [main] are written before they are
    read. *)
Definition mpmc_core_start : state :=
  mkMachine (fun _ => {[ 0%nat := mkMessage 0 view_zero ]}) (fun _ => mkPlain 0 0 0) (Some view_zero)
    [Some (view_zero, InMain (MInitCell 0)); None; None; None; None; None; None] false false.

(** ** The invariant *)

Section proofs.

Abbreviation wview := (view atomic_var plain_var).
Abbreviation wmessage := (message atomic_var plain_var Z).
Abbreviation history := (gmap nat wmessage).
Abbreviation core := (mpmc_core acquire release).

(** *** Histories *)

(** A counter that has been incremented [n] times. *)
Definition counter (h : history) (n : nat) : Prop :=
  forall k, match h !! k with
            | Some m => (k <= n)%nat /\ m_value m = Z.of_nat k
            | None => (n < k)%nat
            end.

Lemma counter_value h n k m : counter h n -> h !! k = Some m -> (k <= n)%nat /\ m_value m = Z.of_nat k.
Proof. intros H E. specialize (H k). by rewrite E in H. Qed.

Lemma counter_last h n k m : counter h n -> h !! k = Some m -> h !! S k = None -> k = n.
Proof. intros H E1 E2. destruct (counter_value h n k m H E1). specialize (H (S k)). rewrite E2 in H. lia. Qed.

Lemma counter_increment h n W : counter h n -> counter (<[S n := mkMessage (Z.of_nat (S n)) W]> h) (S n).
Proof.
  intros H k. destruct (decide (k = S n)) as [-> | Hn].
  - rewrite lookup_insert_eq. simpl. lia.
  - rewrite lookup_insert_ne by done. specialize (H k). destruct (h !! k); [destruct H; split; [lia | done] | lia].
Qed.

(** The newest message. *)
Definition top (h : history) (t : nat) (m : wmessage) : Prop :=
  h !! t = Some m /\ forall t' m', h !! t' = Some m' -> (t' <= t)%nat.

Definition increasing (h : history) : Prop :=
  forall t1 t2 m1 m2, h !! t1 = Some m1 -> h !! t2 = Some m2 -> (t1 < t2)%nat -> m_value m1 < m_value m2.

Lemma top_unique h t1 m1 t2 m2 : top h t1 m1 -> top h t2 m2 -> t1 = t2 /\ m1 = m2.
Proof.
  intros [E1 H1] [E2 H2]. assert (t1 = t2) as -> by (specialize (H1 _ _ E2); specialize (H2 _ _ E1); lia). by simplify_eq.
Qed.

Lemma top_value h t m t' m' :
  increasing h -> top h t m -> h !! t' = Some m' -> m_value m' = m_value m /\ m' = m \/ m_value m' < m_value m.
Proof.
  intros Hi [E H] E'. pose proof (H _ _ E') as Hle. destruct (decide (t' = t)) as [-> |]; [simplify_eq; auto |].
  right. eapply Hi; [done | done | lia].
Qed.

Lemma increasing_inj h t1 t2 m : increasing h -> h !! t1 = Some m -> h !! t2 = Some m -> t1 = t2.
Proof.
  intros Hi H1 H2. destruct (lt_eq_lt_dec t1 t2) as [[Hlt |] | Hlt]; [| done |].
  - pose proof (Hi _ _ _ _ H1 H2 Hlt). lia.
  - pose proof (Hi _ _ _ _ H2 H1 Hlt). lia.
Qed.

Lemma top_store h t m t' m' : top h t m -> (t < t')%nat -> top (<[t' := m']> h) t' m'.
Proof.
  intros [E H] Hlt. split; [by rewrite lookup_insert_eq |].
  intros u mu [(<- & _) | [_ Hu]]%lookup_insert_Some; [done |]. specialize (H u mu Hu). lia.
Qed.

Lemma increasing_store h t m t' m' :
  increasing h -> top h t m -> (t < t')%nat -> m_value m < m_value m' -> increasing (<[t' := m']> h).
Proof.
  intros Hi [E H] Hlt Hv t1 t2 m1 m2 H1 H2 H12.
  apply lookup_insert_Some in H1 as [(<- & <-) | [N1 H1]]; apply lookup_insert_Some in H2 as [(<- & <-) | [N2 H2]].
  - lia.
  - specialize (H _ _ H2). lia.
  - pose proof (H _ _ H1). destruct (decide (t1 = t)) as [-> |]; [by simplify_eq |]. etrans; [eapply (Hi t1 t); [done | done | lia] | done].
  - by eapply Hi.
Qed.

(** *** Memory *)

Definition value_at (po : list Z) (p : Z) : Z := default 0 (initial_value <$> po !! Z.to_nat p).

Definition workers (l : list Z) : Prop := NoDup l /\ Forall (fun i => 0 <= i < worker_count) l.

Section memory.

Context (po co : list Z) (H : atomic_var -> history) (C : plain_var -> plain Z).

Definition pushes : Z := Z.of_nat (length po).
Definition pops : Z := Z.of_nat (length co).

(** What the newest message [m] of cell [j] says: with the value of a position the
    cell waits for the push of that position, with the value after it for the pop. *)
Definition cell_top (j : Z) (m : wmessage) : Prop :=
  let n := m_value m in
  let known := covers (m_view m) (cell_value j) (C (cell_value j)) in
  j <= n /\
  if n mod 2 =? j then n < pops + 2 /\ (pushes <= n -> known)
  else n <= pushes /\ n < pops + 3 /\ c_value (C (cell_value j)) = value_at po (n - 1) /\ (pops <= n - 1 -> known).

Record cell_ok (j : Z) : Prop := {
  cl_increasing : increasing (H (sequence j));
  cl_top : exists t m, top (H (sequence j)) t m /\ cell_top j m;
}.

Record memory_ok : Prop := {
  mo_po : workers po;
  mo_co : workers co;
  mo_order : pops <= pushes;
  mo_enqueue : counter (H enqueue_position) (length po);
  mo_dequeue : counter (H dequeue_position) (length co);
  mo_values : forall i, 0 <= i < worker_count -> c_value (C (producer_value i)) = initial_value i;
  mo_cells : forall j, j = 0 \/ j = 1 -> cell_ok j;
}.

(** The view has taken over the message of cell [j] with value [n]. *)
Definition acquired (V : wview) (j n : Z) : Prop :=
  exists t m, H (sequence j) !! t = Some m /\ m_value m = n /\ (t <= v_at V (sequence j))%nat /\ view_le (m_view m) V.

(** The view is that of the thread that may use cell [j]. *)
Definition owner_ok (V : wview) (j n : Z) : Prop :=
  exists t m, top (H (sequence j)) t m /\ m_value m = n /\ (t <= v_at V (sequence j))%nat /\
    covers V (cell_value j) (C (cell_value j)).

(** The thread a variable is passed to. *)
Definition owned_by (x : plain_var) : option nat :=
  match x with
  | cell_value _ => None
  | producer_value i | producer_sequence i => Some (producer_thread i)
  | consumer_value i | consumer_sequence i => Some (consumer_thread i)
  end.

Definition holds (V : wview) (u : nat) : Prop := forall x, owned_by x = Some u -> covers V x (C x).
Definition knows (V : wview) (u : nat) : Prop := forall x, owned_by x = Some u -> v_wr V x = c_writes (C x).

Definition pushing (V : wview) (i pos : Z) : Prop :=
  0 <= pos /\ po !! Z.to_nat pos = Some i /\ owner_ok V (pos mod 2) pos.

Definition pushed (i : Z) : Prop :=
  exists pos, 0 <= pos /\ po !! Z.to_nat pos = Some i /\ c_value (C (producer_sequence i)) = pos + 1.

Definition producer_ok (i : Z) (th : option (wview * pc)) : Prop :=
  match th with
  | None => i ∉ po
  | Some (V, InProduce i' p) =>
      i' = i /\
      match p with
      | ReadValue => holds V (producer_thread i) /\ i ∉ po
      | InPush v p =>
          holds V (producer_thread i) /\ v = initial_value i /\
          match p with
          | PushLoadPosition => i ∉ po
          | PushLoadSequence pos => (i ∉ po) /\ 0 <= pos <= worker_count
          | PushCas pos => (i ∉ po) /\ 0 <= pos <= worker_count /\ acquired V (pos mod 2) pos
          | PushWriteValue pos => pushing V i pos
          | PushWriteLogical pos => pushing V i pos /\ c_value (C (cell_value (pos mod 2))) = v
          | PushStoreSequence pos =>
              pushing V i pos /\ c_value (C (cell_value (pos mod 2))) = v /\ c_value (C (producer_sequence i)) = pos + 1
          end
      | PushReturned r => holds V (producer_thread i) /\ (r = 0 /\ i ∉ po \/ r = 1 /\ pushed i)
      | ProduceReturn => knows V (producer_thread i) /\ pushed i
      end
  | _ => False
  end.

Definition popping (V : wview) (i pos : Z) : Prop :=
  0 <= pos /\ co !! Z.to_nat pos = Some i /\ owner_ok V (pos mod 2) (pos + 1).

Definition took (i pos : Z) : Prop := 0 <= pos < pushes /\ c_value (C (consumer_value i)) = value_at po pos.

Definition popped (i : Z) : Prop :=
  exists pos, co !! Z.to_nat pos = Some i /\ took i pos /\ c_value (C (consumer_sequence i)) = pos + 1.

Definition consumer_ok (i : Z) (th : option (wview * pc)) : Prop :=
  match th with
  | None => i ∉ co
  | Some (V, InConsume i' p) =>
      i' = i /\
      match p with
      | InPop p =>
          holds V (consumer_thread i) /\
          match p with
          | PopLoadPosition => i ∉ co
          | PopLoadSequence pos => (i ∉ co) /\ 0 <= pos <= worker_count
          | PopCas pos => (i ∉ co) /\ 0 <= pos <= worker_count /\ acquired V (pos mod 2) (pos + 1)
          | PopReadValue pos => popping V i pos
          | PopWriteValue pos v => popping V i pos /\ pos < pushes /\ v = value_at po pos
          | PopWriteLogical pos => popping V i pos /\ took i pos
          | PopStoreSequence pos => popping V i pos /\ took i pos /\ c_value (C (consumer_sequence i)) = pos + 1
          end
      | PopReturned r => holds V (consumer_thread i) /\ (r = 0 /\ i ∉ co \/ r = 1 /\ popped i)
      | ConsumeReturn => knows V (consumer_thread i) /\ popped i
      end
  | _ => False
  end.

End memory.

Definition uncreated (V : wview) (s : state) (u0 : nat) : Prop :=
  forall u, (u0 <= u < 7)%nat -> threads s !! u = Some None /\ holds (plains s) V u.

Definition joined (V : wview) (s : state) (u0 : nat) : Prop :=
  forall u, (1 <= u < u0)%nat -> returned core s u /\ knows (plains s) V u.

Definition main_ok (s : state) (th : option (wview * pc)) : Prop :=
  match th with
  | Some (V, InMain p) =>
      match p with
      | MCreateProducer i => 0 <= i < worker_count /\ uncreated V s (producer_thread i)
      | MCreateConsumer i => 0 <= i < worker_count /\ uncreated V s (consumer_thread i)
      | MJoinProducer i => 0 <= i < worker_count /\ joined V s (producer_thread i)
      | MJoinConsumer i => 0 <= i < worker_count /\ joined V s (consumer_thread i)
      | MOneOf l vs => 0 <= l < worker_count /\ joined V s 7 /\ c_value (plains s (consumer_value l)) ∈ vs
      | MRight l r => 0 <= l < worker_count /\ l < r /\ joined V s 7
      | MReadLeft f l r => 0 <= l < r /\ r < worker_count /\ joined V s 7
      | MReadRight f l r a =>
          0 <= l < r /\ r < worker_count /\ joined V s 7 /\ a = c_value (plains s (compared_var f l))
      | MCompare f l r a b =>
          0 <= l < r /\ r < worker_count /\ joined V s 7 /\
          a = c_value (plains s (compared_var f l)) /\ b = c_value (plains s (compared_var f r))
      | MReturn => True
      | _ => False
      end
  | _ => False
  end.

Record core_inv (po co : list Z) (s : state) : Prop := {
  ci_bounded : bounded s;
  ci_raced : raced s = false;
  ci_failed : failed s = false;
  ci_length : length (threads s) = 7%nat;
  ci_memory : memory_ok po co (hist s) (plains s);
  ci_main : forall th, threads s !! 0%nat = Some th -> main_ok s th;
  ci_producers : forall i th, 0 <= i < worker_count -> threads s !! producer_thread i = Some th ->
    producer_ok po (hist s) (plains s) i th;
  ci_consumers : forall i th, 0 <= i < worker_count -> threads s !! consumer_thread i = Some th ->
    consumer_ok po co (hist s) (plains s) i th;
}.

(** *** What a step leaves to the other threads *)

Lemma mod2_succ p : (p + 1) mod 2 <> p mod 2.
Proof. Z.div_mod_to_equations. lia. Qed.

(** Thread [t] has taken the position for which cell [j] has the value [n]. *)
Definition claims (po co : list Z) (t : nat) (j n : Z) : Prop :=
  (exists i pos, t = producer_thread i /\ 0 <= pos /\ po !! Z.to_nat pos = Some i /\ j = pos mod 2 /\ n = pos) \/
  (exists i pos, t = consumer_thread i /\ 0 <= pos /\ co !! Z.to_nat pos = Some i /\ j = pos mod 2 /\ n = pos + 1).

Lemma claims_unique po co t u j n : claims po co t j n -> claims po co u j n -> t = u.
Proof.
  intros [(i & p & -> & Hp & Ei & -> & ->) | (i & p & -> & Hp & Ei & -> & ->)]
    [(i' & p' & -> & Hp' & Ei' & E & E') | (i' & p' & -> & Hp' & Ei' & E & E')].
  - subst p'. congruence.
  - subst p. by destruct (mod2_succ p').
  - subst p'. by destruct (mod2_succ p).
  - replace p' with p in * by lia. congruence.
Qed.

(** A thread other than [t] sees its memory as before, but for new messages. *)
Record evolves (t : nat) (po co po' co' : list Z) (s s' : state) : Prop := {
  ev_hist : forall l k m, hist s l !! k = Some m -> hist s' l !! k = Some m;
  ev_po : po' = po \/ exists i, t = producer_thread i /\ 0 <= i /\ po' = po ++ [i];
  ev_co : co' = co \/ exists i, t = consumer_thread i /\ 0 <= i /\ co' = co ++ [i];
  ev_cell : forall j, hist s' (sequence j) = hist s (sequence j) /\ plains s' (cell_value j) = plains s (cell_value j) \/
    exists k m, top (hist s (sequence j)) k m /\ claims po co t j (m_value m);
  ev_private : forall x u, owned_by x = Some u -> u <> t ->
    plains s' x = plains s x \/
    returned core s u /\ c_value (plains s' x) = c_value (plains s x) /\ c_writes (plains s' x) = c_writes (plains s x);
}.

Lemma producer_thread_inj i j : 0 <= i -> 0 <= j -> producer_thread i = producer_thread j -> i = j.
Proof. unfold producer_thread. lia. Qed.

Lemma consumer_thread_inj i j : 0 <= i -> 0 <= j -> consumer_thread i = consumer_thread j -> i = j.
Proof. unfold consumer_thread. lia. Qed.

Section frame.

Context (t u : nat) (po co po' co' : list Z) (s s' : state).
Context (Hev : evolves t po co po' co' s s') (Hne : u <> t).

Lemma acquired_frame V j n : acquired (hist s) V j n -> acquired (hist s') V j n.
Proof. intros (k & m & E & Hm). exists k, m. split; [by apply (ev_hist _ _ _ _ _ _ _ Hev) | done]. Qed.

Lemma owner_frame V j n :
  claims po co u j n -> owner_ok (hist s) (plains s) V j n ->
  owner_ok (hist s') (plains s') V j n /\ plains s' (cell_value j) = plains s (cell_value j).
Proof.
  intros Hcl (k & m & Ht & Hn & Ho). destruct (ev_cell _ _ _ _ _ _ _ Hev j) as [[E1 E2] | (k' & m' & Ht' & Hcl')].
  - split; [| done]. exists k, m. by rewrite E1, E2.
  - destruct (top_unique _ _ _ _ _ Ht Ht') as [<- <-]. rewrite Hn in Hcl'. by destruct Hne; eapply claims_unique.
Qed.

Lemma holds_frame V : ~ returned core s u -> holds (plains s) V u -> holds (plains s') V u.
Proof.
  intros Hr Hh x Hx. destruct (ev_private _ _ _ _ _ _ _ Hev x u Hx Hne) as [E | [? _]]; [| done].
  rewrite E. by apply Hh.
Qed.

Lemma knows_frame V : knows (plains s) V u -> knows (plains s') V u.
Proof.
  intros Hh x Hx. rewrite (Hh x Hx). destruct (ev_private _ _ _ _ _ _ _ Hev x u Hx Hne) as [E | (_ & _ & E)]; by rewrite E.
Qed.

Lemma value_frame x : owned_by x = Some u -> c_value (plains s' x) = c_value (plains s x).
Proof.
  intros Hx. destruct (ev_private _ _ _ _ _ _ _ Hev x u Hx Hne) as [E | (_ & E & _)]; by rewrite E.
Qed.

Lemma po_lookup p i : po !! p = Some i -> po' !! p = Some i.
Proof. intros E. destruct (ev_po _ _ _ _ _ _ _ Hev) as [-> | (j & _ & _ & ->)]; [done | by apply lookup_app_l_Some]. Qed.

Lemma co_lookup p i : co !! p = Some i -> co' !! p = Some i.
Proof. intros E. destruct (ev_co _ _ _ _ _ _ _ Hev) as [-> | (j & _ & _ & ->)]; [done | by apply lookup_app_l_Some]. Qed.

Lemma pushes_mono : pushes po <= pushes po'.
Proof.
  unfold pushes. destruct (ev_po _ _ _ _ _ _ _ Hev) as [-> | (j & _ & _ & ->)]; rewrite ?length_app; lia.
Qed.

Lemma value_at_frame p : 0 <= p < pushes po -> value_at po' p = value_at po p.
Proof.
  intros Hp. unfold value_at. destruct (lookup_lt_is_Some_2 po (Z.to_nat p)) as [i Hi]; [unfold pushes in Hp; lia |].
  by rewrite Hi, (po_lookup _ _ Hi).
Qed.

Lemma took_frame i p : u = consumer_thread i -> took po (plains s) i p -> took po' (plains s') i p.
Proof.
  intros Hu [Hp Hv]. pose proof pushes_mono. split; [lia |].
  rewrite (value_frame (consumer_value i)) by (by rewrite Hu). by rewrite value_at_frame.
Qed.

Lemma popped_frame i : u = consumer_thread i -> popped po co (plains s) i -> popped po' co' (plains s') i.
Proof.
  intros Hu (p & Hc & Ht & Hs). exists p. split; [by apply co_lookup |]. split; [by apply took_frame |].
  by rewrite (value_frame (consumer_sequence i)) by (by rewrite Hu).
Qed.

Lemma pushed_frame i : u = producer_thread i -> pushed po (plains s) i -> pushed po' (plains s') i.
Proof.
  intros Hu (p & Hp & Hc & Hs). exists p. split; [done |]. split; [by apply po_lookup |].
  by rewrite (value_frame (producer_sequence i)) by (by rewrite Hu).
Qed.

Lemma pushing_frame V i p :
  u = producer_thread i -> pushing po (hist s) (plains s) V i p ->
  pushing po' (hist s') (plains s') V i p /\ plains s' (cell_value (p mod 2)) = plains s (cell_value (p mod 2)).
Proof.
  intros Hu (Hp & Hi & Ho). destruct (owner_frame V (p mod 2) p) as [Ho' E]; [left; by exists i, p | done |].
  split; [| done]. split; [done |]. split; [by apply po_lookup | done].
Qed.

Lemma popping_frame V i p :
  u = consumer_thread i -> popping co (hist s) (plains s) V i p -> popping co' (hist s') (plains s') V i p.
Proof.
  intros Hu (Hp & Hi & Ho). destruct (owner_frame V (p mod 2) (p + 1)) as [Ho' E]; [right; by exists i, p | done |].
  split; [done |]. split; [by apply co_lookup | done].
Qed.

Lemma producer_absent i : 0 <= i -> u = producer_thread i -> i ∉ po -> i ∉ po'.
Proof.
  intros Hi Hu Hn. destruct (ev_po _ _ _ _ _ _ _ Hev) as [-> | (j & Hj & Hj0 & ->)]; [done |].
  intros [? | ->%list_elem_of_singleton]%elem_of_app; [done |]. congruence.
Qed.

Lemma consumer_absent i : 0 <= i -> u = consumer_thread i -> i ∉ co -> i ∉ co'.
Proof.
  intros Hi Hu Hn. destruct (ev_co _ _ _ _ _ _ _ Hev) as [-> | (j & Hj & Hj0 & ->)]; [done |].
  intros [? | ->%list_elem_of_singleton]%elem_of_app; [done |]. congruence.
Qed.

End frame.

Lemma running_not_returned s u V p : threads s !! u = Some (Some (V, p)) -> core p <> Halt -> ~ returned core s u.
Proof. intros Hu Hp (V' & p' & Hu' & Hp'). congruence. Qed.

Lemma producer_frame t po co po' co' s s' i th :
  evolves t po co po' co' s s' -> producer_thread i <> t -> 0 <= i -> threads s !! producer_thread i = Some th ->
  producer_ok po (hist s) (plains s) i th -> producer_ok po' (hist s') (plains s') i th.
Proof.
  intros Hev Hne Hi Ht. pose proof (producer_absent t _ _ _ _ _ _ _ Hev Hne i Hi eq_refl) as Habs.
  destruct th as [[V [| i' p |]] |]; [done | | done | done]. intros [-> Hok]. split; [done |].
  assert (Hh : core (InProduce i p) <> Halt -> holds (plains s) V (producer_thread i) -> holds (plains s') V (producer_thread i)).
  { intros Hp. eapply holds_frame; [done | done | by eapply running_not_returned]. }
  destruct p as [| v p | r |].
  - destruct Hok. split; [by apply Hh | auto].
  - destruct Hok as (Hhold & Hv & Hok). split; [apply Hh; [by destruct p | done] |]. split; [done |].
    destruct p as [| pos | pos | pos | pos | pos].
    + auto.
    + destruct Hok. auto.
    + destruct Hok as (? & ? & ?). split_and!; [auto | lia | lia |]. by eapply acquired_frame.
    + by eapply pushing_frame in Hok as [? _].
    + destruct Hok as [Hok Hc]. eapply pushing_frame in Hok as [Hok E]; [| done..]. by rewrite E.
    + destruct Hok as (Hok & Hc & Hs). eapply pushing_frame in Hok as [Hok E]; [| done..]. rewrite E.
      by rewrite (value_frame t (producer_thread i) po co po' co' s s').
  - destruct Hok as [Hhold Hok]. split; [by apply Hh |]. destruct Hok as [[-> ?] | [-> ?]]; [left; auto | right].
    split; [done |]. by eapply pushed_frame.
  - destruct Hok. split; [by eapply knows_frame | by eapply pushed_frame].
Qed.

Lemma consumer_frame t po co po' co' s s' i th :
  evolves t po co po' co' s s' -> consumer_thread i <> t -> 0 <= i -> threads s !! consumer_thread i = Some th ->
  consumer_ok po co (hist s) (plains s) i th -> consumer_ok po' co' (hist s') (plains s') i th.
Proof.
  intros Hev Hne Hi Ht. pose proof (consumer_absent t _ _ _ _ _ _ _ Hev Hne i Hi eq_refl) as Habs.
  destruct th as [[V [| | i' p]] |]; [done | done | | done]. intros [-> Hok]. split; [done |].
  assert (Hh : core (InConsume i p) <> Halt -> holds (plains s) V (consumer_thread i) -> holds (plains s') V (consumer_thread i)).
  { intros Hp. eapply holds_frame; [done | done | by eapply running_not_returned]. }
  assert (Hpop : forall pos, popping co (hist s) (plains s) V i pos -> popping co' (hist s') (plains s') V i pos).
  { intros pos. by eapply popping_frame. }
  assert (Htook : forall pos, took po (plains s) i pos -> took po' (plains s') i pos) by (intros pos; by eapply took_frame).
  destruct p as [p | r |].
  - destruct Hok as (Hhold & Hok). split; [apply Hh; [by destruct p | done] |].
    destruct p as [| pos | pos | pos | pos v | pos | pos].
    + auto.
    + destruct Hok. auto.
    + destruct Hok as (? & ? & ?). split_and!; [auto | lia | lia |]. by eapply acquired_frame.
    + auto.
    + destruct Hok as (Hok & Hlt & ->). assert (Hm : pushes po <= pushes po') by (by eapply pushes_mono).
      split; [by auto |]. split; [lia |]. symmetry.
      eapply value_at_frame; [done | done |]. destruct Hok. lia.
    + destruct Hok. auto.
    + destruct Hok as (Hok & Hc & Hs). split_and!; [auto | auto |].
      by rewrite (value_frame t (consumer_thread i) po co po' co' s s').
  - destruct Hok as [Hhold Hok]. split; [by apply Hh |]. destruct Hok as [[-> ?] | [-> ?]]; [left; auto | right].
    split; [done |]. by eapply popped_frame.
  - destruct Hok. split; [by eapply knows_frame | by eapply popped_frame].
Qed.

Lemma holds_knows V C u : holds C V u -> knows C V u.
Proof. intros H x Hx. by destruct (H x Hx). Qed.

(** The main thread while a worker moves: every thread it has joined stays as it is. *)
Lemma mpmc_main_frame t po co po' co' s s' th c :
  evolves t po co po' co' s s' -> (1 <= t < 7)%nat -> step core s t c = Some s' ->
  (forall u, u <> t -> threads s' !! u = threads s !! u) ->
  main_ok s th -> main_ok s' th.
Proof.
  intros Hev Ht Hs Hthr. destruct th as [[V [p | |]] |]; try done.
  assert (Hrun : ~ returned core s t).
  { intros (W & q & Hq & Hh). unfold step in Hs. by rewrite Hq, Hh in Hs. }
  assert (Hun : forall u0, uncreated V s u0 -> uncreated V s' u0).
  { intros u0 Hu u Hlt. destruct (Hu u Hlt) as [Hn Hh]. assert (Hne : u <> t).
    { intros ->. unfold step in Hs. by rewrite Hn in Hs. }
    rewrite Hthr by done. split; [done |]. eapply holds_frame; [done | done | | done].
    intros (W & q & Hq & _). congruence. }
  assert (Hj : forall u0, joined V s u0 -> joined V s' u0).
  { intros u0 Hu u Hlt. destruct (Hu u Hlt) as [Hr Hk]. assert (Hne : u <> t) by (intros ->; done).
    split; [by eapply step_returned | by eapply knows_frame]. }
  assert (Hno : joined V s 7 -> False) by (intros Hjo; destruct (Hjo t); [lia | done]).
  destruct p; simpl; naive_solver.
Qed.

(** *** Kinds of steps: the others *)

Lemma evolves_local t po co s s' : hist s' = hist s -> plains s' = plains s -> evolves t po co po co s s'.
Proof. intros E1 E2. split; try (by left); rewrite ?E1, ?E2; auto. Qed.

Lemma evolves_private t po co s s' x c :
  hist s' = hist s -> plains s' = update (plains s) x c -> owned_by x = Some t -> evolves t po co po co s s'.
Proof.
  intros E1 E2 Hx. split; try (by left); rewrite ?E1, ?E2; auto.
  - intros j. left. split; [done |]. apply update_other. by intros <-.
  - intros y u Hy Hn. left. apply update_other. intros ->. congruence.
Qed.

Lemma evolves_cell t po co s s' j c k m :
  hist s' = hist s -> plains s' = update (plains s) (cell_value j) c ->
  top (hist s (sequence j)) k m -> claims po co t j (m_value m) -> evolves t po co po co s s'.
Proof.
  intros E1 E2 Ht Hc. split; try (by left); rewrite ?E1, ?E2; auto.
  - intros j'. destruct (decide (j' = j)) as [-> |]; [right; eauto |]. left. split; [done |]. apply update_other. congruence.
  - intros y u Hy Hn. left. apply update_other. by intros ->.
Qed.

Lemma hist_insert_keeps (h : atomic_var -> history) l k m :
  h l !! k = None -> forall l' k' m', h l' !! k' = Some m' -> update h l (<[k := m]> (h l)) l' !! k' = Some m'.
Proof.
  intros Hf l' k' m' Hm. unfold update. case_decide as E; [subst l' | done]. rewrite lookup_insert_ne; congruence.
Qed.

Lemma evolves_store t po co s s' j k' m' k m :
  hist s' = update (hist s) (sequence j) (<[k' := m']> (hist s (sequence j))) -> hist s (sequence j) !! k' = None ->
  plains s' = plains s -> top (hist s (sequence j)) k m -> claims po co t j (m_value m) -> evolves t po co po co s s'.
Proof.
  intros E1 Hf E2 Ht Hc. split; try (by left); rewrite ?E1, ?E2; auto.
  - by apply hist_insert_keeps.
  - intros j'. destruct (decide (j' = j)) as [-> |]; [right; eauto |]. left. split; [apply update_other; congruence | done].
Qed.

Lemma evolves_push_cas i po co s s' k m :
  hist s' = update (hist s) enqueue_position (<[k := m]> (hist s enqueue_position)) -> hist s enqueue_position !! k = None ->
  plains s' = plains s -> 0 <= i -> evolves (producer_thread i) po co (po ++ [i]) co s s'.
Proof.
  intros E1 Hf E2 Hi. split; try (by left); rewrite ?E1, ?E2; auto; [by apply hist_insert_keeps |].
  right. by exists i.
Qed.

Lemma evolves_pop_cas i po co s s' k m :
  hist s' = update (hist s) dequeue_position (<[k := m]> (hist s dequeue_position)) -> hist s dequeue_position !! k = None ->
  plains s' = plains s -> 0 <= i -> evolves (consumer_thread i) po co po (co ++ [i]) s s'.
Proof.
  intros E1 Hf E2 Hi. split; try (by left); rewrite ?E1, ?E2; auto; [by apply hist_insert_keeps |].
  right. by exists i.
Qed.

(** *** Kinds of steps: the memory *)

Lemma memory_private po co H C x c u :
  memory_ok po co H C -> owned_by x = Some u -> (forall i, x = producer_value i -> c_value c = c_value (C x)) ->
  memory_ok po co H (update C x c).
Proof.
  intros [M1 M2 M3 M4 M5 M6 M7] Hx Hv. split; try done.
  - intros i Hi. destruct (decide (producer_value i = x)) as [E | Hn]; [| rewrite update_other by done; auto].
    subst x. rewrite update_same, (Hv i eq_refl). auto.
  - intros j Hj. destruct (M7 j Hj) as [G1 (t & m & Ht & Hm)]. split; [done |]. exists t, m. split; [done |].
    unfold cell_top. rewrite update_other by (by intros <-). exact Hm.
Qed.

(** A change of cell [j] and of its history that leaves the other cell alone. *)
Lemma memory_cell po co H H' C C' j :
  memory_ok po co H C -> (j = 0 \/ j = 1) ->
  H' enqueue_position = H enqueue_position -> H' dequeue_position = H dequeue_position ->
  (forall j', j' <> j -> H' (sequence j') = H (sequence j') /\ C' (cell_value j') = C (cell_value j')) ->
  (forall i, C' (producer_value i) = C (producer_value i)) ->
  cell_ok po co H' C' j -> memory_ok po co H' C'.
Proof.
  intros [M1 M2 M3 M4 M5 M6 M7] Hj E1 E2 Ej Ep Hc. split; try done; rewrite ?E1, ?E2; try done.
  - intros i Hi. rewrite Ep. auto.
  - intros j' Hj'. destruct (decide (j' = j)) as [-> | Hn]; [done |]. destruct (Ej j' Hn) as [F1 F2].
    destruct (M7 j' Hj') as [G1 (t & m & Ht & Hm)]. split; [by rewrite F1 |]. exists t, m. rewrite F1. split; [done |].
    unfold cell_top. rewrite F2. exact Hm.
Qed.

Lemma mod2_range p : p mod 2 = 0 \/ p mod 2 = 1.
Proof. Z.div_mod_to_equations. lia. Qed.

Lemma cell_of p : Z.land p (capacity - 1) = p mod 2.
Proof. unfold capacity. change (2 - 1) with (Z.ones 1). by rewrite Z.land_ones. Qed.

(** The newest message of a cell, as its owner knows it. *)
Lemma owner_cell po co H C V j n :
  memory_ok po co H C -> (j = 0 \/ j = 1) -> owner_ok H C V j n ->
  exists t m, top (H (sequence j)) t m /\ m_value m = n /\ (t <= v_at V (sequence j))%nat /\
    covers V (cell_value j) (C (cell_value j)) /\ cell_top po co C j m /\ increasing (H (sequence j)).
Proof.
  intros Hm Hj (t & m & Ht & Hn & Hat & Hc). destruct (mo_cells _ _ _ _ Hm j Hj) as [G1 (t' & m' & Ht' & Hm')].
  destruct (top_unique _ _ _ _ _ Ht Ht') as [<- <-]. exists t, m. auto 10.
Qed.

Lemma workers_snoc l i : workers l -> 0 <= i < worker_count -> i ∉ l -> workers (l ++ [i]).
Proof.
  intros [Hn Hf] Hi Hni. split.
  - apply NoDup_app. split; [done |]. split; [| apply NoDup_singleton]. intros x Hx ->%list_elem_of_singleton. done.
  - apply Forall_app. split; [done | by constructor].
Qed.

(** Three workers take at most three positions. *)
Lemma workers_length l : workers l -> Z.of_nat (length l) <= worker_count.
Proof.
  intros [Hn Hf]. assert (Hsub : l ⊆+ [0; 1; 2]).
  { apply NoDup_submseteq; [done |]. intros x Hx. rewrite Forall_forall in Hf. specialize (Hf x Hx). unfold worker_count in Hf.
    assert (x = 0 \/ x = 1 \/ x = 2) as [-> | [-> | ->]] by lia; set_solver. }
  apply submseteq_length in Hsub. simpl in Hsub. unfold worker_count. lia.
Qed.

Lemma cell_grow po co po' co' H C j :
  (j = 0 \/ j = 1) -> po `prefix_of` po' -> co `prefix_of` co' -> cell_ok po co H C j -> cell_ok po' co' H C j.
Proof.
  intros Hj [qo ->] [ro ->] [G1 (t & m & Ht & Hm)]. split; [done |]. exists t, m. split; [done |].
  revert Hm. unfold cell_top, pushes, pops. rewrite !length_app. set (n := m_value m). intros [Hn Hm]. split; [done |].
  destruct (n mod 2 =? j) eqn:E.
  - destruct Hm as [H1 H2]. split; [lia |]. intros H3. apply H2. lia.
  - destruct Hm as (H1 & H2 & H3 & H4). split; [lia |]. split; [lia |]. split; [| intros; apply H4; lia].
    rewrite H3. unfold value_at. rewrite lookup_app_l; [done |].
    assert (n <> 0) by (intros E0; assert (j = 0) by lia; subst j; by rewrite E0 in E). lia.
Qed.

Lemma memory_push_cas po co H C i W :
  memory_ok po co H C -> 0 <= i < worker_count -> i ∉ po ->
  memory_ok (po ++ [i]) co
    (update H enqueue_position (<[S (length po) := mkMessage (Z.of_nat (S (length po))) W]> (H enqueue_position))) C.
Proof.
  intros [M1 M2 M3 M4 M5 M6 M7] Hi Hn. split; try done.
  - by apply workers_snoc.
  - unfold pops, pushes in *. rewrite length_app. lia.
  - rewrite update_same, length_app. simpl. replace (length po + 1)%nat with (S (length po)) by lia. by apply counter_increment.
  - intros j Hj. destruct (cell_grow po co (po ++ [i]) co H C j) as [G1 G2]; [done | by eexists | done | auto |].
    split; by rewrite update_other.
Qed.

Lemma memory_pop_cas po co H C i W :
  memory_ok po co H C -> 0 <= i < worker_count -> i ∉ co -> pops co < pushes po ->
  memory_ok po (co ++ [i])
    (update H dequeue_position (<[S (length co) := mkMessage (Z.of_nat (S (length co))) W]> (H dequeue_position))) C.
Proof.
  intros [M1 M2 M3 M4 M5 M6 M7] Hi Hn Hlt. split; try done.
  - by apply workers_snoc.
  - unfold pops, pushes in *. rewrite length_app. simpl. lia.
  - rewrite update_same, length_app. simpl. replace (length co + 1)%nat with (S (length co)) by lia. by apply counter_increment.
  - intros j Hj. destruct (cell_grow po co po (co ++ [i]) H C j) as [G1 G2]; [done | done | by eexists | auto |].
    split; by rewrite update_other.
Qed.

(** A taken position is one of those counted. *)
Lemma taken_lt (l : list Z) pos i : 0 <= pos -> l !! Z.to_nat pos = Some i -> pos < Z.of_nat (length l).
Proof. intros Hp Hl%lookup_lt_Some. lia. Qed.

Lemma memory_push_write po co H C V i pos c :
  memory_ok po co H C -> pushing po H C V i pos -> memory_ok po co H (update C (cell_value (pos mod 2)) c).
Proof.
  intros Hm (Hp & Hi & Ho). pose proof (mod2_range pos) as Hj.
  destruct (owner_cell _ _ _ _ _ _ _ Hm Hj Ho) as (t & m & Ht & Hn & _ & _ & Hc & Hinc).
  pose proof (taken_lt po pos i Hp Hi).
  apply (memory_cell po co H H C _ (pos mod 2)); try done.
  - intros j' Hj'. split; [done |]. apply update_other. congruence.
  - split; [done |]. exists t, m. split; [done |]. revert Hc. unfold cell_top, pushes. rewrite Hn, Z.eqb_refl.
    intros (? & ? & _). split_and!; [done | done |]. lia.
Qed.

Lemma memory_pop_read po co H C V i pos c :
  memory_ok po co H C -> popping co H C V i pos -> c_value c = c_value (C (cell_value (pos mod 2))) ->
  memory_ok po co H (update C (cell_value (pos mod 2)) c).
Proof.
  intros Hm (Hp & Hi & Ho) Hv. pose proof (mod2_range pos) as Hj.
  destruct (owner_cell _ _ _ _ _ _ _ Hm Hj Ho) as (t & m & Ht & Hn & _ & _ & Hc & Hinc).
  pose proof (taken_lt co pos i Hp Hi).
  apply (memory_cell po co H H C _ (pos mod 2)); try done.
  - intros j' Hj'. split; [done |]. apply update_other. congruence.
  - split; [done |]. exists t, m. split; [done |]. revert Hc. unfold cell_top, pops. rewrite Hn.
    rewrite (proj2 (Z.eqb_neq _ _) (mod2_succ pos)). rewrite update_same, Hv.
    intros (? & ? & ? & ? & _). split_and!; [done | done | done | done |]. lia.
Qed.

(** The owner stores the next value of the sequence. *)
Lemma memory_store po co H C V j n k m' :
  memory_ok po co H C -> (j = 0 \/ j = 1) -> owner_ok H C V j n -> (v_at V (sequence j) < k)%nat ->
  n < m_value m' -> cell_top po co C j m' ->
  memory_ok po co (update H (sequence j) (<[k := m']> (H (sequence j)))) C.
Proof.
  intros Hm Hj Ho Hk Hlt Hm'. destruct (owner_cell _ _ _ _ _ _ _ Hm Hj Ho) as (t & m & Ht & Hn & Hat & _ & _ & Hinc).
  assert (Hlt' : (t < k)%nat) by lia.
  apply (memory_cell po co H _ C C j); try done.
  - intros j' Hj'. split; [apply update_other; congruence | done].
  - split; rewrite update_same.
    + eapply increasing_store; [done | done | done | lia].
    + exists k, m'. split; [by eapply top_store | done].
Qed.

Lemma push_store_top po co H C V i pos W :
  memory_ok po co H C -> pushing po H C V i pos -> c_value (C (cell_value (pos mod 2))) = initial_value i ->
  covers W (cell_value (pos mod 2)) (C (cell_value (pos mod 2))) ->
  cell_top po co C (pos mod 2) (mkMessage (pos + 1) W).
Proof.
  intros Hm (Hp & Hi & Ho) Hv Hw. pose proof (mod2_range pos) as Hj.
  destruct (owner_cell _ _ _ _ _ _ _ Hm Hj Ho) as (t & m & Ht & Hn & _ & _ & Hc & _).
  pose proof (taken_lt po pos i Hp Hi). revert Hc. unfold cell_top. rewrite Hn, Z.eqb_refl. simpl.
  rewrite (proj2 (Z.eqb_neq _ _) (mod2_succ pos)). intros (H1 & H2 & _).
  split; [lia |]. split; [unfold pushes; lia |]. split; [lia |]. split; [| done].
  unfold value_at. replace (pos + 1 - 1) with pos by lia. by rewrite Hi.
Qed.

Lemma pop_store_top po co H C V i pos W :
  memory_ok po co H C -> popping co H C V i pos ->
  covers W (cell_value (pos mod 2)) (C (cell_value (pos mod 2))) ->
  cell_top po co C (pos mod 2) (mkMessage (pos + 2) W).
Proof.
  intros Hm (Hp & Hi & Ho) Hw. pose proof (mod2_range pos) as Hj.
  destruct (owner_cell _ _ _ _ _ _ _ Hm Hj Ho) as (t & m & Ht & Hn & _ & _ & Hc & _).
  pose proof (taken_lt co pos i Hp Hi). destruct Hc as [H1 _]. unfold cell_top. simpl.
  replace ((pos + 2) mod 2) with (pos mod 2) by (Z.div_mod_to_equations; lia). rewrite Z.eqb_refl.
  split; [lia |]. split; [unfold pops; lia | done].
Qed.

(** *** Taking a position *)

(** A thread that has acquired the value [pos] of its cell and increments the
    enqueue position from [pos] owns the cell: no later message can be there. *)
Lemma push_cas_owner po co H C V pos i l n :
  memory_ok po co H C -> 0 <= pos -> pos = pushes po -> acquired H V (pos mod 2) pos ->
  (forall x, v_wr V x <= c_writes (C x))%nat ->
  owner_ok (update H enqueue_position l) C (see V enqueue_position n) (pos mod 2) pos /\
  (po ++ [i]) !! Z.to_nat pos = Some i.
Proof.
  intros Hm Hp Hpos (t & m & Ht & Hn & Hat & Hle) Hb. pose proof (mod2_range pos) as Hj. pose proof (mo_order _ _ _ _ Hm) as Ho.
  destruct (mo_cells _ _ _ _ Hm _ Hj) as [Hinc (t' & m' & Ht' & Hc)]. split.
  - assert (m = m') as <-.
    { destruct (top_value _ _ _ _ _ Hinc Ht' Ht) as [[_ ?] | Hlt]; [done | exfalso]. destruct Hc as [_ Hc].
      destruct (m_value m' mod 2 =? pos mod 2) eqn:E.
      - apply Z.eqb_eq in E. assert (m_value m' <> pos + 1) by (intros E'; rewrite E' in E; by destruct (mod2_succ pos)). lia.
      - lia. }
    exists t', m. rewrite update_other by done. split; [done |]. split; [done |].
    assert (t = t') as -> by (eapply increasing_inj; [done | done | apply Ht']).
    split; [simpl; by rewrite update_other |].
    destruct Hc as [_ Hc]. rewrite Hn, Z.eqb_refl in Hc. destruct Hc as [_ Hc].
    change (covers V (cell_value (pos mod 2)) (C (cell_value (pos mod 2)))).
    apply (covers_le (m_view m)); [done | apply Hb | apply Hc; lia].
  - rewrite lookup_app_r by (unfold pushes in Hpos; lia). unfold pushes in Hpos. by replace (Z.to_nat pos - length po)%nat with 0%nat by lia.
Qed.

Lemma pop_cas_owner po co H C V pos i l n :
  memory_ok po co H C -> 0 <= pos -> pos = pops co -> acquired H V (pos mod 2) (pos + 1) ->
  (forall x, v_wr V x <= c_writes (C x))%nat ->
  pops co < pushes po /\
  owner_ok (update H dequeue_position l) C (see V dequeue_position n) (pos mod 2) (pos + 1) /\
  (co ++ [i]) !! Z.to_nat pos = Some i.
Proof.
  intros Hm Hp Hpos (t & m & Ht & Hn & Hat & Hle) Hb. pose proof (mod2_range pos) as Hj. pose proof (mo_order _ _ _ _ Hm) as Ho.
  destruct (mo_cells _ _ _ _ Hm _ Hj) as [Hinc (t' & m' & Ht' & Hc)].
  assert (m = m') as <-.
  { destruct (top_value _ _ _ _ _ Hinc Ht' Ht) as [[_ ?] | Hlt]; [done | exfalso]. destruct Hc as [_ Hc].
    destruct (m_value m' mod 2 =? pos mod 2) eqn:E; [lia |].
    apply Z.eqb_neq in E. assert (m_value m' <> pos + 2).
    { intros E'. apply E. rewrite E'. Z.div_mod_to_equations. lia. }
    lia. }
  destruct Hc as [_ Hc]. rewrite Hn, (proj2 (Z.eqb_neq _ _) (mod2_succ pos)) in Hc. destruct Hc as (H1 & _ & _ & Hc).
  split; [lia |]. split.
  - exists t', m. rewrite update_other by done. split; [done |]. split; [done |].
    assert (t = t') as -> by (eapply increasing_inj; [done | done | apply Ht']).
    split; [simpl; by rewrite update_other |].
    change (covers V (cell_value (pos mod 2)) (C (cell_value (pos mod 2)))).
    apply (covers_le (m_view m)); [done | apply Hb | apply Hc; lia].
  - rewrite lookup_app_r by (unfold pops in Hpos; lia). unfold pops in Hpos. by replace (Z.to_nat pos - length co)%nat with 0%nat by lia.
Qed.

(** The value a consumer finds in the cell it owns. *)
Lemma popping_value po co H C V i pos :
  memory_ok po co H C -> popping co H C V i pos ->
  pos < pushes po /\ c_value (C (cell_value (pos mod 2))) = value_at po pos.
Proof.
  intros Hm (Hp & Hi & Ho). pose proof (mod2_range pos) as Hj.
  destruct (owner_cell _ _ _ _ _ _ _ Hm Hj Ho) as (t & m & Ht & Hn & _ & _ & Hc & _). destruct Hc as [_ Hc].
  rewrite Hn, (proj2 (Z.eqb_neq _ _) (mod2_succ pos)) in Hc. destruct Hc as (H1 & _ & H2 & _).
  replace (pos + 1 - 1) with pos in H2 by lia. split; [lia | done].
Qed.

(** *** A step of a worker *)

Lemma worker_move po co po' co' s s1 s' t c V' p' :
  core_inv po co s -> (1 <= t < 7)%nat -> step core s t c = Some s' ->
  s' = set_thread s1 t V' p' -> threads s1 = threads s -> raced s1 = raced s -> failed s1 = failed s ->
  memory_ok po' co' (hist s1) (plains s1) -> evolves t po co po' co' s s' ->
  (forall i, 0 <= i -> t = producer_thread i -> producer_ok po' (hist s1) (plains s1) i (Some (V', p'))) ->
  (forall i, 0 <= i -> t = consumer_thread i -> consumer_ok po' co' (hist s1) (plains s1) i (Some (V', p'))) ->
  core_inv po' co' s'.
Proof.
  intros Hi Ht Hs -> Et Er Ef Hm Hev Hp Hc.
  assert (Hthr : forall u, u <> t -> threads (set_thread s1 t V' p') !! u = threads s !! u).
  { intros u Hu. simpl. by rewrite list_lookup_insert_ne, Et by done. }
  assert (Hown : forall th, threads (set_thread s1 t V' p') !! t = Some th -> th = Some (V', p')).
  { intros th Hth. apply list_lookup_insert_Some in Hth as [(_ & <- & _) | [? _]]; done. }
  split; [by eapply step_bounded; [apply (ci_bounded _ _ s Hi) |] | by rewrite <- (ci_raced _ _ s Hi) |
    by rewrite <- (ci_failed _ _ s Hi) | | done | | |].
  - simpl. by rewrite length_insert, Et, (ci_length _ _ s Hi).
  - intros th Hth. rewrite Hthr in Hth by lia. eapply mpmc_main_frame; [done | done | done | done | by apply (ci_main _ _ s Hi)].
  - intros i th Hlt Hth. destruct (decide (producer_thread i = t)) as [E | Hn].
    + subst t. apply Hown in Hth as ->. apply Hp; [lia | done].
    + rewrite Hthr in Hth by done. eapply producer_frame; [done | done | lia | done | by apply (ci_producers _ _ s Hi)].
  - intros i th Hlt Hth. destruct (decide (consumer_thread i = t)) as [E | Hn].
    + subst t. apply Hown in Hth as ->. apply Hc; [lia | done].
    + rewrite Hthr in Hth by done. eapply consumer_frame; [done | done | lia | done | by apply (ci_consumers _ _ s Hi)].
Qed.

(** Accesses of a thread to its own variables, and to the cell it owns. *)
Lemma holds_le C V W u :
  view_le V W -> (forall x, v_wr W x <= c_writes (C x))%nat -> holds C V u -> holds C W u.
Proof. intros Hle Hb H x Hx. eapply covers_le; [done | apply Hb | by apply H]. Qed.

Lemma holds_read C V u x :
  holds C V u -> owned_by x = Some u ->
  holds (update C x (mkPlain (c_value (C x)) (c_writes (C x)) (S (c_reads (C x))))) (see_read V x (c_reads (C x))) u.
Proof.
  intros H Hx y Hy. destruct (decide (y = x)) as [-> | Hn].
  - rewrite update_same. apply covers_see_read. by apply H.
  - rewrite update_other by done. apply covers_see_other_read; [done | by apply H].
Qed.

Lemma holds_write C V u x v :
  holds C V u -> owned_by x = Some u ->
  holds (update C x (mkPlain v (S (c_writes (C x))) (c_reads (C x)))) (see_write V x (S (c_writes (C x)))) u.
Proof.
  intros H Hx y Hy. destruct (decide (y = x)) as [-> | Hn].
  - rewrite update_same. apply covers_see_write. by apply H.
  - rewrite update_other by done. apply covers_see_other_write; [done | by apply H].
Qed.

Lemma holds_cell_write C V u j c n : holds C V u -> holds (update C (cell_value j) c) (see_write V (cell_value j) n) u.
Proof.
  intros H y Hy. assert (y <> cell_value j) by (by intros ->). rewrite update_other by done.
  apply covers_see_other_write; [done | by apply H].
Qed.

Lemma holds_cell_read C V u j c n : holds C V u -> holds (update C (cell_value j) c) (see_read V (cell_value j) n) u.
Proof.
  intros H y Hy. assert (y <> cell_value j) by (by intros ->). rewrite update_other by done.
  apply covers_see_other_read; [done | by apply H].
Qed.

Lemma owner_private_write H C V j n x c w u :
  owned_by x = Some u -> owner_ok H C V j n -> owner_ok H (update C x c) (see_write V x w) j n.
Proof.
  intros Hx (t & m & Ht & Hn & Hat & Hc). exists t, m. split_and!; [done.. |].
  assert (cell_value j <> x) by (by intros <-). rewrite update_other by done. apply covers_see_other_write; congruence.
Qed.

Lemma owner_write H C V j n v :
  let c := C (cell_value j) in
  owner_ok H C V j n ->
  owner_ok H (update C (cell_value j) (mkPlain v (S (c_writes c)) (c_reads c))) (see_write V (cell_value j) (S (c_writes c))) j n.
Proof.
  intros c (t & m & Ht & Hn & Hat & Hc). exists t, m. split_and!; [done.. |]. rewrite update_same. by apply covers_see_write.
Qed.

Lemma owner_read H C V j n :
  let c := C (cell_value j) in
  owner_ok H C V j n ->
  owner_ok H (update C (cell_value j) (mkPlain (c_value c) (c_writes c) (S (c_reads c)))) (see_read V (cell_value j) (c_reads c)) j n.
Proof.
  intros c (t & m & Ht & Hn & Hat & Hc). exists t, m. split_and!; [done.. |]. rewrite update_same. by apply covers_see_read.
Qed.

(** Positions are far from overflowing. *)
Lemma position_add pos d : 0 <= pos <= worker_count -> 0 <= d <= capacity -> pos +u d = pos + d.
Proof. unfold worker_count, capacity. intros H Hd. apply u64_small. change u64_modulus with 18446744073709551616. lia. Qed.

Section producer.

Context (po co : list Z) (s s' : state) (i : Z) (V : wview) (c : choice).
Context (Hinv : core_inv po co s) (Hi : 0 <= i < worker_count) (Hs : step core s (producer_thread i) c = Some s').

Abbreviation runs p := (threads s !! producer_thread i = Some (Some (V, InProduce i p))).
Abbreviation result := (exists po', core_inv po' co s').

Lemma producer_move s1 V' p' po' :
  s' = set_thread s1 (producer_thread i) V' (InProduce i p') -> threads s1 = threads s ->
  raced s1 = raced s -> failed s1 = failed s -> memory_ok po' co (hist s1) (plains s1) ->
  evolves (producer_thread i) po co po' co s s' -> producer_ok po' (hist s1) (plains s1) i (Some (V', InProduce i p')) ->
  result.
Proof.
  intros E1 E2 E3 E4 Hm Hev Hp. exists po'. unfold worker_count in Hi.
  eapply (worker_move po co po' co); try done; [unfold producer_thread; lia | |].
  - intros i' Hi' E. by rewrite <- (producer_thread_inj i i' ltac:(lia) Hi' E).
  - intros i' Hi' E. unfold producer_thread, consumer_thread in E. lia.
Qed.

(** The instruction the thread executes, and its part of the invariant. *)
Lemma producer_facts p :
  runs p -> step_thread core s (producer_thread i) V (produce acquire release i p) c = Some s' /\
    producer_ok po (hist s) (plains s) i (Some (V, InProduce i p)) /\ memory_ok po co (hist s) (plains s) /\
    below V s /\ Z.of_nat (length po) <= worker_count.
Proof.
  intros Ht. assert (Hm := ci_memory _ _ _ Hinv). unfold step in Hs. rewrite Ht in Hs. split_and!; [exact Hs | | done | |].
  - by apply (ci_producers _ _ _ Hinv).
  - by eapply (bd_threads _ (ci_bounded _ _ _ Hinv)).
  - apply workers_length, Hm.
Qed.

Lemma producer_read_value : runs ReadValue -> result.
Proof.
  intros Ht. destruct (producer_facts _ Ht) as (Hst & [_ [Hh Hn]] & Hm & HV & Hpo). simpl in Hst.
  rewrite bool_decide_true in Hst by (by apply (Hh (producer_value i))). injection Hst as E.
  eapply (producer_move _ _ _ po); [done..| | |].
  - eapply memory_private; [done | done |]. by intros i' [= <-].
  - rewrite <- E. by eapply evolves_private.
  - split; [done |]. split; [by apply holds_read |]. split; [by apply (mo_values _ _ _ _ Hm) | done].
Qed.

Lemma producer_load_position v : runs (InPush v PushLoadPosition) -> result.
Proof.
  intros Ht. destruct (producer_facts _ Ht) as (Hst & [_ (Hh & Hv & Hn)] & Hm & HV & Hpo). simpl in Hst.
  destruct (hist s enqueue_position !! at_time c) as [m |] eqn:Em; simpl in Hst; [| done]. case_decide; [| done].
  destruct (counter_value _ _ _ _ (mo_enqueue _ _ _ _ Hm) Em) as [Hk Hval]. injection Hst as E.
  eapply (producer_move s _ _ po); [done.. | | |]; [done | by rewrite <- E; apply evolves_local |].
  split; [done |]. split; [exact Hh |]. split; [done |]. split; [done | lia].
Qed.

Lemma producer_load_sequence v pos : runs (InPush v (PushLoadSequence pos)) -> result.
Proof.
  intros Ht. destruct (producer_facts _ Ht) as (Hst & [_ (Hh & Hv & Hn & Hpos)] & Hm & HV & Hpo). simpl in Hst.
  rewrite cell_of in Hst.
  destruct (hist s (sequence (pos mod 2)) !! at_time c) as [m |] eqn:Em; simpl in Hst; [| done].
  case_decide as Hat; [| done]. set (V' := view_join _ _) in Hst.
  assert (Hh' : holds (plains s) V' (producer_thread i)).
  { eapply holds_le; [apply view_join_l | | exact Hh]. apply (below_join _ _ s); [exact HV |].
    by eapply (bd_messages _ (ci_bounded _ _ _ Hinv)). }
  destruct (m_value m =? pos) eqn:E1; [| destruct (m_value m <? pos)]; injection Hst as E;
    (eapply (producer_move s V' _ po); [done.. | | |]; [done | by rewrite <- E; apply evolves_local |]; split; [done |]).
  - split; [done |]. split; [done |]. split; [done |]. split; [lia |]. exists (at_time c), m. apply Z.eqb_eq in E1.
    split_and!; [done | done | simpl; rewrite update_same; lia | apply view_join_r].
  - split; [done |]. by left.
  - by split_and!.
Qed.

Lemma producer_cas v pos : runs (InPush v (PushCas pos)) -> result.
Proof.
  intros Ht. destruct (producer_facts _ Ht) as (Hst & [_ (Hh & Hv & Hn & Hpos & Hacq)] & Hm & HV & Hpo). simpl in Hst.
  destruct (hist s enqueue_position !! at_time c) as [m |] eqn:Em; simpl in Hst; [| done]. case_decide as Hat; [| done].
  destruct (counter_value _ _ _ _ (mo_enqueue _ _ _ _ Hm) Em) as [Hk Hval].
  destruct ((m_value m =? pos) && negb (spurious c)) eqn:Eok.
  - apply andb_true_iff in Eok as [Eq%Z.eqb_eq _].
    destruct (hist s enqueue_position !! S (at_time c)) eqn:Enext; [done |].
    pose proof (counter_last _ _ _ _ (mo_enqueue _ _ _ _ Hm) Em Enext) as Hlast. rewrite Hlast in *.
    assert (Hcas := fun l => push_cas_owner po co (hist s) (plains s) V pos i l (S (length po)) Hm ltac:(lia)
      ltac:(unfold pushes; lia) Hacq HV).
    assert (Epos : pos +u 1 = Z.of_nat (S (length po))) by (rewrite position_add by (unfold capacity; lia); lia).
    rewrite Epos in Hst. injection Hst as E.
    eapply (producer_move _ _ _ (po ++ [i])); [done.. | | |].
    + by apply memory_push_cas.
    + rewrite <- E. eapply evolves_push_cas; [done | done | done | lia].
    + split; [done |]. split; [exact Hh |]. split; [done |]. split; [lia |]. split; [exact (proj2 (Hcas ∅)) | exact (proj1 (Hcas _))].
  - injection Hst as E. eapply (producer_move s _ _ po); [done.. | | |]; [done | by rewrite <- E; apply evolves_local |].
    split; [done |]. split; [exact Hh |]. split; [done |]. split; [done | lia].
Qed.

Lemma producer_write_value v pos : runs (InPush v (PushWriteValue pos)) -> result.
Proof.
  intros Ht. destruct (producer_facts _ Ht) as (Hst & [_ (Hh & Hv & Hp)] & Hm & HV & Hpo). simpl in Hst.
  rewrite cell_of in Hst. assert (Hp' := Hp). destruct Hp' as (Hpos & Hlook & Ho).
  assert (Ho' := Ho). destruct Ho' as (k & m & Htop & Hn & Hat & Hc).
  rewrite (covers_knows_all _ _ _ Hc) in Hst. injection Hst as E.
  eapply (producer_move _ _ _ po); [done.. | | |].
  - by eapply memory_push_write.
  - rewrite <- E. eapply evolves_cell; [done | done | done |]. left. by exists i, pos.
  - split; [done |]. split; [by apply holds_cell_write |]. split; [done |].
    split; [split; [done | split; [done | by apply owner_write]] |]. simpl. by rewrite update_same.
Qed.

Lemma producer_write_logical v pos : runs (InPush v (PushWriteLogical pos)) -> result.
Proof.
  intros Ht. destruct (producer_facts _ Ht) as (Hst & [_ (Hh & Hv & (Hpos & Hlook & Ho) & Hval)] & Hm & HV & Hpo). simpl in Hst.
  rewrite (covers_knows_all _ _ _ (Hh (producer_sequence i) eq_refl)) in Hst.
  pose proof (taken_lt po pos i Hpos Hlook). rewrite position_add in Hst by (unfold capacity; lia). injection Hst as E.
  eapply (producer_move _ _ _ po); [done.. | | |].
  - by eapply memory_private.
  - rewrite <- E. by eapply evolves_private.
  - split; [done |]. split; [by apply holds_write |]. split; [done |].
    split; [split; [done | split; [done | by eapply owner_private_write]] |]. simpl.
    by rewrite update_same, update_other.
Qed.

Lemma producer_store v pos : runs (InPush v (PushStoreSequence pos)) -> result.
Proof.
  intros Ht. destruct (producer_facts _ Ht) as (Hst & [_ (Hh & Hv & Hp & Hval & Hseq)] & Hm & HV & Hpo). simpl in Hst.
  rewrite cell_of in Hst. assert (Hp' := Hp). destruct Hp' as (Hpos & Hlook & Ho).
  assert (Ho' := Ho). destruct Ho' as (k & m & Htop & Hn & Hat & Hc).
  case_decide as Hlt; [| done]. destruct (hist s (sequence (pos mod 2)) !! at_time c) eqn:Efree; [done |].
  pose proof (taken_lt po pos i Hpos Hlook). rewrite position_add in Hst by (unfold capacity; lia). injection Hst as E.
  eapply (producer_move _ _ _ po); [done.. | | |].
  - eapply memory_store; [done | apply mod2_range | done | done | simpl; lia |].
    eapply push_store_top; [done | done | exact (eq_trans Hval Hv) | exact Hc].
  - rewrite <- E. eapply evolves_store; [done | done | done | done |]. left. by exists i, pos.
  - split; [done |]. split; [exact Hh |]. right. split; [done |]. by exists pos.
Qed.

Lemma producer_returned r : runs (PushReturned r) -> result.
Proof.
  intros Ht. destruct (producer_facts _ Ht) as (Hst & [_ [Hh Hr]] & Hm & HV & Hpo). simpl in Hst.
  destruct Hr as [[-> Hn] | [-> Hd]]; simpl in Hst; injection Hst as E;
    (eapply (producer_move s _ _ po); [done.. | | |]; [done | by rewrite <- E; apply evolves_local |]; split; [done |]).
  - by split.
  - split; [by apply holds_knows | done].
Qed.

Lemma mpmc_producer_step p : threads s !! producer_thread i = Some (Some (V, p)) -> result.
Proof.
  intros Ht. pose proof (ci_producers _ _ _ Hinv i _ Hi Ht) as Hok. destruct p as [| i' p |]; [done | | done].
  destruct Hok as [-> _]. destruct p as [| v p | r |].
  - by apply producer_read_value.
  - destruct p; eauto using producer_load_position, producer_load_sequence, producer_cas, producer_write_value,
      producer_write_logical, producer_store.
  - by eapply producer_returned.
  - unfold step in Hs. by rewrite Ht in Hs.
Qed.

End producer.

Section consumer.

Context (po co : list Z) (s s' : state) (i : Z) (V : wview) (c : choice).
Context (Hinv : core_inv po co s) (Hi : 0 <= i < worker_count) (Hs : step core s (consumer_thread i) c = Some s').

Abbreviation runs p := (threads s !! consumer_thread i = Some (Some (V, InConsume i p))).
Abbreviation result := (exists co', core_inv po co' s').

Lemma consumer_move s1 V' p' co' :
  s' = set_thread s1 (consumer_thread i) V' (InConsume i p') -> threads s1 = threads s ->
  raced s1 = raced s -> failed s1 = failed s -> memory_ok po co' (hist s1) (plains s1) ->
  evolves (consumer_thread i) po co po co' s s' -> consumer_ok po co' (hist s1) (plains s1) i (Some (V', InConsume i p')) ->
  result.
Proof.
  intros E1 E2 E3 E4 Hm Hev Hp. exists co'. unfold worker_count in Hi.
  eapply (worker_move po co po co'); try done; [unfold consumer_thread; lia | |].
  - intros i' Hi' E. unfold producer_thread, consumer_thread in E. lia.
  - intros i' Hi' E. by rewrite <- (consumer_thread_inj i i' ltac:(lia) Hi' E).
Qed.

Lemma consumer_facts p :
  runs p -> step_thread core s (consumer_thread i) V (consume acquire release i p) c = Some s' /\
    consumer_ok po co (hist s) (plains s) i (Some (V, InConsume i p)) /\ memory_ok po co (hist s) (plains s) /\
    below V s /\ Z.of_nat (length co) <= worker_count.
Proof.
  intros Ht. assert (Hm := ci_memory _ _ _ Hinv). unfold step in Hs. rewrite Ht in Hs. split_and!; [exact Hs | | done | |].
  - by apply (ci_consumers _ _ _ Hinv).
  - by eapply (bd_threads _ (ci_bounded _ _ _ Hinv)).
  - apply workers_length, Hm.
Qed.

Lemma consumer_load_position : runs (InPop PopLoadPosition) -> result.
Proof.
  intros Ht. destruct (consumer_facts _ Ht) as (Hst & [_ (Hh & Hn)] & Hm & HV & Hco). simpl in Hst.
  destruct (hist s dequeue_position !! at_time c) as [m |] eqn:Em; simpl in Hst; [| done]. case_decide; [| done].
  destruct (counter_value _ _ _ _ (mo_dequeue _ _ _ _ Hm) Em) as [Hk Hval]. injection Hst as E.
  eapply (consumer_move s _ _ co); [done.. | | |]; [done | by rewrite <- E; apply evolves_local |].
  split; [done |]. split; [exact Hh |]. split; [done | lia].
Qed.

Lemma consumer_load_sequence pos : runs (InPop (PopLoadSequence pos)) -> result.
Proof.
  intros Ht. destruct (consumer_facts _ Ht) as (Hst & [_ (Hh & Hn & Hpos)] & Hm & HV & Hco). simpl in Hst.
  rewrite cell_of in Hst. rewrite position_add in Hst by (unfold capacity; lia).
  destruct (hist s (sequence (pos mod 2)) !! at_time c) as [m |] eqn:Em; simpl in Hst; [| done].
  case_decide as Hat; [| done]. set (V' := view_join _ _) in Hst.
  assert (Hh' : holds (plains s) V' (consumer_thread i)).
  { eapply holds_le; [apply view_join_l | | exact Hh]. apply (below_join _ _ s); [exact HV |].
    by eapply (bd_messages _ (ci_bounded _ _ _ Hinv)). }
  destruct (m_value m =? pos + 1) eqn:E1; [| destruct (m_value m <? pos + 1)]; injection Hst as E;
    (eapply (consumer_move s V' _ co); [done.. | | |]; [done | by rewrite <- E; apply evolves_local |]; split; [done |]).
  - split; [done |]. split; [done |]. split; [lia |]. exists (at_time c), m. apply Z.eqb_eq in E1.
    split_and!; [done | done | simpl; rewrite update_same; lia | apply view_join_r].
  - split; [done |]. by left.
  - by split_and!.
Qed.

Lemma consumer_cas pos : runs (InPop (PopCas pos)) -> result.
Proof.
  intros Ht. destruct (consumer_facts _ Ht) as (Hst & [_ (Hh & Hn & Hpos & Hacq)] & Hm & HV & Hco). simpl in Hst.
  destruct (hist s dequeue_position !! at_time c) as [m |] eqn:Em; simpl in Hst; [| done]. case_decide as Hat; [| done].
  destruct (counter_value _ _ _ _ (mo_dequeue _ _ _ _ Hm) Em) as [Hk Hval].
  destruct ((m_value m =? pos) && negb (spurious c)) eqn:Eok.
  - apply andb_true_iff in Eok as [Eq%Z.eqb_eq _].
    destruct (hist s dequeue_position !! S (at_time c)) eqn:Enext; [done |].
    pose proof (counter_last _ _ _ _ (mo_dequeue _ _ _ _ Hm) Em Enext) as Hlast. rewrite Hlast in *.
    assert (Hcas := fun l => pop_cas_owner po co (hist s) (plains s) V pos i l (S (length co)) Hm ltac:(lia)
      ltac:(unfold pops; lia) Hacq HV).
    assert (Epos : pos +u 1 = Z.of_nat (S (length co))) by (rewrite position_add by (unfold capacity; lia); lia).
    rewrite Epos in Hst. injection Hst as E.
    eapply (consumer_move _ _ _ (co ++ [i])); [done.. | | |].
    + apply memory_pop_cas; [done | done | done |]. exact (proj1 (Hcas ∅)).
    + rewrite <- E. eapply evolves_pop_cas; [done | done | done | lia].
    + split; [done |]. split; [exact Hh |]. split; [lia |].
      split; [exact (proj2 (proj2 (Hcas ∅))) | exact (proj1 (proj2 (Hcas _)))].
  - injection Hst as E. eapply (consumer_move s _ _ co); [done.. | | |]; [done | by rewrite <- E; apply evolves_local |].
    split; [done |]. split; [exact Hh |]. split; [done | lia].
Qed.

Lemma consumer_read_value pos : runs (InPop (PopReadValue pos)) -> result.
Proof.
  intros Ht. destruct (consumer_facts _ Ht) as (Hst & [_ (Hh & Hp)] & Hm & HV & Hco). simpl in Hst.
  rewrite cell_of in Hst. assert (Hp' := Hp). destruct Hp' as (Hpos & Hlook & Ho).
  assert (Ho' := Ho). destruct Ho' as (k & m & Htop & Hn & Hat & Hc).
  rewrite bool_decide_true in Hst by apply Hc. injection Hst as E.
  destruct (popping_value _ _ _ _ _ _ _ Hm Hp) as [Hlt Hval].
  eapply (consumer_move _ _ _ co); [done.. | | |].
  - by eapply memory_pop_read.
  - rewrite <- E. eapply evolves_cell; [done | done | done |]. right. by exists i, pos.
  - split; [done |]. split; [by apply holds_cell_read |].
    split; [split; [done | split; [done | by apply owner_read]] | done].
Qed.

Lemma consumer_write_value pos v : runs (InPop (PopWriteValue pos v)) -> result.
Proof.
  intros Ht. destruct (consumer_facts _ Ht) as (Hst & [_ (Hh & (Hpos & Hlook & Ho) & Hlt & Hval)] & Hm & HV & Hco). simpl in Hst.
  rewrite (covers_knows_all _ _ _ (Hh (consumer_value i) eq_refl)) in Hst. injection Hst as E.
  eapply (consumer_move _ _ _ co); [done.. | | |].
  - by eapply memory_private.
  - rewrite <- E. by eapply evolves_private.
  - split; [done |]. split; [by apply holds_write |].
    split; [split; [done | split; [done | by eapply owner_private_write]] |].
    split; [done |]. simpl. by rewrite update_same.
Qed.

Lemma consumer_write_logical pos : runs (InPop (PopWriteLogical pos)) -> result.
Proof.
  intros Ht. destruct (consumer_facts _ Ht) as (Hst & [_ (Hh & (Hpos & Hlook & Ho) & Htook)] & Hm & HV & Hco). simpl in Hst.
  rewrite (covers_knows_all _ _ _ (Hh (consumer_sequence i) eq_refl)) in Hst.
  pose proof (taken_lt co pos i Hpos Hlook). rewrite position_add in Hst by (unfold capacity; lia). injection Hst as E.
  eapply (consumer_move _ _ _ co); [done.. | | |].
  - by eapply memory_private.
  - rewrite <- E. by eapply evolves_private.
  - split; [done |]. split; [by apply holds_write |].
    split; [split; [done | split; [done | by eapply owner_private_write]] |].
    split; [| simpl; by rewrite update_same]. destruct Htook. split; [done |]. simpl. by rewrite update_other.
Qed.

Lemma consumer_store pos : runs (InPop (PopStoreSequence pos)) -> result.
Proof.
  intros Ht. destruct (consumer_facts _ Ht) as (Hst & [_ (Hh & Hp & Htook & Hseq)] & Hm & HV & Hco). simpl in Hst.
  rewrite cell_of in Hst. assert (Hp' := Hp). destruct Hp' as (Hpos & Hlook & Ho).
  assert (Ho' := Ho). destruct Ho' as (k & m & Htop & Hn & Hat & Hc).
  case_decide as Hlt; [| done]. destruct (hist s (sequence (pos mod 2)) !! at_time c) eqn:Efree; [done |].
  pose proof (taken_lt co pos i Hpos Hlook). rewrite position_add in Hst by (unfold capacity; lia). injection Hst as E.
  eapply (consumer_move _ _ _ co); [done.. | | |].
  - eapply memory_store; [done | apply mod2_range | done | done | simpl; unfold capacity; lia |].
    by eapply pop_store_top.
  - rewrite <- E. eapply evolves_store; [done | done | done | done |]. right. by exists i, pos.
  - split; [done |]. split; [exact Hh |]. right. split; [done |]. by exists pos.
Qed.

Lemma consumer_returned r : runs (PopReturned r) -> result.
Proof.
  intros Ht. destruct (consumer_facts _ Ht) as (Hst & [_ [Hh Hr]] & Hm & HV & Hco). simpl in Hst.
  destruct Hr as [[-> Hn] | [-> Hd]]; simpl in Hst; injection Hst as E;
    (eapply (consumer_move s _ _ co); [done.. | | |]; [done | by rewrite <- E; apply evolves_local |]; split; [done |]).
  - by split.
  - split; [by apply holds_knows | done].
Qed.

Lemma mpmc_consumer_step p : threads s !! consumer_thread i = Some (Some (V, p)) -> result.
Proof.
  intros Ht. pose proof (ci_consumers _ _ _ Hinv i _ Hi Ht) as Hok. destruct p as [| | i' p]; [done | done |].
  destruct Hok as [-> _]. destruct p as [p | r |].
  - destruct p; eauto using consumer_load_position, consumer_load_sequence, consumer_cas, consumer_read_value,
      consumer_write_value, consumer_write_logical, consumer_store.
  - by eapply consumer_returned.
  - unfold step in Hs. by rewrite Ht in Hs.
Qed.

End consumer.

(** *** What the workers leave behind *)

Lemma final_producer po co s i :
  core_inv po co s -> 0 <= i < worker_count -> returned core s (producer_thread i) -> pushed po (plains s) i.
Proof.
  intros Hinv Hi (W & q & Ht & Hq). pose proof (ci_producers _ _ _ Hinv i _ Hi Ht) as Hok.
  destruct q as [| j q |]; try done. destruct Hok as [-> Hok]. destruct q as [| v [] | r |]; try done. apply Hok.
Qed.

Lemma final_consumer po co s i :
  core_inv po co s -> 0 <= i < worker_count -> returned core s (consumer_thread i) -> popped po co (plains s) i.
Proof.
  intros Hinv Hi (W & q & Ht & Hq). pose proof (ci_consumers _ _ _ Hinv i _ Hi Ht) as Hok.
  destruct q as [| | j q]; try done. destruct Hok as [-> Hok]. destruct q as [[] | r |]; try done. apply Hok.
Qed.

Lemma value_at_worker po pos :
  workers po -> 0 <= pos < pushes po ->
  exists k, po !! Z.to_nat pos = Some k /\ 0 <= k < worker_count /\ value_at po pos = initial_value k.
Proof.
  intros [_ Hf] Hp. destruct (lookup_lt_is_Some_2 po (Z.to_nat pos)) as [k Hk]; [unfold pushes in Hp; lia |].
  exists k. split; [done |]. split; [by eapply (Forall_lookup_1 _ _ _ _ Hf Hk) |]. unfold value_at. by rewrite Hk.
Qed.

Lemma popped_value po co C i : workers po -> popped po co C i -> c_value (C (consumer_value i)) ∈ [11; 22; 33].
Proof.
  intros Hw (pos & _ & [Hp ->] & _). destruct (value_at_worker po pos Hw Hp) as (k & _ & Hk & ->).
  unfold worker_count in Hk. unfold initial_value. assert (k = 0 \/ k = 1 \/ k = 2) as [-> | [-> | ->]] by lia; set_solver.
Qed.

(** No two workers got the same position, and no two consumers the same value. *)
Lemma compared_distinct po co C f l r :
  workers po -> l <> r ->
  pushed po C l -> pushed po C r -> popped po co C l -> popped po co C r ->
  c_value (C (compared_var f l)) <> c_value (C (compared_var f r)).
Proof.
  intros Hw Hne (p1 & Hp1 & L1 & S1) (p2 & Hp2 & L2 & S2) (q1 & M1 & [Hq1 V1] & T1) (q2 & M2 & [Hq2 V2] & T2).
  assert (q1 <> q2) by congruence. destruct f; simpl; rewrite ?S1, ?S2, ?T1, ?T2, ?V1, ?V2.
  - assert (p1 <> p2) by congruence. lia.
  - lia.
  - destruct (value_at_worker po q1 Hw Hq1) as (k1 & K1 & _ & ->). destruct (value_at_worker po q2 Hw Hq2) as (k2 & K2 & _ & ->).
    unfold initial_value. intros E. assert (k1 = k2) as <- by lia. destruct Hw as [Hn _].
    pose proof (NoDup_lookup _ _ _ _ Hn K1 K2). lia.
Qed.

(** *** A step of the main thread *)

Section main.

Context (po co : list Z) (s s' : state) (V : wview) (c : choice) (p : main_pc).
Context (Hinv : core_inv po co s) (Hs : step core s 0 c = Some s').
Context (Ht : threads s !! 0%nat = Some (Some (V, InMain p))).

Lemma main_facts : step_thread core s 0 V (main p) c = Some s' /\ main_ok s (Some (V, InMain p)) /\ below V s.
Proof.
  split_and!; [| by apply (ci_main _ _ _ Hinv) | by eapply (bd_threads _ (ci_bounded _ _ _ Hinv))].
  unfold step in Hs. by rewrite Ht in Hs.
Qed.

Lemma main_move s1 V' p' :
  s' = set_thread s1 0 V' (InMain p') -> threads s1 = threads s -> raced s1 = raced s -> failed s1 = failed s ->
  memory_ok po co (hist s1) (plains s1) -> evolves 0 po co po co s s' -> main_ok s' (Some (V', InMain p')) ->
  core_inv po co s'.
Proof.
  intros E E2 E3 E4 Hm Hev Hok.
  assert (Hthr : forall u, u <> 0%nat -> threads s' !! u = threads s !! u).
  { intros u Hu. rewrite E. simpl. by rewrite list_lookup_insert_ne, E2 by done. }
  split; [by eapply step_bounded; [apply (ci_bounded _ _ s Hinv) |] | rewrite E; by rewrite <- (ci_raced _ _ s Hinv) |
    rewrite E; by rewrite <- (ci_failed _ _ s Hinv) | | by rewrite E | | |].
  - rewrite E. simpl. by rewrite length_insert, E2, (ci_length _ _ s Hinv).
  - intros th Hth. rewrite E in Hth. apply list_lookup_insert_Some in Hth as [(_ & <- & _) | [? _]]; done.
  - intros i th Hlt Hth. assert (producer_thread i <> 0%nat) by (unfold producer_thread; lia). rewrite Hthr in Hth by done.
    eapply producer_frame; [done | done | lia | done | by apply (ci_producers _ _ s Hinv)].
  - intros i th Hlt Hth. assert (consumer_thread i <> 0%nat) by (unfold consumer_thread; lia). rewrite Hthr in Hth by done.
    eapply consumer_frame; [done | done | lia | done | by apply (ci_consumers _ _ s Hinv)].
Qed.

Lemma main_create u start p' :
  (1 <= u < 7)%nat -> threads s !! u = Some None -> s' = set_thread (set_thread s u V start) 0 V (InMain p') ->
  (forall i, 0 <= i < worker_count -> u = producer_thread i -> producer_ok po (hist s) (plains s) i (Some (V, start))) ->
  (forall i, 0 <= i < worker_count -> u = consumer_thread i -> consumer_ok po co (hist s) (plains s) i (Some (V, start))) ->
  main_ok s' (Some (V, InMain p')) -> core_inv po co s'.
Proof.
  intros Hu Hnone E Hp Hc Hok.
  assert (Hthr : forall u' th, u' <> 0%nat -> threads s' !! u' = Some th -> u' = u /\ th = Some (V, start) \/ threads s !! u' = Some th).
  { intros u' th Hu' Hth. rewrite E in Hth. simpl in Hth. rewrite list_lookup_insert_ne in Hth by done.
    apply list_lookup_insert_Some in Hth as [(<- & <- & _) | [_ Hth]]; auto. }
  split; [by eapply step_bounded; [apply (ci_bounded _ _ s Hinv) |] | rewrite E; by apply (ci_raced _ _ s Hinv) |
    rewrite E; by apply (ci_failed _ _ s Hinv) | | rewrite E; by apply (ci_memory _ _ s Hinv) | | |].
  - rewrite E. simpl. by rewrite !length_insert, (ci_length _ _ s Hinv).
  - intros th Hth. rewrite E in Hth. apply list_lookup_insert_Some in Hth as [(_ & <- & _) | [? _]]; done.
  - intros i th Hlt Hth. assert (producer_thread i <> 0%nat) by (unfold producer_thread; lia).
    destruct (Hthr _ _ ltac:(done) Hth) as [[Eu ->] | Hth']; rewrite E; [by apply Hp | by apply (ci_producers _ _ s Hinv)].
  - intros i th Hlt Hth. assert (consumer_thread i <> 0%nat) by (unfold consumer_thread; lia).
    destruct (Hthr _ _ ltac:(done) Hth) as [[Eu ->] | Hth']; rewrite E; [by apply Hc | by apply (ci_consumers _ _ s Hinv)].
Qed.

Lemma uncreated_next u start p' :
  uncreated V s u -> (1 <= u)%nat -> uncreated V (set_thread (set_thread s u V start) 0 V p') (S u).
Proof.
  intros Hun Hu u' Hlt. destruct (Hun u') as [Hn Hh]; [lia |]. split; [| exact Hh].
  simpl. rewrite !list_lookup_insert_ne by lia. done.
Qed.

Lemma main_join u W q p' :
  threads s !! u = Some (Some (W, q)) -> core q = Halt -> knows (plains s) W u ->
  s' = set_thread s 0 (view_join V W) p' -> joined V s u -> joined (view_join V W) s' (S u).
Proof.
  intros Hu Hq Hk E Hj u' Hlt. destruct main_facts as (_ & _ & HV).
  assert (Hret : returned core s u' /\ (knows (plains s) V u' \/ knows (plains s) W u')).
  { destruct (decide (u' = u)) as [-> | Hn]; [split; [by exists W, q | by right] |]. destruct (Hj u'); [lia | auto]. }
  destruct Hret as [Hr Hk']. split; [by eapply step_returned |]. rewrite E. intros x Hx. simpl.
  pose proof (HV x). pose proof (bd_threads _ (ci_bounded _ _ _ Hinv) _ _ _ Hu x).
  destruct Hk' as [Hk' | Hk']; specialize (Hk' x Hx); lia.
Qed.

(** A read of a variable of a worker that has returned. *)
Lemma mpmc_main_read x u k :
  joined V s 7 -> owned_by x = Some u -> (1 <= u < 7)%nat -> main p = Read x (fun v => InMain (k v)) ->
  (joined (see_read V x (c_reads (plains s x))) s' 7 -> (forall y, c_value (plains s' y) = c_value (plains s y)) ->
   main_ok s' (Some (see_read V x (c_reads (plains s x)), InMain (k (c_value (plains s x)))))) ->
  core_inv po co s'.
Proof.
  intros Hj Hx Hu Ep Hok. destruct main_facts as (Hst & _ & HV). rewrite Ep in Hst. simpl in Hst.
  destruct (Hj u Hu) as [Hr Hk]. rewrite bool_decide_true in Hst by (by apply Hk). injection Hst as E.
  assert (Hplain : forall y, c_value (plains s' y) = c_value (plains s y) /\ c_writes (plains s' y) = c_writes (plains s y)).
  { intros y. rewrite <- E. simpl. unfold update. case_decide; [by subst y | done]. }
  eapply main_move; [done.. | | |].
  - eapply memory_private; [apply (ci_memory _ _ _ Hinv) | done | done].
  - rewrite <- E. split; simpl; try (by left); try done.
    + intros j. left. split; [done |]. apply update_other. by intros <-.
    + intros y u' Hy Hn. unfold update. case_decide as Ey; [subst y; right | by left].
      assert (u' = u) as -> by congruence. done.
  - apply Hok; [| intros y; apply Hplain]. intros u' Hu'. destruct (Hj u' Hu') as [Hr' Hk'].
    split; [by eapply step_returned |]. intros y Hy. rewrite (proj2 (Hplain y)). exact (Hk' y Hy).
Qed.

(** A step that only moves the main thread on. *)
Lemma main_local V' p' : s' = set_thread s 0 V' (InMain p') -> main_ok s' (Some (V', InMain p')) -> core_inv po co s'.
Proof.
  intros E Hok. eapply main_move; [exact E | done.. | apply (ci_memory _ _ _ Hinv) | | done].
  rewrite E. by apply evolves_local.
Qed.

Lemma joined_step : joined V s 7 -> plains s' = plains s -> joined V s' 7.
Proof.
  intros Hj E u Hu. destruct (Hj u Hu). split; [by eapply step_returned | by rewrite E].
Qed.

Lemma main_create_producer i : p = MCreateProducer i -> core_inv po co s'.
Proof.
  intros Ep. destruct main_facts as (Hst & Hok & _). rewrite Ep in Hst, Hok. destruct Hok as [Hi Hun]. simpl in Hst.
  assert (Hr : (1 <= producer_thread i < 7)%nat) by (unfold producer_thread, worker_count in *; lia).
  destruct (Hun (producer_thread i)) as [Hn Hh]; [lia |]. rewrite Hn in Hst. injection Hst as E.
  eapply (main_create (producer_thread i)); [done | done | done | | |].
  - intros i' Hi' Eu. apply producer_thread_inj in Eu as <-; [| lia | lia]. split; [done |]. split; [done |].
    exact (ci_producers _ _ _ Hinv i None Hi Hn).
  - intros i' Hi' Eu. unfold producer_thread, consumer_thread in Eu. lia.
  - split; [done |]. rewrite <- E. replace (consumer_thread i) with (S (producer_thread i)).
    + apply uncreated_next; [done | lia].
    + unfold producer_thread, consumer_thread. lia.
Qed.

Lemma main_create_consumer i : p = MCreateConsumer i -> core_inv po co s'.
Proof.
  intros Ep. destruct main_facts as (Hst & Hok & _). rewrite Ep in Hst, Hok. destruct Hok as [Hi Hun]. simpl in Hst.
  assert (Hr : (1 <= consumer_thread i < 7)%nat) by (unfold consumer_thread, worker_count in *; lia).
  destruct (Hun (consumer_thread i)) as [Hn Hh]; [lia |]. rewrite Hn in Hst. injection Hst as E.
  eapply (main_create (consumer_thread i)); [done | done | done | | |].
  - intros i' Hi' Eu. unfold producer_thread, consumer_thread in Eu. lia.
  - intros i' Hi' Eu. apply consumer_thread_inj in Eu as <-; [| lia | lia]. split; [done |]. split; [done |].
    exact (ci_consumers _ _ _ Hinv i None Hi Hn).
  - pose proof (uncreated_next (consumer_thread i) (InConsume i (InPop PopLoadPosition))
      (InMain (if i + 1 <? worker_count then MCreateProducer (i + 1) else MJoinProducer 0)) Hun ltac:(lia)) as Hun'.
    rewrite E in Hun'. destruct (i + 1 <? worker_count) eqn:El; simpl.
    + split; [lia |]. by replace (producer_thread (i + 1)) with (S (consumer_thread i)) by (unfold producer_thread, consumer_thread; lia).
    + split; [unfold worker_count; lia |]. intros u Hu. unfold producer_thread in Hu. lia.
Qed.

Lemma main_join_producer i : p = MJoinProducer i -> core_inv po co s'.
Proof.
  intros Ep. destruct main_facts as (Hst & Hok & _). rewrite Ep in Hst, Hok. destruct Hok as [Hi Hj]. simpl in Hst.
  destruct (threads s !! producer_thread i) as [[[W q] |] |] eqn:Eu; try done.
  destruct (core q) eqn:Eq; try done. injection Hst as E.
  eapply main_local; [done |]. split; [done |]. replace (consumer_thread i) with (S (producer_thread i)).
  - eapply main_join; [done | done | | done | done].
    pose proof (ci_producers _ _ _ Hinv i _ Hi Eu) as Hw. destruct q as [| j q |]; try done. destruct Hw as [-> Hw].
    destruct q as [| v [] | r |]; try done. apply Hw.
  - unfold producer_thread, consumer_thread. lia.
Qed.

Lemma main_join_consumer i : p = MJoinConsumer i -> core_inv po co s'.
Proof.
  intros Ep. destruct main_facts as (Hst & Hok & _). rewrite Ep in Hst, Hok. destruct Hok as [Hi Hj]. simpl in Hst.
  destruct (threads s !! consumer_thread i) as [[[W q] |] |] eqn:Eu; try done.
  destruct (core q) eqn:Eq; try done. injection Hst as E.
  assert (Hk : knows (plains s) W (consumer_thread i)).
  { pose proof (ci_consumers _ _ _ Hinv i _ Hi Eu) as Hw. destruct q as [| | j q]; try done. destruct Hw as [-> Hw].
    destruct q as [[] | r |]; try done. apply Hw. }
  pose proof (main_join _ _ _ _ Eu Eq Hk (eq_sym E) Hj) as Hj'.
  eapply main_local; [done |]. destruct (i + 1 <? worker_count) eqn:El; simpl.
  - split; [lia |]. by replace (producer_thread (i + 1)) with (S (consumer_thread i)) by (unfold producer_thread, consumer_thread; lia).
  - replace (S (consumer_thread i)) with 7%nat in Hj' by (unfold consumer_thread, worker_count in *; lia).
    split; [unfold worker_count; lia |]. split; [done |]. rewrite <- E. eapply popped_value; [apply (ci_memory _ _ _ Hinv) |].
    apply (final_consumer po co s); [done | unfold worker_count; lia |]. unfold worker_count in *.
    destruct (decide (consumer_thread i = consumer_thread 0)) as [E0 | Hn].
    + rewrite <- E0. by exists W, q.
    + apply Hj. unfold consumer_thread in *. lia.
Qed.

Lemma compared_owner f l :
  0 <= l < worker_count -> exists u, owned_by (compared_var f l) = Some u /\ (1 <= u < 7)%nat.
Proof.
  intros Hl. unfold worker_count in Hl. destruct f; simpl; eexists; (split; [done |]); unfold producer_thread, consumer_thread; lia.
Qed.

Lemma main_one_of l vs : p = MOneOf l vs -> core_inv po co s'.
Proof.
  intros Ep. destruct main_facts as (Hst & Hok & _). rewrite Ep in Hst, Hok. destruct Hok as (Hl & Hj & Hin).
  destruct vs as [| v vs]; [by apply elem_of_nil in Hin |].
  destruct (compared_owner ConsumerValues l Hl) as (u & Hx & Hu).
  eapply (mpmc_main_read (consumer_value l) u (fun x => if x =? v then MRight l (l + 1) else MOneOf l vs)); [done.. | by rewrite Ep |].
  intros Hj' Hv. destruct (c_value (plains s (consumer_value l)) =? v) eqn:E; simpl.
  - split; [done |]. split; [lia | done].
  - split; [done |]. split; [done |]. rewrite Hv. apply Z.eqb_neq in E. by apply elem_of_cons in Hin as [? | ?].
Qed.

Lemma main_compare f l r a b : p = MCompare f l r a b -> core_inv po co s'.
Proof.
  intros Ep. destruct main_facts as (Hst & Hok & _). rewrite Ep in Hst, Hok. destruct Hok as (Hl & Hr & Hj & Ha & Hb).
  assert (Hdone : forall i, 0 <= i < worker_count -> pushed po (plains s) i /\ popped po co (plains s) i).
  { intros i Hi. unfold worker_count in Hi. split; [eapply final_producer | eapply final_consumer]; try done;
      apply Hj; unfold producer_thread, consumer_thread; lia. }
  assert (Hne : a <> b).
  { rewrite Ha, Hb. destruct (Hdone l), (Hdone r); try lia. eapply compared_distinct; [apply (ci_memory _ _ _ Hinv) | lia | done..]. }
  simpl in Hst. rewrite (proj2 (Z.eqb_neq a b) Hne) in Hst. injection Hst as E.
  assert (Hj' : joined V s' 7) by (apply joined_step; [done | by rewrite <- E]).
  eapply main_local; [done |]. destruct f; simpl; split_and!; (done || lia).
Qed.

Lemma mpmc_main_step : core_inv po co s'.
Proof.
  destruct main_facts as (Hst & Hok & _).
  assert (exists q, p = q) as [q Ep] by eauto. rewrite Ep in Hst, Hok.
  destruct q as [| | | | | | | i | i | i | i | l vs | l r | f l r | f l r a | f l r a b |]; try done.
  - by eapply main_create_producer.
  - by eapply main_create_consumer.
  - by eapply main_join_producer.
  - by eapply main_join_consumer.
  - by eapply main_one_of.
  - destruct Hok as (Hl & Hlr & Hj). simpl in Hst. injection Hst as E.
    assert (Hj' : joined V s' 7) by (apply joined_step; [done | by rewrite <- E]).
    eapply main_local; [done |]. destruct (r <? worker_count) eqn:E1; [simpl; split_and!; (done || lia) |].
    destruct (l + 1 <? worker_count) eqn:E2; [| done]. simpl. split_and!; [lia | lia | done |].
    rewrite <- E. eapply popped_value; [apply (ci_memory _ _ _ Hinv) |]. apply (final_consumer po co s); [done | lia |].
    apply Hj. unfold consumer_thread, worker_count in *. lia.
  - destruct Hok as (Hl & Hr & Hj). destruct (compared_owner f l) as (u & Hx & Hu); [lia |].
    eapply (mpmc_main_read (compared_var f l) u (fun a => MReadRight f l r a)); [done.. | by rewrite Ep |].
    intros Hj' Hv. simpl. by rewrite Hv.
  - destruct Hok as (Hl & Hr & Hj & Ha). destruct (compared_owner f r) as (u & Hx & Hu); [lia |].
    eapply (mpmc_main_read (compared_var f r) u (fun b => MCompare f l r a b)); [done.. | by rewrite Ep |].
    intros Hj' Hv. simpl. by rewrite !Hv.
  - by eapply main_compare.
Qed.

End main.

(** *** Executions *)

Lemma mpmc_core_step po co s t c s' : core_inv po co s -> step core s t c = Some s' -> exists po' co', core_inv po' co' s'.
Proof.
  intros Hinv Hs. assert (Hs' := Hs). unfold step in Hs'. destruct (threads s !! t) as [[[V p] |] |] eqn:Ht; try done.
  pose proof (lookup_lt_Some _ _ _ Ht) as Hlt. rewrite (ci_length _ _ _ Hinv) in Hlt.
  assert (Hid : t = 0%nat \/ exists i, 0 <= i < worker_count /\ (t = producer_thread i \/ t = consumer_thread i)).
  { unfold worker_count, producer_thread, consumer_thread.
    destruct t as [| [| [| [| [| [| [| t]]]]]]]; [by left | right.. | lia];
      [exists 0 | exists 0 | exists 1 | exists 1 | exists 2 | exists 2]; lia. }
  destruct Hid as [-> | (i & Hi & [-> | ->])].
  - pose proof (ci_main _ _ _ Hinv _ Ht) as Hok. destruct p as [p | |]; try done. exists po, co. by eapply mpmc_main_step.
  - destruct (mpmc_producer_step po co s s' i V c Hinv Hi Hs p Ht) as [po' H']. eauto.
  - destruct (mpmc_consumer_step po co s s' i V c Hinv Hi Hs p Ht) as [co' H']. eauto.
Qed.

(** The initialisation: the main thread runs alone. *)
Definition cell1_set (s : state) : Prop := hist s (sequence 1) = {[ 0%nat := mkMessage 1 view_zero ]}.

Definition values_set (s : state) (k : Z) : Prop :=
  forall i, 0 <= i < k -> c_value (plains s (producer_value i)) = initial_value i.

Definition progress (s : state) (p : main_pc) : Prop :=
  match p with
  | MInitCell i => i = 0 \/ i = 1
  | MInitEnqueue | MInitDequeue => cell1_set s
  | MSetProducerValue i => 0 <= i < worker_count /\ cell1_set s /\ values_set s i
  | MSetProducerSequence i => 0 <= i < worker_count /\ cell1_set s /\ values_set s (i + 1)
  | MSetConsumerValue i | MSetConsumerSequence i => 0 <= i < worker_count /\ cell1_set s /\ values_set s worker_count
  | MCreateProducer i => i = 0 /\ cell1_set s /\ values_set s worker_count
  | _ => False
  end.

Definition zero_history : history := {[ 0%nat := mkMessage 0 view_zero ]}.

Record init_inv (V : wview) (p : main_pc) (s : state) : Prop := {
  ii_threads : threads s = Some (V, InMain p) :: replicate 6 None;
  ii_bounded : bounded s;
  ii_raced : raced s = false;
  ii_failed : failed s = false;
  ii_known : forall x, covers V x (plains s x);
  ii_cells : forall j, plains s (cell_value j) = mkPlain 0 0 0;
  ii_zero : hist s (sequence 0) = zero_history /\ hist s enqueue_position = zero_history /\
    hist s dequeue_position = zero_history;
  ii_progress : progress s p;
}.

Lemma setup_init s V l v p p' :
  init_inv V p s -> bounded (set_thread (reset_history s l (mkMessage v view_zero)) 0 V (InMain p')) ->
  (l = sequence 1 \/ v = 0) ->
  progress (reset_history s l (mkMessage v view_zero)) p' ->
  init_inv V p' (set_thread (reset_history s l (mkMessage v view_zero)) 0 V (InMain p')).
Proof.
  intros [I1 I2 I3 I4 I5 I6 (Z1 & Z2 & Z3) I8] Hb Hl Hp. split; try done.
  - simpl. by rewrite I1.
  - simpl. unfold update. destruct Hl as [-> | ->]; [done |]. repeat case_decide; by subst.
Qed.

Lemma setup_write s V x v p p' :
  init_inv V p s -> (forall j, x <> cell_value j) ->
  let c := plains s x in
  let s1 := set_plain s x (mkPlain v (S (c_writes c)) (c_reads c)) in
  let V' := see_write V x (S (c_writes c)) in
  bounded (set_thread s1 0 V' (InMain p')) -> progress s1 p' -> init_inv V' p' (set_thread s1 0 V' (InMain p')).
Proof.
  intros [I1 I2 I3 I4 I5 I6 I7 I8] Hx c s1 V' Hb Hp. split; try done.
  - simpl. by rewrite I1.
  - intros y. simpl. destruct (decide (y = x)) as [-> |].
    + rewrite update_same. by apply covers_see_write.
    + rewrite update_other by done. by apply covers_see_other_write.
  - intros j. simpl. rewrite update_other by (by apply not_eq_sym). done.
Qed.

Lemma values_set_other s x c k : (forall i, x <> producer_value i) -> values_set s k -> values_set (set_plain s x c) k.
Proof. intros Hx Hv i Hi. simpl. rewrite update_other by (by apply not_eq_sym). by apply Hv. Qed.

Lemma init_step V p s t c s' :
  init_inv V p s -> (forall i, p <> MCreateProducer i) -> step core s t c = Some s' -> exists V' p', init_inv V' p' s'.
Proof.
  intros Hi Hnc Hs. pose proof (step_bounded _ s t c s' (ii_bounded _ _ _ Hi) Hs) as Hb.
  unfold step in Hs. rewrite (ii_threads _ _ _ Hi) in Hs.
  destruct t as [| t]; [| by do 6 (destruct t as [| t]; [done |])]. simpl in Hs.
  pose proof (ii_progress _ _ _ Hi) as Hp.
  assert (Hw : forall x, knows_all V x (plains s x) = true) by (intros x; apply covers_knows_all, (ii_known _ _ _ Hi)).
  destruct p as [i | | | i | i | i | i | i | | | | | | | | |]; try done; try (by destruct (Hnc i)); simpl in Hs;
    rewrite ?Hw in Hs; injection Hs as <-.
  - do 2 eexists. eapply setup_init; [done | done | destruct Hp as [-> | ->]; auto |].
    destruct Hp as [-> | ->]; [by right | apply update_same].
  - do 2 eexists. eapply setup_init; [done | done | by right | exact Hp].
  - do 2 eexists. eapply setup_init; [done | done | by right |]. split; [done |]. split; [exact Hp |]. intros i Hi'. lia.
  - destruct Hp as (Hr & Hc & Hv). do 2 eexists. eapply setup_write; [done | done | done |]. split; [done |]. split; [exact Hc |].
    intros i' Hi'. simpl. destruct (decide (i' = i)) as [-> |]; [by rewrite update_same |].
    rewrite update_other by congruence. apply Hv. lia.
  - destruct Hp as (Hr & Hc & Hv). do 2 eexists. eapply setup_write; [done | done | done |].
    destruct (i + 1 <? worker_count) eqn:E; (split; [unfold worker_count in *; lia |]); (split; [exact Hc |]); apply values_set_other; try done.
    by replace worker_count with (i + 1) by lia.
  - destruct Hp as (Hr & Hc & Hv). do 2 eexists. eapply setup_write; [done | done | done |]. split; [done |]. split; [exact Hc |].
    by apply values_set_other.
  - destruct Hp as (Hr & Hc & Hv). do 2 eexists. eapply setup_write; [done | done | done |].
    destruct (i + 1 <? worker_count) eqn:E; (split; [lia || done |]); (split; [exact Hc |]); by apply values_set_other.
Qed.

(** Once everything is initialised no position has been taken. *)
Lemma init_core V s : init_inv V (MCreateProducer 0) s -> core_inv [] [] s.
Proof.
  intros [I1 I2 I3 I4 I5 I6 (Z1 & Z2 & Z3) (_ & I8 & I9)].
  assert (Hnone : forall u th, (1 <= u)%nat -> threads s !! u = Some th -> th = None).
  { intros u th Hu Hth. rewrite I1 in Hth. destruct u as [| u]; [lia |].
    change (replicate 6 (None : option (wview * pc)) !! u = Some th) in Hth. by apply lookup_replicate in Hth as [-> _]. }
  assert (Hcounter : counter zero_history 0).
  { intros k. unfold zero_history. destruct (decide (k = 0%nat)) as [-> |]; [by rewrite lookup_singleton_eq |].
    rewrite lookup_singleton_ne by done. lia. }
  split; try done.
  - by rewrite I1.
  - split; try done; [split; constructor | split; constructor | by rewrite Z2 | by rewrite Z3 |].
    intros j Hj. assert (Hh : hist s (sequence j) = {[ 0%nat := mkMessage j view_zero ]}) by (by destruct Hj as [-> | ->]).
    split; rewrite Hh.
    + intros t1 t2 m1 m2 [<- <-]%lookup_singleton_Some [<- <-]%lookup_singleton_Some. lia.
    + exists 0%nat, (mkMessage j view_zero). split.
      * split; [by rewrite lookup_singleton_eq |]. by intros t' m' [<- _]%lookup_singleton_Some.
      * assert (E : j mod 2 = j) by (by destruct Hj as [-> | ->]). unfold cell_top. simpl. rewrite E, Z.eqb_refl, I6.
        split; [done |]. split; [unfold pops; destruct Hj; simpl; lia |]. intros _. split; [done |].
        intros i Hi. simpl in Hi. lia.
  - intros th Hth. rewrite I1 in Hth. injection Hth as <-. split; [done |]. intros u Hu. split; [| intros x _; apply I5].
    unfold producer_thread in Hu. rewrite I1. destruct u as [| u]; [lia |].
    change (replicate 6 (None : option (wview * pc)) !! u = Some None). apply lookup_replicate_2. lia.
  - intros i th Hi Hth. rewrite (Hnone (producer_thread i) th ltac:(unfold producer_thread; lia) Hth). by apply not_elem_of_nil.
  - intros i th Hi Hth. rewrite (Hnone (consumer_thread i) th ltac:(unfold consumer_thread; lia) Hth). by apply not_elem_of_nil.
Qed.

Lemma start_init : init_inv view_zero (MInitCell 0) mpmc_core_start.
Proof.
  split; [done | | done | done | | done | done | by left]; [| intros x; split; [done | simpl; lia]]. split; simpl.
  - intros t V p H. destruct t as [| t]; [injection H as <- <-; apply below_zero |].
    by do 6 (destruct t as [| t]; [done |]).
  - intros l t m H. apply lookup_singleton_Some in H as [_ <-]. apply below_zero.
  - intros W [= <-]. apply below_zero.
Qed.

Lemma reachable_core s :
  reachable core mpmc_core_start s -> (exists V p, init_inv V p s) \/ exists po co, core_inv po co s.
Proof.
  induction 1 as [| s t c s' _ IH Hs]; [left; eauto using start_init |].
  destruct IH as [(V & p & Hi) | (po & co & Hi)]; [| right; by eapply mpmc_core_step].
  assert (Hcase : p = MCreateProducer 0 \/ forall i, p <> MCreateProducer i).
  { destruct p; try (by right). left. by destruct (ii_progress _ _ _ Hi) as [-> _]. }
  destruct Hcase as [-> | Hn]; [right | left; by eapply init_step]. eapply mpmc_core_step; [by apply (init_core V) | done].
Qed.

End proofs.

(** ** Theorems *)

(** C11: with acquire loads and release stores of the cell sequences no execution of
    the MPMC harness has a data race, and none of its assertions fails: the
    consumers get pushed values, no two of them the same one, and no two producers
    or consumers the same position. *)
Theorem mpmc_core_correct s :
  reachable (mpmc_core acquire release) mpmc_core_start s -> raced s = false /\ failed s = false.
Proof. intros [(V & p & Hi) | (po & co & Hi)]%reachable_core; by destruct Hi. Qed.

Definition at_ (t n : nat) : nat * choice := (t, mkChoice n false).

(** A call that succeeds, on the counter message [k] and the sequence message
    [seen], with the new message at time [new]. *)
Definition push_schedule (t k seen new : nat) : list (nat * choice) :=
  [at_ t 0; at_ t k; at_ t seen; at_ t k; at_ t 0; at_ t 0; at_ t new; at_ t 0].
Definition pop_schedule (t k seen new : nat) : list (nat * choice) :=
  [at_ t k; at_ t seen; at_ t k; at_ t 0; at_ t 0; at_ t 0; at_ t new; at_ t 0].

(** Two pushes fill the cells, the third reuses the first cell after a pop. *)
Definition exchange : list (nat * choice) :=
  replicate 22 (at_ 0 0) ++ push_schedule 1 0 0 5 ++ push_schedule 3 1 0 5 ++ pop_schedule 6 0 5 6 ++
  push_schedule 5 2 6 8 ++ pop_schedule 2 1 5 6 ++ pop_schedule 4 2 8 9 ++ replicate 45 (at_ 0 0).

Lemma mpmc_core_correct_witness :
  let s := outcome (mpmc_core acquire release) mpmc_core_start exchange in
  program_point s 0 = Some (InMain MReturn) /\ raced s = false /\ failed s = false.
Proof.
  intros s. split; [vm_compute; reflexivity |]. apply mpmc_core_correct. apply outcome_reachable. vm_compute. reflexivity.
Defined.

(** the negative control: with relaxed loads and stores of the cell sequences
    the harness has an execution with a data race. *)
Theorem mpmc_core_relaxed_races :
  exists s, reachable (mpmc_core relaxed relaxed) mpmc_core_start s /\ raced s = true.
Proof.
  exists (outcome (mpmc_core relaxed relaxed) mpmc_core_start (take 42 exchange)).
  split; [apply outcome_reachable |]; vm_compute; reflexivity.
Qed.
